(* ===== verification/_CoqProject ===== *)
-Q . S2P
Prelude.v
PagingBits.v
Paging.v
PagingSpec.v
PagingTree.v
PagingRefine.v
PagingMap.v
PagingTyping.v
Boot.v
Cpu.v
Sbi.v
Process.v
Riscv.v
TrapAsm.v
SpinLock.v
SharedLock.v
ArcInject.v
ArcConcurrent.v
AsyncLock.v
Refcount.v
ArcInjectStd.v
SendGeneric.v
Executor.v
Wakers.v
ExecutorLife.v
HartLoop.v
SendConcurrent.v
Notify.v
Plic.v
Utf8.v
KernelIo.v
BTreeMap.v
Fdt.v
FdtStatics.v
FdtSpec.v
Harts.v
SyscallAsm.v
HartTraps.v
ProcessLoop.v
Startup.v
Printing.v
RepoTests.v
