(* ===== verification/Prelude.v ===== *)
(** * Verification of the async-kernel

    A model of the RISC-V kernel under [src/kernel], crate by crate, and the
    theorems that make it correct.  Every definition is a translation of the Rust
    code and can be evaluated; what is not in the repository (the firmware, the
    third-party allocator, compiled futures) is a parameter.

    ** The program

    The bootloader ([kernel_bootloader]) builds page tables ([kernel_paging]),
    gives the allocator a heap and jumps to [main] of [kernel_main] in the upper
    half.  [main] starts the other harts through the firmware, gives every hart
    page tables of its own and runs an executor of futures ([kernel_executor]) on
    each.  Tasks run processes ([kernel_process]) and come back through the trap
    handler.  Locks ([kernel_lock], generic over [kernel_send_generic]), counted
    references ([arcinject]), readers ([kernel_io]) and drivers
    ([kernel_chip_drivers]) are used by all of them.

    ** How it is modelled

    - [Prelude] (this file): the outcome of Rust code.  A function answers [Val],
      or stops with the [Panic] it raises; [Undefined] is an access the language
      gives no meaning.  The build is the debug build, so arithmetic is checked
      ([checked_add] and so on) unless the code says [wrapping]; [usize] is 64 bits
      wide and an integer is a [Z].  A [for] loop is [for_each]; concurrent code is
      one operation on the shared state ([step]) under a scheduler ([run_schedule]
      or a step relation and its closure).
    - Paging, from [kernel_paging/src/paging.rs] and [lib.rs]: [PagingBits] (page
      numbers, canonical addresses, bits of entries), [Paging] ([query], [split],
      [map_internal], [map] on a memory of tables, pointers as addresses),
      [PagingSpec] ([query] against the privileged specification), [PagingTree]
      (tables as trees, the specification of [map]), [PagingRefine] (the memory
      implements the tree), [PagingMap] (what [map] does to the translation),
      [PagingTyping] (sequences of requests).
    - [Boot]: [kernel_allocator], [pre_main] and [hart_entry] of the bootloader,
      [main] of the kernel up to its first future, the tables of
      [common_hart_code].  [Harts]: the loop of [async_main] that starts the harts,
      their way to [setup_hart], [HartLocals], the task of a hart, the serial port.
    - [Cpu]: [kernel_trap_frame] and the control registers of [kernel_cpu].
      [Sbi]: [kernel_sbi], [timer.rs] and [trap_handler.rs].  [Process]:
      [kernel_process], [kernel_syscall], [kernel_util] and the set-up of a hart.
    - [Riscv] and [TrapAsm]: the assembly of [kernel_main/src/asm/trap.S] and
      [syscall.S], instruction by instruction, on a hart with its general registers
      and a memory of words ([Riscv.exec] runs the text of a routine).  The routines
      call, and are called by, the handler of [Sbi] and the frames of [Process].
      [SyscallAsm]: the system calls [asm.rs] declares, the entry points of the
      images and the routines nothing calls.  [HartTraps]: [setup_hart] and every
      trap the hart takes after it.  [ProcessLoop]: the task of a hart, a process
      turn by turn, on the machine of [TrapAsm] with its lock and its frames.
    - [SpinLock]: [kernel_lock/src/spin] and [interrupt].  [SharedLock]:
      [shared] and [simple_shared], the locks that disable interrupts.
      [AsyncLock]: [future], the locks whose acquisition is a future, with their
      data.  [SendGeneric] and [Refcount]: the traits of [kernel_send_generic] as
      classes with laws, and the single-threaded and the atomic instances.
    - [ArcInject], [ArcConcurrent], [ArcInjectStd]: [arcinject], by whole operations,
      by interleaved atomic accesses, and on the blocks of a standard [Arc].
    - [Executor]: both executors (one Section, instantiated twice), the root loop
      and the counts of [Rc] wakers.  [Wakers]: wakers as data and table of
      functions.  [ExecutorLife]: the counted block of an executor, its handles and
      the weak references of its wakers.  [HartLoop]: the root loop, the future of a
      hart and the executor it awaits, in one machine.  [SendConcurrent]: the poll
      of the shared executor and wake-ups from other harts, cut at the locks.
      [Startup]: [async_main] with the executors and the [HartLocals] of all harts.
      [Notify]: [local_notify.rs] and [wait_future.rs].
    - [Plic], [Fdt], [FdtStatics], [FdtSpec]: the interrupt controller and the device tree, over
      [BTreeMap] and [Utf8]; [FdtSpec] is the encoder of the Devicetree
      Specification.  [KernelIo]: the default methods of the reader trait.
    - [Printing]: the serial port, the printing macros of every crate, [Debug] of
      page table entries and the printing of device trees.  [RepoTests]: the tests of
      the repository, run on the model.

    ** What is shown

    - Address translation.  [query] is the walk of the privileged specification
      ([query_refines_hardware]); [map] on memory implements [map] on trees for
      every page-aligned range ([map_refines_tmap]) and changes the translation of
      its range and of nothing else, whatever superpages it splits
      ([map_correct]); any sequence of requests leaves a typed table on which
      [query] never stops ([map_sequence_typed]); [canonicalize_roundtrip],
      [query_results].
    - Start-up.  The tables of the bootloader translate every address as intended
      and carry over to the kernel ([boot_chain]); so do the tables of each hart
      ([common_hart_tables_spec]), which agree with them where the kernel runs
      ([hart_tables_agree_with_boot]); all harts the firmware knows are started once,
      on stacks of their own, and arrive in [setup_hart] ([spawn_harts_boot]); there
      each gets a live executor and a handle of the shared one
      ([startup_executors]).
    - Locks, in every interleaving: [mutual_exclusion], [readers_xor_writer],
      [async_rwlock_exclusion], [async_guards_isolated] (a guard sees only its
      owner's writes), [shared_lock_nesting] (interrupts stay off while a lock is
      held), [thread_localities_keep_promise] (both implementations of the generic
      locks and reference counts meet the same contract).
    - Executors and notifications, liveness: [executor_wakes_context]; on a whole
      hart, [hart_polls_after_wake], [hart_runs_on]; across harts,
      [shared_wake_not_lost]; [tx_ready_no_lost_wake], [wait_future_delivers]; and
      outside the list of properties [push_task_spec], [root_loop_wakeups],
      [executors_agree].
    - Counted references: [concurrent_counts_exact], [rc_waker_balanced],
      [executor_lifetime].
    - Device tree: what the encoder writes [init] reads back
      ([init_decodes_flattened]); building terminates on every blob
      ([build_terminates]); [get_finds_node], [init_links_phandles].
    - Input: [read_exact_spec], [read_to_end_reads_all]; [read_to_string_spec].
    - Traps, processes, interrupts: [trap_handler_spec]; outside the list
      [switch_to_and_come_back_spec], [set_enabled_spec].  Assembly and handler
      together: no trap a hart takes after its set-up changes a register of the
      interrupted code ([hart_traps_transparent]), a turn of a process ends behind
      its call with the registers it began with ([switch_and_come_back], and with
      locks and frames [process_turn_dangles]); the declared system calls
      ([declared_syscalls]).
    - Where the code does not do what it means to, a theorem states what it does
      instead: [arcinject_unsound], [async_rwlock_lost_wakeup], [async_mutex_guard],
      [hart_hangs] (a hart that waits for a task hangs), [process_turn_dangles] (the
      end of a turn reads freed memory), and outside the list of properties [interrupt_rwlock_broken],
      [handle_poll_inverted], [spawn_in_first_poll_stops], [guess_number_as_text],
      [new_supervisor_spec], [map_extra_page], [map_cross_region],
      [map_misaligned_superpage], [boxed_zeroed_keeps_words],
      [call_sbi_error_from_value], [do_syscall_always_exits], [lock_count_race],
      [simple_shared_restore], [rx_ready_latched], [new_std_endings],
      [unlocked_lines_mix], [spawned_task_waits], [test_overflows],
      [lock_check_never], [do_syscall_internal_stops], [store_to_trap_frame_spec].
    - Printing, outside the list of properties too: [entry_debug_read_back],
      [pretty_read_back], [printers_reach_the_port]; on wakers and references
      [never_waker_contract], [arcinject_balanced].

    ** Bounds and fuel

    - [Paging.map_internal] and [query] recurse on the level, at most 6.
    - [Fdt.build_loop] takes one unit of fuel for each token and [build_fuel] is the
      length of the blob and one more: every token takes at least four bytes
      ([build_terminates]).  [Node.get_fuel] takes one unit for each component of a
      path, which has fewer components than bytes and one.
    - [KernelIo]'s loops take one unit for each [read]; the theorems say how many
      are enough.  [Harts.spawn_harts] takes one for each hart and one more.
    - Counts that would wrap after 2^60 operations are bounded in the statements
      (numbers of harts, tasks, readers, handles).

    ** Not modelled

    - The instructions behind the register accesses of [kernel_cpu] (they read and
      write fields of [Hart]), [wfi] and the fences; the assembly for 32 bits and
      for harts without floating point.  A poll of the process loop never returns,
      so [HartLoop] takes tasks that do, and [ProcessLoop] the loop by its turns.
      What the compiler makes of the Rust code between two routines is a parameter
      of [TrapAsm] ([compiled]), with the words it has to leave alone.
    - Unicode's tables: the escapes of [{:?}] for strings are a parameter of
      [Printing].
    - Third-party crates: the slab allocator, [lock_api], [sbi], [log]; the error
      type of [kernel_syscall_abi], which is not in the repository.
    - Weak memory: atomic operations of different harts are interleaved one at a
      time.  Translation caches and the timing of interrupts within one Rust
      operation are not part of the model.
    - Ranges that cross a region of [map] are covered by the refinement to trees
      and by [map_cross_region], not by [map_correct]. *)

From Stdlib Require Export ZArith Lia.
From stdpp Require Export base tactics gmap list strings numbers option.
#[global] Open Scope Z_scope.

(** ** Outcomes of Rust code

    A function of the program ends with a value, or it stops: a panic of the
    debug build the repository's scripts produce (overflow checks on), or an
    access the language leaves undefined.  [Result] is the language's own
    [Result], a value like any other. *)

Inductive Panic :=
  | Overflow          (* debug overflow check of [+ - * << >>] *)
  | IndexOutOfBounds  (* slice or array index *)
  | UnwrapFailed      (* [unwrap] on [None] or [Err] *)
  | AssertFailed      (* [assert!] *)
  | ExplicitPanic     (* [panic!] *)
  | BorrowConflict    (* [RefCell]: already borrowed *)
  | Deadlock          (* a lock taken again by its only possible releaser *)
  | OutOfMemory       (* the global allocator returned null *)
  | Undefined.        (* a dereference or access outside the language *)

#[export] Instance Panic_eq_dec : EqDecision Panic.
Proof. solve_decision. Defined.

Inductive outcome (A : Type) : Type :=
  | Val (a : A)
  | Stop (p : Panic).
Arguments Val {A} a.
Arguments Stop {A} p.

#[export] Instance outcome_eq_dec {A} `{EqDecision A} : EqDecision (outcome A).
Proof. solve_decision. Defined.

#[export] Instance outcome_ret : MRet outcome := fun A a => Val a.
#[export] Instance outcome_bind : MBind outcome := fun A B f m =>
  match m with Val a => f a | Stop p => Stop p end.
#[export] Instance outcome_fmap : FMap outcome := fun A B f m =>
  match m with Val a => Val (f a) | Stop p => Stop p end.

Inductive Result (A E : Type) : Type :=
  | Ok (a : A)
  | Err (e : E).
Arguments Ok {A E} a.
Arguments Err {A E} e.

#[export] Instance Result_eq_dec {A E} `{EqDecision A, EqDecision E} :
  EqDecision (Result A E).
Proof. solve_decision. Defined.

Declare Scope rust_scope.
Delimit Scope rust_scope with rust.
#[global] Open Scope rust_scope.

(** [assert! b ;; k], [unwrap! o as x ;; k] as the macros of the language. *)
Notation "'assert!' b ;; k" := (if b then k else Stop AssertFailed)
  (at level 100, b at level 89, k at level 200, right associativity) : rust_scope.
Notation "'unwrap!' o 'as' x ;; k" :=
  (match o with Some x => k | None => Stop UnwrapFailed end)
  (at level 100, o at level 89, x name, k at level 200, right associativity) : rust_scope.

(** [for x in l { body }] over a state. *)
Fixpoint for_each {A S} (body : S -> A -> outcome S) (l : list A) (s : S) : outcome S :=
  match l with
  | [] => Val s
  | x :: l' => s' ← body s x; for_each body l' s'
  end.

(** ** Machine words: [usize] is 64 bits on rv64gc *)

Definition usize_bits : Z := 64.
Definition usize_size : Z := 2 ^ 64.
Definition usize_MAX : Z := 2 ^ 64 - 1.

Definition is_usize (z : Z) : Prop := 0 <= z < 2 ^ 64.

Definition checked_add (w a b : Z) : outcome Z :=
  if a + b <? 2 ^ w then Val (a + b) else Stop Overflow.
Definition checked_sub (a b : Z) : outcome Z :=
  if a <? b then Stop Overflow else Val (a - b).
Definition checked_mul (w a b : Z) : outcome Z :=
  if a * b <? 2 ^ w then Val (a * b) else Stop Overflow.
(** [<<] and [>>] check the shift amount only; the bits shifted out are lost. *)
Definition checked_shl (w a n : Z) : outcome Z :=
  if n <? w then Val (Z.shiftl a n mod 2 ^ w) else Stop Overflow.
Definition checked_shr (w a n : Z) : outcome Z :=
  if n <? w then Val (Z.shiftr a n) else Stop Overflow.

Definition wrapping_add (a b : Z) : Z := (a + b) mod 2 ^ 64.
Definition wrapping_sub (a b : Z) : Z := (a - b) mod 2 ^ 64.
Definition saturating_add (a b : Z) : Z := Z.min (a + b) (2 ^ 64 - 1).
(** [!a] on [usize]. *)
Definition unot (a : Z) : Z := Z.lxor a (2 ^ 64 - 1).
(** [a << n] where the code's [n] is a constant below 64. *)
Definition ushl (a n : Z) : Z := Z.shiftl a n mod 2 ^ 64.

(** [array[idx]] and [array[idx] = x]. *)
Definition index {A} (l : list A) (i : Z) : outcome A :=
  if i <? 0 then Stop IndexOutOfBounds
  else match l !! Z.to_nat i with Some x => Val x | None => Stop IndexOutOfBounds end.
Definition index_mut {A} (l : list A) (i : Z) (x : A) : outcome (list A) :=
  if (0 <=? i) && (i <? Z.of_nat (length l)) then Val (<[Z.to_nat i := x]> l)
  else Stop IndexOutOfBounds.

(** ** Generic lemmas *)

Lemma bind_Val {A B} (f : A -> outcome B) a : (Val a ≫= f) = f a.
Proof. reflexivity. Qed.

Lemma bind_Stop {A B} (f : A -> outcome B) p : (Stop p ≫= f) = Stop p.
Proof. reflexivity. Qed.

Lemma bind_inv {A B} (m : outcome A) (f : A -> outcome B) b :
  (m ≫= f) = Val b -> exists a, m = Val a /\ f a = Val b.
Proof. destruct m; simpl; [eauto | discriminate]. Qed.

Lemma checked_add_Val w a b : a + b < 2 ^ w -> checked_add w a b = Val (a + b).
Proof. intros H. unfold checked_add. by destruct (Z.ltb_spec (a + b) (2 ^ w)); [|lia]. Qed.

Lemma checked_sub_Val a b : b <= a -> checked_sub a b = Val (a - b).
Proof. intros H. unfold checked_sub. by destruct (Z.ltb_spec a b); [lia|]. Qed.

Lemma checked_mul_Val w a b : a * b < 2 ^ w -> checked_mul w a b = Val (a * b).
Proof. intros H. unfold checked_mul. by destruct (Z.ltb_spec (a * b) (2 ^ w)); [|lia]. Qed.

Lemma for_each_app {A S} (body : S -> A -> outcome S) l1 l2 s :
  for_each body (l1 ++ l2) s = (s' ← for_each body l1 s; for_each body l2 s').
Proof.
  revert s; induction l1 as [|x l1 IH]; intros s; simpl; [reflexivity|].
  destruct (body s x); simpl; auto.
Qed.

Lemma for_each_ext {A S} (b1 b2 : S -> A -> outcome S) l s :
  (forall x s, x ∈ l -> b1 s x = b2 s x) -> for_each b1 l s = for_each b2 l s.
Proof.
  revert s; induction l as [|x l IH]; intros s Hb; cbn [for_each]; [done|].
  rewrite Hb by left. destruct (b2 s x) as [s'|p]; cbn [mbind outcome_bind]; [|done].
  apply IH. intros y s1 Hy. apply Hb. by right.
Qed.

Lemma for_each_preserves {A S} (body : S -> A -> outcome S) (I : S -> Prop) l s s' :
  (forall x s s', body s x = Val s' -> I s -> I s') ->
  for_each body l s = Val s' -> I s -> I s'.
Proof.
  intros Hb. revert s. induction l as [|x l IH]; intros s E H0; cbn [for_each] in E.
  - by injection E as <-.
  - apply bind_inv in E as (s1 & E1 & E). eauto.
Qed.

(** The loop rule: an invariant [I] of the iterations done so far, and the ways
    [Q] an iteration may stop. *)
Lemma for_each_rule {A S} (body : S -> A -> outcome S)
    (I : list A -> S -> Prop) (Q : Panic -> Prop) l s :
  I [] s ->
  (forall don x rest s, l = don ++ x :: rest -> I don s ->
     match body s x with Val s' => I (don ++ [x]) s' | Stop p => Q p end) ->
  match for_each body l s with Val s' => I l s' | Stop p => Q p end.
Proof.
  intros H0 Hstep.
  assert (Hg : forall todo don s, l = don ++ todo -> I don s ->
            match for_each body todo s with Val s' => I l s' | Stop p => Q p end).
  { induction todo as [|x todo IH]; intros don s1 Hl HI; simpl.
    - rewrite app_nil_r in Hl; by subst.
    - specialize (Hstep don x todo s1 Hl HI).
      destruct (body s1 x) as [s2|p]; simpl; [|done].
      apply (IH (don ++ [x])); [|done]. by rewrite <-app_assoc. }
  by apply (Hg l []).
Qed.

(** *** Bits and arithmetic *)

#[global] Arguments Z.testbit : simpl never.
#[global] Arguments Z.land : simpl never.
#[global] Arguments Z.lor : simpl never.
#[global] Arguments Z.lxor : simpl never.
#[global] Arguments Z.shiftl : simpl never.
#[global] Arguments Z.shiftr : simpl never.
#[global] Arguments Z.pow : simpl never.
#[global] Arguments Z.div : simpl never.
#[global] Arguments Z.modulo : simpl never.
#[global] Arguments Z.of_nat : simpl never.

Create HintDb bits discriminated.
Create Rewrite HintDb bits.

Lemma testbit_high (a n i : Z) : 0 <= a < 2 ^ n -> n <= i -> Z.testbit a i = false.
Proof.
  intros Ha Hi. destruct (decide (0 <= n)) as [Hn|Hn].
  - rewrite <-(Z.mod_small a (2 ^ n)) by lia. by apply Z.mod_pow2_bits_high.
  - rewrite Z.pow_neg_r in Ha by lia. lia.
Qed.

Lemma testbit_mod_pow2 (a n i : Z) :
  0 <= n -> Z.testbit (a mod 2 ^ n) i = (i <? n) && Z.testbit a i.
Proof.
  intros Hn. destruct (Z.ltb_spec i n).
  - by rewrite Z.mod_pow2_bits_low.
  - by rewrite Z.mod_pow2_bits_high.
Qed.

Lemma testbit_ones_sub (n i : Z) :
  0 <= n -> Z.testbit (2 ^ n - 1) i = (0 <=? i) && (i <? n).
Proof.
  intros Hn. replace (2 ^ n - 1) with (Z.ones n) by (rewrite Z.ones_equiv; lia).
  destruct (Z.leb_spec 0 i); [|by rewrite Z.testbit_neg_r].
  destruct (Z.ltb_spec i n); [apply Z.ones_spec_low|apply Z.ones_spec_high]; lia.
Qed.

Lemma testbit_shiftl (a n i : Z) :
  0 <= i -> Z.testbit (Z.shiftl a n) i = Z.testbit a (i - n).
Proof. intros; by apply Z.shiftl_spec. Qed.

Lemma testbit_shiftr (a n i : Z) :
  0 <= i -> Z.testbit (Z.shiftr a n) i = Z.testbit a (i + n).
Proof. intros; by apply Z.shiftr_spec. Qed.

Lemma testbit_unot (a i : Z) :
  Z.testbit (unot a) i = xorb (Z.testbit a i) ((0 <=? i) && (i <? 64)).
Proof. unfold unot. by rewrite Z.lxor_spec, (testbit_ones_sub 64) by lia. Qed.

#[export] Hint Rewrite Z.land_spec Z.lor_spec Z.lxor_spec testbit_unot Z.testbit_0_l : bits.
#[export] Hint Rewrite testbit_shiftl testbit_shiftr using lia : bits.
#[export] Hint Rewrite testbit_mod_pow2 testbit_ones_sub using lia : bits.

Lemma mod_pow2_weaken (a m n : Z) : 0 <= n <= m -> (a mod 2 ^ m) mod 2 ^ n = a mod 2 ^ n.
Proof.
  intros H. symmetry. apply Znumtheory.Zmod_div_mod; [lia|lia|].
  exists (2 ^ (m - n)). rewrite <-Z.pow_add_r by lia. f_equal; lia.
Qed.

Lemma land_ones_mod (a n : Z) : 0 <= n -> Z.land a (2 ^ n - 1) = a mod 2 ^ n.
Proof.
  intros Hn. replace (2 ^ n - 1) with (Z.ones n) by (rewrite Z.ones_equiv; lia).
  by apply Z.land_ones.
Qed.

Lemma lor_add (a b n : Z) :
  0 <= n -> a mod 2 ^ n = 0 -> 0 <= b < 2 ^ n -> Z.lor a b = a + b.
Proof.
  intros Hn Ha Hb. rewrite Z.add_nocarry_lxor.
  - apply Z.bits_inj'; intros i Hi. rewrite Z.lor_spec, Z.lxor_spec.
    destruct (Z.ltb_spec i n).
    + replace (Z.testbit a i) with false; [by destruct (Z.testbit b i)|].
      rewrite <-(Z.mod_pow2_bits_low a n i) by lia. by rewrite Ha, Z.testbit_0_l.
    + rewrite (testbit_high b n i) by lia. by destruct (Z.testbit a i).
  - apply Z.bits_inj'; intros i Hi. rewrite Z.land_spec, Z.testbit_0_l.
    destruct (Z.ltb_spec i n).
    + rewrite <-(Z.mod_pow2_bits_low a n i) by lia. by rewrite Ha, Z.testbit_0_l.
    + rewrite (testbit_high b n i) by lia. by rewrite andb_false_r.
Qed.

Lemma unot_mask (n : Z) : 0 <= n <= 64 -> unot (2 ^ n - 1) = 2 ^ 64 - 2 ^ n.
Proof.
  intros Hn. unfold unot. rewrite Z.lxor_comm.
  replace (2 ^ 64 - 1) with (Z.ones 64) by reflexivity.
  replace (2 ^ n - 1) with (Z.ones n) by (rewrite Z.ones_equiv; lia).
  assert (E : Z.lxor (Z.ones 64) (Z.ones n) = Z.ldiff (Z.ones 64) (Z.ones n)).
  { apply Z.bits_inj'; intros i Hi. rewrite Z.lxor_spec, Z.ldiff_spec.
    destruct (Z.ltb_spec i n).
    - rewrite !Z.ones_spec_low by lia. done.
    - rewrite (Z.ones_spec_high n) by lia. by rewrite xorb_false_r, andb_true_r. }
  rewrite E, <-Z.sub_nocarry_ldiff; [rewrite !Z.ones_equiv; lia|].
  apply Z.bits_inj'; intros i Hi. rewrite Z.ldiff_spec, Z.testbit_0_l.
  destruct (Z.ltb_spec i 64).
  - rewrite (Z.ones_spec_low 64) by lia. by rewrite andb_false_r.
  - rewrite (Z.ones_spec_high n) by lia. done.
Qed.

(** Clearing the low [n] bits of a [usize] with a mask. *)
Lemma land_high_mask (a n : Z) :
  0 <= n <= 64 -> is_usize a -> Z.land a (2 ^ 64 - 2 ^ n) = a - a mod 2 ^ n.
Proof.
  intros Hn Ha. rewrite <-(unot_mask n) by done.
  assert (Hd : Z.land a (unot (2 ^ n - 1)) = Z.ldiff a (Z.ones n)).
  { apply Z.bits_inj'; intros i Hi. rewrite Z.ldiff_spec, Z.land_spec, testbit_unot.
    rewrite testbit_ones_sub by lia.
    destruct (Z.ltb_spec i n).
    - rewrite Z.ones_spec_low by lia.
      destruct (Z.leb_spec 0 i), (Z.ltb_spec i 64); simpl; try lia;
        by rewrite ?andb_false_r.
    - rewrite Z.ones_spec_high by lia.
      destruct (Z.ltb_spec i 64); destruct (Z.leb_spec 0 i); simpl; try lia; [done|].
      unfold is_usize in Ha. by rewrite (testbit_high a 64 i). }
  rewrite Hd, Z.ldiff_ones_r by lia.
  rewrite Z.shiftl_mul_pow2, Z.shiftr_div_pow2 by lia.
  pose proof (Z.div_mod a (2 ^ n) ltac:(apply Z.pow_nonzero; lia)). lia.
Qed.

(** Powers of two evaluated at constant exponents, for [lia]. *)
Ltac pow2 :=
  repeat match goal with
  | |- context [2 ^ Zpos ?p] => let v := eval vm_compute in (2 ^ Zpos p) in change (2 ^ Zpos p) with v
  | H : context [2 ^ Zpos ?p] |- _ =>
      let v := eval vm_compute in (2 ^ Zpos p) in change (2 ^ Zpos p) with v in H
  end.

(** Pull the binds of a computation apart in the hypotheses. *)
Ltac inv_bind :=
  repeat match goal with
  | H : (_ ≫= _) = Val _ |- _ =>
      let a := fresh "a" in let E := fresh "E" in
      apply bind_inv in H; destruct H as (a & E & H)
  end.

(** Run one checked operation that does not overflow. *)
Ltac checked :=
  first [rewrite checked_add_Val by lia | rewrite checked_sub_Val by lia
        | rewrite checked_mul_Val by lia | rewrite checked_mul_Val by nia];
  cbn [mbind outcome_bind].

(** Split on every boolean comparison of [Z] in the goal. *)
Ltac cmp_cases :=
  repeat match goal with
  | |- context [?a <? ?b] => destruct (Z.ltb_spec a b)
  | |- context [?a <=? ?b] => destruct (Z.leb_spec a b)
  | |- context [?a =? ?b] => destruct (Z.eqb_spec a b)
  end.

(** Equality of words bit by bit. *)
Ltac bitwise i :=
  apply Z.bits_inj'; intros i ?; autorewrite with bits.

Lemma is_usize_mod (a : Z) : is_usize (a mod 2 ^ 64).
Proof. unfold is_usize. apply Z.mod_pos_bound. lia. Qed.

Lemma land_usize (a b : Z) : is_usize a -> 0 <= b -> is_usize (Z.land a b).
Proof.
  unfold is_usize. intros Ha Hb.
  assert (0 <= Z.land a b) by (apply Z.land_nonneg; lia). split; [done|].
  assert (E : Z.land a b = Z.land a b mod 2 ^ 64); [|rewrite E; apply Z.mod_pos_bound; lia].
  bitwise i. destruct (Z.ltb_spec i 64); [done|]. by rewrite (testbit_high a 64 i).
Qed.

Lemma lor_usize (a b : Z) : is_usize a -> is_usize b -> is_usize (Z.lor a b).
Proof.
  unfold is_usize. intros Ha Hb.
  assert (0 <= Z.lor a b) by (apply Z.lor_nonneg; lia). split; [done|].
  assert (E : Z.lor a b = Z.lor a b mod 2 ^ 64); [|rewrite E; apply Z.mod_pos_bound; lia].
  bitwise i. destruct (Z.ltb_spec i 64); [done|].
  by rewrite (testbit_high a 64 i), (testbit_high b 64 i).
Qed.

#[export] Hint Resolve is_usize_mod land_usize lor_usize : bits.

Lemma index_Val {A} (l : list A) i x :
  0 <= i -> l !! Z.to_nat i = Some x -> index l i = Val x.
Proof. intros Hi Hx. unfold index. rewrite Hx. by destruct (Z.ltb_spec i 0); [lia|]. Qed.

Lemma index_inv {A} (l : list A) i x :
  index l i = Val x -> 0 <= i < Z.of_nat (length l) /\ l !! Z.to_nat i = Some x.
Proof.
  unfold index. destruct (Z.ltb_spec i 0); [done|].
  destruct (l !! Z.to_nat i) eqn:E; [|done]. intros [= ->]; split; [|done].
  apply lookup_lt_Some in E. lia.
Qed.

Lemma index_mut_Val {A} (l : list A) i x :
  0 <= i < Z.of_nat (length l) -> index_mut l i x = Val (<[Z.to_nat i := x]> l).
Proof.
  intros Hi. unfold index_mut.
  destruct (Z.leb_spec 0 i), (Z.ltb_spec i (Z.of_nat (length l))); simpl; [done|lia..].
Qed.

(** *** Counting in lists *)

Definition countb {A} (f : A -> bool) (l : list A) : Z :=
  foldr (fun x n => Z.b2z (f x) + n) 0 l.

Lemma countb_cons {A} (f : A -> bool) x l : countb f (x :: l) = Z.b2z (f x) + countb f l.
Proof. reflexivity. Qed.

Lemma countb_insert {A} (f : A -> bool) l i x y :
  l !! i = Some x -> countb f (<[i := y]> l) = countb f l - Z.b2z (f x) + Z.b2z (f y).
Proof.
  revert i. induction l as [|z l IH]; intros [|i] Hi; try done.
  - injection Hi as ->. change (<[0%nat := y]> (x :: l)) with (y :: l). rewrite !countb_cons. lia.
  - change (<[S i := y]> (z :: l)) with (z :: <[i := y]> l). rewrite !countb_cons, IH by done. lia.
Qed.

Lemma countb_bounds {A} (f : A -> bool) l : 0 <= countb f l <= Z.of_nat (length l).
Proof.
  induction l as [|x l IH]; [done|]. rewrite countb_cons. cbn [length].
  destruct (f x); cbn [Z.b2z]; lia.
Qed.

Lemma countb_pos {A} (f : A -> bool) l i x : l !! i = Some x -> f x = true -> 1 <= countb f l.
Proof.
  revert i. induction l as [|z l IH]; intros [|i] Hi Hf; try done; rewrite countb_cons.
  - injection Hi as ->. rewrite Hf. pose proof (countb_bounds f l). cbn [Z.b2z]. lia.
  - specialize (IH i Hi Hf). destruct (f z); cbn [Z.b2z]; lia.
Qed.

Lemma countb_two {A} (f : A -> bool) l i j x y :
  l !! i = Some x -> l !! j = Some y -> i <> j -> f x = true -> f y = true -> 2 <= countb f l.
Proof.
  revert i j. induction l as [|z l IH]; intros [|i] [|j] Hi Hj Hij Hx Hy; try done; rewrite countb_cons.
  - injection Hi as ->. rewrite Hx. pose proof (countb_pos f l j y Hj Hy). cbn [Z.b2z]. lia.
  - injection Hj as ->. rewrite Hy. pose proof (countb_pos f l i x Hi Hx). cbn [Z.b2z]. lia.
  - assert (2 <= countb f l) by (apply (IH i j); [exact Hi|exact Hj|congruence|done|done]). destruct (f z); cbn [Z.b2z]; lia.
Qed.

Lemma countb_replicate {A} (f : A -> bool) n x : f x = false -> countb f (replicate n x) = 0.
Proof. intros Hf. induction n as [|n IH]; [done|]. cbn [replicate]. by rewrite countb_cons, Hf, IH. Qed.

Lemma countb_zero {A} (f : A -> bool) l : countb f l = 0 -> forall i x, l !! i = Some x -> f x = false.
Proof.
  intros H0 i x Hi. destruct (f x) eqn:E; [|done].
  pose proof (countb_pos f l i x Hi E). lia.
Qed.

(** ** Harts that take turns

    [step h] is what one hart does in one atomic operation on the shared state;
    [run] executes a schedule, the list of the harts that move. *)

Section Interleave.
Context {Pc S : Type} (step : Pc -> S -> outcome (Pc * S)).

Definition turn (c : list Pc * S) (i : nat) : outcome (list Pc * S) :=
  match c.1 !! i with
  | None => Val c
  | Some p => '(p', s') ← step p c.2; Val (<[i := p']> c.1, s')
  end.

Definition run_schedule (sched : list nat) (c : list Pc * S) : outcome (list Pc * S) :=
  for_each turn sched c.
End Interleave.
