(* ===== verification/PagingBits.v ===== *)
(** * kernel_paging: virtual page numbers and page-table entries

    The bit-level part of [kernel_paging/src/paging.rs] (the functions from
    [get_vpn_offset] to [get_page_offset] and the address canonicalisation) and
    of [kernel_paging/src/lib.rs] ([EntryBits], [Entry], its predicates).  The
    functions are generic in [PTESIZE] and [LEVELS], as in the program; the
    shift amounts they compute are below 64 for the levels of every scheme the
    program names ([get_vpn_offset_range]), so a shift never overflows there. *)

From S2P Require Import Prelude.

(** ** Virtual page numbers *)

Definition get_vpn_offset (i ptesize : Z) : Z :=
  (12 + i * (12 - Z.log2 ptesize)) mod 2 ^ 8.

Definition get_entry_power (ptesize : Z) : Z := 2 ^ (12 - Z.log2 ptesize) - 1.

Definition get_entry_count (ptesize : Z) : Z := 4096 / ptesize.

Definition get_vpn_number (virtual_address i ptesize : Z) : Z :=
  Z.land (Z.shiftr virtual_address (get_vpn_offset i ptesize))
         (get_entry_count ptesize - 1) mod 2 ^ 16.

Definition set_vpn_number (virtual_address i v ptesize : Z) : Z :=
  let cleared := Z.land virtual_address
                   (unot (ushl (get_entry_count ptesize - 1) (get_vpn_offset i ptesize))) in
  Z.lor cleared (ushl v (get_vpn_offset i ptesize)).

Definition get_vpn_size (i ptesize : Z) : Z := ushl 1 (get_vpn_offset i ptesize).

Definition get_page_offset (virtual_address : Z) : Z :=
  Z.land virtual_address (2 ^ 12 - 1).

(** ** Canonical addresses

    [LEVELS] and [PTESIZE] are the const parameters of [GenericPaging]. *)

Definition maximum_noncanon_virtual_address (LEVELS PTESIZE : Z) : outcome Z :=
  s ← checked_shl 64 1 (get_vpn_offset LEVELS PTESIZE); checked_sub s 1.

(** The mask both directions compute: [(1 << higher_bits) - 1] moved above the
    uppermost significant bit. *)
Definition canonical_mask (LEVELS PTESIZE : Z) : outcome Z :=
  let uppermost_significant_bit := get_vpn_offset LEVELS PTESIZE - 1 in
  higher_bits ← checked_sub usize_bits uppermost_significant_bit;
  s ← checked_shl 64 1 higher_bits;
  mask ← checked_sub s 1;
  checked_shl 64 mask (uppermost_significant_bit + 1).

Definition canonicalize_address (LEVELS PTESIZE address : Z) : outcome Z :=
  mask ← canonical_mask LEVELS PTESIZE;
  top ← checked_shr 64 address (get_vpn_offset LEVELS PTESIZE - 1);
  if negb (Z.land top 1 =? 0) then Val (Z.lor address mask)
  else Val (Z.land address (unot mask)).

Definition decanonicalize_address (LEVELS PTESIZE address : Z) : outcome Z :=
  mask ← canonical_mask LEVELS PTESIZE;
  Val (Z.land address (unot mask)).

(** ** Entries *)

Module EntryBits.
Definition VALID : Z := 2 ^ 0.
Definition READ : Z := 2 ^ 1.
Definition WRITE : Z := 2 ^ 2.
Definition EXECUTE : Z := 2 ^ 3.
Definition USER : Z := 2 ^ 4.
Definition GLOBAL : Z := 2 ^ 5.
Definition ACCESSED : Z := 2 ^ 6.
Definition DIRTY : Z := 2 ^ 7.
Definition ADDRESS_MASK : Z := Z.lxor usize_MAX (2 ^ 8 - 1).
Definition RWX : Z := Z.lor (Z.lor READ WRITE) EXECUTE.
Definition CODE_SUPERVISOR : Z := Z.lor (Z.lor (2 ^ 1) (2 ^ 3)) 1.
Definition DATA_SUPERVISOR : Z := Z.lor (Z.lor (2 ^ 1) (2 ^ 2)) 1.
End EntryBits.

Inductive PageLookupError :=
  | PageFault
  | AccessFault
  | ReservedBitSet
  | Invalid
  | WriteOnly.

#[export] Instance PageLookupError_eq_dec : EqDecision PageLookupError.
Proof. solve_decision. Defined.

Record Entry := mkEntry { value : Z }.

#[export] Instance Entry_eq_dec : EqDecision Entry.
Proof. solve_decision. Defined.

Module Entry.
Definition zeroed : Entry := mkEntry 0.

Definition ppn_index (self : Entry) (idx : Z) : outcome Z :=
  amount ← checked_mul 8 idx 8;
  shifted ← checked_shr 64 (Z.shiftr (value self) 10) amount;
  Val (Z.land (shifted mod 2 ^ 8) (2 ^ 8 - 1)).

Definition is_leaf (self : Entry) : bool :=
  negb (Z.land (value self) (Z.lor EntryBits.READ EntryBits.EXECUTE) =? 0)
  || (Z.land (value self) EntryBits.VALID =? 0)
  || (Z.land (value self) EntryBits.ADDRESS_MASK =? 0).

Definition address (self : Entry) : Z :=
  ushl (Z.land (value self) EntryBits.ADDRESS_MASK) 2.
End Entry.

Definition ENTRY_COUNT : Z := 512.
Definition PAGE_ALIGN : Z := 4096.
Definition PAGE_SIZE : Z := PAGE_ALIGN.
Definition MEGAPAGE_SIZE : Z := PAGE_ALIGN * ENTRY_COUNT.
Definition GIGAPAGE_SIZE : Z := PAGE_ALIGN * ENTRY_COUNT * ENTRY_COUNT.
Definition TERAPAGE_SIZE : Z := PAGE_ALIGN * ENTRY_COUNT * ENTRY_COUNT * ENTRY_COUNT.
Definition UNRESERVED_BITS_MASK : Z := 2 ^ 54 - 1.

(** ** The shape of a scheme

    The entry sizes the program uses are 4 (Sv32) and 8 (Sv39 to Sv65);
    [vpn_bits] is the width of one virtual page number. *)

Definition vpn_bits (ptesize : Z) : Z := 12 - Z.log2 ptesize.

Inductive pte_size_ok : Z -> Prop :=
  | pte_size_4 : pte_size_ok 4
  | pte_size_8 : pte_size_ok 8.

Lemma get_vpn_offset_eq i p :
  pte_size_ok p -> 0 <= i <= 6 -> get_vpn_offset i p = 12 + i * vpn_bits p.
Proof.
  intros Hp Hi. unfold get_vpn_offset, vpn_bits. apply Z.mod_small.
  destruct Hp; simpl Z.log2; lia.
Qed.

Lemma get_vpn_offset_range i p :
  pte_size_ok p -> 0 <= i <= 5 -> 12 <= get_vpn_offset i p <= 62.
Proof.
  intros Hp Hi. rewrite get_vpn_offset_eq by (done || lia).
  unfold vpn_bits. destruct Hp; simpl Z.log2; lia.
Qed.

Lemma get_entry_count_pow p :
  pte_size_ok p -> get_entry_count p = 2 ^ vpn_bits p.
Proof. by destruct 1. Qed.

Lemma vpn_bits_range p : pte_size_ok p -> 9 <= vpn_bits p <= 10.
Proof. destruct 1; vm_compute; split; discriminate. Qed.

(** A page number is the base-[2^vpn_bits] digit of the address. *)
Lemma get_vpn_number_eq a i p :
  pte_size_ok p ->
  get_vpn_number a i p = (a / 2 ^ get_vpn_offset i p) mod 2 ^ vpn_bits p.
Proof.
  intros Hp. pose proof (vpn_bits_range p Hp). unfold get_vpn_number.
  rewrite get_entry_count_pow, land_ones_mod, Z.shiftr_div_pow2
    by (done || lia || apply Z.mod_pos_bound; lia).
  apply Z.mod_small.
  assert (2 ^ vpn_bits p <= 2 ^ 10) by (apply Z.pow_le_mono_r; lia).
  pose proof (Z.mod_pos_bound (a / 2 ^ get_vpn_offset i p) (2 ^ vpn_bits p)
                ltac:(apply Z.pow_pos_nonneg; lia)).
  assert (2 ^ 10 < 2 ^ 16) by done. lia.
Qed.

Lemma get_vpn_number_range a i p :
  pte_size_ok p -> 0 <= get_vpn_number a i p < 2 ^ vpn_bits p.
Proof.
  intros Hp. rewrite get_vpn_number_eq by done.
  apply Z.mod_pos_bound, Z.pow_pos_nonneg; pose proof (vpn_bits_range p Hp); lia.
Qed.

Lemma testbit_get_vpn_number a i p n :
  pte_size_ok p -> 0 <= n ->
  Z.testbit (get_vpn_number a i p) n
  = (n <? vpn_bits p) && Z.testbit a (n + get_vpn_offset i p).
Proof.
  intros Hp Hn. pose proof (vpn_bits_range p Hp).
  assert (0 <= get_vpn_offset i p) by (apply Z.mod_pos_bound; lia).
  rewrite get_vpn_number_eq by done. rewrite <-Z.shiftr_div_pow2 by done.
  by rewrite testbit_mod_pow2, testbit_shiftr by lia.
Qed.

(** [set_vpn_number] replaces exactly the bits of one page number. *)
Lemma testbit_set_vpn_number a i v p n :
  pte_size_ok p -> 0 <= i <= 5 -> is_usize a -> 0 <= v < 2 ^ vpn_bits p -> 0 <= n < 64 ->
  Z.testbit (set_vpn_number a i v p) n
  = if (get_vpn_offset i p <=? n) && (n <? get_vpn_offset i p + vpn_bits p)
    then Z.testbit v (n - get_vpn_offset i p) else Z.testbit a n.
Proof.
  intros Hp Hi Ha Hv Hn. pose proof (vpn_bits_range p Hp).
  pose proof (get_vpn_offset_range i p Hp Hi).
  unfold set_vpn_number, ushl. rewrite get_entry_count_pow by done.
  autorewrite with bits.
  destruct (Z.leb_spec (get_vpn_offset i p) n); simpl.
  - destruct (Z.ltb_spec n (get_vpn_offset i p + vpn_bits p)); simpl.
    + rewrite (proj2 (Z.ltb_lt n 64)), (proj2 (Z.leb_le 0 n)),
        (proj2 (Z.leb_le 0 (n - get_vpn_offset i p))),
        (proj2 (Z.ltb_lt (n - get_vpn_offset i p) (vpn_bits p))) by lia. simpl.
      by rewrite andb_false_r.
    + rewrite (testbit_high v (vpn_bits p)) by lia.
      rewrite (proj2 (Z.ltb_ge (n - get_vpn_offset i p) (vpn_bits p))) by lia.
      rewrite (proj2 (Z.ltb_lt n 64)), (proj2 (Z.leb_le 0 n)) by lia. simpl.
      rewrite !andb_false_r; simpl. by rewrite andb_true_r, orb_false_r.
  - rewrite (Z.testbit_neg_r v) by lia.
    rewrite (proj2 (Z.leb_gt 0 (n - get_vpn_offset i p))) by lia.
    rewrite (proj2 (Z.ltb_lt n 64)), (proj2 (Z.leb_le 0 n)) by lia. simpl.
    by rewrite andb_true_r, orb_false_r.
Qed.

Lemma set_vpn_number_usize a i v p : is_usize a -> is_usize (set_vpn_number a i v p).
Proof.
  intros Ha. unfold set_vpn_number, ushl. apply lor_usize; [|apply is_usize_mod].
  apply land_usize; [done|]. unfold unot. apply Z.lxor_nonneg.
  pose proof (Z.mod_pos_bound (Z.shiftl (get_entry_count p - 1) (get_vpn_offset i p)) (2 ^ 64)).
  lia.
Qed.
#[export] Hint Resolve set_vpn_number_usize : bits.

Lemma get_vpn_number_ext a b i j p :
  pte_size_ok p -> 0 <= i -> 0 <= j ->
  (forall n, 0 <= n < vpn_bits p ->
     Z.testbit a (n + get_vpn_offset i p) = Z.testbit b (n + get_vpn_offset j p)) ->
  get_vpn_number a i p = get_vpn_number b j p.
Proof.
  intros Hp Hi Hj Hab. apply Z.bits_inj'; intros n Hn.
  rewrite !testbit_get_vpn_number by done.
  destruct (Z.ltb_spec n (vpn_bits p)); [|done]. simpl. by apply Hab.
Qed.

(** Writing a page number and reading one back.  [set_vpn_number] stores
    the number in its field, and leaves every other field and the page offset
    as they were, for each entry size and every level of every scheme. *)
Theorem get_set_vpn_number a i j v p :
  pte_size_ok p -> is_usize a -> 0 <= v < get_entry_count p ->
  0 <= i -> 0 <= j -> get_vpn_offset i p + vpn_bits p <= 64 ->
  get_vpn_offset j p + vpn_bits p <= 64 -> i <= 5 -> j <= 5 ->
  get_vpn_number (set_vpn_number a i v p) j p
    = (if decide (i = j) then v else get_vpn_number a j p) /\
  get_page_offset (set_vpn_number a i v p) = get_page_offset a.
Proof.
  intros Hp Ha Hv Hi Hj Hoi Hoj Hi5 Hj5. rewrite get_entry_count_pow in Hv by done.
  pose proof (vpn_bits_range p Hp). rewrite !get_vpn_offset_eq in * by (done || lia).
  split.
  - apply Z.bits_inj'; intros n Hn. rewrite testbit_get_vpn_number by done.
    destruct (Z.ltb_spec n (vpn_bits p)); simpl.
    + rewrite testbit_set_vpn_number, !get_vpn_offset_eq by (done || lia || rewrite get_vpn_offset_eq; done || lia).
      destruct (decide (i = j)) as [->|Hne].
      * rewrite (proj2 (Z.leb_le _ _)), (proj2 (Z.ltb_lt _ _)) by lia. simpl.
        f_equal; lia.
      * rewrite testbit_get_vpn_number, get_vpn_offset_eq by (done || lia).
        rewrite (proj2 (Z.ltb_lt n _)) by lia. simpl.
        assert (n + (12 + j * vpn_bits p) < 12 + i * vpn_bits p \/
                12 + i * vpn_bits p + vpn_bits p <= n + (12 + j * vpn_bits p)) by nia.
        destruct (Z.leb_spec (12 + i * vpn_bits p) (n + (12 + j * vpn_bits p))); [|done].
        rewrite (proj2 (Z.ltb_ge _ _)) by lia. done.
    + destruct (decide (i = j)); [by rewrite (testbit_high v (vpn_bits p))|].
      rewrite testbit_get_vpn_number by done. by rewrite (proj2 (Z.ltb_ge _ _)).
  - unfold get_page_offset. apply Z.bits_inj'; intros n Hn.
    rewrite !Z.land_spec, testbit_ones_sub by lia.
    destruct (Z.leb_spec 0 n), (Z.ltb_spec n 12); rewrite ?andb_false_r; try done.
    rewrite !andb_true_r, testbit_set_vpn_number, get_vpn_offset_eq by (done || lia).
    by rewrite (proj2 (Z.leb_gt _ _)) by nia.
Qed.

Lemma get_set_vpn_number_witness :
  get_vpn_number (set_vpn_number 0xffff000 1 143 8) 1 8 = 143 /\
  get_page_offset (set_vpn_number 0xffff000 1 143 8) = get_page_offset 0xffff000.
Proof.
  apply (get_set_vpn_number 0xffff000 1 1 143 8); try (vm_compute; intuition congruence); lia || constructor.
Defined.

(** ** Canonical addresses *)

(** The schemes of the program whose addresses are narrower than a [usize]:
    Sv32, Sv39, Sv48, Sv57. *)
Inductive scheme_ok : Z -> Z -> Prop :=
  | Sv32_ok : scheme_ok 2 4
  | Sv39_ok : scheme_ok 3 8
  | Sv48_ok : scheme_ok 4 8
  | Sv57_ok : scheme_ok 5 8.

(** The number of bits of a virtual address of the scheme. *)
Definition va_bits (LEVELS PTESIZE : Z) : Z := 12 + LEVELS * vpn_bits PTESIZE.

(** Sign extension of the low [b] bits of [a] to a [usize]. *)
Definition sign_extend (b a : Z) : Z := ((a + 2 ^ (b - 1)) mod 2 ^ b - 2 ^ (b - 1)) mod 2 ^ 64.

Lemma scheme_offset L p : scheme_ok L p -> get_vpn_offset L p = va_bits L p.
Proof. by destruct 1. Qed.

Lemma scheme_va_bits L p : scheme_ok L p -> 32 <= va_bits L p <= 57.
Proof. destruct 1; vm_compute; split; discriminate. Qed.

Lemma canonical_mask_eq L p :
  scheme_ok L p -> canonical_mask L p = Val (2 ^ 64 - 2 ^ va_bits L p).
Proof. by destruct 1. Qed.

Lemma land_low_bits a b :
  0 <= b <= 64 -> is_usize a -> Z.land a (unot (2 ^ 64 - 2 ^ b)) = a mod 2 ^ b.
Proof.
  intros Hb Ha. rewrite <-land_ones_mod by lia. f_equal.
  rewrite <-unot_mask by done. unfold unot.
  by rewrite Z.lxor_assoc, Z.lxor_nilpotent, Z.lxor_0_r.
Qed.

Lemma lor_high_bits a b :
  0 <= b <= 64 -> is_usize a -> Z.lor a (2 ^ 64 - 2 ^ b) = a mod 2 ^ b + (2 ^ 64 - 2 ^ b).
Proof.
  intros Hb Ha. rewrite Z.add_comm, <-(lor_add _ _ b); [|lia| |apply Z.mod_pos_bound; lia].
  2:{ apply Z.mod_divide; [lia|]. exists (2 ^ (64 - b) - 1).
      rewrite Z.mul_sub_distr_r, <-Z.pow_add_r by lia.
      replace (64 - b + b) with 64 by lia. lia. }
  rewrite <-unot_mask by done. bitwise i.
  destruct (Z.ltb_spec i b), (Z.leb_spec 0 i), (Z.ltb_spec i 64); simpl; try lia;
    rewrite ?orb_false_r, ?orb_true_r, ?andb_true_r; try done.
  unfold is_usize in Ha. by rewrite (testbit_high a 64) by lia.
Qed.

Lemma testbit_top a b :
  0 < b -> Z.testbit a (b - 1) = (2 ^ (b - 1) <=? a mod 2 ^ b).
Proof.
  intros Hb.
  assert (E : Z.testbit a (b - 1) = Z.testbit (a mod 2 ^ b) (b - 1)).
  { rewrite testbit_mod_pow2 by lia. by rewrite (proj2 (Z.ltb_lt _ _)) by lia. }
  rewrite E. pose proof (Z.mod_pos_bound a (2 ^ b) ltac:(lia)) as Hr.
  replace (2 ^ b) with (2 * 2 ^ (b - 1)) in * by (rewrite <-Z.pow_succ_r by lia; f_equal; lia).
  set (r := a mod _) in *.
  destruct (Z.leb_spec (2 ^ (b - 1)) r).
  - apply Z.testbit_true; [lia|].
    replace (r / 2 ^ (b - 1)) with 1; [done|].
    apply Z.div_unique with (r - 2 ^ (b - 1)); lia.
  - apply (testbit_high r (b - 1)); lia.
Qed.

Lemma sign_extend_cases b a :
  0 < b <= 64 ->
  sign_extend b a = if 2 ^ (b - 1) <=? a mod 2 ^ b
                    then a mod 2 ^ b + (2 ^ 64 - 2 ^ b) else a mod 2 ^ b.
Proof.
  intros Hb. unfold sign_extend.
  assert (E2 : 2 ^ b = 2 * 2 ^ (b - 1)) by (rewrite <-Z.pow_succ_r by lia; f_equal; lia).
  assert (2 ^ b <= 2 ^ 64) by (apply Z.pow_le_mono_r; lia).
  assert (0 < 2 ^ (b - 1)) by lia.
  rewrite <-Z.add_mod_idemp_l by lia.
  pose proof (Z.mod_pos_bound a (2 ^ b) ltac:(lia)) as Hr. set (r := a mod 2 ^ b) in *.
  destruct (Z.leb_spec (2 ^ (b - 1)) r).
  - replace ((r + 2 ^ (b - 1)) mod 2 ^ b) with (r - 2 ^ (b - 1))
      by (apply Z.mod_unique with 1; lia).
    symmetry; apply Z.mod_unique with (-1); lia.
  - rewrite (Z.mod_small (r + _)) by lia. rewrite Z.mod_small by lia. lia.
Qed.

Lemma canonicalize_address_eq L p a :
  scheme_ok L p -> is_usize a ->
  canonicalize_address L p a = Val (sign_extend (va_bits L p) a).
Proof.
  intros Hs Ha. pose proof (scheme_va_bits L p Hs).
  unfold canonicalize_address. rewrite canonical_mask_eq, scheme_offset by done. simpl.
  unfold checked_shr. rewrite (proj2 (Z.ltb_lt _ 64)) by lia. simpl.
  rewrite sign_extend_cases by lia.
  replace (Z.land (Z.shiftr a (va_bits L p - 1)) 1) with (Z.b2z (Z.testbit a (va_bits L p - 1))).
  2:{ rewrite (land_ones_mod _ 1) by lia. change (2 ^ 1) with 2.
      rewrite <-Z.bit0_mod, Z.shiftr_spec by lia. by rewrite Z.add_0_l. }
  rewrite testbit_top by lia.
  destruct (Z.leb_spec (2 ^ (va_bits L p - 1)) (a mod 2 ^ va_bits L p)); simpl.
  - by rewrite lor_high_bits by (done || lia).
  - by rewrite land_low_bits by (done || lia).
Qed.

Lemma decanonicalize_address_eq L p a :
  scheme_ok L p -> is_usize a -> decanonicalize_address L p a = Val (a mod 2 ^ va_bits L p).
Proof.
  intros Hs Ha. pose proof (scheme_va_bits L p Hs).
  unfold decanonicalize_address. rewrite canonical_mask_eq by done. simpl.
  by rewrite land_low_bits by (done || lia).
Qed.

Lemma sign_extend_usize b a : is_usize (sign_extend b a).
Proof. apply is_usize_mod. Qed.

Lemma sign_extend_mod b a : 0 < b <= 64 -> sign_extend b a mod 2 ^ b = a mod 2 ^ b.
Proof.
  intros Hb. rewrite sign_extend_cases by done.
  destruct (Z.leb_spec (2 ^ (b - 1)) (a mod 2 ^ b)); [|by rewrite Z.mod_mod by lia].
  replace (2 ^ 64 - 2 ^ b) with ((2 ^ (64 - b) - 1) * 2 ^ b).
  2:{ rewrite Z.mul_sub_distr_r, <-Z.pow_add_r by lia.
      replace (64 - b + b) with 64 by lia. lia. }
  rewrite Z.mod_add, Z.mod_mod by lia. done.
Qed.

(** C30: [canonicalize_address] is sign extension from the scheme's width and
    [decanonicalize_address] truncation to it, for Sv32 to Sv57; truncating a
    canonical address gives the address's own low bits back, and a canonical
    address is a fixed point. *)
Theorem canonicalize_roundtrip L p a :
  scheme_ok L p -> is_usize a ->
  exists c, canonicalize_address L p a = Val c /\ is_usize c /\
    c = sign_extend (va_bits L p) a /\
    decanonicalize_address L p c = decanonicalize_address L p a /\
    decanonicalize_address L p a = Val (a mod 2 ^ va_bits L p) /\
    canonicalize_address L p c = Val c.
Proof.
  intros Hs Ha. pose proof (scheme_va_bits L p Hs) as Hb.
  pose proof (sign_extend_usize (va_bits L p) a).
  pose proof (sign_extend_mod (va_bits L p) a ltac:(lia)) as Hm.
  exists (sign_extend (va_bits L p) a). rewrite canonicalize_address_eq by done.
  rewrite canonicalize_address_eq, !decanonicalize_address_eq by done. rewrite Hm.
  repeat split; auto; try apply H.
  f_equal. rewrite (sign_extend_cases _ (sign_extend _ _)), Hm, <-sign_extend_cases by lia. done.
Qed.

Lemma canonicalize_roundtrip_witness :
  canonicalize_address 3 8 0x7f12345678 = Val 0xffffffff12345678 /\
  exists c, canonicalize_address 3 8 0x7f12345678 = Val c /\ is_usize c /\
    c = sign_extend (va_bits 3 8) 0x7f12345678 /\
    decanonicalize_address 3 8 c = decanonicalize_address 3 8 0x7f12345678 /\
    decanonicalize_address 3 8 0x7f12345678 = Val (0x7f12345678 mod 2 ^ va_bits 3 8) /\
    canonicalize_address 3 8 c = Val c.
Proof.
  split; [reflexivity|].
  apply (canonicalize_roundtrip 3 8 0x7f12345678); [constructor | split; [lia | reflexivity]].
Defined.
