(* ===== verification/Paging.v ===== *)
(** * kernel_paging: tables in memory, [query], [split] and [map]

    [kernel_paging/src/lib.rs] (the operations of [Entry] and [Table] that
    follow or create pointers) and the methods of [GenericPaging] in
    [kernel_paging/src/paging.rs].

    Page tables live in a memory [mem] that maps the address of a table (the
    pointer the kernel dereferences) to its entries.  A [&mut Table] or
    [&mut Entry] is that address (and an index): every access reads the memory
    again, so tables reached by two paths alias as they do in the program.
    Following a pointer to an address that holds no table stops with
    [Undefined].

    The global allocator is outside the repository: [alloc] gives the block
    [Box::new_uninit] obtains, an address and the words that happen to be
    there.  [boxed_zeroed] leaves those words in place: its iterator adaptor
    [map] is lazy and is never run. *)

From S2P Require Import Prelude PagingBits.

Abbreviation mem := (gmap Z (list Entry)).

(** The fields of [GenericPaging]; [table] is the address of the root. *)
Record GenericPaging := {
  table : Z;
  phys_to_virt : Z -> outcome Z;
  virt_to_phys : Z -> outcome Z
}.

Definition load_table (m : mem) (p : Z) : outcome (list Entry) :=
  match m !! p with Some es => Val es | None => Stop Undefined end.

Definition store_entry (m : mem) (p i : Z) (e : Entry) : outcome mem :=
  es ← load_table m p; es' ← index_mut es i e; Val (<[p := es']> m).

(** [as_table] and [as_table_mut]: the pointer behind an entry. *)
Definition as_table (phys_to_virt : Z -> outcome Z) (self : Entry) : outcome Z :=
  assert! negb (Z.land (value self) 1 =? 0);;
  p ← phys_to_virt (Entry.address self);
  if p =? 0 then Stop UnwrapFailed else Val p.

(** [try_as_table] and [try_as_table_mut]. *)
Definition try_as_table (phys_to_virt : Z -> outcome Z) (self : Entry) : outcome (option Z) :=
  if Entry.is_leaf self then Val None
  else p ← as_table phys_to_virt self; Val (Some p).

Section Walk.
Context (LEVELS : nat) (PTESIZE : Z).
Context (alloc : mem -> option (Z * list Entry)).

(** [Table::zeroed]: the table of a [static]. *)
Definition zeroed : list Entry := replicate (Z.to_nat (4096 / PTESIZE)) Entry.zeroed.

Definition boxed_zeroed (m : mem) : outcome (mem * Z) :=
  match alloc m with
  | None => Stop OutOfMemory
  | Some (p, words) => Val (<[p := words]> m, p)
  end.

(** ** [Entry::split] *)

Fixpoint split_entries (entries : list Entry) (flags current_address increment : Z)
  : outcome (list Entry) :=
  match entries with
  | [] => Val []
  | _ :: rest =>
      next ← checked_add 64 current_address (Z.shiftr increment 2);
      rest' ← split_entries rest flags next increment;
      Val (mkEntry (Z.lor flags current_address) :: rest')
  end.

Definition split (virt_to_phys : Z -> outcome Z) (m : mem) (self : Entry) (increment : Z)
  : outcome (mem * Entry) :=
  '(m, table) ← boxed_zeroed m;
  entries ← load_table m table;
  let current_address := Z.land (value self) EntryBits.ADDRESS_MASK in
  let flags := Z.land (value self) (unot EntryBits.ADDRESS_MASK) in
  entries ← split_entries entries flags current_address increment;
  let m := <[table := entries]> m in
  phys ← virt_to_phys table;
  let self := mkEntry (Z.lor 1 (Z.shiftr phys 2)) in
  assert! negb (Entry.is_leaf self);;
  assert! negb (Z.land (value self) 1 =? 0);;
  assert! Z.land (value self) EntryBits.RWX =? 0;;
  Val (m, self).

(** ** [GenericPaging::query] *)

(** Step 6: [for j in 0..i { assert!(vpn j of the leaf == 0) }]. *)
Definition assert_aligned (pte : Entry) (i : nat) : outcome unit :=
  for_each (fun _ j =>
    assert! get_vpn_number (Entry.address pte) j PTESIZE =? 0;; Val tt)
    (seqZ 0 (Z.of_nat i)) tt.

(** Step 8: the translated address of a leaf found at level [i]. *)
Definition translate_leaf (pte : Entry) (i : nat) (virtual_addr : Z) : Z :=
  let pa := get_page_offset virtual_addr in
  let pa := foldl (fun pa j =>
              set_vpn_number pa j (get_vpn_number virtual_addr j PTESIZE) PTESIZE)
              pa (seqZ 0 (Z.of_nat i + 1)) in
  foldl (fun pa j =>
    set_vpn_number pa j (get_vpn_number (ushl (value pte) 2) j PTESIZE) PTESIZE)
    pa (seqZ (Z.of_nat i) (Z.of_nat LEVELS - Z.of_nat i)).

(** Step 3: the reasons to reject an entry, in the order of the tests. *)
Definition check_pte (pte : Entry) : option PageLookupError :=
  if Z.land (value pte) EntryBits.VALID =? 0 then Some Invalid
  else if (Z.land (value pte) EntryBits.READ =? 0)
          && (Z.land (value pte) EntryBits.WRITE =? 1) then Some WriteOnly
  else if (4 <? PTESIZE)
          && negb (Z.land (Z.shiftr (value pte) 54) (ushl 1 (7 - 1)) =? 0)
  then Some ReservedBitSet
  else None.

Fixpoint query_loop (self : GenericPaging) (m : mem) (i : nat) (table virtual_addr : Z)
  : outcome (Result Z PageLookupError) :=
  entries ← load_table m table;
  pte ← index entries (get_vpn_number virtual_addr (Z.of_nat i) PTESIZE);
  match check_pte pte with
  | Some e => Val (Err e)
  | None =>
      this_table ← try_as_table (phys_to_virt self) pte;
      match this_table with
      | Some this_table =>
          match i with
          | O => Val (Err PageFault)
          | S i => query_loop self m i this_table virtual_addr
          end
      | None =>
          _ ← assert_aligned pte i;
          Val (Ok (translate_leaf pte i virtual_addr))
      end
  end.

Definition query (self : GenericPaging) (m : mem) (virtual_addr : Z)
  : outcome (Result Z PageLookupError) :=
  query_loop self m (LEVELS - 1) (table self) virtual_addr.

Definition query_physical_address := query.

(** ** [GenericPaging::map] *)

Definition mapped_value (current_address flags offset : Z) : Z :=
  Z.land (wrapping_add (Z.lor (Z.shiftr current_address 2) flags) offset)
         UNRESERVED_BITS_MASK.

(** [(get_vpn_size(level) - 1) & a != 0] *)
Definition misaligned (level a : Z) : bool :=
  negb (Z.land (get_vpn_size level PTESIZE - 1) a =? 0).

Fixpoint map_internal (self : GenericPaging) (level : nat) (table : Z)
  (physical_addr virtual_addr length flags current_virt_offset : Z) (m : mem)
  : outcome mem :=
  let lvl := Z.of_nat level in
  let virt_start := virtual_addr in
  sum ← checked_add 64 virtual_addr length;
  virt_end ← checked_sub sum (if lvl =? 0 then 0 else 1);
  let vpn_start := get_vpn_number virt_start lvl PTESIZE in
  let vpn_end := get_vpn_number virt_end lvl PTESIZE in
  let offset := Z.shiftr (wrapping_sub physical_addr virtual_addr) 2 in
  let vpn_end := if vpn_end <? vpn_start then 511 else vpn_end in
  for_each (fun m vpn_number =>
    assert! vpn_number <? 512;;
    entries ← load_table m table;
    entry ← index entries vpn_number;
    shift ← checked_mul 64 vpn_number (get_vpn_size lvl PTESIZE);
    current_address ← checked_add 64 current_virt_offset shift;
    let leaf := mkEntry (mapped_value current_address flags offset) in
    match level with
    | S level' =>
        let start_misaligned := misaligned lvl virtual_addr in
        let end_misaligned := misaligned lvl (wrapping_add virtual_addr length) in
        let physical_start_misaligned :=
          misaligned lvl (wrapping_add virtual_addr (ushl offset 2)) in
        let physical_end_misaligned :=
          misaligned lvl (wrapping_add (wrapping_add virtual_addr length) (ushl offset 2)) in
        '(m, entry) ←
          (if Entry.is_leaf entry
              && (((vpn_number =? vpn_start)
                   && (start_misaligned || physical_start_misaligned))
                  || ((vpn_number =? vpn_end)
                      && (end_misaligned || physical_end_misaligned)))
           then
             '(m, entry) ← split (virt_to_phys self) m entry
                             (get_vpn_size (lvl - 1) PTESIZE);
             m ← store_entry m table vpn_number entry;
             Val (m, entry)
           else Val (m, entry));
        sub ← try_as_table (phys_to_virt self) entry;
        match sub with
        | Some sub =>
            map_internal self level' sub physical_addr virtual_addr length flags
              current_address m
        | None => store_entry m table vpn_number leaf
        end
    | O => store_entry m table vpn_number leaf
    end) (seqZ vpn_start (vpn_end - vpn_start + 1)) m.

Definition map (self : GenericPaging) (physical_addr virtual_addr length flags : Z) (m : mem)
  : outcome mem :=
  virtual_addr ← decanonicalize_address (Z.of_nat LEVELS) PTESIZE virtual_addr;
  assert! Z.land virtual_addr 0xfff =? 0;;
  assert! Z.land physical_addr 0xfff =? 0;;
  assert! Z.land length 0xfff =? 0;;
  map_internal self (LEVELS - 1) (table self) physical_addr virtual_addr length flags 0 m.
End Walk.

