(* ===== verification/PagingSpec.v ===== *)
(** * kernel_paging: [query] against the privileged specification

    Closed forms of the bit operations of [query] for the 8-byte-entry schemes
    (Sv39, Sv48, Sv57), an independent statement of the RISC-V address
    translation ([hw_walk], by division and remainder on the fields of an
    entry), and the theorem that [query] computes it. *)

From S2P Require Import Prelude PagingBits Paging.

#[local] Arguments assert_aligned : simpl never.
#[local] Arguments translate_leaf : simpl never.
#[local] Arguments check_pte : simpl never.

(** ** Regions and page numbers *)

(** The size of the region one entry of level [l] covers. *)
Definition sz (l : nat) : Z := 2 ^ (12 + 9 * Z.of_nat l).

(** The index of an address in its table of level [l]. *)
Definition vpn (l : nat) (a : Z) : Z := (a / sz l) mod 512.

Lemma sz_0 : sz 0 = 4096.
Proof. reflexivity. Qed.

Lemma sz_S l : sz (S l) = 512 * sz l.
Proof.
  unfold sz. rewrite Nat2Z.inj_succ. change 512 with (2 ^ 9).
  rewrite <-Z.pow_add_r by lia. f_equal; lia.
Qed.

Lemma sz_pos l : 4096 <= sz l.
Proof. induction l; [done|]. rewrite sz_S. lia. Qed.

Lemma sz_le_64 l : (l <= 5)%nat -> sz l <= 2 ^ 57.
Proof. intros. unfold sz. apply Z.pow_le_mono_r; lia. Qed.

Lemma sz_mono l l' : (l <= l')%nat -> sz l <= sz l'.
Proof. intros. unfold sz. apply Z.pow_le_mono_r; lia. Qed.

Lemma vpn_range l a : 0 <= vpn l a < 512.
Proof. apply Z.mod_pos_bound; lia. Qed.

(** [Entry]'s fields: a valid bit, the permission bits, the page number. *)
Definition pte_V (v : Z) : bool := Z.testbit v 0.
Definition pte_R (v : Z) : bool := Z.testbit v 1.
Definition pte_W (v : Z) : bool := Z.testbit v 2.
Definition pte_X (v : Z) : bool := Z.testbit v 3.
Definition pte_ppn (v : Z) : Z := (v / 2 ^ 10) mod 2 ^ 44.

(** A leaf of level [i] is aligned when the low page-number digits are 0. *)
Definition leaf_aligned (v : Z) (i : nat) : bool :=
  (v / 2 ^ 10) mod 2 ^ (9 * Z.of_nat i) =? 0.

(** The address [translate_leaf] computes: the entry's digits from level [i] up
    to the width of the scheme, the virtual address below. *)
Definition leaf_pa (L : nat) (v : Z) (i : nat) (va : Z) : Z :=
  (4 * v) mod sz L / sz i * sz i + va mod sz i.

(** ** Closed forms *)

Lemma offset_8 (l : nat) : (l <= 5)%nat -> get_vpn_offset (Z.of_nat l) 8 = 12 + 9 * Z.of_nat l.
Proof. intros. rewrite get_vpn_offset_eq by (lia || constructor). change (vpn_bits 8) with 9. lia. Qed.

Lemma vpn_number_8 l a : (l <= 5)%nat -> get_vpn_number a (Z.of_nat l) 8 = vpn l a.
Proof. intros. rewrite get_vpn_number_eq by constructor. rewrite offset_8 by done. reflexivity. Qed.

Lemma vpn_size_8 l : (l <= 5)%nat -> get_vpn_size (Z.of_nat l) 8 = sz l.
Proof.
  intros. unfold get_vpn_size, ushl. rewrite offset_8 by done.
  rewrite Z.shiftl_mul_pow2, Z.mul_1_l by lia. apply Z.mod_small.
  pose proof (sz_pos l). pose proof (sz_le_64 l). unfold sz in *. lia.
Qed.

Lemma land_bit v k : 0 <= k -> Z.land v (2 ^ k) = if Z.testbit v k then 2 ^ k else 0.
Proof.
  intros Hk. apply Z.bits_inj'; intros i Hi. rewrite Z.land_spec, Z.pow2_bits_eqb by done.
  destruct (Z.eqb_spec k i) as [->|].
  - destruct (Z.testbit v i) eqn:E; [|by rewrite Z.testbit_0_l].
    by rewrite Z.pow2_bits_true.
  - rewrite andb_false_r. destruct (Z.testbit v k); [|by rewrite Z.testbit_0_l].
    by rewrite Z.pow2_bits_false by lia.
Qed.

Lemma land_bit_eqb v k : 0 <= k -> (Z.land v (2 ^ k) =? 0) = negb (Z.testbit v k).
Proof.
  intros Hk. rewrite land_bit by done. destruct (Z.testbit v k); [|done].
  apply Z.eqb_neq. lia.
Qed.

Lemma land_address_mask v : is_usize v -> Z.land v EntryBits.ADDRESS_MASK = v - v mod 2 ^ 8.
Proof. apply (land_high_mask v 8). lia. Qed.

Lemma land_flags_mask v : is_usize v -> Z.land v (unot EntryBits.ADDRESS_MASK) = v mod 2 ^ 8.
Proof. apply (land_low_bits v 8). lia. Qed.

Lemma is_leaf_spec v :
  is_usize v ->
  Entry.is_leaf (mkEntry v) = (pte_R v || pte_X v) || negb (pte_V v) || (v / 2 ^ 8 =? 0).
Proof.
  intros Hv. unfold Entry.is_leaf; simpl value. f_equal; [f_equal|].
  - unfold pte_R, pte_X, EntryBits.READ, EntryBits.EXECUTE.
    rewrite Z.land_lor_distr_r, !land_bit by lia.
    by destruct (Z.testbit v 1), (Z.testbit v 3).
  - unfold EntryBits.VALID. by rewrite land_bit_eqb by lia.
  - rewrite land_address_mask by done.
    pose proof (Z.div_mod v (2 ^ 8) ltac:(lia)).
    apply eq_iff_eq_true. rewrite !Z.eqb_eq. lia.
Qed.

Lemma check_pte_spec v :
  check_pte 8 (mkEntry v) =
    if negb (pte_V v) then Some Invalid
    else if Z.testbit v 60 then Some ReservedBitSet else None.
Proof.
  unfold check_pte; simpl value. unfold EntryBits.VALID, EntryBits.READ, EntryBits.WRITE, pte_V.
  rewrite (land_bit_eqb v 0), (land_bit_eqb v 1), (land_bit v 2) by lia.
  destruct (Z.testbit v 0); cbn [negb]; [|reflexivity].
  replace ((if Z.testbit v 2 then 2 ^ 2 else 0) =? 1) with false by (by destruct (Z.testbit v 2)).
  rewrite andb_false_r. change (4 <? 8) with true. change (ushl 1 (7 - 1)) with (2 ^ 6).
  cbn [andb]. rewrite land_bit_eqb, Z.shiftr_spec, negb_involutive by lia. reflexivity.
Qed.

Lemma address_eq v :
  is_usize v -> Entry.address (mkEntry v) = (4 * (v - v mod 2 ^ 8)) mod 2 ^ 64.
Proof.
  intros Hv. unfold Entry.address, ushl; simpl value. rewrite land_address_mask by done.
  rewrite Z.shiftl_mul_pow2 by lia. f_equal. lia.
Qed.

Lemma address_small v :
  0 <= v < 2 ^ 62 -> Entry.address (mkEntry v) = 4 * (v - v mod 2 ^ 8).
Proof.
  intros Hv. rewrite address_eq by (unfold is_usize; lia). apply Z.mod_small.
  pose proof (Z.mod_pos_bound v (2 ^ 8)). pose proof (Z.mod_le v (2 ^ 8)). lia.
Qed.

Lemma testbit_address v n :
  is_usize v -> 10 <= n < 64 -> Z.testbit (Entry.address (mkEntry v)) n = Z.testbit v (n - 2).
Proof.
  intros Hv Hn. unfold Entry.address, ushl, EntryBits.ADDRESS_MASK, usize_MAX; simpl value.
  autorewrite with bits. rewrite (proj2 (Z.ltb_lt n 64)) by lia. simpl.
  rewrite (proj2 (Z.leb_le 0 (n - 2))), (proj2 (Z.ltb_lt (n - 2) 64)),
    (proj2 (Z.ltb_ge (n - 2) 8)) by lia. simpl. by rewrite andb_true_r.
Qed.

Lemma seqZ_snoc (a b : Z) : 0 <= b -> seqZ a (b + 1) = seqZ a b ++ [a + b].
Proof. intros. rewrite seqZ_app by lia. reflexivity. Qed.

(** The assertion loop passes exactly on aligned leaves. *)
Lemma assert_aligned_spec v i :
  is_usize v -> (i <= 5)%nat ->
  assert_aligned 8 (mkEntry v) i = if leaf_aligned v i then Val tt else Stop AssertFailed.
Proof.
  intros Hv Hi. unfold assert_aligned, leaf_aligned. revert Hi.
  induction i as [|i IH]; intros Hi.
  - simpl. by rewrite Z.mod_1_r.
  - rewrite Nat2Z.inj_succ, <-Z.add_1_r, seqZ_snoc, for_each_app by lia.
    rewrite IH by lia. rewrite Z.add_0_l. simpl for_each.
    rewrite vpn_number_8 by lia.
    set (q := v / 2 ^ 10).
    assert (Hdig : vpn i (Entry.address (mkEntry v)) = (q / 2 ^ (9 * Z.of_nat i)) mod 2 ^ 9).
    { unfold vpn. change 512 with (2 ^ 9). apply Z.bits_inj'; intros n Hn.
      rewrite !testbit_mod_pow2 by lia. destruct (Z.ltb_spec n 9); [|done]. simpl.
      unfold sz, q. rewrite <-!Z.shiftr_div_pow2 by lia. rewrite !Z.shiftr_spec by lia.
      rewrite testbit_address by (done || lia). f_equal; lia. }
    rewrite Hdig.
    replace (9 * (Z.of_nat i + 1)) with (9 * Z.of_nat i + 9) by lia.
    rewrite Z.pow_add_r, Z.rem_mul_r by lia.
    pose proof (Z.mod_pos_bound q (2 ^ (9 * Z.of_nat i)) ltac:(lia)).
    pose proof (Z.mod_pos_bound (q / 2 ^ (9 * Z.of_nat i)) (2 ^ 9) ltac:(lia)).
    destruct (Z.eqb_spec (q mod 2 ^ (9 * Z.of_nat i)) 0) as [E|E]; simpl.
    + rewrite E. destruct (Z.eqb_spec ((q / 2 ^ (9 * Z.of_nat i)) mod 2 ^ 9) 0) as [E'|E'].
      * rewrite E'. by rewrite Z.mul_0_r.
      * rewrite (proj2 (Z.eqb_neq _ _)); [done|]. nia.
    + rewrite (proj2 (Z.eqb_neq _ _)); [done|]. nia.
Qed.

(** A loop of [set_vpn_number] copies a range of digits. *)
Lemma testbit_copy_digits src pa (s n : nat) k :
  is_usize pa -> (s + n <= 5)%nat -> 0 <= k < 64 ->
  let r := foldl (fun pa j => set_vpn_number pa j (get_vpn_number src j 8) 8)
             pa (seqZ (Z.of_nat s) (Z.of_nat n)) in
  is_usize r /\
  Z.testbit r k = if (12 + 9 * Z.of_nat s <=? k) && (k <? 12 + 9 * Z.of_nat (s + n))
                  then Z.testbit src k else Z.testbit pa k.
Proof.
  intros Hpa Hsn Hk. induction n as [|n IH]; simpl.
  - split; [done|]. replace (s + 0)%nat with s by lia.
    destruct (Z.leb_spec (12 + 9 * Z.of_nat s) k); [|done].
    by rewrite (proj2 (Z.ltb_ge _ _)) by lia.
  - rewrite Nat2Z.inj_succ, <-Z.add_1_r, seqZ_snoc, foldl_app by lia.
    destruct IH as [IHu IHb]; [lia|].
    set (r := foldl _ pa (seqZ (Z.of_nat s) (Z.of_nat n))) in *.
    simpl foldl. rewrite <-Nat2Z.inj_add.
    split; [by apply set_vpn_number_usize|].
    rewrite testbit_set_vpn_number; [|constructor|lia|done| |done].
    2:{ apply get_vpn_number_range; constructor. }
    rewrite offset_8 by lia. change (vpn_bits 8) with 9.
    destruct (Z.leb_spec (12 + 9 * Z.of_nat (s + n)) k); simpl.
    + destruct (Z.ltb_spec k (12 + 9 * Z.of_nat (s + n) + 9)); simpl.
      * rewrite testbit_get_vpn_number, offset_8 by (lia || constructor).
        change (vpn_bits 8) with 9. rewrite (proj2 (Z.ltb_lt _ 9)) by lia. simpl.
        rewrite (proj2 (Z.leb_le _ k)), (proj2 (Z.ltb_lt k _)) by lia. simpl. f_equal; lia.
      * rewrite IHb. rewrite !(proj2 (Z.ltb_ge k _)) by lia. by rewrite !andb_false_r.
    + rewrite IHb. rewrite !(proj2 (Z.ltb_lt k _)) by lia. done.
Qed.

Lemma testbit_leaf_pa L v i va k :
  0 <= k ->
  Z.testbit (leaf_pa L v i va) k =
    if k <? 12 + 9 * Z.of_nat i then Z.testbit va k
    else (k <? 12 + 9 * Z.of_nat L) && Z.testbit (4 * v) k.
Proof.
  intros Hk. unfold leaf_pa. pose proof (sz_pos i).
  rewrite <-(lor_add _ _ (12 + 9 * Z.of_nat i));
    [|lia|apply Z.mod_mul; unfold sz; lia|apply Z.mod_pos_bound; lia].
  rewrite Z.lor_spec. unfold sz at 2 3 4.
  rewrite <-Z.shiftl_mul_pow2, <-Z.shiftr_div_pow2 by lia.
  rewrite testbit_shiftl, testbit_mod_pow2 by lia.
  destruct (Z.ltb_spec k (12 + 9 * Z.of_nat i)); simpl.
  - rewrite Z.testbit_neg_r by lia. done.
  - rewrite testbit_shiftr by lia. unfold sz. rewrite testbit_mod_pow2 by lia.
    rewrite orb_false_r. by replace (k - _ + _) with k by lia.
Qed.

Lemma translate_leaf_eq L v i va :
  (L <= 5)%nat -> (i < L)%nat -> is_usize v -> is_usize va ->
  translate_leaf L 8 (mkEntry v) i va = leaf_pa L v i va.
Proof.
  intros HL Hi Hv Hva. unfold translate_leaf; simpl value.
  assert (Hpo : is_usize (get_page_offset va)).
  { unfold get_page_offset. apply land_usize; [done|]. lia. }
  pose proof (fun k => testbit_copy_digits va (get_page_offset va) 0 (i + 1) k Hpo ltac:(lia)) as H1.
  cbv zeta in H1. change (Z.of_nat 0) with 0 in H1.
  rewrite Nat2Z.inj_add in H1. change (Z.of_nat 1) with 1 in H1.
  change (12 + 9 * 0) with 12 in H1. change (0 + (i + 1))%nat with (i + 1)%nat in H1.
  set (pa := foldl _ (get_page_offset va) _) in *.
  assert (Hpa : is_usize pa) by (by apply (H1 0); lia).
  pose proof (fun k => testbit_copy_digits (ushl v 2) pa i (L - i) k Hpa ltac:(lia)) as H2.
  cbv zeta in H2. rewrite Nat2Z.inj_sub in H2 by lia.
  set (r := foldl _ pa _) in *.
  assert (Hr : is_usize r) by (by apply (H2 0); lia).
  apply Z.bits_inj'; intros k Hk. rewrite testbit_leaf_pa by done.
  destruct (Z.ltb_spec k 64).
  2:{ unfold is_usize in *. rewrite (testbit_high r 64) by lia.
      rewrite !(proj2 (Z.ltb_ge k _)) by lia. done. }
  rewrite (proj2 (H2 k ltac:(lia))), (proj2 (H1 k ltac:(lia))).
  replace (i + (L - i))%nat with L by lia.
  destruct (Z.leb_spec (12 + 9 * Z.of_nat i) k); simpl.
  - rewrite (proj2 (Z.ltb_ge k (12 + 9 * Z.of_nat i))) by lia.
    destruct (Z.ltb_spec k (12 + 9 * Z.of_nat L)); simpl.
    + unfold ushl. rewrite Z.shiftl_mul_pow2, testbit_mod_pow2 by lia.
      rewrite (proj2 (Z.ltb_lt k 64)) by lia. simpl. f_equal; lia.
    + unfold get_page_offset. rewrite Z.land_spec, testbit_ones_sub by lia.
      rewrite !(proj2 (Z.ltb_ge k _)) by lia. by rewrite !andb_false_r.
  - rewrite !(proj2 (Z.ltb_lt k (12 + 9 * Z.of_nat i))) by lia.
    unfold get_page_offset. rewrite Z.land_spec, testbit_ones_sub by lia.
    rewrite (proj2 (Z.leb_le 0 k)) by lia.
    destruct (Z.leb_spec 12 k).
    + by rewrite (proj2 (Z.ltb_lt k _)) by lia.
    + rewrite (proj2 (Z.ltb_lt k 12)) by lia. by rewrite andb_true_r.
Qed.

(** ** The translation of the privileged specification

    Steps 2 to 8 of the algorithm quoted in [query]'s comments, on the fields
    of an entry.  [None] is a page fault. *)

Definition hw_reserved (v : Z) : bool := negb (v / 2 ^ 54 =? 0).

Fixpoint hw_walk (phys_to_virt : Z -> outcome Z) (m : mem) (i : nat) (table va : Z)
  : outcome (option Z) :=
  entries ← load_table m table;
  pte ← index entries (vpn i va);
  let v := value pte in
  if negb (pte_V v) || (negb (pte_R v) && pte_W v) || hw_reserved v then Val None
  else if pte_R v || pte_X v then
    if pte_ppn v mod 512 ^ Z.of_nat i =? 0
    then Val (Some (pte_ppn v * 4096 + va mod sz i)) else Val None
  else match i with
       | O => Val None
       | S i => next ← phys_to_virt (pte_ppn v * 4096);
                hw_walk phys_to_virt m i next va
       end.

(** The entries on which the kernel and the hardware agree: no reserved bit, no
    write-only page, a leaf whose frame fits the width [query] assembles, a
    pointer with clear software bits to a table that is not frame 0. *)
Record sane_pte (L : nat) (v : Z) : Prop := {
  sane_usize : is_usize v;
  sane_reserved : pte_V v = true -> v < 2 ^ 54;
  sane_writable : pte_V v = true -> pte_W v = true -> pte_R v = true;
  sane_leaf : pte_V v = true -> pte_R v || pte_X v = true -> 4 * v < sz L;
  sane_table : pte_V v = true -> pte_R v || pte_X v = false -> v mod 2 ^ 10 < 2 ^ 8 /\ v / 2 ^ 8 <> 0
}.

Lemma pte_ppn_small v : 0 <= v < 2 ^ 54 -> pte_ppn v = v / 2 ^ 10.
Proof.
  intros Hv. unfold pte_ppn. apply Z.mod_small. split; [apply Z.div_pos; lia|].
  apply Z.div_lt_upper_bound; lia.
Qed.

Lemma address_ppn v :
  0 <= v < 2 ^ 54 -> v mod 2 ^ 10 < 2 ^ 8 -> Entry.address (mkEntry v) = pte_ppn v * 4096.
Proof.
  intros Hv Hr. rewrite address_small, pte_ppn_small by lia. pow2.
  Z.div_mod_to_equations. lia.
Qed.

Lemma testbit_60_small v : 0 <= v < 2 ^ 54 -> Z.testbit v 60 = false.
Proof. intros. by apply (testbit_high v 54). Qed.

Lemma leaf_aligned_ppn v i :
  0 <= v < 2 ^ 54 -> leaf_aligned v i = (pte_ppn v mod 512 ^ Z.of_nat i =? 0).
Proof.
  intros Hv. unfold leaf_aligned. rewrite pte_ppn_small by done.
  change 512 with (2 ^ 9). by rewrite <-Z.pow_mul_r by lia.
Qed.

Lemma leaf_pa_ppn L v i va :
  0 <= v < 2 ^ 54 -> 4 * v < sz L -> leaf_aligned v i = true ->
  leaf_pa L v i va = pte_ppn v * 4096 + va mod sz i.
Proof.
  intros Hv HL Ha. unfold leaf_pa. rewrite Z.mod_small by lia. f_equal.
  rewrite pte_ppn_small by done. unfold leaf_aligned in Ha. apply Z.eqb_eq in Ha.
  set (n := 2 ^ (9 * Z.of_nat i)) in *. assert (0 < n) by (unfold n; lia).
  assert (E : sz i = 4096 * n)
    by (unfold sz, n; rewrite Z.pow_add_r by lia; reflexivity).
  rewrite E.
  assert (Hq : 4 * v / (4096 * n) = v / 2 ^ 10 / n).
  { rewrite Z.div_div by lia. change (2 ^ 10) with 1024.
    replace (4096 * n) with (4 * (1024 * n)) by lia. apply Z.div_mul_cancel_l; lia. }
  pose proof (Z.div_mod (v / 2 ^ 10) n ltac:(lia)).
  replace (4 * v / (4096 * n)) with (v / 2 ^ 10 / n) by done. nia.
Qed.

Section Query.
Context (L : nat) (HL : (L <= 5)%nat).

Lemma query_loop_unfold g m i table va :
  query_loop L 8 g m i table va =
    (entries ← load_table m table;
     pte ← index entries (get_vpn_number va (Z.of_nat i) 8);
     match check_pte 8 pte with
     | Some e => Val (Err e)
     | None =>
         this_table ← try_as_table (phys_to_virt g) pte;
         match this_table with
         | Some this_table =>
             match i with
             | O => Val (Err PageFault)
             | S i => query_loop L 8 g m i this_table va
             end
         | None => _ ← assert_aligned 8 pte i; Val (Ok (translate_leaf L 8 pte i va))
         end
     end).
Proof. by destruct i. Qed.

(** One iteration of the loop of [query], in closed form. *)
Lemma query_loop_eq g m i table va :
  (i < L)%nat -> is_usize va ->
  (forall es e, m !! table = Some es -> es !! Z.to_nat (vpn i va) = Some e ->
     is_usize (value e)) ->
  query_loop L 8 g m i table va =
    (entries ← load_table m table;
     pte ← index entries (vpn i va);
     let v := value pte in
     if negb (pte_V v) then Val (Err Invalid)
     else if Z.testbit v 60 then Val (Err ReservedBitSet)
     else if pte_R v || pte_X v || (v / 2 ^ 8 =? 0) then
       (if leaf_aligned v i then Val (Ok (leaf_pa L v i va)) else Stop AssertFailed)
     else
       p ← phys_to_virt g (Entry.address pte);
       if p =? 0 then Stop UnwrapFailed else
       match i with
       | O => Val (Err PageFault)
       | S i => query_loop L 8 g m i p va
       end).
Proof.
  intros Hi Hva Hm.
  assert (Hlook : forall es e, load_table m table = Val es ->
            es !! Z.to_nat (vpn i va) = Some e -> is_usize (value e)).
  { intros es e. unfold load_table. destruct (m !! table) eqn:E; [|done].
    intros [= <-]. by apply Hm. }
  rewrite query_loop_unfold.
  destruct (load_table m table) as [es|]; cbn [mbind outcome_bind]; [|done].
  specialize (Hlook es). rewrite vpn_number_8 by lia.
  destruct (index es _) as [[v]|] eqn:Ei; cbn [mbind outcome_bind value]; [|done].
  apply index_inv in Ei as [_ Ei]. pose proof (Hlook _ eq_refl Ei : is_usize v) as Hv. rewrite check_pte_spec. destruct (pte_V v) eqn:EV; cbn [negb]; [|done].
  destruct (Z.testbit v 60); [done|].
  unfold try_as_table. rewrite is_leaf_spec, EV by done. cbn [negb]. rewrite orb_false_r.
  destruct (pte_R v || pte_X v || (v / 2 ^ 8 =? 0)); cbn [mbind outcome_bind].
  { rewrite assert_aligned_spec by (done || lia).
    destruct (leaf_aligned v i); cbn [mbind outcome_bind]; [|done].
    by rewrite translate_leaf_eq by (done || lia). }
  unfold as_table; cbn [value]. unfold pte_V in EV.
  replace (Z.land v 1 =? 0) with false
    by (symmetry; rewrite (land_bit_eqb v 0 : 0 <= 0 -> (Z.land v 1 =? 0) = _), EV; done).
  cbn [negb].
  destruct (phys_to_virt g _) as [p|]; cbn [mbind outcome_bind]; [|done].
  by destruct (p =? 0).
Qed.

(** The memories whose entries the kernel and the hardware read alike. *)
Definition sane_memory (m : mem) : Prop :=
  forall a es, m !! a = Some es -> Forall (fun e => sane_pte L (value e)) es.

Lemma sane_memory_usize m :
  sane_memory m -> forall a es, m !! a = Some es -> Forall (fun e => is_usize (value e)) es.
Proof.
  intros Hm a es Ha. eapply Forall_impl; [|exact (Hm a es Ha)]. by intros e [].
Qed.

Lemma usize_entries (m : mem) table i :
  (forall a es, m !! a = Some es -> Forall (fun e => is_usize (value e)) es) ->
  forall es e, m !! table = Some es -> es !! i = Some e -> is_usize (value e).
Proof. intros Hm es e Hes He. exact (Forall_lookup_1 _ _ _ _ (Hm _ _ Hes) He). Qed.

(** The tests of both walks on a valid, sane entry. *)
Lemma sane_pte_valid v :
  sane_pte L v -> pte_V v = true ->
  0 <= v < 2 ^ 54 /\ Z.testbit v 60 = false /\ hw_reserved v = false /\
  negb (pte_R v) && pte_W v = false /\
  (pte_R v || pte_X v = true -> 4 * v < sz L) /\
  (pte_R v || pte_X v = false ->
     0 < pte_ppn v * 4096 /\ (v / 2 ^ 8 =? 0) = false /\
     Entry.address (mkEntry v) = pte_ppn v * 4096).
Proof.
  intros [Hu Hres HW Hleaf Htab] EV. unfold is_usize in Hu.
  specialize (Hres EV). specialize (HW EV). specialize (Hleaf EV). specialize (Htab EV).
  split; [lia|]. split; [apply testbit_60_small; lia|].
  split; [unfold hw_reserved; by rewrite Z.div_small by lia|].
  split; [destruct (pte_R v), (pte_W v); simpl; intuition congruence|].
  split; [done|]. intros HRX. destruct (Htab HRX) as [H1 H2].
  split; [|split; [by apply Z.eqb_neq|apply address_ppn; lia]].
  rewrite pte_ppn_small by lia. revert H1 H2. pow2. Z.div_mod_to_equations. lia.
Qed.

Lemma query_loop_hw g m :
  sane_memory m ->
  (forall pa, 0 < pa -> phys_to_virt g pa <> Val 0) ->
  forall i table va, (i < L)%nat -> is_usize va ->
  match hw_walk (phys_to_virt g) m i table va with
  | Val (Some pa) => query_loop L 8 g m i table va = Val (Ok pa)
  | Val None => (exists e, query_loop L 8 g m i table va = Val (Err e))
                \/ (exists p, query_loop L 8 g m i table va = Stop p)
  | Stop p => query_loop L 8 g m i table va = Stop p
  end.
Proof.
  intros Hm Hnull i. induction i as [|i IH]; intros table va Hi Hva;
    rewrite query_loop_eq by (done || by apply usize_entries, sane_memory_usize);
    cbn [hw_walk];
    (destruct (load_table m table) as [es|] eqn:Et; cbn [mbind outcome_bind]; [|done]);
    (destruct (index es _) as [[v]|] eqn:Ei; cbn [mbind outcome_bind value]; [|done]);
    (assert (Hs : sane_pte L v)
       by (unfold load_table in Et; destruct (m !! table) eqn:Em; [|done];
           injection Et as <-; apply index_inv in Ei as [_ Ei];
           apply (Forall_lookup_1 _ _ _ _ (Hm _ _ Em) Ei)));
    (destruct (pte_V v) eqn:EV; cbn [negb orb]; [|by eauto]);
    destruct (sane_pte_valid v Hs EV) as (Hv & -> & -> & -> & Hleaf & Htab); cbn [orb];
    (destruct (pte_R v || pte_X v) eqn:ERX; cbn [orb];
     [rewrite <-leaf_aligned_ppn by lia;
      destruct (leaf_aligned v _) eqn:Eal; [by rewrite leaf_pa_ppn by (lia || auto)|by eauto]|]);
    destruct (Htab eq_refl) as (Hppn & -> & ->).
  - pose proof (Hnull _ Hppn). destruct (phys_to_virt g _) as [p|]; cbn [mbind outcome_bind];
      [|by eauto]. destruct (Z.eqb_spec p 0); by eauto.
  - pose proof (Hnull _ Hppn). destruct (phys_to_virt g _) as [p|]; cbn [mbind outcome_bind];
      [|done]. destruct (Z.eqb_spec p 0); [by subst|]. apply IH; [lia|done].
Qed.
End Query.

(** C2: [query] translates as the hardware does.  On every memory of sane
    entries, when the walk of the privileged specification reaches a frame,
    [query] answers [Ok] with the same physical address; when it faults,
    [query] answers an error or stops, and never an address.  The walks stop
    together on a pointer that leads to no table. *)
Theorem query_refines_hardware L g m va :
  (0 < L <= 5)%nat -> sane_memory L m ->
  (forall pa, 0 < pa -> phys_to_virt g pa <> Val 0) ->
  is_usize va ->
  match hw_walk (phys_to_virt g) m (L - 1) (table g) va with
  | Val (Some pa) => query L 8 g m va = Val (Ok pa)
  | Val None => (exists e, query L 8 g m va = Val (Err e))
                \/ (exists p, query L 8 g m va = Stop p)
  | Stop p => query L 8 g m va = Stop p
  end.
Proof. intros HL Hm Hn Hva. apply query_loop_hw; done || lia. Qed.

(** A leaf at each of the three levels of Sv39, used by the witnesses. *)
Definition sample_memory : mem :=
  {[ 0x1000 := <[1%nat := mkEntry 0x801]> (<[2%nat := mkEntry 0x2000000f]> (zeroed 8));
     0x2000 := <[3%nat := mkEntry 0xc01]> (<[4%nat := mkEntry 0x10000f]> (zeroed 8));
     0x3000 := <[5%nat := mkEntry 0x1c07]> (zeroed 8) ]}.
Definition sample_paging : GenericPaging :=
  {| table := 0x1000; phys_to_virt := Val; virt_to_phys := Val |}.

Definition sane_pteb (L : nat) (v : Z) : bool :=
  (0 <=? v) && (v <? 2 ^ 54) && (if pte_W v then pte_R v else true) &&
  (if pte_R v || pte_X v then 4 * v <? sz L
   else if pte_V v then (v mod 2 ^ 10 <? 2 ^ 8) && negb (v / 2 ^ 8 =? 0) else true).

Lemma sane_pteb_spec L v : sane_pteb L v = true -> sane_pte L v.
Proof.
  unfold sane_pteb. rewrite !andb_true_iff. intros (((H1 & H2) & H3) & H4).
  apply Z.leb_le in H1. apply Z.ltb_lt in H2.
  split; [unfold is_usize; lia|lia|..].
  - intros _ HW. by rewrite HW in H3.
  - intros _ Hl. rewrite Hl in H4. by apply Z.ltb_lt.
  - intros HV Hl. rewrite HV, Hl, andb_true_iff in H4. destruct H4 as [H4 H5].
    split; [by apply Z.ltb_lt|]. apply negb_true_iff in H5. by apply Z.eqb_neq.
Qed.

Lemma sane_memory_map L (m : mem) :
  map_Forall (fun _ es => Forall (fun e => sane_pteb L (value e) = true) es) m ->
  sane_memory L m.
Proof.
  intros H a es Ha. eapply Forall_impl; [|exact (H a es Ha)].
  intros e He. by apply sane_pteb_spec.
Qed.

Lemma query_refines_hardware_witness :
  hw_walk Val sample_memory 2 0x1000 0x40605123 = Val (Some 0x7123) /\
  query 3 8 sample_paging sample_memory 0x40605123 = Val (Ok 0x7123).
Proof.
  assert (E : hw_walk Val sample_memory 2 0x1000 0x40605123 = Val (Some 0x7123))
    by (vm_compute; reflexivity).
  split; [exact E|].
  pose proof (query_refines_hardware 3 sample_paging sample_memory 0x40605123) as H.
  change (phys_to_virt sample_paging) with (@Val Z) in H.
  change (table sample_paging) with 0x1000 in H. change (3 - 1)%nat with 2%nat in H.
  rewrite E in H. apply H.
  - lia.
  - apply sane_memory_map. apply (bool_decide_unpack _). vm_compute. reflexivity.
  - intros pa Hpa [= ->]. lia.
  - split; [lia|reflexivity].
Defined.

Lemma leaf_pa_range L v i va :
  (i < L)%nat -> 0 <= leaf_pa L v i va < sz L.
Proof.
  intros Hi. unfold leaf_pa. pose proof (sz_pos i). pose proof (sz_pos L).
  pose proof (Z.mod_pos_bound va (sz i) ltac:(lia)).
  pose proof (Z.mod_pos_bound (4 * v) (sz L) ltac:(lia)).
  assert (E : sz L = 2 ^ (9 * Z.of_nat (L - i)) * sz i)
    by (unfold sz; rewrite <-Z.pow_add_r by lia; f_equal; lia).
  set (x := (4 * v) mod sz L) in *. set (n := 2 ^ (9 * Z.of_nat (L - i))) in *.
  assert (0 <= x / sz i) by (apply Z.div_pos; lia).
  assert (x / sz i < n) by (apply Z.div_lt_upper_bound; lia). nia.
Qed.

Lemma leaf_pa_offset L v i va : leaf_pa L v i va mod 4096 = va mod 4096.
Proof.
  unfold leaf_pa.
  assert (E : sz i = 2 ^ (9 * Z.of_nat i) * 4096)
    by (unfold sz; rewrite Z.add_comm, Z.pow_add_r by lia; reflexivity).
  rewrite E at 2. rewrite Z.add_comm, Z.mul_assoc, Z.mod_add by lia.
  rewrite E, Z.mul_comm, Z.rem_mul_r by lia.
  rewrite Z.mul_comm, Z.mod_add, Z.mod_mod by lia. done.
Qed.

(** What [query] can answer, on any tables.  Of the five errors of
    [PageLookupError] only three occur: the test for write-only pages compares
    [value & WRITE] with 1 and never succeeds, and no access fault is raised.
    An address that is found has the page offset of the query, and fits the
    width of the virtual addresses of the scheme, whatever frame number the
    entry holds. *)
Theorem query_results L g m va :
  (0 < L <= 5)%nat -> is_usize va ->
  (forall a es, m !! a = Some es -> Forall (fun e => is_usize (value e)) es) ->
  match query L 8 g m va with
  | Val (Ok pa) => 0 <= pa < 2 ^ va_bits (Z.of_nat L) 8 /\ pa mod 4096 = va mod 4096
  | Val (Err e) => e = Invalid \/ e = ReservedBitSet \/ e = PageFault
  | Stop _ => True
  end.
Proof.
  intros HL Hva Hm. unfold query.
  assert (Hi : (L - 1 < L)%nat) by lia. revert Hi. generalize (table g). generalize (L - 1)%nat.
  induction n as [|i IH]; intros table Hi;
    rewrite query_loop_eq by (done || lia || by apply usize_entries);
    (destruct (load_table m table); cbn [mbind outcome_bind]; [|done]);
    (destruct (index _ _) as [[v]|]; cbn [mbind outcome_bind value]; [|done]);
    (destruct (pte_V v); cbn [negb]; [|by auto]);
    (destruct (Z.testbit v 60); [by auto|]);
    (destruct (_ || _ || _);
     [destruct (leaf_aligned v _); [|done]; split; [|apply leaf_pa_offset];
      replace (2 ^ va_bits (Z.of_nat L) 8) with (sz L)
        by (unfold sz, va_bits; change (vpn_bits 8) with 9; f_equal; lia);
      by apply leaf_pa_range|]);
    (destruct (phys_to_virt g _) as [p|]; cbn [mbind outcome_bind]; [|done]);
    (destruct (p =? 0); [done|]).
  - auto.
  - apply IH. lia.
Qed.

Lemma query_results_witness :
  query 3 8 sample_paging sample_memory 0x40605123 = Val (Ok 0x7123) /\
  0 <= 0x7123 < 2 ^ va_bits (Z.of_nat 3) 8 /\ 0x7123 mod 4096 = 0x40605123 mod 4096.
Proof.
  assert (E : query 3 8 sample_paging sample_memory 0x40605123 = Val (Ok 0x7123))
    by (vm_compute; reflexivity).
  split; [exact E|].
  pose proof (query_results 3 sample_paging sample_memory 0x40605123) as H.
  rewrite E in H. apply H.
  - lia.
  - split; [lia|reflexivity].
  - apply (sane_memory_usize 3), sane_memory_map. apply (bool_decide_unpack _). vm_compute. reflexivity.
Defined.
