(* ===== verification/PagingTree.v ===== *)
(** * kernel_paging: page tables as trees

    The abstract view of the tables in memory: a tree whose leaves are entry
    values and whose nodes carry the address of their table.  [table_repr]
    relates a tree to a memory; [tquery] and [tmap] are the specifications of
    [query] and [map_internal] on trees, by arithmetic and without a memory. *)

From S2P Require Import Prelude PagingBits Paging PagingSpec.

Inductive ptree :=
  | PLeaf (v : Z)
  | PNode (a : Z) (ts : list ptree).

(** The addresses of the tables of a tree. *)
Fixpoint footprint (t : ptree) : list Z :=
  match t with
  | PLeaf _ => []
  | PNode a ts => a :: concat (footprint <$> ts)
  end.
Definition footprints (ts : list ptree) : list Z := concat (footprint <$> ts).

(** A tree up to the addresses of its tables. *)
Fixpoint shape (t : ptree) : ptree :=
  match t with
  | PLeaf v => PLeaf v
  | PNode _ ts => PNode 0 (shape <$> ts)
  end.

(** Leaves of level [l] as the program creates them: not the encoding of a
    pointer, and a frame range that splitting cannot push out of the word. *)
Definition leaf_ok (l : nat) (v : Z) : Prop :=
  0 <= v /\ v + sz l / 4 <= 2 ^ 60 /\ pte_R v || pte_X v || negb (pte_V v) = true.
Definition flags_ok (flags : Z) : Prop :=
  0 <= flags < 2 ^ 10 /\ pte_R flags || pte_X flags || negb (pte_V flags) = true.

(** ** The specification of [query] *)

Definition leaf_answer (L i : nat) (v va : Z) : outcome (Result Z PageLookupError) :=
  if negb (pte_V v) then Val (Err Invalid)
  else if Z.testbit v 60 then Val (Err ReservedBitSet)
  else if leaf_aligned v i then Val (Ok (leaf_pa L v i va)) else Stop AssertFailed.

Fixpoint tquery (L l : nat) (ts : list ptree) (va : Z) : outcome (Result Z PageLookupError) :=
  match ts !! Z.to_nat (vpn l va) with
  | None => Stop IndexOutOfBounds
  | Some (PLeaf v) => leaf_answer L l v va
  | Some (PNode _ sub) =>
      match l with
      | O => Val (Err PageFault)
      | S l => tquery L l sub va
      end
  end.

(** ** The specification of [split] and [map_internal] *)

Definition split_leaf (l : nat) (v : Z) : list ptree :=
  (fun k => PLeaf (v + k * (sz l / 4))) <$> seqZ 0 512.

(** The entry that sends the page at [cur] to its frame. *)
Definition new_pte (pa va cur flags : Z) : Z := ((cur + pa - va) / 4 + flags) mod 2 ^ 54.

Definition unaligned (l : nat) (a : Z) : bool := negb (a mod sz l =? 0).

Definition first_vpn (l : nat) (va : Z) : Z := vpn l va.
Definition last_vpn (l : nat) (va len : Z) : Z :=
  let e := vpn l (va + len - match l with O => 0 | S _ => 1 end) in
  if e <? vpn l va then 511 else e.

Definition must_split (l : nat) (pa va len i : Z) : bool :=
  ((i =? first_vpn l va) && (unaligned l va || unaligned l pa))
  || ((i =? last_vpn l va len) && (unaligned l (va + len) || unaligned l (pa + len))).

Section Tmap.
Context (pa va len flags : Z).

(** [map_internal] on the children of a table of level [l] whose region
    starts at [cur]. *)
Fixpoint tmap (l : nat) (cur : Z) (ts : list ptree) : list ptree :=
  imap (fun i t =>
    let i := Z.of_nat i in
    if (first_vpn l va <=? i) && (i <=? last_vpn l va len) then
      let leaf := PLeaf (new_pte pa va (cur + i * sz l) flags) in
      match l with
      | O => leaf
      | S l' =>
          match t with
          | PNode a sub => PNode a (tmap l' (cur + i * sz l) sub)
          | PLeaf v => if must_split l pa va len i
                       then PNode 0 (tmap l' (cur + i * sz l) (split_leaf l' v))
                       else leaf
          end
      end
    else t) ts.

(** What happens to child [i]. *)
Definition tstep (l : nat) (cur i : Z) (t : ptree) : ptree :=
  if (first_vpn l va <=? i) && (i <=? last_vpn l va len) then
    let leaf := PLeaf (new_pte pa va (cur + i * sz l) flags) in
    match l with
    | O => leaf
    | S l' =>
        match t with
        | PNode a sub => PNode a (tmap l' (cur + i * sz l) sub)
        | PLeaf v => if must_split l pa va len i
                     then PNode 0 (tmap l' (cur + i * sz l) (split_leaf l' v))
                     else leaf
        end
    end
  else t.

Lemma tmap_lookup l cur ts i :
  tmap l cur ts !! i = tstep l cur (Z.of_nat i) <$> ts !! i.
Proof. destruct l; cbn [tmap]; rewrite list_lookup_imap; by destruct (ts !! i). Qed.

Lemma tmap_length l cur ts : length (tmap l cur ts) = length ts.
Proof. destruct l; cbn [tmap]; by rewrite length_imap. Qed.
End Tmap.

(** ** Trees in memory *)

Section Repr.
Context (g : GenericPaging).

Fixpoint repr (l : nat) (m : mem) (e : Entry) (t : ptree) : Prop :=
  match t with
  | PLeaf v => value e = v /\ leaf_ok l v
  | PNode a ts =>
      match l with
      | O => False
      | S l =>
          0 <= value e < 2 ^ 60 /\ Entry.is_leaf e = false /\
          as_table (phys_to_virt g) e = Val a /\
          exists es, m !! a = Some es /\ length es = 512%nat /\ length ts = 512%nat /\
            forall i e' t', es !! i = Some e' -> ts !! i = Some t' -> repr l m e' t'
      end
  end.

(** The table of level [l] at address [a] holds the children [ts]. *)
Definition table_repr (l : nat) (m : mem) (a : Z) (ts : list ptree) : Prop :=
  exists es, m !! a = Some es /\ length es = 512%nat /\ length ts = 512%nat /\
    forall i e t, es !! i = Some e -> ts !! i = Some t -> repr l m e t.

Lemma repr_node l m e a ts :
  repr (S l) m e (PNode a ts) <->
    0 <= value e < 2 ^ 60 /\ Entry.is_leaf e = false /\
    as_table (phys_to_virt g) e = Val a /\ table_repr l m a ts.
Proof. done. Qed.

Lemma elem_of_footprints x ts :
  x ∈ footprints ts <-> exists i t, ts !! i = Some t /\ x ∈ footprint t.
Proof.
  unfold footprints. rewrite list_elem_of_In, in_concat. split.
  - intros (f & Hf & Hx). apply list_elem_of_In, list_elem_of_fmap in Hf as (t & -> & Ht).
    apply list_elem_of_lookup in Ht as (i & Hi). exists i, t. by rewrite list_elem_of_In.
  - intros (i & t & Hi & Hx). exists (footprint t). rewrite <-!list_elem_of_In. split; [|done].
    apply list_elem_of_fmap. exists t. split; [done|]. by eapply list_elem_of_lookup_2.
Qed.

(** A tree's representation depends on the memory at its footprint only. *)
Lemma repr_frame l m m' e t :
  repr l m e t -> (forall x, x ∈ footprint t -> m' !! x = m !! x) -> repr l m' e t.
Proof.
  revert e t. induction l as [|l IH]; intros e [v|a ts]; simpl; try done.
  intros (Hv & Hl & Ha & es & Hes & Hle & Hlt & Hc) Hm. repeat split; try done || lia.
  exists es. rewrite Hm by (left). repeat split; try done.
  intros i e' t' He Ht. apply IH; [by eapply Hc|].
  intros x Hx. apply Hm. right. apply elem_of_footprints. eauto.
Qed.

Lemma table_repr_frame l m m' a ts :
  table_repr l m a ts -> m' !! a = m !! a ->
  (forall x, x ∈ footprints ts -> m' !! x = m !! x) -> table_repr l m' a ts.
Proof.
  intros (es & Hes & Hle & Hlt & Hc) Ha Hm. exists es. rewrite Ha. repeat split; try done.
  intros i e t He Ht. eapply repr_frame; [by eapply Hc|].
  intros x Hx. apply Hm, elem_of_footprints. eauto.
Qed.

Lemma table_repr_child l m a ts i t :
  table_repr l m a ts -> ts !! i = Some t ->
  exists es e, m !! a = Some es /\ es !! i = Some e /\ repr l m e t /\ (i < 512)%nat.
Proof.
  intros (es & Hes & Hle & Hlt & Hc) Ht. pose proof (lookup_lt_Some _ _ _ Ht).
  destruct (lookup_lt_is_Some_2 es i) as [e He]; [lia|]. exists es, e.
  repeat split; try done; [by eapply Hc|lia].
Qed.

Lemma leaf_ok_is_leaf l v : leaf_ok l v -> Entry.is_leaf (mkEntry v) = true.
Proof.
  intros (Hv & Hb & Hl). pose proof (sz_pos l).
  rewrite is_leaf_spec by (unfold is_usize; Z.div_mod_to_equations; lia). by rewrite Hl.
Qed.

Lemma repr_value l m e t : repr l m e t -> 0 <= value e < 2 ^ 62.
Proof.
  destruct t, l; simpl; try done.
  - intros [-> (? & ? & _)]. pose proof (sz_pos 0). Z.div_mod_to_equations; lia.
  - intros [-> (? & ? & _)]. pose proof (sz_pos (S l)). Z.div_mod_to_equations; lia.
  - intros [? _]; lia.
Qed.

Lemma repr_footprint_dom l m e t x :
  repr l m e t -> x ∈ footprint t -> is_Some (m !! x).
Proof.
  revert e t. induction l as [|l IH]; intros e [v|a ts]; simpl; try done;
    try (intros _ Hx; by apply not_elem_of_nil in Hx).
  intros (_ & _ & _ & es & Hes & Hle & Hlt & Hc) Hx.
  apply elem_of_cons in Hx as [->|Hx]; [by eexists|].
  apply elem_of_footprints in Hx as (i & t & Ht & Hx).
  destruct (lookup_lt_is_Some_2 es i) as [e' He'];
    [rewrite Hle, <-Hlt; by eapply lookup_lt_Some|].
  eapply IH; [by eapply Hc|done].
Qed.

(** Reading entry [i] of a represented table. *)
Lemma table_repr_index l m a ts i :
  table_repr l m a ts -> 0 <= i < 512 ->
  exists es e t, m !! a = Some es /\ length es = 512%nat /\ index es i = Val e /\
    es !! Z.to_nat i = Some e /\ ts !! Z.to_nat i = Some t /\ repr l m e t.
Proof.
  intros (es & Hes & Hle & Hlt & Hc) Hi.
  destruct (lookup_lt_is_Some_2 es (Z.to_nat i)) as [e He]; [lia|].
  destruct (lookup_lt_is_Some_2 ts (Z.to_nat i)) as [t Ht]; [lia|].
  exists es, e, t. repeat split; try done; [by apply index_Val; lia || done|by eapply Hc].
Qed.

Lemma as_table_Val e a :
  as_table (phys_to_virt g) e = Val a -> phys_to_virt g (Entry.address e) = Val a /\ a <> 0.
Proof.
  unfold as_table. destruct (negb _); [|done].
  destruct (phys_to_virt g _) as [p|]; cbn [mbind outcome_bind]; [|done].
  destruct (Z.eqb_spec p 0); [done|]. by intros [= ->].
Qed.

(** ** [query] on represented trees *)

Lemma query_loop_tree L m l a ts va :
  (L <= 5)%nat -> (l < L)%nat -> is_usize va -> table_repr l m a ts ->
  query_loop L 8 g m l a va = tquery L l ts va.
Proof.
  intros HL. revert a ts. induction l as [|l IH]; intros a ts Hl Hva Hr;
    [destruct (table_repr_index _ _ _ _ (vpn 0 va) Hr (vpn_range _ va))
       as (es & e & t & Hes & Hle & Hidx & He & Ht & Hrepr)
    |destruct (table_repr_index _ _ _ _ (vpn (S l) va) Hr (vpn_range _ va))
       as (es & e & t & Hes & Hle & Hidx & He & Ht & Hrepr)];
    pose proof (repr_value _ _ _ _ Hrepr) as Hv;
    (rewrite query_loop_eq; [|done|done|done|
       intros es' e' Hes' He'; simplify_eq; unfold is_usize; lia]);
    cbn [tquery]; rewrite Ht; unfold load_table; rewrite Hes; cbn [mbind outcome_bind];
    rewrite Hidx; cbn [mbind outcome_bind]; destruct e as [v]; cbn [value] in *.
  - destruct t as [w|]; [|done]. destruct Hrepr as [Hw (_ & _ & Hok)]; cbn [value] in Hw; subst w.
    unfold leaf_answer. destruct (pte_V v); cbn [negb]; [|done]. destruct (Z.testbit v 60); [done|].
    rewrite orb_false_r in Hok. by rewrite Hok.
  - destruct t as [w|b sub].
    + destruct Hrepr as [Hw (_ & _ & Hok)]; cbn [value] in Hw; subst w.
      unfold leaf_answer. destruct (pte_V v); cbn [negb]; [|done]. destruct (Z.testbit v 60); [done|].
      rewrite orb_false_r in Hok. by rewrite Hok.
    + apply repr_node in Hrepr as (Hv60 & Hleaf & Has & Hsub). cbn [value] in Hv60.
      apply as_table_Val in Has as [-> Hb]. cbn [mbind outcome_bind].
      rewrite (testbit_high v 60) by lia.
      rewrite is_leaf_spec in Hleaf by (unfold is_usize; lia).
      apply orb_false_iff in Hleaf as [Hleaf ->]. apply orb_false_iff in Hleaf as [-> HV].
      apply negb_false_iff in HV. rewrite HV. cbn [negb orb].
      rewrite (proj2 (Z.eqb_neq b 0)) by done. apply IH; [lia|done|done].
Qed.
End Repr.
