(* ===== verification/PagingRefine.v ===== *)
(** * kernel_paging: the memory operations implement the tree operations

    [split] and [map_internal] run on a memory; [split_leaf] and [tmap] are
    their effect on the tree of tables.  The refinement holds for every
    allocator that returns unused, page-aligned blocks ([AllocSpec]), for every
    tree whose tables are pairwise different, and for every range, aligned or
    not: what [map] does to the translation is then a question about [tmap]. *)

From S2P Require Import Prelude PagingBits Paging PagingSpec PagingTree.

(** The documented behaviour of the global allocator for a page table (a fresh
    block of 512 words, aligned by the type's [align(4096)]) and of the
    address conversions on it. *)
Class AllocSpec (g : GenericPaging) (alloc : mem -> option (Z * list Entry)) : Prop := {
  alloc_fresh m p words : alloc m = Some (p, words) -> m !! p = None;
  alloc_length m p words : alloc m = Some (p, words) -> length words = 512%nat;
  alloc_phys m p words :
    alloc m = Some (p, words) ->
    p <> 0 /\ exists phys, virt_to_phys g p = Val phys /\ phys_to_virt g phys = Val p /\
      0 < phys < 2 ^ 56 /\ phys mod 4096 = 0
}.

Lemma sz_div_4 l : sz l = 4 * (sz l / 4) /\ (sz l / 4) mod 2 ^ 10 = 0 /\ 1024 <= sz l / 4.
Proof.
  assert (E : sz l = 4096 * 2 ^ (9 * Z.of_nat l))
    by (unfold sz; rewrite Z.pow_add_r by lia; reflexivity).
  assert (E4 : sz l / 4 = 2 ^ (9 * Z.of_nat l) * 2 ^ 10).
  { rewrite E. replace (4096 * _) with ((2 ^ (9 * Z.of_nat l) * 2 ^ 10) * 4) by lia.
    by rewrite Z.div_mul. }
  rewrite E4. split; [lia|]. split; [by apply Z.mod_mul|]. lia.
Qed.

Lemma sz_mod_4096 l : sz l mod 4096 = 0.
Proof. destruct (sz_div_4 l) as (H1 & H2 & H3). Z.div_mod_to_equations. lia. Qed.

(** Adding a multiple of 1024 keeps the low ten bits, in particular the flags. *)
Lemma testbit_add_high v q n : q mod 2 ^ 10 = 0 -> 0 <= n < 10 -> Z.testbit (v + q) n = Z.testbit v n.
Proof.
  intros Hq Hn. rewrite <-(Z.mod_pow2_bits_low (v + q) 10), <-(Z.mod_pow2_bits_low v 10) by lia.
  by rewrite <-Z.add_mod_idemp_r, Hq, Z.add_0_r by lia.
Qed.

Lemma flags_add_high v q :
  q mod 2 ^ 10 = 0 ->
  pte_R (v + q) || pte_X (v + q) || negb (pte_V (v + q)) = pte_R v || pte_X v || negb (pte_V v).
Proof. intros Hq. unfold pte_R, pte_X, pte_V. by rewrite !testbit_add_high by (done || lia). Qed.

Lemma testbit_add_high_mod v q n k :
  q mod 2 ^ 10 = 0 -> 0 <= n < 10 -> 10 <= k -> Z.testbit ((q + v) mod 2 ^ k) n = Z.testbit v n.
Proof.
  intros Hq Hn Hk. rewrite Z.mod_pow2_bits_low, Z.add_comm by lia. by apply testbit_add_high.
Qed.

(** ** [split] *)

Lemma split_entries_eq es base flags q k :
  0 <= flags < 2 ^ 8 -> base mod 2 ^ 8 = 0 -> q mod 2 ^ 8 = 0 -> 0 <= base -> 0 <= q -> 0 <= k ->
  base + (k + Z.of_nat (length es)) * q < 2 ^ 64 ->
  split_entries es flags (base + k * q) (4 * q) =
    Val ((fun j => mkEntry (flags + base + j * q)) <$> seqZ k (Z.of_nat (length es))).
Proof.
  intros Hf Hb Hq H0 Hq0. revert k. induction es as [|e es IH]; intros k Hk Hmax; [done|].
  cbn [split_entries length] in *. rewrite Nat2Z.inj_succ in *.
  rewrite Z.shiftr_div_pow2 by lia.
  replace (4 * q / 2 ^ 2) with q by (change (2 ^ 2) with 4; Z.div_mod_to_equations; lia).
  unfold checked_add. rewrite (proj2 (Z.ltb_lt _ _)) by nia. cbn [mbind outcome_bind].
  replace (base + k * q + q) with (base + (k + 1) * q) by lia.
  rewrite IH by nia. cbn [mbind outcome_bind].
  rewrite (seqZ_cons k) by lia. cbn [fmap list_fmap]. rewrite Z.pred_succ, <-Z.add_1_r.
  f_equal. f_equal.
  f_equal. rewrite Z.lor_comm, (lor_add _ _ 8); [lia|lia| |lia].
  rewrite <-Z.add_mod_idemp_r, <-Z.mul_mod_idemp_r, Hq, Z.mul_0_r by lia.
  by rewrite Z.add_0_r.
Qed.

(** The entry [split] leaves behind: a pointer to the new table. *)
Definition table_entry (phys : Z) : Entry := mkEntry (Z.lor 1 (Z.shiftr phys 2)).

Lemma table_entry_facts phys :
  0 < phys < 2 ^ 56 -> phys mod 4096 = 0 ->
  value (table_entry phys) = 1 + phys / 4 /\
  Entry.address (table_entry phys) = phys /\
  Entry.is_leaf (table_entry phys) = false /\
  (Z.land (value (table_entry phys)) 1 =? 0) = false /\
  (Z.land (value (table_entry phys)) EntryBits.RWX =? 0) = true.
Proof.
  intros Hp Hm.
  assert (Hq : (phys / 4) mod 2 ^ 10 = 0) by (pow2; Z.div_mod_to_equations; lia).
  assert (Hv : value (table_entry phys) = 1 + phys / 4).
  { unfold table_entry; cbn [value]. rewrite Z.shiftr_div_pow2 by lia. change (2 ^ 2) with 4.
    rewrite Z.lor_comm, (lor_add _ _ 10); [lia|lia|done|lia]. }
  assert (Hr : 0 < phys / 4 < 2 ^ 54) by (pow2; Z.div_mod_to_equations; lia).
  assert (He : table_entry phys = mkEntry (1 + phys / 4))
    by (destruct (table_entry phys) as [w]; cbn [value] in Hv; by subst).
  split; [done|]. rewrite He. cbn [value].
  assert (Hbit : forall n, 0 <= n < 10 -> Z.testbit (1 + phys / 4) n = Z.testbit 1 n)
    by (intros; by apply testbit_add_high).
  split; [|split; [|split]].
  - rewrite address_small by lia. pow2. Z.div_mod_to_equations. lia.
  - rewrite is_leaf_spec by (unfold is_usize; lia). unfold pte_R, pte_X, pte_V.
    rewrite !Hbit by lia. change (Z.testbit 1 0) with true.
    change (Z.testbit 1 1) with false. change (Z.testbit 1 3) with false. cbn [orb negb].
    apply Z.eqb_neq. revert Hq. pow2. Z.div_mod_to_equations. lia.
  - rewrite (land_bit_eqb _ 0 : 0 <= 0 -> (Z.land _ 1 =? 0) = _) by lia. by rewrite Hbit by lia.
  - apply Z.eqb_eq. unfold EntryBits.RWX, EntryBits.READ, EntryBits.WRITE, EntryBits.EXECUTE.
    rewrite !Z.land_lor_distr_r, !land_bit by lia. by rewrite !Hbit by lia.
Qed.

Section Refine.
Context (g : GenericPaging) (alloc : mem -> option (Z * list Entry)).
Context {Halloc : AllocSpec g alloc}.

Lemma split_eq l m v :
  (l <= 4)%nat -> leaf_ok (S l) v ->
  match split alloc (virt_to_phys g) m (mkEntry v) (sz l) with
  | Stop p => p = OutOfMemory
  | Val (m', e) => exists p,
      m !! p = None /\
      m' = <[p := (fun k => mkEntry (v + k * (sz l / 4))) <$> seqZ 0 512]> m /\
      0 <= value e < 2 ^ 60 /\ Entry.is_leaf e = false /\
      as_table (phys_to_virt g) e = Val p
  end.
Proof.
  intros Hl (Hv0 & Hv1 & Hok). destruct (sz_div_4 l) as (Hs4 & Hs10 & Hs).
  rewrite sz_S in Hv1. replace (512 * sz l / 4) with (512 * (sz l / 4)) in Hv1
    by (rewrite Hs4 at 2; replace (512 * (4 * (sz l / 4))) with (512 * (sz l / 4) * 4) by lia;
        by rewrite Z.div_mul).
  assert (Hvu : is_usize v) by (unfold is_usize; nia).
  unfold split, boxed_zeroed.
  destruct (alloc m) as [[p words]|] eqn:Ea; cbn [mbind outcome_bind]; [|done].
  pose proof (alloc_fresh m p words Ea) as Hfresh.
  pose proof (alloc_length m p words Ea) as Hlen.
  destruct (alloc_phys m p words Ea) as (Hp0 & phys & Hvp & Hpv & Hphys & Hpm).
  unfold load_table. rewrite lookup_insert_eq. cbn [mbind outcome_bind].
  change (value (mkEntry v)) with v.
  rewrite land_address_mask, land_flags_mask by done.
  pose proof (Z.mod_pos_bound v (2 ^ 8) ltac:(lia)). pose proof (Z.mod_le v (2 ^ 8) Hv0 ltac:(lia)).
  assert (Hse : split_entries words (v mod 2 ^ 8) (v - v mod 2 ^ 8) (sz l) =
            Val ((fun k => mkEntry (v + k * (sz l / 4))) <$> seqZ 0 512)).
  { rewrite Hs4 at 1. set (q := sz l / 4) in *. clearbody q.
    replace (v - v mod 2 ^ 8) with ((v - v mod 2 ^ 8) + 0 * q) by lia.
    rewrite split_entries_eq; [|lia| | |lia|lia|lia|rewrite Hlen; lia].
    - rewrite Hlen. f_equal. apply list_fmap_ext. intros i k _. f_equal. lia.
    - pow2. Z.div_mod_to_equations. lia.
    - revert Hs10. pow2. Z.div_mod_to_equations. lia. }
  rewrite Hse.
  cbn [mbind outcome_bind]. rewrite Hvp. cbn [mbind outcome_bind].
  fold (table_entry phys).
  destruct (table_entry_facts phys Hphys Hpm) as (Hval & Hadr & Hleaf & H1 & Hrwx).
  rewrite Hleaf, H1, Hrwx. cbn [negb]. exists p. repeat split; try done.
  - by rewrite insert_insert_eq.
  - rewrite Hval. pow2. Z.div_mod_to_equations. lia.
  - rewrite Hval. revert Hphys. pow2. Z.div_mod_to_equations. lia.
  - unfold as_table. rewrite H1, Hadr, Hpv. cbn [negb mbind outcome_bind].
    by rewrite (proj2 (Z.eqb_neq _ _)).
Qed.

(** The new table holds the pieces of the leaf. *)
Lemma split_leaf_repr l m v p :
  (l <= 4)%nat -> leaf_ok (S l) v ->
  m !! p = Some ((fun k => mkEntry (v + k * (sz l / 4))) <$> seqZ 0 512) ->
  table_repr g l m p (split_leaf l v).
Proof.
  intros Hl (Hv0 & Hv1 & Hok) Hp. destruct (sz_div_4 l) as (Hs4 & Hs10 & Hs).
  eexists. split; [exact Hp|]. unfold split_leaf. rewrite !length_fmap, length_seqZ.
  split; [done|]. split; [done|]. intros i e t He Ht.
  apply list_lookup_fmap_Some in He as (k & -> & Hk).
  apply list_lookup_fmap_Some in Ht as (k' & -> & Hk'). simplify_eq.
  apply lookup_seqZ in Hk as [-> Hi].
  assert (leaf_ok l (v + (0 + Z.of_nat i) * (sz l / 4))).
  { split; [nia|]. split.
    - rewrite sz_S in Hv1. Z.div_mod_to_equations. nia.
    - rewrite flags_add_high; [done|]. rewrite <-Z.mul_mod_idemp_r, Hs10, Z.mul_0_r by lia. done. }
  by destruct l.
Qed.

Lemma footprints_split_leaf l v : footprints (split_leaf l v) = [].
Proof.
  unfold footprints, split_leaf. induction (seqZ 0 512) as [|k ks IH]; [done|]. exact IH.
Qed.

(** ** Evolution of one table

    [evolves l a m ts m' ts']: the table of level [l] at [a] with children
    [ts] in [m] has become one with children [ts'] in [m'].  New tables are at
    addresses [m] did not use, and nothing else in [m] has changed. *)
Record evolves (l : nat) (a : Z) (m : mem) (ts : list ptree) (m' : mem) (ts' : list ptree)
  : Prop := {
  ev_repr : table_repr g l m' a ts';
  ev_nodup : NoDup (a :: footprints ts');
  ev_fresh x : x ∈ footprints ts' -> x ∈ footprints ts \/ m !! x = None;
  ev_frame x : x ∉ a :: footprints ts -> is_Some (m !! x) -> m' !! x = m !! x;
  ev_dom x : is_Some (m !! x) -> is_Some (m' !! x);
  ev_length : length ts' = length ts
}.

Lemma evolves_refl l a m ts :
  table_repr g l m a ts -> NoDup (a :: footprints ts) -> evolves l a m ts m ts.
Proof. intros. split; auto. Qed.

Lemma evolves_trans l a m ts m1 ts1 m2 ts2 :
  evolves l a m ts m1 ts1 -> evolves l a m1 ts1 m2 ts2 -> evolves l a m ts m2 ts2.
Proof.
  intros H1 H2. split.
  - apply H2.
  - apply H2.
  - intros x Hx. destruct (ev_fresh _ _ _ _ _ _ H2 x Hx) as [Hx1|Hx1].
    + by apply H1.
    + right. destruct (m !! x) eqn:E; [|done].
      destruct (ev_dom _ _ _ _ _ _ H1 x) as [? ?]; [by eexists|congruence].
  - intros x Hx Hs. rewrite <-(ev_frame _ _ _ _ _ _ H1 x Hx Hs).
    apply H2; [|by apply H1]. rewrite not_elem_of_cons in *. destruct Hx as [Hxa Hx].
    split; [done|]. intros Hx1. destruct (ev_fresh _ _ _ _ _ _ H1 x Hx1) as [?|Hn]; [done|].
    rewrite Hn in Hs. by destruct Hs.
  - intros x Hs. by apply H2, H1.
  - rewrite (ev_length _ _ _ _ _ _ H2). apply H1.
Qed.

Lemma footprints_app ts1 ts2 : footprints (ts1 ++ ts2) = footprints ts1 ++ footprints ts2.
Proof. unfold footprints. by rewrite fmap_app, concat_app. Qed.

Lemma footprints_insert ts i t t' :
  ts !! i = Some t ->
  exists f1 f2, footprints ts = f1 ++ footprint t ++ f2 /\
                footprints (<[i := t']> ts) = f1 ++ footprint t' ++ f2.
Proof.
  intros Hi. exists (footprints (take i ts)), (footprints (drop (S i) ts)). split.
  - rewrite <-(take_drop_middle ts i t Hi) at 1. by rewrite footprints_app.
  - rewrite insert_take_drop by (by eapply lookup_lt_Some). by rewrite footprints_app.
Qed.

Lemma footprints_disjoint ts i j t u x :
  NoDup (footprints ts) -> ts !! i = Some t -> ts !! j = Some u -> i <> j ->
  x ∈ footprint t -> x ∉ footprint u.
Proof.
  intros Hnd Hi Hj Hij Hx Hxu.
  destruct (footprints_insert ts i t (PLeaf 0) Hi) as (f1 & f2 & E1 & E2).
  rewrite E1 in Hnd. apply list.NoDup_app in Hnd as (_ & Hd1 & Hnd).
  apply list.NoDup_app in Hnd as (_ & Hd2 & _).
  assert (Hin : x ∈ f1 ++ footprint (PLeaf 0) ++ f2).
  { rewrite <-E2. apply elem_of_footprints. exists j, u.
    rewrite list_lookup_insert_ne by done. done. }
  apply elem_of_app in Hin as [Hin|Hin].
  - apply (Hd1 x Hin). apply elem_of_app. by left.
  - by apply (Hd2 x Hx).
Qed.

(** A subtree whose tables were the old one's or nobody's. *)
Lemma nodup_replaced a ts i t t' :
  NoDup (a :: footprints ts) -> ts !! i = Some t -> NoDup (footprint t') ->
  (forall x, x ∈ footprint t' -> x ∈ footprint t \/ x ∉ a :: footprints ts) ->
  NoDup (a :: footprints (<[i := t']> ts)).
Proof.
  intros Hnd Hi Hnd' Hnew. destruct (footprints_insert ts i t t' Hi) as (f1 & f2 & E1 & ->).
  rewrite E1 in *. apply list.NoDup_cons in Hnd as [Ha Hnd].
  apply list.NoDup_app in Hnd as (Hn1 & Hd1 & Hnd). apply list.NoDup_app in Hnd as (Hn2 & Hd2 & Hn3).
  rewrite list.NoDup_cons, !list.NoDup_app. repeat split; try done; set_solver.
Qed.

(** Replacing the subtree of child [i]. *)
Lemma evolves_child l a m ts m' es e' i t t' :
  table_repr g l m a ts -> NoDup (a :: footprints ts) -> ts !! i = Some t ->
  m !! a = Some es -> m' !! a = Some (<[i := e']> es) ->
  repr g l m' e' t' -> NoDup (footprint t') ->
  (forall x, x ∈ footprint t' -> x ∈ footprint t \/ m !! x = None) ->
  (forall x, x ∉ a :: footprint t -> is_Some (m !! x) -> m' !! x = m !! x) ->
  (forall x, is_Some (m !! x) -> is_Some (m' !! x)) ->
  evolves l a m ts m' (<[i := t']> ts).
Proof.
  intros Hr Hnd Hi Hes Hes' Hr' Hnd' Hfresh Hframe Hdom.
  pose proof Hr as (es0 & Hes0 & Hle & Hlt & Hc). simplify_eq.
  apply list.NoDup_cons in Hnd as [Ha Hnd].
  assert (Hmem : forall x, x ∈ footprints ts -> is_Some (m !! x)).
  { intros x Hx. apply elem_of_footprints in Hx as (j & u & Hj & Hx).
    destruct (lookup_lt_is_Some_2 es j) as [ej Hej];
      [rewrite Hle, <-Hlt; by eapply lookup_lt_Some|].
    eapply repr_footprint_dom; [by eapply Hc|done]. }
  destruct (footprints_insert ts i t t' Hi) as (f1 & f2 & E1 & E2).
  split.
  - exists (<[i := e']> es). rewrite !length_insert. repeat split; try done.
    intros j ej u Hej Hu. destruct (decide (i = j)) as [<-|Hij].
    + pose proof (lookup_lt_Some _ _ _ Hi).
      rewrite list_lookup_insert_eq in Hej by lia. rewrite list_lookup_insert_eq in Hu by lia.
      by simplify_eq.
    + rewrite list_lookup_insert_ne in Hej by done. rewrite list_lookup_insert_ne in Hu by done.
      eapply repr_frame; [by eapply Hc|]. intros x Hx.
      assert (x ∈ footprints ts) by (apply elem_of_footprints; eauto).
      apply Hframe; [|by apply Hmem]. rewrite not_elem_of_cons. split; [set_solver|].
      by eapply (footprints_disjoint ts j i).
  - apply (nodup_replaced a ts i t t'); try done; [by apply list.NoDup_cons|].
    intros x Hx. destruct (Hfresh x Hx) as [|Hxn]; [by left|right].
    intros [->|Hxf]%elem_of_cons; [|destruct (Hmem x Hxf)]; congruence.
  - intros x. rewrite E2, E1, !elem_of_app. intros [Hx|[Hx|Hx]]; [tauto| |tauto].
    destruct (Hfresh x Hx); tauto.
  - intros x Hx. apply Hframe. rewrite not_elem_of_cons in *. rewrite E1 in Hx. set_solver.
  - done.
  - by rewrite length_insert.
Qed.

(** ** The loop body of [map_internal] in closed form *)

Section Range.
Context (pa va len flags : Z).
Context (Hpa : 0 <= pa < 2 ^ 64) (Hva : 0 <= va) (Hlen : 0 < len) (Hend : va + len < 2 ^ 64).
Context (Hpam : pa mod 4096 = 0) (Hvam : va mod 4096 = 0) (Hflags : flags_ok flags).

Let offset := Z.shiftr (wrapping_sub pa va) 2.

Lemma offset_eq : offset = ((pa - va) / 4) mod 2 ^ 62 /\ pa - va = 4 * ((pa - va) / 4).
Proof.
  assert (E : pa - va = 4 * ((pa - va) / 4)) by (Z.div_mod_to_equations; lia).
  split; [|done]. unfold offset, wrapping_sub. rewrite Z.shiftr_div_pow2 by lia.
  rewrite E at 1. set (d := (pa - va) / 4). change (2 ^ 2) with 4.
  change (2 ^ 64) with (4 * 2 ^ 62). rewrite Z.mul_mod_distr_l by lia.
  rewrite Z.mul_comm. by rewrite Z.div_mul.
Qed.

Lemma mapped_value_eq cur :
  0 <= cur -> cur mod 4096 = 0 -> mapped_value cur flags offset = new_pte pa va cur flags.
Proof.
  intros Hc Hcm. destruct offset_eq as [Ho Hd]. destruct Hflags as [Hf _].
  unfold mapped_value, new_pte, UNRESERVED_BITS_MASK, wrapping_add.
  rewrite land_ones_mod, mod_pow2_weaken by lia. rewrite Z.shiftr_div_pow2 by lia.
  change (2 ^ 2) with 4.
  rewrite (lor_add _ _ 10); [|lia| |lia].
  2:{ pow2. Z.div_mod_to_equations. lia. }
  rewrite Ho, <-Z.add_mod_idemp_r, mod_pow2_weaken, Z.add_mod_idemp_r by lia.
  f_equal. revert Hd. Z.div_mod_to_equations. lia.
Qed.

Lemma new_pte_ok l cur :
  (l <= 4)%nat -> cur mod 4096 = 0 -> leaf_ok l (new_pte pa va cur flags).
Proof.
  intros Hl Hcm. destruct Hflags as [Hf Hfl]. unfold new_pte.
  set (q := (cur + pa - va) / 4).
  assert (Hq : q mod 2 ^ 10 = 0) by (unfold q; pow2; Z.div_mod_to_equations; lia).
  pose proof (Z.mod_pos_bound (q + flags) (2 ^ 54) ltac:(lia)).
  assert (sz l <= 2 ^ 48) by (unfold sz; apply Z.pow_le_mono_r; lia).
  split; [lia|]. split; [pow2; Z.div_mod_to_equations; lia|].
  unfold pte_R, pte_X, pte_V in *. by rewrite !testbit_add_high_mod by (done || lia).
Qed.

Lemma misaligned_eq l a : (l <= 5)%nat -> misaligned 8 (Z.of_nat l) a = unaligned l a.
Proof.
  intros Hl. unfold misaligned, unaligned. rewrite vpn_size_8 by done.
  rewrite Z.land_comm. unfold sz. by rewrite land_ones_mod by lia.
Qed.

Lemma wrap_va_end : wrapping_add va len = va + len.
Proof. apply Z.mod_small. lia. Qed.

Lemma shifted_offset : ushl offset 2 = (pa - va) mod 2 ^ 64.
Proof.
  destruct offset_eq as [Ho Hd]. unfold ushl. rewrite Z.shiftl_mul_pow2, Ho by lia.
  rewrite Hd at 2. change (2 ^ 64) with (4 * 2 ^ 62). change (2 ^ 2) with 4.
  rewrite Z.mul_comm, !Z.mul_mod_distr_l, Z.mod_mod by lia. done.
Qed.

Lemma wrap_pa : wrapping_add va (ushl offset 2) = pa.
Proof.
  rewrite shifted_offset. unfold wrapping_add. rewrite Z.add_mod_idemp_r by lia.
  replace (va + (pa - va)) with pa by lia. by apply Z.mod_small.
Qed.

Lemma wrap_pa_end l :
  (l <= 5)%nat ->
  unaligned l (wrapping_add (wrapping_add va len) (ushl offset 2)) = unaligned l (pa + len).
Proof.
  intros Hl. rewrite wrap_va_end, shifted_offset. unfold wrapping_add, unaligned.
  rewrite Z.add_mod_idemp_r by lia. unfold sz. rewrite mod_pow2_weaken by lia.
  do 3 f_equal. lia.
Qed.

Lemma must_split_eq l i :
  (l <= 5)%nat ->
  ((i =? first_vpn l va)
     && (misaligned 8 (Z.of_nat l) va || misaligned 8 (Z.of_nat l) (wrapping_add va (ushl offset 2))))
  || ((i =? last_vpn l va len)
     && (misaligned 8 (Z.of_nat l) (wrapping_add va len)
         || misaligned 8 (Z.of_nat l) (wrapping_add (wrapping_add va len) (ushl offset 2))))
  = must_split l pa va len i.
Proof.
  intros Hl. rewrite !misaligned_eq, wrap_pa_end, wrap_pa, wrap_va_end by done. done.
Qed.

Lemma vpn_bounds l :
  0 <= first_vpn l va /\ first_vpn l va <= last_vpn l va len <= 511.
Proof.
  unfold first_vpn, last_vpn. pose proof (vpn_range l va).
  pose proof (vpn_range l (va + len - match l with O => 0 | S _ => 1 end)).
  destruct (Z.ltb_spec (vpn l (va + len - match l with O => 0 | S _ => 1 end)) (vpn l va)); lia.
Qed.

(** One iteration, as [map_internal] runs it at level [l]. *)
Definition map_body (l : nat) (a cur : Z) (m : mem) (i : Z) : outcome mem :=
  entries ← load_table m a;
  entry ← index entries i;
  let leaf := mkEntry (new_pte pa va (cur + i * sz l) flags) in
  match l with
  | S l' =>
      '(m, entry) ←
        (if Entry.is_leaf entry && must_split l pa va len i
         then '(m, entry) ← split alloc (virt_to_phys g) m entry (sz l');
              m ← store_entry m a i entry; Val (m, entry)
         else Val (m, entry));
      sub ← try_as_table (phys_to_virt g) entry;
      match sub with
      | Some sub => map_internal 8 alloc g l' sub pa va len flags (cur + i * sz l) m
      | None => store_entry m a i leaf
      end
  | O => store_entry m a i leaf
  end.

Lemma map_internal_eq l a cur m :
  (l <= 4)%nat -> 0 <= cur -> cur mod 4096 = 0 -> cur + 512 * sz l <= 2 ^ 57 ->
  map_internal 8 alloc g l a pa va len flags cur m =
    for_each (map_body l a cur)
      (seqZ (first_vpn l va) (last_vpn l va len - first_vpn l va + 1)) m.
Proof.
  intros Hl Hc Hcm Hmax. destruct (vpn_bounds l) as [Hlo Hhi].
  assert (Hbody : forall i, first_vpn l va <= i <= last_vpn l va len ->
    checked_mul 64 i (get_vpn_size (Z.of_nat l) 8) = Val (i * sz l) /\
    checked_add 64 cur (i * sz l) = Val (cur + i * sz l) /\
    mapped_value (cur + i * sz l) flags offset = new_pte pa va (cur + i * sz l) flags).
  { intros i Hi. rewrite vpn_size_8 by lia. pose proof (sz_pos l).
    assert (i * sz l <= 511 * sz l) by nia. assert (0 <= i * sz l) by nia.
    unfold checked_mul, checked_add. rewrite !(proj2 (Z.ltb_lt _ _)) by lia.
    split; [done|]. split; [done|]. apply mapped_value_eq; [lia|].
    rewrite <-Z.add_mod_idemp_r, <-Z.mul_mod_idemp_r, sz_mod_4096, Z.mul_0_r by lia.
    by rewrite Z.mod_0_l, Z.add_0_r by lia. }
  assert (Hend' : checked_add 64 va len = Val (va + len))
    by (unfold checked_add; by rewrite (proj2 (Z.ltb_lt _ _)) by lia).
  assert (Hin : forall x, x ∈ seqZ (first_vpn l va) (last_vpn l va len - first_vpn l va + 1) ->
            first_vpn l va <= x <= last_vpn l va len).
  { intros x Hx. apply elem_of_seqZ in Hx. lia. }
  destruct l as [|l]; cbn [map_internal]; rewrite Hend'; cbn [mbind outcome_bind];
    [rewrite (vpn_number_8 0 va) by lia; change (Z.of_nat 0 =? 0) with true
    |rewrite (vpn_number_8 (S l) va) by lia;
     replace (Z.of_nat (S l) =? 0) with false by (symmetry; apply Z.eqb_neq; lia)];
    (unfold checked_sub; rewrite (proj2 (Z.ltb_ge _ _)) by lia); cbn [mbind outcome_bind];
    [rewrite (vpn_number_8 0) by lia|rewrite (vpn_number_8 (S l)) by lia];
    fold offset;
    (apply for_each_ext; intros x m1 Hx; specialize (Hin x Hx); destruct (Hbody x Hin) as (Hb1 & Hb2 & Hb3);
     unfold map_body; rewrite (proj2 (Z.ltb_lt x 512)) by lia;
     (destruct (load_table m1 a); cbn [mbind outcome_bind]; [|done]);
     (destruct (index _ x); cbn [mbind outcome_bind]; [|done]);
     rewrite Hb1; cbn [mbind outcome_bind]; rewrite Hb2; cbn [mbind outcome_bind];
     rewrite Hb3).
  - done.
  - rewrite <-must_split_eq by lia.
    replace (Z.of_nat (S l) - 1) with (Z.of_nat l) by lia. rewrite (vpn_size_8 l) by lia. done.
Qed.

(** *** The three effects of an iteration on the children *)

Lemma store_entry_Val m a es i e :
  m !! a = Some es -> 0 <= i < Z.of_nat (length es) ->
  store_entry m a i e = Val (<[a := <[Z.to_nat i := e]> es]> m).
Proof.
  intros Hes Hi. unfold store_entry, load_table. rewrite Hes. cbn [mbind outcome_bind].
  by rewrite index_mut_Val.
Qed.

Lemma step_leaf l m a ts i t v :
  table_repr g l m a ts -> NoDup (a :: footprints ts) -> 0 <= i < 512 ->
  ts !! Z.to_nat i = Some t -> leaf_ok l v ->
  exists m', store_entry m a i (mkEntry v) = Val m' /\
    evolves l a m ts m' (<[Z.to_nat i := PLeaf v]> ts).
Proof.
  intros Hr Hnd Hi Ht Hv.
  destruct (table_repr_index g _ _ _ _ i Hr Hi) as (es & e & t0 & Hes & Hle & _ & He & Ht0 & Hre).
  simplify_eq. exists (<[a := <[Z.to_nat i := mkEntry v]> es]> m).
  split; [apply store_entry_Val; [done|lia]|].
  eapply evolves_child; [done|done|done|done|by rewrite lookup_insert_eq|..].
  - by destruct l.
  - by constructor.
  - by intros x ?%not_elem_of_nil.
  - intros x Hx _. apply not_elem_of_cons in Hx as [Hx _]. by rewrite lookup_insert_ne.
  - intros x Hx. destruct (decide (a = x)) as [<-|]; [by rewrite lookup_insert_eq; eexists|].
    by rewrite lookup_insert_ne.
Qed.

Lemma step_split l m a ts i v e :
  (l <= 3)%nat ->
  table_repr g (S l) m a ts -> NoDup (a :: footprints ts) -> 0 <= i < 512 ->
  ts !! Z.to_nat i = Some (PLeaf v) -> value e = v -> leaf_ok (S l) v ->
  match ('(m, entry) ← split alloc (virt_to_phys g) m e (sz l);
         m ← store_entry m a i entry; Val (m, entry)) with
  | Stop p => p = OutOfMemory
  | Val (m', e') => exists p,
      evolves (S l) a m ts m' (<[Z.to_nat i := PNode p (split_leaf l v)]> ts) /\
      Entry.is_leaf e' = false /\ as_table (phys_to_virt g) e' = Val p
  end.
Proof.
  intros Hl Hr Hnd Hi Ht Hev Hok. destruct e as [w]. cbn [value] in Hev. subst w.
  pose proof (split_eq l m v ltac:(lia) Hok) as Hs.
  destruct (split alloc (virt_to_phys g) m (mkEntry v) (sz l)) as [[m1 e']|];
    cbn [mbind outcome_bind]; [|done].
  destruct Hs as (p & Hp & -> & Hv60 & Hleaf & Has).
  destruct (table_repr_index g _ _ _ _ i Hr Hi) as (es & e & t0 & Hes & Hle & _ & He & Ht0 & Hre).
  simplify_eq. assert (a <> p) by (intros ->; congruence).
  rewrite (store_entry_Val _ _ es) by (lia || by rewrite lookup_insert_ne).
  cbn [mbind outcome_bind]. exists p. split; [|done].
  eapply evolves_child; [done|done|done|done|by rewrite lookup_insert_eq|..].
  - apply repr_node. split; [done|]. split; [done|]. split; [done|].
    apply split_leaf_repr; [lia|done|]. rewrite lookup_insert_ne, lookup_insert_eq by done. done.
  - cbn [footprint]. fold (footprints (split_leaf l v)). rewrite footprints_split_leaf.
    apply NoDup_singleton.
  - cbn [footprint]. fold (footprints (split_leaf l v)). rewrite footprints_split_leaf.
    intros x Hx. apply list_elem_of_singleton in Hx as ->. by right.
  - intros x Hx [y Hy]. apply not_elem_of_cons in Hx as [Hx _].
    rewrite !lookup_insert_ne by congruence. done.
  - intros x [y Hy]. destruct (decide (a = x)) as [<-|]; [by rewrite lookup_insert_eq; eexists|].
    rewrite !lookup_insert_ne by congruence. by eexists.
Qed.

Lemma step_sub l m a ts i b sub m' sub' :
  table_repr g (S l) m a ts -> NoDup (a :: footprints ts) -> 0 <= i < 512 ->
  ts !! Z.to_nat i = Some (PNode b sub) -> evolves l b m sub m' sub' ->
  evolves (S l) a m ts m' (<[Z.to_nat i := PNode b sub']> ts).
Proof.
  intros Hr Hnd Hi Ht Hev.
  destruct (table_repr_index g _ _ _ _ i Hr Hi) as (es & e & t0 & Hes & Hle & _ & He & Ht0 & Hre).
  simplify_eq. apply repr_node in Hre as (Hv & Hleaf & Has & Hsub).
  assert (Hab : a ∉ b :: footprints sub).
  { intros Ha. apply list.NoDup_cons in Hnd as [Hn _]. apply Hn, elem_of_footprints.
    eauto. }
  eapply evolves_child; [done|done|done|done| | |apply Hev|..].
  - rewrite (ev_frame _ _ _ _ _ _ Hev a Hab) by (by eexists). rewrite Hes.
    by rewrite list_insert_id by exact He.
  - apply repr_node. split; [done|]. split; [done|]. split; [done|]. apply Hev.
  - intros x Hx. apply elem_of_cons in Hx as [->|Hx]; [left; by left|].
    destruct (ev_fresh _ _ _ _ _ _ Hev x Hx); [left; by right|by right].
  - intros x Hx Hsx. apply (ev_frame _ _ _ _ _ _ Hev); [|done].
    apply not_elem_of_cons in Hx as [_ Hx]. exact Hx.
  - apply Hev.
Qed.

(** One iteration of the loop does what [tstep] says to one child. *)
Definition refines_at (l : nat) : Prop := forall m a ts cur,
  (l <= 4)%nat -> 0 <= cur -> cur mod 4096 = 0 -> cur + 512 * sz l <= 2 ^ 57 ->
  table_repr g l m a ts -> NoDup (a :: footprints ts) ->
  match map_internal 8 alloc g l a pa va len flags cur m with
  | Stop p => p = OutOfMemory
  | Val m' => exists ts', evolves l a m ts m' ts' /\
                shape <$> ts' = shape <$> tmap pa va len flags l cur ts
  end.

Lemma sub_region cur i l :
  0 <= cur -> cur mod 4096 = 0 -> cur + 512 * sz (S l) <= 2 ^ 57 -> 0 <= i < 512 ->
  0 <= cur + i * sz (S l) /\ (cur + i * sz (S l)) mod 4096 = 0 /\
  cur + i * sz (S l) + 512 * sz l <= 2 ^ 57.
Proof.
  intros Hc Hcm Hmax Hi. pose proof (sz_pos (S l)). rewrite <-sz_S. split; [nia|]. split; [|nia].
  rewrite <-Z.add_mod_idemp_r, <-Z.mul_mod_idemp_r, sz_mod_4096, Z.mul_0_r by lia.
  by rewrite Z.mod_0_l, Z.add_0_r by lia.
Qed.

(** The recursive call on the sub-table of entry [i]. *)
Lemma map_sub_table l m a ts cur i b sub :
  refines_at l -> (S l <= 4)%nat -> 0 <= cur -> cur mod 4096 = 0 -> cur + 512 * sz l <= 2 ^ 57 ->
  table_repr g (S l) m a ts -> NoDup (a :: footprints ts) -> 0 <= i < 512 ->
  ts !! Z.to_nat i = Some (PNode b sub) ->
  match map_internal 8 alloc g l b pa va len flags cur m with
  | Stop p => p = OutOfMemory
  | Val m2 => exists sub', evolves (S l) a m ts m2 (<[Z.to_nat i := PNode b sub']> ts) /\
                shape <$> sub' = shape <$> tmap pa va len flags l cur sub
  end.
Proof.
  intros IH Hl Hc Hcm Hmax Hr Hnd Hi Ht.
  destruct (table_repr_index g _ _ _ _ i Hr Hi) as (es & e & t0 & _ & _ & _ & _ & Ht0 & Hre).
  rewrite Ht in Ht0. injection Ht0 as <-. apply repr_node in Hre as (_ & _ & _ & Hsub).
  assert (Hndb : NoDup (b :: footprints sub)).
  { apply list.NoDup_cons in Hnd as [_ Hn].
    destruct (footprints_insert ts _ _ (PLeaf 0) Ht) as (f1 & f2 & E & _). rewrite E in Hn.
    apply list.NoDup_app in Hn as (_ & _ & Hn). by apply list.NoDup_app in Hn as (Hn & _). }
  specialize (IH m b sub cur ltac:(lia) Hc Hcm Hmax Hsub Hndb).
  destruct (map_internal _ _ _ _ _ _ _ _ _ _ _) as [m2|]; [|done].
  destruct IH as (sub' & Hev & Hsh). exists sub'. split; [|done]. by eapply step_sub.
Qed.

Lemma map_body_step l m a ts cur i t :
  (forall l', l = S l' -> refines_at l') ->
  (l <= 4)%nat -> 0 <= cur -> cur mod 4096 = 0 -> cur + 512 * sz l <= 2 ^ 57 ->
  table_repr g l m a ts -> NoDup (a :: footprints ts) ->
  first_vpn l va <= i <= last_vpn l va len -> ts !! Z.to_nat i = Some t ->
  match map_body l a cur m i with
  | Stop p => p = OutOfMemory
  | Val m' => exists t', evolves l a m ts m' (<[Z.to_nat i := t']> ts) /\
                shape t' = shape (tstep pa va len flags l cur i t)
  end.
Proof.
  intros IH Hl Hc Hcm Hmax Hr Hnd Hi Ht. destruct (vpn_bounds l) as [Hlo Hhi].
  assert (Hi512 : 0 <= i < 512) by lia.
  destruct (table_repr_index g _ _ _ _ i Hr Hi512) as (es & e & t0 & Hes & Hle & Hix & He & Ht0 & Hre).
  simplify_eq. unfold map_body, load_table, tstep. rewrite Hes. cbn [mbind outcome_bind].
  rewrite Hix. cbn [mbind outcome_bind].
  rewrite (proj2 (Z.leb_le _ i)), (proj2 (Z.leb_le i _)) by lia. cbn [andb].
  assert (Hpte : leaf_ok l (new_pte pa va (cur + i * sz l) flags)).
  { apply new_pte_ok; [done|].
    rewrite <-Z.add_mod_idemp_r, <-Z.mul_mod_idemp_r, sz_mod_4096, Z.mul_0_r by lia.
    by rewrite Z.mod_0_l, Z.add_0_r by lia. }
  destruct (step_leaf l m a ts i t _ Hr Hnd Hi512 Ht Hpte) as (m' & Hst & Hev).
  destruct l as [|l]; [rewrite Hst; by eauto|].
  specialize (IH l eq_refl). destruct (sub_region cur i l Hc Hcm Hmax Hi512) as (Hs1 & Hs2 & Hs3).
  destruct t as [v|b sub].
  - destruct Hre as [Hval Hok]. subst v. destruct e as [v]. cbn [value] in *.
    rewrite (leaf_ok_is_leaf (S l)) by done. cbn [andb].
    destruct (must_split (S l) pa va len i).
    + pose proof (step_split l m a ts i v (mkEntry v) ltac:(lia) Hr Hnd Hi512 Ht eq_refl Hok) as Hsp.
      destruct (_ ≫= _) as [[m1 e']|] in Hsp |- *; cbn [mbind outcome_bind]; [|done].
      destruct Hsp as (p & Hev1 & Hleaf & Has). unfold try_as_table. rewrite Hleaf, Has.
      cbn [mbind outcome_bind].
      pose proof (ev_repr _ _ _ _ _ _ Hev1) as Hr1. pose proof (ev_nodup _ _ _ _ _ _ Hev1) as Hnd1.
      assert (Ht1 : <[Z.to_nat i := PNode p (split_leaf l v)]> ts !! Z.to_nat i
                    = Some (PNode p (split_leaf l v)))
        by (apply list_lookup_insert_eq; by eapply lookup_lt_Some).
      pose proof (map_sub_table l m1 a _ (cur + i * sz (S l)) i p (split_leaf l v) IH Hl Hs1 Hs2 Hs3
        Hr1 Hnd1 Hi512 Ht1) as Hrec.
      destruct (map_internal _ _ _ _ _ _ _ _ _ _ _) as [m2|]; [|done].
      destruct Hrec as (sub' & Hev2 & Hsh). exists (PNode p sub').
      rewrite list_insert_insert_eq in Hev2. split; [by eapply evolves_trans|cbn [shape]; by rewrite Hsh].
    + cbn [mbind outcome_bind]. unfold try_as_table.
      rewrite (leaf_ok_is_leaf (S l)) by done. cbn [mbind outcome_bind]. rewrite Hst. by eauto.
  - pose proof Hre as (Hv & Hleaf & Has & Hsub)%repr_node. rewrite Hleaf. cbn [andb mbind outcome_bind].
    unfold try_as_table. rewrite Hleaf, Has. cbn [mbind outcome_bind].
    pose proof (map_sub_table l m a ts (cur + i * sz (S l)) i b sub IH Hl Hs1 Hs2 Hs3 Hr Hnd Hi512 Ht) as Hrec.
    destruct (map_internal _ _ _ _ _ _ _ _ _ _ _) as [m2|]; [|done].
    destruct Hrec as (sub' & Hev2 & Hsh). exists (PNode b sub').
    split; [done|cbn [shape]; by rewrite Hsh].
Qed.

(** After the turns of the loop for the entries of [don]. *)
Definition stepped (l : nat) (a cur : Z) (m : mem) (ts : list ptree) (don : list Z) (m1 : mem) : Prop :=
  exists ts1, evolves l a m ts m1 ts1 /\
    forall i t1, ts1 !! i = Some t1 -> exists t, ts !! i = Some t /\
      if bool_decide (Z.of_nat i ∈ don)
      then shape t1 = shape (tstep pa va len flags l cur (Z.of_nat i) t) else t1 = t.

Lemma stepped_nil l a cur m ts :
  table_repr g l m a ts -> NoDup (a :: footprints ts) -> stepped l a cur m ts [] m.
Proof.
  intros Hr Hnd. exists ts. split; [by apply evolves_refl|]. intros i t1 Ht1. exists t1.
  split; [done|]. by rewrite bool_decide_false by apply not_elem_of_nil.
Qed.

Lemma stepped_next l a cur m ts don x m1 :
  (forall l', (l' < l)%nat -> refines_at l') ->
  (l <= 4)%nat -> 0 <= cur -> cur mod 4096 = 0 -> cur + 512 * sz l <= 2 ^ 57 -> length ts = 512%nat ->
  first_vpn l va <= x <= last_vpn l va len -> x ∉ don -> stepped l a cur m ts don m1 ->
  match map_body l a cur m1 x with
  | Val m2 => stepped l a cur m ts (don ++ [x]) m2
  | Stop p => p = OutOfMemory
  end.
Proof.
  intros IH Hl Hc Hcm Hmax Hlen512 Hx Hxd (ts1 & Hev & Hch). destruct (vpn_bounds l) as [Hlo Hhi].
  destruct (lookup_lt_is_Some_2 ts1 (Z.to_nat x)) as [t1 Ht1];
    [rewrite (ev_length _ _ _ _ _ _ Hev); lia|].
  destruct (Hch _ _ Ht1) as (t & Ht & Hd). rewrite Z2Nat.id in Hd by lia.
  rewrite bool_decide_false in Hd by done. subst t1.
  pose proof (map_body_step l m1 a ts1 cur x t) as Hs.
  specialize (Hs ltac:(intros l' ->; apply IH; lia) Hl Hc Hcm Hmax
    (ev_repr _ _ _ _ _ _ Hev) (ev_nodup _ _ _ _ _ _ Hev) Hx Ht1).
  destruct (map_body l a cur m1 x) as [m2|]; [|done].
  destruct Hs as (t' & Hev2 & Hsh). exists (<[Z.to_nat x := t']> ts1).
  split; [by eapply evolves_trans|]. intros i u Hu.
  destruct (decide (i = Z.to_nat x)) as [->|Hne].
  - rewrite list_lookup_insert_eq in Hu by (by eapply lookup_lt_Some). simplify_eq.
    exists t. split; [done|]. rewrite Z2Nat.id by lia. by rewrite bool_decide_true by set_solver.
  - rewrite list_lookup_insert_ne in Hu by done. destruct (Hch _ _ Hu) as (t0 & Ht0 & Hd).
    exists t0. split; [done|]. revert Hd.
    assert (Hiff : Z.of_nat i ∈ don ++ [x] <-> Z.of_nat i ∈ don).
    { rewrite elem_of_app, list_elem_of_singleton. split; [|tauto]. intros [?|?]; [done|lia]. }
    by rewrite (bool_decide_ext _ _ Hiff).
Qed.

Lemma stepped_all l a cur m ts rng m' :
  (forall x, x ∈ rng <-> first_vpn l va <= x <= last_vpn l va len) -> stepped l a cur m ts rng m' ->
  exists ts', evolves l a m ts m' ts' /\ shape <$> ts' = shape <$> tmap pa va len flags l cur ts.
Proof.
  intros Hrng (ts' & Hev & Hch). exists ts'. split; [done|].
  apply list_eq. intros i. rewrite !list_lookup_fmap, tmap_lookup.
  destruct (ts' !! i) as [t1|] eqn:Ht1.
  - destruct (Hch _ _ Ht1) as (t & Ht & Hd). rewrite Ht. cbn [fmap option_fmap option_map].
    f_equal. revert Hd. case_bool_decide as Hi; [done|]. intros ->. f_equal. unfold tstep.
    rewrite Hrng in Hi.
    destruct (Z.leb_spec (first_vpn l va) (Z.of_nat i)), (Z.leb_spec (Z.of_nat i) (last_vpn l va len));
      cbn [andb]; (done || lia).
  - apply lookup_ge_None in Ht1. rewrite (ev_length _ _ _ _ _ _ Hev) in Ht1.
    by rewrite (proj2 (lookup_ge_None ts i)).
Qed.

Lemma map_internal_refines l : refines_at l.
Proof.
  induction l as [l IHl] using (well_founded_ind lt_wf).
  intros m a ts cur Hl Hc Hcm Hmax Hr Hnd. rewrite map_internal_eq by done.
  set (rng := seqZ _ _).
  assert (Hlen512 : length ts = 512%nat) by (by destruct Hr as (? & _ & _ & ? & _)).
  destruct (vpn_bounds l) as [Hlo Hhi].
  assert (Hrng : forall x, x ∈ rng <-> first_vpn l va <= x <= last_vpn l va len)
    by (intros x; unfold rng; rewrite elem_of_seqZ; lia).
  pose proof (for_each_rule (map_body l a cur) (stepped l a cur m ts) (fun p => p = OutOfMemory) rng m
    (stepped_nil l a cur m ts Hr Hnd)) as Hrule.
  assert (Hstep : forall don x rest s, rng = don ++ x :: rest -> stepped l a cur m ts don s ->
    match map_body l a cur s x with
    | Val s' => stepped l a cur m ts (don ++ [x]) s'
    | Stop p => p = OutOfMemory
    end).
  { intros don x rest m1 Heq. apply stepped_next; try done; [apply Hrng; rewrite Heq; set_solver|].
    assert (Hndr : NoDup rng) by apply NoDup_seqZ. rewrite Heq in Hndr.
    apply list.NoDup_app in Hndr as (_ & Hd & _). intros Hxd. apply (Hd x Hxd). by left. }
  specialize (Hrule Hstep). destruct (for_each _ _ _) as [m'|]; [|done]. by apply (stepped_all _ _ _ _ _ rng).
Qed.
End Range.

Lemma map_refines L m ts pa va len flags :
  scheme_ok (Z.of_nat L) 8 ->
  table_repr g (L - 1) m (table g) ts -> NoDup (table g :: footprints ts) ->
  is_usize pa -> is_usize va -> 0 < len -> is_usize len -> flags_ok flags ->
  pa mod 4096 = 0 -> va mod 4096 = 0 -> len mod 4096 = 0 ->
  let va' := va mod 2 ^ va_bits (Z.of_nat L) 8 in
  va' + len < 2 ^ 64 ->
  match map L 8 alloc g pa va len flags m with
  | Stop p => p = OutOfMemory
  | Val m' => exists ts', evolves (L - 1) (table g) m ts m' ts' /\
                shape <$> ts' = shape <$> tmap pa va' len flags (L - 1) 0 ts
  end.
Proof.
  intros HL Hr Hnd Hpa Hva Hlen Hlenu Hfl Hpam Hvam Hlenm va' Hend.
  assert (HL5 : (3 <= L <= 5)%nat).
  { assert (3 <= Z.of_nat L <= 5) by (inversion HL; lia). lia. }
  unfold map. rewrite decanonicalize_address_eq by done. cbn [mbind outcome_bind]. fold va'.
  assert (Hvb : va_bits (Z.of_nat L) 8 = 12 + 9 * Z.of_nat L) by (unfold va_bits; change (vpn_bits 8) with 9; lia).
  assert (Hmask : forall a, a mod 4096 = 0 -> (Z.land a 0xfff =? 0) = true).
  { intros a Ha. apply Z.eqb_eq. change 0xfff with (2 ^ 12 - 1). by rewrite land_ones_mod by lia. }
  assert (Hv'm : va' mod 4096 = 0).
  { unfold va'. change 4096 with (2 ^ 12) in *. by rewrite mod_pow2_weaken by lia. }
  rewrite !Hmask by done.
  assert (0 <= va') by (apply Z.mod_pos_bound; lia).
  assert (512 * sz (L - 1) <= 2 ^ 57).
  { rewrite <-sz_S. apply sz_le_64. lia. }
  unfold is_usize in *.
  apply map_internal_refines; try done; lia.
Qed.

(** C5: [map] implements [tmap].  For a page table whose tables are pairwise
    different, whatever the range (page-aligned, as the code asserts), [map]
    runs without a panic or a wild access and ends with a table whose tree is
    the one [tmap] computes, up to the addresses the allocator chose for the
    tables of split entries; those addresses were unused, and every table
    that is not part of the tree is as it was.  The only way to stop is the
    allocator running out of memory. *)
Theorem map_refines_tmap L m ts pa va len flags :
  scheme_ok (Z.of_nat L) 8 ->
  table_repr g (L - 1) m (table g) ts -> NoDup (table g :: footprints ts) ->
  is_usize pa -> is_usize va -> 0 < len -> is_usize len -> flags_ok flags ->
  pa mod 4096 = 0 -> va mod 4096 = 0 -> len mod 4096 = 0 ->
  let va' := va mod 2 ^ va_bits (Z.of_nat L) 8 in
  va' + len < 2 ^ 64 ->
  match map L 8 alloc g pa va len flags m with
  | Stop p => p = OutOfMemory
  | Val m' => exists ts', evolves (L - 1) (table g) m ts m' ts' /\
                shape <$> ts' = shape <$> tmap pa va' len flags (L - 1) 0 ts
  end.
Proof. apply map_refines. Qed.
End Refine.

(** ** A page table of a static, and a bump allocator of 1000 dirty blocks *)

Definition sample_alloc (m : mem) : option (Z * list Entry) :=
  let p := 0x100000 + 0x1000 * Z.of_nat (size m) in
  if bool_decide (m !! p = None) && (size m <? 1000)%nat
  then Some (p, replicate 512 (mkEntry 0xdeadbeef)) else None.

#[export] Instance sample_alloc_spec : AllocSpec sample_paging sample_alloc.
Proof.
  assert (Hinv : forall m p words, sample_alloc m = Some (p, words) ->
    p = 0x100000 + 0x1000 * Z.of_nat (size m) /\ m !! p = None /\ (size m < 1000)%nat /\
    length words = 512%nat).
  { intros m p words. unfold sample_alloc. case_bool_decide as Hp; [|done]. cbn [andb].
    destruct (Nat.ltb_spec (size m) 1000); [|done]. by intros [= <- <-]. }
  split; intros m p words H; apply Hinv in H as (Hp & Hn & Hs & Hl); try done.
  split; [lia|]. exists p. subst p. repeat split; try done; try lia.
  rewrite Z.add_mod, Z.mul_comm, Z.mod_mul by lia. done.
Qed.

Definition zeroed_memory : mem := {[ 0x1000 := zeroed 8 ]}.
Definition zeroed_tree : list ptree := replicate 512 (PLeaf 0).

Lemma footprints_zeroed : footprints zeroed_tree = [].
Proof. unfold footprints, zeroed_tree. generalize 512%nat. intros n. by induction n. Qed.

(** A zeroed table is a table of invalid leaves, at every level. *)
Lemma zeroed_repr g l m a :
  (l <= 5)%nat -> m !! a = Some (zeroed 8) -> table_repr g l m a zeroed_tree.
Proof.
  intros Hl Ha. exists (zeroed 8). split; [done|]. split; [done|]. split; [done|].
  intros i e t He Ht. apply lookup_replicate in He as [-> _]. apply lookup_replicate in Ht as [-> _].
  assert (leaf_ok l 0).
  { pose proof (sz_le_64 l Hl). pose proof (sz_pos l). repeat split; [lia|].
    change (2 ^ 60) with (8 * 2 ^ 57). Z.div_mod_to_equations. lia. }
  by destruct l.
Qed.

Lemma map_refines_tmap_witness :
  is_Some (sample_alloc zeroed_memory) /\
  match map 3 8 sample_alloc sample_paging 0x80000000 0x40005000 0x2000 0xf zeroed_memory with
  | Stop p => p = OutOfMemory
  | Val m' => exists ts', evolves sample_paging 2 0x1000 zeroed_memory zeroed_tree m' ts' /\
      shape <$> ts' = shape <$> tmap 0x80000000 (0x40005000 mod 2 ^ va_bits (Z.of_nat 3) 8)
                                  0x2000 0xf 2 0 zeroed_tree
  end.
Proof.
  split; [by eexists|].
  apply (map_refines_tmap sample_paging sample_alloc 3 zeroed_memory zeroed_tree);
    try (exact Sv39_ok || done || lia).
  - apply zeroed_repr; [lia|reflexivity].
  - rewrite footprints_zeroed. apply NoDup_singleton.
Defined.
