(* ===== verification/PagingMap.v ===== *)
(** * kernel_paging: what [map] does to the translation

    On the tree of tables, [tmap] writes the requested translation over a range
    that lies in one region of the next level up, and leaves every other
    address alone ([tmap_block]); [map_correct] is the same statement about
    [map] and [query] on memories.  Two things of the code show in the
    statement: a range mapped page by page gets one page more than its length
    ([mapped_length]), and a range that crosses a region is not covered by the
    theorem.  The last section shows why on concrete tables. *)

From S2P Require Import Prelude PagingBits Paging PagingSpec PagingTree PagingRefine.

(** ** Regions *)

Lemma sz_mult l k : (l <= k)%nat -> exists q, 0 < q /\ sz k = q * sz l.
Proof.
  intros H. exists (2 ^ (9 * Z.of_nat (k - l))). split; [lia|].
  unfold sz. rewrite <-Z.pow_add_r by lia. f_equal. lia.
Qed.

Lemma div_block s a x b : 0 < s -> a / s = b / s -> a <= x <= b -> x / s = a / s.
Proof.
  intros Hs He Hx.
  pose proof (Z.div_le_mono a x s Hs ltac:(lia)). pose proof (Z.div_le_mono x b s Hs ltac:(lia)). lia.
Qed.

Lemma div_coarse l k a b : (l <= k)%nat -> a / sz l = b / sz l -> a / sz k = b / sz k.
Proof.
  intros Hlk He. destruct (sz_mult l k Hlk) as (q & Hq & ->). pose proof (sz_pos l).
  rewrite (Z.mul_comm q), <-!Z.div_div by lia. by rewrite He.
Qed.

Lemma mod_fine l k a : (l <= k)%nat -> a mod sz k = 0 -> a mod sz l = 0.
Proof.
  intros Hlk He. destruct (sz_mult l k Hlk) as (q & Hq & E). pose proof (sz_pos l).
  rewrite E in He. apply Z.mod_divide in He; [|nia]. destruct He as [c ->].
  rewrite Z.mul_assoc. by apply Z.mod_mul; lia.
Qed.

Lemma add_mod_0 a b s : 0 < s -> a mod s = 0 -> b mod s = 0 -> (a + b) mod s = 0.
Proof. intros Hs Ha Hb. by rewrite Z.add_mod, Ha, Hb, Z.mod_0_l by lia. Qed.

(** The part of the region at [cur] that index [vpn k x] stands for. *)
Lemma region_index k cur x :
  cur mod sz (S k) = 0 -> cur <= x < cur + sz (S k) ->
  cur + vpn k x * sz k = x / sz k * sz k /\ cur + vpn k x * sz k = x - x mod sz k.
Proof.
  intros Hc Hx. pose proof (sz_pos k). rewrite sz_S in *.
  pose proof (Z.div_mod x (sz k) ltac:(lia)).
  apply Z.mod_divide in Hc; [|lia]. destruct Hc as [c ->].
  assert (Hq : vpn k x = x / sz k - 512 * c).
  { unfold vpn. pose proof (Z.mod_pos_bound x (sz k) ltac:(lia)).
    symmetry. apply Z.mod_unique with c; nia. }
  rewrite Hq. nia.
Qed.

Lemma vpn_of_index k cur i :
  cur mod sz (S k) = 0 -> 0 <= i < 512 -> vpn k (cur + i * sz k) = i.
Proof.
  intros Hc Hi. pose proof (sz_pos k). rewrite sz_S in Hc.
  apply Z.mod_divide in Hc; [|lia]. destruct Hc as [c ->]. unfold vpn.
  replace (c * (512 * sz k) + i * sz k) with ((c * 512 + i) * sz k) by lia.
  rewrite Z.div_mul, Z.add_comm, Z.mod_add by lia. by apply Z.mod_small.
Qed.

Lemma vpn_eq_iff k cur x y :
  cur mod sz (S k) = 0 -> cur <= x < cur + sz (S k) -> cur <= y < cur + sz (S k) ->
  vpn k x = vpn k y <-> x / sz k = y / sz k.
Proof.
  intros Hc Hx Hy. pose proof (sz_pos k).
  destruct (region_index k cur x Hc Hx) as [H1 _]. destruct (region_index k cur y Hc Hy) as [H2 _]. nia.
Qed.

Lemma vpn_le_iff k cur x y :
  cur mod sz (S k) = 0 -> cur <= x < cur + sz (S k) -> cur <= y < cur + sz (S k) ->
  vpn k x <= vpn k y <-> x / sz k <= y / sz k.
Proof.
  intros Hc Hx Hy. pose proof (sz_pos k).
  destruct (region_index k cur x Hc Hx) as [H1 _]. destruct (region_index k cur y Hc Hy) as [H2 _]. nia.
Qed.

(** ** Well-formed trees: leaves are leaves, and valid ones are aligned *)

Definition leaf_wf (l : nat) (v : Z) : Prop :=
  leaf_ok l v /\ (pte_V v = true -> leaf_aligned v l = true).

Fixpoint twf (l : nat) (t : ptree) : Prop :=
  match t with
  | PLeaf v => leaf_wf l v
  | PNode _ ts =>
      match l with
      | O => False
      | S l => length ts = 512%nat /\ forall i t', ts !! i = Some t' -> twf l t'
      end
  end.

Definition table_wf (l : nat) (ts : list ptree) : Prop :=
  length ts = 512%nat /\ forall i t, ts !! i = Some t -> twf l t.

Lemma table_wf_lookup l ts x : table_wf l ts -> exists t, ts !! Z.to_nat (vpn l x) = Some t /\ twf l t.
Proof.
  intros [Hl Hw]. pose proof (vpn_range l x).
  destruct (lookup_lt_is_Some_2 ts (Z.to_nat (vpn l x))) as [t Ht]; [lia|]. eauto.
Qed.

(** The walk to [x] reaches no table below level [l]. *)
Fixpoint leaf_from (l k : nat) (ts : list ptree) (x : Z) : Prop :=
  match ts !! Z.to_nat (vpn k x) with
  | Some (PNode _ sub) =>
      match k with
      | O => False
      | S k => (l < S k)%nat /\ leaf_from l k sub x
      end
  | _ => True
  end.

(** What one child answers, and where its walk ends. *)
Definition child_query (L k : nat) (t : ptree) (x : Z) : outcome (Result Z PageLookupError) :=
  match t with
  | PLeaf v => leaf_answer L k v x
  | PNode _ sub => match k with O => Val (Err PageFault) | S k => tquery L k sub x end
  end.

Definition child_leaf_from (l k : nat) (t : ptree) (x : Z) : Prop :=
  match t with
  | PLeaf _ => True
  | PNode _ sub => match k with O => False | S k => (l < S k)%nat /\ leaf_from l k sub x end
  end.

Lemma tquery_child L k ts x t :
  ts !! Z.to_nat (vpn k x) = Some t -> tquery L k ts x = child_query L k t x.
Proof. intros Ht. destruct k; cbn [tquery]; rewrite Ht; by destruct t. Qed.

Lemma leaf_from_child l k ts x t :
  ts !! Z.to_nat (vpn k x) = Some t -> leaf_from l k ts x <-> child_leaf_from l k t x.
Proof. intros Ht. destruct k; cbn [leaf_from]; rewrite Ht; by destruct t. Qed.

Lemma twf_leaf l v : twf l (PLeaf v) <-> leaf_wf l v.
Proof. by destruct l. Qed.

Lemma twf_node k a ts : twf (S k) (PNode a ts) <-> table_wf k ts.
Proof. done. Qed.

(** [tstep] on an entry in the range, case by case. *)
Lemma tstep_write pa va len flags k cur i v :
  (first_vpn k va <=? i) && (i <=? last_vpn k va len) = true -> must_split k pa va len i = false ->
  tstep pa va len flags k cur i (PLeaf v) = PLeaf (new_pte pa va (cur + i * sz k) flags).
Proof. unfold tstep. intros -> Hs. destruct k; [done|]. by rewrite Hs. Qed.

Lemma tstep_split pa va len flags k cur i v :
  (first_vpn (S k) va <=? i) && (i <=? last_vpn (S k) va len) = true ->
  must_split (S k) pa va len i = true ->
  tstep pa va len flags (S k) cur i (PLeaf v)
    = PNode 0 (tmap pa va len flags k (cur + i * sz (S k)) (split_leaf k v)).
Proof. unfold tstep. by intros -> ->. Qed.

Lemma tstep_node pa va len flags k cur i a sub :
  (first_vpn (S k) va <=? i) && (i <=? last_vpn (S k) va len) = true ->
  tstep pa va len flags (S k) cur i (PNode a sub)
    = PNode a (tmap pa va len flags k (cur + i * sz (S k)) sub).
Proof. unfold tstep. by intros ->. Qed.

(** [tquery] does not see the addresses of tables. *)
Lemma tquery_shape L l ts x : tquery L l (shape <$> ts) x = tquery L l ts x.
Proof.
  revert ts. induction l as [|l IH]; intros ts; cbn [tquery];
    rewrite list_lookup_fmap; destruct (ts !! _) as [[v|a sub]|]; cbn [fmap option_fmap option_map shape]; auto.
Qed.

Lemma twf_shape l t : twf l (shape t) <-> twf l t.
Proof.
  revert t. induction l as [|l IH]; intros [v|a ts]; cbn [shape twf]; try done.
  rewrite length_fmap. split; intros [Hl Hw]; (split; [done|]); intros i t Ht.
  - apply IH. apply (Hw i). by rewrite list_lookup_fmap, Ht.
  - apply list_lookup_fmap_Some in Ht as (t' & -> & Ht). apply IH. by apply (Hw i).
Qed.

Lemma table_wf_shape l ts : table_wf l (shape <$> ts) <-> table_wf l ts.
Proof. apply (twf_shape (S l) (PNode 0 ts)). Qed.

(** ** Splitting a leaf keeps its translation *)

Lemma leaf_aligned_divide v l :
  0 <= v -> leaf_aligned v l = true -> exists q r, v = q * (sz l / 4) + r /\ 0 <= r < 2 ^ 10 /\ 0 <= q.
Proof.
  intros Hv Ha. unfold leaf_aligned in Ha. apply Z.eqb_eq, Z.mod_divide in Ha; [|lia].
  destruct Ha as [q Hq]. exists q, (v mod 2 ^ 10).
  pose proof (Z.div_mod v (2 ^ 10) ltac:(lia)). pose proof (Z.mod_pos_bound v (2 ^ 10) ltac:(lia)).
  assert (E4 : sz l / 4 = 2 ^ (9 * Z.of_nat l) * 2 ^ 10).
  { unfold sz. rewrite Z.add_comm, Z.pow_add_r by lia. change (2 ^ 12) with (2 ^ 10 * 4).
    by rewrite Z.mul_assoc, Z.div_mul. }
  rewrite E4. pose proof (Z.div_pos v (2 ^ 10) Hv ltac:(lia)).
  set (n := 2 ^ (9 * Z.of_nat l)) in *. assert (0 < n) by (unfold n; lia).
  split; [lia|]. split; [lia|nia].
Qed.

Lemma leaf_aligned_intro q r l :
  0 <= r < 2 ^ 10 -> leaf_aligned (q * (sz l / 4) + r) l = true.
Proof.
  intros Hr. unfold leaf_aligned. apply Z.eqb_eq.
  assert (E4 : sz l / 4 = 2 ^ (9 * Z.of_nat l) * 2 ^ 10).
  { unfold sz. rewrite Z.add_comm, Z.pow_add_r by lia. change (2 ^ 12) with (2 ^ 10 * 4).
    by rewrite Z.mul_assoc, Z.div_mul. }
  rewrite E4, Z.mul_assoc, Z.div_add_l, (Z.div_small r), Z.add_0_r by lia.
  apply Z.mod_mul. lia.
Qed.

(** The address an aligned leaf [q * (sz l / 4) + r] gives. *)
Lemma leaf_pa_aligned L l q r x :
  (l <= L)%nat -> 0 <= r < 2 ^ 10 -> 
  leaf_pa L (q * (sz l / 4) + r) l x = (q * sz l) mod sz L + x mod sz l.
Proof.
  intros Hl Hr. unfold leaf_pa. f_equal. destruct (sz_mult l L Hl) as (n & Hn & E).
  destruct (sz_div_4 l) as (E4 & _ & _). pose proof (sz_pos l).
  replace (4 * (q * (sz l / 4) + r)) with (q * sz l + 4 * r) by lia.
  rewrite E. rewrite (Z.mul_comm n), !(Z.rem_mul_r) by lia.
  assert (Hd : (q * sz l + 4 * r) / sz l = q + 4 * r / sz l) by (by rewrite Z.div_add_l by lia).
  assert (Hs : 4 * r / sz l = 0) by (apply Z.div_small; lia).
  rewrite Hd, Hs, Z.add_0_r, Z.div_mul, Z.mod_mul by lia.
  assert (Hm : (q * sz l + 4 * r) mod sz l = 4 * r)
    by (rewrite Z.add_comm, Z.mod_add by lia; apply Z.mod_small; lia).
  rewrite Hm. rewrite (Z.mul_comm (sz l)), Z.div_add, Hs by lia. lia.
Qed.

Lemma mod_block q r s n : 0 < s -> 0 < n -> 0 <= r < s -> (q * s + r) mod (n * s) = (q mod n) * s + r.
Proof.
  intros Hs Hn Hr. symmetry. pose proof (Z.div_mod q n ltac:(lia)).
  pose proof (Z.mod_pos_bound q n Hn). apply Z.mod_unique with (q / n); nia.
Qed.

Lemma split_leaf_lookup l v x :
  split_leaf l v !! Z.to_nat (vpn l x) = Some (PLeaf (v + vpn l x * (sz l / 4))).
Proof.
  pose proof (vpn_range l x). unfold split_leaf. rewrite list_lookup_fmap.
  rewrite lookup_seqZ_lt by lia. cbn [fmap option_fmap option_map].
  by rewrite Z2Nat.id, Z.add_0_l by lia.
Qed.

Lemma leaf_wf_piece l v k :
  leaf_wf (S l) v -> 0 <= k < 512 -> leaf_wf l (v + k * (sz l / 4)).
Proof.
  intros [(Hv0 & Hv1 & Hok) Ha] Hk. destruct (sz_div_4 l) as (Hs4 & Hs10 & Hs).
  assert (Hq10 : (k * (sz l / 4)) mod 2 ^ 10 = 0)
    by (rewrite <-Z.mul_mod_idemp_r, Hs10, Z.mul_0_r by lia; done).
  split.
  - split; [nia|]. split; [|by rewrite flags_add_high].
    rewrite sz_S in Hv1. Z.div_mod_to_equations. nia.
  - unfold pte_V in *. rewrite testbit_add_high by (done || lia). intros HV.
    destruct (leaf_aligned_divide v (S l) Hv0 (Ha HV)) as (q & r & -> & Hr & Hq).
    assert (E : sz (S l) / 4 = 512 * (sz l / 4)) by (rewrite sz_S; Z.div_mod_to_equations; lia).
    rewrite E. replace (q * (512 * (sz l / 4)) + r + k * (sz l / 4))
      with ((512 * q + k) * (sz l / 4) + r) by lia.
    by apply leaf_aligned_intro.
Qed.

Lemma split_leaf_wf l v : leaf_wf (S l) v -> table_wf l (split_leaf l v).
Proof.
  intros Hw. split; [unfold split_leaf; by rewrite length_fmap, length_seqZ|].
  intros i t Ht. unfold split_leaf in Ht. apply list_lookup_fmap_Some in Ht as (k & -> & Hk).
  apply lookup_seqZ in Hk as [-> Hi]. destruct l; apply leaf_wf_piece; done || lia.
Qed.

Lemma tquery_split L l v x :
  (S l < L)%nat -> (L <= 5)%nat -> leaf_wf (S l) v ->
  tquery L l (split_leaf l v) x = leaf_answer L (S l) v x.
Proof.
  intros HL HL5 [(Hv0 & Hv1 & _) Ha]. destruct (sz_div_4 l) as (Hs4 & Hs10 & Hs).
  pose proof (vpn_range l x) as Hk.
  assert (E : sz (S l) / 4 = 512 * (sz l / 4)) by (rewrite sz_S; Z.div_mod_to_equations; lia).
  assert (Hq10 : (vpn l x * (sz l / 4)) mod 2 ^ 10 = 0)
    by (rewrite <-Z.mul_mod_idemp_r, Hs10, Z.mul_0_r by lia; done).
  assert (Hcases : tquery L l (split_leaf l v) x = leaf_answer L l (v + vpn l x * (sz l / 4)) x)
    by (destruct l; cbn [tquery]; by rewrite split_leaf_lookup).
  rewrite Hcases. unfold leaf_answer, pte_V in *.
  rewrite (testbit_add_high v) by (done || lia).
  destruct (Z.testbit v 0) eqn:EV; cbn [negb]; [|done].
  rewrite !(testbit_high _ 60 60) by nia.
  rewrite (Ha eq_refl).
  destruct (leaf_aligned_divide v (S l) Hv0 (Ha eq_refl)) as (q & r & -> & Hr & Hq).
  replace (q * (sz (S l) / 4) + r + vpn l x * (sz l / 4))
    with ((512 * q + vpn l x) * (sz l / 4) + r) by (rewrite E; lia).
  rewrite leaf_aligned_intro by done. rewrite !leaf_pa_aligned by lia.
  do 2 f_equal. destruct (sz_mult (S l) L ltac:(lia)) as (n & Hn & ->).
  replace (q * sz (S l)) with (q * sz (S l) + 0) by lia.
  pose proof (sz_pos (S l)). pose proof (sz_pos l). rewrite (mod_block q 0) by lia.
  replace ((512 * q + vpn l x) * sz l) with (q * sz (S l) + vpn l x * sz l) by (rewrite sz_S; lia).
  rewrite mod_block by (rewrite ?sz_S in *; nia).
  rewrite sz_S at 3. rewrite (Z.mul_comm 512 (sz l)), Z.rem_mul_r by lia.
  unfold vpn. lia.
Qed.

(** ** [tmap] over a range in one region *)

(** The bytes a range of [len] covers when mapped with entries of level [l]:
    [map_internal] subtracts 1 from the end on every level but the last. *)
Definition mapped_length (l : nat) (len : Z) : Z :=
  match l with O => len + 4096 | S _ => len end.

(** The answer for an address in the range. *)
Definition mapped_answer (pa va flags x : Z) : outcome (Result Z PageLookupError) :=
  Val (if pte_V flags then Ok (x - va + pa) else Err Invalid).

Section Block.
Context (L : nat) (HL : (L <= 5)%nat).
Context (pa va len flags : Z) (Hflags : flags_ok flags).
Context (l : nat) (HlL : (l < L)%nat).
Let cov := mapped_length l len.
Context (Hpa : 0 <= pa) (Hpacov : pa + cov <= Z.min (sz L) (2 ^ 56)).
Context (Hlen : 0 < len) (Hva0 : 0 <= va).
Context (Hpal : pa mod sz l = 0) (Hval : va mod sz l = 0) (Hlenl : len mod sz l = 0).
Context (Hblock : va / sz (S l) = (va + cov - 1) / sz (S l)).

Definition in_range (x : Z) : bool := (va <=? x) && (x <? va + cov).

Lemma cov_facts : len <= cov /\ cov mod sz l = 0 /\ 0 < cov.
Proof.
  clear -Hlen Hlenl. unfold cov, mapped_length. destruct l; [|lia].
  rewrite sz_0 in *. rewrite Z.add_mod, Hlenl, Z.mod_same by lia. split; [lia|]. split; [done|lia].
Qed.

Lemma leaf_new_pte k cur x :
  (l <= k)%nat -> (k < L)%nat -> cur mod sz k = 0 -> pa mod sz k = 0 -> va mod sz k = 0 ->
  va <= cur -> cur + sz k <= va + cov -> cur <= x < cur + sz k ->
  leaf_wf k (new_pte pa va cur flags) /\
  leaf_answer L k (new_pte pa va cur flags) x = mapped_answer pa va flags x.
Proof.
  intros Hlk Hk Hc Hp Hv Hle Hge Hx. pose proof (sz_pos k) as Hsz.
  destruct (sz_div_4 k) as (Hs4 & Hs10 & Hs). destruct Hflags as [Hf Hfl].
  apply Z.mod_divide in Hc, Hp, Hv; try lia.
  destruct Hc as [c Hc], Hp as [p Hp], Hv as [w Hv].
  set (q := c + p - w).
  assert (Hq : cur + pa - va = q * sz k) by (unfold q; lia).
  assert (Hq0 : 0 <= q) by nia.
  assert (Hmax : (q + 1) * sz k <= Z.min (sz L) (2 ^ 56)) by (unfold cov in *; nia).
  assert (E : new_pte pa va cur flags = q * (sz k / 4) + flags).
  { unfold new_pte. rewrite Hq.
    replace (q * sz k / 4) with (q * (sz k / 4))
      by (rewrite Hs4 at 2; replace (q * (4 * (sz k / 4))) with (q * (sz k / 4) * 4) by lia;
          by rewrite Z.div_mul by lia).
    apply Z.mod_small. split; [nia|]. change (2 ^ 54) with (2 ^ 56 / 4). 
    assert ((q + 1) * (sz k / 4) <= 2 ^ 56 / 4); [|nia].
    apply Z.div_le_lower_bound; [lia|nia]. }
  rewrite E. assert (Hbits : (q * (sz k / 4)) mod 2 ^ 10 = 0)
    by (rewrite <-Z.mul_mod_idemp_r, Hs10, Z.mul_0_r by lia; done).
  rewrite (Z.add_comm _ flags).
  assert (Hlt : flags + q * (sz k / 4) + sz k / 4 <= 2 ^ 60)
    by (assert (2 ^ 56 < 2 ^ 60) by lia; nia).
  split.
  - split; [|intros _; rewrite Z.add_comm; by apply leaf_aligned_intro].
    split; [nia|]. split; [done|]. by rewrite flags_add_high.
  - unfold leaf_answer, mapped_answer, pte_V in *.
    rewrite testbit_add_high by (done || lia).
    destruct (Z.testbit flags 0); cbn [negb]; [|done].
    rewrite (testbit_high _ 60) by nia.
    rewrite Z.add_comm, leaf_aligned_intro, leaf_pa_aligned by (done || lia).
    rewrite Z.mod_small by nia.
    do 2 f_equal.
    assert (Hxm : x mod sz k = x - cur).
    { symmetry. apply Z.mod_unique with c; lia. }
    lia.
Qed.

Lemma unaligned_false k a : (k <= l)%nat -> a mod sz l = 0 -> unaligned k a = false.
Proof. intros Hk Ha. unfold unaligned. by rewrite (mod_fine k l a Hk Ha). Qed.

Lemma must_split_aligned i : must_split l pa va len i = false.
Proof.
  pose proof (sz_pos l). unfold must_split.
  rewrite !unaligned_false by (done || apply add_mod_0; done || lia). cbn [orb].
  by rewrite !andb_false_r.
Qed.

Lemma last_vpn_end : vpn l (va + len - match l with O => 0 | S _ => 1 end) = vpn l (va + cov - 1).
Proof.
  unfold cov, mapped_length. destruct l; [|done]. unfold vpn. rewrite sz_0 in *.
  f_equal. Z.div_mod_to_equations. lia.
Qed.

(** On the levels above [l], the range lies below one entry. *)
Lemma one_index k : (l < k)%nat -> first_vpn k va = last_vpn k va len.
Proof.
  intros Hlk. destruct cov_facts as (Hc & _ & _). unfold first_vpn, last_vpn.
  destruct k as [|k]; [lia|].
  assert (E : vpn (S k) (va + len - 1) = vpn (S k) va).
  { unfold vpn. f_equal. apply (div_coarse (S l)); [lia|]. pose proof (sz_pos (S l)).
    eapply div_block; [lia|exact Hblock|lia]. }
  rewrite E. by rewrite Z.ltb_irrefl.
Qed.

Section Region.
Context (k : nat) (cur : Z).
Context (Hcur : cur mod sz (S k) = 0) (Hlo : cur <= va) (Hhi : va + cov <= cur + sz (S k)).

Lemma sub_cur x :
  cur <= x < cur + sz (S k) ->
  let c := cur + vpn k x * sz k in c mod sz k = 0 /\ c <= x < c + sz k /\ cur <= c /\
    c + sz k <= cur + sz (S k).
Proof.
  intros Hx c. pose proof (sz_pos k). destruct (region_index k cur x Hcur Hx) as [H1 H2].
  fold c in H1, H2. pose proof (Z.mod_pos_bound x (sz k) ltac:(lia)).
  pose proof (vpn_range k x). unfold c in *. rewrite sz_S.
  split; [rewrite H1; apply Z.mod_mul; lia|]. split; [lia|]. nia.
Qed.

Lemma touched_base x :
  k = l -> cur <= x < cur + sz (S k) ->
  (first_vpn k va <=? vpn k x) && (vpn k x <=? last_vpn k va len) = in_range x.
Proof.
  intros -> Hx. destruct cov_facts as (Hc1 & Hc2 & Hc3). pose proof (sz_pos l).
  unfold first_vpn, last_vpn. rewrite last_vpn_end.
  assert (Hva : cur <= va < cur + sz (S l)) by lia.
  assert (Hve : cur <= va + cov - 1 < cur + sz (S l)) by lia.
  pose proof (vpn_le_iff l cur va (va + cov - 1) Hcur Hva Hve) as Hle.
  assert (va / sz l <= (va + cov - 1) / sz l) by (apply Z.div_le_mono; lia).
  rewrite (proj2 (Z.ltb_ge _ _)) by tauto.
  pose proof (vpn_le_iff l cur va x Hcur Hva Hx) as H1.
  pose proof (vpn_le_iff l cur x (va + cov - 1) Hcur Hx Hve) as H2.
  apply Z.mod_divide in Hval, Hc2; try lia. destruct Hval as [w Hw], Hc2 as [c Hc].
  assert (D1 : va / sz l = w) by (rewrite Hw; apply Z.div_mul; lia).
  assert (D2 : (va + cov - 1) / sz l = w + c - 1)
    by (symmetry; apply Z.div_unique with (sz l - 1); lia).
  pose proof (Z.div_mod x (sz l) ltac:(lia)). pose proof (Z.mod_pos_bound x (sz l) ltac:(lia)).
  rewrite D1 in H1. rewrite D2 in H2. unfold in_range. fold cov. apply eq_iff_eq_true.
  rewrite !andb_true_iff, !Z.leb_le, Z.ltb_lt. rewrite H1, H2, Hw, Hc. nia.
Qed.

Lemma touched_above x :
  (l < k)%nat -> cur <= x < cur + sz (S k) ->
  (first_vpn k va <=? vpn k x) && (vpn k x <=? last_vpn k va len) = (vpn k x =? vpn k va).
Proof.
  intros H Hx. rewrite <-one_index by done. unfold first_vpn.
  apply eq_iff_eq_true. rewrite andb_true_iff, !Z.leb_le, Z.eqb_eq. lia.
Qed.

(** Below the touched entry of a level above [l]. *)
Lemma touched_region x :
  (l < k)%nat -> cur <= x < cur + sz (S k) -> vpn k x = vpn k va ->
  let c := cur + vpn k x * sz k in c <= va /\ va + cov <= c + sz k.
Proof.
  intros H Hx Heq c. destruct cov_facts as (Hc1 & Hc2 & Hc3). pose proof (sz_pos k).
  destruct (region_index k cur va Hcur ltac:(lia)) as [H1 H2].
  unfold c. rewrite Heq. pose proof (Z.mod_pos_bound va (sz k) ltac:(lia)). split; [lia|].
  assert (E : va / sz k = (va + cov - 1) / sz k)
    by (apply (div_coarse (S l)); [lia|exact Hblock]).
  pose proof (Z.mod_pos_bound (va + cov - 1) (sz k) ltac:(lia)).
  pose proof (Z.div_mod (va + cov - 1) (sz k) ltac:(lia)). nia.
Qed.

Lemma untouched x :
  (l < k)%nat -> cur <= x < cur + sz (S k) -> vpn k x <> vpn k va -> in_range x = false.
Proof.
  intros H Hx Hne. apply not_true_is_false. unfold in_range. fold cov.
  rewrite andb_true_iff, Z.leb_le, Z.ltb_lt. intros Hr. apply Hne.
  apply (vpn_eq_iff k cur x va Hcur Hx ltac:(lia)).
  apply (div_coarse (S l)); [lia|]. pose proof (sz_pos (S l)).
  eapply div_block; [lia|exact Hblock|lia].
Qed.

(** A range that is aligned at a level above [l] is one whole entry. *)
Lemma not_split_whole i :
  (l < k)%nat -> i = vpn k va -> must_split k pa va len i = false ->
  cur + i * sz k = va /\ cov = sz k /\ pa mod sz k = 0 /\ va mod sz k = 0.
Proof.
  intros H -> Hm. destruct cov_facts as (Hc1 & Hc2 & Hc3). pose proof (sz_pos k).
  unfold must_split in Hm. rewrite <-one_index in Hm by done. unfold first_vpn in Hm.
  rewrite Z.eqb_refl in Hm. cbn [andb] in Hm.
  apply orb_false_iff in Hm as [Hm1 Hm2]. apply orb_false_iff in Hm1 as [Hv Hp].
  apply orb_false_iff in Hm2 as [Hve _]. unfold unaligned in *.
  apply negb_false_iff, Z.eqb_eq in Hv, Hp, Hve.
  destruct (touched_region va H ltac:(lia) eq_refl) as [Ht1 Ht2].
  destruct (region_index k cur va Hcur ltac:(lia)) as [H1 H2]. rewrite Hv, Z.sub_0_r in H2.
  split; [done|]. rewrite H2 in Ht2.
  assert (Hl : len = sz k).
  { apply Z.mod_divide in Hv, Hve; try lia. destruct Hv as [w Hw], Hve as [e He].
    assert (El : len = (e - w) * sz k) by lia. assert (0 < e - w) by nia.
    assert (sz k <= len) by nia. lia. }
  unfold cov, mapped_length in *. destruct l; [|done]. lia.
Qed.
End Region.

Definition block_spec (k : nat) (cur : Z) (ts ts' : list ptree) : Prop :=
  table_wf k ts' /\
  (forall x, cur <= x < cur + sz (S k) ->
     tquery L k ts' x = if in_range x then mapped_answer pa va flags x else tquery L k ts x) /\
  (forall x, leaf_from l k ts x -> leaf_from l k ts' x).

Definition child_spec (k : nat) (cur i : Z) (t t' : ptree) : Prop :=
  twf k t' /\
  (forall x, cur <= x < cur + sz (S k) -> vpn k x = i ->
     child_query L k t' x = if in_range x then mapped_answer pa va flags x else child_query L k t x) /\
  (forall x, child_leaf_from l k t x -> child_leaf_from l k t' x).

Definition block_pre (k : nat) (cur : Z) (ts : list ptree) : Prop :=
  cur mod sz (S k) = 0 /\ cur <= va /\ va + cov <= cur + sz (S k) /\ table_wf k ts /\
  forall x, in_range x = true -> leaf_from l k ts x.

(** The entries of level [l]. *)
Lemma tstep_base cur i t :
  cur mod sz (S l) = 0 -> cur <= va -> va + cov <= cur + sz (S l) -> 0 <= i < 512 ->
  twf l t -> (forall x, in_range x = true -> vpn l x = i -> child_leaf_from l l t x) ->
  child_spec l cur i t (tstep pa va len flags l cur i t).
Proof.
  intros Hcur Hlo Hhi Hi Hw Hleaf. pose proof (sz_pos l).
  assert (Hx0 : cur <= cur + i * sz l < cur + sz (S l)) by (rewrite sz_S; nia).
  pose proof (vpn_of_index l cur i Hcur Hi) as Hix.
  pose proof (touched_base l cur Hcur Hlo Hhi _ eq_refl Hx0) as Ht. rewrite Hix in Ht.
  destruct (in_range (cur + i * sz l)) eqn:Hin.
  2:{ unfold tstep. rewrite Ht. split; [done|]. split; [|done]. intros x Hx Hvx.
      pose proof (touched_base l cur Hcur Hlo Hhi x eq_refl Hx) as Hb. rewrite Hvx, Ht in Hb.
      by rewrite <-Hb. }
  assert (Hsub : va <= cur + i * sz l /\ cur + i * sz l + sz l <= va + cov).
  { unfold in_range in Hin. fold cov in Hin. destruct cov_facts as (_ & Hc2 & _).
    apply andb_true_iff in Hin as [H1 H2]. apply Z.leb_le in H1. apply Z.ltb_lt in H2.
    split; [done|]. rewrite sz_S in Hcur. apply Z.mod_divide in Hval, Hc2, Hcur; try lia.
    destruct Hval as [w Hw'], Hc2 as [c Hc], Hcur as [u Hu].
    assert (Hlt : (u * 512 + i) * sz l < (w + c) * sz l) by lia.
    apply Z.mul_lt_mono_pos_r in Hlt; [|lia].
    assert ((u * 512 + i + 1) * sz l <= (w + c) * sz l) by (apply Z.mul_le_mono_nonneg_r; lia). lia. }
  assert (Hcm : (cur + i * sz l) mod sz l = 0).
  { apply add_mod_0; [lia| |apply Z.mod_mul; lia]. apply (mod_fine l (S l)); [lia|done]. }
  assert (Hpte : forall x, cur <= x < cur + sz (S l) -> vpn l x = i ->
    leaf_wf l (new_pte pa va (cur + i * sz l) flags) /\
    leaf_answer L l (new_pte pa va (cur + i * sz l) flags) x = mapped_answer pa va flags x).
  { intros x Hx Hvx. destruct (sub_cur l cur Hcur x Hx) as (_ & Hr & _).
    rewrite Hvx in Hr. apply leaf_new_pte; try done; try lia. all: tauto. }
  assert (Hnew : child_spec l cur i t (PLeaf (new_pte pa va (cur + i * sz l) flags))).
  { split; [by apply twf_leaf, (Hpte _ Hx0 Hix)|]. split; [|done].
    intros x Hx Hvx. cbn [child_query]. rewrite (proj2 (Hpte x Hx Hvx)).
    pose proof (touched_base l cur Hcur Hlo Hhi x eq_refl Hx) as Hb. rewrite Hvx, Ht in Hb.
    by rewrite <-Hb. }
  specialize (Hleaf _ Hin Hix).
  destruct t as [v|a sub]; cbn [child_leaf_from] in Hleaf.
  - by rewrite tstep_write by (done || apply must_split_aligned).
  - exfalso. clear -Hleaf. by destruct l; [|lia].
Qed.

Lemma in_range_region k cur x :
  (l < S k)%nat -> cur mod sz (S (S k)) = 0 -> cur <= va -> va + cov <= cur + sz (S (S k)) ->
  in_range x = true -> cur <= x < cur + sz (S (S k)) /\ vpn (S k) x = vpn (S k) va.
Proof.
  intros Hlk Hcur Hlo Hhi Hin.
  assert (Hx : cur <= x < cur + sz (S (S k)))
    by (unfold in_range in Hin; fold cov in Hin; apply andb_true_iff in Hin as [H1 H2];
        apply Z.leb_le in H1; apply Z.ltb_lt in H2; lia).
  split; [done|]. destruct (decide (vpn (S k) x = vpn (S k) va)) as [|Hne]; [done|].
  by rewrite (untouched (S k) cur Hcur Hlo x Hlk Hx Hne) in Hin.
Qed.

(** An entry that leads on to a table that answers as the entry does. *)
Lemma child_descends k cur i t a sub :
  (forall cur ts, block_pre k cur ts -> block_spec k cur ts (tmap pa va len flags k cur ts)) ->
  (l <= k)%nat -> (S k < L)%nat ->
  cur mod sz (S (S k)) = 0 -> cur <= va -> va + cov <= cur + sz (S (S k)) -> 0 <= i < 512 ->
  i = vpn (S k) va -> table_wf k sub ->
  (forall x, in_range x = true -> leaf_from l k sub x) ->
  (forall x, cur <= x < cur + sz (S (S k)) -> vpn (S k) x = i ->
     tquery L k sub x = child_query L (S k) t x) ->
  (forall x, child_leaf_from l (S k) t x -> leaf_from l k sub x) ->
  child_spec (S k) cur i t (PNode a (tmap pa va len flags k (cur + i * sz (S k)) sub)).
Proof.
  intros IH Hlk HkL Hcur Hlo Hhi Hi Heq Hsw Hsl Hsq Hsf. destruct cov_facts as (Hc1 & Hc2 & Hc3).
  assert (Hlk' : (l < S k)%nat) by lia.
  destruct (touched_region (S k) cur Hcur Hlo Hhi va Hlk' ltac:(lia) eq_refl) as [Hr1 Hr2].
  rewrite <-Heq in Hr1, Hr2.
  destruct (sub_cur (S k) cur Hcur va ltac:(lia)) as (Hm & _). rewrite <-Heq in Hm.
  destruct (IH (cur + i * sz (S k)) sub) as (Q1 & Q2 & Q3); [by repeat split; try apply Hsw|].
  split; [by apply twf_node|]. split; cbn [child_query child_leaf_from].
  - intros x Hx Hvx. destruct (sub_cur (S k) cur Hcur x Hx) as (_ & Hsx & _). rewrite Hvx in Hsx.
    rewrite Q2 by done. by rewrite Hsq.
  - intros x Hx. split; [done|]. apply Q3, Hsf, Hx.
Qed.

(** An entry of a level above [l], given the specification one level down. *)
Lemma tstep_above k cur i t :
  (forall cur ts, block_pre k cur ts -> block_spec k cur ts (tmap pa va len flags k cur ts)) ->
  (l <= k)%nat -> (S k < L)%nat ->
  cur mod sz (S (S k)) = 0 -> cur <= va -> va + cov <= cur + sz (S (S k)) -> 0 <= i < 512 ->
  twf (S k) t -> (forall x, in_range x = true -> vpn (S k) x = i -> child_leaf_from l (S k) t x) ->
  child_spec (S k) cur i t (tstep pa va len flags (S k) cur i t).
Proof.
  intros IH Hlk HkL Hcur Hlo Hhi Hi Hw Hleaf. destruct cov_facts as (Hc1 & Hc2 & Hc3).
  assert (Hlk' : (l < S k)%nat) by lia. pose proof (sz_pos (S k)).
  assert (Hx0 : cur <= cur + i * sz (S k) < cur + sz (S (S k))) by (rewrite (sz_S (S k)); nia).
  pose proof (vpn_of_index (S k) cur i Hcur Hi) as Hix.
  pose proof (touched_above (S k) cur _ Hlk' Hx0) as Ht. rewrite Hix in Ht.
  destruct (Z.eqb_spec i (vpn (S k) va)) as [Heq|Hne].
  2:{ unfold tstep. rewrite Ht. split; [done|]. split; [|done]. intros x Hx Hvx.
      rewrite (untouched (S k) cur Hcur Hlo x Hlk' Hx) by congruence. done. }
  assert (Hpiece : forall x, cur <= x < cur + sz (S (S k)) -> vpn (S k) x = i ->
    cur + i * sz (S k) <= x < cur + i * sz (S k) + sz (S k)).
  { intros x Hx Hvx. destruct (sub_cur (S k) cur Hcur x Hx) as (_ & Hsx & _). by rewrite Hvx in Hsx. }
  pose proof (fun a sub => child_descends k cur i t a sub IH Hlk HkL Hcur Hlo Hhi Hi Heq) as Hdown.
  destruct t as [v|a sub].
  - destruct (must_split (S k) pa va len i) eqn:Hms.
    + rewrite tstep_split by done. apply twf_leaf in Hw. apply Hdown.
      * by apply split_leaf_wf.
      * intros x _. by destruct k; cbn [leaf_from]; rewrite split_leaf_lookup.
      * intros x _ _. by apply tquery_split.
      * intros x _. by destruct k; cbn [leaf_from]; rewrite split_leaf_lookup.
    + rewrite tstep_write by done.
      destruct (not_split_whole (S k) cur Hcur Hlo Hhi i Hlk' Heq Hms) as (W1 & W2 & W3 & W4).
      assert (Hpte : forall x, va <= x < va + sz (S k) ->
        leaf_wf (S k) (new_pte pa va (cur + i * sz (S k)) flags) /\
        leaf_answer L (S k) (new_pte pa va (cur + i * sz (S k)) flags) x = mapped_answer pa va flags x)
        by (intros x Hx; apply leaf_new_pte; rewrite ?W1; try done; fold cov; lia).
      split; [apply twf_leaf, (Hpte va); lia|]. split; [|done].
      intros x Hx Hvx. specialize (Hpiece x Hx Hvx). rewrite W1 in Hpiece.
      cbn [child_query]. rewrite (proj2 (Hpte x Hpiece)). unfold in_range. fold cov.
      by rewrite (proj2 (Z.leb_le _ _)), (proj2 (Z.ltb_lt _ _)) by lia.
  - rewrite tstep_node by done. apply Hdown.
    + done.
    + intros x Hin. destruct (in_range_region k cur x Hlk' Hcur Hlo Hhi Hin) as [_ Hv].
      apply (Hleaf x Hin). congruence.
    + done.
    + by intros x [_ Hx].
Qed.

Lemma children_block k cur ts :
  block_pre k cur ts ->
  (forall i t, 0 <= i < 512 -> ts !! Z.to_nat i = Some t ->
     child_spec k cur i t (tstep pa va len flags k cur i t)) ->
  block_spec k cur ts (tmap pa va len flags k cur ts).
Proof.
  intros (Hcur & Hlo & Hhi & [Hlen' Hw] & Hleaf) Hch.
  assert (Hat : forall x, exists t, ts !! Z.to_nat (vpn k x) = Some t /\
    tmap pa va len flags k cur ts !! Z.to_nat (vpn k x)
      = Some (tstep pa va len flags k cur (vpn k x) t) /\
    child_spec k cur (vpn k x) t (tstep pa va len flags k cur (vpn k x) t)).
  { intros x. pose proof (vpn_range k x).
    destruct (lookup_lt_is_Some_2 ts (Z.to_nat (vpn k x))) as [t Ht]; [lia|].
    exists t. rewrite tmap_lookup, Ht. cbn [fmap option_fmap option_map].
    rewrite Z2Nat.id by lia. auto. }
  split; [|split].
  - split; [by rewrite tmap_length|]. intros j t' Ht'. rewrite tmap_lookup in Ht'.
    destruct (ts !! j) as [t|] eqn:Ht; [|done]. injection Ht' as <-.
    assert ((j < 512)%nat) by (rewrite <-Hlen'; by eapply lookup_lt_Some).
    apply Hch; [lia|]. by rewrite Nat2Z.id.
  - intros x Hx. destruct (Hat x) as (t & Ht & Ht' & _ & Hq & _).
    rewrite (tquery_child _ _ _ _ _ Ht), (tquery_child _ _ _ _ _ Ht'). by apply Hq.
  - intros x. destruct (Hat x) as (t & Ht & Ht' & _ & _ & Hf).
    rewrite (leaf_from_child _ _ _ _ _ Ht), (leaf_from_child _ _ _ _ _ Ht'). apply Hf.
Qed.

Lemma tmap_block k : 
  (l <= k)%nat -> (k < L)%nat -> forall cur ts, block_pre k cur ts ->
  block_spec k cur ts (tmap pa va len flags k cur ts).
Proof.
  induction k as [k IH] using (well_founded_ind lt_wf). intros Hlk HkL cur ts Hpre.
  apply children_block; [done|]. destruct Hpre as (Hcur & Hlo & Hhi & [Hlen' Hw] & Hleaf).
  intros i t Hi Ht.
  assert (Hcl : forall x, in_range x = true -> vpn k x = i -> child_leaf_from l k t x)
    by (intros x Hin Hv; apply (leaf_from_child l k ts); [by rewrite Hv|by apply Hleaf]).
  specialize (Hw _ _ Ht).
  destruct (decide (k = l)) as [->|Hne]; [by apply tstep_base|].
  destruct k as [|k]; [lia|]. apply tstep_above; try done; try lia.
  apply IH; lia.
Qed.
End Block.

(** ** [map] and [query] on memories *)

(** A memory holds a page table: the tree [ts], its tables at different
    addresses, its valid leaves aligned. *)
Record mapped_tree (L : nat) (g : GenericPaging) (m : mem) (ts : list ptree) : Prop := {
  mt_repr : table_repr g (L - 1) m (table g) ts;
  mt_nodup : NoDup (table g :: footprints ts);
  mt_wf : table_wf (L - 1) ts
}.

(** A request [map] carries out exactly: page aligned at level [l], within one
    entry of the level above, no table in the way. *)
Record block_request (L l : nat) (pa va len flags : Z) (ts : list ptree) : Prop := {
  br_level : (l < L)%nat;
  br_flags : flags_ok flags;
  br_pa : 0 <= pa /\ pa mod sz l = 0 /\ pa + mapped_length l len <= Z.min (sz L) (2 ^ 56);
  br_va : 0 <= va /\ va mod sz l = 0 /\ va + mapped_length l len <= sz L;
  br_len : 0 < len /\ len mod sz l = 0;
  br_block : va / sz (S l) = (va + mapped_length l len - 1) / sz (S l);
  br_leaf x : in_range va len l x = true -> leaf_from l (L - 1) ts x
}.

Lemma leaf_from_0 k ts x : table_wf k ts -> leaf_from 0 k ts x.
Proof.
  revert ts. induction k as [|k IH]; intros ts Hw;
    destruct (table_wf_lookup _ _ x Hw) as ([v|a sub] & Ht & Htw);
    cbn [leaf_from]; rewrite Ht; try done.
  split; [lia|]. by apply IH.
Qed.

Lemma shape_tquery L l ts ts' x :
  shape <$> ts = shape <$> ts' -> tquery L l ts x = tquery L l ts' x.
Proof. intros E. by rewrite <-(tquery_shape L l ts), E, tquery_shape. Qed.

Lemma shape_table_wf l ts ts' : shape <$> ts = shape <$> ts' -> table_wf l ts -> table_wf l ts'.
Proof. intros E Hw. apply table_wf_shape. rewrite <-E. by apply table_wf_shape. Qed.

Lemma leaf_from_shape l k ts x : leaf_from l k (shape <$> ts) x <-> leaf_from l k ts x.
Proof.
  revert ts. induction k as [|k IH]; intros ts; cbn [leaf_from];
    rewrite list_lookup_fmap; destruct (ts !! _) as [[v|a sub]|];
    cbn [fmap option_fmap option_map shape]; try done. by rewrite IH.
Qed.

Section Correct.
Context (L : nat) (Hscheme : scheme_ok (Z.of_nat L) 8).
Context (g : GenericPaging) (alloc : mem -> option (Z * list Entry)) {Halloc : AllocSpec g alloc}.

Lemma scheme_levels : (3 <= L <= 5)%nat.
Proof. assert (3 <= Z.of_nat L <= 5) by (inversion Hscheme; lia). lia. Qed.

Lemma scheme_size : 2 ^ va_bits (Z.of_nat L) 8 = sz L.
Proof. unfold sz, va_bits. change (vpn_bits 8) with 9. f_equal. lia. Qed.

(** [query] on a mapped tree. *)
Lemma query_tree m ts x :
  mapped_tree L g m ts -> is_usize x -> query L 8 g m x = tquery L (L - 1) ts x.
Proof.
  intros [Hr _ _] Hx. pose proof scheme_levels. apply query_loop_tree; done || lia.
Qed.

Lemma map_block m ts l pa va len flags :
  mapped_tree L g m ts -> is_usize va ->
  block_request L l pa (va mod sz L) len flags ts ->
  match map L 8 alloc g pa va len flags m with
  | Stop p => p = OutOfMemory
  | Val m' => exists ts', mapped_tree L g m' ts' /\
      (forall x, 0 <= x < sz L ->
         tquery L (L - 1) ts' x = if in_range (va mod sz L) len l x
                                  then mapped_answer pa (va mod sz L) flags x
                                  else tquery L (L - 1) ts x) /\
      (forall x, leaf_from l (L - 1) ts x -> leaf_from l (L - 1) ts' x)
  end.
Proof.
  intros [Hr Hnd Hwf] Hva [Hl Hfl (Hpa & Hpam & Hpae) (Hv0 & Hvm & Hve) (Hlen & Hlm) Hb Hleaf].
  pose proof scheme_levels as HL. pose proof (sz_le_64 L ltac:(lia)) as Hsz.
  set (va' := va mod sz L) in *.
  assert (Hcov : len <= mapped_length l len) by (unfold mapped_length; destruct l; lia).
  assert (H12 : forall a, a mod sz l = 0 -> a mod 4096 = 0)
    by (intros a Ha; apply (mod_fine 0 l); [lia|done]).
  assert (Hvm12 : va mod 4096 = 0).
  { apply H12 in Hvm. unfold va', sz in Hvm. change 4096 with (2 ^ 12) in *.
    by rewrite mod_pow2_weaken in Hvm by lia. }
  pose proof (map_refines g alloc L m ts pa va len flags Hscheme Hr Hnd) as Href.
  cbv zeta in Href. rewrite scheme_size in Href. fold va' in Href. unfold is_usize in *.
  specialize (Href ltac:(lia) Hva Hlen ltac:(lia) Hfl (H12 _ Hpam) Hvm12 (H12 _ Hlm) ltac:(lia)).
  destruct (map L 8 alloc g pa va len flags m) as [m'|]; [|done].
  destruct Href as (ts' & Hev & Hsh). exists ts'.
  assert (EL : S (L - 1) = L) by lia.
  destruct (tmap_block L ltac:(lia) pa va' len flags Hfl l Hl Hpa Hpae Hlen Hv0 Hpam Hvm Hlm Hb
    (L - 1) ltac:(lia) ltac:(lia) 0 ts) as (W1 & W2 & W3).
  { unfold block_pre. rewrite EL. repeat split; try done; try lia; apply Hwf. }
  rewrite EL in W2.
  split; [|split].
  - split; [apply Hev|apply Hev|]. by eapply shape_table_wf.
  - intros x Hx. rewrite (shape_tquery _ _ _ _ _ Hsh). by apply W2.
  - intros x Hx. apply leaf_from_shape. rewrite Hsh. by apply leaf_from_shape, W3.
Qed.

(** A request aligned to the entries of the root needs no allocation: the
    root's leaves are overwritten in place. *)
Lemma map_internal_root m a ts l pa va len flags :
  (S l <= 4)%nat -> 0 <= pa < 2 ^ 64 -> 0 <= va -> 0 < len -> va + len < 2 ^ 64 ->
  pa mod sz (S l) = 0 -> va mod sz (S l) = 0 -> len mod sz (S l) = 0 -> flags_ok flags ->
  512 * sz (S l) <= 2 ^ 57 ->
  table_repr g (S l) m a ts -> NoDup (a :: footprints ts) ->
  (forall i, first_vpn (S l) va <= i <= last_vpn (S l) va len ->
     exists v, ts !! Z.to_nat i = Some (PLeaf v)) ->
  exists m', map_internal 8 alloc g (S l) a pa va len flags 0 m = Val m'.
Proof.
  intros Hl Hpa Hva Hlen Hend Hpam Hvam Hlm Hfl Hmax Hr Hnd Hleaf.
  assert (H12 : forall x, x mod sz (S l) = 0 -> x mod 4096 = 0)
    by (intros x Hx; apply (mod_fine 0 (S l)); [lia|done]).
  rewrite map_internal_eq by (done || lia || by apply H12).
  destruct (vpn_bounds pa va len (S l)) as [Hlo Hhi].
  set (rng := seqZ _ _).
  assert (Hrng : forall x, x ∈ rng -> first_vpn (S l) va <= x <= last_vpn (S l) va len)
    by (intros x; unfold rng; rewrite elem_of_seqZ; lia).
  pose proof (for_each_rule (map_body g alloc pa va len flags (S l) a 0)
    (fun _ m1 => exists ts1, evolves g (S l) a m ts m1 ts1 /\
       forall i, first_vpn (S l) va <= i <= last_vpn (S l) va len ->
         exists v, ts1 !! Z.to_nat i = Some (PLeaf v)) (fun _ => False) rng m) as Hrule.
  destruct (for_each _ rng m) as [m'|]; [by exists m'|].
  exfalso. apply Hrule; [exists ts; split; [by apply evolves_refl|done]|]. clear Hrule.
  intros don x rest m1 Heq (ts1 & Hev & Hl1).
  assert (Hx : first_vpn (S l) va <= x <= last_vpn (S l) va len)
    by (apply Hrng; rewrite Heq; set_solver).
  destruct (Hl1 x Hx) as [v Hv]. pose proof (ev_repr _ _ _ _ _ _ _ Hev) as Hr1.
  destruct (table_repr_index g _ _ _ _ x Hr1 ltac:(lia)) as (es & e & t & Hes & Hle & Hix & He & Ht & Hre).
  rewrite Hv in Ht. injection Ht as <-. destruct Hre as [Hval Hok]. destruct e as [w].
  cbn [value] in Hval. subst w.
  unfold map_body, load_table. rewrite Hes. cbn [mbind outcome_bind]. rewrite Hix.
  cbn [mbind outcome_bind]. rewrite (leaf_ok_is_leaf (S l)) by done. cbn [andb].
  assert (Hms : must_split (S l) pa va len x = false).
  { pose proof (sz_pos (S l)). unfold must_split, unaligned.
    rewrite !add_mod_0, Hpam, Hvam by (done || lia). cbn [negb orb Z.eqb]. by rewrite !andb_false_r. }
  rewrite Hms. cbn [mbind outcome_bind]. unfold try_as_table.
  rewrite (leaf_ok_is_leaf (S l)) by done. cbn [mbind outcome_bind].
  assert (Hpte : leaf_ok (S l) (new_pte pa va (0 + x * sz (S l)) flags)).
  { apply new_pte_ok; try done; try lia; try by apply H12.
    rewrite Z.add_0_l, <-Z.mul_mod_idemp_r, sz_mod_4096, Z.mul_0_r by lia. done. }
  destruct (step_leaf g alloc pa va (S l) m1 a ts1 x _ _ Hr1 (ev_nodup _ _ _ _ _ _ _ Hev) ltac:(lia) Hv Hpte)
    as (m2 & -> & Hev2).
  eexists. split; [by eapply evolves_trans|]. intros i Hi.
  destruct (decide (Z.to_nat i = Z.to_nat x)) as [E|E].
  - rewrite E. eexists. apply list_lookup_insert_eq. by eapply lookup_lt_Some.
  - rewrite list_lookup_insert_ne by done. by apply Hl1.
Qed.

Lemma map_block_root m ts pa va len flags :
  mapped_tree L g m ts -> is_usize va ->
  block_request L (L - 1) pa (va mod sz L) len flags ts ->
  exists m', map L 8 alloc g pa va len flags m = Val m'.
Proof.
  intros Hm Hva Hreq. pose proof Hreq as [Hl Hfl (Hpa & Hpam & Hpae) (Hv0 & Hvm & Hve) (Hlen & Hlm) Hb Hleaf].
  pose proof scheme_levels as HL. pose proof (sz_le_64 L ltac:(lia)) as Hsz.
  assert (EL : S (L - 1) = L) by lia.
  unfold map. rewrite decanonicalize_address_eq, scheme_size by done. cbn [mbind outcome_bind].
  set (va' := va mod sz L) in *.
  assert (H12 : forall a, a mod sz (L - 1) = 0 -> (Z.land a 0xfff =? 0) = true).
  { intros a Ha. apply Z.eqb_eq. change 0xfff with (2 ^ 12 - 1). rewrite land_ones_mod by lia.
    by apply (mod_fine 0 (L - 1)); [lia|]. }
  rewrite !H12 by done.
  assert (Hcov : len = mapped_length (L - 1) len) by (by destruct (L - 1)%nat eqn:E; [lia|]).
  destruct (L - 1)%nat as [|l] eqn:E; [lia|]. rewrite <-Hcov in *.
  assert (E' : S (S l) = L) by lia.
  apply (map_internal_root m (table g) ts l pa va' len flags); try done; try lia.
  - rewrite <-sz_S, E'. lia.
  - rewrite <-E. apply Hm.
  - apply Hm.
  - intros i Hi. destruct (vpn_bounds pa va' len (S l)) as [Hlo Hhi].
    assert (Hc0 : 0 mod sz (S (S l)) = 0) by (apply Z.mod_0_l; pose proof (sz_pos (S (S l))); lia).
    assert (Hx : 0 <= 0 + i * sz (S l) < 0 + sz (S (S l)))
      by (rewrite (sz_S (S l)); pose proof (sz_pos (S l)); nia).
    pose proof (vpn_of_index (S l) 0 i Hc0 ltac:(lia)) as Hv.
    assert (Hin : in_range va' len (S l) (0 + i * sz (S l)) = true).
    { rewrite <-(touched_base L ltac:(lia) pa va' len (S l) ltac:(lia) Hpae Hlen Hpam Hvm Hlm Hb (S l) 0 Hc0
        ltac:(lia) ltac:(cbn [mapped_length]; rewrite E'; lia) _ eq_refl Hx). rewrite Hv.
      apply andb_true_iff. split; apply Z.leb_le; lia. }
    specialize (Hleaf _ Hin). cbn [leaf_from] in Hleaf. rewrite Hv in Hleaf.
    destruct Hm as [_ _ [Hlt _]].
    destruct (lookup_lt_is_Some_2 ts (Z.to_nat i)) as [[v|b sub] Ht]; [lia|by exists v|].
    rewrite Ht in Hleaf. destruct Hleaf as [Hbad _]. lia.
Qed.


(** Mapping page by page maps one page too many.  Below the last level
    the code does not subtract 1 from the end of the range, so a request for
    [length] bytes inside a 2 MiB block also maps the page that follows it. *)
Theorem map_extra_page m ts pa va len flags :
  mapped_tree L g m ts -> is_usize va -> pte_V flags = true ->
  block_request L 0 pa (va mod sz L) len flags ts ->
  match map L 8 alloc g pa va len flags m with
  | Stop p => p = OutOfMemory
  | Val m' => query L 8 g m' (va mod sz L + len) = Val (Ok (pa + len))
  end.
Proof.
  intros Hm Hva Hf Hreq. pose proof (map_block m ts 0 pa va len flags Hm Hva Hreq) as Hb.
  destruct (map L 8 alloc g pa va len flags m) as [m'|]; [|done].
  destruct Hb as (ts' & Hm' & Hq & _). destruct Hreq as [_ _ _ (Hv0 & _ & Hve) (Hlen & _) _ _].
  pose proof scheme_levels. pose proof (sz_le_64 L ltac:(lia)). cbn [mapped_length] in Hve.
  rewrite (query_tree _ _ _ Hm'), Hq by (unfold is_usize; lia).
  unfold in_range, mapped_answer; cbn [mapped_length].
  rewrite Hf, (proj2 (Z.leb_le _ _)), (proj2 (Z.ltb_lt _ _)) by lia. cbn [andb].
  do 2 f_equal. lia.
Qed.
End Correct.

(** ** Concrete page tables *)

Lemma zeroed_wf l : (l <= 5)%nat -> table_wf l zeroed_tree.
Proof.
  intros Hl. split; [done|]. intros i t Ht. apply lookup_replicate in Ht as [-> _].
  apply twf_leaf. split; [|done]. pose proof (sz_le_64 l Hl). pose proof (sz_pos l).
  repeat split; [lia|]. change (2 ^ 60) with (8 * 2 ^ 57). Z.div_mod_to_equations. lia.
Qed.

(** The table of a static, before anything is mapped. *)
Lemma zeroed_mapped_tree L g m :
  (1 <= L <= 5)%nat -> m !! table g = Some (zeroed 8) -> mapped_tree L g m zeroed_tree.
Proof.
  intros HL Hm. split; [apply zeroed_repr; [lia|done]| |apply zeroed_wf; lia].
  rewrite footprints_zeroed. apply NoDup_singleton.
Qed.

Lemma zeroed_leaf_from l k x : leaf_from l k zeroed_tree x.
Proof.
  pose proof (vpn_range k x).
  assert (Ht : zeroed_tree !! Z.to_nat (vpn k x) = Some (PLeaf 0))
    by (apply lookup_replicate_2; lia).
  by destruct k; cbn [leaf_from]; rewrite Ht.
Qed.

Lemma tquery_zeroed L l x : tquery L l zeroed_tree x = Val (Err Invalid).
Proof.
  pose proof (vpn_range l x).
  assert (Ht : zeroed_tree !! Z.to_nat (vpn l x) = Some (PLeaf 0)) by (apply lookup_replicate_2; lia).
  by destruct l; cbn [tquery]; rewrite Ht.
Qed.

(** Translation depends on the low bits of an address only. *)
Lemma vpn_mod L k x : (k < L)%nat -> vpn k (x mod sz L) = vpn k x.
Proof.
  intros Hk. destruct (sz_mult (S k) L ltac:(lia)) as (n & Hn & ->). pose proof (sz_pos k).
  unfold vpn. rewrite sz_S, (Z.mod_eq x (n * (512 * sz k))) by nia.
  set (q := x / (n * (512 * sz k))).
  replace (x - n * (512 * sz k) * q) with (x + (- (n * q) * 512) * sz k) by lia.
  rewrite Z.div_add by lia. by rewrite Z.mod_add by lia.
Qed.

Lemma mod_sz_mod L k x : (k <= L)%nat -> (x mod sz L) mod sz k = x mod sz k.
Proof. intros Hk. unfold sz. apply mod_pow2_weaken. lia. Qed.

Lemma tquery_mod L k ts x : (k < L)%nat -> tquery L k ts (x mod sz L) = tquery L k ts x.
Proof.
  assert (Hl : forall k v, (k < L)%nat -> leaf_answer L k v (x mod sz L) = leaf_answer L k v x).
  { intros j v Hj. unfold leaf_answer, leaf_pa. by rewrite mod_sz_mod by lia. }
  revert ts. induction k as [|k IH]; intros ts Hk; cbn [tquery]; rewrite vpn_mod by lia;
    destruct (ts !! _) as [[v|a sub]|]; auto. apply IH. lia.
Qed.

Lemma sample_request :
  block_request 3 0 0x80000000 (0x40005000 mod sz 3) 0x2000 0xf zeroed_tree.
Proof.
  split; [lia| | | | | |intros; apply zeroed_leaf_from]; vm_compute; intuition congruence.
Qed.


Lemma map_extra_page_witness :
  is_Some (sample_alloc zeroed_memory) /\
  match map 3 8 sample_alloc sample_paging 0x80000000 0x40005000 0x2000 0xf zeroed_memory with
  | Stop p => p = OutOfMemory
  | Val m' => query 3 8 sample_paging m' (0x40005000 mod sz 3 + 0x2000) = Val (Ok (0x80000000 + 0x2000))
  end.
Proof.
  split; [by eexists|].
  apply (map_extra_page 3 Sv39_ok sample_paging sample_alloc zeroed_memory zeroed_tree).
  - apply zeroed_mapped_tree; [lia|reflexivity].
  - split; [lia|reflexivity].
  - reflexivity.
  - exact sample_request.
Defined.

(** The address [x] translates to after a request on the zeroed table. *)
Definition after_map (pa va len flags x : Z) : outcome (Result Z PageLookupError) :=
  m ← map 3 8 sample_alloc sample_paging pa va len flags zeroed_memory;
  query 3 8 sample_paging m x.

(** A range that crosses a 2 MiB boundary is mapped wrongly.  Each of the
    two last-level tables is given the whole range: the second one starts at
    the page number of the first one's start and, the end number being smaller,
    goes on to 511.  The page after the boundary stays unmapped and the last
    page of the second block is mapped instead. *)
Theorem map_cross_region :
  after_map 0x5000 0x1ff000 0x2000 0xf 0x1ff234 = Val (Ok 0x5234) /\
  after_map 0x5000 0x1ff000 0x2000 0xf 0x200234 = Val (Err Invalid) /\
  after_map 0x5000 0x1ff000 0x2000 0xf 0x3ff234 = Val (Ok 0x205234).
Proof. vm_compute. repeat split; done. Qed.

(** A physical address that is not aligned to 2 MiB gives misaligned
    superpages.  Only the first and the last entry of a range are split; the
    entries between are written as leaves whatever the physical address, and
    [query] then panics on them.  The entry that is split gets its first page
    only: the whole range starts and ends at page number 0 of the new table. *)
Theorem map_misaligned_superpage :
  after_map 0x1000 0 0x600000 0xf 0x234 = Val (Ok 0x1234) /\
  after_map 0x1000 0 0x600000 0xf 0x1234 = Val (Err Invalid) /\
  after_map 0x1000 0 0x600000 0xf 0x200234 = Stop AssertFailed.
Proof. vm_compute. repeat split; done. Qed.
