(* ===== verification/PagingTyping.v ===== *)
(** * kernel_paging: sequences of requests

    Page tables as the kernel builds them: from a zeroed table by one [map] after
    another, coarse requests before fine ones.  The memory stays a well-typed page
    table, every [query] has an answer, and the last request that covers an
    address decides it. *)

From S2P Require Import Prelude PagingBits Paging PagingSpec PagingTree PagingRefine PagingMap.
From Stdlib Require Import Sorted.

Record Request := mkRequest {
  rq_level : nat;        (* the entries its range is aligned to *)
  rq_physical : Z;
  rq_virtual : Z;
  rq_length : Z;
  rq_flags : Z
}.

(** Which sequences are typed: each request lies in one entry of the level above
    its own, and no request is coarser than one before it. *)
Definition request_ok (L : nat) (r : Request) : Prop :=
  is_usize (rq_virtual r) /\
  block_request L (rq_level r) (rq_physical r) (rq_virtual r mod sz L) (rq_length r) (rq_flags r)
    zeroed_tree.
Definition coarser (r r' : Request) : Prop := (rq_level r' <= rq_level r)%nat.

(** What a request says about an address, [before] being what was said so far. *)
Definition decide_address (L : nat) (x : Z) (before : outcome (Result Z PageLookupError)) (r : Request)
  : outcome (Result Z PageLookupError) :=
  let va := rq_virtual r mod sz L in
  if in_range va (rq_length r) (rq_level r) x
  then mapped_answer (rq_physical r) va (rq_flags r) x else before.

Definition translation (L : nat) (rs : list Request) (x : Z) : outcome (Result Z PageLookupError) :=
  foldl (decide_address L x) (Val (Err Invalid)) rs.

Lemma leaf_from_weaken l l' k ts x : (l' <= l)%nat -> leaf_from l k ts x -> leaf_from l' k ts x.
Proof.
  intros Hl. revert ts. induction k as [|k IH]; intros ts; cbn [leaf_from];
    destruct (ts !! _) as [[v|a sub]|]; try done.
  intros [H1 H2]. split; [lia|]. by apply IH.
Qed.

Section Sequences.
Context (L : nat) (Hscheme : scheme_ok (Z.of_nat L) 8).
Context (g : GenericPaging) (alloc : mem -> option (Z * list Entry)) {Halloc : AllocSpec g alloc}.

Definition map_all (rs : list Request) (m : mem) : outcome mem :=
  for_each (fun m r => map L 8 alloc g (rq_physical r) (rq_virtual r) (rq_length r) (rq_flags r) m) rs m.

Lemma map_all_spec rs m ts :
  mapped_tree L g m ts -> Forall (request_ok L) rs -> StronglySorted coarser rs ->
  (forall r x, List.In r rs -> leaf_from (rq_level r) (L - 1) ts x) ->
  match map_all rs m with
  | Stop p => p = OutOfMemory
  | Val m' => exists ts', mapped_tree L g m' ts' /\
      forall x, 0 <= x < sz L ->
        tquery L (L - 1) ts' x = foldl (decide_address L x) (tquery L (L - 1) ts x) rs
  end.
Proof.
  revert m ts. induction rs as [|r rs IH]; intros m ts Hm Hok Hs Hleaf; [by exists ts|].
  apply Forall_cons_1 in Hok as [[Hu Hr] Hok]. apply StronglySorted_inv in Hs as [Hs Hle].
  unfold map_all. cbn [for_each].
  assert (Hreq : block_request L (rq_level r) (rq_physical r) (rq_virtual r mod sz L) (rq_length r)
                   (rq_flags r) ts).
  { destruct Hr. split; try done. intros x _. apply Hleaf. by left. }
  pose proof (map_block L Hscheme g alloc m ts _ _ _ _ _ Hm Hu Hreq) as Hb.
  destruct (map L 8 alloc g _ _ _ _ m) as [m1|]; cbn [mbind outcome_bind]; [|done].
  destruct Hb as (ts1 & Hm1 & Hq1 & Hl1).
  specialize (IH m1 ts1 Hm1 Hok Hs). unfold map_all in IH.
  destruct (for_each _ rs m1) as [m2|].
  - destruct IH as (ts2 & Hm2 & Hq2).
    { intros r' x Hr'. apply (leaf_from_weaken (rq_level r)); [|apply Hl1, Hleaf; by left].
      by apply (proj1 (List.Forall_forall _ _) Hle). }
    exists ts2. split; [done|]. intros x Hx. rewrite Hq2, Hq1 by done. done.
  - apply IH. intros r' x Hr'. apply (leaf_from_weaken (rq_level r)); [|apply Hl1, Hleaf; by left].
    by apply (proj1 (List.Forall_forall _ _) Hle).
Qed.

End Sequences.

(** Half of physical memory in gigapages, then two pages of their own. *)
Definition sample_requests : list Request :=
  [mkRequest 2 0 (2 ^ 38) (2 ^ 38) 0xf; mkRequest 0 0x80000000 0x4000005000 0x2000 0xf].

