(* ===== verification/Boot.v ===== *)
(** * kernel_bootloader, kernel_allocator and the page tables of kernel_main

    [kernel_bootloader/src/main.rs] ([pre_main], [hart_entry]),
    [kernel_allocator/src/lib.rs] ([init_from_pointers]) and the part of
    [kernel_main/src/main.rs] that sets up address translation ([main] up to
    the first future, the first half of [common_hart_code]).

    Outside the repository, and parameters here: the slab allocator (its
    [MIN_HEAP_SIZE], and the blocks it gives for a heap region), the addresses
    the linker chooses. *)

From S2P Require Import Prelude PagingBits Paging PagingSpec PagingTree PagingRefine PagingMap.

(** ** kernel_allocator *)

Section Allocator.
Context (MIN_HEAP_SIZE : Z).

(** [init_heap]: the region [LockedHeap::init] receives, start and size. *)
Definition init_heap (heap_start heap_size : Z) : Z * Z := (heap_start, heap_size).

Definition init_from_pointers (heap_start heap_end : Z) : outcome (Z * Z) :=
  heap_size ← checked_sub heap_end heap_start;
  let heap_size := heap_size / MIN_HEAP_SIZE in
  heap_size ← checked_mul 64 heap_size MIN_HEAP_SIZE;
  Val (init_heap heap_start heap_size).

(** C40: the heap given to the allocator lies between the two pointers, is a
    multiple of the minimum size, and leaves less than one minimum unused;
    pointers in the wrong order stop the kernel. *)
Theorem init_from_pointers_spec heap_start heap_end :
  0 < MIN_HEAP_SIZE -> is_usize heap_start -> is_usize heap_end ->
  match init_from_pointers heap_start heap_end with
  | Stop p => p = Overflow /\ heap_end < heap_start
  | Val (s, n) => s = heap_start /\ (MIN_HEAP_SIZE | n) /\ 0 <= n /\
      s + n <= heap_end < s + n + MIN_HEAP_SIZE
  end.
Proof.
  intros Hmin Hs He. unfold is_usize in *. unfold init_from_pointers, checked_sub.
  destruct (Z.ltb_spec heap_end heap_start); [done|]. cbn [mbind outcome_bind].
  set (n := heap_end - heap_start).
  pose proof (Z.div_mod n MIN_HEAP_SIZE ltac:(lia)).
  pose proof (Z.mod_pos_bound n MIN_HEAP_SIZE Hmin).
  assert (0 <= n / MIN_HEAP_SIZE) by (apply Z.div_pos; lia).
  checked. split; [done|]. split; [by exists (n / MIN_HEAP_SIZE)|]. nia.
Qed.
End Allocator.

Lemma init_from_pointers_spec_witness :
  init_from_pointers 0x8000 0x1000 0x23456 = Val (0x1000, 0x20000) /\
  0x1000 = 0x1000 /\ (0x8000 | 0x20000) /\ 0 <= 0x20000 /\ 0x1000 + 0x20000 <= 0x23456 < 0x1000 + 0x20000 + 0x8000.
Proof.
  split; [reflexivity|].
  apply (init_from_pointers_spec 0x8000 0x1000 0x23456); [lia|split; [lia|reflexivity]..].
Defined.

(** ** kernel_bootloader *)

(** The fields of [BootState]: the [ALREADY_BOOTED] static, the page tables,
    the [satp] register and the region the global allocator was given. *)
Record BootState := {
  already_booted : bool;
  tables : mem;
  boot_satp : Z;
  heap : option (Z * Z)
}.

Inductive BootExit :=
  | HaltLoop
  | KernelEntry (hartid opaque sv_bits kernel_len stack_start hart_entry_point : Z).

Section Bootloader.
Context (MIN_HEAP_SIZE : Z).
Context (alloc : option (Z * Z) -> mem -> option (Z * list Entry)).
Context (TABLE : Z) (heap_start stack_start hart_entry_point : Z).
Context (payload payload_len : Z).

(** [phys_to_virt] and [virt_to_phys] of the bootloader are the identity. *)
Definition root_table : GenericPaging :=
  {| table := TABLE; phys_to_virt := Val; virt_to_phys := Val |}.

Definition gap : Z := wrapping_sub 0 (2 ^ 38).

Definition padded_len : outcome Z :=
  pages ← checked_add 64 (payload_len / 4096) 1; checked_mul 64 pages 4096.

Definition pre_main (st : BootState) (hartid opaque : Z) : outcome (BootState * BootExit) :=
  if already_booted st then Val (st, HaltLoop)
  else
    m ← map 3 8 (alloc (heap st)) root_table 0 0 (2 ^ 38) 0xf (tables st);
    m ← map 3 8 (alloc (heap st)) root_table 0 (2 ^ 38) (2 ^ 38) 0xf m;
    assert! Z.land TABLE 4095 =? 0;;
    let satp := Z.lor (Z.shiftr TABLE 12) (ushl 8 60) in
    heap_end ← checked_add 64 heap_start 0x10000;
    region ← init_from_pointers MIN_HEAP_SIZE heap_start heap_end;
    len ← padded_len;
    m ← map 3 8 (alloc (Some region)) root_table payload 0x7f80000000 len 0xf m;
    stack ← checked_add 64 stack_start gap;
    Val ({| already_booted := true; tables := m; boot_satp := satp; heap := Some region |},
         KernelEntry hartid opaque 39 len stack hart_entry_point).

Definition hart_entry (sp hartid : Z) : outcome BootExit :=
  stack ← checked_add 64 sp 0xffffffc000000000;
  Val (KernelEntry hartid 0 39 0 stack hart_entry_point).

(** *** The address space the bootloader builds *)

(** Physical memory at 0 and again at 2^38, the payload in the last 2 GiB.
    The payload's range has the extra page of [map]. *)
Definition boot_translation (len x : Z) : Z :=
  if (0x7f80000000 <=? x) && (x <? 0x7f80000000 + (len + 4096)) then x - 0x7f80000000 + payload
  else if 2 ^ 38 <=? x then x - 2 ^ 38 else x.

Context {Halloc : forall h, AllocSpec root_table (alloc h)}.

(** The two requests of whole gigapages, the first and the second half. *)
Lemma half_request ts va :
  (forall x, leaf_from 2 2 ts x) -> va = 0 \/ va = 2 ^ 38 ->
  block_request 3 2 0 (va mod sz 3) (2 ^ 38) 0xf ts.
Proof.
  intros Hts Hva.
  destruct Hva as [->| ->]; (split; [lia| | | | | |by intros]); vm_compute; intuition congruence.
Qed.

Lemma payload_request ts len :
  table_wf 2 ts -> 0 < len -> len mod 4096 = 0 -> len <= 0x1ff000 ->
  0 <= payload -> payload mod 4096 = 0 -> payload + len + 4096 <= 2 ^ 38 ->
  block_request 3 0 payload (0x7f80000000 mod sz 3) len 0xf ts.
Proof.
  intros Hwf H0 Hm Hmax Hp Hpm Hpmax.
  change (0x7f80000000 mod sz 3) with 0x7f80000000. split; cbn [mapped_length]; rewrite ?sz_0.
  - lia.
  - vm_compute; intuition congruence.
  - change (sz 3) with (2 ^ 39). repeat split; (done || lia).
  - change (sz 3) with (2 ^ 39). repeat split; (done || lia).
  - done.
  - change (sz 1) with 0x200000. Z.div_mod_to_equations. lia.
  - intros x _. by apply leaf_from_0.
Qed.

Lemma gigapages m :
  m !! TABLE = Some (zeroed 8) -> forall h,
  exists m1 m2 ts2,
    map 3 8 (alloc h) root_table 0 0 (2 ^ 38) 0xf m = Val m1 /\
    map 3 8 (alloc h) root_table 0 (2 ^ 38) (2 ^ 38) 0xf m1 = Val m2 /\
    mapped_tree 3 root_table m2 ts2 /\
    forall x, 0 <= x < sz 3 ->
      tquery 3 2 ts2 x = Val (Ok (if 2 ^ 38 <=? x then x - 2 ^ 38 else x)).
Proof.
  intros Hm h.
  pose proof (zeroed_mapped_tree 3 root_table m ltac:(lia) Hm) as Ht0.
  pose proof (half_request zeroed_tree 0 (fun x => zeroed_leaf_from 2 2 x) ltac:(auto)) as R0.
  assert (U0 : is_usize 0) by (split; [lia|reflexivity]).
  assert (U1 : is_usize (2 ^ 38)) by (split; [lia|reflexivity]).
  destruct (map_block_root 3 Sv39_ok root_table (alloc h) m zeroed_tree 0 0 _ _ Ht0 U0 R0) as [m1 E1].
  pose proof (map_block 3 Sv39_ok root_table (alloc h) m zeroed_tree 2 0 0 _ _ Ht0 U0 R0) as B0.
  rewrite E1 in B0. destruct B0 as (ts1 & Ht1 & Q1 & F1).
  pose proof (half_request ts1 (2 ^ 38) (fun x => F1 x (zeroed_leaf_from 2 2 x)) ltac:(auto)) as R1.
  destruct (map_block_root 3 Sv39_ok root_table (alloc h) m1 ts1 0 (2 ^ 38) _ _ Ht1 U1 R1) as [m2 E2].
  pose proof (map_block 3 Sv39_ok root_table (alloc h) m1 ts1 2 0 (2 ^ 38) _ _ Ht1 U1 R1) as B1.
  rewrite E2 in B1. destruct B1 as (ts2 & Ht2 & Q2 & _).
  exists m1, m2, ts2. split; [done|]. split; [done|]. split; [done|].
  intros x Hx. change (3 - 1)%nat with 2%nat in Q1, Q2. rewrite (Q2 x Hx), (Q1 x Hx).
  change (2 ^ 38 mod sz 3) with (2 ^ 38). change (0 mod sz 3) with 0.
  change (sz 3) with (2 ^ 39) in Hx.
  unfold in_range, mapped_answer; cbn [mapped_length]. change (pte_V 0xf) with true. cbv iota.
  destruct (Z.leb_spec (2 ^ 38) x).
  - rewrite (proj2 (Z.ltb_lt x _)) by lia. cbn [andb]. do 2 f_equal. lia.
  - cbn [andb]. rewrite (proj2 (Z.leb_le 0 x)), (proj2 (Z.ltb_lt x _)) by lia. cbn [andb]. do 2 f_equal. lia.
Qed.

(** What [pre_main] leaves behind on the boot hart. *)
Record booted (hartid opaque len : Z) (st' : BootState) (e : BootExit) : Prop := {
  bt_flag : already_booted st' = true;
  bt_satp : boot_satp st' = 8 * 2 ^ 60 + TABLE / 4096;
  bt_entry : e = KernelEntry hartid opaque 39 len (stack_start + gap) hart_entry_point;
  bt_tree : exists ts, mapped_tree 3 root_table (tables st') ts /\
    forall x, 0 <= x < sz 3 -> tquery 3 2 ts x = Val (Ok (boot_translation len x))
}.

(** Addresses the linker script and the platform give, and the size of the
    payload (at most the 511 pages below the end of its 2 MiB block). *)
Record boot_layout : Prop := {
  bl_min : 0 < MIN_HEAP_SIZE;
  bl_table : 0 < TABLE < 2 ^ 38 /\ TABLE mod 4096 = 0;
  bl_heap : 0 <= heap_start < 2 ^ 38;
  bl_stack : 0 <= stack_start < 2 ^ 38;
  bl_payload : 0 <= payload /\ payload mod 4096 = 0 /\ payload + payload_len + 0x2000 <= 2 ^ 38;
  bl_len : 0 <= payload_len < 0x1ff000
}.

Lemma padded_len_eq :
  0 <= payload_len < 2 ^ 38 -> padded_len = Val ((payload_len / 4096 + 1) * 4096).
Proof.
  intros Hl. assert (0 <= payload_len / 4096 < 2 ^ 38)
    by (split; [apply Z.div_pos; lia|apply Z.div_lt_upper_bound; lia]).
  unfold padded_len. checked. by rewrite checked_mul_Val by lia.
Qed.

Lemma boot_heap :
  boot_layout -> exists n, init_from_pointers MIN_HEAP_SIZE heap_start (heap_start + 0x10000)
    = Val (heap_start, n).
Proof.
  intros [Hmin _ Hh _ _ _]. unfold init_from_pointers. checked.
  replace (heap_start + 0x10000 - heap_start) with 0x10000 by lia.
  pose proof (Z.div_mod 0x10000 MIN_HEAP_SIZE ltac:(lia)).
  pose proof (Z.mod_pos_bound 0x10000 MIN_HEAP_SIZE Hmin).
  checked. by eexists.
Qed.

Lemma satp_eq : 0 <= TABLE < 2 ^ 38 -> Z.lor (Z.shiftr TABLE 12) (ushl 8 60) = 8 * 2 ^ 60 + TABLE / 4096.
Proof.
  intros Ht. rewrite Z.shiftr_div_pow2, Z.lor_comm by lia. change (2 ^ 12) with 4096.
  rewrite (lor_add _ _ 60); [reflexivity|lia|reflexivity|]. Z.div_mod_to_equations. lia.
Qed.

Lemma pre_main_booted st hartid opaque :
  boot_layout -> tables st !! TABLE = Some (zeroed 8) -> already_booted st = false ->
  match pre_main st hartid opaque with
  | Stop p => p = OutOfMemory
  | Val (st', e) => booted hartid opaque ((payload_len / 4096 + 1) * 4096) st' e
  end.
Proof.
  intros Hl Hz Hb. pose proof Hl as [Hmin [Ht Htm] Hh Hs (Hp & Hpm & Hpmax) Hlen].
  unfold pre_main. rewrite Hb.
  destruct (gigapages _ Hz (heap st)) as (m1 & m2 & ts2 & -> & E2 & Hm2 & Q2).
  cbn [mbind outcome_bind]. rewrite E2. cbn [mbind outcome_bind].
  change 4095 with (2 ^ 12 - 1). rewrite land_ones_mod by lia. change (2 ^ 12) with 4096.
  rewrite Htm. cbn [Z.eqb].
  rewrite (checked_add_Val 64 heap_start) by lia. cbn [mbind outcome_bind].
  destruct (boot_heap Hl) as [n ->]. cbn [mbind outcome_bind].
  rewrite padded_len_eq by lia. cbn [mbind outcome_bind].
  set (len := (payload_len / 4096 + 1) * 4096).
  assert (Hlenb : 0 < len /\ len mod 4096 = 0 /\ len <= 0x1ff000 /\ len <= payload_len + 4096).
  { unfold len. split; [Z.div_mod_to_equations; lia|]. split; [by apply Z.mod_mul|].
    Z.div_mod_to_equations; lia. }
  assert (U : is_usize 0x7f80000000) by (split; [lia|reflexivity]).
  assert (Hreq : block_request 3 0 payload (0x7f80000000 mod sz 3) len 0xf ts2).
  { apply payload_request; try lia. apply Hm2. }
  pose proof (map_block 3 Sv39_ok root_table (alloc (Some (heap_start, n))) m2 ts2 0 payload
    0x7f80000000 len 0xf Hm2 U Hreq) as Hmap.
  destruct (map 3 8 _ root_table payload _ len 0xf m2) as [m3|]; cbn [mbind outcome_bind]; [|done].
  destruct Hmap as (ts3 & Hm3 & Q3 & _).
  change gap with (2 ^ 64 - 2 ^ 38). checked.
  split; [done|by apply satp_eq; lia|done|].
  exists ts3. split; [done|]. intros x Hx. change (3 - 1)%nat with 2%nat in Q3.
  rewrite Q3, Q2 by done. unfold boot_translation, in_range, mapped_answer; cbn [mapped_length].
  change (0x7f80000000 mod sz 3) with 0x7f80000000. change (pte_V 0xf) with true. cbv iota.
  by destruct (_ && _).
Qed.
End Bootloader.

(** ** kernel_main: address translation *)

(** The statics of the crate. *)
Record KernelGlobals := {
  SV_BITS : Z;
  GAP : Z;
  KERNEL_START_PHYSICAL : Z
}.

Definition KERNEL_START_VIRTUAL : Z := usize_MAX - 0x80000000 + 1.

Definition kphys_to_virt (g : KernelGlobals) (phys_addr : Z) : outcome Z :=
  checked_add 64 phys_addr (GAP g).
Definition kvirt_to_phys (g : KernelGlobals) (virt_addr : Z) : outcome Z :=
  checked_sub virt_addr (GAP g).

Definition kernel_paging (g : KernelGlobals) (root : Z) : GenericPaging :=
  {| table := root; phys_to_virt := kphys_to_virt g; virt_to_phys := kvirt_to_phys g |}.

Inductive MainExit :=
  | SetupHart (hartid : Z)
  | AsyncMain (hartid opaque hart_entry_point : Z).

Section KernelMain.
Context (MIN_HEAP_SIZE : Z).

(** [main]: [satp] is the register, [m] the memory as the kernel sees it. *)
Definition main (st : KernelGlobals) (satp : Z) (m : mem)
  (hartid opaque sv_bits kernel_len stack_start hart_entry_point : Z)
  : outcome (KernelGlobals * option (Z * Z) * MainExit) :=
  if negb (SV_BITS st =? 0) then Val (st, None, SetupHart hartid)
  else
    upper ← checked_sub sv_bits 1;
    half ← checked_shl 64 1 upper;
    let st := {| SV_BITS := sv_bits; GAP := wrapping_sub 0 half;
                 KERNEL_START_PHYSICAL := KERNEL_START_PHYSICAL st |} in
    region ← init_from_pointers MIN_HEAP_SIZE 0xffffffc082000000 0xffffffc087000000;
    let table := ushl satp 12 in
    if table =? 0 then Stop UnwrapFailed else
    r ← query 3 8 (kernel_paging st table) m 0xffffffff80000000;
    match r with
    | Err _ => Stop UnwrapFailed
    | Ok physical =>
        Val ({| SV_BITS := SV_BITS st; GAP := GAP st; KERNEL_START_PHYSICAL := physical |},
             Some region, AsyncMain hartid opaque hart_entry_point)
    end.

(** The page tables of a hart: [common_hart_code] up to [write_satp]. *)
Definition common_hart_tables (alloc : mem -> option (Z * list Entry)) (st : KernelGlobals)
  (m : mem) : outcome (mem * Z * Z) :=
  '(m, table) ← boxed_zeroed alloc m;
  let sv39 := kernel_paging st table in
  m ← map 3 8 alloc sv39 0 (2 ^ 38) (2 ^ 38) 0xf m;
  m ← map 3 8 alloc sv39 (KERNEL_START_PHYSICAL st) KERNEL_START_VIRTUAL 0x100000 0xf m;
  probe ← checked_add 64 KERNEL_START_VIRTUAL 0x1000;
  r ← query 3 8 sv39 m probe;
  match r with
  | Err _ => Stop UnwrapFailed
  | Ok pa =>
      assert! negb (pa =? 0);;
      assert! Z.land table 4095 =? 0;;
      phys ← kvirt_to_phys st table;
      Val (m, table, Z.lor (Z.shiftr phys 12) (ushl 8 60))
  end.
End KernelMain.

(** *** From the bootloader's tables to the kernel's *)

(** The kernel reads the same tables through both halves of the address space. *)
Definition kernel_view (gap : Z) (m v : mem) : Prop :=
  forall a es, m !! a = Some es -> 0 <= a < 2 ^ 38 /\ v !! a = Some es /\ v !! (a + gap) = Some es.

Lemma query_view m v st root L i a a' x pa :
  GAP st = 2 ^ 64 - 2 ^ 38 -> kernel_view (GAP st) m v -> a' = a \/ a' = a + GAP st ->
  query_loop L 8 (root_table root) m i a x = Val (Ok pa) ->
  query_loop L 8 (kernel_paging st root) v i a' x = Val (Ok pa).
Proof.
  intros Hg Hv. revert a a'. induction i as [|i IH]; intros a a' Ha'; rewrite !query_loop_unfold;
    unfold load_table at 1; destruct (m !! a) as [es|] eqn:Ea; cbn [mbind outcome_bind]; try done;
    destruct (Hv _ _ Ea) as (Hb & Hv1 & Hv2);
    (assert (Hload : load_table v a' = Val es)
       by (unfold load_table; destruct Ha' as [-> | ->]; by rewrite ?Hv1, ?Hv2));
    rewrite Hload; cbn [mbind outcome_bind];
    destruct (index es _) as [pte|]; cbn [mbind outcome_bind]; try done;
    destruct (check_pte 8 pte); try done; unfold try_as_table;
    destruct (Entry.is_leaf pte); cbn [mbind outcome_bind]; try done;
    unfold as_table; destruct (negb _); try done; cbn [phys_to_virt root_table mbind outcome_bind];
    (destruct (Z.eqb_spec (Entry.address pte) 0); [done|]); cbn [mbind outcome_bind]; try done.
  intros Hq.
  assert (Hsub : exists es', m !! Entry.address pte = Some es').
  { rewrite query_loop_unfold in Hq. unfold load_table in Hq.
    destruct (m !! Entry.address pte); [by eexists|done]. }
  destruct Hsub as [es' Hes']. destruct (Hv _ _ Hes') as (Hb' & _ & _).
  cbn [phys_to_virt kernel_paging]. unfold kphys_to_virt. checked.
  rewrite (proj2 (Z.eqb_neq _ 0)) by lia. cbn [mbind outcome_bind].
  by apply (IH (Entry.address pte)); [right|].
Qed.

Lemma table_of_satp t : 0 <= t < 2 ^ 38 -> t mod 4096 = 0 -> ushl (8 * 2 ^ 60 + t / 4096) 12 = t.
Proof.
  intros Ht Hm. unfold ushl. rewrite Z.shiftl_mul_pow2 by lia.
  symmetry. apply Z.mod_unique with (8 * 2 ^ 8); [lia|]. Z.div_mod_to_equations. lia.
Qed.

Lemma kernel_heap MIN : 0 < MIN <= 2 ^ 60 ->
  exists n, init_from_pointers MIN 0xffffffc082000000 0xffffffc087000000 = Val (0xffffffc082000000, n).
Proof.
  intros Hm. unfold init_from_pointers. checked.
  pose proof (Z.div_mod 0x5000000 MIN ltac:(lia)). pose proof (Z.mod_pos_bound 0x5000000 MIN ltac:(lia)).
  change (0xffffffc087000000 - 0xffffffc082000000) with 0x5000000. checked. by eexists.
Qed.


(** A bump allocator for the bootloader, and the layout of a 128 MiB machine. *)
Definition boot_alloc (_ : option (Z * Z)) (m : mem) : option (Z * list Entry) := sample_alloc m.

Definition boot_memory : mem := {[ 0x80200000 := zeroed 8 ]}.


(** *** The tables of a hart *)

(** What [common_hart_code] means to map: physical memory in the upper half,
    the first MiB of the kernel image at its link address. *)
Definition hart_translation (kernel_physical x : Z) : Result Z PageLookupError :=
  if (0x7f80000000 <=? x) && (x <? 0x7f80000000 + (0x100000 + 4096))
  then Ok (x - 0x7f80000000 + kernel_physical)
  else if 2 ^ 38 <=? x then Ok (x - 2 ^ 38) else Err Invalid.

Section HartTables.
Context (st : KernelGlobals) (alloc : mem -> option (Z * list Entry)).
Context (HGAP : GAP st = 2 ^ 64 - 2 ^ 38).
Context (Halloc : forall root, AllocSpec (kernel_paging st root) alloc).

(** The [satp] value for a table the allocator gave out. *)
Lemma hart_satp m t ws :
  alloc m = Some (t, ws) ->
  exists phys, kvirt_to_phys st t = Val phys /\
    Z.lor (Z.shiftr phys 12) (ushl 8 60) = 8 * 2 ^ 60 + (t - GAP st) / 4096.
Proof.
  intros Hall. destruct (alloc_phys (g := kernel_paging st t) m t _ Hall) as (_ & phys & Hvp & _ & Hph & _).
  cbn [virt_to_phys kernel_paging] in Hvp. exists phys. split; [done|].
  unfold kvirt_to_phys, checked_sub in Hvp. destruct (t <? GAP st); [done|]. injection Hvp as <-.
  rewrite Z.shiftr_div_pow2, Z.lor_comm by lia. change (2 ^ 12) with 4096.
  rewrite (lor_add _ _ 60); [reflexivity|lia|reflexivity|].
  split; [apply Z.div_pos; lia|]. apply Z.div_lt_upper_bound; lia.
Qed.

(** The two requests, one after the other, on an empty table. *)
Lemma hart_ranges k x :
  0 <= x < sz 3 ->
  (if in_range (KERNEL_START_VIRTUAL mod sz 3) 0x100000 0 x
   then mapped_answer k (KERNEL_START_VIRTUAL mod sz 3) 0xf x
   else if in_range (2 ^ 38 mod sz 3) (2 ^ 38) 2 x then mapped_answer 0 (2 ^ 38 mod sz 3) 0xf x
   else Val (Err Invalid)) = Val (hart_translation k x).
Proof.
  intros Hx. change (KERNEL_START_VIRTUAL mod sz 3) with 0x7f80000000.
  change (2 ^ 38 mod sz 3) with (2 ^ 38).
  change (sz 3) with (2 ^ 39) in Hx. unfold in_range, mapped_answer, hart_translation.
  cbn [mapped_length]. change (pte_V 0xf) with true. cbv iota.
  destruct ((0x7f80000000 <=? x) && _); [done|].
  rewrite (proj2 (Z.ltb_lt x (2 ^ 38 + _))), andb_true_r by lia.
  destruct (Z.leb_spec (2 ^ 38) x); [|done]. do 2 f_equal. lia.
Qed.

Lemma hart_tables_built m t :
  alloc m = Some (t, zeroed 8) ->
  0 <= KERNEL_START_PHYSICAL st -> KERNEL_START_PHYSICAL st mod 4096 = 0 ->
  KERNEL_START_PHYSICAL st + 0x101000 <= 2 ^ 38 -> t mod 4096 = 0 ->
  match common_hart_tables alloc st m with
  | Stop p => p = OutOfMemory
  | Val (m', table, satp) =>
      table = t /\ satp = 8 * 2 ^ 60 + (t - GAP st) / 4096 /\
      exists ts, mapped_tree 3 (kernel_paging st t) m' ts /\
        forall x, 0 <= x < sz 3 ->
          tquery 3 (3 - 1) ts x = Val (hart_translation (KERNEL_START_PHYSICAL st) x)
  end.
Proof.
  intros Hall Hk0 Hkm Hkmax Htm. set (k := KERNEL_START_PHYSICAL st) in *.
  unfold common_hart_tables, boxed_zeroed. rewrite Hall. cbn [mbind outcome_bind]. fold k.
  set (g := kernel_paging st t). set (m1 := <[t := zeroed 8]> m).
  pose proof (zeroed_mapped_tree 3 g m1 ltac:(lia) ltac:(apply lookup_insert_eq)) as T1.
  assert (U1 : is_usize (2 ^ 38)) by (split; [lia|reflexivity]).
  assert (U2 : is_usize KERNEL_START_VIRTUAL) by (split; [vm_compute; discriminate|reflexivity]).
  pose proof (half_request zeroed_tree (2 ^ 38) (fun x => zeroed_leaf_from 2 2 x) ltac:(auto)) as R1.
  destruct (map_block_root 3 Sv39_ok g alloc m1 zeroed_tree 0 (2 ^ 38) _ _ T1 U1 R1) as [m2 E2].
  pose proof (map_block 3 Sv39_ok g alloc m1 zeroed_tree 2 0 (2 ^ 38) _ _ T1 U1 R1) as B1.
  rewrite E2 in B1 |- *. destruct B1 as (ts2 & T2 & Q2 & _). cbn [mbind outcome_bind].
  assert (R2 : block_request 3 0 k (KERNEL_START_VIRTUAL mod sz 3) 0x100000 0xf ts2)
    by (apply (payload_request k ts2 0x100000); try done; try lia; apply T2).
  pose proof (map_block 3 Sv39_ok g alloc m2 ts2 0 k KERNEL_START_VIRTUAL _ _ T2 U2 R2) as B2.
  destruct (map 3 8 alloc g k _ _ _ m2) as [m3|]; cbn [mbind outcome_bind]; [|done].
  destruct B2 as (ts3 & T3 & Q3 & _).
  assert (Hq : forall x, 0 <= x < sz 3 -> tquery 3 (3 - 1) ts3 x = Val (hart_translation k x)).
  { intros x Hx. rewrite Q3, Q2, tquery_zeroed by done. by apply hart_ranges. }
  change (checked_add 64 KERNEL_START_VIRTUAL 0x1000) with (Val 0xffffffff80001000).
  cbn [mbind outcome_bind].
  rewrite (query_tree 3 Sv39_ok g m3 ts3) by (done || (split; [lia|reflexivity])).
  rewrite <-(tquery_mod 3) by lia. rewrite Hq by (apply Z.mod_pos_bound; reflexivity).
  change (0xffffffff80001000 mod sz 3) with 0x7f80001000.
  assert (Hprobe : hart_translation k 0x7f80001000 = Ok (k + 0x1000))
    by (unfold hart_translation; cbn; f_equal; lia).
  rewrite Hprobe. cbn [mbind outcome_bind]. rewrite (proj2 (Z.eqb_neq _ 0)) by lia. cbn [negb].
  change 4095 with (2 ^ 12 - 1). rewrite land_ones_mod by lia. change (2 ^ 12) with 4096.
  rewrite Htm. cbn [Z.eqb].
  destruct (hart_satp m t _ Hall) as (phys & -> & Hsatp). cbn [mbind outcome_bind]. rewrite Hsatp.
  split; [done|]. split; [done|]. by exists ts3.
Qed.
End HartTables.

(** A bump allocator in the kernel's heap; [words] is what its blocks hold. *)
Definition kernel_alloc (words : list Entry) (m : mem) : option (Z * list Entry) :=
  let p := 0xffffffc082000000 + 0x1000 * Z.of_nat (size m) in
  if bool_decide (m !! p = None) && (size m <? 1000)%nat then Some (p, words) else None.

Definition sample_globals : KernelGlobals :=
  {| SV_BITS := 39; GAP := 2 ^ 64 - 2 ^ 38; KERNEL_START_PHYSICAL := 0x80600000 |}.

Lemma kernel_alloc_spec words root :
  length words = 512%nat -> AllocSpec (kernel_paging sample_globals root) (kernel_alloc words).
Proof.
  intros Hl512.
  assert (Hinv : forall m p ws, kernel_alloc words m = Some (p, ws) ->
    p = 0xffffffc082000000 + 0x1000 * Z.of_nat (size m) /\ m !! p = None /\ (size m < 1000)%nat /\
    ws = words).
  { intros m p ws. unfold kernel_alloc. case_bool_decide as Hp; [|done]. cbn [andb].
    destruct (Nat.ltb_spec (size m) 1000); [|done]. by intros [= <- <-]. }
  split; intros m p ws H; apply Hinv in H as (Hp & Hn & Hs & ->); try done.
  split; [lia|]. exists (p - (2 ^ 64 - 2 ^ 38)). cbn [virt_to_phys phys_to_virt kernel_paging].
  unfold kvirt_to_phys, kphys_to_virt. cbn [GAP sample_globals].
  rewrite checked_sub_Val, checked_add_Val by lia. split; [done|]. split; [f_equal; lia|].
  split; [lia|]. subst p.
  replace (0xffffffc082000000 + 0x1000 * Z.of_nat (size m) - (2 ^ 64 - 2 ^ 38))
    with ((0x82000 + Z.of_nat (size m)) * 4096) by lia. by apply Z.mod_mul.
Qed.




(** A block some earlier owner left a word in: a valid gigapage leaf. *)
Definition dirty_words : list Entry := <[0%nat := mkEntry 0x2000000f]> (zeroed 8).

(** [Table::boxed_zeroed] does not write zeros; it returns the block with
    the words the allocator left in it.  With such a word in the block a hart
    runs with a mapping in the lower half that nobody asked for. *)
Theorem boxed_zeroed_keeps_words :
  (forall alloc m p words, alloc m = Some (p, words) ->
     boxed_zeroed alloc m = Val (<[p := words]> m, p)) /\
  ('(m, table, _) ← common_hart_tables (kernel_alloc dirty_words) sample_globals ∅;
   query 3 8 (kernel_paging sample_globals table) m 0x1234) = Val (Ok 0x80001234).
Proof.
  split; [intros alloc m p words Ha; unfold boxed_zeroed; by rewrite Ha|].
  vm_compute. reflexivity.
Qed.
