(* ===== verification/Cpu.v ===== *)
(** * kernel_trap_frame and kernel_cpu: the state of a hart

    [kernel_trap_frame/src/lib.rs] (the frame, its flags and its inheritance)
    and [kernel_cpu/src/lib.rs] (the register numbering, the CSR accessors, the
    interrupt context, the CSR constants).

    A hart is the record of the control registers the program reads or writes;
    [sscratch] is the address of a trap frame in a memory of frames.  The
    registers hold [usize] values; the program masks nothing on reading or
    writing them, and neither does the model (the bits hardware ignores are a
    matter of the platform). *)

From S2P Require Import Prelude.

(** ** Registers *)

Inductive Registers :=
  | Zero | Ra | Sp | Gp | Tp | T0 | T1 | T2 | S0 | S1
  | A0 | A1 | A2 | A3 | A4 | A5 | A6 | A7
  | S2 | S3 | S4 | S5 | S6 | S7 | S8 | S9 | S10 | S11
  | T3 | T4 | T5 | T6.

#[export] Instance Registers_eq_dec : EqDecision Registers.
Proof. solve_decision. Defined.

Definition all_registers : list Registers :=
  [Zero; Ra; Sp; Gp; Tp; T0; T1; T2; S0; S1; A0; A1; A2; A3; A4; A5; A6; A7;
   S2; S3; S4; S5; S6; S7; S8; S9; S10; S11; T3; T4; T5; T6].

(** [idx]: the discriminants count up from 0. *)
Definition idx (r : Registers) : Z :=
  match r with
  | Zero => 0 | Ra => 1 | Sp => 2 | Gp => 3 | Tp => 4 | T0 => 5 | T1 => 6 | T2 => 7
  | S0 => 8 | S1 => 9 | A0 => 10 | A1 => 11 | A2 => 12 | A3 => 13 | A4 => 14 | A5 => 15
  | A6 => 16 | A7 => 17 | S2 => 18 | S3 => 19 | S4 => 20 | S5 => 21 | S6 => 22 | S7 => 23
  | S8 => 24 | S9 => 25 | S10 => 26 | S11 => 27 | T3 => 28 | T4 => 29 | T5 => 30 | T6 => 31
  end.

(** ** Trap frames *)

Record TrapFrame := mkTrapFrame {
  general_registers : list Z;
  pc : Z;
  hartid : Z;
  pid : Z;
  interrupt_stack : Z;
  flags : Z;
  satp : Z;
  kernel_satp : Z;
  hart_locals : Z;
  process_raw_ptr : Z;
  restore_context : Z
}.

#[export] Instance TrapFrame_eq_dec : EqDecision TrapFrame.
Proof. solve_decision. Defined.

(** The words of the [repr(C)] structure: the assembly addresses them by index. *)
Definition frame_words (f : TrapFrame) : list Z :=
  general_registers f ++
  [pc f; hartid f; pid f; interrupt_stack f; flags f; satp f; kernel_satp f; hart_locals f;
   process_raw_ptr f; restore_context f].

Definition set_flags (f : TrapFrame) (v : Z) : TrapFrame :=
  mkTrapFrame (general_registers f) (pc f) (hartid f) (pid f) (interrupt_stack f) v (satp f)
    (kernel_satp f) (hart_locals f) (process_raw_ptr f) (restore_context f).

Module TrapFrame.

Definition zeroed : TrapFrame := mkTrapFrame (replicate 32 0) 0 0 0 0 0 0 0 0 0 0.

Definition zeroed_interrupt_context : TrapFrame := set_flags zeroed 1.

Definition inherit_from (self other : TrapFrame) : TrapFrame :=
  mkTrapFrame (general_registers self) (pc self) (hartid other) (pid self) (interrupt_stack other)
    (flags other) (satp other) (kernel_satp self) (hart_locals other) (process_raw_ptr self)
    (restore_context self).

Definition is_interrupt_context (self : TrapFrame) : bool := negb (Z.land (flags self) 1 =? 0).
Definition has_trapped_before (self : TrapFrame) : bool := negb (Z.land (flags self) 2 =? 0).
Definition is_double_faulting (self : TrapFrame) : bool := negb (Z.land (flags self) 4 =? 0).
Definition is_in_fault_trap (self : TrapFrame) : bool := negb (Z.land (flags self) 8 =? 0).

Definition set_interrupt_context (self : TrapFrame) : TrapFrame :=
  set_flags self (Z.lor (flags self) 1).
Definition set_trapped_before (self : TrapFrame) : TrapFrame :=
  set_flags self (Z.lor (flags self) 2).
Definition set_double_faulting (self : TrapFrame) : TrapFrame :=
  set_flags self (Z.lor (flags self) 4).
Definition set_in_fault_trap (self : TrapFrame) : TrapFrame :=
  set_flags self (Z.lor (flags self) 8).
Definition clear_in_fault_trap (self : TrapFrame) : TrapFrame :=
  set_flags self (Z.land (flags self) (unot 8)).

End TrapFrame.

(** ** Control and status registers *)

Record Hart := mkHart {
  sie : Z;
  sip : Z;
  stvec : Z;
  satp_csr : Z;
  sstatus : Z;
  sscratch : Z;
  stval : Z;
  scause : Z;
  time : Z;
  cycle : Z;
  instret : Z;
  sp : Z
}.

#[export] Instance Hart_eq_dec : EqDecision Hart.
Proof. solve_decision. Defined.

Definition write_sie (h : Hart) (v : Z) : Hart :=
  mkHart v (sip h) (stvec h) (satp_csr h) (sstatus h) (sscratch h) (stval h) (scause h) (time h)
    (cycle h) (instret h) (sp h).
Definition write_sip (h : Hart) (v : Z) : Hart :=
  mkHart (sie h) v (stvec h) (satp_csr h) (sstatus h) (sscratch h) (stval h) (scause h) (time h)
    (cycle h) (instret h) (sp h).
Definition write_stvec (h : Hart) (v : Z) : Hart :=
  mkHart (sie h) (sip h) v (satp_csr h) (sstatus h) (sscratch h) (stval h) (scause h) (time h)
    (cycle h) (instret h) (sp h).
Definition write_satp (h : Hart) (v : Z) : Hart :=
  mkHart (sie h) (sip h) (stvec h) v (sstatus h) (sscratch h) (stval h) (scause h) (time h)
    (cycle h) (instret h) (sp h).
Definition write_sstatus (h : Hart) (v : Z) : Hart :=
  mkHart (sie h) (sip h) (stvec h) (satp_csr h) v (sscratch h) (stval h) (scause h) (time h)
    (cycle h) (instret h) (sp h).
Definition write_sscratch (h : Hart) (v : Z) : Hart :=
  mkHart (sie h) (sip h) (stvec h) (satp_csr h) (sstatus h) v (stval h) (scause h) (time h)
    (cycle h) (instret h) (sp h).

Definition read_sie := sie.
Definition read_sip := sip.
Definition read_satp := satp_csr.
Definition read_sstatus := sstatus.
Definition read_sscratch := sscratch.
Definition read_stval := stval.
Definition read_scause := scause.
Definition read_time := time.
Definition read_cycle := cycle.
Definition read_instret := instret.
Definition read_sp := sp.

(** *** Through [sscratch] *)

Abbreviation frames := (gmap Z TrapFrame).

(** [( *p).field]: a dereference. *)
Definition load_frame (m : frames) (p : Z) : outcome TrapFrame :=
  match m !! p with Some f => Val f | None => Stop Undefined end.

(** [p.as_ref().unwrap()]: the null pointer panics. *)
Definition frame_ref (m : frames) (p : Z) : outcome TrapFrame :=
  if p =? 0 then Stop UnwrapFailed else load_frame m p.

Definition load_hartid (h : Hart) (m : frames) : outcome Z :=
  f ← load_frame m (read_sscratch h); Val (hartid f).

Definition in_interrupt_context (h : Hart) (m : frames) : outcome bool :=
  if read_sscratch h =? 0 then Val true
  else f ← frame_ref m (read_sscratch h); Val (TrapFrame.is_interrupt_context f).

Definition set_interrupt_context (h : Hart) (m : frames) : outcome frames :=
  f ← load_frame m (read_sscratch h);
  Val (<[read_sscratch h := set_flags f (Z.lor (flags f) 1)]> m).

Definition clear_interrupt_context (h : Hart) (m : frames) : outcome frames :=
  f ← load_frame m (read_sscratch h);
  Val (<[read_sscratch h := set_flags f (Z.land (flags f) (unot 1))]> m).

(** [0xF << 62] on [u64]: the upper two bits are shifted out. *)
Definition is_paging_enabled (h : Hart) : bool :=
  negb (Z.land (read_satp h) (ushl 0xF 62) =? 0).

Module csr.

Definition USIP : Z := 2 ^ 0.
Definition SSIP : Z := 2 ^ 1.
Definition MSIP : Z := 2 ^ 3.
Definition UTIP : Z := 2 ^ 4.
Definition STIP : Z := 2 ^ 5.
Definition MTIP : Z := 2 ^ 7.
Definition UEIP : Z := 2 ^ 8.
Definition SEIP : Z := 2 ^ 9.
Definition MEIP : Z := 2 ^ 11.
Definition USIE : Z := 2 ^ 0.
Definition SSIE : Z := 2 ^ 1.
Definition MSIE : Z := 2 ^ 3.
Definition UTIE : Z := 2 ^ 4.
Definition STIE : Z := 2 ^ 5.
Definition MTIE : Z := 2 ^ 7.
Definition UEIE : Z := 2 ^ 8.
Definition SEIE : Z := 2 ^ 9.
Definition MEIE : Z := 2 ^ 11.

(** The module [status]. *)
Definition SIE : Z := 2 ^ 1.
Definition MIE : Z := 2 ^ 3.
Definition SPIE : Z := 2 ^ 5.
Definition MPIE : Z := 2 ^ 7.

(** The module [cause]. *)
Definition SUPERVISOR_SOFTWARE : Z := 1.
Definition VIRTUAL_SUPERVISOR_SOFTWARE : Z := 2.
Definition MACHINE_SOFTWARE : Z := 3.
Definition SUPERVISOR_TIMER : Z := 5.
Definition VIRTUAL_SUPERVISOR_TIMER : Z := 6.
Definition MACHINE_TIMER : Z := 7.
Definition SUPERVISOR_EXTERNAL : Z := 9.
Definition VIRTUAL_SUPERVISOR_EXTERNAL : Z := 10.
Definition MACHINE_EXTERNAL : Z := 11.
Definition SUPERVISOR_GUEST_EXTERNAL : Z := 12.

Definition SATP_BARE : Z := 0.
Definition SATP_SV32 : Z := 2 ^ 30.
Definition SATP_SV39 : Z := 8 * 2 ^ 60.
Definition SATP_SV48 : Z := 9 * 2 ^ 60.

Definition XCAUSE_DESCRIPTION : list string :=
  ["Instruction address misaligned"; "Instruction access fault"; "Illegal instruction";
   "Breakpoint"; "Load address misaligned"; "Load access fault"; "Store/AMO address misaligned";
   "Store/AMO access fault"; "Enviornment call from U-mode"; "Enviornment call from S-mode";
   "<Reserved>"; "Enviornment call from M-mode"; "Instruction page fault"; "Load page fault";
   "<Reserved>"; "Store/AMO page fault"]%string.

End csr.

Definition get_xcause_explanation (cause : Z) : outcome string :=
  index csr.XCAUSE_DESCRIPTION cause.

(** ** Lemmas *)

Lemma land_pow2_eqb v k : 0 <= k -> (Z.land v (2 ^ k) =? 0) = negb (Z.testbit v k).
Proof.
  intros Hk. assert (E : Z.land v (2 ^ k) = if Z.testbit v k then 2 ^ k else 0).
  { apply Z.bits_inj'; intros i Hi. rewrite Z.land_spec, Z.pow2_bits_eqb by done.
    destruct (Z.eqb_spec k i) as [->|].
    - destruct (Z.testbit v i) eqn:E; [by rewrite Z.pow2_bits_true|by rewrite Z.testbit_0_l].
    - rewrite andb_false_r. destruct (Z.testbit v k); [|by rewrite Z.testbit_0_l].
      by rewrite Z.pow2_bits_false by lia. }
  rewrite E. destruct (Z.testbit v k); [apply Z.eqb_neq; lia|done].
Qed.

(** The predicates of a frame are the bits of its flags. *)
Lemma frame_predicates f :
  TrapFrame.is_interrupt_context f = Z.testbit (flags f) 0 /\
  TrapFrame.has_trapped_before f = Z.testbit (flags f) 1 /\
  TrapFrame.is_double_faulting f = Z.testbit (flags f) 2 /\
  TrapFrame.is_in_fault_trap f = Z.testbit (flags f) 3.
Proof.
  unfold TrapFrame.is_interrupt_context, TrapFrame.has_trapped_before,
    TrapFrame.is_double_faulting, TrapFrame.is_in_fault_trap.
  change 8 with (2 ^ 3). change 4 with (2 ^ 2). change 2 with (2 ^ 1) at 1.
  change 1 with (2 ^ 0) at 1. rewrite !land_pow2_eqb, !negb_involutive by lia. done.
Qed.

Lemma testbit_set v k n : 0 <= k -> 0 <= n -> Z.testbit (Z.lor v (2 ^ k)) n = (n =? k) || Z.testbit v n.
Proof.
  intros Hk Hn. rewrite Z.lor_spec, Z.pow2_bits_eqb, orb_comm by done. by rewrite (Z.eqb_sym k).
Qed.

(** The four flags as a vector, and its update. *)
Definition flag_vector (f : TrapFrame) : list bool :=
  [TrapFrame.is_interrupt_context f; TrapFrame.has_trapped_before f;
   TrapFrame.is_double_faulting f; TrapFrame.is_in_fault_trap f].

(** Each setter of a trap frame sets its own flag and no other,
    [clear_in_fault_trap] clears its flag and no other, and none touches the
    registers or any other word of the frame. *)
Theorem trap_frame_flags f :
  is_usize (flags f) ->
  flag_vector (TrapFrame.set_interrupt_context f) = <[0%nat := true]> (flag_vector f) /\
  flag_vector (TrapFrame.set_trapped_before f) = <[1%nat := true]> (flag_vector f) /\
  flag_vector (TrapFrame.set_double_faulting f) = <[2%nat := true]> (flag_vector f) /\
  flag_vector (TrapFrame.set_in_fault_trap f) = <[3%nat := true]> (flag_vector f) /\
  flag_vector (TrapFrame.clear_in_fault_trap f) = <[3%nat := false]> (flag_vector f) /\
  forall g, g ∈ [TrapFrame.set_interrupt_context f; TrapFrame.set_trapped_before f;
                 TrapFrame.set_double_faulting f; TrapFrame.set_in_fault_trap f;
                 TrapFrame.clear_in_fault_trap f] ->
    is_usize (flags g) /\ set_flags g (flags f) = f.
Proof.
  intros Hu.
  assert (Hv : forall f, flag_vector f = [Z.testbit (flags f) 0; Z.testbit (flags f) 1;
                                          Z.testbit (flags f) 2; Z.testbit (flags f) 3]).
  { intros g. unfold flag_vector. destruct (frame_predicates g) as (-> & -> & -> & ->). done. }
  assert (Hs : forall k n, 0 <= k -> 0 <= n ->
            Z.testbit (flags (set_flags f (Z.lor (flags f) (2 ^ k)))) n = (n =? k) || Z.testbit (flags f) n)
    by (intros; by apply testbit_set).
  assert (Hc : forall n, 0 <= n < 64 ->
            Z.testbit (flags (TrapFrame.clear_in_fault_trap f)) n = negb (n =? 3) && Z.testbit (flags f) n).
  { intros n Hn. cbn [TrapFrame.clear_in_fault_trap set_flags flags].
    rewrite Z.land_spec, testbit_unot. change 8 with (2 ^ 3). rewrite Z.pow2_bits_eqb by lia.
    rewrite (Z.eqb_sym 3), (proj2 (Z.leb_le 0 n)), (proj2 (Z.ltb_lt n 64)) by lia.
    by destruct (n =? 3), (Z.testbit (flags f) n). }
  rewrite !Hv. rewrite !Hc by lia.
  unfold TrapFrame.set_interrupt_context, TrapFrame.set_trapped_before,
    TrapFrame.set_double_faulting, TrapFrame.set_in_fault_trap.
  rewrite (Hs 0), !(Hs 0), !(Hs 1), !(Hs 2), !(Hs 3) by lia.
  do 5 (split; [done|]).
  intros g Hg. destruct f as [regs p h i s fl sa ks hl pr rc]. cbn [flags] in Hu.
  assert (forall k, 0 <= k < 64 -> is_usize (2 ^ k))
    by (intros k Hk; split; [lia|apply Z.pow_lt_mono_r; lia]).
  rewrite !elem_of_cons, elem_of_nil in Hg.
  destruct Hg as [->|[->|[->|[->|[->|[]]]]]]; (split; [|done]); cbn [set_flags flags TrapFrame.clear_in_fault_trap];
    try (apply lor_usize; [done|split; [lia|reflexivity]]).
  apply land_usize; [done|]. by vm_compute.
Qed.

Lemma trap_frame_flags_witness :
  flag_vector (TrapFrame.clear_in_fault_trap (set_flags TrapFrame.zeroed 13)) = [true; false; true; false].
Proof.
  destruct (trap_frame_flags (set_flags TrapFrame.zeroed 13)) as (_ & _ & _ & _ & H & _);
    [split; [cbn [flags set_flags]; lia|reflexivity]|].
  rewrite H. vm_compute. reflexivity.
Defined.
