(* ===== verification/Sbi.v ===== *)
(** * kernel_sbi and kernel_main's timer and trap handler

    [kernel_sbi/src/lib.rs] (the calls into the machine-mode firmware),
    [kernel_main/src/timer.rs] and [kernel_main/src/trap_handler.rs].

    The firmware is outside the repository: [ecall] takes its state, the
    extension, the function and the arguments and gives the two return
    registers.  Text the kernel prints is a list of [Message]s; the assembly
    routine [switch_to_supervisor_frame] does not return, so a handler ends with
    the frame it switches to, if any. *)

From S2P Require Import Prelude Cpu.

(** ** Errors *)

Inductive SBIError :=
  | Success | Failed | NotSupported | InvalidParam | Denied | InvalidAddress
  | AlreadyAvailable | AlreadyStarted | AlreadyStopped | Unknown.

#[export] Instance SBIError_eq_dec : EqDecision SBIError.
Proof. solve_decision. Defined.

Definition from_isize (v : Z) : SBIError :=
  if v =? 0 then Success
  else if v =? -1 then Failed
  else if v =? -2 then NotSupported
  else if v =? -3 then InvalidParam
  else if v =? -4 then Denied
  else if v =? -5 then InvalidAddress
  else if v =? -6 then AlreadyAvailable
  else if v =? -7 then AlreadyStarted
  else if v =? -8 then AlreadyStopped
  else Unknown.

(** [transmute::<usize, isize>] and back. *)
Definition to_isize (v : Z) : Z := if v <? 2 ^ 63 then v else v - 2 ^ 64.
Definition to_usize (v : Z) : Z := v mod 2 ^ 64.

(** The error code the SBI specification gives each error. *)
Definition sbi_code (e : SBIError) : option Z :=
  match e with
  | Success => Some 0 | Failed => Some (-1) | NotSupported => Some (-2)
  | InvalidParam => Some (-3) | Denied => Some (-4) | InvalidAddress => Some (-5)
  | AlreadyAvailable => Some (-6) | AlreadyStarted => Some (-7) | AlreadyStopped => Some (-8)
  | Unknown => None
  end.

(** ** Calls *)

Section Calls.
Context {F : Type} (ecall : F -> Z -> Z -> list Z -> F * (Z * Z)).

(** The four [call_sbi_n] differ in the number of argument registers. *)
Definition call_sbi (fw : F) (extension_id function_id : Z) (args : list Z)
  : F * Result Z SBIError :=
  let '(fw, (error_code, return_value)) := ecall fw extension_id function_id args in
  (fw, if error_code =? 0 then Ok return_value else Err (from_isize (to_isize return_value))).

Definition call_sbi_0 (fw : F) (eid fid : Z) := call_sbi fw eid fid [].
Definition call_sbi_1 (fw : F) (eid fid a0 : Z) := call_sbi fw eid fid [a0].
Definition call_sbi_2 (fw : F) (eid fid a0 a1 : Z) := call_sbi fw eid fid [a0; a1].
Definition call_sbi_3 (fw : F) (eid fid a0 a1 a2 : Z) := call_sbi fw eid fid [a0; a1; a2].

(** [result.map(|_| ())] *)
Definition erase {A} (r : F * Result A SBIError) : F * Result unit SBIError :=
  (r.1, match r.2 with Ok _ => Ok tt | Err e => Err e end).

Definition set_absolute_timer (fw : F) (time : Z) : F * Result unit SBIError :=
  erase (call_sbi_1 fw 0x54494D45 0 time).
Definition shutdown (fw : F) (reason : Z) : F := (call_sbi_2 fw 0x53525354 0 0 reason).1.
Definition start_hart (fw : F) (hartid start_addr opaque : Z) : F * Result unit SBIError :=
  erase (call_sbi_3 fw 0x48534D 0 hartid start_addr opaque).
Definition hart_get_status (fw : F) (hartid : Z) : F * Result Z SBIError :=
  call_sbi_1 fw 0x48534D 2 hartid.

(** [timer.rs] *)
Definition set_relative_timer (h : Hart) (fw : F) (t : Z) : F :=
  (set_absolute_timer fw (saturating_add (read_time h) t)).1.

(** [from_isize] inverts the codes of the SBI specification, and maps every
    other value to [Unknown]; the transmutations are inverse. *)
Theorem sbi_codes_roundtrip :
  (forall e c, sbi_code e = Some c -> from_isize (to_isize (to_usize c)) = e) /\
  (forall v, (forall e, sbi_code e <> Some v) -> from_isize v = Unknown) /\
  (forall v, is_usize v -> to_usize (to_isize v) = v).
Proof.
  split; [|split].
  - intros [] c [= <-]; reflexivity.
  - intros v Hv. unfold from_isize.
    assert (Hne : forall e c, sbi_code e = Some c -> (v =? c) = false).
    { intros e c Hc. apply Z.eqb_neq. intros ->. by apply (Hv e). }
    by rewrite (Hne Success 0), (Hne Failed (-1)), (Hne NotSupported (-2)), (Hne InvalidParam (-3)),
      (Hne Denied (-4)), (Hne InvalidAddress (-5)), (Hne AlreadyAvailable (-6)),
      (Hne AlreadyStarted (-7)), (Hne AlreadyStopped (-8)).
  - intros v Hv. unfold is_usize in Hv. unfold to_usize, to_isize.
    destruct (Z.ltb_spec v (2 ^ 63)); [by apply Z.mod_small|].
    symmetry. apply Z.mod_unique with (-1); lia.
Qed.

(** An error of the firmware is lost.  Whatever error code the firmware
    returns, the result is decoded from the value register, so a firmware that
    reports [InvalidParam] with value 0 (as the specification allows) makes
    [start_hart] answer [Err Success]. *)
Theorem call_sbi_error_from_value fw eid fid args fw' code v :
  ecall fw eid fid args = (fw', (code, v)) ->
  call_sbi fw eid fid args =
    (fw', if code =? 0 then Ok v else Err (from_isize (to_isize v))) /\
  (code <> 0 -> v = 0 -> call_sbi fw eid fid args = (fw', Err Success)).
Proof.
  intros E. unfold call_sbi. rewrite E. split; [done|]. intros Hc ->.
  by rewrite (proj2 (Z.eqb_neq code 0)).
Qed.
End Calls.

(** A firmware that has one hart and knows no other. *)
Definition one_hart_firmware (fw : list Z) (eid fid : Z) (args : list Z) : list Z * (Z * Z) :=
  if eid =? 0x54494D45 then (fw ++ args, (0, 0)) else (fw, (to_usize (-3), 0)).

Lemma call_sbi_error_from_value_witness :
  start_hart one_hart_firmware [] 7 0x80200000 0 = ([], Err Success).
Proof.
  pose proof (call_sbi_error_from_value one_hart_firmware [] 0x48534D 0 [7; 0x80200000; 0] []
    (to_usize (-3)) 0 eq_refl) as [_ H].
  specialize (H ltac:(vm_compute; discriminate) eq_refl).
  unfold start_hart, call_sbi_3, erase. rewrite H. reflexivity.
Defined.

(** ** The trap handler *)

Inductive Message :=
  | UnknownInterrupt (cause : Z)
  | ErrorMessage (what : string).

Section Trap.
Context {F : Type} (ecall : F -> Z -> Z -> list Z -> F * (Z * Z)).

Record TrapState := mkTrapState {
  trap_hart : Hart;
  firmware : F;
  printed : list Message
}.

Definition make_interrupt_nonpending (s : TrapState) (cause : Z) : TrapState :=
  if cause =? csr.SUPERVISOR_TIMER then
    mkTrapState (trap_hart s) (set_absolute_timer ecall (firmware s) (2 ^ 64 - 1)).1 (printed s)
  else if cause =? csr.SUPERVISOR_SOFTWARE then
    mkTrapState (write_sip (trap_hart s) (Z.land (read_sip (trap_hart s)) (unot csr.SSIP)))
      (firmware s) (printed s)
  else if cause =? csr.SUPERVISOR_EXTERNAL then s
  else mkTrapState (trap_hart s) (firmware s) (printed s ++ [UnknownInterrupt cause]).

(** The frame the handler switches to; [None] when it returns. *)
Definition trap_handler (m : frames) (s : TrapState) : outcome (TrapState * option Z) :=
  let cause := read_scause (trap_hart s) in
  let is_interrupt := negb (Z.shiftr cause (64 - 1) =? 0) in
  let cause := Z.shiftr (ushl cause 1) 1 in
  s ← (if is_interrupt then Val (make_interrupt_nonpending s cause)
       else description ← index csr.XCAUSE_DESCRIPTION cause;
            Val (mkTrapState (trap_hart s) (firmware s) (printed s ++ [ErrorMessage description])));
  frame ← load_frame m (read_sscratch (trap_hart s));
  let ctx := restore_context frame in
  Val (s, if negb (ctx =? 0) then Some ctx else None).

(** The cause register: an interrupt bit above an exception code. *)
Definition interrupt_cause (code : Z) : Z := 2 ^ 63 + code.

Lemma cause_split code :
  0 <= code < 2 ^ 63 ->
  Z.shiftr code (64 - 1) = 0 /\ Z.shiftr (ushl code 1) 1 = code /\
  Z.shiftr (interrupt_cause code) (64 - 1) = 1 /\ Z.shiftr (ushl (interrupt_cause code) 1) 1 = code.
Proof.
  intros Hc. unfold interrupt_cause, ushl. change (64 - 1) with 63.
  rewrite !Z.shiftr_div_pow2, !Z.shiftl_mul_pow2 by lia.
  assert (E1 : (code * 2 ^ 1) mod 2 ^ 64 = code * 2) by (apply Z.mod_small; lia).
  assert (E2 : ((2 ^ 63 + code) * 2 ^ 1) mod 2 ^ 64 = code * 2)
    by (symmetry; apply Z.mod_unique with 1; lia).
  rewrite E1, E2. change (2 ^ 1) with 2. rewrite Z.div_mul by lia.
  split; [by apply Z.div_small|]. split; [done|]. split; [|done].
  symmetry. apply Z.div_unique with code; lia.
Qed.

(** C25: what the trap handler does, for each kind of trap.  A software
    interrupt clears the pending bit and no other bit of [sip]; a timer
    interrupt moves the deadline to the end of time; an external one changes
    nothing; other interrupts and the sixteen exceptions print; an exception
    code beyond the table panics.  In every case that does not panic, control
    goes to the frame's [restore_context] when there is one. *)
Theorem trap_handler_spec m s frame code :
  0 <= code < 2 ^ 63 -> m !! sscratch (trap_hart s) = Some frame ->
  let next := if negb (restore_context frame =? 0) then Some (restore_context frame) else None in
  (scause (trap_hart s) = interrupt_cause code ->
     exists s', trap_handler m s = Val (s', next) /\
       sscratch (trap_hart s') = sscratch (trap_hart s) /\
       (code = 1 -> firmware s' = firmware s /\ printed s' = printed s /\
          forall n, 0 <= n < 64 ->
            Z.testbit (sip (trap_hart s')) n = negb (n =? 1) && Z.testbit (sip (trap_hart s)) n) /\
       (code = 5 -> trap_hart s' = trap_hart s /\
          firmware s' = (ecall (firmware s) 0x54494D45 0 [2 ^ 64 - 1]).1) /\
       (code = 9 -> s' = s) /\
       (code <> 1 -> code <> 5 -> code <> 9 ->
          s' = mkTrapState (trap_hart s) (firmware s) (printed s ++ [UnknownInterrupt code]))) /\
  (scause (trap_hart s) = code -> code < 16 ->
     exists what, csr.XCAUSE_DESCRIPTION !! Z.to_nat code = Some what /\
       trap_handler m s
       = Val (mkTrapState (trap_hart s) (firmware s) (printed s ++ [ErrorMessage what]), next)) /\
  (scause (trap_hart s) = code -> 16 <= code -> trap_handler m s = Stop IndexOutOfBounds).
Proof.
  intros Hc Hm next. destruct (cause_split code Hc) as (E1 & E2 & E3 & E4).
  split; [|split]; intros Hs; unfold trap_handler, read_scause; rewrite Hs.
  - rewrite E3, E4. cbn [Z.eqb negb mbind outcome_bind].
    exists (make_interrupt_nonpending s code).
    assert (Hsc : sscratch (trap_hart (make_interrupt_nonpending s code)) = sscratch (trap_hart s))
      by (unfold make_interrupt_nonpending; by repeat case_match).
    unfold read_sscratch, load_frame. rewrite Hsc, Hm. cbn [mbind outcome_bind].
    split; [done|]. split; [done|].
    unfold make_interrupt_nonpending, csr.SUPERVISOR_TIMER, csr.SUPERVISOR_SOFTWARE, csr.SUPERVISOR_EXTERNAL.
    split; [|split; [|split]].
    + intros ->. cbn [Z.eqb trap_hart firmware printed write_sip sip read_sip Pos.eqb].
      split; [done|]. split; [done|]. intros n Hn. unfold csr.SSIP.
      rewrite Z.land_spec, testbit_unot, Z.pow2_bits_eqb by lia.
      rewrite (Z.eqb_sym 1), (proj2 (Z.leb_le 0 n)), (proj2 (Z.ltb_lt n 64)) by lia.
      unfold read_sip. by destruct (n =? 1), (Z.testbit (sip (trap_hart s)) n).
    + intros ->. cbn [Z.eqb Pos.eqb trap_hart firmware]. split; [done|].
      unfold set_absolute_timer, call_sbi_1, call_sbi, erase. by destruct (ecall _ _ _ _) as [? []].
    + by intros ->.
    + intros H1 H5 H9. by rewrite !(proj2 (Z.eqb_neq _ _)) by done.
  - intros H16. rewrite E1, E2. cbn [Z.eqb negb].
    destruct (lookup_lt_is_Some_2 csr.XCAUSE_DESCRIPTION (Z.to_nat code)) as [what Hw];
      [cbn [length csr.XCAUSE_DESCRIPTION]; lia|].
    exists what. split; [done|]. rewrite (index_Val _ _ what) by (done || lia).
    cbn [mbind outcome_bind trap_hart]. unfold read_sscratch, load_frame. by rewrite Hm.
  - intros H16. rewrite E1, E2. cbn [Z.eqb negb]. unfold index.
    rewrite (proj2 (Z.ltb_ge _ _)), (proj2 (lookup_ge_None _ _)) by (cbn; lia). done.
Qed.
End Trap.

Arguments mkTrapState {F}.

Definition sample_hart (cause : Z) : Hart :=
  mkHart 0x222 0x202 0 0 0 0x1000 0 cause 0 0 0 0.

Lemma trap_handler_spec_witness :
  exists s', trap_handler one_hart_firmware {[ 0x1000 := TrapFrame.zeroed ]}
               (mkTrapState (sample_hart (interrupt_cause 5)) [] []) = Val (s', None).
Proof.
  destruct (trap_handler_spec one_hart_firmware {[ 0x1000 := TrapFrame.zeroed ]}
    (mkTrapState (sample_hart (interrupt_cause 5)) [] []) TrapFrame.zeroed 5) as [H _];
    [lia|reflexivity|].
  destruct (H eq_refl) as (s' & Hs & _). exists s'. exact Hs.
Defined.
