(* ===== verification/Process.v ===== *)
(** * kernel_process, kernel_syscall and kernel_util

    [kernel_process/src/lib.rs], [kernel_syscall/src/syscall.rs] and the
    aligned allocations of [kernel_util/src/lib.rs], with [setup_hart_trap_frame]
    and [setup_hart_state_and_metadata] of [kernel_main/src/main.rs].

    Outside the model, as parameters: the global allocator ([alloc], which
    answers a block's address, 0 for none), and the assembly that runs a process
    until the next trap brings the hart back ([execute]); TrapAsm has that
    assembly, with [run] and the frames. *)

From S2P Require Import Prelude Cpu.

(** ** kernel_util *)

(** [Layout::from_size_align]: the alignment is a power of two and the size,
    rounded up to it, fits an [isize]. *)
Definition layout_ok (size align : Z) : bool :=
  (0 <? align) && (align =? 2 ^ Z.log2 align) && (size <=? 2 ^ 63 - 1 - (align - 1)).

Section Util.
Context (alloc : Z -> Z -> Z).

(** [boxed_slice_with_alignment]: the address and the elements. *)
Definition boxed_slice_with_alignment {T} (size_of size align : Z) (initialize : T)
  : outcome (Z * list T) :=
  bytes ← checked_mul 64 size size_of;
  if layout_ok bytes align then
    let ptr := alloc bytes align in
    if (ptr =? 0) && (0 <? size) then Stop Undefined
    else Val (ptr, replicate (Z.to_nat size) initialize)
  else Stop UnwrapFailed.

Definition boxed_slice_with_alignment_uninit (size_of size align : Z) : outcome (Z * Z) :=
  bytes ← checked_mul 64 size size_of;
  if layout_ok bytes align then Val (alloc bytes align, size) else Stop UnwrapFailed.
End Util.

(** ** kernel_process *)

Inductive ProcessState := Running | Paused | Exited.

#[export] Instance ProcessState_eq_dec : EqDecision ProcessState.
Proof. solve_decision. Defined.

(** [kernel_allocated_stack] is the slice: its address and its bytes. *)
Record Process := mkProcess {
  is_supervisor : bool;
  trap_frame : TrapFrame;
  name : option string;
  state : ProcessState;
  kernel_allocated_stack : option (Z * list Z)
}.

Definition default_process : Process := mkProcess false TrapFrame.zeroed None Paused None.

Definition set_state (p : Process) (s : ProcessState) : Process :=
  mkProcess (is_supervisor p) (trap_frame p) (name p) s (kernel_allocated_stack p).
Definition set_trap_frame (p : Process) (f : TrapFrame) : Process :=
  mkProcess (is_supervisor p) f (name p) (state p) (kernel_allocated_stack p).

Definition set_satps (f : TrapFrame) (satp kernel_satp : Z) : TrapFrame :=
  mkTrapFrame (general_registers f) (pc f) (hartid f) (pid f) (interrupt_stack f) (flags f) satp
    kernel_satp (hart_locals f) (process_raw_ptr f) (restore_context f).
Definition set_restore_context (f : TrapFrame) (ctx : Z) : TrapFrame :=
  mkTrapFrame (general_registers f) (pc f) (hartid f) (pid f) (interrupt_stack f) (flags f) (satp f)
    (kernel_satp f) (hart_locals f) (process_raw_ptr f) ctx.

(** [run], the function the assembly calls with the saved frame. *)
Definition run (frame : Z) (p : Process) : Process :=
  set_trap_frame p (set_restore_context (trap_frame p) frame).

(** The frame that will bring the hart back here. *)
Definition return_frame (h : Hart) (m : frames) : outcome TrapFrame :=
  other ← frame_ref m (read_sscratch h);
  let mine := TrapFrame.inherit_from TrapFrame.zeroed_interrupt_context other in
  Val (set_satps mine (read_satp h) (read_satp h)).

Definition switch_to_and_come_back (h : Hart) (m : frames)
  (execute : Process -> TrapFrame -> outcome Process) (frame : Z) (self : Process)
  : outcome Process :=
  mine ← return_frame h m;
  let self := set_state self Running in
  self ← execute (run frame self) mine;
  Val (set_state self Paused).

(** [new_supervisor], up to the [Arc<Mutex>] around the result. *)
Definition new_supervisor (alloc : Z -> Z -> Z) (h : Hart) (m : frames)
  (constructor : Process -> Process) (function : Z) : outcome Process :=
  '(stack, bytes) ← boxed_slice_with_alignment alloc 1 (4096 * 2) 4096 0;
  let this := mkProcess true TrapFrame.zeroed None Paused (Some (stack, bytes)) in
  let f := trap_frame this in
  registers ← index_mut (general_registers f) (idx Sp) stack;
  this_frame ← frame_ref m (read_sscratch h);
  let f := mkTrapFrame registers function (hartid f) (pid f) (interrupt_stack this_frame) (flags f)
             (satp this_frame) (satp this_frame) (hart_locals f) (process_raw_ptr f)
             (restore_context f) in
  Val (constructor (set_trap_frame this f)).

(** ** kernel_main: the frame of a hart *)

(** [Box::new] of the frame and of the hart's locals are addresses the caller
    chooses here. *)
Definition setup_hart_trap_frame (hartid locals : Z) : TrapFrame :=
  let f := TrapFrame.zeroed in
  let f := mkTrapFrame (general_registers f) (pc f) hartid (pid f) (interrupt_stack f) (flags f)
             (satp f) (kernel_satp f) (hart_locals f) (process_raw_ptr f) (restore_context f) in
  let f := TrapFrame.set_interrupt_context f in
  mkTrapFrame (general_registers f) (pc f) hartid (pid f) (interrupt_stack f) (flags f)
    (satp f) (kernel_satp f) locals (process_raw_ptr f) (restore_context f).

Definition setup_hart_state_and_metadata (alloc : Z -> Z -> Z) (s_trap_vector frame locals : Z)
  (h : Hart) (m : frames) (hartid : Z) : outcome (Hart * frames) :=
  let h := write_stvec h s_trap_vector in
  let h := write_sstatus h (Z.lor (read_sstatus h) csr.SIE) in
  let f := setup_hart_trap_frame hartid locals in
  '(stack, size) ← boxed_slice_with_alignment_uninit alloc 1 4096 4096;
  stack_addr ← checked_add 64 stack size;
  let f := mkTrapFrame (general_registers f) (pc f) hartid 1 stack_addr (flags f)
             (read_satp h) (read_satp h) locals (process_raw_ptr f) (restore_context f) in
  Val (write_sscratch h frame, <[frame := f]> m).

(** ** kernel_syscall *)

Inductive SyscallNumbers := Exit | UnknownSyscall.

(** The derived [From<usize>]: 1 is [Exit], every other value the default. *)
Definition syscall_number (v : Z) : SyscallNumbers := if v =? 1 then Exit else UnknownSyscall.

(** The last of the registers [a0] to [a7]: the slice's end. *)
Definition syscall_register (p : Process) : outcome Z :=
  let arguments := take (Z.to_nat (idx A7 - idx A0 + 1))
                     (drop (Z.to_nat (idx A0)) (general_registers (trap_frame p))) in
  if (length (general_registers (trap_frame p)) <=? Z.to_nat (idx A7))%nat
  then Stop IndexOutOfBounds
  else unwrap! (arguments !! Nat.pred (length arguments)) as v;; Val v.

(** [do_syscall].  The names of the variants are not in scope there, so the
    pattern [Exit] is a fresh variable that matches every number. *)
Definition do_syscall (p : Process) : outcome Process :=
  v ← syscall_register p;
  let number := syscall_number v in
  match number with
  | Exit_binding => Val (set_state p Exited)
  end.

Definition do_syscall_and_drop_if_exit (p : Process) : outcome (option Process) :=
  p ← do_syscall p;
  match state p with
  | Exited => Val None
  | _ => Val (Some p)
  end.

(** ** Properties *)

Lemma register_count p v :
  length (general_registers (trap_frame p)) = 32%nat ->
  general_registers (trap_frame p) !! 17%nat = Some v -> syscall_register p = Val v.
Proof.
  intros Hl Hv. unfold syscall_register. rewrite Hl. cbn [idx Nat.leb].
  change (Z.to_nat 17) with 17%nat. cbn [Nat.leb].
  change (Z.to_nat (17 - 10 + 1)) with 8%nat. change (Z.to_nat 10) with 10%nat.
  rewrite length_take, length_drop, Hl. cbn [Nat.sub Nat.min Nat.pred].
  rewrite lookup_take, lookup_drop by lia. cbn [Nat.add]. by rewrite Hv.
Qed.

(** Every system call exits.  Whatever number the process put in [a7],
    [do_syscall] marks it exited, [do_syscall_and_drop_if_exit] drops it, and
    nothing else of the process changes. *)
Theorem do_syscall_always_exits p v :
  length (general_registers (trap_frame p)) = 32%nat ->
  general_registers (trap_frame p) !! Z.to_nat (idx A7) = Some v ->
  do_syscall p = Val (set_state p Exited) /\ do_syscall_and_drop_if_exit p = Val None.
Proof.
  intros Hl Hv. unfold do_syscall_and_drop_if_exit, do_syscall.
  rewrite (register_count p v Hl Hv). by cbn [mbind outcome_bind state set_state].
Qed.

Lemma do_syscall_always_exits_witness :
  do_syscall (set_trap_frame default_process
    (mkTrapFrame (<[17%nat := 64]> (replicate 32 0)) 0 0 0 0 0 0 0 0 0 0))
  = Val (set_state (set_trap_frame default_process
    (mkTrapFrame (<[17%nat := 64]> (replicate 32 0)) 0 0 0 0 0 0 0 0 0 0)) Exited).
Proof.
  apply (do_syscall_always_exits (set_trap_frame default_process
    (mkTrapFrame (<[17%nat := 64]> (replicate 32 0)) 0 0 0 0 0 0 0 0 0 0)) 64); reflexivity.
Defined.

Lemma boxed_slice_Val {T} alloc size align (x : T) :
  0 < size < 2 ^ 62 -> layout_ok size align = true -> alloc size align <> 0 ->
  boxed_slice_with_alignment alloc 1 size align x = Val (alloc size align, replicate (Z.to_nat size) x).
Proof.
  intros Hs Hl Hp. unfold boxed_slice_with_alignment. checked. rewrite Z.mul_1_r, Hl.
  by rewrite (proj2 (Z.eqb_neq _ _)).
Qed.

(** A new supervisor process.  It starts paused at [function] with the
    address space and the interrupt stack of the current frame and a zeroed
    stack of 8 KiB; but the stack pointer is the lowest address of that stack,
    so the first word pushed lies outside the allocation. *)
Theorem new_supervisor_spec alloc h m constructor function frame :
  m !! sscratch h = Some frame -> sscratch h <> 0 -> alloc 8192 4096 <> 0 ->
  exists this, new_supervisor alloc h m constructor function = Val (constructor this) /\
    is_supervisor this = true /\ state this = Paused /\ name this = None /\
    pc (trap_frame this) = function /\ satp (trap_frame this) = satp frame /\
    kernel_satp (trap_frame this) = satp frame /\
    interrupt_stack (trap_frame this) = interrupt_stack frame /\
    flags (trap_frame this) = 0 /\
    exists stack bytes, kernel_allocated_stack this = Some (stack, bytes) /\
      length bytes = 8192%nat /\
      general_registers (trap_frame this) !! Z.to_nat (idx Sp) = Some stack /\
      ~ (stack <= stack - 8 < stack + Z.of_nat (length bytes)).
Proof.
  intros Hm H0 Ha. unfold new_supervisor.
  change (4096 * 2) with 8192. rewrite boxed_slice_Val by (done || lia).
  cbn [mbind outcome_bind trap_frame]. unfold frame_ref, load_frame, read_sscratch.
  rewrite index_mut_Val by (cbn; lia). cbn [mbind outcome_bind].
  rewrite (proj2 (Z.eqb_neq _ _)), Hm by done. cbn [mbind outcome_bind].
  eexists. split; [reflexivity|]. do 8 (split; [done|]).
  exists (alloc 8192 4096), (replicate (Z.to_nat 8192) 0). split; [done|].
  rewrite length_replicate. split; [done|]. split; [done|]. lia.
Qed.

Lemma new_supervisor_spec_witness :
  exists p, new_supervisor (fun _ _ => 0x82001000) (mkHart 0 0 0 0 0 0x1000 0 0 0 0 0 0)
    {[ 0x1000 := TrapFrame.zeroed ]} (fun p => p) 0x80000000 = Val p /\ state p = Paused.
Proof.
  destruct (new_supervisor_spec (fun _ _ => 0x82001000) (mkHart 0 0 0 0 0 0x1000 0 0 0 0 0 0)
    {[ 0x1000 := TrapFrame.zeroed ]} (fun p => p) 0x80000000 TrapFrame.zeroed)
    as (this & Hn & _ & Hs & _); [reflexivity|done|done|].
  exists this. split; [exact Hn|exact Hs].
Defined.

(** Coming back from a process.  Whatever the process did while it ran,
    it is paused when control returns: a process that exited meanwhile is
    runnable again.  It runs with [restore_context] set to the saved frame, and
    that frame has the flags of the frame in [sscratch]: the interrupt context
    [zeroed_interrupt_context] asks for is overwritten by [inherit_from]. *)
Theorem switch_to_and_come_back_spec h m execute frame self other :
  m !! sscratch h = Some other -> sscratch h <> 0 ->
  exists mine, return_frame h m = Val mine /\
    flags mine = flags other /\ satp mine = satp_csr h /\ kernel_satp mine = satp_csr h /\
    interrupt_stack mine = interrupt_stack other /\ hartid mine = hartid other /\
    restore_context (trap_frame (run frame (set_state self Running))) = frame /\
    (forall after, execute (run frame (set_state self Running)) mine = Val after ->
       switch_to_and_come_back h m execute frame self = Val (set_state after Paused)) /\
    (forall p, execute (run frame (set_state self Running)) mine = Stop p ->
       switch_to_and_come_back h m execute frame self = Stop p).
Proof.
  intros Hm H0. unfold switch_to_and_come_back, return_frame, frame_ref, load_frame, read_sscratch.
  rewrite (proj2 (Z.eqb_neq _ _)), Hm by done. cbn [mbind outcome_bind].
  eexists. split; [reflexivity|]. do 6 (split; [done|]).
  split; [intros after E|intros p E]; by rewrite E.
Qed.

Lemma switch_to_and_come_back_spec_witness :
  switch_to_and_come_back (mkHart 0 0 0 0x42 0 0x1000 0 0 0 0 0 0) {[ 0x1000 := TrapFrame.zeroed ]}
    (fun p _ => Val (set_state p Exited)) 0x2000 default_process
  = Val (run 0x2000 default_process).
Proof.
  destruct (switch_to_and_come_back_spec (mkHart 0 0 0 0x42 0 0x1000 0 0 0 0 0 0)
    {[ 0x1000 := TrapFrame.zeroed ]} (fun p _ => Val (set_state p Exited)) 0x2000 default_process
    TrapFrame.zeroed) as (mine & _ & _ & _ & _ & _ & _ & _ & H & _); [reflexivity|done|].
  exact (H _ eq_refl).
Defined.
