(* ===== verification/Riscv.v ===== *)
(** * The assembly: instructions, and the registers in a trap frame

    The subset of RV64 that [kernel_main/src/asm/*.S] uses, as an executable
    step function on a hart with its general registers and a memory of 64-bit
    words.  All jumps of these files go forward, so running a routine is a
    recursion over its text; a call leaves the text through [external], which
    answers whether the callee returned or how it left.

    [CpuState] is the hart of Cpu with the general registers and [sepc].
    Addresses are virtual; the memory the kernel uses is mapped alike in every
    address space the routines switch between, so [satp] does not move a word. *)

From S2P Require Import Prelude Cpu.

(** ** The state *)

Record CpuState := mkCpu {
  gpr : nat -> Z;
  csrs : Hart;
  sepc : Z;
  words : gmap Z Z
}.

Definition get (r : nat) (m : CpuState) : Z := if (r =? 0)%nat then 0 else gpr m r.
Definition set (r : nat) (v : Z) (m : CpuState) : CpuState :=
  mkCpu (fun i => if (i =? r)%nat then v else gpr m i) (csrs m) (sepc m) (words m).
Definition set_words (w : gmap Z Z) (m : CpuState) : CpuState := mkCpu (gpr m) (csrs m) (sepc m) w.
Definition set_csrs (h : Hart) (m : CpuState) : CpuState := mkCpu (gpr m) h (sepc m) (words m).
Definition set_sepc (v : Z) (m : CpuState) : CpuState := mkCpu (gpr m) (csrs m) v (words m).

(** The numbers of the registers the routines name. *)
Definition ra := 1%nat.
Definition sp := 2%nat.
Definition t0 := 5%nat.
Definition t1 := 6%nat.
Definition a0 := 10%nat.
Definition a1 := 11%nat.
Definition a2 := 12%nat.
Definition a3 := 13%nat.
Definition a4 := 14%nat.
Definition a5 := 15%nat.
Definition a6 := 16%nat.
Definition a7 := 17%nat.
Definition t3 := 28%nat.
Definition t5 := 30%nat.
Definition t6 := 31%nat.

Inductive Csr := Sscratch | Satp | Sepc | Sie | Sip | Sstatus.

Definition read_csr (c : Csr) (m : CpuState) : Z :=
  match c with
  | Sscratch => read_sscratch (csrs m)
  | Satp => read_satp (csrs m)
  | Sepc => sepc m
  | Sie => read_sie (csrs m)
  | Sip => read_sip (csrs m)
  | Sstatus => read_sstatus (csrs m)
  end.

Definition write_csr (c : Csr) (v : Z) (m : CpuState) : CpuState :=
  match c with
  | Sscratch => set_csrs (write_sscratch (csrs m) v) m
  | Satp => set_csrs (write_satp (csrs m) v) m
  | Sepc => set_sepc v m
  | Sie => set_csrs (write_sie (csrs m) v) m
  | Sip => set_csrs (write_sip (csrs m) v) m
  | Sstatus => set_csrs (write_sstatus (csrs m) v) m
  end.

(** ** Instructions *)

Inductive Instr :=
  | Label (l : string)
  | Ld (rd : nat) (off : Z) (rs : nat)          (* [lx rd, off(rs)] *)
  | Sd (rs2 : nat) (off : Z) (rs1 : nat)        (* [sx rs2, off(rs1)] *)
  | Fld (off : Z) (rs : nat)
  | Fsd (off : Z) (rs : nat)
  | Csrr (rd : nat) (c : Csr)
  | CsrrNumber (rd : nat) (n : Z)               (* a register by its number, not one of [Csr] *)
  | Csrw (c : Csr) (rs : nat)
  | Csrrw (rd : nat) (c : Csr) (rs : nat)
  | Mv (rd rs : nat)
  | Li (rd : nat) (v : Z)
  | La (rd : nat) (sym : string)
  | Addi (rd rs : nat) (v : Z)
  | Andi (rd rs : nat) (v : Z)
  | Ori (rd rs : nat) (v : Z)
  | And (rd rs1 rs2 : nat)
  | Or (rd rs1 rs2 : nat)
  | Srli (rd rs : nat) (v : Z)
  | Bne (rs1 rs2 : nat) (l : string)
  | Beqz (rs : nat) (l : string)
  | J (l : string)
  | SfenceVma
  | Wfi
  | Call (sym : string)
  | Jalr (rs : nat)
  | Tail (sym : string)                         (* [j] to another file *)
  | Ret
  | Sret.

Abbreviation Code := (list Instr).

(** How a routine leaves its text. *)
Inductive Exit :=
  | End                    (* at the last instruction *)
  | Returned (to : Z)
  | Resumed (at_ : Z)      (* [sret] *)
  | JumpedTo (sym : string).

Inductive Target := Symbol (s : string) | Address (a : Z).

(** The address of an access: aligned, and within the machine's words. *)
Definition address (off : Z) (rs : nat) (m : CpuState) : outcome Z :=
  let a := (get rs m + off) mod 2 ^ 64 in
  if a mod 8 =? 0 then Val a else Stop Undefined.

Definition load (off : Z) (rs : nat) (m : CpuState) : outcome Z :=
  a ← address off rs m;
  match words m !! a with Some v => Val v | None => Stop Undefined end.

Definition store (off : Z) (rs : nat) (v : Z) (m : CpuState) : outcome CpuState :=
  a ← address off rs m; Val (set_words (<[a := v]> (words m)) m).

(** [sstatus]: [SIE] is bit 1, [SPIE] bit 5, [SPP] bit 8. *)
Definition put_bit (n : Z) (b : bool) (v : Z) : Z := if b then Z.setbit v n else Z.clearbit v n.

(** [sret] takes the interrupt enable back from [SPIE]. *)
Definition sret_status (v : Z) : Z :=
  put_bit 8 false (put_bit 5 true (put_bit 1 (Z.testbit v 5) v)).
(** A trap from supervisor mode saves it there. *)
Definition trap_status (v : Z) : Z :=
  put_bit 8 true (put_bit 5 (Z.testbit v 1) (put_bit 1 false v)).

Definition write_status (v : Z) (m : CpuState) : CpuState := write_csr Sstatus v m.

(** What the hardware does on a trap from supervisor mode at [pc]. *)
Definition trap (pc : Z) (m : CpuState) : CpuState :=
  set_sepc pc (write_status (trap_status (read_csr Sstatus m)) m).

Section Execution.
(** The addresses of symbols, where a call returns to, and what it does. *)
Context (symbol : string -> Z) (return_address : Target -> Z).
Context (external : Target -> CpuState -> outcome (CpuState * Exit)).

Inductive Next := Step (m : CpuState) | Goto (l : string) (m : CpuState) | Leave (e : Exit) (m : CpuState).

(** The callee runs with the return address in [ra]; when it returns there,
    execution goes on behind the call. *)
Definition call (t : Target) (m : CpuState) : outcome Next :=
  r ← external t (set ra (return_address t) m);
  match r.2 with
  | Returned _ => Val (Step r.1)
  | e => Val (Leave e r.1)
  end.

Definition step (i : Instr) (m : CpuState) : outcome Next :=
  match i with
  | Label _ | SfenceVma | Wfi => Val (Step m)
  | Ld rd off rs => v ← load off rs m; Val (Step (set rd v m))
  | Sd rs2 off rs1 => m ← store off rs1 (get rs2 m) m; Val (Step m)
  | Fld _ _ | Fsd _ _ | CsrrNumber _ _ => Stop Undefined
  | Csrr rd c => Val (Step (set rd (read_csr c m) m))
  | Csrw c rs => Val (Step (write_csr c (get rs m) m))
  | Csrrw rd c rs => Val (Step (set rd (read_csr c m) (write_csr c (get rs m) m)))
  | Mv rd rs => Val (Step (set rd (get rs m) m))
  | Li rd v => Val (Step (set rd (v mod 2 ^ 64) m))
  | La rd s => Val (Step (set rd (symbol s) m))
  | Addi rd rs v => Val (Step (set rd ((get rs m + v) mod 2 ^ 64) m))
  | Andi rd rs v => Val (Step (set rd (Z.land (get rs m) (v mod 2 ^ 64)) m))
  | Ori rd rs v => Val (Step (set rd (Z.lor (get rs m) (v mod 2 ^ 64)) m))
  | And rd r1 r2 => Val (Step (set rd (Z.land (get r1 m) (get r2 m)) m))
  | Or rd r1 r2 => Val (Step (set rd (Z.lor (get r1 m) (get r2 m)) m))
  | Srli rd rs v => Val (Step (set rd (Z.shiftr (get rs m) v) m))
  | Bne r1 r2 l => Val (if get r1 m =? get r2 m then Step m else Goto l m)
  | Beqz r l => Val (if get r m =? 0 then Goto l m else Step m)
  | J l => Val (Goto l m)
  | Call s => call (Symbol s) m
  | Jalr r => call (Address (get r m)) m
  | Tail s => Val (Leave (JumpedTo s) m)
  | Ret => Val (Leave (Returned (get ra m)) m)
  | Sret => Val (Leave (Resumed (read_csr Sepc m))
                   (write_status (sret_status (read_csr Sstatus m)) m))
  end.

Definition is_label (i : Instr) (l : string) : bool :=
  match i with Label l' => (l' =? l)%string | _ => false end.

(** [skip] is the label a jump is looking for, further down the text. *)
Fixpoint exec (code : Code) (skip : option string) (m : CpuState) : outcome (CpuState * Exit) :=
  match code with
  | [] => match skip with None => Val (m, End) | Some _ => Stop Undefined end
  | i :: code =>
      match skip with
      | Some l => exec code (if is_label i l then None else skip) m
      | None =>
          n ← step i m;
          match n with
          | Step m => exec code None m
          | Goto l m => exec code (Some l) m
          | Leave e m => Val (m, e)
          end
      end
  end.
End Execution.

(** ** The interrupt enable across a trap *)

Lemma put_bit_spec n b v k : 0 <= n -> Z.testbit (put_bit n b v) k = if k =? n then b else Z.testbit v k.
Proof.
  intros Hn. rewrite Z.eqb_sym. unfold put_bit. destruct b.
  - rewrite Z.setbit_eqb by lia. by destruct (n =? k).
  - rewrite Z.clearbit_eqb. destruct (n =? k); cbn [negb]; by rewrite ?andb_false_r, ?andb_true_r.
Qed.

Lemma sret_enable v : Z.testbit (sret_status v) 1 = Z.testbit v 5.
Proof. unfold sret_status. by rewrite !put_bit_spec by lia. Qed.

Lemma trap_saves v : Z.testbit (trap_status v) 5 = Z.testbit v 1 /\ Z.testbit (trap_status v) 1 = false.
Proof. unfold trap_status. by rewrite !put_bit_spec by lia. Qed.
