(* ===== verification/TrapAsm.v ===== *)
(** * The assembly: trap entry, trap exit and the switch between frames

    The text of [kernel_main/src/asm/trap.S] and [syscall.S] with the macros of
    [arch/rv64f.S] ([XLEN] is 8), the routines the kernel's Rust code calls or is
    called from.  The routines nothing refers to are in [SyscallAsm]. *)

From S2P Require Import Prelude Cpu Sbi Process Riscv.

(** ** The macros *)

Definition XLEN : Z := 8.

Definition store_general (i basereg : nat) : Instr := Sd i (Z.of_nat i * XLEN) basereg.
Definition load_general (i basereg : nat) : Instr := Ld i (Z.of_nat i * XLEN) basereg.
Definition store_floating (i basereg : nat) : Instr := Fsd ((32 + Z.of_nat i) * XLEN) basereg.
Definition load_floating (i basereg : nat) : Instr := Fld ((32 + Z.of_nat i) * XLEN) basereg.

(** Is [sstatus.FS] dirty?  Both macros jump over the question. *)
Definition floating_test : Code :=
  [Csrr t1 Sstatus; Srli t0 t1 13; Andi t0 t0 3; Li t3 3; Bne t0 t3 "1f"].

Definition store_volatile_registers : Code :=
  [Csrrw t6 Sscratch t6] ++
  List.map (fun i => store_general i t6) (seq 0 31) ++
  [Mv t5 t6; Csrr t6 Sscratch; store_general 31 t5; Csrw Sscratch t5;
   J "1f"] ++ floating_test ++
  List.map (fun i => store_floating i t5) (seq 0 32) ++
  [Label "1f"].

Definition load_from_trap_frame : Code :=
  [J "1f"] ++ floating_test ++
  List.map (fun i => load_floating i t6) (seq 0 32) ++
  [Label "1f"] ++
  List.map (fun i => load_general i t6) (seq 1 31).

Definition restore_volatile_registers : Code := [Csrr t6 Sscratch] ++ load_from_trap_frame.

(** ** The routines *)

Definition s_trap_vector : Code :=
  store_volatile_registers ++
  [Ld a0 (XLEN * 38) t5; Csrw Satp a0;
   Ld sp (XLEN * 35) t5; Csrr a0 Sepc; Sd a0 (XLEN * 32) t5;
   Call "trap_handler";
   Csrr t5 Sscratch; Ld a0 (XLEN * 32) t5; Csrw Sepc a0;
   Ld a0 (XLEN * 37) t5; Csrw Satp a0] ++
  restore_volatile_registers ++ [Sret].

Definition switch_to_supervisor_frame : Code :=
  [Csrw Sscratch a0;
   Ld t0 (XLEN * 32) a0; Csrw Sepc t0;
   Ld t0 (XLEN * 37) a0; Csrw Satp t0;
   Li t0 0x222; Csrw Sie t0;
   Csrr t0 Sstatus; Li t1 (Z.shiftl 1 8); Or t0 t1 t0; Csrw Sstatus t0] ++
  restore_volatile_registers ++ [Sret].

(** From [.before_return] on. *)
Definition before_return : Code := [Ld ra 0 sp; Addi sp sp 16; Ret].

Definition store_to_trap_frame_and_run_function : Code :=
  [Addi sp sp (-16); Sd ra 0 sp] ++
  List.map (fun i => store_general i a0) (seq 0 32) ++
  [La t0 ".before_return"; Sd t0 (XLEN * 32) a0; Jalr a1; Label ".before_return"] ++
  before_return.

Definition do_supervisor_syscall : Code :=
  [Addi sp sp (-16); Sd ra 0 sp;
   Csrr t0 Sie; Beqz t0 ".error_syscall_interrupt_disabled";
   Mv t0 a7; Mv a7 a0; Mv a0 a1; Mv a1 a2; Mv a2 a3; Mv a3 a4; Mv a4 a5; Mv a6 t0;
   Csrr t0 Sip; Ori t0 t0 (Z.shiftl 1 1); Csrw Sip t0; Wfi;
   Label "do_supervisor_syscall_end";
   Ld ra 0 sp; Addi sp sp 16; Ret;
   Label ".error_syscall_interrupt_disabled";
   Tail "syscall_on_interrupt_disabled";
   Ld ra 0 sp; Addi sp sp 16; Ret].

(** ** Frames in memory *)

(** The frame at an address that holds every word of the structure. *)
Record frame_at (w : gmap Z Z) (p : Z) (f : TrapFrame) : Prop := {
  fa_aligned : p mod 8 = 0;
  fa_low : 0 < p;
  fa_high : p + 8 * 42 <= 2 ^ 64;
  fa_registers : length (general_registers f) = 32%nat;
  fa_words i v : frame_words f !! i = Some v -> w !! (p + 8 * Z.of_nat i) = Some v
}.

Definition in_frame (p a : Z) : Prop := p <= a < p + 8 * 42.

(** Registers and program counter of a frame. *)
Definition set_registers (f : TrapFrame) (l : list Z) : TrapFrame :=
  mkTrapFrame l (pc f) (hartid f) (pid f) (interrupt_stack f) (flags f) (satp f)
    (kernel_satp f) (hart_locals f) (process_raw_ptr f) (restore_context f).
Definition set_pc (f : TrapFrame) (v : Z) : TrapFrame :=
  mkTrapFrame (general_registers f) v (hartid f) (pid f) (interrupt_stack f) (flags f) (satp f)
    (kernel_satp f) (hart_locals f) (process_raw_ptr f) (restore_context f).

(** The registers as a frame stores them. *)
Definition registers (m : CpuState) : list Z := List.map (fun i => get i m) (seq 0 32).

(** What the Rust code reads through a pointer to a frame. *)
Definition read_frame (w : gmap Z Z) (p : Z) : option TrapFrame :=
  l ← mapM (M := option) (fun i => w !! (p + 8 * Z.of_nat i)) (seq 0 42);
  Some (mkTrapFrame (take 32 l) (nth 32 l 0) (nth 33 l 0) (nth 34 l 0) (nth 35 l 0) (nth 36 l 0)
          (nth 37 l 0) (nth 38 l 0) (nth 39 l 0) (nth 40 l 0) (nth 41 l 0)).

Lemma read_frame_at w p f : frame_at w p f -> read_frame w p = Some f.
Proof.
  intros [Ha Hl Hh Hr Hw]. unfold read_frame.
  assert (E : mapM (M := option) (fun i => w !! (p + 8 * Z.of_nat i)) (seq 0 42) = Some (frame_words f)).
  { apply mapM_Some, Forall2_same_length_lookup_2.
    - rewrite length_seq. unfold frame_words. rewrite length_app, Hr. done.
    - intros i x y [-> Hi]%lookup_seq Hy. by apply Hw. }
  rewrite E. cbn [mbind option_bind]. unfold frame_words.
  rewrite take_app_le, firstn_all2 by lia. rewrite !app_nth2, !Hr by lia. by destruct f.
Qed.

(** ** Blocks of stores and loads *)

Lemma get_set i r v m : get i (set r v m) = if (i =? 0)%nat then 0 else if (i =? r)%nat then v else get i m.
Proof. unfold get, set; cbn [gpr]. by destruct (i =? 0)%nat. Qed.

Lemma get_other i r v m : i <> r -> get i (set r v m) = get i m.
Proof. intros H. rewrite get_set, (proj2 (Nat.eqb_neq i r) H). unfold get. by destruct (i =? 0)%nat. Qed.

Lemma get_set_words i w m : get i (set_words w m) = get i m.
Proof. done. Qed.

Lemma registers_lookup m i : (i < 32)%nat -> registers m !! i = Some (get i m).
Proof.
  intros Hi. unfold registers. rewrite list_lookup_fmap, lookup_seq_lt by done. done.
Qed.

(** The words after storing registers [i] to [i + n - 1] in the frame at [p]. *)
Fixpoint stored (m : CpuState) (p : Z) (i n : nat) (w : gmap Z Z) : gmap Z Z :=
  match n with
  | O => w
  | S n => stored m p (S i) n (<[p + 8 * Z.of_nat i := get i m]> w)
  end.

Lemma stored_out m p i n w a :
  (forall j, (i <= j < i + n)%nat -> a <> p + 8 * Z.of_nat j) -> stored m p i n w !! a = w !! a.
Proof.
  revert i w. induction n as [|n IH]; intros i w Ha; [done|]. cbn [stored].
  rewrite IH by (intros j Hj; apply Ha; lia). rewrite lookup_insert_ne; [done|].
  intros E. by apply (Ha i); [lia|].
Qed.

Lemma stored_in m p i n w j :
  (i <= j < i + n)%nat -> stored m p i n w !! (p + 8 * Z.of_nat j) = Some (get j m).
Proof.
  revert i w. induction n as [|n IH]; intros i w Hj; [lia|]. cbn [stored].
  destruct (decide (i = j)) as [<-|Hne]; [|apply IH; lia].
  rewrite stored_out by (intros k Hk; lia). by rewrite lookup_insert_eq.
Qed.

Lemma stored_ext m m' p i n w : (forall j, get j m = get j m') -> stored m p i n w = stored m' p i n w.
Proof. intros H. revert i w. induction n as [|n IH]; intros i w; [done|]. cbn [stored]. by rewrite IH, H. Qed.

Lemma address_Val off rs m :
  0 <= get rs m + off < 2 ^ 64 -> (get rs m + off) mod 8 = 0 -> address off rs m = Val (get rs m + off).
Proof. intros Hb Ha. unfold address. by rewrite (Z.mod_small _ (2 ^ 64)), Ha by lia. Qed.

(** A word of the frame a register points to. *)
Lemma address_frame p i off rs m :
  p mod 8 = 0 -> 0 < p -> p + 8 * 42 <= 2 ^ 64 -> (i < 42)%nat -> off = 8 * Z.of_nat i -> get rs m = p ->
  address off rs m = Val (p + 8 * Z.of_nat i).
Proof.
  intros Ha Hl Hh Hi -> Hp. rewrite address_Val; rewrite Hp; [done|lia|].
  rewrite (Z.mul_comm 8), Z.mod_add by lia. done.
Qed.

Lemma load_field p f i off rs m v :
  frame_at (words m) p f -> get rs m = p -> frame_words f !! i = Some v -> off = 8 * Z.of_nat i ->
  load off rs m = Val v.
Proof.
  intros [Ha Hl Hh Hr Hw] Hp Hi Ho. unfold load.
  assert (Hlt : (i < 42)%nat).
  { apply lookup_lt_Some in Hi. unfold frame_words in Hi. rewrite length_app, Hr in Hi. cbn in Hi. lia. }
  rewrite (address_frame p i) by done. cbn [mbind outcome_bind]. by rewrite (Hw i v Hi).
Qed.

Lemma exec_cons symbol return_address external i code m :
  exec symbol return_address external (i :: code) None m =
  (n ← step symbol return_address external i m;
   match n with
   | Step m => exec symbol return_address external code None m
   | Goto l m => exec symbol return_address external code (Some l) m
   | Leave e m => Val (m, e)
   end).
Proof. done. Qed.

(** Run instructions up to one that accesses memory, jumps or calls. *)
Ltac asm := repeat (rewrite exec_cons; cbn [step mbind outcome_bind store_general load_general app]).

Section Exec.
Context (symbol : string -> Z) (return_address : Target -> Z).
Context (external : Target -> CpuState -> outcome (CpuState * Exit)).
Notation exec := (exec symbol return_address external).

(** A jump over instructions to the next label. *)
Lemma exec_jump code l rest m :
  forallb (fun i => negb (is_label i l)) code = true ->
  exec (code ++ Label l :: rest) (Some l) m = exec rest None m.
Proof.
  induction code as [|i code IH]; cbn [forallb app Riscv.exec]; intros H.
  - cbn [is_label]. by rewrite String.eqb_refl.
  - apply andb_prop in H as [Hi Hc]. apply negb_true_iff in Hi. rewrite Hi. by apply IH.
Qed.

(** The floating-point registers are never saved: the code that would is jumped
    over. *)
Lemma exec_no_floating (g : nat -> nat -> Instr) base rest m :
  (forall i, is_label (g i base) "1f" = false) ->
  exec (floating_test ++ List.map (fun i => g i base) (seq 0 32) ++ Label "1f" :: rest) (Some "1f") m
  = exec rest None m.
Proof.
  intros Hg. rewrite app_assoc. apply exec_jump. rewrite forallb_app. apply andb_true_iff. split; [done|].
  apply forallb_forall. intros i (j & <- & _)%in_map_iff. by rewrite Hg.
Qed.

Lemma exec_stores base n : forall i m p rest,
  get base m = p -> p mod 8 = 0 -> 0 < p -> p + 8 * 42 <= 2 ^ 64 -> (i + n <= 42)%nat ->
  exec (List.map (fun i => store_general i base) (seq i n) ++ rest) None m
  = exec rest None (set_words (stored m p i n (words m)) m).
Proof.
  induction n as [|n IH]; intros i m p rest Hp Ha Hl Hh Hi; [by destruct m|].
  cbn [seq List.map app]. rewrite exec_cons. cbn [store_general step]. unfold store.
  rewrite (address_frame p i) by (done || lia || (unfold XLEN; lia)). cbn [mbind outcome_bind].
  rewrite (IH (S i) _ p) by (done || lia). by rewrite (stored_ext _ m).
Qed.

(** Loads through [t6], which only the last one may overwrite. *)
Lemma exec_loads n : forall i m p f rest,
  frame_at (words m) p f -> get t6 m = p -> (1 <= i)%nat -> (i + n <= 32)%nat ->
  exists m', exec (List.map (fun i => load_general i t6) (seq i n) ++ rest) None m = exec rest None m' /\
    csrs m' = csrs m /\ sepc m' = sepc m /\ words m' = words m /\
    forall j, (j < 32)%nat ->
      get j m' = if ((i <=? j) && (j <? i + n))%nat then default 0 (general_registers f !! j) else get j m.
Proof.
  induction n as [|n IH]; intros i m p f rest Hf Hp Hi Hn.
  - exists m. do 4 (split; [done|]). intros j _.
    destruct (Nat.leb_spec i j), (Nat.ltb_spec j (i + 0)); cbn [andb]; done || lia.
  - pose proof (fa_registers _ _ _ Hf) as Hlen.
    destruct (lookup_lt_is_Some_2 (general_registers f) i) as [v Hv]; [lia|].
    assert (Hw : frame_words f !! i = Some v) by (unfold frame_words; rewrite lookup_app_l by lia; done).
    cbn [seq List.map app]. rewrite exec_cons. cbn [load_general step].
    rewrite (load_field p f i _ _ _ v) by (done || (unfold XLEN; lia)). cbn [mbind outcome_bind].
    destruct n as [|n].
    + exists (set i v m). do 4 (split; [done|]). intros j Hj. rewrite get_set.
      destruct (Nat.eqb_spec j 0), (Nat.eqb_spec j i), (Nat.leb_spec i j), (Nat.ltb_spec j (i + 1));
        cbn [andb]; subst; try lia; rewrite ?Hv; try done.
    + destruct (IH (S i) (set i v m) p f rest) as (m' & E & Ec & Es & Ew & Hg); try done; try lia.
      { rewrite get_set, (proj2 (Nat.eqb_neq t6 i)) by (unfold t6; lia). exact Hp. }
      exists m'. do 4 (split; [done|]). intros j Hj. rewrite Hg, get_set by done.
      destruct (Nat.leb_spec (S i) j), (Nat.ltb_spec j (S i + S n)), (Nat.leb_spec i j),
        (Nat.ltb_spec j (i + S (S n))), (Nat.eqb_spec j 0), (Nat.eqb_spec j i); cbn [andb];
        subst; try lia; rewrite ?Hv; done.
Qed.

(** ** Storing and restoring every register *)

Lemma frame_at_ext w w' p f :
  (forall a, in_frame p a -> w' !! a = w !! a) -> frame_at w p f -> frame_at w' p f.
Proof.
  intros Hw [Ha Hl Hh Hr Hf]. split; try done. intros i v Hi. rewrite Hw; [by apply Hf|].
  apply lookup_lt_Some in Hi. unfold frame_words in Hi. rewrite length_app, Hr in Hi. cbn in Hi.
  unfold in_frame. lia.
Qed.

(** The words of a frame whose registers are those of [m]. *)
Lemma frame_at_registers w w' p f m :
  frame_at w p f ->
  (forall j, (j < 32)%nat -> w' !! (p + 8 * Z.of_nat j) = Some (get j m)) ->
  (forall j, (32 <= j < 42)%nat -> w' !! (p + 8 * Z.of_nat j) = w !! (p + 8 * Z.of_nat j)) ->
  frame_at w' p (set_registers f (registers m)).
Proof.
  intros [Ha Hl Hh Hr Hf] Hlow Hhigh.
  assert (H32 : length (registers m) = 32%nat) by (unfold registers; by rewrite length_map, length_seq).
  split; try done. intros i v Hi. unfold frame_words in Hi, Hf. cbn [general_registers set_registers] in Hi.
  destruct (decide (i < 32)%nat) as [Hlt|Hge].
  - rewrite lookup_app_l, registers_lookup in Hi by lia. injection Hi as <-. by apply Hlow.
  - rewrite lookup_app_r, H32 in Hi by lia. pose proof (lookup_lt_Some _ _ _ Hi) as Hb. cbn in Hb.
    rewrite Hhigh by lia. apply Hf. rewrite lookup_app_r by lia. by rewrite Hr.
Qed.

(** One word of a frame written. *)
Lemma frame_at_field w p f f' k v :
  frame_at w p f -> length (general_registers f') = 32%nat ->
  frame_words f' = <[k := v]> (frame_words f) -> frame_at (<[p + 8 * Z.of_nat k := v]> w) p f'.
Proof.
  intros [Ha Hl Hh Hr Hf] Hr' E. split; try done. intros i x Hi. rewrite E in Hi.
  apply list_lookup_insert_Some in Hi as [(-> & -> & _)|[Hne Hi]]; [apply lookup_insert_eq|].
  rewrite lookup_insert_ne by lia. by apply Hf.
Qed.

Lemma frame_at_pc w p f v : frame_at w p f -> frame_at (<[p + 8 * 32 := v]> w) p (set_pc f v).
Proof.
  intros Hf. apply (frame_at_field w p f _ 32); [done|apply Hf|].
  unfold frame_words. by rewrite insert_app_r_alt, (fa_registers _ _ _ Hf) by (rewrite (fa_registers _ _ _ Hf); lia).
Qed.

Lemma frame_at_restore_context w p f ctx :
  frame_at w p f -> frame_at (<[p + 8 * 41 := ctx]> w) p (set_restore_context f ctx).
Proof.
  intros Hf. apply (frame_at_field w p f _ 41); [done|apply Hf|].
  unfold frame_words. by rewrite insert_app_r_alt, (fa_registers _ _ _ Hf) by (rewrite (fa_registers _ _ _ Hf); lia).
Qed.

Lemma exec_store_volatile m p f rest :
  read_csr Sscratch m = p -> frame_at (words m) p f ->
  exists m', exec (store_volatile_registers ++ rest) None m = exec rest None m' /\
    get t5 m' = p /\ csrs m' = csrs m /\ sepc m' = sepc m /\
    frame_at (words m') p (set_registers f (registers m)) /\
    forall a, ~ in_frame p a -> words m' !! a = words m !! a.
Proof.
  intros Hp Hf. pose proof Hf as [Ha Hl Hh Hr Hw]. unfold store_volatile_registers.
  rewrite <- !app_assoc. cbn [app]. rewrite exec_cons. cbn [step mbind outcome_bind].
  set (m1 := set t6 _ _). assert (H6 : get t6 m1 = p) by exact Hp.
  rewrite (exec_stores t6 31 0 m1 p) by (done || lia).
  asm. unfold store. rewrite (address_frame p 31) by (done || lia || (unfold XLEN; lia)).
  cbn [mbind outcome_bind]. asm.
  rewrite (exec_no_floating store_floating t5) by done.
  eexists. split; [reflexivity|]. split; [done|].
  split; [|split; [done|split]].
  - unfold m1. destruct m as [r h se w]. destruct h. cbn in *. by rewrite Hp.
  - apply (frame_at_registers (words m)); [done|..].
    + intros j Hj. cbn [words set_words set_csrs write_csr set].
      destruct (decide (j = 31%nat)) as [->|Hne]; [by rewrite lookup_insert_eq|]. rewrite lookup_insert_ne by lia.
      rewrite stored_in by lia. f_equal. unfold m1. rewrite get_set, (proj2 (Nat.eqb_neq j t6)) by done.
      unfold get. by destruct (j =? 0)%nat eqn:E.
    + intros j Hj. cbn [words set_words set_csrs write_csr set]. rewrite lookup_insert_ne by lia.
      rewrite stored_out by (intros k Hk; lia). done.
  - intros a Hout. cbn [words set_words set_csrs write_csr set].
    rewrite lookup_insert_ne by (unfold in_frame in Hout; lia).
    rewrite stored_out by (intros k Hk; unfold in_frame in Hout; lia). done.
Qed.

Lemma exec_restore m p f rest :
  read_csr Sscratch m = p -> frame_at (words m) p f ->
  exists m', exec (restore_volatile_registers ++ rest) None m = exec rest None m' /\
    csrs m' = csrs m /\ sepc m' = sepc m /\ words m' = words m /\
    forall j, (1 <= j < 32)%nat -> get j m' = default 0 (general_registers f !! j).
Proof.
  intros Hp Hf. unfold restore_volatile_registers, load_from_trap_frame.
  rewrite <- !app_assoc. cbn [app]. asm. rewrite (exec_no_floating load_floating t6) by done.
  destruct (exec_loads 31 1 (set t6 (read_csr Sscratch m) m) p f rest) as (m' & E & Hc & Hs & Hw & Hg);
    [done|exact Hp|lia|lia|].
  exists m'. do 4 (split; [done|]). intros j Hj. rewrite Hg by lia.
  by rewrite (proj2 (Nat.leb_le _ _)), (proj2 (Nat.ltb_lt _ _)) by lia.
Qed.
End Exec.

(** A frame written into memory. *)
Fixpoint write_words (p : Z) (l : list Z) (w : gmap Z Z) : gmap Z Z :=
  match l with
  | [] => w
  | v :: l => write_words (p + 8) l (<[p := v]> w)
  end.

Lemma write_words_out p l w a :
  a < p \/ p + 8 * Z.of_nat (length l) <= a -> write_words p l w !! a = w !! a.
Proof.
  revert p w. induction l as [|v l IH]; intros p w Ha; [done|]. cbn [write_words length] in *.
  rewrite IH by lia. apply lookup_insert_ne. lia.
Qed.

Lemma write_words_in p l w i v : l !! i = Some v -> write_words p l w !! (p + 8 * Z.of_nat i) = Some v.
Proof.
  revert p w i. induction l as [|x l IH]; intros p w [|i] Hi; [done..| |]; cbn [write_words].
  - injection Hi as ->. rewrite write_words_out by lia. rewrite Z.add_0_r. apply lookup_insert_eq.
  - rewrite <- (IH (p + 8) (<[p := x]> w) i Hi). f_equal. lia.
Qed.

Definition write_frame (p : Z) (f : TrapFrame) (w : gmap Z Z) : gmap Z Z := write_words p (frame_words f) w.

Lemma write_frame_at p f w :
  p mod 8 = 0 -> 0 < p -> p + 8 * 42 <= 2 ^ 64 -> length (general_registers f) = 32%nat ->
  frame_at (write_frame p f w) p f.
Proof. intros Ha Hl Hh Hr. split; try done. intros i v. apply write_words_in. Qed.

Lemma write_frame_out p f w a :
  length (general_registers f) = 32%nat -> ~ in_frame p a -> write_frame p f w !! a = w !! a.
Proof.
  intros Hr Ha. apply write_words_out. unfold frame_words. rewrite length_app, Hr. cbn [length].
  unfold in_frame in Ha. lia.
Qed.

(** ** The Rust code the routines call, and that calls them *)

Section Kernel.
Context (symbol : string -> Z) (return_address : Target -> Z).
(** The firmware, and what the compiler makes of the Rust code apart from the
    control registers: the other registers and words it changes. *)
Context {F : Type} (ecall : F -> Z -> Z -> list Z -> F * (Z * Z)) (fw : F).
Context (compiled : CpuState -> CpuState).
(** The address of the function [run], and of the frame of a process. *)
Context (run_address : Z) (frame_of : Z -> Z).

Definition no_calls (_ : Target) (_ : CpuState) : outcome (CpuState * Exit) := Stop Undefined.

Definition switch_to (frame : Z) (m : CpuState) : outcome (CpuState * Exit) :=
  exec symbol return_address no_calls switch_to_supervisor_frame None (set a0 frame m).

(** [trap_handler] of Sbi on the frame in [sscratch]; it ends in the jump to
    the frame it answers, if any. *)
Definition trap_handler_call (m : CpuState) : outcome (CpuState * Exit) :=
  match read_frame (words m) (read_csr Sscratch m) with
  | None => Stop Undefined
  | Some frame =>
      '(s, next) ← trap_handler ecall {[read_csr Sscratch m := frame]} (mkTrapState (csrs m) fw []);
      let m := compiled (set_csrs (trap_hart s) m) in
      match next with
      | Some ctx => switch_to ctx m
      | None => Val (m, Returned (get ra m))
      end
  end.

(** [run] of [switch_to_and_come_back]: the saved frame goes into the process's
    [restore_context], then the process's frame is switched to. *)
Definition run_process (m : CpuState) : outcome (CpuState * Exit) :=
  let frame := frame_of (get a2 m) in
  let m := set_words (<[frame + 8 * 41 := get a0 m]> (words m)) m in
  switch_to frame (compiled m).

Definition kernel_calls (t : Target) (m : CpuState) : outcome (CpuState * Exit) :=
  match t with
  | Symbol s => if (s =? "trap_handler")%string then trap_handler_call m else Stop Undefined
  | Address a => if a =? run_address then run_process m else Stop Undefined
  end.

Notation run_code := (exec symbol return_address kernel_calls).

(** Compiled code that leaves the control registers and some words alone. *)
Record preserves (keep : Z -> Prop) (m m' : CpuState) : Prop := {
  pr_csrs : csrs m' = csrs m;
  pr_words a : keep a -> words m' !! a = words m !! a
}.

Lemma frame_word p f i v w :
  frame_at w p f -> frame_words f !! i = Some v -> w !! (p + 8 * Z.of_nat i) = Some v.
Proof. intros Hf. apply Hf. Qed.

Lemma frame_words_fields f :
  length (general_registers f) = 32%nat ->
  frame_words f !! 32%nat = Some (pc f) /\ frame_words f !! 35%nat = Some (interrupt_stack f) /\
  frame_words f !! 37%nat = Some (satp f) /\ frame_words f !! 38%nat = Some (kernel_satp f) /\
  frame_words f !! 41%nat = Some (restore_context f).
Proof.
  intros Hl. unfold frame_words.
  by repeat split; rewrite lookup_app_r by lia; rewrite Hl.
Qed.

(** *** [switch_to_supervisor_frame] *)

(** The hart runs on with the registers, the program counter and the address
    space of the frame; the frame is in [sscratch], interrupts are enabled as
    the previous trap left them. *)
Lemma switch_to_spec m q f :
  frame_at (words m) q f ->
  exists m', switch_to q m = Val (m', Resumed (pc f)) /\
    (forall j, (1 <= j < 32)%nat -> get j m' = default 0 (general_registers f !! j)) /\
    read_csr Sscratch m' = q /\ read_csr Satp m' = satp f /\ read_csr Sie m' = 0x222 /\
    Z.testbit (read_csr Sstatus m') 1 = Z.testbit (read_csr Sstatus m) 5 /\ words m' = words m.
Proof.
  intros Hf. destruct (frame_words_fields f (fa_registers _ _ _ Hf)) as (F32 & _ & F37 & _).
  unfold switch_to, switch_to_supervisor_frame. cbn [app]. asm.
  set (m1 := write_csr Sscratch _ _).
  rewrite (load_field q f 32 _ _ m1 (pc f)) by done. cbn [mbind outcome_bind]. asm.
  rewrite (load_field q f 37 _ _ _ (satp f)) by done. cbn [mbind outcome_bind]. asm.
  match goal with |- context [Riscv.exec _ _ _ _ None ?m0] =>
    destruct (exec_restore symbol return_address no_calls m0 q f [Sret]) as (m' & E & Ec & Es & Ew & Hg);
      [done|exact Hf|] end.
  rewrite E. asm. eexists. split; [f_equal; f_equal; f_equal; exact Es|].
  split; [intros j Hj; rewrite <- (Hg j Hj); done|].
  unfold write_status. cbn [read_csr write_csr set_csrs csrs words]. rewrite Ec, Ew.
  do 3 (split; [done|]). split; [|done].
  transitivity (Z.testbit (sret_status (Z.lor (Z.shiftl 1 8 mod 2 ^ 64) (read_csr Sstatus m))) 1); [reflexivity|].
  by rewrite sret_enable, Z.lor_spec.
Qed.

(** *** [s_trap_vector] *)

(** The frame of the interrupted context, as the trap leaves it. *)
Definition trapped (f : TrapFrame) (m : CpuState) (at_ : Z) : TrapFrame :=
  set_pc (set_registers f (registers m)) at_.

(** Up to the call of [trap_handler]. *)
Lemma trap_enters m p f at_ :
  read_csr Sscratch m = p -> frame_at (words m) p f ->
  exists m1 rest, run_code s_trap_vector None (trap at_ m) =
      (n ← step symbol return_address kernel_calls (Call "trap_handler") m1;
       match n with
       | Step m => run_code rest None m
       | Goto l m => run_code rest (Some l) m
       | Leave e m => Val (m, e)
       end) /\
    rest = [Csrr t5 Sscratch; Ld a0 (XLEN * 32) t5; Csrw Sepc a0; Ld a0 (XLEN * 37) t5; Csrw Satp a0]
           ++ restore_volatile_registers ++ [Sret] /\
    read_csr Sscratch m1 = p /\ read_csr Satp m1 = kernel_satp f /\ get sp m1 = interrupt_stack f /\
    read_csr Sstatus m1 = trap_status (read_csr Sstatus m) /\
    scause (csrs m1) = scause (csrs m) /\
    frame_at (words m1) p (trapped f m at_) /\
    forall a, ~ in_frame p a -> words m1 !! a = words m !! a.
Proof.
  intros Hp Hf. unfold s_trap_vector.
  destruct (exec_store_volatile symbol return_address kernel_calls (trap at_ m) p f
    ([Ld a0 (XLEN * 38) t5; Csrw Satp a0; Ld sp (XLEN * 35) t5; Csrr a0 Sepc; Sd a0 (XLEN * 32) t5;
      Call "trap_handler"; Csrr t5 Sscratch; Ld a0 (XLEN * 32) t5; Csrw Sepc a0; Ld a0 (XLEN * 37) t5;
      Csrw Satp a0] ++ restore_volatile_registers ++ [Sret]))
    as (m0 & E & H5 & Ec & Es & Hf0 & Hout); [done|done|].
  rewrite E. cbn [app]. asm.
  destruct (frame_words_fields _ (fa_registers _ _ _ Hf0)) as (_ & F35 & _ & F38 & _).
  rewrite (load_field p (set_registers f (registers m)) 38 _ _ _ (kernel_satp f)) by (exact Hf0 || done). cbn [mbind outcome_bind]. asm.
  rewrite (load_field p (set_registers f (registers m)) 35 _ _ _ (interrupt_stack f)) by (exact Hf0 || done). cbn [mbind outcome_bind]. asm.
  unfold store. rewrite (address_frame p 32) by (done || lia || apply Hf0). cbn [mbind outcome_bind].
  rewrite exec_cons. eexists _, _. split; [reflexivity|]. split; [reflexivity|].
  cbn [read_csr write_csr set_words set_csrs set csrs words].
  split; [change (read_csr Sscratch m0 = p); by rewrite <- Hp; cbn; rewrite Ec|].
  split; [done|]. split; [done|]. split; [by rewrite Ec|]. split; [by cbn; rewrite Ec|].
  match goal with |- frame_at (<[_ := ?v]> _) _ _ /\ _ => change v with (sepc m0) end. rewrite Es.
  split; [by apply frame_at_pc|]. intros a Ha. rewrite lookup_insert_ne; [by apply Hout|].
  unfold in_frame in Ha. lia.
Qed.

(** Behind the call, when it returns with the frame [g] in [sscratch]. *)
Lemma trap_leaves m p g :
  read_csr Sscratch m = p -> frame_at (words m) p g ->
  exists m', run_code ([Csrr t5 Sscratch; Ld a0 (XLEN * 32) t5; Csrw Sepc a0; Ld a0 (XLEN * 37) t5;
                        Csrw Satp a0] ++ restore_volatile_registers ++ [Sret]) None m
      = Val (m', Resumed (pc g)) /\
    (forall j, (1 <= j < 32)%nat -> get j m' = default 0 (general_registers g !! j)) /\
    read_csr Sscratch m' = p /\ read_csr Satp m' = satp g /\ words m' = words m /\
    Z.testbit (read_csr Sstatus m') 1 = Z.testbit (read_csr Sstatus m) 5.
Proof.
  intros Hp Hf. destruct (frame_words_fields g (fa_registers _ _ _ Hf)) as (F32 & _ & F37 & _).
  cbn [app]. asm.
  rewrite (load_field p g 32 _ _ _ (pc g)) by (exact Hf || done). cbn [mbind outcome_bind]. asm.
  rewrite (load_field p g 37 _ _ _ (satp g)) by (exact Hf || done). cbn [mbind outcome_bind]. asm.
  match goal with |- context [Riscv.exec _ _ _ _ None ?m0] =>
    destruct (exec_restore symbol return_address kernel_calls m0 p g [Sret]) as (m' & E & Ec & Es & Ew & Hg);
      [done|exact Hf|] end.
  rewrite E. asm. eexists. split; [f_equal; f_equal; f_equal; exact Es|].
  split; [intros j Hj; rewrite <- (Hg j Hj); done|].
  unfold write_status. cbn [read_csr write_csr set_csrs csrs words]. rewrite Ec, Ew.
  do 3 (split; [done|]).
  transitivity (Z.testbit (sret_status (read_csr Sstatus m)) 1); [reflexivity|]. by rewrite sret_enable.
Qed.

(** The causes the handler does not panic on. *)
Definition handled (cause : Z) : Prop := 0 <= cause < 16 \/ 2 ^ 63 <= cause < 2 ^ 64.

Lemma trap_handler_runs w s frame :
  w !! sscratch (trap_hart s) = Some frame -> handled (scause (trap_hart s)) ->
  exists s', trap_handler ecall w s
    = Val (s', if negb (restore_context frame =? 0) then Some (restore_context frame) else None) /\
    sscratch (trap_hart s') = sscratch (trap_hart s) /\ sstatus (trap_hart s') = sstatus (trap_hart s).
Proof.
  intros Hw Hc. unfold trap_handler, read_scause.
  set (cause := scause (trap_hart s)) in *. set (code := Z.shiftr (ushl cause 1) 1).
  match goal with |- context [if ?b then _ else _] => destruct b eqn:E end; cbn [mbind outcome_bind].
  - exists (make_interrupt_nonpending ecall s code).
    assert (Hs : sscratch (trap_hart (make_interrupt_nonpending ecall s code)) = sscratch (trap_hart s) /\
                 sstatus (trap_hart (make_interrupt_nonpending ecall s code)) = sstatus (trap_hart s))
      by (unfold make_interrupt_nonpending; by repeat case_match).
    unfold read_sscratch, Cpu.load_frame. destruct Hs as [-> ->]. by rewrite Hw.
  - assert (Hlt : 0 <= cause < 16).
    { destruct Hc as [Hc|Hc]; [done|]. exfalso. rewrite Z.shiftr_div_pow2 in E by lia.
      assert (H1 : cause / 2 ^ (64 - 1) = 1) by (symmetry; apply Z.div_unique with (cause - 2 ^ 63); lia).
      by rewrite H1 in E. }
    destruct (cause_split cause) as (_ & Hcode & _); [lia|]. unfold code. rewrite Hcode.
    destruct (lookup_lt_is_Some_2 csr.XCAUSE_DESCRIPTION (Z.to_nat cause)) as [what Hd];
      [cbn [length csr.XCAUSE_DESCRIPTION]; lia|].
    rewrite (index_Val _ _ what) by (done || lia). cbn [mbind outcome_bind trap_hart].
    unfold read_sscratch, Cpu.load_frame. by rewrite Hw; eexists.
Qed.

(** The handler, called with a frame in [sscratch]: it returns, or switches to
    the frame in [restore_context]. *)
Lemma trap_handler_calls keep m p f :
  (forall m, preserves keep m (compiled m)) -> (forall a, in_frame p a -> keep a) ->
  read_csr Sscratch m = p -> frame_at (words m) p f -> handled (scause (csrs m)) ->
  exists m', kernel_calls (Symbol "trap_handler") m
      = (if restore_context f =? 0 then Val (m', Returned (get ra m')) else switch_to (restore_context f) m') /\
    read_csr Sscratch m' = p /\ read_csr Sstatus m' = read_csr Sstatus m /\
    forall a, keep a -> words m' !! a = words m !! a.
Proof.
  intros Hcomp Hkeep Hp Hf Hc. cbn [kernel_calls]. unfold trap_handler_call. cbn [String.eqb Ascii.eqb Bool.eqb].
  rewrite Hp, (read_frame_at _ _ _ Hf).
  destruct (trap_handler_runs {[p := f]} (mkTrapState (csrs m) fw []) f) as (s' & E & Hs & Hst); [|done|].
  { cbn [trap_hart]. change (sscratch (csrs m)) with (read_csr Sscratch m). rewrite Hp. apply lookup_singleton_eq. }
  rewrite E. cbn [mbind outcome_bind fst snd].
  exists (compiled (set_csrs (trap_hart s') m)).
  destruct (Hcomp (set_csrs (trap_hart s') m)) as [H1 H2].
  split; [by destruct (restore_context f =? 0)|]. unfold read_csr. rewrite H1. cbn [csrs set_csrs trap_hart] in *.
  split; [unfold read_sscratch; rewrite Hs; exact Hp|]. split; [exact Hst|].
  intros a Ha. by rewrite H2.
Qed.

(** A trap is transparent.  From any machine state with a frame in
    [sscratch] and no frame to restore, a trap - any interrupt, or any of the
    sixteen exceptions - resumes the interrupted code at the instruction where
    it was, with every register, [sscratch], the interrupt enable and the
    frame's address space; the frame holds the interrupted context.  The
    assembly runs with [trap_handler] of Sbi between entry and exit. *)
Theorem trap_transparent m p f at_ :
  (forall m, preserves (in_frame p) m (compiled m)) ->
  read_csr Sscratch m = p -> frame_at (words m) p f -> restore_context f = 0 ->
  handled (scause (csrs m)) ->
  exists m', run_code s_trap_vector None (trap at_ m) = Val (m', Resumed at_) /\
    (forall j, (j < 32)%nat -> get j m' = get j m) /\
    read_csr Sscratch m' = p /\ read_csr Satp m' = satp f /\
    Z.testbit (read_csr Sstatus m') 1 = Z.testbit (read_csr Sstatus m) 1 /\
    frame_at (words m') p (trapped f m at_).
Proof.
  intros Hcomp Hp Hf Hctx Hc.
  destruct (trap_enters m p f at_ Hp Hf) as (m1 & rest & -> & -> & H1 & _ & _ & Hst & Hca & Hf1 & _).
  cbn [step]. unfold call.
  destruct (trap_handler_calls (in_frame p) (set ra (return_address (Symbol "trap_handler")) m1) p (trapped f m at_))
    as (m2 & -> & H2 & Hst2 & Hw2); [done|done|done|done|by rewrite <- Hca in Hc|].
  cbn [restore_context trapped set_pc set_registers]. rewrite Hctx. cbn [Z.eqb mbind outcome_bind fst snd].
  destruct (trap_leaves m2 p (trapped f m at_)) as (m' & E & Hg & Hs & Hsa & Hw & Hb); [done| |].
  { by apply (frame_at_ext (words m1)). }
  exists m'. split; [exact E|]. split.
  { intros j Hj. destruct j as [|j]; [done|]. rewrite Hg by lia.
    cbn [general_registers trapped set_pc set_registers]. by rewrite registers_lookup by lia. }
  split; [done|]. split; [done|]. split; [|rewrite Hw; by apply (frame_at_ext (words m1))].
  rewrite Hb, Hst2. change (Z.testbit (read_csr Sstatus m1) 5 = Z.testbit (read_csr Sstatus m) 1).
  rewrite Hst. apply trap_saves.
Qed.
(** *** The switch to a process and back *)

(** The words the switch relies on: both frames and the slot on the stack. *)
Definition kept (p q slot a : Z) : Prop := in_frame p a \/ in_frame q a \/ a = slot.

(** The stack pointer of the routine, and its frame on the stack. *)
Definition lowered (m : CpuState) : CpuState := set sp ((get sp m + -16) mod 2 ^ 64) m.

Lemma get_lowered j m : j <> sp -> get j (lowered m) = get j m.
Proof. intros H. by apply get_other. Qed.

(** Up to the call of [run]. *)
Lemma store_and_run m q fq :
  get a0 m = q -> frame_at (words m) q fq ->
  (get sp m - 16) mod 8 = 0 -> 16 <= get sp m < 2 ^ 64 -> ~ in_frame q (get sp m - 16) ->
  exists m1, run_code store_to_trap_frame_and_run_function None m =
      (n ← step symbol return_address kernel_calls (Jalr a1) m1;
       match n with
       | Step m => run_code (Label ".before_return" :: before_return) None m
       | Goto l m => run_code (Label ".before_return" :: before_return) (Some l) m
       | Leave e m => Val (m, e)
       end) /\
    csrs m1 = csrs m /\ (forall j, j <> t0 -> j <> sp -> get j m1 = get j m) /\
    frame_at (words m1) q (set_pc (set_registers fq (registers (lowered m))) (symbol ".before_return")) /\
    words m1 !! (get sp m - 16) = Some (get ra m) /\
    forall a, ~ in_frame q a -> a <> get sp m - 16 -> words m1 !! a = words m !! a.
Proof.
  intros Hq Hf Hal Hb Hout. pose proof Hf as [Ha Hl Hh Hr Hw].
  unfold store_to_trap_frame_and_run_function. cbn [app]. asm. fold (lowered m).
  assert (Hsp : get sp (lowered m) = get sp m - 16).
  { unfold lowered. rewrite get_set. cbn [Nat.eqb sp]. rewrite Z.mod_small by lia. lia. }
  unfold store at 1. rewrite address_Val by (rewrite Hsp, Z.add_0_r; done || lia).
  cbn [mbind outcome_bind]. rewrite Hsp, Z.add_0_r.
  set (m0 := set_words _ (lowered m)).
  rewrite (exec_stores symbol return_address kernel_calls a0 32 0 m0 q) by (done || lia).
  cbn [app]. asm. unfold store. rewrite (address_frame q 32) by (done || lia). cbn [mbind outcome_bind].
  rewrite exec_cons. eexists. split; [reflexivity|]. cbn [csrs words set_words set].
  split; [done|]. split; [|split; [|split]].
  - intros j H1 H2. rewrite get_set_words, get_other, !get_set_words by done. by apply get_other.
  - apply (frame_at_pc _ _ (set_registers fq (registers (lowered m)))).
    apply (frame_at_registers (words m0)).
    + apply (frame_at_ext (words m)); [|done]. intros a Hin. cbn [m0 words set_words].
      rewrite lookup_insert_ne; [done|]. by intros <-.
    + intros j Hj. by rewrite stored_in by lia.
    + intros j Hj. by rewrite stored_out by (intros k Hk; lia).
  - rewrite lookup_insert_ne by (unfold in_frame in Hout; lia).
    rewrite stored_out by (intros k Hk; unfold in_frame in Hout; lia).
    cbn [m0 words set_words]. by rewrite lookup_insert_eq.
  - intros a Hin Hne. rewrite lookup_insert_ne by (unfold in_frame in Hin; lia).
    rewrite stored_out by (intros k Hk; unfold in_frame in Hin; lia).
    cbn [m0 words set_words]. by rewrite lookup_insert_ne.
Qed.
(** Back on the frame [q]: the return of the routine. *)
Lemma comes_back m ra_ slot :
  get sp m = slot -> slot mod 8 = 0 -> 0 <= slot -> slot + 16 < 2 ^ 64 -> words m !! slot = Some ra_ ->
  exists m', run_code before_return None m = Val (m', Returned ra_) /\
    get sp m' = slot + 16 /\ get ra m' = ra_ /\
    (forall j, j <> ra -> j <> sp -> get j m' = get j m) /\ csrs m' = csrs m /\ words m' = words m.
Proof.
  intros Hsp Ha Hl Hh Hw. unfold before_return. asm. unfold load.
  rewrite address_Val by (rewrite Hsp, Z.add_0_r; done || lia).
  cbn [mbind outcome_bind]. rewrite Hsp, Z.add_0_r, Hw. cbn [mbind outcome_bind]. asm.
  eexists. split; [reflexivity|]. split; [|split; [done|split; [|done]]].
  - rewrite get_set. cbn [Nat.eqb sp]. rewrite get_other by done. change 2%nat with sp. rewrite Hsp.
    apply Z.mod_small. lia.
  - intros j H1 H2. by rewrite !get_other by done.
Qed.

(** A trap with a frame to restore leaves on that frame. *)
Lemma trap_comes_back keep m p q f fq at_ :
  (forall m, preserves keep m (compiled m)) ->
  (forall a, in_frame p a -> keep a) -> (forall a, in_frame q a -> keep a) ->
  (forall a, in_frame p a -> ~ in_frame q a) ->
  read_csr Sscratch m = p -> frame_at (words m) p f -> frame_at (words m) q fq ->
  restore_context f = q -> q <> 0 -> handled (scause (csrs m)) ->
  exists m', run_code s_trap_vector None (trap at_ m) = Val (m', Resumed (pc fq)) /\
    (forall j, (1 <= j < 32)%nat -> get j m' = default 0 (general_registers fq !! j)) /\
    read_csr Sscratch m' = q /\ read_csr Satp m' = satp fq /\
    frame_at (words m') p (trapped f m at_) /\
    forall a, keep a -> ~ in_frame p a -> words m' !! a = words m !! a.
Proof.
  intros Hcomp Hkp Hkq Hdis Hs Hp Hq Hctx Hq0 Hc.
  destruct (trap_enters m p f at_ Hs Hp) as (m1 & rest & -> & -> & H1 & _ & _ & Hst & Hca & Hf1 & Ho1).
  cbn [step]. unfold call.
  destruct (trap_handler_calls keep (set ra (return_address (Symbol "trap_handler")) m1) p (trapped f m at_))
    as (m2 & -> & H2 & Hst2 & Hw2); [done|done|done|done|by rewrite <- Hca in Hc|].
  change (words (set _ _ m1)) with (words m1) in Hw2.
  cbn [restore_context trapped set_pc set_registers]. rewrite Hctx, (proj2 (Z.eqb_neq q 0) Hq0).
  assert (Hqq : forall a, in_frame q a -> words m2 !! a = words m !! a).
  { intros a Ha. rewrite Hw2, Ho1; [done| |by apply Hkq]. intros Hin. by apply (Hdis a). }
  destruct (switch_to_spec m2 q fq) as (m' & E & Hg & Hs' & Hsa & _ & _ & Hw).
  { by apply (frame_at_ext (words m)). }
  rewrite E. cbn [mbind outcome_bind fst snd]. exists m'. do 4 (split; [done|]). rewrite Hw. split.
  - apply (frame_at_ext (words m1)); [|done]. intros a Ha. by apply Hw2, Hkp.
  - intros a Ha Hn. by rewrite Hw2, Ho1.
Qed.

(** Switching to a process and back.  The caller passes its frame [q], the
    function [run] and the process, whose frame is [p].  The hart leaves for the
    process: its program counter, registers and address space, its frame in
    [sscratch].  Whatever the process does then, as long as it leaves both
    frames and the return address alone, its next trap brings the hart back
    behind the call, with every register of the caller, the stack pointer and
    the return address included, and the address space of [q]; the process's
    frame holds the context it was interrupted in.  [sscratch] stays on [q], a
    frame the caller frees. *)
Theorem switch_and_come_back m p q fp fq :
  let slot := get sp m - 16 in
  (forall m, preserves (kept p q slot) m (compiled m)) ->
  get a0 m = q -> get a1 m = run_address -> frame_of (get a2 m) = p ->
  frame_at (words m) q fq -> frame_at (words m) p fp ->
  (forall a, in_frame p a -> ~ in_frame q a) -> ~ in_frame p slot -> ~ in_frame q slot ->
  slot mod 8 = 0 -> 16 <= get sp m < 2 ^ 64 ->
  exists m1, run_code store_to_trap_frame_and_run_function None m = Val (m1, Resumed (pc fp)) /\
    (forall j, (1 <= j < 32)%nat -> get j m1 = default 0 (general_registers fp !! j)) /\
    read_csr Sscratch m1 = p /\ read_csr Satp m1 = satp fp /\
    forall m2 at_,
      read_csr Sscratch m2 = p -> (forall a, kept p q slot a -> words m2 !! a = words m1 !! a) ->
      q <> 0 -> handled (scause (csrs m2)) ->
      exists m3 m4, run_code s_trap_vector None (trap at_ m2) = Val (m3, Resumed (symbol ".before_return")) /\
        run_code before_return None m3 = Val (m4, Returned (get ra m)) /\
        (forall j, (j < 32)%nat -> get j m4 = get j m) /\
        read_csr Satp m4 = satp fq /\ read_csr Sscratch m4 = q /\
        frame_at (words m4) p (trapped (set_restore_context fp q) m2 at_).
Proof.
  intros slot Hcomp Hq Hrun Hp Hfq Hfp Hdis Hps Hqs Hal Hb.
  destruct (store_and_run m q fq) as (m1 & -> & Hc1 & Hg1 & Hf1 & Hra1 & Ho1); [done..|]. fold slot in Hra1, Ho1.
  cbn [step]. unfold call. rewrite Hg1 by done. cbn [kernel_calls]. rewrite Hrun, Z.eqb_refl.
  unfold run_process. rewrite !get_other, !Hg1, Hp, Hq by done.
  set (mr := set_words _ _). destruct (Hcomp mr) as [_ Hwr].
  assert (Hwp : frame_at (words mr) p (set_restore_context fp q)).
  { apply frame_at_restore_context. apply (frame_at_ext (words m)); [|done].
    intros a Ha. rewrite Ho1; [done|by apply Hdis|by intros ->]. }
  assert (Hwq : forall a, in_frame q a \/ a = slot -> words mr !! a = words m1 !! a).
  { intros a Ha. cbn [mr words set_words]. apply lookup_insert_ne. intros <-.
    assert (Hin : in_frame p (p + 8 * 41)) by (unfold in_frame; lia).
    destruct Ha as [Ha|Ha]; [by apply (Hdis _ Hin)|by rewrite Ha in Hin]. }
  destruct (switch_to_spec (compiled mr) p (set_restore_context fp q)) as (m' & E & Hg & Hs & Hsa & _ & _ & Hw).
  { apply (frame_at_ext (words mr)); [|done]. intros a Ha. apply Hwr. by left. }
  rewrite E. cbn [mbind outcome_bind fst snd]. exists m'. do 4 (split; [done|]).
  intros m2 at_ Hs2 Hk2 Hq0 Hc2.
  assert (Hback : forall a, kept p q slot a -> words m2 !! a = words mr !! a).
  { intros a Ha. rewrite Hk2, Hw by done. by apply Hwr. }
  destruct (trap_comes_back (kept p q slot) m2 p q (set_restore_context fp q)
    (set_pc (set_registers fq (registers (lowered m))) (symbol ".before_return")) at_)
    as (m3 & E3 & Hg3 & Hs3 & Hsa3 & Hf3 & Hw3); [done|by left|by right; left|done|done|..|done|done|done|].
  { apply (frame_at_ext (words mr)); [|done]. intros a Ha. apply Hback. by left. }
  { apply (frame_at_ext (words m1)); [|done]. intros a Ha.
    rewrite Hback by (by right; left). apply Hwq. by left. }
  assert (Hreg : forall j, (j < 32)%nat -> get j m3 = get j (lowered m)).
  { intros j Hj. destruct j as [|j]; [done|]. rewrite Hg3 by lia.
    cbn [general_registers set_pc set_registers]. by rewrite registers_lookup by lia. }
  destruct (comes_back m3 (get ra m) slot) as (m4 & E4 & Hsp4 & Hra4 & Hg4 & Hc4 & Hw4); [|done|lia|lia|..].
  { rewrite Hreg by (unfold sp; lia). unfold lowered. rewrite get_set. cbn [Nat.eqb sp].
    rewrite Z.mod_small; lia. }
  { rewrite Hw3, Hback, Hwq; [done|by right|by right; right|by right; right|done]. }
  exists m3, m4. split; [exact E3|]. split; [exact E4|]. split.
  { intros j Hj. destruct (decide (j = ra)) as [->|Hra]; [done|].
    destruct (decide (j = sp)) as [->|Hsp]; [rewrite Hsp4; lia|].
    rewrite Hg4, Hreg by done. by apply get_other. }
  unfold read_csr in *. rewrite Hc4, Hw4. done.
Qed.
End Kernel.

(** ** Sample machines *)

Definition frame_of_process (stack restore : Z) : TrapFrame :=
  mkTrapFrame (<[2%nat := stack]> (replicate 32 0)) 0x80400000 0 1 0x82001000 0 0x42 0x43 0 0 restore.

(** Interrupted with the timer interrupt, one frame at 0x1000. *)
Definition timer_machine : CpuState :=
  mkCpu (fun i => Z.of_nat i) (sample_hart (interrupt_cause 5)) 0
    (write_frame 0x1000 (frame_of_process 0x9000 0) ∅).

Lemma trap_transparent_witness :
  exists m', exec (fun _ => 0) (fun _ => 0) (kernel_calls (fun _ => 0) (fun _ => 0) one_hart_firmware [] id 0 id)
               s_trap_vector None (trap 0x80200004 timer_machine) = Val (m', Resumed 0x80200004) /\
    get t3 m' = 28.
Proof.
  destruct (trap_transparent (fun _ => 0) (fun _ => 0) one_hart_firmware [] id 0 id timer_machine 0x1000
    (frame_of_process 0x9000 0) 0x80200004) as (m' & E & Hg & _);
    [done|reflexivity|by apply write_frame_at|reflexivity|right; vm_compute; done|].
  exists m'. split; [exact E|]. rewrite Hg by (unfold t3; lia). reflexivity.
Defined.

(** About to switch from the frame at 0x2000 to that at 0x3000. *)
Definition switching_machine : CpuState :=
  mkCpu (fun i => if (i =? 2)%nat then 0x8000 else if (i =? 10)%nat then 0x2000
                  else if (i =? 11)%nat then 0x80300000 else if (i =? 12)%nat then 0x3000 else Z.of_nat i)
    (sample_hart (interrupt_cause 5)) 0
    (write_frame 0x2000 (frame_of_process 0 0) (write_frame 0x3000 (frame_of_process 0x9000 0) ∅)).

Lemma switch_and_come_back_witness :
  exists m', exec (fun _ => 0) (fun _ => 0)
               (kernel_calls (fun _ => 0) (fun _ => 0) one_hart_firmware [] id 0x80300000 id)
               store_to_trap_frame_and_run_function None switching_machine = Val (m', Resumed 0x80400000) /\
    read_csr Satp m' = 0x42.
Proof.
  destruct (switch_and_come_back (fun _ => 0) (fun _ => 0) one_hart_firmware [] id 0x80300000 id
    switching_machine 0x3000 0x2000 (frame_of_process 0x9000 0) (frame_of_process 0 0))
    as (m' & E & _ & _ & Hs & _); try reflexivity.
  - done.
  - by apply write_frame_at.
  - apply (frame_at_ext (write_frame 0x3000 (frame_of_process 0x9000 0) ∅)); [|by apply write_frame_at].
    intros a Ha. apply write_frame_out; [done|]. unfold in_frame in *. lia.
  - unfold in_frame. lia.
  - change (~ in_frame 0x3000 0x7ff0). unfold in_frame. lia.
  - change (~ in_frame 0x2000 0x7ff0). unfold in_frame. lia.
  - change (16 <= 0x8000 < 2 ^ 64). lia.
  - exists m'. split; [exact E|exact Hs].
Defined.

(** ** The supervisor's system call *)

(** Where the registers of a system call come from: the number moves from [a0]
    to [a7] and the arguments down by one; [a5] keeps its value. *)
Definition syscall_source (j : nat) : nat :=
  if (j =? a7)%nat then a0
  else if (j =? a6)%nat then a7
  else if (a0 <=? j)%nat && (j <? a5)%nat then S j
  else j.

Definition syscall_moves : list (nat * nat) :=
  [(t0, a7); (a7, a0); (a0, a1); (a1, a2); (a2, a3); (a3, a4); (a4, a5); (a6, t0)].

(** The register whose value a register has after the moves. *)
Definition moved (l : list (nat * nat)) (j : nat) : nat :=
  foldr (fun '(rd, rs) k => if (k =? rd)%nat then rs else k) j l.

Section Syscall.
Context (symbol : string -> Z) (return_address : Target -> Z).
Notation run_code := (exec symbol return_address no_calls).

Lemma exec_moves l m rest :
  Forall (fun '(rd, _) => rd <> 0%nat) l ->
  exists m', run_code (List.map (fun '(rd, rs) => Mv rd rs) l ++ rest) None m = run_code rest None m' /\
    csrs m' = csrs m /\ words m' = words m /\ forall j, get j m' = get (moved l j) m.
Proof.
  intros Hl. revert m. induction Hl as [|[rd rs] l Hrd Hl IH]; intros m; [by exists m|].
  cbn [List.map app]. rewrite exec_cons. cbn [step mbind outcome_bind].
  destruct (IH (set rd (get rs m) m)) as (m' & E & Hc & Hw & Hg). exists m'. do 3 (split; [done|]).
  intros j. rewrite Hg. cbn [moved foldr]. fold (moved l j). destruct (Nat.eqb_spec (moved l j) rd) as [->|Hne].
  - rewrite get_set, Nat.eqb_refl. by rewrite (proj2 (Nat.eqb_neq rd 0)).
  - by rewrite get_other.
Qed.

(** The system call of the supervisor.  With every interrupt disabled it
    leaves for [syscall_on_interrupt_disabled], the arguments untouched and the
    stack pointer sixteen below the caller's; otherwise it raises the software
    interrupt, with the number in [a7] and the arguments from [a0] to [a4], and
    returns to its caller.  The sixth argument never reaches its register: [a5]
    is not loaded from [a6], and [a6] has the caller's [a7].  Beyond the slot on
    the stack no word of memory changes. *)
Theorem do_supervisor_syscall_spec m :
  let slot := get sp m - 16 in
  slot mod 8 = 0 -> 16 <= get sp m < 2 ^ 64 ->
  exists m' e, run_code do_supervisor_syscall None m = Val (m', e) /\
    words m' = <[slot := get ra m]> (words m) /\
    if read_csr Sie m =? 0 then
      e = JumpedTo "syscall_on_interrupt_disabled" /\ csrs m' = csrs m /\ get sp m' = slot /\
      forall j, (j < 32)%nat -> j <> sp -> j <> t0 -> get j m' = get j m
    else
      e = Returned (get ra m) /\
      read_csr Sip m' = Z.lor (read_csr Sip m) csr.SSIP /\
      forall j, (j < 32)%nat -> j <> t0 -> get j m' = get (syscall_source j) m.
Proof.
  intros slot Ha Hb. unfold do_supervisor_syscall. asm.
  assert (Hsp : get sp (lowered m) = slot).
  { unfold lowered. rewrite get_set. cbn [Nat.eqb sp]. rewrite Z.mod_small; lia. }
  fold (lowered m). unfold store. rewrite address_Val by (rewrite Hsp, Z.add_0_r; done || lia).
  cbn [mbind outcome_bind]. rewrite Hsp, Z.add_0_r, get_lowered by done.
  asm. rewrite get_set. cbn [Nat.eqb t0].
  change (read_csr Sie (set_words (<[slot := get ra m]> (words (lowered m))) (lowered m))) with (read_csr Sie m).
  destruct (Z.eqb_spec (read_csr Sie m) 0) as [E0|E0].
  - cbn [Riscv.exec is_label String.eqb Ascii.eqb Bool.eqb]. asm.
    eexists _, _. split; [reflexivity|]. do 3 (split; [done|]).
    split; [rewrite get_other, get_set_words by done; exact Hsp|].
    intros j Hj H1 H2. rewrite get_other, get_set_words by done. by apply get_lowered.
  - match goal with |- context [run_code (Mv t0 a7 :: Mv a7 a0 :: Mv a0 a1 :: Mv a1 a2 :: Mv a2 a3 :: Mv a3 a4 ::
      Mv a4 a5 :: Mv a6 t0 :: ?rest) None ?x] =>
      destruct (exec_moves syscall_moves x rest) as (m1 & E & Hc1 & Hw1 & Hg1); [by repeat constructor|] end.
    cbn [syscall_moves List.map app] in E.
    rewrite E. clear E. asm.
    match goal with |- context [load 0 sp ?x] => set (m2 := x) end.
    assert (Hg2 : forall j, j <> t0 -> get j m2 = get (moved syscall_moves j)
      (set t0 (read_csr Sie m) (lowered m))).
    { intros j Hj. transitivity (get j m1); [|exact (Hg1 j)].
      change (get j (set t0 (get t0 m2) (set t0 (read_csr Sip m1) m1)) = get j m1).
      by rewrite !get_other. }
    assert (Hsp2 : get sp m2 = slot) by (rewrite Hg2; [exact Hsp|done]).
    unfold load. rewrite address_Val by (rewrite Hsp2, Z.add_0_r; done || lia).
    cbn [mbind outcome_bind]. rewrite Hsp2, Z.add_0_r.
    assert (Hw2 : words m2 = <[slot := get ra m]> (words m)) by exact Hw1.
    rewrite Hw2, lookup_insert_eq. cbn [mbind outcome_bind]. asm.
    eexists _, _. split; [reflexivity|]. split; [exact Hw2|]. split; [by rewrite get_other|].
    split; [change (Z.lor (read_csr Sip m1) csr.SSIP = Z.lor (read_csr Sip m) csr.SSIP); cbn; by rewrite Hc1|].
    intros j Hj Hne. destruct (decide (j = sp)) as [->|Hs].
    { rewrite get_set. cbn [Nat.eqb sp]. rewrite get_other by done. change 2%nat with sp.
      rewrite Hsp2, Z.mod_small by lia. unfold slot. cbn. lia. }
    rewrite get_other by done. destruct (decide (j = ra)) as [->|Hr]; [done|].
    rewrite get_other, Hg2 by done.
    do 32 (destruct j as [|j]; [done|]). lia.
Qed.
End Syscall.

Lemma do_supervisor_syscall_spec_witness :
  exists m', exec (fun _ => 0) (fun _ => 0) no_calls do_supervisor_syscall None switching_machine
               = Val (m', Returned 1) /\
    get a7 m' = 0x2000 /\ get a5 m' = 15 /\ get a6 m' = 17.
Proof.
  destruct (do_supervisor_syscall_spec (fun _ => 0) (fun _ => 0) switching_machine)
    as (m' & e & E & _ & H); [reflexivity|by vm_compute|].
  change (read_csr Sie switching_machine =? 0) with false in H. destruct H as (-> & _ & Hg).
  exists m'. split; [exact E|]. rewrite !Hg by (done || (unfold a7, a5, a6; lia)). done.
Defined.
