(* ===== verification/SpinLock.v ===== *)
(** * kernel_lock: spin locks and the locks of interrupt contexts

    [kernel_lock/src/spin/mutex.rs], [spin/rwlock.rs], [interrupt/mutex.rs] and
    [interrupt/rwlock.rs].

    Harts share the lock's atomic word and interleave at its atomic operations
    (all sequentially consistent in the code, save the releasing store).  The
    program counter of a hart says which operation it performs next; its client
    follows the discipline of the guards: a hart that holds the lock releases
    it, a hart that does not may call any of the acquiring functions.  [loop]
    tells [lock] (which retries) from [try_lock] (which gives up). *)

From S2P Require Import Prelude Cpu.

(** ** [spin::Mutex] *)

Module Mutex.

Inductive Pc :=
  | Out                    (* outside, without the lock *)
  | TryLock (loop : bool)  (* at the [compare_exchange] *)
  | Inside.                (* holds the lock; next is [unlock] *)

(** [compare_exchange(false, true)]: the new word and whether it succeeded. *)
Definition try_lock (locked : bool) : bool * bool := (true, negb locked).

Definition unlock (locked : bool) : bool := false.

Definition unlock_and_swap (locked : bool) : bool * bool := (false, locked).

(** The lock in memory; [locker_hartid] is there in debug builds. *)
Definition NO_HART : Z := 2 ^ 64 - 1.
Record RawSpinlock := mkRawSpinlock { locked : bool; locker_hartid : Z }.
Definition INIT : RawSpinlock := mkRawSpinlock false NO_HART.

(** What a debug build does before it spins: it asks whether the hart holds the
    lock itself, and does nothing about it. *)
Definition lock_check (h : Hart) (m : frames) (l : RawSpinlock) : outcome bool :=
  if locked l then hart ← load_hartid h m; Val (locker_hartid l =? hart) else Val false.

(** A lock that is taken and released some times. *)
Definition set_locked (l : RawSpinlock) (b : bool) : RawSpinlock := mkRawSpinlock b (locker_hartid l).

(** Nothing writes [locker_hartid], so the check never finds a hart that locks
    twice; but on a lock that is held it reads the frame in [sscratch], and a hart
    without one makes an access without meaning. *)
Lemma lock_check_never h m (bs : list bool) hart :
  load_hartid h m = Val hart -> 0 <= hart < NO_HART ->
  lock_check h m (foldl set_locked INIT bs) = Val false.
Proof.
  intros Hh Hb. unfold lock_check. rewrite Hh. destruct (locked _); [|done]. cbn [mbind outcome_bind].
  assert (E : locker_hartid (foldl set_locked INIT bs) = NO_HART).
  { enough (H : forall l, locker_hartid l = NO_HART -> locker_hartid (foldl set_locked l bs) = NO_HART) by by apply H.
    induction bs as [|b bs IH]; intros l Hl; [done|]. by apply IH. }
  by rewrite E, (proj2 (Z.eqb_neq _ _)) by lia.
Qed.

Lemma lock_check_no_frame h m l : locked l = true -> m !! sscratch h = None -> lock_check h m l = Stop Undefined.
Proof. intros Hl Hm. unfold lock_check, load_hartid, load_frame, read_sscratch. by rewrite Hl, Hm. Qed.

Inductive step : Pc * bool -> Pc * bool -> Prop :=
  | step_call loop l : step (Out, l) (TryLock loop, l)
  | step_acquired loop l l' : try_lock l = (l', true) -> step (TryLock loop, l) (Inside, l')
  | step_failed l l' : try_lock l = (l', false) -> step (TryLock false, l) (Out, l')
  | step_spin l l' : try_lock l = (l', false) -> step (TryLock true, l) (TryLock true, l')
  | step_unlock l : step (Inside, l) (Out, unlock l).

(** Any number of harts. *)
Inductive global_step : list Pc * bool -> list Pc * bool -> Prop :=
  | hart_step i hs p p' l l' :
      hs !! i = Some p -> step (p, l) (p', l') -> global_step (hs, l) (<[i := p']> hs, l').

Definition initial (n : nat) : list Pc * bool := (replicate n Out, false).

Definition inside (p : Pc) : bool := match p with Inside => true | _ => false end.

Definition invariant (c : list Pc * bool) : Prop := countb inside c.1 = Z.b2z c.2.

Lemma mutex_invariant_step c c' : invariant c -> global_step c c' -> invariant c'.
Proof.
  unfold invariant. intros Hi Hst. destruct Hst as [i hs p p' l l' Hp Hs]. cbn [fst snd] in *.
  rewrite (countb_insert inside hs i p p' Hp), Hi.
  inversion Hs as [| ? ? ? E | ? ? E | ? ? E |]; subst; cbn [inside Z.b2z unlock] in *;
    try (unfold try_lock in E; injection E as <- E; destruct l; try done; cbn [Z.b2z] in *; lia).
  - lia.
  - pose proof (countb_pos inside hs i Inside Hp eq_refl). destruct l; cbn [Z.b2z] in *; lia.
Qed.

Lemma mutex_invariant_reachable n c : rtc global_step (initial n) c -> invariant c.
Proof.
  intros H. assert (Hi : invariant (initial n)) by (apply countb_replicate; done).
  revert Hi. induction H as [|c c1 c2 Hs _ IH]; [done|]. intros Hi. by eapply IH, mutex_invariant_step.
Qed.

(** C22: the spin mutex excludes.  In every interleaving of any number of
    harts, at most one is inside, and the word is set exactly while one is; so
    a hart that tries while nobody is inside succeeds. *)
Theorem mutual_exclusion n hs l :
  rtc global_step (initial n) (hs, l) ->
  (forall i j, hs !! i = Some Inside -> hs !! j = Some Inside -> i = j) /\
  (l = true <-> exists i, hs !! i = Some Inside) /\
  ((forall i, hs !! i <> Some Inside) -> try_lock l = (true, true)).
Proof.
  intros Hr. apply mutex_invariant_reachable in Hr. unfold invariant in Hr; cbn [fst snd] in Hr.
  assert (Hex : l = true <-> exists i, hs !! i = Some Inside).
  { split.
    - intros ->. cbn [Z.b2z] in Hr. clear -Hr. induction hs as [|p hs IH]; [done|].
      rewrite countb_cons in Hr. destruct p; cbn [inside Z.b2z] in Hr;
        [destruct IH as [i Hi]; [lia|by exists (S i)]..|by exists 0%nat].
    - intros [i Hi]. pose proof (countb_pos inside hs i Inside Hi eq_refl).
      destruct l; [done|]. cbn [Z.b2z] in Hr. lia. }
  split; [|split; [done|]].
  - intros i j Hi Hj. destruct (decide (i = j)) as [|Hne]; [done|].
    pose proof (countb_two inside hs i j _ _ Hi Hj Hne eq_refl eq_refl).
    destruct l; cbn [Z.b2z] in Hr; lia.
  - intros Hno. destruct l; [|done]. destruct (proj1 Hex eq_refl) as [i Hi]. by destruct (Hno i).
Qed.

Lemma mutual_exclusion_witness :
  try_lock false = (true, true) /\ (true = true <-> exists i : nat, [Inside; Out] !! i = Some Inside).
Proof.
  assert (Hr : rtc global_step (initial 2) ([Inside; Out], true)).
  { eapply rtc_l; [apply (hart_step 0 [Out; Out] Out (TryLock true)); [reflexivity|constructor]|].
    eapply rtc_l; [apply (hart_step 0 [TryLock true; Out] (TryLock true) Inside false true);
      [reflexivity|by constructor]|]. apply rtc_refl. }
  split; [reflexivity|]. apply (mutual_exclusion 2 [Inside; Out] true Hr).
Defined.

End Mutex.

(** ** [spin::RwLock] *)

Module RwLock.

Definition SHARED : Z := 2 ^ 1.
Definition WRITER : Z := 2 ^ 0.

Inductive Pc :=
  | Out
  | SharedLoad (loop : bool)                  (* the load and the test *)
  | SharedExchange (loop : bool) (outdated : Z)  (* the [compare_exchange] *)
  | InShared
  | ExclusiveLoad (loop : bool)
  | ExclusiveExchange (loop : bool) (outdated : Z)
  | InExclusive.

Definition has_writer (v : Z) : bool := negb (Z.land v WRITER =? 0).

(** [try_lock_shared]: its load, before and inside the loop. *)
Definition shared_load (loop : bool) (value : Z) : Pc :=
  if has_writer value then (if loop then SharedLoad true else Out) else SharedExchange loop value.

Definition exclusive_load (loop : bool) (value : Z) : Pc :=
  if negb (value =? 0) then (if loop then ExclusiveLoad true else Out)
  else ExclusiveExchange loop value.

(** [compare_exchange(outdated, outdated + amount)]. *)
Definition compare_exchange_add (outdated amount value : Z) : outcome (bool * Z) :=
  new ← checked_add 64 outdated amount;
  Val (if value =? outdated then (true, new) else (false, value)).

Definition unlock_shared (value : Z) : Z := wrapping_sub value SHARED.
Definition unlock_exclusive (value : Z) : Z := wrapping_sub value WRITER.
Definition is_locked (value : Z) : bool := negb (value =? 0).

(** Where the result of an exchange leads. *)
Definition exchanged (won lost : Pc) (r : bool * Z) : Pc * Z := (if r.1 then won else lost, r.2).

(** One atomic operation of a hart in a call, or the release of a holder. *)
Definition hart_op (p : Pc) (value : Z) : outcome (Pc * Z) :=
  match p with
  | Out => Val (Out, value)
  | SharedLoad loop => Val (shared_load loop value, value)
  | SharedExchange loop outdated =>
      r ← compare_exchange_add outdated SHARED value;
      Val (exchanged InShared (SharedLoad loop) r)
  | InShared => Val (Out, unlock_shared value)
  | ExclusiveLoad loop => Val (exclusive_load loop value, value)
  | ExclusiveExchange loop outdated =>
      r ← compare_exchange_add outdated WRITER value;
      Val (exchanged InExclusive (ExclusiveLoad loop) r)
  | InExclusive => Val (Out, unlock_exclusive value)
  end.

Inductive call : Pc -> Prop :=
  | call_shared loop : call (SharedLoad loop)
  | call_exclusive loop : call (ExclusiveLoad loop).

Inductive global_step : list Pc * Z -> list Pc * Z -> Prop :=
  | hart_call i hs p v : hs !! i = Some Out -> call p -> global_step (hs, v) (<[i := p]> hs, v)
  | hart_step i hs p p' v v' :
      hs !! i = Some p -> hart_op p v = Val (p', v') -> global_step (hs, v) (<[i := p']> hs, v').

Definition initial (n : nat) : list Pc * Z := (replicate n Out, 0).

Definition in_shared (p : Pc) : bool := match p with InShared => true | _ => false end.
Definition in_exclusive (p : Pc) : bool := match p with InExclusive => true | _ => false end.

(** What a hart has read: the word had no writer. *)
Definition pc_ok (p : Pc) : Prop :=
  match p with
  | SharedExchange _ o => 0 <= o <= 2 ^ 62 /\ has_writer o = false
  | ExclusiveExchange _ o => o = 0
  | _ => True
  end.

Record invariant (c : list Pc * Z) : Prop := {
  inv_value : c.2 = SHARED * countb in_shared c.1 + countb in_exclusive c.1;
  inv_exclusive : countb in_exclusive c.1 <= 1;
  inv_separate : countb in_exclusive c.1 = 1 -> countb in_shared c.1 = 0;
  inv_pcs : Forall pc_ok c.1;
  inv_harts : Z.of_nat (length c.1) <= 2 ^ 61
}.

Lemma has_writer_odd v : has_writer v = Z.odd v.
Proof.
  unfold has_writer, WRITER. rewrite land_pow2_eqb, negb_involutive by lia. apply Z.bit0_odd.
Qed.

Lemma odd_count s e : 0 <= e <= 1 -> Z.odd (SHARED * s + e) = (e =? 1).
Proof.
  intros He. unfold SHARED. change (2 ^ 1) with 2.
  rewrite Z.odd_add, Z.odd_mul. change (Z.odd 2) with false. cbn [andb xorb].
  assert (e = 0 \/ e = 1) as [-> | ->] by lia; reflexivity.
Qed.

Lemma op_not_out p v : pc_ok p -> 0 <= v <= 2 ^ 62 -> exists r, hart_op p v = Val r.
Proof.
  intros Hp Hv. destruct p; cbn [hart_op]; eauto; unfold compare_exchange_add, SHARED, WRITER;
    cbn [pc_ok] in Hp; rewrite checked_add_Val by lia; cbn [mbind outcome_bind];
    destruct (v =? _); cbn [mbind outcome_bind]; eauto.
Qed.

(** The five things an operation can do. *)
Lemma hart_op_effect p p' v v' :
  pc_ok p -> 0 <= v <= 2 ^ 62 -> hart_op p v = Val (p', v') ->
  pc_ok p' /\
  (in_shared p' = in_shared p /\ in_exclusive p' = in_exclusive p /\ v' = v
   \/ in_shared p = false /\ in_exclusive p = false /\ p' = InShared /\ v' = v + 2 /\ has_writer v = false
   \/ in_shared p = false /\ in_exclusive p = false /\ p' = InExclusive /\ v = 0 /\ v' = 1
   \/ p = InShared /\ p' = Out /\ v' = unlock_shared v
   \/ p = InExclusive /\ p' = Out /\ v' = unlock_exclusive v).
Proof.
  intros Hpp Hv Hop. destruct p; cbn [hart_op] in Hop.
  - injection Hop as <- <-. auto.
  - injection Hop as <- <-. unfold shared_load. destruct (has_writer v) eqn:Ew.
    + split; [by destruct loop|]. left. by destruct loop.
    + split; [|by left]. by split.
  - unfold compare_exchange_add in Hop. cbn [pc_ok] in Hpp. unfold SHARED in Hop.
    rewrite checked_add_Val in Hop by lia. cbn [mbind outcome_bind] in Hop.
    destruct (Z.eqb_spec v outdated) as [->|]; cbn [mbind outcome_bind] in Hop; injection Hop as <- <-.
    + split; [done|]. right; left. tauto.
    + split; [done|]. by left.
  - injection Hop as <- <-. split; [done|]. tauto.
  - injection Hop as <- <-. unfold exclusive_load. destruct (Z.eqb_spec v 0); cbn [negb].
    + split; [done|]. by left.
    + split; [by destruct loop|]. left. by destruct loop.
  - unfold compare_exchange_add in Hop. cbn [pc_ok] in Hpp. subst outdated. unfold WRITER in Hop.
    rewrite checked_add_Val in Hop by lia. cbn [mbind outcome_bind] in Hop.
    destruct (Z.eqb_spec v 0) as [->|]; cbn [mbind outcome_bind] in Hop; injection Hop as <- <-.
    + split; [done|]. right; right; left. done.
    + split; [done|]. by left.
  - injection Hop as <- <-. split; [done|]. tauto.
Qed.

Lemma rwlock_invariant_step c c' : invariant c -> global_step c c' -> invariant c'.
Proof.
  intros [Hv He Hs Hp Hh] Hst.
  destruct Hst as [i hs p v Hi Hcall | i hs p p' v v' Hi Hop]; cbn [fst snd] in *;
    pose proof (countb_bounds in_shared hs); pose proof (countb_bounds in_exclusive hs).
  - split; cbn [fst snd]; rewrite ?(countb_insert _ hs i Out p Hi), ?length_insert; try done;
      try (destruct Hcall; cbn [in_shared in_exclusive Z.b2z]; lia).
    apply Forall_insert; [done|]. by destruct Hcall.
  - assert (Hpp : pc_ok p) by (by eapply Forall_lookup_1).
    pose proof (hart_op_effect p p' v v' Hpp ltac:(unfold SHARED in Hv; lia) Hop) as Hn.
    destruct Hn as [Hpc Hn].
    assert (Hpcs : Forall pc_ok (<[i := p']> hs)) by (by apply Forall_insert).
    split; cbn [fst snd]; rewrite ?length_insert; try done;
      rewrite ?(countb_insert _ hs i p p' Hi);
      destruct Hn as [(E1 & E2 & ->) | [(E1 & E2 & -> & -> & Ew) | [(E1 & E2 & -> & E0 & ->)
        | [(-> & -> & ->) | (-> & -> & ->)]]]]; cbn [in_shared in_exclusive Z.b2z] in *;
      rewrite ?E1, ?E2; cbn [Z.b2z]; unfold SHARED in *;
      try (pose proof (countb_pos in_shared hs i InShared Hi eq_refl));
      try (pose proof (countb_pos in_exclusive hs i InExclusive Hi eq_refl));
      try (rewrite has_writer_odd, Hv, odd_count in Ew by lia; apply Z.eqb_neq in Ew);
      unfold unlock_shared, unlock_exclusive, wrapping_sub, SHARED, WRITER;
      try (rewrite Z.mod_small by lia); lia.
Qed.

Lemma invariant_initial n : Z.of_nat n <= 2 ^ 61 -> invariant (initial n).
Proof.
  intros Hn. split; cbn [initial fst snd]; rewrite ?length_replicate, ?countb_replicate by done; try done.
  apply Forall_replicate. done.
Qed.

Lemma rwlock_invariant_reachable n c :
  Z.of_nat n <= 2 ^ 61 -> rtc global_step (initial n) c -> invariant c.
Proof.
  intros Hn H. pose proof (invariant_initial n Hn) as Hi. revert Hi.
  induction H as [|c c1 c2 Hs _ IH]; [done|]. intros Hi. by eapply IH, rwlock_invariant_step.
Qed.

(** C12: the spin read-write lock.  In every interleaving of up to 2^61 harts
    there is at most one writer, and no reader beside a writer; the word counts
    the readers and holds the writer's bit; and no operation panics: the reader
    count never overflows. *)
Theorem readers_xor_writer n hs v :
  Z.of_nat n <= 2 ^ 61 -> rtc global_step (initial n) (hs, v) ->
  (forall i j, hs !! i = Some InExclusive -> hs !! j = Some InExclusive -> i = j) /\
  (forall i j, hs !! i = Some InExclusive -> hs !! j <> Some InShared) /\
  v = SHARED * countb in_shared hs + countb in_exclusive hs /\
  (is_locked v = false <-> forall i, hs !! i <> Some InShared /\ hs !! i <> Some InExclusive) /\
  (forall i p, hs !! i = Some p -> exists r, hart_op p v = Val r).
Proof.
  intros Hn Hr. apply (rwlock_invariant_reachable n _ Hn) in Hr as [Hv He Hs Hp Hh]; cbn [fst snd] in *.
  pose proof (countb_bounds in_shared hs). pose proof (countb_bounds in_exclusive hs).
  split; [|split; [|split; [done|split]]].
  - intros i j Hi Hj. destruct (decide (i = j)) as [|Hne]; [done|].
    pose proof (countb_two in_exclusive hs i j _ _ Hi Hj Hne eq_refl eq_refl). lia.
  - intros i j Hi Hj. pose proof (countb_pos in_exclusive hs i _ Hi eq_refl).
    pose proof (countb_pos in_shared hs j _ Hj eq_refl). lia.
  - unfold is_locked. rewrite negb_false_iff, Z.eqb_eq. unfold SHARED in Hv. split.
    + intros ->. intros i. split; intros Hi.
      * pose proof (countb_pos in_shared hs i _ Hi eq_refl). lia.
      * pose proof (countb_pos in_exclusive hs i _ Hi eq_refl). lia.
    + intros Hno. assert (Hz : forall f, (forall i p, hs !! i = Some p -> f p = false) -> countb f hs = 0).
      { clear. induction hs as [|p hs IH]; intros f Hf; [done|]. rewrite countb_cons, IH.
        - by rewrite (Hf 0%nat p).
        - intros i q Hq. by apply (Hf (S i)). }
      rewrite Hv, !Hz; [done|..]; intros i p Hi; destruct (Hno i) as [H1 H2]; destruct p; try done;
        by rewrite Hi in *.
  - intros i p Hi. apply op_not_out; [by eapply Forall_lookup_1|]. unfold SHARED in Hv. lia.
Qed.

Lemma readers_xor_writer_witness :
  2 = SHARED * countb in_shared [InShared; Out] + countb in_exclusive [InShared; Out].
Proof.
  assert (Hr : rtc global_step (initial 2) ([InShared; Out], 2)).
  { eapply rtc_l; [apply (hart_call 0 [Out; Out] (SharedLoad true)); [reflexivity|constructor]|].
    eapply rtc_l; [by apply (hart_step 0 [SharedLoad true; Out] (SharedLoad true) (SharedExchange true 0) 0 0)|].
    eapply rtc_l; [by apply (hart_step 0 [SharedExchange true 0; Out] (SharedExchange true 0) InShared 0 2)|]. apply rtc_refl. }
  apply (readers_xor_writer 2 [InShared; Out] 2); [done|exact Hr].
Defined.

End RwLock.

(** ** The locks of interrupt contexts

    The spin locks, with an assertion on the context of the hart; [ctx] is the
    value of [in_interrupt_context]. *)

Module InterruptMutex.

Definition lock (ctx : bool) : outcome Mutex.Pc :=
  assert! ctx;; Val (Mutex.TryLock true).

Definition try_lock (locked : bool) : bool * bool := Mutex.try_lock locked.

Definition unlock (ctx : bool) (locked : bool) : outcome bool :=
  assert! ctx;; Val (Mutex.unlock locked).

End InterruptMutex.

Module InterruptRwLock.

Inductive Kind := Shared | Exclusive.

(** A hart in a call of kind [k] is at [p] of the internal lock; when the
    internal lock is taken, the caller gets the guard of its kind. *)
Inductive Pc :=
  | Out
  | Calling (k : Kind) (p : RwLock.Pc)
  | Holds (k : Kind).

Definition lock_shared (ctx : bool) : outcome Pc :=
  assert! ctx;; Val (Calling Shared (RwLock.SharedLoad true)).
Definition try_lock_shared : Pc := Calling Shared (RwLock.SharedLoad false).
(** [lock_exclusive] calls the internal [lock_shared]. *)
Definition lock_exclusive (ctx : bool) : outcome Pc :=
  assert! ctx;; Val (Calling Exclusive (RwLock.SharedLoad true)).
Definition try_lock_exclusive : Pc := Calling Exclusive (RwLock.ExclusiveLoad false).

Definition unlock_shared (value : Z) : Z := RwLock.unlock_shared value.
Definition unlock_exclusive (ctx : bool) (value : Z) : outcome Z :=
  assert! ctx;; Val (RwLock.unlock_exclusive value).

(** One operation of a hart in an interrupt context. *)
Definition hart_op (p : Pc) (value : Z) : outcome (Pc * Z) :=
  match p with
  | Out => Val (Out, value)
  | Calling k q =>
      r ← RwLock.hart_op q value;
      Val (match r.1 with
           | RwLock.InShared | RwLock.InExclusive => Holds k
           | RwLock.Out => Out
           | q' => Calling k q'
           end, r.2)
  | Holds Shared => Val (Out, unlock_shared value)
  | Holds Exclusive => value ← unlock_exclusive true value; Val (Out, value)
  end.

Inductive call : Pc -> Prop :=
  | call_lock_shared p : lock_shared true = Val p -> call p
  | call_try_lock_shared : call try_lock_shared
  | call_lock_exclusive p : lock_exclusive true = Val p -> call p
  | call_try_lock_exclusive : call try_lock_exclusive.

Inductive global_step : list Pc * Z -> list Pc * Z -> Prop :=
  | hart_call i hs p v : hs !! i = Some Out -> call p -> global_step (hs, v) (<[i := p]> hs, v)
  | hart_step i hs p p' v v' :
      hs !! i = Some p -> hart_op p v = Val (p', v') -> global_step (hs, v) (<[i := p']> hs, v').

(** Nobody holds the lock and every call is at a load. *)
Definition locked_out (p : Pc) : Prop :=
  match p with
  | Out => True
  | Calling _ (RwLock.SharedLoad _) | Calling _ (RwLock.ExclusiveLoad _) => True
  | _ => False
  end.

Lemma locked_out_step c c' :
  Forall locked_out c.1 /\ c.2 = 1 -> global_step c c' -> Forall locked_out c'.1 /\ c'.2 = 1.
Proof.
  intros [Hf H1] Hst. destruct Hst as [i hs p v Hi Hc | i hs p p' v v' Hi Hop]; cbn [fst snd] in *; subst v.
  - split; [|done]. apply Forall_insert; [done|]. by destruct Hc as [? [= <-] | | ? [= <-] |].
  - assert (Hp : locked_out p) by (by eapply Forall_lookup_1).
    destruct p as [|k q|k]; [|destruct q; try done|done]; cbn [hart_op RwLock.hart_op] in Hop;
      [by injection Hop as <- <-; split; [apply Forall_insert|]|..];
      destruct loop; injection Hop as <- <-; split; try done; by apply Forall_insert.
Qed.

(** The exclusive lock of the interrupt read-write lock is shared.  Two
    harts that call [lock_exclusive] are both inside together; and after one
    call and its release the word holds the writer's bit with nobody inside, so
    that no hart ever gets the lock again, whatever they try. *)
Theorem interrupt_rwlock_broken :
  let p := Calling Exclusive (RwLock.SharedLoad true) in
  lock_exclusive true = Val p /\
  run_schedule hart_op [0; 0; 1; 1]%nat ([p; p], 0) = Val ([Holds Exclusive; Holds Exclusive], 4) /\
  run_schedule hart_op [0; 0; 0]%nat ([p; Out], 0) = Val ([Out; Out], 1) /\
  forall hs, rtc global_step ([Out; Out], 1) hs -> Forall locked_out hs.1.
Proof.
  split; [done|]. split; [by vm_compute|]. split; [by vm_compute|].
  intros hs Hr.
  assert (Hi : Forall locked_out ([Out; Out], 1).1 /\ ([Out; Out], 1).2 = 1)
    by (split; [repeat constructor|done]).
  revert Hi. generalize ([Out; Out], 1) Hr. clear Hr. intros c Hr.
  induction Hr as [|c c1 c2 Hs _ IH]; [by intros [? _]|]. intros Hi. by apply IH, (locked_out_step c).
Qed.

End InterruptRwLock.
