(* ===== verification/SharedLock.v ===== *)
(** * kernel_lock: locks that also disable interrupts

    [kernel_lock/src/shared/mod.rs], [shared/mutex.rs], [shared/rwlock.rs] (a
    counter of held locks per hart decides when interrupts come back on),
    [simple_shared/mutex.rs] (the lock saves the interrupt enables) and
    [simple_shared/rwlock.rs] (the code of [shared/rwlock.rs] again).

    The first part runs on one hart: the sequence of its lock operations.  The
    second part is about two harts that interleave, where the code's own steps
    are not atomic: the growth of [HART_LOCK_COUNT], and the restoring of the
    saved enables. *)

From S2P Require Import Prelude Cpu SpinLock.

(** ** [HART_LOCK_COUNT] *)

(** Whether an entry had to be made, and the vector after. *)
Definition create_hart_lock_count_entry_if_necessary (counts : list Z) (hart : Z) : list Z * bool :=
  if hart <? Z.of_nat (length counts) then (counts, false)
  else (resize (Z.to_nat (hart + 1)) 0 counts, true).

(** What the lock operations of one hart change. *)
Record IrqState := mkIrq { irq_hart : Hart; counts : list Z }.

Definition lock_and_disable_interrupts (m : frames) (s : IrqState) : outcome IrqState :=
  ctx ← in_interrupt_context (irq_hart s) m;
  if negb ctx then
    let h := write_sie (irq_hart s) 0 in
    hart ← load_hartid h m;
    let '(cs, _) := create_hart_lock_count_entry_if_necessary (counts s) hart in
    c ← index cs hart;
    cs ← index_mut cs hart (wrapping_add c 1);
    Val (mkIrq h cs)
  else Val s.

Definition unlock_and_enable_interrupts_if_necessary (m : frames) (s : IrqState) : outcome IrqState :=
  ctx ← in_interrupt_context (irq_hart s) m;
  if negb ctx then
    hart ← load_hartid (irq_hart s) m;
    c ← index (counts s) hart;
    cs ← index_mut (counts s) hart (wrapping_sub c 1);
    if c =? 1 then Val (mkIrq (write_sie (irq_hart s) 0x222) cs) else Val (mkIrq (irq_hart s) cs)
  else Val s.

Definition this_hart_lock_count (m : frames) (s : IrqState) : outcome Z :=
  hart ← load_hartid (irq_hart s) m; index (counts s) hart.

(** ** [shared::Mutex] and [shared::RwLock] *)

Module SharedMutex.

(** [lock] turns interrupts off before it spins; the second component is where
    the internal lock starts. *)
Definition lock (m : frames) (s : IrqState) : outcome (IrqState * Mutex.Pc) :=
  s ← lock_and_disable_interrupts m s; Val (s, Mutex.TryLock true).

Definition try_lock (m : frames) (s : IrqState) (locked : bool) : outcome (IrqState * bool * bool) :=
  let '(locked, ok) := Mutex.try_lock locked in
  if ok : bool then s ← lock_and_disable_interrupts m s; Val (s, locked, true)
  else Val (s, locked, false).

Definition unlock (m : frames) (s : IrqState) (locked : bool) : outcome (IrqState * bool) :=
  let locked := Mutex.unlock locked in
  s ← unlock_and_enable_interrupts_if_necessary m s; Val (s, locked).

End SharedMutex.

Module SharedRwLock.

(** A call of the internal [try_lock_*] that no other hart disturbs. *)
Definition solo (p : RwLock.Pc) (value : Z) : outcome (RwLock.Pc * Z) :=
  r ← RwLock.hart_op p value;
  match r.1 with
  | RwLock.SharedExchange _ _ | RwLock.ExclusiveExchange _ _ => RwLock.hart_op r.1 r.2
  | _ => Val r
  end.

Definition lock_shared (m : frames) (s : IrqState) : outcome (IrqState * RwLock.Pc) :=
  s ← lock_and_disable_interrupts m s; Val (s, RwLock.SharedLoad true).

Definition lock_exclusive (m : frames) (s : IrqState) : outcome (IrqState * RwLock.Pc) :=
  s ← lock_and_disable_interrupts m s; Val (s, RwLock.ExclusiveLoad true).

Definition try_lock_shared (m : frames) (s : IrqState) (value : Z) : outcome (IrqState * Z * bool) :=
  r ← solo (RwLock.SharedLoad false) value;
  if RwLock.in_shared r.1 then s ← lock_and_disable_interrupts m s; Val (s, r.2, true)
  else Val (s, r.2, false).

Definition try_lock_exclusive (m : frames) (s : IrqState) (value : Z) : outcome (IrqState * Z * bool) :=
  r ← solo (RwLock.ExclusiveLoad false) value;
  if RwLock.in_exclusive r.1 then s ← lock_and_disable_interrupts m s; Val (s, r.2, true)
  else Val (s, r.2, false).

Definition unlock_shared (m : frames) (s : IrqState) (value : Z) : outcome (IrqState * Z) :=
  let value := RwLock.unlock_shared value in
  s ← unlock_and_enable_interrupts_if_necessary m s; Val (s, value).

Definition unlock_exclusive (m : frames) (s : IrqState) (value : Z) : outcome (IrqState * Z) :=
  let value := RwLock.unlock_exclusive value in
  s ← unlock_and_enable_interrupts_if_necessary m s; Val (s, value).

End SharedRwLock.

(** [simple_shared/rwlock.rs] is the same code with another guard marker. *)
Module SimpleSharedRwLock.

Definition lock_shared := SharedRwLock.lock_shared.
Definition try_lock_shared := SharedRwLock.try_lock_shared.
Definition unlock_shared := SharedRwLock.unlock_shared.
Definition lock_exclusive := SharedRwLock.lock_exclusive.
Definition try_lock_exclusive := SharedRwLock.try_lock_exclusive.
Definition unlock_exclusive := SharedRwLock.unlock_exclusive.

End SimpleSharedRwLock.

(** ** One hart: the nesting of its locks *)

Inductive LockOp := Lock | Unlock.

Definition lock_op (m : frames) (s : IrqState) (op : LockOp) : outcome IrqState :=
  match op with
  | Lock => lock_and_disable_interrupts m s
  | Unlock => unlock_and_enable_interrupts_if_necessary m s
  end.

(** The number of locks held after [ops]; [None] when one is released that is
    not held. *)
Fixpoint depth_after (d : nat) (ops : list LockOp) : option nat :=
  match ops with
  | [] => Some d
  | Lock :: ops => depth_after (S d) ops
  | Unlock :: ops => match d with O => None | S d => depth_after d ops end
  end.

Section OneHart.
Context (m : frames) (hart : Z) (frame : TrapFrame).
Context (Hhart : 0 <= hart < 2 ^ 32) (Hid : hartid frame = hart).
Context (Hctx : TrapFrame.is_interrupt_context frame = false).

(** The hart runs outside an interrupt with this frame, and holds [d] locks. *)
Record nested (s : IrqState) (d : nat) : Prop := {
  ne_scratch : sscratch (irq_hart s) <> 0 /\ m !! sscratch (irq_hart s) = Some frame;
  ne_count : (d > 0)%nat -> counts s !! Z.to_nat hart = Some (Z.of_nat d);
  ne_zero c : d = 0%nat -> counts s !! Z.to_nat hart = Some c -> c = 0;
  ne_sie : (d > 0)%nat -> sie (irq_hart s) = 0
}.

Lemma context_of s : sscratch (irq_hart s) <> 0 /\ m !! sscratch (irq_hart s) = Some frame ->
  in_interrupt_context (irq_hart s) m = Val false /\ load_hartid (irq_hart s) m = Val hart.
Proof.
  intros [H0 Hm]. unfold in_interrupt_context, load_hartid, frame_ref, load_frame, read_sscratch.
  rewrite !(proj2 (Z.eqb_neq _ _)), Hm by done. cbn [mbind outcome_bind]. by rewrite Hctx, Hid.
Qed.

Lemma entry_created s d :
  nested s d -> exists cs b, create_hart_lock_count_entry_if_necessary (counts s) hart = (cs, b) /\
    cs !! Z.to_nat hart = Some (Z.of_nat d) /\
    forall j, j <> Z.to_nat hart -> forall c, counts s !! j = Some c -> cs !! j = Some c.
Proof.
  intros [_ Hc Hz _]. unfold create_hart_lock_count_entry_if_necessary.
  destruct (Z.ltb_spec hart (Z.of_nat (length (counts s)))).
  - eexists _, _. split; [done|]. split; [|done].
    destruct d as [|d]; [|by apply Hc; lia].
    destruct (lookup_lt_is_Some_2 (counts s) (Z.to_nat hart)) as [c E]; [lia|].
    by rewrite (Hz c eq_refl E) in E.
  - assert (Hn : counts s !! Z.to_nat hart = None) by (apply lookup_ge_None; lia).
    destruct d as [|d]; [|rewrite Hc in Hn; [done|lia]].
    eexists _, _. split; [done|]. split.
    + by apply lookup_resize_new; lia.
    + intros j Hj c Hlook. rewrite lookup_resize; [done|..];
        pose proof (lookup_lt_Some _ _ _ Hlook); lia.
Qed.

Lemma lock_nested s d :
  nested s d -> Z.of_nat d < 2 ^ 62 ->
  exists s', lock_and_disable_interrupts m s = Val s' /\ nested s' (S d) /\
    forall j c, j <> Z.to_nat hart -> counts s !! j = Some c -> counts s' !! j = Some c.
Proof.
  intros Hn Hd. destruct (context_of s (ne_scratch s d Hn)) as [E1 _].
  destruct (entry_created s d Hn) as (cs & b & Ec & Hcs & Hother).
  unfold lock_and_disable_interrupts. rewrite E1. cbn [negb mbind outcome_bind].
  destruct (context_of (mkIrq (write_sie (irq_hart s) 0) (counts s)) (ne_scratch s d Hn)) as [_ E2].
  cbn [irq_hart] in E2. rewrite E2. cbn [mbind outcome_bind]. rewrite Ec.
  rewrite (index_Val _ _ (Z.of_nat d)) by (done || lia). cbn [mbind outcome_bind].
  pose proof (lookup_lt_Some _ _ _ Hcs).
  rewrite index_mut_Val by lia. cbn [mbind outcome_bind].
  assert (Ew : wrapping_add (Z.of_nat d) 1 = Z.of_nat (S d)).
  { unfold wrapping_add. rewrite Z.mod_small by lia. lia. }
  eexists. split; [done|]. rewrite Ew. split.
  - split; cbn [irq_hart counts write_sie sie sscratch]; [apply Hn| |done|done].
    intros _. by apply list_lookup_insert_eq.
  - intros j c Hj Hlook. cbn [counts]. rewrite list_lookup_insert_ne by done. by apply Hother.
Qed.

Lemma unlock_nested s d :
  nested s (S d) -> Z.of_nat (S d) < 2 ^ 62 ->
  exists s', unlock_and_enable_interrupts_if_necessary m s = Val s' /\ nested s' d /\
    (d = 0%nat -> sie (irq_hart s') = 0x222) /\
    forall j c, j <> Z.to_nat hart -> counts s !! j = Some c -> counts s' !! j = Some c.
Proof.
  intros Hn Hd. destruct (context_of s (ne_scratch s _ Hn)) as [E1 E2].
  pose proof (ne_count s _ Hn ltac:(lia)) as Hc. pose proof (ne_sie s _ Hn ltac:(lia)) as Hsie.
  pose proof (lookup_lt_Some _ _ _ Hc).
  unfold unlock_and_enable_interrupts_if_necessary. rewrite E1, E2. cbn [negb mbind outcome_bind].
  rewrite (index_Val _ _ (Z.of_nat (S d))) by (done || lia). cbn [mbind outcome_bind].
  rewrite index_mut_Val by lia. cbn [mbind outcome_bind].
  assert (Ew : wrapping_sub (Z.of_nat (S d)) 1 = Z.of_nat d).
  { unfold wrapping_sub. rewrite Z.mod_small by lia. lia. }
  rewrite Ew.
  set (cs := <[Z.to_nat hart := Z.of_nat d]> (counts s)).
  assert (Hcs : cs !! Z.to_nat hart = Some (Z.of_nat d)) by (by apply list_lookup_insert_eq).
  assert (Hnest : forall h, sscratch h = sscratch (irq_hart s) -> ((d > 0)%nat -> sie h = 0) ->
            nested (mkIrq h cs) d).
  { intros h Hs Hz. split; cbn [irq_hart counts]; [rewrite Hs; apply Hn|done| |done].
    intros c -> Hc0. rewrite Hcs in Hc0. by injection Hc0 as <-. }
  assert (Hother : forall j c, j <> Z.to_nat hart -> counts s !! j = Some c -> cs !! j = Some c)
    by (intros j c Hj Hl; unfold cs; by rewrite list_lookup_insert_ne).
  destruct (Z.eqb_spec (Z.of_nat (S d)) 1) as [E|E]; eexists; (split; [done|]).
  - split; [apply Hnest; [done|lia]|]. split; [done|exact Hother].
  - split; [apply Hnest; [done|intros _; exact Hsie]|]. split; [intros Hd0; lia|exact Hother].
Qed.

Lemma lock_ops_nested ops s d d' :
  nested s d -> Z.of_nat d + Z.of_nat (length ops) < 2 ^ 62 -> depth_after d ops = Some d' ->
  exists s', for_each (lock_op m) ops s = Val s' /\ nested s' d' /\
    (d' = 0%nat -> ops <> [] -> sie (irq_hart s') = 0x222) /\
    forall j c, j <> Z.to_nat hart -> counts s !! j = Some c -> counts s' !! j = Some c.
Proof.
  revert s d. induction ops as [|op ops IH]; intros s d Hn Hb Hd.
  - injection Hd as <-. exists s. split; [done|]. by split.
  - cbn [length] in Hb. cbn [for_each].
    assert (Hstep : exists s1 d1, lock_op m s op = Val s1 /\ nested s1 d1 /\
      depth_after d1 ops = Some d' /\ Z.of_nat d1 <= Z.of_nat d + 1 /\
      (d1 = 0%nat -> sie (irq_hart s1) = 0x222) /\
      forall j c, j <> Z.to_nat hart -> counts s !! j = Some c -> counts s1 !! j = Some c).
    { destruct op; cbn [depth_after lock_op] in *.
      - destruct (lock_nested s d Hn ltac:(lia)) as (s1 & E & H1 & H2).
        exists s1, (S d). repeat split; try done; try apply H1; lia.
      - destruct d as [|d]; [done|].
        destruct (unlock_nested s d Hn ltac:(lia)) as (s1 & E & H1 & H2 & H3).
        exists s1, d. repeat split; try done; try apply H1; lia. }
    destruct Hstep as (s1 & d1 & -> & H1 & H2 & H3 & H4 & H5). cbn [mbind outcome_bind].
    destruct (IH s1 d1 H1 ltac:(lia) H2) as (s2 & E & G1 & G2 & G3).
    exists s2. split; [done|]. split; [done|]. split.
    + intros -> _. destruct ops as [|op' ops']; [|by apply G2].
      injection E as <-. injection H2 as ->. by apply H4.
    + intros j c Hj Hl. by apply G3, H5.
Qed.

End OneHart.

Definition idle_hart (sie_bits : Z) : Hart := mkHart sie_bits 0 0 0 0 0x1000 0 0 0 0 0 0.

Definition hart_frames (hart : Z) : frames :=
  {[ 0x1000 := TrapFrame.inherit_from TrapFrame.zeroed
                 (mkTrapFrame [] 0 hart 0 0 0 0 0 0 0 0) ]}.


(** ** Two harts: the growth of [HART_LOCK_COUNT]

    [lock_and_disable_interrupts] in its three accesses to the vector: the
    length under the read lock, the resize under the write lock, the increment
    under the read lock. *)

Inductive CountPc :=
  | CheckLength (hart : Z)
  | Resize (hart : Z)
  | Increment (hart : Z)
  | Counted (hart : Z).

Definition count_op (p : CountPc) (cs : list Z) : outcome (CountPc * list Z) :=
  match p with
  | CheckLength hart => Val (if hart <? Z.of_nat (length cs) then Increment hart else Resize hart, cs)
  | Resize hart => Val (Increment hart, resize (Z.to_nat (hart + 1)) 0 cs)
  | Increment hart =>
      c ← index cs hart; cs ← index_mut cs hart (wrapping_add c 1); Val (Counted hart, cs)
  | Counted hart => Val (Counted hart, cs)
  end.

(** The vector of lock counts can shrink.  When two harts take their first
    lock at the same time, both may find the vector too short; if the one with
    the smaller id resizes last, [resize_with] truncates the other's entry and
    that hart panics on the index.  Done one after the other, both are counted. *)
Theorem lock_count_race i j :
  0 <= i < j ->
  run_schedule count_op [1; 0; 1; 0; 1]%nat ([CheckLength i; CheckLength j], [])
    = Stop IndexOutOfBounds /\
  exists cs, run_schedule count_op [1; 1; 1; 0; 0; 0]%nat ([CheckLength i; CheckLength j], [])
    = Val ([Counted i; Counted j], cs) /\ cs !! Z.to_nat i = Some 1 /\ cs !! Z.to_nat j = Some 1.
Proof.
  intros Hij. assert (E0 : forall x, 0 <= x -> (x <? Z.of_nat (length (@nil Z))) = false)
    by (intros x Hx; apply Z.ltb_ge; cbn [length]; lia).
  split.
  - unfold run_schedule, turn; cbn [for_each fst snd lookup list_lookup count_op mbind outcome_bind insert list_insert].
    rewrite !E0 by lia.
    cbn [for_each fst snd lookup list_lookup count_op mbind outcome_bind insert list_insert].
    unfold index. rewrite (proj2 (Z.ltb_ge j 0)) by lia.
    rewrite (proj2 (lookup_ge_None _ _)); [done|]. rewrite length_resize. lia.
  - set (cs := resize (Z.to_nat (j + 1)) 0 []).
    assert (Hlen : length cs = Z.to_nat (j + 1)) by apply length_resize.
    assert (Hcs : forall x, 0 <= x <= j -> cs !! Z.to_nat x = Some 0)
      by (intros x Hx; apply lookup_resize_new; cbn [length]; lia).
    exists (<[Z.to_nat i := 1]> (<[Z.to_nat j := 1]> cs)).
    split; [|split; [by rewrite list_lookup_insert_eq by (rewrite length_insert; lia)
      |rewrite list_lookup_insert_ne by lia; by rewrite list_lookup_insert_eq by lia]].
    unfold run_schedule, turn; cbn [for_each fst snd lookup list_lookup count_op mbind outcome_bind insert list_insert].
    rewrite !E0 by lia.
    cbn [for_each fst snd lookup list_lookup count_op mbind outcome_bind insert list_insert]. fold cs.
    rewrite (index_Val cs j 0) by (lia || apply Hcs; lia). cbn [mbind outcome_bind].
    rewrite index_mut_Val by lia.
    cbn [for_each fst snd lookup list_lookup count_op mbind outcome_bind insert list_insert].
    rewrite length_insert, Hlen, (proj2 (Z.ltb_lt i _)) by lia.
    cbn [for_each fst snd lookup list_lookup count_op mbind outcome_bind insert list_insert].
    rewrite (index_Val _ i 0); [|lia|rewrite list_lookup_insert_ne by lia; apply Hcs; lia].
    cbn [mbind outcome_bind]. rewrite index_mut_Val by (rewrite length_insert; lia). done.
Qed.

Lemma lock_count_race_witness :
  run_schedule count_op [1; 0; 1; 0; 1]%nat ([CheckLength 0; CheckLength 3], []) = Stop IndexOutOfBounds.
Proof. apply (lock_count_race 0 3). lia. Defined.

(** ** [simple_shared::Mutex]: the lock saves the interrupt enables *)

Module SimpleMutex.

Record Word := mkWord { locked : bool; old_sie : Z }.

(** A hart's position and its own [sie]. *)
Inductive Pc :=
  | Out (s : Z)
  | TryLock (loop : bool) (s : Z)  (* the internal [try_lock] *)
  | Save (s : Z)                   (* [old_sie.store(read_sie())] *)
  | Disable (s : Z)                (* [write_sie(0)] *)
  | Inside (s : Z)                 (* next: the internal [unlock] *)
  | Reenable (s : Z).              (* [write_sie(old_sie.load())] *)

Definition hart_op (p : Pc) (w : Word) : outcome (Pc * Word) :=
  match p with
  | Out s => Val (Out s, w)
  | TryLock loop s =>
      let '(l, ok) := Mutex.try_lock (locked w) in
      Val (if ok : bool then Save s else if loop then TryLock true s else Out s, mkWord l (old_sie w))
  | Save s => Val (Disable s, mkWord (locked w) s)
  | Disable s => Val (Inside 0, w)
  | Inside s => Val (Reenable s, mkWord (Mutex.unlock (locked w)) (old_sie w))
  | Reenable s => Val (Out (old_sie w), w)
  end.

(** Saving and restoring the interrupt enables.  Undisturbed, [lock] and
    [unlock] give the hart its enables back, with interrupts off in between;
    the same lock is not taken twice.  But [unlock] reads the saved enables
    after it has released the lock: when another hart locks in between, the
    first hart gets the second one's enables. *)
Theorem simple_shared_restore s1 s2 w0 :
  run_schedule hart_op [0; 0; 0]%nat ([TryLock true s1], mkWord false w0)
    = Val ([Inside 0], mkWord true s1) /\
  run_schedule hart_op [0; 0; 0; 0; 0]%nat ([TryLock true s1], mkWord false w0)
    = Val ([Out s1], mkWord false s1) /\
  run_schedule hart_op [0; 0; 0; 1]%nat ([TryLock true s1; TryLock false s2], mkWord false w0)
    = Val ([Inside 0; Out s2], mkWord true s1) /\
  run_schedule hart_op [0; 0; 0; 0; 1; 1; 0; 1; 1; 1]%nat ([TryLock true s1; TryLock true s2], mkWord false w0)
    = Val ([Out s2; Out s2], mkWord false s2).
Proof. by repeat split. Qed.

End SimpleMutex.
