(* ===== verification/ArcInject.v ===== *)
(** * arcinject: reference counts

    [arcinject/src/lib.rs].  A heap maps the address of an [ArcInner] to its two
    counters and its data; a freed block is absent.  Reading a freed block,
    reading dropped data or dropping data twice is undefined ([Undefined]).
    Handles ([Arc], [ArcInject], [WeakInject]) are the address they hold; the
    projection [data] of an inject points into the block and is valid as long as
    the block's data is.  [Arc] has no [Drop] and the [Clone]s copy the pointer,
    as in the source.  The atomic operations are taken one at a time: the
    theorems are about sequences of whole operations. *)

From S2P Require Import Prelude.

Section ArcInject.
Context {T : Type}.

(** [data] is [None] once [ManuallyDrop::drop] has run. *)
Record ArcInner := mkInner { strong : Z; weak : Z; data : option T }.

Abbreviation heap := (gmap Z ArcInner).

Definition inner (h : heap) (p : Z) : outcome ArcInner :=
  match h !! p with Some i => Val i | None => Stop Undefined end.

Definition ArcInner_new (d : T) : ArcInner := mkInner 0 0 (Some d).

(** [Arc::new], with the address the allocator chose. *)
Definition Arc_new (h : heap) (p : Z) (d : T) : heap :=
  let i := ArcInner_new d in <[p := mkInner (strong i + 1) (weak i) (data i)]> h.

(** [Arc::deref], [ArcInject::deref] and [deref_inner]. *)
Definition deref (h : heap) (p : Z) : outcome T :=
  i ← inner h p;
  match data i with Some d => Val d | None => Stop Undefined end.

Definition drop_data (h : heap) (p : Z) : outcome heap :=
  i ← inner h p;
  match data i with
  | Some _ => Val (<[p := mkInner (strong i) (weak i) None]> h)
  | None => Stop Undefined
  end.

Definition drop_self (h : heap) (p : Z) : outcome heap :=
  _ ← inner h p; Val (delete p h).

Definition dec_strong_and_drop (h : heap) (p : Z) : outcome heap :=
  i ← inner h p;
  let h := <[p := mkInner (wrapping_sub (strong i) 1) (weak i) (data i)]> h in
  if strong i =? 1 then
    h ← drop_data h p;
    i ← inner h p;
    if weak i =? 0 then drop_self h p else Val h
  else Val h.

Definition dec_weak_and_drop (h : heap) (p : Z) : outcome heap :=
  i ← inner h p;
  let h := <[p := mkInner (strong i) (wrapping_sub (weak i) 1) (data i)]> h in
  if weak i =? 1 then
    h ← (if strong i =? 0 then drop_data h p else Val h);
    drop_self h p
  else Val h.

(** [ArcInject::new] and [new_std]: the parent's strong count goes up. *)
Definition ArcInject_new (h : heap) (p : Z) : outcome heap :=
  i ← inner h p; Val (<[p := mkInner (wrapping_add (strong i) 1) (weak i) (data i)]> h).

Definition ArcInject_drop := dec_strong_and_drop.
Definition ArcInject_clone (h : heap) (p : Z) : heap * Z := (h, p).

(** [WeakInject::inner_data], behind [downgrade] and [From]. *)
Definition downgrade (h : heap) (p : Z) : outcome heap :=
  i ← inner h p; Val (<[p := mkInner (strong i) (wrapping_add (weak i) 1) (data i)]> h).

Definition WeakInject_drop := dec_weak_and_drop.
Definition WeakInject_clone (h : heap) (p : Z) : heap * Z := (h, p).

(** [upgrade]: the exchange succeeds the first time when nobody interferes. *)
Definition upgrade (h : heap) (p : Z) : outcome (heap * bool) :=
  i ← inner h p;
  if strong i =? 0 then Val (h, false)
  else n ← checked_add 64 (strong i) 1; Val (<[p := mkInner n (weak i) (data i)]> h, true).

(** [uninject_alloc] copies the pointer out of [this], which is then dropped. *)
Definition uninject_alloc (h : heap) (p : Z) : outcome (heap * Z) :=
  h ← dec_strong_and_drop h p; Val (h, p).

(** ** Clients that keep the counts balanced *)

Inductive Op := Inject | DropInject | Downgrade | Upgrade | DropWeak.

Definition run_op (p : Z) (h : heap) (op : Op) : outcome heap :=
  match op with
  | Inject => ArcInject_new h p
  | DropInject => ArcInject_drop h p
  | Downgrade => downgrade h p
  | Upgrade => r ← upgrade h p; Val r.1
  | DropWeak => WeakInject_drop h p
  end.

(** The handles after [ops]: injects and weaks.  Only a handle that exists is
    used, none is cloned, and the last weak is kept. *)
Fixpoint handles (injects weaks : nat) (ops : list Op) : option (nat * nat) :=
  match ops with
  | [] => Some (injects, weaks)
  | Inject :: ops => handles (S injects) weaks ops
  | DropInject :: ops => match injects with O => None | S n => handles n weaks ops end
  | Downgrade :: ops => match injects with O => None | S _ => handles injects (S weaks) ops end
  | Upgrade :: ops => match weaks with O => None | S _ => handles (S injects) weaks ops end
  | DropWeak :: ops => match weaks with S (S n) => handles injects (S n) ops | _ => None end
  end.

Definition counted (h : heap) (p : Z) (d : T) (injects weaks : nat) : Prop :=
  h !! p = Some (mkInner (1 + Z.of_nat injects) (Z.of_nat weaks) (Some d)).

Lemma run_op_counted p h d n w op n' w' :
  counted h p d n w -> Z.of_nat n < 2 ^ 62 -> Z.of_nat w < 2 ^ 62 -> handles n w [op] = Some (n', w') ->
  exists h', run_op p h op = Val h' /\ counted h' p d n' w' /\ delete p h' = delete p h.
Proof.
  unfold counted. intros Hc Hn Hw Hh.
  assert (Hin : inner h p = Val (mkInner (1 + Z.of_nat n) (Z.of_nat w) (Some d)))
    by (unfold inner; by rewrite Hc).
  destruct op; cbn [handles run_op] in *;
    unfold ArcInject_new, ArcInject_drop, dec_strong_and_drop, downgrade, upgrade, WeakInject_drop,
      dec_weak_and_drop; rewrite Hin; cbn [mbind outcome_bind strong weak data].
  - injection Hh as <- <-. eexists. split; [done|]. rewrite lookup_insert_eq, delete_insert_eq.
    split; [|done]. do 2 f_equal. unfold wrapping_add. rewrite Z.mod_small; lia.
  - destruct n as [|n]; [done|]. injection Hh as <- <-.
    rewrite (proj2 (Z.eqb_neq _ 1)) by lia. eexists. split; [done|].
    rewrite lookup_insert_eq, delete_insert_eq. split; [|done].
    do 2 f_equal. unfold wrapping_sub. rewrite Z.mod_small; lia.
  - destruct n as [|n]; [done|]. injection Hh as <- <-. eexists. split; [done|].
    rewrite lookup_insert_eq, delete_insert_eq. split; [|done].
    do 2 f_equal. unfold wrapping_add. rewrite Z.mod_small; lia.
  - destruct w as [|w]; [done|]. injection Hh as <- <-.
    rewrite (proj2 (Z.eqb_neq _ 0)) by lia. checked. eexists. split; [done|]. cbn [fst].
    rewrite lookup_insert_eq, delete_insert_eq. split; [|done]. do 2 f_equal. lia.
  - destruct w as [|[|w]]; [done|done|]. injection Hh as <- <-.
    rewrite (proj2 (Z.eqb_neq _ 1)) by lia. eexists. split; [done|].
    rewrite lookup_insert_eq, delete_insert_eq. split; [|done].
    do 2 f_equal. unfold wrapping_sub. rewrite Z.mod_small; lia.
Qed.

Lemma handles_cons n w op ops n' w' :
  handles n w (op :: ops) = Some (n', w') ->
  exists n1 w1, handles n w [op] = Some (n1, w1) /\ handles n1 w1 ops = Some (n', w') /\
    (n1 <= S n)%nat /\ (w1 <= S w)%nat.
Proof.
  destruct op; cbn [handles]; [|destruct n|destruct n|destruct w|destruct w as [|[|w]]];
    intros H; try done; eexists _, _; (split; [done|]); (split; [exact H|lia]).
Qed.

Lemma run_ops_counted p ops h d n w n' w' :
  counted h p d n w -> Z.of_nat n + Z.of_nat (length ops) < 2 ^ 62 ->
  Z.of_nat w + Z.of_nat (length ops) < 2 ^ 62 -> handles n w ops = Some (n', w') ->
  exists h', for_each (run_op p) ops h = Val h' /\ counted h' p d n' w' /\ delete p h' = delete p h.
Proof.
  revert h n w. induction ops as [|op ops IH]; intros h n w Hc Hn Hw Hh.
  - injection Hh as <- <-. by exists h.
  - cbn [length] in *. destruct (handles_cons _ _ _ _ _ _ Hh) as (n1 & w1 & H1 & H2 & Hln & Hlw).
    destruct (run_op_counted p h d n w op n1 w1 Hc) as (h1 & E1 & Hc1 & Hd1); [lia|lia|done|].
    cbn [for_each]. rewrite E1. cbn [mbind outcome_bind].
    destruct (IH h1 n1 w1 Hc1 ltac:(lia) ltac:(lia) H2) as (h2 & E2 & Hc2 & Hd2).
    exists h2. split; [done|]. split; [done|]. by rewrite Hd2.
Qed.

(** Balanced use.  From [Arc::new], any sequence of injecting, dropping
    injects, downgrading, upgrading and dropping weaks, in which handles are
    not cloned and the last weak is kept, runs without undefined behaviour; the
    counters are the handles; dereferencing gives the original data; and no
    other block of the heap changes. *)
Theorem arcinject_balanced h p d ops n w :
  Z.of_nat (length ops) < 2 ^ 61 -> handles 0 0 ops = Some (n, w) ->
  exists h', for_each (run_op p) ops (Arc_new h p d) = Val h' /\ deref h' p = Val d /\
    h' !! p = Some (mkInner (1 + Z.of_nat n) (Z.of_nat w) (Some d)) /\
    delete p h' = delete p h.
Proof.
  intros Hl Hh. destruct (run_ops_counted p ops (Arc_new h p d) d 0 0 n w) as (h' & E & Hc & Hd);
    [by unfold counted, Arc_new; rewrite lookup_insert_eq|lia|lia|done|].
  exists h'. split; [done|]. unfold counted in Hc. unfold deref, inner. rewrite Hc.
  split; [done|]. split; [done|]. rewrite Hd. unfold Arc_new. apply delete_insert_eq.
Qed.

(** C39: the ways out of balanced use.  Whatever data an [Arc] holds:
    dropping the only weak frees the block under the live [Arc]; cloning an
    inject does not count, so dropping both copies drops the data and frees the
    block under the [Arc]; and when the last strong handle goes while a weak
    exists, dropping that weak drops the data a second time. *)
Theorem arcinject_unsound h p d :
  (exists h', for_each (run_op p) [Inject; Downgrade; DropWeak] (Arc_new h p d) = Val h' /\
     deref h' p = Stop Undefined) /\
  (exists h', for_each (run_op p) [Inject; DropInject; DropInject] (Arc_new h p d) = Val h' /\
     ArcInject_clone h p = (h, p) /\ deref h' p = Stop Undefined) /\
  for_each (run_op p) [Inject; Downgrade; DropInject; DropInject; DropWeak] (Arc_new h p d)
    = Stop Undefined.
Proof.
  unfold Arc_new, ArcInner_new. cbn [strong weak data].
  repeat (unfold ArcInject_new, ArcInject_drop, dec_strong_and_drop, downgrade, WeakInject_drop,
    dec_weak_and_drop, drop_data, drop_self, inner; cbn [for_each run_op mbind outcome_bind strong weak data];
    rewrite ?lookup_insert_eq).
  change (wrapping_add (0 + 1) 1) with 2. change (wrapping_add 0 1) with 1.
  change (wrapping_sub 2 1) with 1. change (0 + 1) with 1. cbn [Z.eqb Pos.eqb mbind outcome_bind].
  unfold deref, inner.
  repeat (rewrite ?lookup_insert_eq, ?insert_insert_eq, ?delete_insert_eq;
    cbn [Z.eqb Pos.eqb mbind outcome_bind strong weak data]).
  split; [|split; [|done]]; eexists; (split; [done|]); rewrite ?lookup_delete_eq; done.
Qed.
End ArcInject.

Lemma arcinject_balanced_witness :
  exists h', for_each (run_op 8) [Inject; Downgrade; Upgrade; DropInject] (Arc_new ∅ 8 1) = Val h' /\
    deref h' 8 = Val 1.
Proof.
  destruct (arcinject_balanced ∅ 8 1 [Inject; Downgrade; Upgrade; DropInject] 1 1) as (h' & E & Hd & _);
    [done|reflexivity|]. exists h'. split; [exact E|exact Hd].
Defined.
