(* ===== verification/ArcConcurrent.v ===== *)
(** * arcinject: handles, and harts that use them at the same time

    The handles of [arcinject/src/lib.rs] with their projections, on the blocks of
    [ArcInject], and every operation of a handle taken apart into its atomic
    accesses: the [fetch_add]s and [fetch_sub]s, the loads, and the exchange of
    [upgrade], which may fail without a reason.  Harts take their steps in any
    order. *)

From S2P Require Import Prelude ArcInject.

Section Handles.
Context {T U : Type}.

Abbreviation heap := (gmap Z (@ArcInner T)).

(** ** Handles *)

(** The pointer [data] is [get_child] of the block's data. *)
Record Inject := mkInject { inject_inner : Z; inject_data : T -> U }.
Record Weak := mkWeak { weak_inner : Z; weak_data : T -> U }.

Definition Inject_deref (h : heap) (this : Inject) : outcome U :=
  d ← deref h (inject_inner this); Val (inject_data this d).
Definition deref_inner (h : heap) (this : Inject) : outcome T := deref h (inject_inner this).

Definition fetch_strong (f : Z -> Z) (h : heap) (p : Z) : outcome (Z * heap) :=
  i ← inner h p; Val (strong i, <[p := mkInner (f (strong i)) (weak i) (data i)]> h).
Definition fetch_weak (f : Z -> Z) (h : heap) (p : Z) : outcome (Z * heap) :=
  i ← inner h p; Val (weak i, <[p := mkInner (strong i) (f (weak i)) (data i)]> h).

Definition increment (n : Z) : Z := wrapping_add n 1.
Definition decrement (n : Z) : Z := wrapping_sub n 1.

Definition Inject_new (h : heap) (parent : Z) (get_child : T -> U) : outcome (Inject * heap) :=
  '(_, h) ← fetch_strong increment h parent; Val (mkInject parent get_child, h).
Definition Weak_inner_data (h : heap) (p : Z) (child : T -> U) : outcome (Weak * heap) :=
  '(_, h) ← fetch_weak increment h p; Val (mkWeak p child, h).
Definition Weak_from (h : heap) (this : Inject) : outcome (Weak * heap) :=
  Weak_inner_data h (inject_inner this) (inject_data this).
Definition Inject_downgrade (h : heap) (this : Inject) : outcome (Weak * heap) := Weak_from h this.
Definition Inject_inner_data (p : Z) (child : T -> U) : Inject := mkInject p child.

(** ** Harts *)

(** Between two atomic accesses: in the loop of [upgrade] with the count it
    read; in [dec_strong_and_drop] and [dec_weak_and_drop] of a block. *)
Inductive Pc :=
  | Idle
  | Exchange (n : Z) (w : Weak)
  | DropData (p : Z) | CheckWeak (p : Z)
  | CheckStrong (p : Z) | DropDataAndSelf (p : Z)
  | DropSelf (p : Z).

Record Owner := mkOwner { injects : list Inject; weaks : list Weak; pc : Pc }.

(** An operation begins, on the handle at an index, or the one under way goes on. *)
Inductive Action :=
  | New (parent : Z) (get_child : T -> U)
  | Drop (k : nat)
  | Downgrade (k : nat)
  | Upgrade (k : nat)
  | DropWeak (k : nat)
  | Continue (spurious : bool).

Definition set_pc (t : Owner) (q : Pc) : Owner := mkOwner (injects t) (weaks t) q.

(** [upgrade] with the count just read. *)
Definition upgrade_turn (n : Z) (w : Weak) : Pc := if n =? 0 then Idle else Exchange n w.

Definition begin_action (a : Action) (t : Owner) (h : heap) : outcome (Owner * heap) :=
  match a with
  | New parent get_child =>
      '(i, h) ← Inject_new h parent get_child; Val (mkOwner (injects t ++ [i]) (weaks t) Idle, h)
  | Drop k =>
      match injects t !! k with
      | None => Val (t, h)
      | Some i =>
          '(old, h) ← fetch_strong decrement h (inject_inner i);
          Val (mkOwner (base.delete k (injects t)) (weaks t)
                 (if old =? 1 then DropData (inject_inner i) else Idle), h)
      end
  | Downgrade k =>
      match injects t !! k with
      | None => Val (t, h)
      | Some i => '(w, h) ← Inject_downgrade h i; Val (mkOwner (injects t) (weaks t ++ [w]) Idle, h)
      end
  | Upgrade k =>
      match weaks t !! k with
      | None => Val (t, h)
      | Some w => i ← inner h (weak_inner w); Val (set_pc t (upgrade_turn (strong i) w), h)
      end
  | DropWeak k =>
      match weaks t !! k with
      | None => Val (t, h)
      | Some w =>
          '(old, h) ← fetch_weak decrement h (weak_inner w);
          Val (mkOwner (injects t) (base.delete k (weaks t))
                 (if old =? 1 then CheckStrong (weak_inner w) else Idle), h)
      end
  | Continue _ => Val (t, h)
  end.

Definition continue (spurious : bool) (t : Owner) (h : heap) : outcome (Owner * heap) :=
  match pc t with
  | Idle => Val (t, h)
  | Exchange n w =>
      next ← checked_add 64 n 1;
      i ← inner h (weak_inner w);
      if negb spurious && (strong i =? n)
      then Val (mkOwner (injects t ++ [Inject_inner_data (weak_inner w) (weak_data w)]) (weaks t) Idle,
                <[weak_inner w := mkInner next (weak i) (data i)]> h)
      else Val (set_pc t (upgrade_turn (strong i) w), h)
  | DropData p => h ← drop_data h p; Val (set_pc t (CheckWeak p), h)
  | CheckWeak p => i ← inner h p; Val (set_pc t (if weak i =? 0 then DropSelf p else Idle), h)
  | CheckStrong p => i ← inner h p; Val (set_pc t (if strong i =? 0 then DropDataAndSelf p else DropSelf p), h)
  | DropDataAndSelf p => h ← drop_data h p; Val (set_pc t (DropSelf p), h)
  | DropSelf p => h ← drop_self h p; Val (set_pc t Idle, h)
  end.

Definition act (a : Action) (t : Owner) (h : heap) : outcome (Owner * heap) :=
  match pc t, a with
  | Idle, _ => begin_action a t h
  | _, Continue spurious => continue spurious t h
  | _, _ => Val (t, h)
  end.

Definition harts_turn (c : list Owner * heap) (e : nat * Action) : outcome (list Owner * heap) :=
  match c.1 !! e.1 with
  | None => Val c
  | Some t => '(t, h) ← act e.2 t c.2; Val (<[e.1 := t]> c.1, h)
  end.
End Handles.
Arguments Inject : clear implicits.
Arguments Weak : clear implicits.
Arguments Owner : clear implicits.
Arguments Action : clear implicits.
Arguments Pc : clear implicits.

(** ** Counting *)

Section Counting.
Context {T U : Type}.

Definition total (f : Owner T U -> nat) (ts : list (Owner T U)) : nat := list_sum (List.map f ts).
Definition strongs (t : Owner T U) : nat := length (injects t).
Definition weak_ones (t : Owner T U) : nat := length (weaks t).

Lemma total_insert f ts i t t' :
  ts !! i = Some t -> (total f (<[i := t']> ts) + f t = total f ts + f t')%nat.
Proof.
  revert i. unfold total. induction ts as [|x ts IH]; intros [|i] Hi; [done..| |].
  - injection Hi as ->. cbn. lia.
  - specialize (IH i Hi). change (<[S i := t']> (x :: ts)) with (x :: <[i := t']> ts).
    unfold list_sum in *. cbn [List.map fold_right]. lia.
Qed.

Lemma total_ge f ts i t : ts !! i = Some t -> (f t <= total f ts)%nat.
Proof.
  revert i. unfold total. induction ts as [|x ts IH]; intros [|i] Hi; [done..| |].
  - injection Hi as ->. cbn. lia.
  - specialize (IH i Hi). unfold list_sum in *. cbn [List.map fold_right]. lia.
Qed.

(** ** The invariant *)

(** A hart whose handles are all on the block [p], and that is in no [drop]. *)
Record owner_ok (p : Z) (t : Owner T U) : Prop := {
  ok_injects : Forall (fun i => inject_inner i = p) (injects t);
  ok_weaks : Forall (fun w => weak_inner w = p) (weaks t);
  ok_pc : pc t = Idle \/ exists n w, pc t = Exchange n w /\ 0 < n < 2 ^ 63 /\ weak_inner w = p
}.

Definition counts_exact (p : Z) (d : T) (h0 : gmap Z (@ArcInner T)) (c : list (Owner T U) * gmap Z (@ArcInner T)) : Prop :=
  c.2 !! p = Some (mkInner (1 + Z.of_nat (total strongs c.1)) (1 + Z.of_nat (total weak_ones c.1)) (Some d)) /\
  Forall (owner_ok p) c.1 /\ base.delete p c.2 = base.delete p h0.

Definition room (c : list (Owner T U) * gmap Z (@ArcInner T)) (n : Z) : Prop :=
  Z.of_nat (total strongs c.1) + n < 2 ^ 62 /\ Z.of_nat (total weak_ones c.1) + n < 2 ^ 62.

(** An action on handles of the block. *)
Definition on_block (p : Z) (a : Action T U) : Prop :=
  match a with New parent _ => parent = p | _ => True end.

(** What a step has to do to the counts, for the hart that takes it. *)
Definition step_ok (p : Z) (t t' : Owner T U) (h h' : gmap Z (@ArcInner T)) : Prop :=
  owner_ok p t' /\ (strongs t' <= S (strongs t))%nat /\ (weak_ones t' <= S (weak_ones t))%nat /\
  exists i, h !! p = Some i /\
    h' = <[p := mkInner (strong i + (Z.of_nat (strongs t') - Z.of_nat (strongs t)))
                        (weak i + (Z.of_nat (weak_ones t') - Z.of_nat (weak_ones t))) (data i)]> h.

Lemma delete_handle {A} (l : list A) k x : l !! k = Some x -> Z.of_nat (length (base.delete k l)) = Z.of_nat (length l) + -1.
Proof. intros Hk. rewrite length_delete by (by eexists). apply lookup_lt_Some in Hk. lia. Qed.

Lemma Forall_delete {A} (P : A -> Prop) k l : Forall P l -> Forall P (base.delete k l).
Proof. intros H. rewrite delete_take_drop. apply Forall_app. split; [by apply Forall_take|by apply Forall_drop]. Qed.

Lemma step_changes p t t' (h : gmap Z (@ArcInner T)) i ds dw :
  owner_ok p t' -> h !! p = Some i -> -1 <= ds <= 1 -> -1 <= dw <= 1 ->
  Z.of_nat (strongs t') = Z.of_nat (strongs t) + ds -> Z.of_nat (weak_ones t') = Z.of_nat (weak_ones t) + dw ->
  step_ok p t t' h (<[p := mkInner (strong i + ds) (weak i + dw) (data i)]> h).
Proof.
  intros Ho Hp Hds Hdw Es Ew. split; [done|]. split; [lia|]. split; [lia|]. exists i. split; [done|].
  do 2 f_equal; lia.
Qed.

Lemma step_stays p t t' (h : gmap Z (@ArcInner T)) i :
  owner_ok p t' -> h !! p = Some i -> strongs t' = strongs t -> weak_ones t' = weak_ones t -> step_ok p t t' h h.
Proof.
  intros Ho Hp Es Ew. replace h with (<[p := mkInner (strong i + 0) (weak i + 0) (data i)]> h) at 2.
  - apply step_changes; done || lia.
  - rewrite !Z.add_0_r. rewrite insert_id; [done|]. rewrite Hp. by destruct i.
Qed.

Lemma fetch_strong_Val f h p (i : @ArcInner T) ds :
  h !! p = Some i -> f (strong i) = strong i + ds ->
  fetch_strong f h p = Val (strong i, <[p := mkInner (strong i + ds) (weak i + 0) (data i)]> h).
Proof. intros Hp E. unfold fetch_strong, inner. rewrite Hp. cbn. by rewrite E, Z.add_0_r. Qed.

Lemma fetch_weak_Val f h p (i : @ArcInner T) dw :
  h !! p = Some i -> f (weak i) = weak i + dw ->
  fetch_weak f h p = Val (weak i, <[p := mkInner (strong i + 0) (weak i + dw) (data i)]> h).
Proof. intros Hp E. unfold fetch_weak, inner. rewrite Hp. cbn. by rewrite E, Z.add_0_r. Qed.

Lemma increment_small n : 0 <= n < 2 ^ 62 -> increment n = n + 1.
Proof. intros Hn. unfold increment, wrapping_add. apply Z.mod_small. lia. Qed.
Lemma decrement_small n : 1 <= n < 2 ^ 62 -> decrement n = n + -1.
Proof. intros Hn. unfold decrement, wrapping_sub. rewrite Z.mod_small; lia. Qed.

(** The turn of [upgrade]'s loop leaves the handles alone. *)
Lemma upgrade_turn_ok p t w n :
  owner_ok p t -> weak_inner w = p -> 0 < n < 2 ^ 63 -> owner_ok p (set_pc t (upgrade_turn n w)).
Proof.
  intros [Hi Hk _] Hw Hn. split; [done|done|]. cbn. unfold upgrade_turn.
  rewrite (proj2 (Z.eqb_neq n 0)) by lia. right. by exists n, w.
Qed.

Section Steps.
Context (p : Z) (t : Owner T U) (h : gmap Z (@ArcInner T)) (i : @ArcInner T).
Context (Hok : owner_ok p t) (Hp : h !! p = Some i).

Lemma stays : exists t' h', Val (t, h) = Val (t', h') /\ step_ok p t t' h h'.
Proof. exists t, h. split; [done|]. by apply (step_stays _ _ _ _ i). Qed.

(** The first access of an operation, while each count has its own handle: the one
    the block is kept alive by, and those of the harts. *)
Lemma begin_ok a :
  on_block p a ->
  1 + Z.of_nat (strongs t) <= strong i < 2 ^ 62 -> 1 + Z.of_nat (weak_ones t) <= weak i < 2 ^ 62 ->
  exists t' h', begin_action a t h = Val (t', h') /\ step_ok p t t' h h'.
Proof.
  intros Ha Hs Hw. pose proof Hok as [Hi Hk _]. pose proof stays as Hstay.
  assert (Hin : inner h p = Val i) by (unfold inner; by rewrite Hp).
  destruct a as [parent get_child|k|k|k|k|b]; cbn [begin_action]; [..|exact Hstay].
  + cbn in Ha. subst parent. unfold Inject_new.
    rewrite (fetch_strong_Val _ _ _ i 1) by (done || apply increment_small; lia). cbn [mbind outcome_bind].
    eexists _, _. split; [reflexivity|]. apply step_changes; [|done|lia|lia|..].
    * split; cbn; [apply Forall_app; by repeat constructor|done|by left].
    * unfold strongs. cbn. rewrite length_app. cbn. lia.
    * unfold weak_ones. cbn. lia.
  + destruct (injects t !! k) as [j|] eqn:Ek; [|exact Hstay].
    rewrite (Forall_lookup_1 _ _ _ _ Hi Ek). pose proof (delete_handle _ _ _ Ek) as Hd.
    assert (1 <= Z.of_nat (strongs t)) by (apply lookup_lt_Some in Ek; unfold strongs; lia).
    rewrite (fetch_strong_Val _ _ _ i (-1)) by (done || apply decrement_small; lia). cbn [mbind outcome_bind].
    rewrite (proj2 (Z.eqb_neq (strong i) 1)) by lia.
    eexists _, _. split; [reflexivity|]. apply step_changes; [|done|lia|lia|exact Hd|unfold weak_ones; cbn; lia].
    split; cbn; [by apply Forall_delete|done|by left].
  + destruct (injects t !! k) as [j|] eqn:Ek; [|exact Hstay]. unfold Inject_downgrade, Weak_from, Weak_inner_data.
    rewrite (Forall_lookup_1 _ _ _ _ Hi Ek).
    rewrite (fetch_weak_Val _ _ _ i 1) by (done || apply increment_small; lia). cbn [mbind outcome_bind].
    eexists _, _. split; [reflexivity|]. apply step_changes; [|done|lia|lia|..].
    * split; cbn; [done|apply Forall_app; by repeat constructor|by left].
    * unfold strongs. cbn. lia.
    * unfold weak_ones. cbn. rewrite length_app. cbn. lia.
  + destruct (weaks t !! k) as [w|] eqn:Ek; [|exact Hstay]. pose proof (Forall_lookup_1 _ _ _ _ Hk Ek) as Hwp.
    cbn in Hwp. rewrite Hwp, Hin. cbn [mbind outcome_bind]. eexists _, _. split; [reflexivity|].
    apply (step_stays _ _ _ _ i); [apply upgrade_turn_ok; done || lia|done..].
  + destruct (weaks t !! k) as [w|] eqn:Ek; [|exact Hstay].
    rewrite (Forall_lookup_1 _ _ _ _ Hk Ek). pose proof (delete_handle _ _ _ Ek) as Hd.
    assert (1 <= Z.of_nat (weak_ones t)) by (apply lookup_lt_Some in Ek; unfold weak_ones; lia).
    rewrite (fetch_weak_Val _ _ _ i (-1)) by (done || apply decrement_small; lia). cbn [mbind outcome_bind].
    rewrite (proj2 (Z.eqb_neq (weak i) 1)) by lia.
    eexists _, _. split; [reflexivity|]. apply step_changes; [|done|lia|lia|unfold strongs; cbn; lia|exact Hd].
    split; cbn; [done|by apply Forall_delete|by left].
Qed.

(** The exchange of [upgrade]. *)
Lemma exchange_ok n w spurious :
  pc t = Exchange n w -> 0 < n < 2 ^ 63 -> weak_inner w = p -> 0 < strong i < 2 ^ 62 ->
  exists t' h', continue spurious t h = Val (t', h') /\ step_ok p t t' h h'.
Proof.
  intros Hpc Hn Hwp Hs. pose proof Hok as [Hi Hk _]. assert (Hin : inner h p = Val i) by (unfold inner; by rewrite Hp).
  unfold continue. rewrite Hpc, checked_add_Val by lia. cbn [mbind outcome_bind].
  rewrite Hwp, Hin. cbn [mbind outcome_bind].
    destruct (negb spurious && (strong i =? n)) eqn:Eb.
    + apply andb_prop in Eb as [_ <-%Z.eqb_eq]. eexists _, _. split; [reflexivity|].
      rewrite <- (Z.add_0_r (weak i)). apply step_changes; [|done|lia|lia|..].
      * split; cbn; [apply Forall_app; by repeat constructor|done|by left].
      * unfold strongs. cbn. rewrite length_app. cbn. lia.
      * unfold weak_ones. cbn. lia.
    + eexists _, _. split; [reflexivity|]. apply (step_stays _ _ _ _ i); [apply upgrade_turn_ok; done || lia|done..].
Qed.

Lemma act_ok a :
  on_block p a ->
  1 + Z.of_nat (strongs t) <= strong i < 2 ^ 62 -> 1 + Z.of_nat (weak_ones t) <= weak i < 2 ^ 62 ->
  exists t' h', act a t h = Val (t', h') /\ step_ok p t t' h h'.
Proof.
  intros Ha Hs Hw. unfold act. destruct (ok_pc _ _ Hok) as [Hpc|(n & w & Hpc & Hn & Hwp)]; rewrite Hpc.
  - by apply begin_ok.
  - destruct a; try exact stays. apply (exchange_ok n w); done || lia.
Qed.
End Steps.

(** One turn of the harts. *)
Lemma harts_turn_ok p d h0 c e n :
  counts_exact p d h0 c -> room c (1 + n) -> 0 <= n -> on_block p e.2 ->
  exists c', harts_turn c e = Val c' /\ counts_exact p d h0 c' /\ room c' n /\ length c'.1 = length c.1.
Proof.
  intros (Hp & Hok & Hd) [Hr1 Hr2] Hn Ha. destruct c as [ts h]. cbn [fst snd] in *. unfold harts_turn. cbn [fst snd].
  destruct (ts !! e.1) as [t|] eqn:Et.
  2:{ exists (ts, h). split; [done|]. split; [done|]. split; [|done]. split; cbn [fst]; lia. }
  pose proof (total_ge strongs _ _ _ Et) as Gs. pose proof (total_ge weak_ones _ _ _ Et) as Gw.
  destruct (act_ok p t h _ (Forall_lookup_1 _ _ _ _ Hok Et) Hp e.2 Ha) as (t' & h' & E & Hok' & Hs & Hw & i & Hi & ->);
    [cbn; lia|cbn; lia|]. rewrite Hp in Hi. injection Hi as <-. cbn [strong weak data] in *.
  rewrite E. cbn [mbind outcome_bind]. eexists. split; [reflexivity|].
  pose proof (total_insert strongs _ _ _ t' Et). pose proof (total_insert weak_ones _ _ _ t' Et).
  split; [|split; [split; cbn [fst]; lia|apply length_insert]].
  split; [|split]; cbn [fst snd].
  - rewrite lookup_insert_eq. do 2 f_equal; lia.
  - by apply Forall_insert.
  - by rewrite delete_insert_eq.
Qed.

End Counting.

(** Two harts: while the second upgrades, the first injects, so the exchange
    fails once. *)
Definition sample_schedule : list (nat * Action (Z * Z) Z) :=
  [(0%nat, New 8 fst); (0%nat, Downgrade 0); (0%nat, Upgrade 0); (1%nat, New 8 snd); (0%nat, Continue false);
   (1%nat, Drop 0); (0%nat, Continue true); (0%nat, Continue false)].


Example sample_schedule_counts :
  (h ← for_each (run_op 8) [ArcInject.Inject; ArcInject.Downgrade; DropInject] (Arc_new ∅ 8 (3, 4));
   c ← for_each harts_turn sample_schedule (replicate 2 (mkOwner [] [] Idle), h);
   Val (List.map strongs c.1, c.2 !! 8)) = Val ([2; 0]%nat, Some (mkInner 3 2 (Some (3, 4)))).
Proof. reflexivity. Qed.
