(* ===== verification/AsyncLock.v ===== *)
(** * kernel_lock: locks for futures

    [kernel_lock/src/future/mutex.rs] and [future/rwlock.rs].

    Tasks share the internal spin lock, the vector of wakers and the set of
    tasks that have been woken.  One step of a task is one access to the shared
    state: the internal try (atomic, or undisturbed), the push of the waker
    (under the wakers' own lock), the release, the waking, the clearing.  A task
    whose future returned [Pending] runs again only when it has been woken.

    The data behind a lock is one cell ([UnsafeCell]) that the guards read and
    write through [deref] and [deref_mut] ([Section Guarded]). *)

From S2P Require Import Prelude SpinLock SharedLock.

(** ** The data behind a lock *)

Section Guarded.
Context {Pc S T : Type} (op : Pc -> S -> outcome (Pc * S)).
(** Which tasks hold a guard, and which a guard with [DerefMut]. *)
Context (has_guard has_mut : Pc -> bool).

(** The lock, and the cell. *)
Record AsyncLock := mkAsyncLock { lock : list Pc * S; cell : T }.

Definition new (ps : list Pc) (s : S) (x : T) : AsyncLock := mkAsyncLock (ps, s) x.

(** [get_mut] and [into_inner]: no guard exists, the cell is the owner's. *)
Definition get_mut (c : AsyncLock) (f : T -> T) : AsyncLock := mkAsyncLock (lock c) (f (cell c)).
Definition into_inner (c : AsyncLock) : T := cell c.

(** [Deref] and [DerefMut] of the guard task [i] holds. *)
Definition deref (c : AsyncLock) (i : nat) : option T :=
  p ← (lock c).1 !! i; if has_guard p then Some (cell c) else None.

Definition deref_mut (c : AsyncLock) (i : nat) (f : T -> T) : option AsyncLock :=
  p ← (lock c).1 !! i; if has_mut p then Some (mkAsyncLock (lock c) (f (cell c))) else None.

(** A task's next operation on the lock, or a write through its guard; [seen]
    is what each guard's owner knows: the cell when it got the guard, changed by
    its own writes. *)
Inductive guarded_step : AsyncLock * (nat -> T) -> AsyncLock * (nat -> T) -> Prop :=
  | lock_op i ps s p p' s' x seen :
      ps !! i = Some p -> op p s = Val (p', s') ->
      guarded_step (mkAsyncLock (ps, s) x, seen)
        (mkAsyncLock (<[i := p']> ps, s') x,
         if has_guard p' && negb (has_guard p) then (fun j => if (j =? i)%nat then x else seen j) else seen)
  | write_op i c c' f seen :
      deref_mut c i f = Some c' ->
      guarded_step (c, seen) (c', fun j => if (j =? i)%nat then f (seen j) else seen j).

(** What the lock has to provide. *)
Context (invariant : list Pc * S -> Prop).
Context (Hstep : forall ps s i p p' s', invariant (ps, s) -> ps !! i = Some p -> op p s = Val (p', s') ->
  invariant (<[i := p']> ps, s')).
Context (Hexcl : forall ps s i j p q, invariant (ps, s) -> ps !! i = Some p -> ps !! j = Some q ->
  has_mut p = true -> has_guard q = true -> i = j).

Definition isolated (c : AsyncLock * (nat -> T)) : Prop :=
  invariant (lock c.1) /\ forall i x, deref c.1 i = Some x -> x = c.2 i.

Lemma isolated_step c c' : guarded_step c c' -> isolated c -> isolated c'.
Proof.
  intros Hs [Hi Hd]. destruct Hs as [i ps s p p' s' x seen Hp Hop|i c c' f seen Hw];
    unfold isolated, deref in *; cbn [lock cell fst snd] in *.
  - split; [by eapply Hstep|]. intros j y. destruct (Nat.eqb_spec j i) as [->|Hj].
    + rewrite list_lookup_insert_eq by (by eapply lookup_lt_Some). cbn. specialize (Hd i x).
      rewrite Hp in Hd. cbn in Hd. destruct (has_guard p'); [|done]. intros [= <-].
      destruct (has_guard p) eqn:Hg; cbn in *; [by apply Hd|]. by rewrite Nat.eqb_refl.
    + rewrite list_lookup_insert_ne by done. intros Hy. rewrite (Hd j y Hy).
      destruct (has_guard p' && negb (has_guard p)); [|done]. by rewrite (proj2 (Nat.eqb_neq j i)).
  - destruct c as [[ps s] x]. unfold deref_mut in Hw. cbn [lock cell fst snd] in *.
    destruct (ps !! i) as [p|] eqn:Hp; [|done]. cbn in Hw. destruct (has_mut p) eqn:Hm; [|done].
    injection Hw as <-. cbn [lock cell fst snd] in *. split; [done|]. intros j y Hy.
    destruct (ps !! j) as [q|] eqn:Hq; [|done]. cbn in Hy. destruct (has_guard q) eqn:Hg; [|done].
    injection Hy as <-. pose proof (Hexcl ps s i j p q Hi Hp Hq Hm Hg) as <-. rewrite Nat.eqb_refl.
    f_equal. apply (Hd i x). rewrite Hq. cbn. by rewrite Hg.
Qed.

Lemma isolated_reachable c c' : rtc guarded_step c c' -> isolated c -> isolated c'.
Proof. induction 1 as [|c c1 c2 Hs _ IH]; [done|]. intros Hi. by eapply IH, isolated_step. Qed.
End Guarded.
Arguments AsyncLock : clear implicits.

(** ** [future::Mutex] *)

Module AsyncMutex.

Record Shared := mkShared {
  locked : bool;
  wakers : list nat;
  woken : list nat
}.

Inductive Pc :=
  | Poll (task : nat)       (* [poll]: the internal [try_lock] *)
  | Register (task : nat)   (* [poll]: [wakers.push(cx.waker().clone())] *)
  | Pending (task : nat)
  | Guard (task : nat)      (* holds the guard; next [force_unlock] releases *)
  | WakeFirst (task : nat)  (* [force_unlock]: [wakers.remove(0).wake()] *)
  | Done (task : nat).

Definition poll (task : nat) (s : Shared) : Pc * Shared :=
  let '(l, ok) := Mutex.try_lock (locked s) in
  (if ok : bool then Guard task else Register task, mkShared l (wakers s) (woken s)).

Definition register (task : nat) (s : Shared) : Pc * Shared :=
  (Pending task, mkShared (locked s) (wakers s ++ [task]) (woken s)).

Definition remove_first_and_wake (task : nat) (s : Shared) : outcome (Pc * Shared) :=
  match wakers s with
  | [] => Stop IndexOutOfBounds
  | w :: ws => Val (Done task, mkShared (locked s) ws (w :: woken s))
  end.

(** [Drop] of the guard calls [force_unlock], which releases the lock first. *)
Definition drop_guard (task : nat) (s : Shared) : Pc * Shared :=
  (WakeFirst task, mkShared (Mutex.unlock (locked s)) (wakers s) (woken s)).

Definition task_op (p : Pc) (s : Shared) : outcome (Pc * Shared) :=
  match p with
  | Poll t => Val (poll t s)
  | Register t => Val (register t s)
  | Pending t =>
      if bool_decide (t ∈ woken s)
      then Val (Poll t, mkShared (locked s) (wakers s) (filter (fun u => u <> t) (woken s)))
      else Val (Pending t, s)
  | Guard t => Val (drop_guard t s)
  | WakeFirst t => remove_first_and_wake t s
  | Done t => Val (Done t, s)
  end.

Inductive global_step : list Pc * Shared -> list Pc * Shared -> Prop :=
  | task_step i ps p p' s s' :
      ps !! i = Some p -> task_op p s = Val (p', s') -> global_step (ps, s) (<[i := p']> ps, s').

(** [RawAsyncMutex::new]. *)
Definition raw_new : Shared := mkShared false [] [].

(** The future [lock] answers. *)
Definition lock (task : nat) : Pc := Poll task.

Definition initial (n : nat) : list Pc * Shared := (lock <$> seq 0 n, raw_new).

Definition has_guard (p : Pc) : bool := match p with Guard _ => true | _ => false end.

Definition invariant (c : list Pc * Shared) : Prop := countb has_guard c.1 = Z.b2z (locked c.2).

Lemma async_mutex_invariant_step c c' : invariant c -> global_step c c' -> invariant c'.
Proof.
  unfold invariant. intros Hi Hst. destruct Hst as [i ps p p' s s' Hp Hop]. cbn [fst snd] in *.
  rewrite (countb_insert has_guard ps i p p' Hp), Hi.
  assert (Hl : has_guard p = true -> locked s = true).
  { intros Hg. pose proof (countb_pos has_guard ps i p Hp Hg). destruct (locked s); [done|].
    cbn [Z.b2z] in Hi. lia. }
  destruct p as [t|t|t|t|t|t]; cbn [task_op has_guard Z.b2z] in *.
  - injection Hop as <- <-. unfold Mutex.try_lock. cbn. by destruct (locked s).
  - injection Hop as <- <-. cbn. lia.
  - case_bool_decide; injection Hop as <- <-; cbn; lia.
  - injection Hop as <- <-. rewrite Hl by done. cbn. lia.
  - unfold remove_first_and_wake in Hop. destruct (wakers s); [done|]. injection Hop as <- <-. cbn. lia.
  - injection Hop as <- <-. cbn. lia.
Qed.

Lemma async_mutex_invariant_reachable n c : rtc global_step (initial n) c -> invariant c.
Proof.
  assert (Hi : invariant (initial n)).
  { unfold invariant; cbn [initial fst snd locked Z.b2z]. generalize 0%nat.
    induction n as [|n IH]; intros k; [done|]. cbn [seq fmap list_fmap]. by rewrite countb_cons, IH. }
  intros H. revert Hi. induction H as [|c c1 c2 Hs _ IH]; [done|].
  intros Hi. by eapply IH, async_mutex_invariant_step.
Qed.

(** C36: the asynchronous mutex excludes, in every interleaving of any number
    of tasks; but its guard cannot be dropped without a waiter: a task that
    releases the lock with no waker registered panics, as a single task always
    does. *)
Theorem async_mutex_guard n ps s :
  rtc global_step (initial n) (ps, s) ->
  (forall i j t u, ps !! i = Some (Guard t) -> ps !! j = Some (Guard u) -> i = j) /\
  (locked s = true <-> exists i t, ps !! i = Some (Guard t)) /\
  (wakers s = [] -> forall t, task_op (WakeFirst t) s = Stop IndexOutOfBounds) /\
  run_schedule task_op [0; 0; 0]%nat (initial 1) = Stop IndexOutOfBounds.
Proof.
  intros Hr. apply async_mutex_invariant_reachable in Hr. unfold invariant in Hr; cbn [fst snd] in Hr.
  split; [|split; [|split; [|done]]].
  - intros i j t u Hi Hj. destruct (decide (i = j)) as [|Hne]; [done|].
    pose proof (countb_two has_guard ps i j _ _ Hi Hj Hne eq_refl eq_refl).
    destruct (locked s); cbn [Z.b2z] in Hr; lia.
  - split.
    + intros E. rewrite E in Hr. cbn [Z.b2z] in Hr. clear -Hr. induction ps as [|p ps IH]; [done|].
      rewrite countb_cons in Hr. destruct p as [t|t|t|t|t|t]; cbn [has_guard Z.b2z] in Hr;
        try (by exists 0%nat, t); destruct IH as (i & u & Hi); try lia; by exists (S i), u.
    + intros (i & t & Hi). pose proof (countb_pos has_guard ps i _ Hi eq_refl).
      destruct (locked s); [done|]. cbn [Z.b2z] in Hr. lia.
  - intros Hw t. cbn [task_op]. unfold remove_first_and_wake. by rewrite Hw.
Qed.

Lemma async_mutex_guard_witness : run_schedule task_op [0; 0; 0]%nat (initial 1) = Stop IndexOutOfBounds.
Proof. apply (async_mutex_guard 1 (initial 1).1 (initial 1).2). apply rtc_refl. Defined.

End AsyncMutex.

(** ** [future::RwLock] *)

Module AsyncRwLock.

Inductive Kind := Read | Write.

Record Shared := mkShared {
  value : Z;
  wakers : list nat;
  woken : list nat
}.

(** The two futures, the two guards, and what dropping one still has to do. *)
Inductive Pc :=
  | Poll (k : Kind) (task : nat)
  | Register (k : Kind) (task : nat)
  | Pending (k : Kind) (task : nat)
  | Guard (k : Kind) (task : nat)
  | WakeAll (task : nat)   (* [for waker in wakers.lock().iter() { wake_by_ref }] *)
  | Clear (task : nat)     (* [wakers.lock().clear()] *)
  | Done (task : nat).

(** The internal [try_lock_shared] and [try_lock_exclusive]. *)
Definition try_lock (k : Kind) (v : Z) : outcome (Z * bool) :=
  match k with
  | Read => r ← SharedRwLock.solo (RwLock.SharedLoad false) v; Val (r.2, RwLock.in_shared r.1)
  | Write => r ← SharedRwLock.solo (RwLock.ExclusiveLoad false) v; Val (r.2, RwLock.in_exclusive r.1)
  end.

Definition unlock (k : Kind) (v : Z) : Z :=
  match k with Read => RwLock.unlock_shared v | Write => RwLock.unlock_exclusive v end.

Definition poll (k : Kind) (task : nat) (s : Shared) : outcome (Pc * Shared) :=
  r ← try_lock k (value s);
  Val (if (r.2 : bool) then Guard k task else Register k task, mkShared r.1 (wakers s) (woken s)).

(** The futures [read] and [write] answer. *)
Definition read (task : nat) : Pc := Poll Read task.
Definition write (task : nat) : Pc := Poll Write task.

(** The two [force_unlock]s release the lock first; [Drop] of a guard calls the
    one for its kind. *)
Definition force_unlock (k : Kind) (task : nat) (s : Shared) : Pc * Shared :=
  (WakeAll task, mkShared (unlock k (value s)) (wakers s) (woken s)).
Definition drop_read_guard := force_unlock Read.
Definition drop_write_guard := force_unlock Write.

Definition task_op (p : Pc) (s : Shared) : outcome (Pc * Shared) :=
  match p with
  | Poll k t => poll k t s
  | Register k t => Val (Pending k t, mkShared (value s) (wakers s ++ [t]) (woken s))
  | Pending k t =>
      if bool_decide (t ∈ woken s)
      then Val (Poll k t, mkShared (value s) (wakers s) (filter (fun u => u <> t) (woken s)))
      else Val (Pending k t, s)
  | Guard Read t => Val (drop_read_guard t s)
  | Guard Write t => Val (drop_write_guard t s)
  | WakeAll t => Val (Clear t, mkShared (value s) (wakers s) (wakers s ++ woken s))
  | Clear t => Val (Done t, mkShared (value s) [] (woken s))
  | Done t => Val (Done t, s)
  end.

Inductive global_step : list Pc * Shared -> list Pc * Shared -> Prop :=
  | task_step i ps p p' s s' :
      ps !! i = Some p -> task_op p s = Val (p', s') -> global_step (ps, s) (<[i := p']> ps, s').

(** [RawAsyncRwLock::new]. *)
Definition unlocked : Shared := mkShared 0 [] [].

Definition guards (k : Kind) (p : Pc) : bool :=
  match k, p with Read, Guard Read _ | Write, Guard Write _ => true | _, _ => false end.

(** *** Exclusion *)

Record invariant (c : list Pc * Shared) : Prop := {
  inv_value : value c.2 = 2 * countb (guards Read) c.1 + countb (guards Write) c.1;
  inv_exclusive : countb (guards Write) c.1 <= 1;
  inv_separate : countb (guards Write) c.1 = 1 -> countb (guards Read) c.1 = 0;
  inv_tasks : Z.of_nat (length c.1) <= 2 ^ 61
}.

Lemma try_lock_eq k v :
  0 <= v <= 2 ^ 62 ->
  try_lock k v = Val (match k with
                      | Read => if Z.odd v then (v, false) else (v + 2, true)
                      | Write => if v =? 0 then (1, true) else (v, false)
                      end).
Proof.
  intros Hv. destruct k; unfold try_lock, SharedRwLock.solo; cbn [RwLock.hart_op mbind outcome_bind].
  - unfold RwLock.shared_load. rewrite RwLock.has_writer_odd.
    destruct (Z.odd v); cbn [fst snd mbind outcome_bind]; [done|].
    cbn [RwLock.hart_op]. unfold RwLock.compare_exchange_add, RwLock.SHARED.
    rewrite checked_add_Val by lia. cbn [mbind outcome_bind]. by rewrite Z.eqb_refl.
  - unfold RwLock.exclusive_load. destruct (Z.eqb_spec v 0) as [->|]; [done|]. done.
Qed.

Lemma async_rwlock_invariant_step c c' : invariant c -> global_step c c' -> invariant c'.
Proof.
  intros [Hv He Hs Hh] Hst. destruct Hst as [i ps p p' s s' Hi Hop]. cbn [fst snd] in *.
  pose proof (countb_bounds (guards Read) ps). pose proof (countb_bounds (guards Write) ps).
  assert (Hn : guards Read p' = guards Read p /\ guards Write p' = guards Write p /\ value s' = value s
    \/ guards Read p = false /\ guards Write p = false /\ guards Read p' = true /\ guards Write p' = false /\
       Z.odd (value s) = false /\ value s' = value s + 2
    \/ guards Read p = false /\ guards Write p = false /\ guards Read p' = false /\ guards Write p' = true /\
       value s = 0 /\ value s' = 1
    \/ guards Read p = true /\ guards Write p = false /\ guards Read p' = false /\ guards Write p' = false /\
       value s' = RwLock.unlock_shared (value s)
    \/ guards Read p = false /\ guards Write p = true /\ guards Read p' = false /\ guards Write p' = false /\
       value s' = RwLock.unlock_exclusive (value s)).
  { destruct p as [k t|k t|k t|k t|t|t|t]; cbn [task_op] in Hop.
    - unfold poll in Hop. rewrite try_lock_eq in Hop by lia. cbn [mbind outcome_bind] in Hop.
      injection Hop as <- <-. destruct k; cbn [value].
      + destruct (Z.odd (value s)) eqn:Eo; cbn; [by left|]. right; left. done.
      + destruct (Z.eqb_spec (value s) 0); cbn; [right; right; left; done|by left].
    - injection Hop as <- <-. left. by destruct k.
    - case_bool_decide; injection Hop as <- <-; left; by destruct k.
    - destruct k; injection Hop as <- <-; cbn; tauto.
    - injection Hop as <- <-. by left.
    - injection Hop as <- <-. by left.
    - injection Hop as <- <-. by left. }
  clear Hop.
  pose proof (fun Hf => countb_pos (guards Read) ps i p Hi Hf) as Hposr.
  pose proof (fun Hf => countb_pos (guards Write) ps i p Hi Hf) as Hposw.
  assert (Ho : Z.odd (value s) = (countb (guards Write) ps =? 1)).
  { rewrite Hv. change 2 with RwLock.SHARED. apply RwLock.odd_count. lia. }
  split; cbn [fst snd]; rewrite ?length_insert; try done;
    rewrite ?(countb_insert _ ps i p p' Hi);
    destruct Hn as [(E1 & E2 & E3) | [(E1 & E2 & E3 & E4 & E5 & E6) | [(E1 & E2 & E3 & E4 & E5 & E6)
      | [(E1 & E2 & E3 & E4 & E5) | (E1 & E2 & E3 & E4 & E5)]]]];
    rewrite ?E1, ?E2, ?E3, ?E4, ?E5, ?E6; cbn [Z.b2z];
    try (rewrite Ho in E5; apply Z.eqb_neq in E5);
    try specialize (Hposr E1); try specialize (Hposw E2);
    unfold RwLock.unlock_shared, RwLock.unlock_exclusive, wrapping_sub, RwLock.SHARED, RwLock.WRITER;
    try (rewrite Z.mod_small by lia); lia.
Qed.

Lemma async_rwlock_invariant_initial ps0 :
  (forall i p, ps0 !! i = Some p -> exists k t, p = Poll k t) -> Z.of_nat (length ps0) <= 2 ^ 61 ->
  invariant (ps0, unlocked).
Proof.
  intros H0 Hlen. assert (Hz : forall k, countb (guards k) ps0 = 0).
  { intros k. clear -H0. induction ps0 as [|p ps IH]; [done|]. rewrite countb_cons, IH.
    - destruct (H0 0%nat p eq_refl) as (k' & t & ->). by destruct k.
    - intros i q Hq. by apply (H0 (S i)). }
  split; cbn [fst snd unlocked value]; rewrite ?Hz; done || lia.
Qed.

Lemma async_rwlock_invariant_reachable c c' : rtc global_step c c' -> invariant c -> invariant c'.
Proof.
  induction 1 as [|c c1 c2 Hs _ IH]; [done|]. intros Hi. by eapply IH, async_rwlock_invariant_step.
Qed.

(** C23: the asynchronous read-write lock: in every interleaving at most one
    writer, and no reader beside it; no step panics. *)
Theorem async_rwlock_exclusion ps0 ps s :
  (forall i p, ps0 !! i = Some p -> exists k t, p = Poll k t) -> Z.of_nat (length ps0) <= 2 ^ 61 ->
  rtc global_step (ps0, unlocked) (ps, s) ->
  (forall i j t u, ps !! i = Some (Guard Write t) -> ps !! j = Some (Guard Write u) -> i = j) /\
  (forall i j t u, ps !! i = Some (Guard Write t) -> ps !! j <> Some (Guard Read u)) /\
  (forall i p, ps !! i = Some p -> exists r, task_op p s = Val r).
Proof.
  intros H0 Hlen Hr.
  pose proof (async_rwlock_invariant_reachable _ _ Hr (async_rwlock_invariant_initial ps0 H0 Hlen)) as Hinv.
  destruct Hinv as [Hv He Hs Hh]; cbn [fst snd] in *.
  pose proof (countb_bounds (guards Read) ps). pose proof (countb_bounds (guards Write) ps).
  split; [|split].
  - intros i j t u Hi Hj. destruct (decide (i = j)) as [|Hne]; [done|].
    pose proof (countb_two (guards Write) ps i j _ _ Hi Hj Hne eq_refl eq_refl). lia.
  - intros i j t u Hi Hj. pose proof (countb_pos (guards Write) ps i _ Hi eq_refl).
    pose proof (countb_pos (guards Read) ps j _ Hj eq_refl). lia.
  - intros i p Hp. destruct p; cbn [task_op]; eauto.
    + unfold poll. rewrite try_lock_eq by lia. cbn [mbind outcome_bind]. eauto.
    + case_bool_decide; eauto.
    + destruct k; eauto.
Qed.

Lemma async_rwlock_exclusion_witness :
  Z.of_nat (length [Poll Write 0; Poll Read 1]) <= 2 ^ 61 /\
  (forall i j t u, [Guard Write 0; Poll Read 1] !! i = Some (Guard Write t) ->
    [Guard Write 0; Poll Read 1] !! j = Some (Guard Write u) -> i = j).
Proof.
  split; [done|].
  apply (async_rwlock_exclusion [Poll Write 0; Poll Read 1] [Guard Write 0; Poll Read 1] (mkShared 1 [] [])).
  - intros [|[|i]] p; try done; intros [= <-]; eauto.
  - done.
  - apply rtc_once. by apply (task_step 0 [Poll Write 0; Poll Read 1] (Poll Write 0)).
Defined.

(** *** Lost wakeups *)

(** A task that waits although the lock is free, whose waker nobody holds. *)
Definition forgotten (t : nat) (c : list Pc * Shared) : Prop :=
  exists i k, c.1 !! i = Some (Pending k t) /\ value c.2 = 0 /\ t ∉ woken c.2 /\
    forall j p, c.1 !! j = Some p -> j <> i -> exists u, p = Done u.

(** C37: a waiter of the read-write lock can be forgotten.  A task whose try
    failed registers its waker only afterwards: when the writer releases, wakes
    and clears in between, or when the task registers between the waking and the
    clearing, the lock is free, the task waits and nothing will wake it. *)
Theorem async_rwlock_lost_wakeup :
  (exists c, run_schedule task_op [0; 1; 0; 0; 0; 1]%nat ([Poll Write 0; Poll Read 1], unlocked) = Val c /\
     forgotten 1 c) /\
  (exists c, run_schedule task_op [0; 1; 0; 0; 1; 0]%nat ([Poll Write 0; Poll Read 1], unlocked) = Val c /\
     forgotten 1 c /\ wakers c.2 = []).
Proof.
  assert (Hf : forall ws, forgotten 1 ([Done 0; Pending Read 1], mkShared 0 ws [])).
  { intros ws. exists 1%nat, Read. split; [done|]. split; [done|]. split; [apply not_elem_of_nil|].
    intros [|[|j]] p; cbn; intros Hp Hj; try done. injection Hp as <-. by exists 0%nat. }
  split; eexists; (split; [vm_compute; reflexivity|]); [apply Hf|split; [apply Hf|done]].
Qed.

End AsyncRwLock.

(** ** Isolation *)

(** The owner of a read or a write guard. *)
Definition any_guard (p : AsyncRwLock.Pc) : bool :=
  AsyncRwLock.guards AsyncRwLock.Read p || AsyncRwLock.guards AsyncRwLock.Write p.

(** The [Deref]s and [DerefMut]s of the guards. *)
Definition AsyncMutexGuard_deref {T} := deref (T := T) (S := AsyncMutex.Shared) AsyncMutex.has_guard.
Definition AsyncMutexGuard_deref_mut {T} := deref_mut (T := T) (S := AsyncMutex.Shared) AsyncMutex.has_guard.
Definition AsyncRwLockReadGuard_deref {T} :=
  deref (T := T) (S := AsyncRwLock.Shared) (AsyncRwLock.guards AsyncRwLock.Read).
Definition AsyncRwLockWriteGuard_deref {T} :=
  deref (T := T) (S := AsyncRwLock.Shared) (AsyncRwLock.guards AsyncRwLock.Write).
Definition AsyncRwLockWriteGuard_deref_mut {T} :=
  deref_mut (T := T) (S := AsyncRwLock.Shared) (AsyncRwLock.guards AsyncRwLock.Write).

(** A read or a write guard's reading. *)
Lemma any_guard_deref {T} (c : AsyncLock AsyncRwLock.Pc AsyncRwLock.Shared T) i y :
  deref any_guard c i = Some y <->
  AsyncRwLockReadGuard_deref c i = Some y \/ AsyncRwLockWriteGuard_deref c i = Some y.
Proof.
  unfold AsyncRwLockReadGuard_deref, AsyncRwLockWriteGuard_deref, deref, any_guard.
  destruct ((lock c).1 !! i) as [p|]; cbn; [|by split; [|intros [?|?]]].
  destruct p as [[] t|[] t|[] t|[] t|t|t|t]; cbn;
    (split; [intros; first [by left|by right]|by intros [?|?]]).
Qed.

Notation mutex_data_step T := (guarded_step (T := T) AsyncMutex.task_op AsyncMutex.has_guard AsyncMutex.has_guard).
Notation rwlock_data_step T :=
  (guarded_step (T := T) AsyncRwLock.task_op any_guard (AsyncRwLock.guards AsyncRwLock.Write)).

Lemma async_mutex_excl (ps : list AsyncMutex.Pc) s i j p q :
  AsyncMutex.invariant (ps, s) -> ps !! i = Some p -> ps !! j = Some q ->
  AsyncMutex.has_guard p = true -> AsyncMutex.has_guard q = true -> i = j.
Proof.
  unfold AsyncMutex.invariant; cbn [fst snd]. intros Hi Hp Hq Hgp Hgq.
  destruct (decide (i = j)) as [|Hne]; [done|].
  pose proof (countb_two AsyncMutex.has_guard ps i j _ _ Hp Hq Hne Hgp Hgq).
  destruct (AsyncMutex.locked s); cbn [Z.b2z] in Hi; lia.
Qed.

Lemma async_rwlock_excl (ps : list AsyncRwLock.Pc) s i j p q :
  AsyncRwLock.invariant (ps, s) -> ps !! i = Some p -> ps !! j = Some q ->
  AsyncRwLock.guards AsyncRwLock.Write p = true -> any_guard q = true -> i = j.
Proof.
  intros [Hv He Hs Hh] Hp Hq Hgp Hgq; cbn [fst snd] in *.
  destruct (decide (i = j)) as [|Hne]; [done|].
  pose proof (countb_pos (AsyncRwLock.guards AsyncRwLock.Write) ps i _ Hp Hgp).
  unfold any_guard in Hgq. apply orb_prop in Hgq as [Hg|Hg].
  - pose proof (countb_pos (AsyncRwLock.guards AsyncRwLock.Read) ps j _ Hq Hg). lia.
  - pose proof (countb_two (AsyncRwLock.guards AsyncRwLock.Write) ps i j _ _ Hp Hq Hne Hgp Hg). lia.
Qed.

(** C24: the data behind the asynchronous locks.  In every interleaving of the
    operations of tasks on the lock with writes through their guards, what a
    guard reads is what the cell held when the guard was given out, changed by
    the owner's own writes and by nothing else; the read guards of a read-write
    lock read the same value. *)
Theorem async_guards_isolated {T} (x : T) n ps0 :
  (forall i p, ps0 !! i = Some p -> exists k t, p = AsyncRwLock.Poll k t) ->
  Z.of_nat (length ps0) <= 2 ^ 61 ->
  (forall c seen,
     rtc (mutex_data_step T) (new (AsyncMutex.initial n).1 (AsyncMutex.initial n).2 x, fun _ => x) (c, seen) ->
     forall i y, AsyncMutexGuard_deref c i = Some y -> y = seen i) /\
  (forall c seen,
     rtc (rwlock_data_step T) (new ps0 AsyncRwLock.unlocked x, fun _ => x) (c, seen) ->
     (forall i y, AsyncRwLockWriteGuard_deref c i = Some y -> y = seen i) /\
     (forall i y, AsyncRwLockReadGuard_deref c i = Some y -> y = seen i) /\
     forall i j y z, AsyncRwLockReadGuard_deref c i = Some y -> AsyncRwLockReadGuard_deref c j = Some z -> y = z).
Proof.
  intros H0 Hlen. split.
  - intros c seen Hr. apply isolated_reachable with (invariant := AsyncMutex.invariant) in Hr as [_ Hd].
    + exact Hd.
    + intros ps s i p p' s' Hi Hp Hop. eapply AsyncMutex.async_mutex_invariant_step; [exact Hi|by econstructor].
    + exact async_mutex_excl.
    + split; cbn [fst snd lock new]; [exact (AsyncMutex.async_mutex_invariant_reachable n _ (rtc_refl _ _))|].
      intros i y. unfold deref; cbn [lock cell new fst snd]. destruct (_ !! i) as [p|]; [|done]. cbn.
      by destruct (AsyncMutex.has_guard p); [intros [= <-]|].
  - intros c seen Hr. apply isolated_reachable with (invariant := AsyncRwLock.invariant) in Hr as [_ Hd].
    + do 2 (split; [intros i y Hy; apply (Hd i y), any_guard_deref; by auto|]).
      intros i j y z Hy Hz. unfold AsyncRwLockReadGuard_deref, deref in Hy, Hz.
      destruct ((lock c).1 !! i) as [p|]; [|done]. destruct ((lock c).1 !! j) as [q|]; [|done].
      cbn in Hy, Hz. destruct p as [| | |[]| | |]; try done.
      destruct q as [| | |[]| | |]; try done. congruence.
    + intros ps s i p p' s' Hi Hp Hop. eapply AsyncRwLock.async_rwlock_invariant_step; [exact Hi|by econstructor].
    + exact async_rwlock_excl.
    + split; cbn [fst snd lock new]; [by apply AsyncRwLock.async_rwlock_invariant_initial|].
      intros i y. unfold deref; cbn [lock cell new fst snd]. destruct (_ !! i) as [p|]; [|done]. cbn.
      by destruct (any_guard p); [intros [= <-]|].
Qed.

(** Two tasks, a counter: the first gets the lock and increments. *)
Definition two_writers : list AsyncRwLock.Pc :=
  [AsyncRwLock.Poll AsyncRwLock.Write 0; AsyncRwLock.Poll AsyncRwLock.Write 1].

Lemma async_guards_isolated_witness :
  exists c seen,
    rtc (rwlock_data_step nat) (new two_writers AsyncRwLock.unlocked 5%nat, fun _ => 5%nat) (c, seen) /\
    AsyncRwLockWriteGuard_deref c 0 = Some 6%nat /\ 6%nat = seen 0%nat.
Proof.
  assert (Hr : exists c seen,
    rtc (rwlock_data_step nat) (new two_writers AsyncRwLock.unlocked 5%nat, fun _ => 5%nat) (c, seen) /\
    AsyncRwLockWriteGuard_deref c 0 = Some 6%nat).
  { eexists _, _. split; [eapply rtc_l; [|apply rtc_once]|].
    - apply lock_op with (i := 0%nat); reflexivity.
    - apply write_op with (i := 0%nat) (f := S). reflexivity.
    - reflexivity. }
  destruct Hr as (c & seen & Hr & Hd). exists c, seen. split; [exact Hr|]. split; [exact Hd|].
  refine (proj1 (proj2 (async_guards_isolated 5%nat 2 two_writers _ _) _ _ Hr) _ _ Hd); [|done].
  intros [|[|i]] p Hp; [injection Hp as <-..|done]; eauto.
Defined.
