(* ===== verification/Refcount.v ===== *)
(** * kernel_send_generic and kernel_lock::lock: reference counts

    The traits [Refcount] and [RefcountWeak] of [kernel_send_generic/src/lib.rs]
    as a class with its laws, and their implementations: [ThreadRefcount] of
    [single_threaded.rs] over [Rc] and [AtomicRefcount] of
    [kernel_lock/src/lock/mod.rs] over [Arc].  The counters of [Rc] and [Arc]
    are those of the standard library; operations are taken one at a time, so
    both have one model, the module [Std]. *)

From S2P Require Import Prelude.

(** ** The standard library's [Rc] and [Arc] *)

(** A block: the strong count, the weak count (one more than the [Weak]s while
    a strong handle exists) and the value until it is dropped. *)
Record RcBox (T : Type) := mkRc { strong : Z; weak : Z; value : option T }.
Arguments mkRc {T}.
Arguments strong {T}.
Arguments weak {T}.
Arguments value {T}.

Abbreviation heap T := (gmap Z (RcBox T)).

Module Std.
Section Std.
Context {T : Type}.

Definition inner (h : heap T) (p : Z) : outcome (RcBox T) :=
  match h !! p with Some b => Val b | None => Stop Undefined end.

(** A count that reaches its limit aborts the program. *)
Definition inc (n : Z) : outcome Z := if n <? 2 ^ 63 - 1 then Val (n + 1) else Stop Overflow.

Definition new (h : heap T) (p : Z) (x : T) : heap T := <[p := mkRc 1 1 (Some x)]> h.

Definition clone (h : heap T) (p : Z) : outcome (heap T) :=
  b ← inner h p; n ← inc (strong b); Val (<[p := mkRc n (weak b) (value b)]> h).

Definition deref (h : heap T) (p : Z) : outcome T :=
  b ← inner h p; match value b with Some x => Val x | None => Stop Undefined end.

(** The count goes down; at zero the block is freed. *)
Definition drop_weak_count (h : heap T) (p : Z) (b : RcBox T) : heap T :=
  if weak b =? 1 then delete p h else <[p := mkRc (strong b) (weak b - 1) (value b)]> h.

Definition drop (h : heap T) (p : Z) : outcome (heap T) :=
  b ← inner h p;
  if strong b =? 1 then Val (drop_weak_count h p (mkRc 0 (weak b) None))
  else Val (<[p := mkRc (strong b - 1) (weak b) (value b)]> h).

Definition downgrade (h : heap T) (p : Z) : outcome (heap T) :=
  b ← inner h p; n ← inc (weak b); Val (<[p := mkRc (strong b) n (value b)]> h).

(** [Weak::new] has no block. *)
Definition weak_clone (h : heap T) (w : option Z) : outcome (heap T) :=
  match w with Some p => downgrade h p | None => Val h end.

Definition weak_drop (h : heap T) (w : option Z) : outcome (heap T) :=
  match w with Some p => b ← inner h p; Val (drop_weak_count h p b) | None => Val h end.

Definition upgrade (h : heap T) (w : option Z) : outcome (heap T * option Z) :=
  match w with
  | None => Val (h, None)
  | Some p =>
      b ← inner h p;
      if strong b =? 0 then Val (h, None) else h ← clone h p; Val (h, Some p)
  end.
End Std.
End Std.

(** ** The traits *)

(** [R] and [W] are the handles; [p] in [rc_new] is the address of the block. *)
Class Refcount (R W : Type) := {
  rc_new : forall T, heap T -> Z -> T -> heap T * R;
  rc_clone : forall T, heap T -> R -> outcome (heap T * R);
  rc_drop : forall T, heap T -> R -> outcome (heap T);
  rc_deref : forall T, heap T -> R -> outcome T;
  downgrade : forall T, heap T -> R -> outcome (heap T * W);
  weak_default : W;
  weak_clone : forall T, heap T -> W -> outcome (heap T * W);
  weak_drop : forall T, heap T -> W -> outcome (heap T);
  upgrade : forall T, heap T -> W -> outcome (heap T * option R)
}.
Arguments rc_new {R W _ T}.
Arguments rc_clone {R W _ T}.
Arguments rc_drop {R W _ T}.
Arguments rc_deref {R W _ T}.
Arguments downgrade {R W _ T}.
Arguments weak_clone {R W _ T}.
Arguments weak_drop {R W _ T}.
Arguments upgrade {R W _ T}.

(** ** The implementations *)

(** [ThreadRefcount(Rc)], [ThreadRefcountWeak(Weak)]. *)
Record ThreadRefcount := mkThreadRefcount { thread_rc : Z }.
Record ThreadRefcountWeak := mkThreadRefcountWeak { thread_weak : option Z }.

Definition ThreadRefcount_deref {T} (h : heap T) (r : ThreadRefcount) : outcome T := Std.deref h (thread_rc r).
Definition ThreadRefcount_clone {T} (h : heap T) (r : ThreadRefcount) : outcome (heap T * ThreadRefcount) :=
  h ← Std.clone h (thread_rc r); Val (h, mkThreadRefcount (thread_rc r)).
Definition ThreadRefcountWeak_clone {T} (h : heap T) (w : ThreadRefcountWeak) : outcome (heap T * ThreadRefcountWeak) :=
  h ← Std.weak_clone h (thread_weak w); Val (h, mkThreadRefcountWeak (thread_weak w)).
Definition ThreadRefcountWeak_default : ThreadRefcountWeak := mkThreadRefcountWeak None.

#[export] Instance thread_refcount : Refcount ThreadRefcount ThreadRefcountWeak := {
  rc_new T h p x := (Std.new h p x, mkThreadRefcount p);
  rc_clone T := ThreadRefcount_clone;
  rc_drop T h r := Std.drop h (thread_rc r);
  rc_deref T := ThreadRefcount_deref;
  downgrade T h r := h ← Std.downgrade h (thread_rc r); Val (h, mkThreadRefcountWeak (Some (thread_rc r)));
  weak_default := ThreadRefcountWeak_default;
  weak_clone T := ThreadRefcountWeak_clone;
  weak_drop T h w := Std.weak_drop h (thread_weak w);
  upgrade T h w := r ← Std.upgrade h (thread_weak w); Val (r.1, option_map mkThreadRefcount r.2)
}.

(** [AtomicRefcount(Arc)], [AtomicRefcountWeak(WeakArc)]. *)
Record AtomicRefcount := mkAtomicRefcount { atomic_rc : Z }.
Record AtomicRefcountWeak := mkAtomicRefcountWeak { atomic_weak : option Z }.

Definition AtomicRefcount_deref {T} (h : heap T) (r : AtomicRefcount) : outcome T := Std.deref h (atomic_rc r).
Definition AtomicRefcount_clone {T} (h : heap T) (r : AtomicRefcount) : outcome (heap T * AtomicRefcount) :=
  h ← Std.clone h (atomic_rc r); Val (h, mkAtomicRefcount (atomic_rc r)).
Definition AtomicRefcountWeak_clone {T} (h : heap T) (w : AtomicRefcountWeak) : outcome (heap T * AtomicRefcountWeak) :=
  h ← Std.weak_clone h (atomic_weak w); Val (h, mkAtomicRefcountWeak (atomic_weak w)).
Definition AtomicRefcountWeak_default : AtomicRefcountWeak := mkAtomicRefcountWeak None.

#[export] Instance atomic_refcount : Refcount AtomicRefcount AtomicRefcountWeak := {
  rc_new T h p x := (Std.new h p x, mkAtomicRefcount p);
  rc_clone T := AtomicRefcount_clone;
  rc_drop T h r := Std.drop h (atomic_rc r);
  rc_deref T := AtomicRefcount_deref;
  downgrade T h r := h ← Std.downgrade h (atomic_rc r); Val (h, mkAtomicRefcountWeak (Some (atomic_rc r)));
  weak_default := AtomicRefcountWeak_default;
  weak_clone T := AtomicRefcountWeak_clone;
  weak_drop T h w := Std.weak_drop h (atomic_weak w);
  upgrade T h w := r ← Std.upgrade h (atomic_weak w); Val (r.1, option_map mkAtomicRefcount r.2)
}.

(** ** Clients *)

Inductive Op := Clone | Drop | Downgrade | WeakClone | WeakDrop | Upgrade | Deref.

(** The handles a client owns, all of one block, over the heap. *)
Record Client (R W T : Type) := mkClient { blocks : heap T; strongs : list R; weaks : list W }.
Arguments mkClient {R W T}.
Arguments blocks {R W T}.
Arguments strongs {R W T}.
Arguments weaks {R W T}.

(** One operation on the first handle of its kind; without one, nothing. *)
Definition use {R W T} `{Refcount R W} (c : Client R W T) (op : Op) : outcome (Client R W T) :=
  let '(mkClient h rs ws) := c in
  match op, rs, ws with
  | Clone, r :: _, _ => n ← rc_clone h r; Val (mkClient n.1 (n.2 :: rs) ws)
  | Drop, r :: rs, _ => h ← rc_drop h r; Val (mkClient h rs ws)
  | Downgrade, r :: _, _ => n ← downgrade h r; Val (mkClient n.1 rs (n.2 :: ws))
  | WeakClone, _, w :: _ => n ← weak_clone h w; Val (mkClient n.1 rs (n.2 :: ws))
  | WeakDrop, _, w :: ws => h ← weak_drop h w; Val (mkClient h rs ws)
  | Upgrade, _, w :: _ => n ← upgrade h w; Val (mkClient n.1 (option_list n.2 ++ rs) ws)
  | Deref, r :: _, _ => _ ← rc_deref h r; Val c
  | _, _, _ => Val c
  end.

(** ** The laws: a handle is an address, an operation that of the library *)

Class RefcountLaws (R W : Type) `{Refcount R W} := {
  addr : R -> Z;
  waddr : W -> option Z;
  new_law T h p x : (rc_new (T := T) h p x).1 = Std.new h p x /\ addr (rc_new (T := T) h p x).2 = p;
  clone_law T h r h' : Std.clone h (addr r) = Val h' ->
    exists r', rc_clone (T := T) h r = Val (h', r') /\ addr r' = addr r;
  drop_law T h r : rc_drop (T := T) h r = Std.drop h (addr r);
  deref_law T h r : rc_deref (T := T) h r = Std.deref h (addr r);
  downgrade_law T h r h' : Std.downgrade h (addr r) = Val h' ->
    exists w, downgrade (T := T) h r = Val (h', w) /\ waddr w = Some (addr r);
  default_law : waddr weak_default = None;
  weak_clone_law T h w h' : Std.weak_clone h (waddr w) = Val h' ->
    exists w', weak_clone (T := T) h w = Val (h', w') /\ waddr w' = waddr w;
  weak_drop_law T h w : weak_drop (T := T) h w = Std.weak_drop h (waddr w);
  upgrade_law T h w h' o : Std.upgrade h (waddr w) = Val (h', o) ->
    exists o', upgrade (T := T) h w = Val (h', o') /\ option_map addr o' = o
}.

(** An instance that hands its address on. *)
Ltac handles_on :=
  intros; cbn in *;
  unfold ThreadRefcount_clone, ThreadRefcountWeak_clone, AtomicRefcount_clone, AtomicRefcountWeak_clone;
  repeat match goal with
  | E : _ = Val _ |- _ => rewrite E; clear E
  | o : option _ |- _ => destruct o
  | |- exists _, _ => eexists
  end; cbn; repeat split; reflexivity.

#[export] Instance thread_refcount_laws : RefcountLaws ThreadRefcount ThreadRefcountWeak.
Proof. refine {| addr := thread_rc; waddr := thread_weak |}; handles_on. Defined.

#[export] Instance atomic_refcount_laws : RefcountLaws AtomicRefcount AtomicRefcountWeak.
Proof. refine {| addr := atomic_rc; waddr := atomic_weak |}; handles_on. Defined.

(** ** The counters count the handles *)

(** The block of [n] strong and [m] weak handles. *)
Definition block_of {T} (x : T) (n m : nat) : option (RcBox T) :=
  match n, m with
  | O, O => None
  | O, S _ => Some (mkRc 0 (Z.of_nat m) None)
  | S _, _ => Some (mkRc (Z.of_nat n) (Z.of_nat m + 1) (Some x))
  end.

(** The heap with that block at [p], and [h0] elsewhere. *)
Definition holds {T} (x : T) (p : Z) (h0 : heap T) (n m : nat) (h : heap T) : Prop :=
  h !! p = block_of x n m /\ delete p h = delete p h0.

Section Counts.
Context {T : Type} (x : T) (p : Z) (h0 : heap T).

Lemma holds_insert n m h b :
  delete p h = delete p h0 -> block_of x n m = Some b -> holds x p h0 n m (<[p := b]> h).
Proof. intros Hd Hb. split; [by rewrite lookup_insert_eq|by rewrite delete_insert_eq]. Qed.

Lemma holds_delete h : delete p h = delete p h0 -> holds x p h0 0 0 (delete p h).
Proof. intros Hd. split; [by rewrite lookup_delete_eq|by rewrite Hd, delete_delete_eq]. Qed.

Lemma inc_Val n : Z.of_nat n < 2 ^ 62 -> Std.inc (Z.of_nat n) = Val (Z.of_nat n + 1).
Proof. intros Hn. unfold Std.inc. by rewrite (proj2 (Z.ltb_lt _ _)) by lia. Qed.

Lemma std_clone n m h :
  holds x p h0 (S n) m h -> Z.of_nat (S n) < 2 ^ 62 ->
  exists h', Std.clone h p = Val h' /\ holds x p h0 (S (S n)) m h'.
Proof.
  intros [Hp Hd] Hn. unfold Std.clone, Std.inner. rewrite Hp. cbn [block_of mbind outcome_bind strong].
  rewrite inc_Val by done. eexists. split; [done|]. apply holds_insert; [done|]. cbn [block_of weak value].
  do 2 f_equal. lia.
Qed.

Lemma std_drop n m h :
  holds x p h0 (S n) m h -> exists h', Std.drop h p = Val h' /\ holds x p h0 n m h'.
Proof.
  intros [Hp Hd]. unfold Std.drop, Std.inner. rewrite Hp. cbn [block_of mbind outcome_bind strong weak value].
  destruct n as [|n].
  - cbn [Z.of_nat]. change (Z.pos (Pos.of_succ_nat 0) =? 1) with true. eexists. split; [done|].
    unfold Std.drop_weak_count. cbn [weak strong value]. destruct m as [|m].
    + by apply holds_delete.
    + rewrite (proj2 (Z.eqb_neq _ _)) by lia. apply holds_insert; [done|]. cbn [block_of].
      do 2 f_equal. lia.
  - rewrite (proj2 (Z.eqb_neq _ _)) by lia. eexists. split; [done|]. apply holds_insert; [done|].
    cbn [block_of]. do 2 f_equal. lia.
Qed.

Lemma std_downgrade n m h :
  holds x p h0 (S n) m h -> Z.of_nat m + 1 < 2 ^ 62 ->
  exists h', Std.downgrade h p = Val h' /\ holds x p h0 (S n) (S m) h'.
Proof.
  intros [Hp Hd] Hn. unfold Std.downgrade, Std.inner. rewrite Hp. cbn [block_of mbind outcome_bind weak].
  replace (Z.of_nat m + 1) with (Z.of_nat (S m)) by lia.
  rewrite inc_Val by lia. eexists. split; [done|]. by apply holds_insert.
Qed.

Lemma std_weak_clone n m h :
  holds x p h0 n (S m) h -> Z.of_nat m + 3 < 2 ^ 62 ->
  exists h', Std.weak_clone h (Some p) = Val h' /\ holds x p h0 n (S (S m)) h'.
Proof.
  intros Hh Hn. destruct n as [|n]; [|by apply std_downgrade; [|lia]].
  destruct Hh as [Hp Hd]. cbn [Std.weak_clone]. unfold Std.downgrade, Std.inner. rewrite Hp.
  cbn [block_of mbind outcome_bind weak strong value]. rewrite inc_Val by lia.
  eexists. split; [done|]. apply holds_insert; [done|]. cbn [block_of]. do 2 f_equal. lia.
Qed.

Lemma std_weak_drop n m h :
  holds x p h0 n (S m) h ->
  exists h', Std.weak_drop h (Some p) = Val h' /\ holds x p h0 n m h'.
Proof.
  intros [Hp Hd]. cbn [Std.weak_drop]. unfold Std.inner. rewrite Hp.
  destruct n as [|n]; cbn [block_of mbind outcome_bind]; eexists; (split; [done|]);
    unfold Std.drop_weak_count; cbn [weak strong value].
  - destruct m as [|m]; [by apply holds_delete|].
    rewrite (proj2 (Z.eqb_neq _ _)) by lia. apply holds_insert; [done|]. cbn [block_of]. do 2 f_equal. lia.
  - rewrite (proj2 (Z.eqb_neq _ _)) by lia. apply holds_insert; [done|]. cbn [block_of]. do 2 f_equal. lia.
Qed.

Lemma std_upgrade n m h :
  holds x p h0 n (S m) h -> Z.of_nat n < 2 ^ 62 ->
  exists h', match n with
             | O => Std.upgrade h (Some p) = Val (h', None) /\ h' = h
             | S _ => Std.upgrade h (Some p) = Val (h', Some p) /\ holds x p h0 (S n) (S m) h'
             end.
Proof.
  intros Hh Hn. pose proof Hh as [Hp _]. destruct n as [|n].
  - exists h. cbn [Std.upgrade]. unfold Std.inner. by rewrite Hp.
  - destruct (std_clone n (S m) h Hh Hn) as (h' & E & Hh'). exists h'. split; [|done].
    cbn [Std.upgrade]. unfold Std.inner. rewrite Hp. cbn [block_of mbind outcome_bind strong].
    rewrite (proj2 (Z.eqb_neq _ _)) by lia. by rewrite E.
Qed.

Lemma std_deref n m h : holds x p h0 (S n) m h -> Std.deref h p = Val x.
Proof. intros [Hp _]. unfold Std.deref, Std.inner. by rewrite Hp. Qed.

(** *** A client of any implementation *)

Context {R W : Type} `{RefcountLaws R W}.

Record client_ok (c : Client R W T) : Prop := {
  ok_strongs : Forall (fun r => addr r = p) (strongs c);
  ok_weaks : Forall (fun w => waddr w = Some p) (weaks c);
  ok_heap : holds x p h0 (length (strongs c)) (length (weaks c)) (blocks c)
}.

Definition owned (c : Client R W T) : Z := Z.of_nat (length (strongs c) + length (weaks c)).

(** The client after an operation that the laws of the handles describe. *)
Ltac client_step :=
  cbn [mbind outcome_bind]; eexists; split; [reflexivity|]; split;
  [split; cbn [strongs weaks blocks fst snd option_list app length];
   repeat first [assumption | apply List.Forall_cons; [congruence|] | constructor]
  | cbn; lia].

Lemma use_ok c op :
  client_ok c -> owned c + 4 < 2 ^ 62 ->
  exists c', use c op = Val c' /\ client_ok c' /\ owned c' <= owned c + 1.
Proof.
  destruct c as [h rs ws]. intros [Hs Hw Hh] Hb. unfold owned in *. cbn [strongs weaks blocks] in *.
  destruct op, rs as [|r rs], ws as [|w ws]; cbn [length use] in *;
    try (eexists; split; [reflexivity|]; split; [by split|cbn; lia]);
    try (pose proof (Forall_inv Hs) as Er; pose proof (Forall_inv_tail Hs));
    try (pose proof (Forall_inv Hw) as Ew; pose proof (Forall_inv_tail Hw)); cbv beta in *.
  1, 2: (destruct (std_clone _ _ h Hh) as (h' & E & Hh'); [lia|]; rewrite <- Er in E;
    destruct (clone_law T h r h' E) as (r' & E' & Er'); rewrite E'; client_step).
  1, 2: (destruct (std_drop _ _ h Hh) as (h' & E & Hh'); rewrite drop_law, Er, E; client_step).
  1, 2: (destruct (std_downgrade _ _ h Hh) as (h' & E & Hh'); [cbn; lia|]; rewrite <- Er in E;
    destruct (downgrade_law T h r h' E) as (w' & E' & Ew'); rewrite E'; client_step).
  1, 2: (destruct (std_weak_clone _ _ h Hh) as (h' & E & Hh'); [lia|]; rewrite <- Ew in E;
    destruct (weak_clone_law T h w h' E) as (w' & E' & Ew'); rewrite E'; client_step).
  1, 2: (destruct (std_weak_drop _ _ h Hh) as (h' & E & Hh'); rewrite weak_drop_law, Ew, E; client_step).
  1, 2: (destruct (std_upgrade _ _ h Hh) as (h' & E & Hh'); [lia|]; rewrite <- Ew in E;
    destruct (upgrade_law T h w h' _ E) as ([r'|] & E' & Er'); cbn [option_map] in Er'; try congruence; rewrite E').
  - subst h'. client_step.
  - client_step.
  - rewrite deref_law, Er, (std_deref _ _ h Hh). client_step.
  - rewrite deref_law, Er, (std_deref _ _ h Hh). client_step.
Qed.

Lemma uses_ok ops c :
  client_ok c -> owned c + Z.of_nat (length ops) + 4 < 2 ^ 62 ->
  exists c', for_each use ops c = Val c' /\ client_ok c' /\ owned c' <= owned c + Z.of_nat (length ops).
Proof.
  revert c. induction ops as [|op ops IH]; intros c Hc Hb; [exists c; split; [done|]; split; [done|cbn; lia]|]. cbn [length for_each] in *.
  destruct (use_ok c op Hc) as (c1 & -> & H1 & Ho); [lia|]. cbn [mbind outcome_bind].
  destruct (IH c1 H1) as (c' & E & H2 & Ho'); [lia|]. exists c'. split; [done|]. split; [done|lia].
Qed.

Lemma client_new_ok : client_ok (mkClient (rc_new h0 p x).1 [(rc_new h0 p x).2] []).
Proof.
  destruct (new_law T h0 p x) as [E1 E2].
  split; cbn [strongs weaks blocks]; [by constructor|constructor|]. rewrite E1. by apply holds_insert.
Qed.

Lemma deref_ok c r : client_ok c -> In r (strongs c) -> rc_deref (blocks c) r = Val x.
Proof.
  intros [Hs _ Hh] Hr. rewrite deref_law, (proj1 (List.Forall_forall _ _) Hs r Hr).
  destruct (strongs c) as [|r0 rs]; [done|]. exact (std_deref _ _ _ Hh).
Qed.

Lemma upgrade_ok c w :
  client_ok c -> In w (weaks c) -> owned c + 4 < 2 ^ 62 ->
  exists h' o, upgrade (blocks c) w = Val (h', o) /\
    match strongs c with
    | [] => o = None /\ h' = blocks c
    | _ => exists r, o = Some r /\ rc_deref h' r = Val x
    end.
Proof.
  intros [_ Hw Hh] Hin Hb. unfold owned in Hb. pose proof (proj1 (List.Forall_forall _ _) Hw w Hin) as Ew.
  cbn beta in Ew. destruct (weaks c) as [|w0 ws]; [done|]. destruct (strongs c) as [|r0 rs]; cbn [length] in *;
    destruct (std_upgrade _ _ _ Hh) as (h' & E & Hh'); try lia;
    assert (E' := E); rewrite <- Ew in E' at 1;
    destruct (upgrade_law T _ w h' _ E') as (o & Eu & Eo); exists h', o; (split; [exact Eu|]).
  - split; [by destruct o|done].
  - destruct o as [r|]; [|done]. cbn in Eo. injection Eo as Eo. exists r. split; [done|].
    rewrite deref_law, Eo. exact (std_deref _ _ _ Hh').
Qed.
End Counts.

(** What reference counting promises: after any operations on the handles of
    a new block, each strong handle reads the value; an upgrade succeeds exactly
    while a strong handle exists; the value lives as long as the strong handles
    and the block as long as any; no other block changes.  The default weak
    handle never upgrades. *)
Definition refcount_counts (R W : Type) `{Refcount R W} : Prop :=
  (forall T (h : heap T), upgrade h (weak_default (R := R)) = Val (h, None)) /\
  forall T (x : T) h p ops, Z.of_nat (length ops) < 2 ^ 61 ->
    exists c, for_each use ops (mkClient (rc_new h p x).1 [(rc_new h p x).2] []) = Val c /\
      (forall r, In r (strongs c) -> rc_deref (blocks c) r = Val x) /\
      (forall w, In w (weaks c) -> exists h' o, upgrade (blocks c) w = Val (h', o) /\
         match strongs c with
         | [] => o = None /\ h' = blocks c
         | _ => exists r, o = Some r /\ rc_deref h' r = Val x
         end) /\
      (strongs c = [] -> forall b, blocks c !! p = Some b -> value b = None) /\
      (blocks c !! p = None <-> strongs c = [] /\ weaks c = []) /\
      delete p (blocks c) = delete p h.

Lemma refcount_laws_count R W `{RefcountLaws R W} : refcount_counts R W.
Proof.
  split.
  { intros T h. assert (E : Std.upgrade h (waddr weak_default) = Val (h, None)) by by rewrite default_law.
    destruct (upgrade_law T h _ h _ E) as ([r|] & E' & Eo); [done|exact E']. }
  intros T x h p ops Hn. destruct (uses_ok x p h ops _ (client_new_ok x p h)) as (c & E & Hc & Ho).
  { unfold owned. cbn. lia. }
  exists c. split; [exact E|]. split; [intros r; exact (deref_ok x p h c r Hc)|].
  split; [intros w Hw; apply (upgrade_ok x p h c w Hc Hw); unfold owned in *; cbn in *; lia|].
  destruct Hc as [_ _ [Hp Hd]]. rewrite Hp.
  split; [intros ->; cbn [length]; by destruct (weaks c) as [|w ws]; intros b [= <-]|].
  split; [|done]. destruct (strongs c) as [|r rs], (weaks c) as [|w ws]; cbn; (split; [done|by intros [? ?]]).
Qed.
