(* ===== verification/ArcInjectStd.v ===== *)
(** * arcinject on a standard [Arc]

    [ArcInject::new_std] of [arcinject/src/lib.rs] reads the block of a standard
    [Arc] as an [ArcInner]: a strong count, a weak count, the data, in this
    order, which is how the standard library lays it out.  But its weak count
    starts at one, for all the strong handles together. *)

From S2P Require Import Prelude Refcount ArcInject.

Section NewStd.
Context {T : Type}.

(** The block of a standard [Arc] as this crate sees it, and back. *)
Definition as_inner (b : RcBox T) : ArcInner (T := T) := mkInner (Refcount.strong b) (Refcount.weak b) (value b).
Definition of_inner (i : ArcInner (T := T)) : RcBox T := mkRc (strong i) (weak i) (data i).

(** An operation of this crate on the standard library's heap. *)
Definition on_std (op : gmap Z (ArcInner (T := T)) -> outcome (gmap Z (ArcInner (T := T)))) (h : heap T) : outcome (heap T) :=
  match op (fmap (M := gmap Z) as_inner h) with
  | Val h' => Val (fmap (M := gmap Z) of_inner h')
  | Stop e => Stop e
  end.

Definition new_std (h : heap T) (p : Z) : outcome (heap T) := on_std (fun h => ArcInject_new h p) h.

(** Who drops last: the standard [Arc], an inject, a weak inject. *)
Definition std_last (p : Z) (h : heap T) : outcome (heap T) :=
  h ← new_std h p; h ← on_std (fun h => ArcInject_drop h p) h; Std.drop h p.
Definition inject_last (p : Z) (h : heap T) : outcome (heap T) :=
  h ← new_std h p; h ← Std.drop h p; on_std (fun h => ArcInject_drop h p) h.
Definition weak_last (p : Z) (h : heap T) : outcome (heap T) :=
  h ← new_std h p; h ← on_std (fun h => ArcInject.downgrade h p) h;
  h ← on_std (fun h => ArcInject_drop h p) h; h ← Std.drop h p;
  on_std (fun h => WeakInject_drop h p) h.

(** One block, seen from both sides. *)
Ltac run_block :=
  repeat (unfold new_std, on_std, ArcInject_new, ArcInject_drop, dec_strong_and_drop, ArcInject.downgrade,
            WeakInject_drop, dec_weak_and_drop, drop_data, drop_self, inner, Std.drop, Std.drop_weak_count,
            Std.inner;
          cbn [mbind outcome_bind strong weak data Refcount.strong Refcount.weak value as_inner of_inner];
          rewrite ?map_fmap_singleton, ?lookup_singleton_eq, ?insert_singleton_eq, ?delete_singleton_eq, ?fmap_empty;
          try change (wrapping_add 1 1) with 2; try change (wrapping_sub 2 1) with 1;
          try change (wrapping_sub 1 1) with 0; try change (2 - 1) with 1;
          cbn [Z.eqb Pos.eqb mbind outcome_bind]); try done.

(** The end of an [ArcInject] made from a standard [Arc].  Dropped before the
    [Arc], it leaves nothing behind; dropped after it, it drops the data but not
    the block, since the weak count is still one: the block leaks.  A
    [WeakInject] that outlives both drops the data a second time. *)
Theorem new_std_endings p (d : T) :
  std_last p (Std.new ∅ p d) = Val ∅ /\
  inject_last p (Std.new ∅ p d) = Val {[ p := mkRc 0 1 None ]} /\
  weak_last p (Std.new ∅ p d) = Stop Undefined.
Proof.
  unfold std_last, inject_last, weak_last, Std.new. rewrite insert_empty.
  split; [|split]; run_block.
Qed.
End NewStd.
