(* ===== verification/SendGeneric.v ===== *)
(** * kernel_send_generic and kernel_lock::lock: generic over thread safety

    The traits of [kernel_send_generic/src/lib.rs] as classes with their laws,
    the single-threaded implementation of [single_threaded.rs] ([RefCell])
    and the atomic one of [kernel_lock/src/lock/mod.rs] (the spin locks of
    SpinLock), each an instance of the same interface; the clients'
    theorems are proved against the interface.

    A guard is the state of the lock while it is held: acquiring returns the
    held lock and the value, dropping the guard stores the value back.  The
    model is the view of one thread: an acquisition that this thread can only
    wait for itself to release stops, with [BorrowConflict] ([RefCell] panics)
    or [Deadlock] (a spin lock spins).  The reference counts are in Refcount;
    [ThreadLocality] bundles the four types. *)

From S2P Require Import Prelude SpinLock SharedLock Refcount.

(** ** The traits *)

Class RwLocking (L : Type -> Type) := {
  rw_new : forall T, T -> L T;
  write : forall T, L T -> outcome (L T * T);
  drop_write : forall T, L T -> T -> L T;
  read : forall T, L T -> outcome (L T * T);
  drop_read : forall T, L T -> L T
}.
Arguments rw_new {L _ T}.
Arguments write {L _ T}.
Arguments drop_write {L _ T}.
Arguments read {L _ T}.
Arguments drop_read {L _ T}.

Class Locking (L : Type -> Type) := {
  new : forall T, T -> L T;
  lock : forall T, L T -> outcome (L T * T);
  drop_lock : forall T, L T -> T -> L T
}.
Arguments new {L _ T}.
Arguments lock {L _ T}.
Arguments drop_lock {L _ T}.

(** What a lock promises: its abstract state. *)
Inductive LockState (T : Type) :=
  | Free (x : T)
  | Readers (n : nat) (x : T)   (* [S n] read guards exist *)
  | Held.
Arguments Free {T} x.
Arguments Readers {T} n x.
Arguments Held {T}.

Class RwLockingLaws (L : Type -> Type) `{RwLocking L} := {
  rw_state : forall T, L T -> LockState T -> Prop;
  rw_new_ok : forall T (x : T), rw_state T (rw_new x) (Free x);
  write_ok : forall T (l : L T) x, rw_state T l (Free x) ->
    exists l', write l = Val (l', x) /\ rw_state T l' Held /\
      forall y, rw_state T (drop_write l' y) (Free y);
  write_busy : forall T (l : L T) st, rw_state T l st -> (forall x, st <> Free x) ->
    exists p, write l = Stop p;
  read_ok : forall T (l : L T) x, rw_state T l (Free x) ->
    exists l', read l = Val (l', x) /\ rw_state T l' (Readers 0 x);
  read_more : forall T (l : L T) n x, Z.of_nat n < 2 ^ 60 -> rw_state T l (Readers n x) ->
    exists l', read l = Val (l', x) /\ rw_state T l' (Readers (S n) x);
  read_busy : forall T (l : L T), rw_state T l Held -> exists p, read l = Stop p;
  drop_read_ok : forall T (l : L T) n x, rw_state T l (Readers n x) ->
    rw_state T (drop_read l) (match n with O => Free x | S n => Readers n x end)
}.

Class LockingLaws (L : Type -> Type) `{Locking L} := {
  lock_state : forall T, L T -> option T -> Prop;
  new_ok : forall T (x : T), lock_state T (new x) (Some x);
  lock_ok : forall T (l : L T) x, lock_state T l (Some x) ->
    exists l', lock l = Val (l', x) /\ lock_state T l' None /\
      forall y, lock_state T (drop_lock l' y) (Some y);
  lock_busy : forall T (l : L T), lock_state T l None -> exists p, lock l = Stop p
}.

(** ** [SimpleLockWrapper]: a lock from a read-write lock *)

Record SimpleLockWrapper (L : Type -> Type) (T : Type) := Wrap { wrapped : L T }.
Arguments Wrap {L T} wrapped.
Arguments wrapped {L T} _.

#[export] Instance simple_lock_wrapper (L : Type -> Type) `{RwLocking L} : Locking (SimpleLockWrapper L) := {
  new T x := Wrap (rw_new x);
  lock T l := r ← write (wrapped l); Val (Wrap r.1, r.2);
  drop_lock T l x := Wrap (drop_write (wrapped l) x)
}.

Lemma wrapper_lock_ok L `{RwLockingLaws L} T (l : SimpleLockWrapper L T) x :
  rw_state T (wrapped l) (Free x) ->
  exists l', lock l = Val (l', x) /\ rw_state T (wrapped l') Held /\
    forall y, rw_state T (wrapped (drop_lock l' y)) (Free y).
Proof.
  intros Hl. destruct (write_ok T _ x Hl) as (l' & E & Hh & Hd).
  exists (Wrap l'). cbn [lock simple_lock_wrapper]. rewrite E. by cbn [mbind outcome_bind fst snd].
Qed.

Lemma wrapper_lock_busy L `{RwLockingLaws L} T (l : SimpleLockWrapper L T) :
  rw_state T (wrapped l) Held -> exists p, lock l = Stop p.
Proof.
  intros Hl. destruct (write_busy T _ Held Hl) as [p E]; [done|].
  exists p. cbn [lock simple_lock_wrapper]. by rewrite E.
Qed.

#[export] Instance simple_lock_wrapper_laws L `{RwLockingLaws L} : LockingLaws (SimpleLockWrapper L).
Proof.
  refine {| lock_state T l o := rw_state T (wrapped l) (match o with Some x => Free x | None => Held end) |}.
  - intros T x. apply rw_new_ok.
  - intros T l x. apply wrapper_lock_ok.
  - intros T l. apply wrapper_lock_busy.
Defined.

(** ** The single-threaded implementation *)

(** [RefCell]: the borrow flag counts readers, [-1] is a writer. *)
Record ThreadRwLocking (T : Type) := mkRefCell { borrow_flag : Z; cell : T }.
Arguments mkRefCell {T}.
Arguments borrow_flag {T}.
Arguments cell {T}.

#[export] Instance thread_rw_locking : RwLocking ThreadRwLocking := {
  rw_new T x := mkRefCell 0 x;
  write T l := if borrow_flag l =? 0 then Val (mkRefCell (-1) (cell l), cell l) else Stop BorrowConflict;
  drop_write T l x := mkRefCell 0 x;
  read T l := if borrow_flag l <? 0 then Stop BorrowConflict
              else Val (mkRefCell (borrow_flag l + 1) (cell l), cell l);
  drop_read T l := mkRefCell (borrow_flag l - 1) (cell l)
}.

#[export] Instance thread_rw_locking_laws : RwLockingLaws ThreadRwLocking.
Proof.
  refine {| rw_state T l st :=
    match st with
    | Free x => borrow_flag l = 0 /\ cell l = x
    | Readers n x => borrow_flag l = 1 + Z.of_nat n /\ cell l = x
    | Held => borrow_flag l = -1
    end |}; cbn [rw_new write drop_write read drop_read thread_rw_locking].
  - done.
  - intros T l x [-> <-]. eexists. by repeat split.
  - intros T l [x|n x|] Hl Hn; [by destruct (Hn x)|destruct Hl as [-> _]|rewrite Hl; by eexists].
    rewrite (proj2 (Z.eqb_neq _ _)) by lia. by eexists.
  - intros T l x [-> <-]. eexists. by repeat split.
  - intros T l n x Hb [-> <-]. rewrite (proj2 (Z.ltb_ge _ _)) by lia. eexists. split; [done|].
    cbn [borrow_flag cell]. split; [lia|done].
  - intros T l ->. by eexists.
  - intros T l n x [-> <-]. destruct n as [|n]; cbn [borrow_flag cell]; (split; [lia|done]).
Defined.

(** ** The atomic implementation *)

(** The lock of [lock_api]: a raw lock and the data. *)
Record AtomicLocking (T : Type) := mkAtomic { raw_mutex : bool; guarded : T }.
Arguments mkAtomic {T}.
Arguments raw_mutex {T}.
Arguments guarded {T}.

#[export] Instance atomic_locking : Locking AtomicLocking := {
  new T x := mkAtomic false x;
  lock T l := let '(w, ok) := Mutex.try_lock (raw_mutex l) in
              if ok : bool then Val (mkAtomic w (guarded l), guarded l) else Stop Deadlock;
  drop_lock T l x := mkAtomic (Mutex.unlock (raw_mutex l)) x
}.

#[export] Instance atomic_locking_laws : LockingLaws AtomicLocking.
Proof.
  refine {| lock_state T l o := match o with Some x => raw_mutex l = false /\ guarded l = x
                                           | None => raw_mutex l = true end |};
    cbn [new lock drop_lock atomic_locking].
  - done.
  - intros T l x [-> <-]. eexists. by repeat split.
  - intros T l ->. by eexists.
Defined.

Record AtomicRwLocking (T : Type) := mkAtomicRw { raw_rwlock : Z; rw_guarded : T }.
Arguments mkAtomicRw {T}.
Arguments raw_rwlock {T}.
Arguments rw_guarded {T}.

#[export] Instance atomic_rw_locking : RwLocking AtomicRwLocking := {
  rw_new T x := mkAtomicRw 0 x;
  write T l := r ← SharedRwLock.solo (RwLock.ExclusiveLoad false) (raw_rwlock l);
               if RwLock.in_exclusive r.1 then Val (mkAtomicRw r.2 (rw_guarded l), rw_guarded l)
               else Stop Deadlock;
  drop_write T l x := mkAtomicRw (RwLock.unlock_exclusive (raw_rwlock l)) x;
  read T l := r ← SharedRwLock.solo (RwLock.SharedLoad false) (raw_rwlock l);
              if RwLock.in_shared r.1 then Val (mkAtomicRw r.2 (rw_guarded l), rw_guarded l)
              else Stop Deadlock;
  drop_read T l := mkAtomicRw (RwLock.unlock_shared (raw_rwlock l)) (rw_guarded l)
}.

Lemma solo_shared_free n :
  0 <= n < 2 ^ 61 -> SharedRwLock.solo (RwLock.SharedLoad false) (2 * n) = Val (RwLock.InShared, 2 * (n + 1)).
Proof.
  intros Hn. unfold SharedRwLock.solo. cbn [RwLock.hart_op mbind outcome_bind]. unfold RwLock.shared_load.
  assert (Ho : RwLock.has_writer (2 * n) = false)
    by (rewrite RwLock.has_writer_odd, Z.odd_mul; done).
  rewrite Ho. cbn [fst snd RwLock.hart_op]. unfold RwLock.compare_exchange_add, RwLock.SHARED.
  rewrite checked_add_Val by lia. cbn [mbind outcome_bind]. rewrite Z.eqb_refl.
  unfold RwLock.exchanged; cbn [fst snd]. do 2 f_equal. lia.
Qed.

#[export] Instance atomic_rw_locking_laws : RwLockingLaws AtomicRwLocking.
Proof.
  refine {| rw_state T l st :=
    match st with
    | Free x => raw_rwlock l = 2 * 0 /\ rw_guarded l = x
    | Readers n x => raw_rwlock l = 2 * (1 + Z.of_nat n) /\ rw_guarded l = x /\ Z.of_nat n <= 2 ^ 60
    | Held => raw_rwlock l = 1
    end |}; cbn [rw_new write drop_write read drop_read atomic_rw_locking].
  - done.
  - intros T l x [-> <-]. eexists. by repeat split.
  - intros T l [x|n x|] Hl Hn; [by destruct (Hn x)|destruct Hl as [-> _]|rewrite Hl; by eexists].
    unfold SharedRwLock.solo. cbn [RwLock.hart_op mbind outcome_bind]. unfold RwLock.exclusive_load.
    rewrite (proj2 (Z.eqb_neq _ 0)) by lia. by eexists.
  - intros T l x [-> <-]. rewrite solo_shared_free by lia. eexists. split; [done|].
    cbn [raw_rwlock rw_guarded snd]. split; [done|]. split; [done|lia].
  - intros T l n x Hb (-> & <- & _). rewrite solo_shared_free by lia. eexists. split; [done|].
    cbn [raw_rwlock rw_guarded snd]. split; [lia|]. split; [done|lia].
  - intros T l ->. by eexists.
  - intros T l n x (-> & <- & Hb). unfold RwLock.unlock_shared, wrapping_sub, RwLock.SHARED.
    destruct n as [|n]; cbn [raw_rwlock rw_guarded]; rewrite Z.mod_small by lia;
      (split; [lia|]); [done|split; [done|lia]].
Defined.

(** ** Clients *)

(** A critical section: lock, replace the value, drop the guard. *)
Definition critical {L} `{Locking L} {T} (l : L T) (f : T -> T) : outcome (L T) :=
  r ← lock l; Val (drop_lock (L := L) r.1 (f r.2)).

Section Clients.
Context (L : Type -> Type) `{LockingLaws L}.

Lemma critical_ok T (l : L T) x f :
  lock_state T l (Some x) -> exists l', critical l f = Val l' /\ lock_state T l' (Some (f x)).
Proof.
  intros Hl. destruct (lock_ok T l x Hl) as (l' & E & _ & Hd). exists (drop_lock l' (f x)).
  unfold critical. rewrite E. cbn [mbind outcome_bind fst snd]. split; [done|apply Hd].
Qed.

Lemma criticals_ok T fs (l : L T) x :
  lock_state T l (Some x) ->
  exists l', for_each critical fs l = Val l' /\ lock_state T l' (Some (foldl (fun y f => f y) x fs)).
Proof.
  revert l x. induction fs as [|f fs IH]; intros l x Hl; [by exists l|].
  destruct (critical_ok T l x f Hl) as (l1 & E & Hl1). cbn [for_each]. rewrite E.
  cbn [mbind outcome_bind foldl]. by apply IH.
Qed.
End Clients.

(** ** The promise of a lock, and that every implementation keeps it *)

(** A sequence of critical sections runs to the end, the next acquisition reads
    the composition of their updates, and acquiring the lock while it is held
    never returns. *)
Definition lock_is_cell (L : Type -> Type) `{Locking L} : Prop :=
  forall T (x : T) (fs : list (T -> T)), exists l held,
    for_each critical fs (new x) = Val l /\
    lock l = Val (held, foldl (fun y f => f y) x fs) /\ exists p, lock held = Stop p.

Lemma locking_is_cell L `{LockingLaws L} : lock_is_cell L.
Proof.
  intros T x fs. destruct (criticals_ok L T fs (new x) x (new_ok T x)) as (l & E & Hl).
  destruct (lock_ok T l _ Hl) as (held & E' & Hh & _). exists l, held.
  split; [done|]. split; [done|]. by apply lock_busy.
Qed.

(** [n] read guards taken one after the other; then dropped again. *)
Definition readers {L} `{RwLocking L} {T} (n : nat) (l : L T) : outcome (L T) :=
  for_each (fun l (_ : unit) => r ← read l; Val (r.1 : L T)) (replicate n tt) l.
Definition drop_readers {L} `{RwLocking L} {T} (n : nat) (l : L T) : L T :=
  Nat.iter n drop_read l.

(** Read guards exist together and all read the value last written; a writer
    waits for the last of them, a reader for the writer. *)
Definition rwlock_shares (L : Type -> Type) `{RwLocking L} : Prop :=
  forall T (x : T) n, Z.of_nat n < 2 ^ 60 -> exists l more,
    readers (S n) (rw_new x) = Val l /\
    read l = Val (more, x) /\ (exists p, write l = Stop p) /\
    exists w, write (drop_readers (S n) l) = Val (w, x) /\ (exists p, read w = Stop p) /\
      forall y, exists w', write (drop_write w y) = Val (w', y).

Section Readers.
Context (L : Type -> Type) `{RwLockingLaws L}.

Lemma readers_more T x n (l : L T) m :
  Z.of_nat (m + n) < 2 ^ 60 -> rw_state T l (Readers m x) ->
  exists l', readers n l = Val l' /\ rw_state T l' (Readers (m + n) x).
Proof.
  revert l m. induction n as [|n IH]; intros l m Hb Hl.
  - exists l. rewrite Nat.add_0_r. by split.
  - destruct (read_more T l m x) as (l1 & E & Hl1); [lia|done|].
    destruct (IH l1 (S m)) as (l' & E' & Hl'); [lia|done|].
    exists l'. split; [|by rewrite Nat.add_succ_r].
    unfold readers. cbn [replicate for_each]. rewrite E. cbn [mbind outcome_bind fst]. exact E'.
Qed.

Lemma drop_readers_all T x n (l : L T) :
  rw_state T l (Readers n x) -> rw_state T (drop_readers (S n) l) (Free x).
Proof.
  revert l. induction n as [|n IH]; intros l Hl; pose proof (drop_read_ok T l _ x Hl) as Hd; [exact Hd|].
  unfold drop_readers. rewrite Nat.iter_succ_r. by apply IH.
Qed.

Lemma rwlocking_shares : rwlock_shares L.
Proof.
  intros T x n Hn. destruct (read_ok T _ x (rw_new_ok T x)) as (l1 & E1 & H1).
  destruct (readers_more T x n l1 0%nat) as (l & E & Hl); [lia|done|].
  destruct (read_more T l n x) as (more & Em & _); [lia|done|].
  exists l, more. split.
  { unfold readers in *. cbn [replicate for_each]. rewrite E1. cbn [mbind outcome_bind fst]. exact E. }
  split; [done|]. split; [by apply (write_busy T l _ Hl)|].
  destruct (write_ok T _ x (drop_readers_all T x n l Hl)) as (w & Ew & Hw & Hd). exists w.
  split; [done|]. split; [by apply read_busy|]. intros y.
  destruct (write_ok T _ y (Hd y)) as (w' & E' & _). by exists w'.
Qed.
End Readers.

(** ** [ThreadLocality] *)

Record ThreadLocality := {
  TL_RwLocking : Type -> Type;
  TL_Locking : Type -> Type;
  TL_Refcount : Type;
  TL_RefcountWeak : Type;
  TL_rw :: RwLocking TL_RwLocking;
  TL_lock :: Locking TL_Locking;
  TL_count :: Refcount TL_Refcount TL_RefcountWeak
}.

Definition NonAtomic : ThreadLocality := {|
  TL_RwLocking := ThreadRwLocking;
  TL_Locking := SimpleLockWrapper ThreadRwLocking;
  TL_Refcount := ThreadRefcount;
  TL_RefcountWeak := ThreadRefcountWeak
|}.

Definition AtomicsAndSpinlocks : ThreadLocality := {|
  TL_RwLocking := AtomicRwLocking;
  TL_Locking := AtomicLocking;
  TL_Refcount := AtomicRefcount;
  TL_RefcountWeak := AtomicRefcountWeak
|}.

(** What code generic over a [ThreadLocality] relies on. *)
Definition keeps_promise (L : ThreadLocality) : Prop :=
  lock_is_cell (TL_Locking L) /\ rwlock_shares (TL_RwLocking L) /\
  refcount_counts (TL_Refcount L) (TL_RefcountWeak L).

(** C29: both implementations of [ThreadLocality], the single-threaded one
    ([RefCell], [Rc]) and the atomic one (the spin locks, [Arc]), keep the
    promises of the traits: a lock is a mutable cell whose critical sections
    exclude each other, the read guards of a read-write lock share it and exclude
    a writer, and the counts of a reference count are those of its handles.
    [SimpleLockWrapper] also makes a lock of the atomic read-write lock. *)
Theorem thread_localities_keep_promise :
  keeps_promise NonAtomic /\ keeps_promise AtomicsAndSpinlocks /\
  lock_is_cell (SimpleLockWrapper AtomicRwLocking).
Proof.
  split; [|split; [|apply locking_is_cell; exact _]];
    (split; [apply locking_is_cell; exact _|]; split;
     [apply rwlocking_shares|apply refcount_laws_count]; exact _).
Qed.
