(* ===== verification/Executor.v ===== *)
(** * kernel_executor: the executors and the root loop

    [kernel_executor/src/non_send_executor.rs] and [send_executor.rs] are the
    same code over [RefCell] and over [spin::Mutex]; the model is one Section,
    instantiated as [LocalExecutor] and [SendExecutor].  They differ in what
    happens when a task takes the lock its own executor holds: [RefCell] panics,
    the spin lock spins for ever.

    A task's future is a parameter: one poll, given the index of the waker it
    received, answers the effects it has on the executor, in order, and its
    continuation, or [None] for [Poll::Ready].  An effect is a call of a waker of
    some slot or a [spawn] through a handle.

    [run_neverending_future] of [lib.rs] is a step system with the interrupts
    that wake it, and [RcWaker] the reference counts of [non_send_waker.rs]. *)

From S2P Require Import Prelude.

Inductive Poll := Ready | Pending.

#[export] Instance Poll_eq_dec : EqDecision Poll.
Proof. solve_decision. Defined.

Inductive Effect (Fut : Type) :=
  | Wake (index : nat)   (* a clone of the waker of slot [index] is woken *)
  | Spawn (f : Fut).     (* [handle.spawn(f)] *)
Arguments Wake {Fut} index.
Arguments Spawn {Fut} f.

(** The executor with the queue of its handles.  [queue_borrowed]: the drain of
    [task_queue] is running; [woken]: the outer wakers woken so far. *)
Record Executor (Fut : Type) := mkExecutor {
  tasks : list (option Fut);
  wakers : list nat;
  wake_queue : list nat;
  task_queue : list Fut;
  queue_borrowed : bool;
  woken : list nat
}.
Arguments mkExecutor {Fut}.
Arguments tasks {Fut}.
Arguments wakers {Fut}.
Arguments wake_queue {Fut}.
Arguments task_queue {Fut}.
Arguments queue_borrowed {Fut}.
Arguments woken {Fut}.

Section Executors.
Context {Fut : Type} (poll_fut : Fut -> nat -> list (Effect Fut) * option Fut).
Context (reentry : Panic).

Definition new : Executor Fut := mkExecutor [] [] [] [] false [].

Definition wake (index : nat) (s : Executor Fut) : Executor Fut :=
  mkExecutor (tasks s) [] (wake_queue s ++ [index]) (task_queue s) (queue_borrowed s)
             (woken s ++ wakers s).

Definition spawn (f : Fut) (s : Executor Fut) : outcome (Executor Fut) :=
  if queue_borrowed s then Stop reentry
  else Val (mkExecutor (tasks s) (wakers s) (wake_queue s) (task_queue s ++ [f])
                       (queue_borrowed s) (woken s)).

Definition effect (s : Executor Fut) (e : Effect Fut) : outcome (Executor Fut) :=
  match e with
  | Wake index => Val (wake index s)
  | Spawn f => spawn f s
  end.

Definition set_tasks (ts : list (option Fut)) (s : Executor Fut) : Executor Fut :=
  mkExecutor ts (wakers s) (wake_queue s) (task_queue s) (queue_borrowed s) (woken s).
Definition set_wake_queue (q : list nat) (s : Executor Fut) : Executor Fut :=
  mkExecutor (tasks s) (wakers s) q (task_queue s) (queue_borrowed s) (woken s).
Definition set_queue (q : list Fut) (borrowed : bool) (s : Executor Fut) : Executor Fut :=
  mkExecutor (tasks s) (wakers s) (wake_queue s) q borrowed (woken s).

Definition poll_future (s : Executor Fut) (index : nat) : outcome (Executor Fut) :=
  match tasks s !! index with
  | Some (Some task) =>
      let '(effs, res) := poll_fut task index in
      s' ← for_each effect effs s;
      Val (set_tasks (<[index := res]> (tasks s')) s')
  | Some None => Val s
  | None => Val s
  end.

Definition check_if_done (s : Executor Fut) : bool :=
  negb (existsb (fun o => match o with Some _ => true | None => false end) (tasks s)).

Definition wake_pending (s : Executor Fut) : outcome (bool * Executor Fut) :=
  let q := wake_queue s in
  s' ← for_each poll_future q (set_wake_queue [] s);
  Val (match q with [] => true | _ => false end, s').

Definition poll_all (s : Executor Fut) : outcome (Executor Fut) :=
  for_each poll_future (seq 0 (length (tasks s))) s.

(** The index of the first empty slot. *)
Fixpoint first_none (ts : list (option Fut)) : option nat :=
  match ts with
  | [] => None
  | None :: _ => Some O
  | Some _ :: ts => S <$> first_none ts
  end.

Definition push_task (s : Executor Fut) (task : Fut) : outcome (nat * Executor Fut) :=
  let '(index, ts) :=
    match first_none (tasks s) with
    | Some i => (i, <[i := Some task]> (tasks s))
    | None => (length (tasks s), tasks s ++ [Some task])
    end in
  s' ← poll_future (set_tasks ts s) index;
  Val (index, s').

(** [for i in self.queue.borrow_mut().drain(..)]: the borrow lasts for the loop. *)
Definition drain_queue (s : Executor Fut) : outcome (Executor Fut) :=
  if queue_borrowed s then Stop reentry else
  s' ← for_each (fun s f => r ← push_task s f; Val r.2) (task_queue s) (set_queue [] true s);
  Val (set_queue (task_queue s') false s').

(** [Future for LocalExecutor], then for its handle; [cx] is the context's waker. *)
Definition poll (cx : nat) (s : Executor Fut) : Poll * Executor Fut :=
  let s := mkExecutor (tasks s) (wakers s ++ [cx]) (wake_queue s) (task_queue s)
                      (queue_borrowed s) (woken s) in
  (if check_if_done s then Pending else Ready, s).

Definition handle_poll (cx : nat) (s : Executor Fut) : outcome (Poll * Executor Fut) :=
  s1 ← poll_all s;
  s2 ← drain_queue s1;
  let '(r, s3) := poll cx s2 in
  '(is_empty, s4) ← wake_pending s3;
  if negb is_empty
  then s5 ← drain_queue s4; Val (Pending, s5)
  else Val (r, s4).

(** ** What one poll does to the executor *)

(** The slots woken and the futures spawned by a list of effects. *)
Definition wakes_of (es : list (Effect Fut)) : list nat :=
  omap (fun e => match e with Wake i => Some i | Spawn _ => None end) es.
Definition spawns_of (es : list (Effect Fut)) : list Fut :=
  omap (fun e => match e with Wake _ => None | Spawn f => Some f end) es.

(** The executor after effects that do not stop. *)
Definition after_effects (es : list (Effect Fut)) (s : Executor Fut) : Executor Fut :=
  mkExecutor (tasks s) (match wakes_of es with [] => wakers s | _ => [] end)
             (wake_queue s ++ wakes_of es) (task_queue s ++ spawns_of es) (queue_borrowed s)
             (woken s ++ match wakes_of es with [] => [] | _ => wakers s end).

Lemma effects_spec es s :
  queue_borrowed s = false \/ spawns_of es = [] ->
  for_each effect es s = Val (after_effects es s).
Proof.
  revert s. induction es as [|e es IH]; intros s Hq.
  - destruct s. cbn. unfold after_effects. cbn. by rewrite !app_nil_r.
  - destruct e as [i|f].
    + cbn [for_each effect mbind outcome_bind]. rewrite IH by exact Hq.
      unfold after_effects, wake. cbn. f_equal. f_equal; [by destruct (wakes_of es)| |].
      * by rewrite <-app_assoc.
      * destruct (wakes_of es); cbn; by rewrite ?app_nil_r.
    + destruct Hq as [Hq|Hq]; [|discriminate Hq]. cbn [for_each effect mbind outcome_bind].
      unfold spawn. rewrite Hq. cbn [mbind outcome_bind]. rewrite IH by (by left).
      unfold after_effects. cbn. rewrite Hq. by rewrite <-app_assoc.
Qed.

Lemma effects_reentry es s :
  queue_borrowed s = true -> spawns_of es <> [] -> for_each effect es s = Stop reentry.
Proof.
  revert s. induction es as [|e es IH]; intros s Hq Hs; [done|].
  destruct e as [i|f]; cbn [for_each effect mbind outcome_bind].
  - by apply IH.
  - unfold spawn. by rewrite Hq.
Qed.

(** The effects and the result of polling slot [i] of [ts]. *)
Definition slot_poll (ts : list (option Fut)) (i : nat) : list (Effect Fut) * option Fut :=
  match ts !! i with
  | Some (Some f) => poll_fut f i
  | _ => ([], None)
  end.

Lemma poll_future_spec s i :
  queue_borrowed s = false \/ spawns_of (slot_poll (tasks s) i).1 = [] ->
  poll_future s i = Val (set_tasks (<[i := (slot_poll (tasks s) i).2]> (tasks s))
                           (after_effects (slot_poll (tasks s) i).1 s)).
Proof.
  intros Hq. unfold poll_future, slot_poll in *. destruct (tasks s !! i) as [[f|]|] eqn:Ei.
  - destruct (poll_fut f i) as [es r]. cbn [fst snd] in *. rewrite effects_spec by done. done.
  - cbn [fst snd]. rewrite list_insert_id by done. destruct s. cbn. unfold set_tasks. cbn.
    by rewrite !app_nil_r.
  - cbn [fst snd]. rewrite list_insert_ge by (by apply lookup_ge_None). destruct s. cbn.
    unfold set_tasks. cbn. by rewrite !app_nil_r.
Qed.

Lemma poll_future_reentry s i :
  queue_borrowed s = true -> spawns_of (slot_poll (tasks s) i).1 <> [] ->
  poll_future s i = Stop reentry.
Proof.
  unfold poll_future, slot_poll. intros Hq Hs.
  destruct (tasks s !! i) as [[f|]|] eqn:Ei; [|done|done].
  destruct (poll_fut f i) as [es r]. cbn [fst] in Hs. by rewrite effects_reentry.
Qed.

Lemma poll_future_cases s i :
  poll_future s i = Stop reentry /\ queue_borrowed s = true \/
  exists es r, (es, r) = slot_poll (tasks s) i /\
    poll_future s i = Val (set_tasks (<[i := r]> (tasks s)) (after_effects es s)) /\
    (queue_borrowed s = true -> spawns_of es = []).
Proof.
  destruct (slot_poll (tasks s) i) as [es r] eqn:E.
  destruct (queue_borrowed s) eqn:Hq.
  - destruct (decide (spawns_of es = [])) as [Hs|Hs].
    + right. exists es, r. rewrite poll_future_spec; rewrite E; [done|by right].
    + left. split; [|done]. apply poll_future_reentry; [done|]. by rewrite E.
  - right. exists es, r. rewrite poll_future_spec; [by rewrite E|by left].
Qed.

(** *** [poll_all] *)

Definition poll_slot (i : nat) (o : option Fut) : list (Effect Fut) * option Fut :=
  match o with Some f => poll_fut f i | None => ([], None) end.
Definition wakes_from (k : nat) (ts : list (option Fut)) : list nat :=
  concat (imap (fun i o => wakes_of (poll_slot (k + i) o).1) ts).
Definition spawns_from (k : nat) (ts : list (option Fut)) : list Fut :=
  concat (imap (fun i o => spawns_of (poll_slot (k + i) o).1) ts).

Lemma imap_shift {A B} (f : nat -> A -> B) k x l :
  imap (fun i => f (k + i)%nat) (x :: l) = f k x :: imap (fun i => f (S k + i)%nat) l.
Proof.
  cbn [imap]. rewrite Nat.add_0_r. f_equal. apply imap_ext. intros i y _. cbn. f_equal. lia.
Qed.

Lemma poll_range ts2 ts1 s :
  tasks s = ts1 ++ ts2 -> queue_borrowed s = false ->
  exists s', for_each poll_future (seq (length ts1) (length ts2)) s = Val s' /\
    tasks s' = ts1 ++ imap (fun i o => (poll_slot (length ts1 + i) o).2) ts2 /\
    wake_queue s' = wake_queue s ++ wakes_from (length ts1) ts2 /\
    task_queue s' = task_queue s ++ spawns_from (length ts1) ts2 /\
    queue_borrowed s' = false.
Proof.
  revert ts1 s. induction ts2 as [|o ts2 IH]; intros ts1 s Hts Hq.
  - exists s. unfold wakes_from, spawns_from. cbn [imap concat]. by rewrite !app_nil_r, Hts, app_nil_r.
  - cbn [length seq for_each]. rewrite poll_future_spec by (by left).
    assert (Hs : slot_poll (tasks s) (length ts1) = poll_slot (length ts1) o).
    { unfold slot_poll. rewrite Hts, list_lookup_middle by done. by destruct o. }
    rewrite Hs, Hts, insert_app_r_alt, Nat.sub_diag by lia.
    cbn [mbind outcome_bind list_insert].
    destruct (IH (ts1 ++ [(poll_slot (length ts1) o).2])
                 (set_tasks (ts1 ++ (poll_slot (length ts1) o).2 :: ts2)
                    (after_effects (poll_slot (length ts1) o).1 s)))
      as (s' & E & Ht & Hw & Hf & Hb); [by rewrite <-app_assoc|done|].
    rewrite length_app in *. cbn [length] in *. rewrite Nat.add_1_r in *.
    exists s'. split; [exact E|]. unfold wakes_from, spawns_from in *.
    rewrite (imap_shift (fun i o => (poll_slot i o).2)),
      (imap_shift (fun i o => wakes_of (poll_slot i o).1)),
      (imap_shift (fun i o => spawns_of (poll_slot i o).1)). cbn [concat].
    cbn [set_tasks after_effects wake_queue task_queue] in Hw, Hf.
    by rewrite Ht, Hw, Hf, <-!app_assoc.
Qed.

(** *** [push_task] *)

Lemma first_none_Some (ts : list (option Fut)) i :
  first_none ts = Some i ->
  ts !! i = Some None /\ forall j, (j < i)%nat -> exists f, ts !! j = Some (Some f).
Proof.
  revert i. induction ts as [|[f|] ts IH]; intros i Hi; cbn [first_none] in Hi; [done| |].
  - destruct (first_none ts) as [k|] eqn:E; [|done]. injection Hi as <-.
    destruct (IH k eq_refl) as [H1 H2]. split; [done|]. intros [|j] Hj; [by exists f|].
    apply H2. lia.
  - injection Hi as <-. split; [done|]. lia.
Qed.

Lemma first_none_None (ts : list (option Fut)) i :
  first_none ts = None -> (i < length ts)%nat -> exists f, ts !! i = Some (Some f).
Proof.
  revert i. induction ts as [|[f|] ts IH]; intros i Hi Hl; cbn [first_none length] in *; [lia| |done].
  destruct (first_none ts) eqn:E; [done|]. destruct i as [|i]; [by exists f|]. apply IH; [done|lia].
Qed.

(** The slot [push_task] chooses, and the slots once it is filled. *)
Definition free_slot (ts : list (option Fut)) : nat := default (length ts) (first_none ts).
Definition placed (ts : list (option Fut)) (f : Fut) : list (option Fut) :=
  match first_none ts with Some i => <[i := Some f]> ts | None => ts ++ [Some f] end.

Lemma free_slot_spec ts :
  (free_slot ts <= length ts)%nat /\ (forall f, ts !! free_slot ts <> Some (Some f)) /\
  forall j, (j < free_slot ts)%nat -> exists f, ts !! j = Some (Some f).
Proof.
  unfold free_slot. destruct (first_none ts) as [i|] eqn:E; cbn [default from_option].
  - destruct (first_none_Some ts i E) as [Hi Hj]. split; [apply lookup_lt_Some in Hi; unfold id; lia|].
    split; [|exact Hj]. intros f. unfold id. congruence.
  - split; [done|]. split; [|intros j; by apply first_none_None].
    intros f. by rewrite lookup_ge_None_2.
Qed.

Lemma placed_lookup ts f :
  placed ts f !! free_slot ts = Some (Some f) /\
  forall j, j <> free_slot ts -> placed ts f !! j = ts !! j.
Proof.
  unfold placed, free_slot. destruct (first_none ts) as [i|] eqn:E; cbn [default from_option]; unfold id.
  - destruct (first_none_Some ts i E) as [Hi _]. apply lookup_lt_Some in Hi.
    split; [by apply list_lookup_insert_eq|]. intros j Hj. by apply list_lookup_insert_ne.
  - split; [by apply list_lookup_middle|]. intros j Hj.
    destruct (decide (j < length ts)%nat) as [Hl|Hl]; [by apply lookup_app_l|].
    rewrite !lookup_ge_None_2; [done|lia|rewrite length_app; cbn [length]; lia].
Qed.

Lemma push_task_eq s f :
  push_task s f =
    (s' ← poll_future (set_tasks (placed (tasks s) f) s) (free_slot (tasks s));
     Val (free_slot (tasks s), s')).
Proof. unfold push_task, placed, free_slot. by destruct (first_none (tasks s)). Qed.

Lemma push_task_cases s f :
  let i := free_slot (tasks s) in
  push_task s f = Stop reentry /\ queue_borrowed s = true \/
  push_task s f =
    Val (i, set_tasks (<[i := (poll_fut f i).2]> (placed (tasks s) f))
              (after_effects (poll_fut f i).1 (set_tasks (placed (tasks s) f) s))) /\
  (queue_borrowed s = true -> spawns_of (poll_fut f i).1 = []).
Proof.
  cbv zeta. rewrite push_task_eq.
  destruct (poll_future_cases (set_tasks (placed (tasks s) f) s)
              (free_slot (tasks s))) as [[E Hq]|(es & r & Hp & E & Hs)].
  - left. rewrite E. by split.
  - right. unfold slot_poll in Hp. cbn [tasks set_tasks] in Hp.
    rewrite (proj1 (placed_lookup (tasks s) f)) in Hp. rewrite E. cbn [mbind outcome_bind].
    rewrite <-Hp. by split.
Qed.

(** *** [drain_queue], [wake_pending] *)

(** A predicate of the executor that polling preserves and that looks at neither
    the queue of the handles nor the tasks holds of all that follows. *)
Section Preserves.
Context (I : Executor Fut -> Prop).
Hypothesis I_ext : forall s s', I s -> wakers s' = wakers s -> wake_queue s' = wake_queue s ->
  woken s' = woken s -> I s'.
Hypothesis I_effects : forall es s, I s -> I (after_effects es s).

Lemma poll_future_preserves i s s' : poll_future s i = Val s' -> I s -> I s'.
Proof.
  intros E Hs. destruct (poll_future_cases s i) as [[E' _]|(es & r & _ & E' & _)]; rewrite E' in E; [done|].
  injection E as <-. by eapply I_ext; [apply (I_effects es), Hs|..].
Qed.

Lemma push_task_preserves f s r : push_task s f = Val r -> I s -> I r.2.
Proof.
  intros E Hs. destruct (push_task_cases s f) as [[E' _]|[E' _]]; rewrite E' in E; [done|].
  injection E as <-. cbn [snd]. eapply I_ext; [eapply I_effects, I_ext; [apply Hs|done..]|done..].
Qed.

Lemma drain_queue_preserves s s' : drain_queue s = Val s' -> I s -> I s'.
Proof.
  unfold drain_queue. intros E Hs. destruct (queue_borrowed s); [done|].
  apply bind_inv in E as (s1 & E & [= <-]). apply (I_ext s1); [|done..].
  eapply for_each_preserves; [|exact E|by eapply I_ext].
  intros f s2 s3 E' H2. apply bind_inv in E' as (r & E' & [= <-]). by eapply push_task_preserves.
Qed.
End Preserves.

(** Nothing can be spawned while the queue is drained. *)
Lemma drain_queue_empty s s' :
  drain_queue s = Val s' -> task_queue s' = [] /\ queue_borrowed s' = false.
Proof.
  unfold drain_queue. intros E. destruct (queue_borrowed s); [done|].
  apply bind_inv in E as (s1 & E & [= <-]). cbn [task_queue queue_borrowed set_queue].
  enough (H : task_queue s1 = [] /\ queue_borrowed s1 = true) by by destruct H.
  refine (for_each_preserves _ (fun s => task_queue s = [] /\ queue_borrowed s = true) _ _ _ _ E _);
    [|done].
  intros f s2 s3 E' [Ht Hq]. apply bind_inv in E' as (r & E' & [= <-]).
  destruct (push_task_cases s2 f) as [[E2 _]|[E2 Hs]]; rewrite E2 in E'; [done|].
  injection E' as <-. cbn. by rewrite Hs, Ht.
Qed.

Lemma poll_all_total s :
  queue_borrowed s = false -> exists s', poll_all s = Val s' /\
    tasks s' = imap (fun i o => (poll_slot i o).2) (tasks s) /\
    wake_queue s' = wake_queue s ++ wakes_from 0 (tasks s) /\
    task_queue s' = task_queue s ++ spawns_from 0 (tasks s) /\ queue_borrowed s' = false.
Proof. intros Hq. apply (poll_range (tasks s) [] s eq_refl Hq). Qed.

(** [cx] is registered and nothing waits, or it has been woken. *)
Definition registered (cx : nat) (s : Executor Fut) : Prop :=
  cx ∈ wakers s /\ wake_queue s = [] \/ cx ∈ woken s.

Lemma registered_effects cx es s : registered cx s -> registered cx (after_effects es s).
Proof.
  unfold registered, after_effects. cbn. intros [[H1 H2]|H].
  - destruct (wakes_of es); [left; by rewrite H2|right]. apply elem_of_app. by right.
  - right. apply elem_of_app. by left.
Qed.

Lemma registered_ext cx s s' :
  registered cx s -> wakers s' = wakers s -> wake_queue s' = wake_queue s ->
  woken s' = woken s -> registered cx s'.
Proof. unfold registered. by intros H -> -> ->. Qed.

Lemma wake_pending_inv s b s' :
  wake_pending s = Val (b, s') ->
  b = bool_decide (wake_queue s = []) /\
  for_each poll_future (wake_queue s) (set_wake_queue [] s) = Val s'.
Proof.
  unfold wake_pending. intros E. apply bind_inv in E as (s1 & E & [= <- <-]). rewrite E.
  split; [|done]. by destruct (wake_queue s).
Qed.

Lemma check_if_done_false s :
  check_if_done s = false <-> exists i f, tasks s !! i = Some (Some f).
Proof.
  unfold check_if_done. rewrite negb_false_iff, existsb_exists. split.
  - intros ([f|] & Hin & Hf); [|done]. apply list_elem_of_In, list_elem_of_lookup in Hin as [i Hi].
    by exists i, f.
  - intros (i & f & Hi). exists (Some f). split; [|done].
    apply list_elem_of_In, list_elem_of_lookup. by exists i.
Qed.

(** The parts of a poll of the handle. *)
Lemma handle_poll_inv cx s r s' :
  handle_poll cx s = Val (r, s') ->
  exists s1 s2 s4, poll_all s = Val s1 /\ drain_queue s1 = Val s2 /\
    for_each poll_future (wake_queue s2) (set_wake_queue [] (poll cx s2).2) = Val s4 /\
    (wake_queue s2 = [] /\ s' = s4 /\ r = (poll cx s2).1 \/
     wake_queue s2 <> [] /\ drain_queue s4 = Val s' /\ r = Pending).
Proof.
  unfold handle_poll. intros E. apply bind_inv in E as (s1 & E1 & E).
  apply bind_inv in E as (s2 & E2 & E). destruct (poll cx s2) as [r0 s3] eqn:Ep.
  apply bind_inv in E as ([b s4] & E4 & E). apply wake_pending_inv in E4 as [Hb E4].
  assert (Hw : wake_queue s3 = wake_queue s2) by (unfold poll in Ep; by injection Ep as _ <-).
  rewrite Hw in Hb, E4. exists s1, s2, s4. rewrite E1, E2, Ep. cbn [fst snd].
  split; [done|]. split; [done|]. split; [done|].
  destruct (decide (wake_queue s2 = [])) as [Hn|Hn].
  - rewrite bool_decide_eq_true_2 in Hb by done. subst b. injection E as <- <-. by left.
  - rewrite bool_decide_eq_false_2 in Hb by done. subst b. cbn [negb] in E.
    apply bind_inv in E as (s5 & E5 & [= <- <-]). by right.
Qed.
(** After a poll of the handle nothing is left to be pushed, and the context is
    registered or has been woken. *)
Lemma handle_poll_registered cx s r s' :
  handle_poll cx s = Val (r, s') ->
  task_queue s' = [] /\ queue_borrowed s' = false /\ registered cx s'.
Proof.
  intros (s1 & s2 & s4 & E1 & E2 & E4 & Hr)%handle_poll_inv.
  destruct (drain_queue_empty _ _ E2) as [Hq2 Hb2].
  assert (H4 : registered cx s4).
  { refine (for_each_preserves _ (registered cx) _ _ _ _ E4 _).
    - intros i s5 s6 E5. apply (poll_future_preserves _ (registered_ext cx) (registered_effects cx) _ _ _ E5).
    - left. cbn. split; [apply elem_of_app; right; by left|done]. }
  destruct Hr as [(Hn & -> & _)|(Hn & E5 & _)].
  - rewrite Hn in E4. injection E4 as <-. by split_and!.
  - destruct (drain_queue_empty _ _ E5) as [H5 H6]. split_and!; [done..|].
    by apply (drain_queue_preserves _ (registered_ext cx) (registered_effects cx) _ _ E5).
Qed.

(** *** Tasks that spawn nothing when they are polled *)

Section Quiet.
Hypothesis quiet : forall f i, spawns_of (poll_fut f i).1 = [].

Lemma poll_future_quiet s i : exists s', poll_future s i = Val s' /\ queue_borrowed s' = queue_borrowed s.
Proof.
  rewrite poll_future_spec; [by eexists|]. right. unfold slot_poll. by repeat case_match.
Qed.

Lemma poll_futures_quiet l s :
  exists s', for_each poll_future l s = Val s' /\ queue_borrowed s' = queue_borrowed s.
Proof.
  revert s. induction l as [|i l IH]; intros s; [by exists s|]. cbn [for_each].
  destruct (poll_future_quiet s i) as (s1 & -> & H1). cbn [mbind outcome_bind].
  destruct (IH s1) as (s2 & -> & H2). exists s2. by rewrite H2, H1.
Qed.

Lemma drain_queue_quiet s :
  queue_borrowed s = false -> exists s', drain_queue s = Val s' /\ queue_borrowed s' = false.
Proof.
  intros Hb. unfold drain_queue. rewrite Hb.
  enough (H : forall q s, exists s', for_each (fun s f => r ← push_task s f; Val r.2) q s = Val s')
    by (destruct (H (task_queue s) (set_queue [] true s)) as [s' ->]; by eexists).
  clear s Hb. induction q as [|f q IH]; intros s; [by exists s|]. cbn [for_each].
  rewrite push_task_eq.
  destruct (poll_future_quiet (set_tasks (placed (tasks s) f) s) (free_slot (tasks s))) as (s1 & -> & _).
  cbn [mbind outcome_bind snd]. apply IH.
Qed.

Lemma handle_poll_quiet cx s :
  queue_borrowed s = false -> exists r s', handle_poll cx s = Val (r, s').
Proof.
  intros Hb. unfold handle_poll, poll_all, wake_pending.
  destruct (poll_futures_quiet (seq 0 (length (tasks s))) s) as (s1 & -> & H1). cbn [mbind outcome_bind].
  destruct (drain_queue_quiet s1) as (s2 & -> & H2); [by rewrite H1|]. cbn [mbind outcome_bind poll].
  match goal with |- context [for_each poll_future ?q ?s] =>
    destruct (poll_futures_quiet q s) as (s4 & -> & H4) end. cbn [mbind outcome_bind].
  destruct (negb _); [|by do 2 eexists].
  destruct (drain_queue_quiet s4) as (s5 & -> & H5); [by rewrite H4|]. by do 2 eexists.
Qed.
End Quiet.
End Executors.

(** ** The two executors

    [non_send_executor.rs] (the definitions above map to it) and its copy
    [send_executor.rs]. *)

Module LocalExecutor.
Definition push_task {Fut} (poll_fut : Fut -> nat -> list (Effect Fut) * option Fut) :=
  push_task poll_fut BorrowConflict.
Definition handle_poll {Fut} (poll_fut : Fut -> nat -> list (Effect Fut) * option Fut) :=
  handle_poll poll_fut BorrowConflict.
End LocalExecutor.

Module SendExecutor.
Section Send.
Context {Fut : Type} (poll_fut : Fut -> nat -> list (Effect Fut) * option Fut).
Definition new : Executor Fut := new.
Definition wake : nat -> Executor Fut -> Executor Fut := wake.
Definition spawn : Fut -> Executor Fut -> outcome (Executor Fut) := spawn Deadlock.
Definition poll_future : Executor Fut -> nat -> outcome (Executor Fut) := poll_future poll_fut Deadlock.
Definition check_if_done : Executor Fut -> bool := check_if_done.
Definition wake_pending : Executor Fut -> outcome (bool * Executor Fut) := wake_pending poll_fut Deadlock.
Definition poll_all : Executor Fut -> outcome (Executor Fut) := poll_all poll_fut Deadlock.
Definition push_task : Executor Fut -> Fut -> outcome (nat * Executor Fut) := push_task poll_fut Deadlock.
Definition poll : nat -> Executor Fut -> Poll * Executor Fut := poll.
Definition handle_poll : nat -> Executor Fut -> outcome (Poll * Executor Fut) := handle_poll poll_fut Deadlock.
End Send.
End SendExecutor.

(** ** The two executors agree *)

(** The same answer, or each with its own stop. *)
Definition same_but {A} (p q : Panic) (x y : outcome A) : Prop :=
  match x, y with
  | Val a, Val b => a = b
  | Stop p', Stop q' => p' = p /\ q' = q
  | _, _ => False
  end.

Lemma same_but_bind {A B} p q (x y : outcome A) (f g : A -> outcome B) :
  same_but p q x y -> (forall a, same_but p q (f a) (g a)) -> same_but p q (a ← x; f a) (a ← y; g a).
Proof. destruct x, y; cbn; intros H Hf; [by subst|done..]. Qed.

Lemma same_but_for_each {A S} p q (f g : S -> A -> outcome S) l :
  (forall s a, same_but p q (f s a) (g s a)) -> forall s, same_but p q (for_each f l s) (for_each g l s).
Proof.
  intros H. induction l as [|a l IH]; intros s; [done|]. cbn [for_each]. by apply same_but_bind.
Qed.

Section Agree.
Context {Fut : Type} (poll_fut : Fut -> nat -> list (Effect Fut) * option Fut) (p q : Panic).

Lemma same_effect s e : same_but p q (effect (Fut := Fut) p s e) (effect q s e).
Proof. destruct e as [i|f]; [done|]. cbn [effect]. unfold spawn. by destruct (queue_borrowed s). Qed.

Lemma same_poll_future s i : same_but p q (poll_future poll_fut p s i) (poll_future poll_fut q s i).
Proof.
  unfold poll_future. destruct (tasks s !! i) as [[f|]|]; [|done..]. destruct (poll_fut f i) as [es r].
  apply same_but_bind; [|done]. apply same_but_for_each, same_effect.
Qed.

Lemma same_push_task s f : same_but p q (push_task poll_fut p s f) (push_task poll_fut q s f).
Proof.
  unfold push_task. destruct (first_none (tasks s)); (apply same_but_bind; [apply same_poll_future|done]).
Qed.

Lemma same_drain_queue s : same_but p q (drain_queue poll_fut p s) (drain_queue poll_fut q s).
Proof.
  unfold drain_queue. destruct (queue_borrowed s); [done|]. apply same_but_bind; [|done].
  apply same_but_for_each. intros s1 f. apply same_but_bind; [apply same_push_task|done].
Qed.

(** A poll of the handle: the same executor and the same answer, whatever lock
    the executor is behind; they differ in what a reentrant borrow does. *)
Lemma same_handle_poll cx s : same_but p q (handle_poll poll_fut p cx s) (handle_poll poll_fut q cx s).
Proof.
  unfold handle_poll, poll_all, wake_pending. apply same_but_bind; [apply same_but_for_each, same_poll_future|].
  intros s1. apply same_but_bind; [apply same_drain_queue|]. intros s2. destruct (poll cx s2) as [r s3].
  apply same_but_bind; [apply same_but_bind; [apply same_but_for_each, same_poll_future|done]|].
  intros [e s4]. destruct (negb e); [|done]. apply same_but_bind; [apply same_drain_queue|done].
Qed.
End Agree.

(** ** The properties of the executors *)

(** A task for the witnesses: polled [n] more times, it wakes itself each time;
    [true]: its first poll spawns a task. *)
Definition countdown (f : nat * bool) (index : nat) : list (Effect (nat * bool)) * option (nat * bool) :=
  ((if f.2 then [Spawn (f.1, false)] else []) ++ match f.1 with O => [] | S _ => [Wake index] end,
   match f.1 with O => None | S n => Some (n, false) end).

(** C8: no wake-up of a task is lost.  After a poll of the executor's handle the
    queue of spawned tasks is empty; if a task was woken and not yet polled again
    then the context's waker has been woken, and a later wake-up of any task
    wakes it as well. *)
Theorem executor_wakes_context {Fut} poll_fut (cx : nat) (s s' : Executor Fut) r :
  woken s = [] -> LocalExecutor.handle_poll poll_fut cx s = Val (r, s') ->
  task_queue s' = [] /\ (wake_queue s' <> [] -> cx ∈ woken s') /\
  forall i, cx ∈ woken (wake i s').
Proof.
  intros _ (Ht & _ & [[H1 H2]|H])%handle_poll_registered; (split; [done|]); split; try done;
    intros i; cbn; apply elem_of_app; [by right|by left].
Qed.

Lemma executor_wakes_context_witness : exists s', 
  LocalExecutor.handle_poll countdown 7 (mkExecutor [Some (3%nat, true); None] [] [] [(1%nat, false)] false [])
    = Val (Pending, s') /\ task_queue s' = [] /\ wake_queue s' = [0%nat; 2%nat] /\ 7%nat ∈ woken s'.
Proof.
  eexists. split; [vm_compute; reflexivity|]. split; [reflexivity|]. split; [reflexivity|].
  refine (proj1 (proj2 (executor_wakes_context countdown 7
    (mkExecutor [Some (3%nat, true); None] [] [] [(1%nat, false)] false []) _ Pending _ _)) _);
    [reflexivity|vm_compute; reflexivity|done].
Defined.

(** The answers of the executor's poll are swapped.  [Ready] means that some
    task is unfinished (and a caller awaiting the handle goes on without it); when
    every task has finished the answer is [Pending]. *)
Theorem handle_poll_inverted {Fut} poll_fut (cx : nat) (s s' : Executor Fut) r :
  LocalExecutor.handle_poll poll_fut cx s = Val (r, s') ->
  (r = Ready -> exists i f, tasks s' !! i = Some (Some f)) /\
  ((forall i f, tasks s' !! i <> Some (Some f)) -> r = Pending).
Proof.
  intros E.
  assert (H : r = Ready -> exists i f, tasks s' !! i = Some (Some f)).
  { apply handle_poll_inv in E as (s1 & s2 & s4 & _ & _ & E4 & [(Hn & -> & ->)|(_ & _ & ->)]); [|done].
    rewrite Hn in E4. injection E4 as <-. unfold poll. cbn [fst snd tasks set_wake_queue].
    destruct (check_if_done _) eqn:Ed; [done|]. intros _. by apply check_if_done_false in Ed. }
  split; [exact H|]. intros Hn. destruct r; [|done]. destruct (H eq_refl) as (i & f & Hi).
  by destruct (Hn i f).
Qed.

Lemma handle_poll_inverted_witness :
  exists s1 s2, LocalExecutor.handle_poll countdown 7 (mkExecutor [Some (0%nat, false)] [] [] [] false [])
    = Val (Pending, s1) /\
  LocalExecutor.handle_poll (fun _ _ => ([], Some tt)) 7 (mkExecutor [Some tt] [] [] [] false [])
    = Val (Ready, s2) /\ exists i f, tasks s2 !! i = Some (Some f).
Proof.
  do 2 eexists. split; [vm_compute; reflexivity|]. split; [vm_compute; reflexivity|].
  refine (proj1 (handle_poll_inverted (fun _ _ => ([], Some tt)) 7
    (mkExecutor [Some tt] [] [] [] false []) _ Ready _) eq_refl). vm_compute. reflexivity.
Defined.

(** A task that is spawned and itself spawns a task on its first poll stops
    the executor: the queue is drained under its own borrow, so the local executor
    panics and the one behind spin locks hangs. *)
Theorem spawn_in_first_poll_stops {Fut} poll_fut (cx : nat) (s : Executor Fut) (f g : Fut) q :
  queue_borrowed s = false -> task_queue s = f :: q ->
  (forall index, Spawn g ∈ (poll_fut f index).1) ->
  LocalExecutor.handle_poll poll_fut cx s = Stop BorrowConflict /\
  SendExecutor.handle_poll poll_fut cx s = Stop Deadlock.
Proof.
  intros Hb Hq Hf.
  assert (H : forall p, handle_poll poll_fut p cx s = Stop p); [intros p|split; apply H].
  destruct (poll_all_total poll_fut p s Hb) as (s1 & E1 & _ & _ & Hq1 & Hb1).
  unfold handle_poll. rewrite E1. cbn [mbind outcome_bind].
  unfold drain_queue. rewrite Hb1, Hq1, Hq. cbn [app for_each].
  match goal with |- context [push_task poll_fut p ?s f] =>
    destruct (push_task_cases poll_fut p s f) as [[E _]|[_ Hs]] end; [by rewrite E|].
  specialize (Hs eq_refl). set (i := free_slot _) in *. specialize (Hf i).
  assert (Hin : g ∈ spawns_of (poll_fut f i).1) by (apply list_elem_of_omap; by exists (Spawn g)).
  rewrite Hs in Hin. by apply elem_of_nil in Hin.
Qed.

Lemma spawn_in_first_poll_stops_witness :
  LocalExecutor.handle_poll countdown 7 (mkExecutor [] [] [] [(1%nat, true)] false []) = Stop BorrowConflict /\
  SendExecutor.handle_poll countdown 7 (mkExecutor [] [] [] [(1%nat, true)] false []) = Stop Deadlock.
Proof.
  apply (spawn_in_first_poll_stops countdown 7 _ (1%nat, true) (1%nat, false) []); [reflexivity..|].
  intros index. cbn. left.
Defined.

(** [push_task] never displaces a task: it takes the first empty slot or a
    new one, every other slot is unchanged, and the task has been polled once in
    it, with its effects, when it returns the slot. *)
Theorem push_task_spec {Fut} poll_fut (s : Executor Fut) (f : Fut) :
  queue_borrowed s = false ->
  exists i s', LocalExecutor.push_task poll_fut s f = Val (i, s') /\
    (forall g, tasks s !! i <> Some (Some g)) /\
    (forall j, (j < i)%nat -> exists g, tasks s !! j = Some (Some g)) /\
    (forall j, j <> i -> tasks s' !! j = tasks s !! j) /\
    tasks s' !! i = Some (poll_fut f i).2 /\
    wake_queue s' = wake_queue s ++ wakes_of (poll_fut f i).1 /\
    task_queue s' = task_queue s ++ spawns_of (poll_fut f i).1.
Proof.
  intros Hb. unfold LocalExecutor.push_task.
  destruct (push_task_cases poll_fut BorrowConflict s f) as [[_ Hb']|[E _]]; [congruence|].
  destruct (free_slot_spec (tasks s)) as (_ & Hfree & Hlow).
  destruct (placed_lookup (tasks s) f) as [Hp Hother]. set (i := free_slot (tasks s)) in *.
  do 2 eexists. split; [exact E|]. split; [exact Hfree|]. split; [exact Hlow|].
  cbn [tasks set_tasks]. split; [|split; [|by split]].
  - intros j Hj. rewrite list_lookup_insert_ne by done. by apply Hother.
  - apply list_lookup_insert_eq. by apply lookup_lt_Some in Hp.
Qed.

Lemma push_task_spec_witness :
  exists i s', LocalExecutor.push_task countdown
    (mkExecutor [Some (4%nat, false); None] [] [] [] false []) (1%nat, true) = Val (i, s') /\
  tasks s' !! 0%nat = Some (Some (4%nat, false)) /\ i = 1%nat.
Proof.
  destruct (push_task_spec countdown (mkExecutor [Some (4%nat, false); None] [] [] [] false []) (1%nat, true))
    as (i & s' & E & _ & _ & Hother & _); [reflexivity|].
  exists i, s'. split; [exact E|]. assert (Hi : i = 1%nat) by (vm_compute in E; congruence).
  split; [|exact Hi]. rewrite (Hother 0%nat); [reflexivity|]. rewrite Hi. discriminate.
Defined.

(** [poll_all] polls every unfinished task exactly once, in the order of the
    slots: the new contents of the slots, the wake-ups and the spawned tasks are
    those of one poll of each. *)
Theorem poll_all_spec {Fut} poll_fut (s : Executor Fut) :
  queue_borrowed s = false -> exists s', poll_all poll_fut BorrowConflict s = Val s' /\
    tasks s' = imap (fun i o => (poll_slot poll_fut i o).2) (tasks s) /\
    wake_queue s' = wake_queue s ++ wakes_from poll_fut 0 (tasks s) /\
    task_queue s' = task_queue s ++ spawns_from poll_fut 0 (tasks s).
Proof.
  intros Hb. destruct (poll_all_total poll_fut BorrowConflict s Hb) as (s' & E & Ht & Hw & Hs & _).
  by exists s'.
Qed.

Lemma poll_all_spec_witness :
  exists s', poll_all countdown BorrowConflict
    (mkExecutor [Some (2%nat, false); None; Some (0%nat, true)] [] [] [] false []) = Val s' /\
  tasks s' = [Some (1%nat, false); None; None] /\ wake_queue s' = [0%nat] /\ task_queue s' = [(0%nat, false)].
Proof.
  destruct (poll_all_spec countdown (mkExecutor [Some (2%nat, false); None; Some (0%nat, true)] [] [] [] false []))
    as (s' & E & Ht & Hw & Hs); [reflexivity|].
  exists s'. split; [exact E|]. split; [exact Ht|]. split; [exact Hw|exact Hs].
Defined.

(** What is done with an executor through its handles and wakers. *)
Inductive Use (Fut : Type) := WakeSlot (i : nat) | SpawnOne (f : Fut) | PollHandle (cx : nat).
Arguments WakeSlot {Fut} i.
Arguments SpawnOne {Fut} f.
Arguments PollHandle {Fut} cx.

(** The answers of the polls so far, and the executor. *)
Definition use_executor {Fut} (spawn : Fut -> Executor Fut -> outcome (Executor Fut))
  (handle_poll : nat -> Executor Fut -> outcome (Poll * Executor Fut))
  (s : list Poll * Executor Fut) (u : Use Fut) : outcome (list Poll * Executor Fut) :=
  match u with
  | WakeSlot i => Val (s.1, wake i s.2)
  | SpawnOne f => x ← spawn f s.2; Val (s.1, x)
  | PollHandle cx => r ← handle_poll cx s.2; Val (s.1 ++ [r.1], r.2)
  end.

(** The two executors are one.  Spawn, wake and poll in any order, through
    [RefCell]s or through spin locks: the polls give the same answers and leave the
    same executor; and where the local executor panics because a task borrows what
    is borrowed, and only there, the other waits for itself. *)
Theorem executors_agree {Fut} (poll_fut : Fut -> nat -> list (Effect Fut) * option Fut) us s :
  same_but BorrowConflict Deadlock
    (for_each (use_executor (spawn BorrowConflict) (LocalExecutor.handle_poll poll_fut)) us ([], s))
    (for_each (use_executor SendExecutor.spawn (SendExecutor.handle_poll poll_fut)) us ([], s)).
Proof.
  apply same_but_for_each. intros [rs x] [i|f|cx]; cbn [use_executor fst snd].
  - done.
  - apply same_but_bind; [apply (same_effect BorrowConflict Deadlock x (Spawn f))|done].
  - apply same_but_bind; [apply same_handle_poll|done].
Qed.

(** ** [run_neverending_future]

    The root loop swaps the ready flag, polls its future or idles ([wfi]).  The
    flag is set by [wake] of [never_waker.rs]: from inside the poll, from an
    interrupt handler or from another hart, so between any two operations. *)

Module RootLoop.

Inductive Pc := Swap | PollFuture | Idle.

Inductive Event := LoopStep | WakeCall.

(** [never_waker::wake] and [wake_by_ref]. *)
Definition wake (s : Pc * bool) : Pc * bool := (s.1, true).

Definition run_neverending_future (s : Pc * bool) : Pc * bool :=
  match s.1 with
  | Swap => (if s.2 then PollFuture else Idle, false)
  | PollFuture => (Swap, s.2)
  | Idle => (Swap, s.2)
  end.

Definition step (s : Pc * bool) (e : Event) : Pc * bool :=
  match e with LoopStep => run_neverending_future s | WakeCall => wake s end.

Definition run (s : Pc * bool) (es : list Event) : Pc * bool := foldl step s es.

(** [AtomicBool::new(true)] *)
Definition start : Pc * bool := (Swap, true).

(** The polls that begin while the events happen. *)
Fixpoint polls (s : Pc * bool) (es : list Event) : Z :=
  match es with
  | [] => 0
  | e :: es =>
      (match s, e with (Swap, true), LoopStep => 1 | _, _ => 0 end) + polls (step s e) es
  end.

Definition loop_steps : list Event -> Z := countb (fun e => match e with LoopStep => true | _ => false end).
Definition wake_calls : list Event -> Z := countb (fun e => match e with WakeCall => true | _ => false end).

Lemma polls_nonneg s es : 0 <= polls s es.
Proof.
  revert s. induction es as [|e es IH]; intros s; cbn [polls]; [lia|].
  specialize (IH (step s e)). destruct s as [[] []], e; lia.
Qed.

Lemma polls_upper s es : polls s es <= Z.b2z s.2 + wake_calls es.
Proof.
  revert s. induction es as [|e es IH]; intros [pc b]; cbn [polls]; [by destruct b|].
  unfold wake_calls in *. rewrite countb_cons. specialize (IH (step (pc, b) e)).
  destruct pc, b, e; cbn in IH |- *; lia.
Qed.

(** With the flag set the second operation of the loop at the latest is a swap. *)
Lemma polls_lower es pc :
  match pc with Swap => 1 | _ => 2 end <= loop_steps es -> 1 <= polls (pc, true) es.
Proof.
  unfold loop_steps. revert pc. induction es as [|e es IH]; intros pc Hn.
  { by destruct pc. }
  rewrite countb_cons in Hn. cbn [polls]. destruct e.
  - destruct pc; [pose proof (polls_nonneg (step (Swap, true) LoopStep) es); cbn in *; lia|..];
      apply (IH Swap); cbn in Hn |- *; lia.
  - replace (step (pc, true) WakeCall) with (pc, true) by reflexivity.
    specialize (IH pc Hn). destruct pc; cbn in *; lia.
Qed.

(** The root loop polls its future again after every wake-up, within two
    operations, and never more often than it was woken (plus the first poll); but
    it can idle with the flag set: a wake-up between the swap and [wfi] is acted
    on only after some other interrupt ends the [wfi]. *)
Theorem root_loop_wakeups :
  (forall pc es, 2 <= loop_steps es -> 1 <= polls (step (pc, true) WakeCall) es) /\
  (forall es, polls start es <= 1 + wake_calls es) /\
  (exists es, run start es = (Idle, true)).
Proof.
  split; [|split].
  - intros pc es Hn. apply (polls_lower es pc). destruct pc; lia.
  - intros es. apply (polls_upper start).
  - by exists [LoopStep; LoopStep; LoopStep; WakeCall].
Qed.
End RootLoop.

(** ** The reference counts of [RcWake]

    A waker is the data pointer of an [Rc<W>].  [waker_clone] increments the
    count through [Rc::<()>], the other entries of the table use [Rc<W>]; each
    finds the count before the data by the alignment of its own type. *)

Module RcWaker.

(** [RcBox]: two counters of 8 bytes, then the value at its alignment. *)
Definition data_offset (align : Z) : Z := 16 + (- 16) mod align.

Record Heap := mkHeap { strong : gmap Z Z; freed : bool; woken : Z }.

Definition count (align data : Z) (h : Heap) : Z := default 0 (strong h !! (data - data_offset align)).
Definition set_count (align data n : Z) (h : Heap) : Heap :=
  mkHeap (<[data - data_offset align := n]> (strong h)) (freed h) (woken h).

(** Dropping an [Rc<W>]: the block is freed with the last one. *)
Definition drop_rc (align data : Z) (h : Heap) : Heap :=
  let n := count align data h - 1 in
  let h := set_count align data n h in
  mkHeap (strong h) (freed h || (n =? 0)) (woken h).

Definition rc_wake_by_ref (h : Heap) : Heap := mkHeap (strong h) (freed h) (woken h + 1).

Section Vtable.
Context (align data : Z).

Definition waker_clone (h : Heap) : Heap := set_count 1 data (count 1 data h + 1) h.
Definition waker_wake (h : Heap) : Heap := drop_rc align data (rc_wake_by_ref h).
Definition waker_wake_by_ref (h : Heap) : Heap := rc_wake_by_ref h.
Definition waker_drop (h : Heap) : Heap := drop_rc align data h.

(** [Rc::new(w).into_waker()]: one strong reference, held by the waker. *)
Definition into_waker : Heap := mkHeap {[data - data_offset align := 1]} false 0.

Inductive Op := Clone | WakeOp | WakeByRef | DropOp.

(** One use of one of the [n] wakers that exist; a freed block must not be used. *)
Definition use_waker (nh : Z * Heap) (op : Op) : outcome (Z * Heap) :=
  let '(n, h) := nh in
  if n <=? 0 then Val nh
  else if freed h then Stop Undefined
  else match op with
       | Clone => Val (n + 1, waker_clone h)
       | WakeOp => Val (n - 1, waker_wake h)
       | WakeByRef => Val (n, waker_wake_by_ref h)
       | DropOp => Val (n - 1, waker_drop h)
       end.
End Vtable.

Lemma data_offset_small align : In align [1; 2; 4; 8; 16] -> data_offset align = 16.
Proof. by intros [<-|[<-|[<-|[<-|[<-|[]]]]]]. Qed.

(** C35: for a waker of alignment at most 16 ([LocalWaker] has 8) the reference
    count is the number of wakers whatever is done with them, so the block is
    freed exactly when the last waker is gone; with a greater alignment
    [waker_clone] counts in the wrong place, and dropping a clone frees the block
    under the waker that is left. *)
Theorem rc_waker_balanced align data ops :
  In align [1; 2; 4; 8; 16] ->
  (exists n h, for_each (use_waker align data) ops (1, into_waker align data) = Val (n, h) /\
    count align data h = n /\ 0 <= n /\ freed h = (n =? 0)) /\
  for_each (use_waker 32 data) [Clone; DropOp; WakeByRef] (1, into_waker 32 data) = Stop Undefined.
Proof.
  intros Ha. pose proof (data_offset_small align Ha) as Ho. split.
  - pose (I := fun nh : Z * Heap => count align data nh.2 = nh.1 /\ 0 <= nh.1 /\ freed nh.2 = (nh.1 =? 0)).
    enough (H : exists nh, for_each (use_waker align data) ops (1, into_waker align data) = Val nh /\ I nh).
    { destruct H as ([n h] & E & H). exists n, h. by split. }
    assert (H0 : I (1, into_waker align data))
      by (unfold I, count, into_waker; cbn; by rewrite lookup_singleton_eq).
    revert H0. generalize (1, into_waker align data). induction ops as [|op ops IH]; intros nh H; [by exists nh|].
    enough (exists nh', use_waker align data nh op = Val nh' /\ I nh') as (nh' & E & H').
    { cbn [for_each]. rewrite E. by apply IH. }
    destruct nh as [n h], H as (Hc & Hn & Hf). cbn [fst snd] in *. unfold use_waker.
    destruct (Z.leb_spec n 0); [exists (n, h); by repeat split|].
    rewrite Hf, (proj2 (Z.eqb_neq n 0)) by lia.
    unfold I, waker_clone, waker_wake, waker_drop, waker_wake_by_ref, drop_rc, rc_wake_by_ref, set_count,
      count in *. replace (data_offset 1) with 16 by reflexivity. rewrite Ho in *.
    destruct op; eexists; (split; [reflexivity|]); cbn [fst snd strong freed woken];
      rewrite ?lookup_insert_eq, ?Hc, ?Hf, ?(proj2 (Z.eqb_neq n 0)) by lia; cbn [default from_option];
      unfold id; (split; [lia|]); (split; [lia|]); try done.
    by rewrite (proj2 (Z.eqb_neq _ 0)) by lia.
  - cbn [for_each]. unfold into_waker, use_waker at 1. cbn [Z.leb Z.compare freed mbind outcome_bind].
    unfold use_waker, waker_clone, waker_drop, waker_wake_by_ref, drop_rc, set_count, count; cbn.
    replace (data - data_offset 32) with (data - 32) by reflexivity.
    replace (data - data_offset 1) with (data - 16) by reflexivity.
    rewrite lookup_insert_ne by lia. by rewrite lookup_singleton_eq.
Qed.

Lemma rc_waker_balanced_witness :
  exists n h, for_each (use_waker 8 4096) [Clone; WakeByRef; DropOp; WakeOp] (1, into_waker 8 4096) = Val (n, h) /\
    count 8 4096 h = n /\ 0 <= n /\ freed h = (n =? 0).
Proof.
  apply (rc_waker_balanced 8 4096 [Clone; WakeByRef; DropOp; WakeOp]). cbn. tauto.
Defined.
End RcWaker.
