(* ===== verification/Wakers.v ===== *)
(** * kernel_executor: wakers as the standard library sees them

    A [RawWaker] is a data pointer and a table of four functions; a [Waker] calls
    them, whatever is behind.  The tables are [WAKER_VTABLE] of
    [kernel_executor/src/never_waker.rs], whose data is the flag of the root loop,
    and the one [raw_waker] of [non_send_waker.rs] builds for an [Rc<W>], on the
    reference counts of [Executor.RcWaker]. *)

From S2P Require Import Prelude Executor.

(** Which table; the one of [raw_waker] depends on [W], here by its alignment. *)
Inductive VTable := WAKER_VTABLE | RcVTable (align : Z).

Record RawWaker := mkRawWaker { data : Z; vtable : VTable }.

#[export] Instance VTable_eq_dec : EqDecision VTable.
Proof. solve_decision. Defined.
#[export] Instance RawWaker_eq_dec : EqDecision RawWaker.
Proof. solve_decision. Defined.

(** The flags ([AtomicBool]) and the blocks behind the [Rc]s, by the data pointer. *)
Record World := mkWorld { flags : gmap Z bool; rcs : gmap Z RcWaker.Heap }.

(** ** [never_waker.rs] *)

Module NeverWaker.
Definition new_raw_waker (data : Z) : RawWaker := mkRawWaker data WAKER_VTABLE.
Definition new_waker (flag : Z) : RawWaker := new_raw_waker flag.
Definition waker_clone (a : Z) : RawWaker := mkRawWaker a WAKER_VTABLE.

(** The store through the pointer, which must not be null or dangle. *)
Definition wake (a : Z) (s : World) : outcome World :=
  if a =? 0 then Stop UnwrapFailed
  else match flags s !! a with
       | Some _ => Val (mkWorld (<[a := true]> (flags s)) (rcs s))
       | None => Stop Undefined
       end.
Definition wake_by_ref (a : Z) (s : World) : outcome World := wake a s.
Definition drop (a : Z) (s : World) : outcome World := Val s.
End NeverWaker.

(** ** [non_send_waker.rs] *)

Module RcRawWaker.
Definition waker_new (align data : Z) : RawWaker := mkRawWaker data (RcVTable align).

(** [into_waker] of an [Rc] whose block is at [data]; [WakerWrapper] only hides
    that the result is [Send]. *)
Definition into_waker (align data : Z) (s : World) : RawWaker * World :=
  (waker_new align data, mkWorld (flags s) (<[data := RcWaker.into_waker align data]> (rcs s))).

(** An access to the block, while it is there. *)
Definition with_block (data : Z) (f : RcWaker.Heap -> RcWaker.Heap) (s : World) : outcome World :=
  match rcs s !! data with
  | Some h => if RcWaker.freed h then Stop Undefined
              else Val (mkWorld (flags s) (<[data := f h]> (rcs s)))
  | None => Stop Undefined
  end.
End RcRawWaker.

(** ** [Waker]: the calls through the table *)

Definition clone (w : RawWaker) (s : World) : outcome (RawWaker * World) :=
  match vtable w with
  | WAKER_VTABLE => Val (NeverWaker.waker_clone (data w), s)
  | RcVTable align =>
      s ← RcRawWaker.with_block (data w) (RcWaker.waker_clone (data w)) s;
      Val (RcRawWaker.waker_new align (data w), s)
  end.

Definition wake (w : RawWaker) (s : World) : outcome World :=
  match vtable w with
  | WAKER_VTABLE => NeverWaker.wake (data w) s
  | RcVTable align => RcRawWaker.with_block (data w) (RcWaker.waker_wake align (data w)) s
  end.

Definition wake_by_ref (w : RawWaker) (s : World) : outcome World :=
  match vtable w with
  | WAKER_VTABLE => NeverWaker.wake_by_ref (data w) s
  | RcVTable align => RcRawWaker.with_block (data w) RcWaker.waker_wake_by_ref s
  end.

Definition drop (w : RawWaker) (s : World) : outcome World :=
  match vtable w with
  | WAKER_VTABLE => NeverWaker.drop (data w) s
  | RcVTable align => RcRawWaker.with_block (data w) (RcWaker.waker_drop align (data w)) s
  end.

(** ** Programs over wakers *)

(** What is done with the [i]-th waker there is; [wake] and [drop] consume it. *)
Inductive Use := Clone (i : nat) | WakeIt (i : nat) | WakeByRef (i : nat) | DropIt (i : nat).

Definition remove (i : nat) (ws : list RawWaker) : list RawWaker := take i ws ++ List.skipn (S i) ws.

Definition use (c : list RawWaker * World) (u : Use) : outcome (list RawWaker * World) :=
  let '(ws, s) := c in
  let on i (f : RawWaker -> outcome (list RawWaker * World)) :=
    match ws !! i with Some w => f w | None => Val c end in
  match u with
  | Clone i => on i (fun w => '(w', s) ← clone w s; Val (ws ++ [w'], s))
  | WakeIt i => on i (fun w => s ← wake w s; Val (remove i ws, s))
  | WakeByRef i => on i (fun w => s ← wake_by_ref w s; Val (ws, s))
  | DropIt i => on i (fun w => s ← drop w s; Val (remove i ws, s))
  end.

Lemma remove_Forall P i ws : Forall P ws -> Forall P (remove i ws).
Proof. intros H. unfold remove. apply Forall_app. split; [by apply Forall_take|by apply Forall_drop]. Qed.

(** One use of the wakers of a root loop: they stay its wakers, and only the
    flag can change, to [true]. *)
Lemma use_never flag ws s u b :
  flag <> 0 -> flags s !! flag = Some b -> Forall (fun w => w = NeverWaker.new_waker flag) ws ->
  exists ws' b', use (ws, s) u = Val (ws', mkWorld (<[flag := b']> (flags s)) (rcs s)) /\
    Forall (fun w => w = NeverWaker.new_waker flag) ws' /\ (b = true -> b' = true) /\
    (b' = true -> b = false -> exists i, u = WakeIt i \/ u = WakeByRef i).
Proof.
  intros H0 Hf Hws. assert (Hs : s = mkWorld (<[flag := b]> (flags s)) (rcs s)).
  { rewrite insert_id by done. by destruct s. }
  assert (Hw : forall i w, ws !! i = Some w -> w = NeverWaker.new_waker flag)
    by (intros i w Hi; by apply (Forall_lookup_1 _ _ _ _ Hws Hi)).
  destruct u as [i|i|i|i]; cbn [use]; destruct (ws !! i) as [w|] eqn:Hi;
    try (exists ws, b; split; [by rewrite <- Hs|]; split; [done|]; split; [done|]; by intros ->);
    rewrite (Hw i w Hi); cbn [clone wake wake_by_ref drop NeverWaker.new_waker NeverWaker.new_raw_waker vtable data].
  - exists (ws ++ [NeverWaker.waker_clone flag]), b. split; [by rewrite <- Hs|].
    split; [apply Forall_app; by repeat constructor|]. split; [done|]. by intros ->.
  - unfold NeverWaker.wake. rewrite (proj2 (Z.eqb_neq flag 0)), Hf by done.
    exists (remove i ws), true. split; [done|]. split; [by apply remove_Forall|]. split; [done|]. eauto.
  - unfold NeverWaker.wake_by_ref, NeverWaker.wake. rewrite (proj2 (Z.eqb_neq flag 0)), Hf by done.
    exists ws, true. split; [done|]. split; [done|]. split; [done|]. eauto.
  - exists (remove i ws), b. split; [unfold NeverWaker.drop; cbn; by rewrite <- Hs|].
    split; [by apply remove_Forall|]. split; [done|]. by intros ->.
Qed.

(** The waker of the root loop.  Whatever is done with the waker [new_waker]
    makes of a flag and with its clones, in any number and order, nothing stops
    as long as the flag lives; every waker left is equal to the first, no other
    flag and no reference count changes, a set flag stays set, and it is set only
    by a wake-up.  Behind the flag's life a wake-up is undefined. *)
Theorem never_waker_contract flag s us b :
  flag <> 0 -> flags s !! flag = Some b ->
  (exists ws b',
    for_each use us ([NeverWaker.new_waker flag], s) = Val (ws, mkWorld (<[flag := b']> (flags s)) (rcs s)) /\
    Forall (fun w => w = NeverWaker.new_waker flag) ws /\ (b = true -> b' = true) /\
    (b' = true -> b = false -> exists i, In (WakeIt i) us \/ In (WakeByRef i) us)) /\
  wake (NeverWaker.new_waker flag) (mkWorld (delete flag (flags s)) (rcs s)) = Stop Undefined.
Proof.
  intros H0 Hf. split.
  - assert (Hws : Forall (fun w => w = NeverWaker.new_waker flag) [NeverWaker.new_waker flag]) by by repeat constructor.
    revert Hws. generalize [NeverWaker.new_waker flag]. revert s b Hf.
    induction us as [|u us IH]; intros s b Hf ws Hws.
    + exists ws, b. cbn [for_each]. rewrite insert_id by done. split; [by destruct s|]. split; [done|].
      split; [done|]. by intros ->.
    + destruct (use_never flag ws s u b H0 Hf Hws) as (ws1 & b1 & E1 & Hws1 & Hb1 & Hu1).
      cbn [for_each]. rewrite E1. cbn [mbind outcome_bind].
      destruct (IH (mkWorld (<[flag := b1]> (flags s)) (rcs s)) b1 (lookup_insert_eq _ _ _) ws1 Hws1)
        as (ws2 & b2 & E2 & Hws2 & Hb2 & Hu2).
      exists ws2, b2. cbn [flags rcs] in E2. rewrite E2, insert_insert_eq. split; [done|]. split; [done|].
      split; [auto|]. intros H2 Hb. destruct b1.
      * destruct (Hu1 eq_refl Hb) as [i [->| ->]]; exists i; [left|right]; by left.
      * destruct (Hu2 H2 eq_refl) as [i [H|H]]; exists i; [left|right]; by right.
  - unfold wake, NeverWaker.new_waker, NeverWaker.new_raw_waker, NeverWaker.wake. cbn [vtable data flags].
    by rewrite (proj2 (Z.eqb_neq flag 0)), lookup_delete_eq.
Qed.

Lemma never_waker_contract_witness :
  exists ws b', for_each use [Clone 0; WakeByRef 1; DropIt 0; WakeIt 0]
      ([NeverWaker.new_waker 0x8000], mkWorld {[0x8000 := false]} ∅)
    = Val (ws, mkWorld (<[0x8000 := b']> {[0x8000 := false]}) ∅).
Proof.
  destruct (never_waker_contract 0x8000 (mkWorld {[0x8000 := false]} ∅) [Clone 0; WakeByRef 1; DropIt 0; WakeIt 0] false)
    as [(ws & b' & E & _) _]; [done|reflexivity|]. exists ws, b'. exact E.
Defined.
