(* ===== verification/ExecutorLife.v ===== *)
(** * The life of an executor: its handles and its wakers

    [LocalExecutor::new], [handle], the handles and the weak references of
    [LocalWaker] in [kernel_executor/src/non_send_executor.rs]; [send_executor.rs]
    is the same code with [Arc] for [Rc].

    An executor lives in a counted block.  Whoever called [new] and every handle
    own it; the executor has a weak reference to itself, for [handle].  The queue
    of woken slots and the list of wakers have the executor as only owner and are
    gone with it; the wakers of the tasks have weak references to both.  The queue
    of spawned tasks belongs to the executor and to every handle. *)

From S2P Require Import Prelude Executor.

(** The block: [executor] until it is dropped, the references to it and to the
    queue of spawned tasks. *)
Record Block (Fut : Type) := mkBlock {
  executor : option (Executor Fut);
  strong : nat;
  queue_strong : nat
}.
Arguments mkBlock {Fut}.
Arguments executor {Fut}.
Arguments strong {Fut}.
Arguments queue_strong {Fut}.

Section Life.
Context {Fut : Type} (poll_fut : Fut -> nat -> list (Effect Fut) * option Fut).
Context (reentry : Panic).

(** [Rc::new], and the weak reference stored in [this]. *)
Definition new_block : Block Fut := mkBlock (Some new) 1 1.

(** [LocalExecutor::handle]: [this.upgrade().unwrap()] and a clone of the queue. *)
Definition handle (b : Block Fut) : outcome (Block Fut) :=
  match strong b with
  | O => Stop UnwrapFailed
  | S _ => Val (mkBlock (executor b) (S (strong b)) (S (queue_strong b)))
  end.

(** The derived [Clone] of the handle. *)
Definition clone_handle (b : Block Fut) : Block Fut :=
  mkBlock (executor b) (S (strong b)) (S (queue_strong b)).

(** Dropping a reference to the executor; with the last one the executor is
    dropped, and its reference to the queue with it. *)
Definition drop_executor (b : Block Fut) : Block Fut :=
  match strong b with
  | O => b
  | S O => mkBlock None 0 (Nat.pred (queue_strong b))
  | S n => mkBlock (executor b) n (queue_strong b)
  end.

(** Dropping a handle: its fields in order. *)
Definition drop_handle (b : Block Fut) : Block Fut :=
  let b := drop_executor b in mkBlock (executor b) (strong b) (Nat.pred (queue_strong b)).

(** [rc_wake_by_ref] of [LocalWaker]: both weak references are to fields of the
    executor. *)
Definition rc_wake_by_ref (index : nat) (b : Block Fut) : outcome (Block Fut) :=
  match executor b with
  | None => Stop UnwrapFailed
  | Some e => Val (mkBlock (Some (wake index e)) (strong b) (queue_strong b))
  end.

(** A use of the executor behind a handle. *)
Definition with_executor (f : Executor Fut -> outcome (Executor Fut)) (b : Block Fut) : outcome (Block Fut) :=
  match executor b with
  | None => Stop Undefined
  | Some e => e ← f e; Val (mkBlock (Some e) (strong b) (queue_strong b))
  end.

(** ** Programs *)

Inductive Op :=
  | MakeHandle                 (* [executor.borrow_mut().handle()] *)
  | CloneHandle
  | DropHandle
  | DropOwner                  (* the reference [new] answered *)
  | WakeTask (index : nat)
  | SpawnTask (f : Fut)        (* on a handle, as is the poll *)
  | PollHandle (cx : nat).

(** Is the reference of [new] still there, how many handles are there, the block. *)
Record State := mkState { owned : bool; handles : nat; block : Block Fut }.

Definition start : State := mkState true 0 new_block.

Definition on_block (f : Block Fut -> outcome (Block Fut)) (s : State) : outcome State :=
  b ← f (block s); Val (mkState (owned s) (handles s) b).

(** One operation; those on a reference that is not there cannot be written. *)
Definition op (s : State) (o : Op) : outcome State :=
  match o with
  | MakeHandle =>
      if owned s || (0 <? handles s)%nat
      then b ← handle (block s); Val (mkState (owned s) (S (handles s)) b) else Val s
  | CloneHandle =>
      if (0 <? handles s)%nat then Val (mkState (owned s) (S (handles s)) (clone_handle (block s))) else Val s
  | DropHandle =>
      if (0 <? handles s)%nat then Val (mkState (owned s) (Nat.pred (handles s)) (drop_handle (block s))) else Val s
  | DropOwner => if owned s then Val (mkState false (handles s) (drop_executor (block s))) else Val s
  | WakeTask i => on_block (rc_wake_by_ref i) s
  | SpawnTask f => if (0 <? handles s)%nat then on_block (with_executor (spawn reentry f)) s else Val s
  | PollHandle cx =>
      if (0 <? handles s)%nat
      then on_block (with_executor (fun e => r ← handle_poll poll_fut reentry cx e; Val r.2)) s
      else Val s
  end.

(** The counts are those of the references there are, and the executor is there
    as long as one of them is. *)
Record counted (s : State) : Prop := {
  ct_strong : strong (block s) = ((if owned s then 1 else 0) + handles s)%nat;
  ct_queue : queue_strong (block s) = (handles s + if executor (block s) then 1 else 0)%nat;
  ct_alive : executor (block s) <> None <-> (0 < strong (block s))%nat
}.

Lemma start_counted : counted start.
Proof. by split; cbn; [..|split; [lia|done]]. Qed.

Lemma drop_executor_counted (b : Block Fut) n m :
  strong b = S n -> queue_strong b = (m + if executor b then 1 else 0)%nat ->
  (executor b <> None <-> (0 < strong b)%nat) ->
  strong (drop_executor b) = n /\
  queue_strong (drop_executor b) = (m + if executor (drop_executor b) then 1 else 0)%nat /\
  (executor (drop_executor b) <> None <-> (0 < n)%nat).
Proof.
  intros Hs Hq Ha. unfold drop_executor. rewrite Hs in *.
  assert (exists e, executor b = Some e) as [e He].
  { destruct (executor b) as [e|]; [by exists e|]. destruct Ha as [_ Ha]. destruct Ha; [lia|done]. }
  rewrite He in *. destruct n as [|n]; cbn [strong queue_strong executor].
  - split; [done|]. split; [lia|]. split; [done|lia].
  - split; [done|]. split; [lia|]. split; [lia|done].
Qed.

(** What keeps the counts and lets the executor be. *)
Lemma on_block_counted f s s' :
  (forall b b', f b = Val b' -> strong b' = strong b /\ queue_strong b' = queue_strong b /\
     (executor b = None <-> executor b' = None)) ->
  on_block f s = Val s' -> counted s -> counted s'.
Proof.
  intros Hf E [H1 H2 H3]. apply bind_inv in E as (b & E & [= <-]). apply Hf in E as (E1 & E2 & E3).
  split; cbn [block owned handles]; rewrite ?E1, ?E2.
  - done.
  - rewrite H2. destruct (executor (block s)), (executor b); try done; by destruct E3 as [E3 E4]; (discriminate E3 || discriminate E4).
  - rewrite <- H3. by split; intros H ?; apply H, E3.
Qed.

Lemma with_executor_keeps f b b' :
  with_executor f b = Val b' -> strong b' = strong b /\ queue_strong b' = queue_strong b /\
    (executor b = None <-> executor b' = None).
Proof.
  unfold with_executor. destruct (executor b); [|done]. intros E. by apply bind_inv in E as (x & _ & [= <-]).
Qed.

Lemma op_counted o s s' : op s o = Val s' -> counted s -> counted s'.
Proof.
  intros E Hs. pose proof Hs as [H1 H2 H3]. destruct o; cbn [op] in E.
  - destruct (owned s || _); [|by injection E as <-]. apply bind_inv in E as (b & E & [= <-]).
    unfold handle in E. destruct (strong (block s)) eqn:Hn; [done|]. injection E as <-.
    split; cbn; [lia|by rewrite H2|split; [lia|intros _; apply H3; lia]].
  - destruct (Nat.ltb_spec 0 (handles s)); [|by injection E as <-]. injection E as <-.
    split; cbn; [lia|by rewrite H2|split; [lia|intros _; apply H3; lia]].
  - destruct (Nat.ltb_spec 0 (handles s)) as [Hh|]; [|by injection E as <-]. injection E as <-.
    destruct (drop_executor_counted (block s) ((if owned s then 1 else 0) + Nat.pred (handles s)) (handles s))
      as (E1 & E2 & E3); [lia|done|done|]. unfold drop_handle. split; cbn; [done|lia|by rewrite E1].
  - destruct (owned s) eqn:Ho; [|by injection E as <-]. injection E as <-.
    destruct (drop_executor_counted (block s) (handles s) (handles s)) as (E1 & E2 & E3); [lia|done|done|].
    split; cbn; [done|done|by rewrite E1].
  - apply (on_block_counted (rc_wake_by_ref index) s s'); [|done..]. intros b b' Eb.
    unfold rc_wake_by_ref in Eb. destruct (executor b); [|done]. by injection Eb as <-.
  - destruct (0 <? handles s)%nat; [|by injection E as <-].
    refine (on_block_counted _ s s' _ E Hs). by apply with_executor_keeps.
  - destruct (0 <? handles s)%nat; [|by injection E as <-].
    refine (on_block_counted _ s s' _ E Hs). by apply with_executor_keeps.
Qed.

Lemma run_counted os s : for_each op os start = Val s -> counted s.
Proof.
  intros E. refine (for_each_preserves _ counted _ _ _ _ E start_counted).
  intros o s1 s2 E1 H1. by apply (op_counted o s1).
Qed.
End Life.
Arguments Op Fut : clear implicits.

(** [send_executor.rs]: [SendExecutor::new], [handle] and [SendWaker]. *)
Module SendLife.
Definition new_block {Fut} : Block Fut := new_block.
Definition handle {Fut} : Block Fut -> outcome (Block Fut) := handle.
Definition wake {Fut} : nat -> Block Fut -> outcome (Block Fut) := rc_wake_by_ref.
End SendLife.
Arguments State Fut : clear implicits.

(** C28: the life of an executor.  After any operations on the executor, its handles
    and the wakers of its tasks, the executor exists as long as the reference of
    [new] or a handle does, and the counts are those of the references there are.
    So [handle] never fails, and a spawn or a poll on a handle always finds the
    executor; a wake-up finds it as well, but once the last reference is gone the
    waker of any task, in whoever's hands it is, panics. *)
Theorem executor_lifetime {Fut} poll_fut reentry (os : list (Op Fut)) s :
  for_each (op poll_fut reentry) os start = Val s ->
  counted s /\
  (executor (block s) = None <-> owned s = false /\ handles s = 0%nat) /\
  (owned s = true \/ (0 < handles s)%nat -> exists b, handle (block s) = Val b) /\
  (forall f, (0 < handles s)%nat ->
     op poll_fut reentry s (SpawnTask f) = on_block (with_executor (spawn reentry f)) s /\
     exists e, executor (block s) = Some e) /\
  (forall i, executor (block s) = None -> op poll_fut reentry s (WakeTask i) = Stop UnwrapFailed) /\
  (forall i e, executor (block s) = Some e -> exists s', op poll_fut reentry s (WakeTask i) = Val s' /\
     executor (block s') = Some (wake i e)).
Proof.
  intros E. pose proof (run_counted _ _ _ _ E) as Hc. split; [exact Hc|]. destruct Hc as [H1 H2 H3].
  assert (Ha : executor (block s) = None <-> owned s = false /\ handles s = 0%nat).
  { destruct (executor (block s)) as [e|].
    - split; [done|]. intros [Ho Hh]. rewrite Ho, Hh in H1. assert (0 < strong (block s))%nat by (by apply H3). cbn in H1. lia.
    - split; [|done]. intros _. assert (strong (block s) = 0%nat).
      { destruct (strong (block s)); [done|]. destruct H3 as [_ H3]. destruct H3; [lia|done]. }
      destruct (owned s); cbn in H1; [lia|split; [done|lia]]. }
  split; [exact Ha|]. split; [|split; [|split]].
  - intros Ho. unfold handle. rewrite H1. destruct (owned s); cbn; [by eexists|].
    destruct Ho as [Ho|Ho]; [done|]. destruct (handles s); [lia|by eexists].
  - intros f Hh. split; [cbn [op]; by rewrite (proj2 (Nat.ltb_lt _ _) Hh)|].
    destruct (executor (block s)) as [e|]; [by exists e|]. destruct (proj1 Ha eq_refl). lia.
  - intros i Hn. cbn [op]. unfold on_block, rc_wake_by_ref. by rewrite Hn.
  - intros i e He. cbn [op]. unfold on_block, rc_wake_by_ref. rewrite He. by eexists.
Qed.

(** The references of a hart: [setup_hart_state_and_metadata] drops the one of
    [new] and keeps a handle; if that went, a waker of a task would panic. *)
Lemma executor_lifetime_witness :
  exists s, for_each (op countdown BorrowConflict) [MakeHandle; DropOwner; SpawnTask (2%nat, false); PollHandle 7;
                                    CloneHandle; DropHandle; DropHandle] start = Val s /\
    op countdown BorrowConflict s (WakeTask 0) = Stop UnwrapFailed.
Proof.
  eexists. split; [vm_compute; reflexivity|].
  refine (proj1 (proj2 (proj2 (proj2 (proj2 (executor_lifetime countdown BorrowConflict
    [MakeHandle; DropOwner; SpawnTask (2%nat, false); PollHandle 7; CloneHandle; DropHandle; DropHandle] _ _))))) _ _);
    [vm_compute; reflexivity|reflexivity].
Defined.

(** A hart's executor outlives its set-up. *)
Example hart_keeps_executor :
  exists s : State (nat * bool), for_each (op countdown BorrowConflict) [MakeHandle; DropOwner] start = Val s /\
    strong (block s) = 1%nat /\ executor (block s) = Some new.
Proof. eexists. split; [vm_compute; reflexivity|]. by split. Qed.
