(* ===== verification/HartLoop.v ===== *)
(** * A hart: the root loop, its future and the executor it awaits

    [main] of [kernel_main/src/main.rs] gives the future of the hart,
    [setup_hart] or [async_main], to [run_neverending_future]; both futures end in
    [common_hart_code], which spawns a task on the hart's executor and awaits the
    executor's handle.  This file puts the three together: the loop of
    [Executor.RootLoop], the future, and the executor of [Executor.LocalExecutor],
    whose context is the waker of the loop's flag.

    The compiled [async fn] is the data type [HartFuture], by the point it is
    suspended at; the set-up and the page tables before the spawn are in [Process]
    and [Boot] and touch neither loop nor executor.  Between two operations of the
    loop anything may wake a task or spawn one through the handle in
    [HartLocals]. *)

From S2P Require Import Prelude Executor.

(** Not polled yet; suspended in [handle.await]; in the [loop {}] behind it, in
    which its poll never returns. *)
Inductive HartFuture (Fut : Type) := NotStarted (task : Fut) | Awaiting | LoopForever.
Arguments NotStarted {Fut} task.
Arguments Awaiting {Fut}.
Arguments LoopForever {Fut}.

Record HartLoop (Fut : Type) := mkHartLoop {
  pc : RootLoop.Pc;
  ready_flag : bool;
  future : HartFuture Fut;
  executor : Executor Fut
}.
Arguments mkHartLoop {Fut}.
Arguments pc {Fut}.
Arguments ready_flag {Fut}.
Arguments future {Fut}.
Arguments executor {Fut}.

Inductive Event (Fut : Type) :=
  | LoopStep              (* one operation of [run_neverending_future] *)
  | WakeTask (i : nat)    (* the waker of slot [i] of the executor *)
  | SpawnTask (f : Fut).  (* [HartLocals::current().local_executor...spawn(f)] *)
Arguments LoopStep {Fut}.
Arguments WakeTask {Fut} i.
Arguments SpawnTask {Fut} f.

(** The waker of the context: the one of the loop's flag. *)
Definition flag_waker : nat := 0.

Section Loop.
Context {Fut : Type} (poll_fut : Fut -> nat -> list (Effect Fut) * option Fut).

(** [handle.await; loop {}] *)
Definition await_handle (s : Executor Fut) : outcome (HartFuture Fut * Executor Fut) :=
  '(r, s) ← LocalExecutor.handle_poll poll_fut flag_waker s;
  Val (match r with Ready => LoopForever | Pending => Awaiting end, s).

(** One poll of [common_hart_code]. *)
Definition common_hart_code (f : HartFuture Fut) (s : Executor Fut)
  : outcome (HartFuture Fut * Executor Fut) :=
  match f with
  | NotStarted task => s ← spawn BorrowConflict task s; await_handle s
  | Awaiting => await_handle s
  | LoopForever => Val (LoopForever, s)
  end.

(** The wake-ups of the context set the flag. *)
Definition settle (s : HartLoop Fut) : HartLoop Fut :=
  let e := executor s in
  mkHartLoop (pc s) (ready_flag s || bool_decide (flag_waker ∈ woken e)) (future s)
    (mkExecutor (tasks e) (wakers e) (wake_queue e) (task_queue e) (queue_borrowed e) []).

(** The poll that does not return leaves the loop where it is. *)
Definition poll_root (s : HartLoop Fut) : outcome (HartLoop Fut) :=
  '(f, e) ← common_hart_code (future s) (executor s);
  Val (settle (mkHartLoop (match f with LoopForever => RootLoop.PollFuture | _ => RootLoop.Swap end)
                 (ready_flag s) f e)).

Definition step (s : HartLoop Fut) (e : Event Fut) : outcome (HartLoop Fut) :=
  match e with
  | LoopStep =>
      match pc s with
      | RootLoop.PollFuture => poll_root s
      | _ => let '(p, b) := RootLoop.run_neverending_future (pc s, ready_flag s) in
             Val (mkHartLoop p b (future s) (executor s))
      end
  | WakeTask i => Val (settle (mkHartLoop (pc s) (ready_flag s) (future s) (wake i (executor s))))
  | SpawnTask f =>
      x ← spawn BorrowConflict f (executor s);
      Val (mkHartLoop (pc s) (ready_flag s) (future s) x)
  end.

Definition run (s : HartLoop Fut) (es : list (Event Fut)) : outcome (HartLoop Fut) := for_each step es s.

(** [main] with a hart whose future will spawn [task]. *)
Definition start (task : Fut) : HartLoop Fut :=
  mkHartLoop RootLoop.start.1 RootLoop.start.2 (NotStarted task) new.

(** Is the executor polled by this event? *)
Definition polling (s : HartLoop Fut) (e : Event Fut) : bool :=
  match e, pc s, future s with
  | LoopStep, RootLoop.PollFuture, NotStarted _ => true
  | LoopStep, RootLoop.PollFuture, Awaiting => true
  | _, _, _ => false
  end.

Fixpoint polls (s : HartLoop Fut) (es : list (Event Fut)) : Z :=
  match es with
  | [] => 0
  | e :: es => Z.b2z (polling s e) + match step s e with Val s' => polls s' es | Stop _ => 0 end
  end.

Definition loop_steps : list (Event Fut) -> Z :=
  countb (fun e => match e with LoopStep => true | _ => false end).

(** ** The invariant *)

Definition unfinished (s : Executor Fut) : Prop := exists i f, tasks s !! i = Some (Some f).

(** The loop will poll again: it is about to, or its flag is set. *)
Definition due (s : HartLoop Fut) : Prop := pc s = RootLoop.PollFuture \/ ready_flag s = true.

Record hart_inv (s : HartLoop Fut) : Prop := {
  hi_borrowed : queue_borrowed (executor s) = false;
  hi_woken : woken (executor s) = [];
  hi_future : match future s with
              | NotStarted _ => due s
              | Awaiting => due s \/ flag_waker ∈ wakers (executor s) /\ wake_queue (executor s) = []
              | LoopForever => pc s = RootLoop.PollFuture /\ unfinished (executor s)
              end
}.

Lemma start_inv task : hart_inv (start task).
Proof. split; [done|done|by right]. Qed.

Lemma settle_inv s :
  queue_borrowed (executor s) = false ->
  match future s with
  | NotStarted _ => due s
  | Awaiting => due s \/ registered flag_waker (executor s)
  | LoopForever => pc s = RootLoop.PollFuture /\ unfinished (executor s)
  end -> hart_inv (settle s).
Proof.
  intros Hb Hf. split; [exact Hb|done|]. unfold settle, due in *. cbn.
  destruct (future s); [|destruct Hf as [Hf|[Hf|Hf]]|done].
  - destruct Hf as [->| ->]; [by left|by right].
  - left. destruct Hf as [->| ->]; [by left|by right].
  - by right.
  - left. right. rewrite bool_decide_eq_true_2 by done. apply orb_true_r.
Qed.

(** What an answer of the handle says. *)
Lemma await_handle_inv s f s' :
  await_handle s = Val (f, s') ->
  queue_borrowed s' = false /\ task_queue s' = [] /\
  (f = Awaiting /\ registered flag_waker s' \/ f = LoopForever /\ unfinished s').
Proof.
  unfold await_handle. intros E. apply bind_inv in E as ([r x] & E & [= <- <-]).
  destruct (handle_poll_registered _ _ _ _ _ _ E) as (Ht & Hb & Hr). do 2 (split; [done|]).
  destruct r; [|by left]. right. split; [done|].
  apply handle_poll_inv in E as (s1 & s2 & s4 & _ & _ & E4 & [(Hn & -> & Ed)|(_ & _ & ?)]); [|done].
  rewrite Hn in E4. injection E4 as <-. unfold poll in Ed. cbn in Ed.
  destruct (check_if_done _) eqn:Hd; [done|]. by apply check_if_done_false in Hd.
Qed.

Lemma common_hart_code_inv f s f' s' :
  common_hart_code f s = Val (f', s') -> f <> LoopForever ->
  queue_borrowed s' = false /\ task_queue s' = [] /\
  (f' = Awaiting /\ registered flag_waker s' \/ f' = LoopForever /\ unfinished s').
Proof.
  destruct f; intros E Hf; [|by apply (await_handle_inv s)|done].
  apply bind_inv in E as (x & _ & E). by apply (await_handle_inv x).
Qed.

Lemma poll_root_forever s : hart_inv s -> future s = LoopForever -> poll_root s = Val s.
Proof.
  intros [Hb Hw Hf] Hl. unfold poll_root, settle. rewrite Hl in *. destruct Hf as [Hp _].
  cbn. rewrite Hw. destruct s as [p b f [t w q tq qb wo]]. cbn in *. subst.
  by rewrite bool_decide_eq_false_2, orb_false_r by apply not_elem_of_nil.
Qed.

Lemma step_inv s e s' : hart_inv s -> step s e = Val s' -> hart_inv s'.
Proof.
  intros Hs. destruct e as [|i|f]; cbn [step].
  - destruct (pc s) eqn:Hp.
    + intros [= <-]. destruct Hs as [Hb Hw Hf]. split; [done|done|]. cbn. unfold due in *. rewrite Hp in Hf. cbn.
      destruct (future s), (ready_flag s); intuition congruence.
    + intros E. destruct (future s) eqn:Hl; [..|rewrite poll_root_forever in E by done; by injection E as <-];
        unfold poll_root in E; apply bind_inv in E as ([f x] & E & [= <-]); rewrite Hl in E;
        (destruct (common_hart_code_inv _ _ _ _ E) as (Hb' & _ & [[-> Hr]|[-> Hu]]); [done|..]);
        apply settle_inv; cbn; auto.
    + intros [= <-]. destruct Hs as [Hb Hw Hf]. split; [done|done|]. cbn. unfold due in *. rewrite Hp in Hf. cbn.
      destruct (future s); intuition congruence.
  - intros [= <-]. destruct Hs as [Hb Hw Hf]. apply settle_inv; [done|]. cbn. unfold due in *. cbn.
    destruct (future s); [done| |done]. destruct Hf as [Hf|[Hf _]]; [by left|right; right].
    cbn. apply elem_of_app. by right.
  - intros E. apply bind_inv in E as (x & E & [= <-]). destruct Hs as [Hb Hw Hf].
    unfold spawn in E. rewrite Hb in E. injection E as <-. by split.
Qed.

Lemma run_inv s es s' : hart_inv s -> run s es = Val s' -> hart_inv s'.
Proof.
  intros Hs E. refine (for_each_preserves _ hart_inv _ _ _ _ E Hs). intros e s1 s2 E1 H1.
  by apply (step_inv s1 e).
Qed.

(** The operations of the loop up to the poll. *)
Definition rank (p : RootLoop.Pc) : Z :=
  match p with RootLoop.PollFuture => 1 | RootLoop.Swap => 2 | RootLoop.Idle => 3 end.

Lemma due_step s e s1 :
  step s e = Val s1 -> polling s e = false -> future s <> LoopForever -> due s ->
  future s1 = future s /\ due s1 /\
  rank (pc s1) = rank (pc s) - match e with LoopStep => 1 | _ => 0 end.
Proof.
  unfold due. intros E Hp Hl Hd. destruct e as [|i|f]; cbn [step polling] in *.
  - destruct (pc s) eqn:Hpc; [|by destruct (future s)|]; (destruct Hd as [?|Hd]; [done|]);
      rewrite Hd in E; injection E as <-; cbn; auto.
  - injection E as <-. cbn. rewrite Z.sub_0_r. split_and!; [done| |done].
    destruct Hd as [?| ->]; [by left|by right].
  - apply bind_inv in E as (x & _ & [= <-]). cbn. by rewrite Z.sub_0_r.
Qed.

Lemma hart_polls_nonneg s es : 0 <= polls s es.
Proof.
  revert s. induction es as [|e es IH]; intros s; cbn [polls]; [lia|].
  destruct (step s e) as [s'|]; [specialize (IH s')|]; destruct (polling s e); cbn; lia.
Qed.

(** Whatever happens, it takes the loop three operations to poll when it is due. *)
Lemma due_polls es s s' :
  future s <> LoopForever -> due s -> run s es = Val s' -> rank (pc s) <= loop_steps es -> 1 <= polls s es.
Proof.
  unfold loop_steps. revert s. induction es as [|e es IH]; intros s Hl Hd E Hn.
  { cbn in Hn. destruct (pc s); cbn in Hn; lia. }
  cbn [polls]. apply bind_inv in E as (s1 & E1 & E). rewrite E1. rewrite countb_cons in Hn.
  destruct (polling s e) eqn:Hp; [pose proof (hart_polls_nonneg s1 es); cbn; lia|]. cbn [Z.b2z Z.add].
  destruct (due_step s e s1 E1 Hp Hl Hd) as (Hf & Hd1 & Hr).
  apply (IH s1); [by rewrite Hf|done|done|]. rewrite Hr. destruct e; cbn in Hn; lia.
Qed.

(** ** Tasks that spawn nothing when they are polled *)

Section Quiet.
Hypothesis quiet : forall f i, spawns_of (poll_fut f i).1 = [].

Lemma step_total s e : hart_inv s -> exists s', step s e = Val s'.
Proof.
  intros [Hb _ _].
  assert (Ha : forall x, queue_borrowed x = false -> exists r, await_handle x = Val r).
  { intros x Hx. destruct (handle_poll_quiet poll_fut BorrowConflict quiet flag_waker x Hx) as (r & x' & E).
    unfold await_handle, LocalExecutor.handle_poll. rewrite E. by eexists. }
  destruct e as [|i|f]; cbn [step]; [|by eexists|unfold spawn; rewrite Hb; by eexists].
  destruct (pc s); [by eexists| |by eexists]. unfold poll_root.
  assert (Hc : exists r, common_hart_code (future s) (executor s) = Val r).
  { destruct (future s) as [task| |]; cbn [common_hart_code]; [|by apply Ha|by eexists].
    unfold spawn. rewrite Hb. by apply Ha. }
  destruct Hc as [[f x] ->]. by eexists.
Qed.

Lemma run_total es s : hart_inv s -> exists s', run s es = Val s'.
Proof.
  revert s. induction es as [|e es IH]; intros s Hs; [by eexists|].
  destruct (step_total s e Hs) as [s1 E]. destruct (IH s1) as [s' E']; [by apply (step_inv s e)|].
  exists s'. cbn [run for_each]. by rewrite E.
Qed.
End Quiet.

(** In the endless loop. *)
Lemma forever_step s e :
  hart_inv s -> future s = LoopForever ->
  exists s', step s e = Val s' /\ future s' = LoopForever /\ tasks (executor s') = tasks (executor s) /\
    polling s e = false.
Proof.
  intros Hs Hl. pose proof Hs as [Hb _ Hf]. rewrite Hl in Hf. destruct Hf as [Hp _].
  destruct e as [|i|f]; cbn [step polling].
  - rewrite Hp, Hl. exists s. by rewrite poll_root_forever.
  - by eexists.
  - unfold spawn. rewrite Hb. by eexists.
Qed.

Lemma forever_run es : forall s,
  hart_inv s -> future s = LoopForever ->
  exists s', run s es = Val s' /\ future s' = LoopForever /\ tasks (executor s') = tasks (executor s) /\
    polls s es = 0.
Proof.
  induction es as [|e es IH]; intros s Hs Hl; [by exists s|].
  destruct (forever_step s e Hs Hl) as (s1 & E & Hl1 & Ht & Hp).
  destruct (IH s1) as (s' & E' & Hl' & Ht' & Hp'); [by apply (step_inv s e)|done|].
  exists s'. cbn [run for_each polls]. rewrite E, Hp. by rewrite <- Ht.
Qed.

(** ** Tasks that wake themselves *)

Section Busy.
Hypothesis busy : forall f i, (poll_fut f i).2 <> None -> i ∈ wakes_of (poll_fut f i).1.

(** Every task that is left, but for some slots, has been woken. *)
Definition woken_but (q : list nat) (s : Executor Fut) : Prop :=
  forall i f, tasks s !! i = Some (Some f) -> i ∈ wake_queue s \/ i ∈ q.

Lemma poll_future_woken i q s s' :
  poll_future poll_fut BorrowConflict s i = Val s' -> woken_but (i :: q) s -> woken_but q s'.
Proof.
  intros E Hs. destruct (poll_future_cases poll_fut BorrowConflict s i) as [[E' _]|(es & r & Hp & E' & _)];
    rewrite E' in E; [done|].
  injection E as <-. intros j g. cbn [set_tasks after_effects tasks wake_queue]. rewrite elem_of_app.
  destruct (decide (j = i)) as [->|Hne].
  - intros Hg. left. right. unfold slot_poll in Hp.
    destruct (tasks s !! i) as [[f|]|] eqn:Hi; [|injection Hp as -> ->..].
    + rewrite list_lookup_insert_eq in Hg by (by apply lookup_lt_Some in Hi).
      specialize (busy f i). rewrite <- Hp in busy. apply busy. cbn. congruence.
    + rewrite list_lookup_insert_eq in Hg by (by apply lookup_lt_Some in Hi). done.
    + apply lookup_ge_None in Hi. rewrite list_insert_ge in Hg by done.
      apply lookup_lt_Some in Hg. lia.
  - rewrite list_lookup_insert_ne by done. intros Hg.
    destruct (Hs j g Hg) as [?|[?|?]%elem_of_cons]; [by left; left|done|by right].
Qed.

Lemma poll_futures_woken q s s' :
  for_each (poll_future poll_fut BorrowConflict) q s = Val s' -> woken_but q s -> woken_but [] s'.
Proof.
  revert s. induction q as [|i q IH]; intros s E Hs; [by injection E as <-|].
  apply bind_inv in E as (s1 & E1 & E). apply (IH s1 E). by apply (poll_future_woken i q s).
Qed.

Lemma poll_all_woken s s' : poll_all poll_fut BorrowConflict s = Val s' -> woken_but [] s'.
Proof.
  intros E. apply (poll_futures_woken _ _ _ E). intros i f Hi. right.
  apply elem_of_seq. apply lookup_lt_Some in Hi. lia.
Qed.

Lemma push_task_woken f s r :
  push_task poll_fut BorrowConflict s f = Val r -> woken_but [] s -> woken_but [] r.2.
Proof.
  rewrite push_task_eq. intros E Hs. apply bind_inv in E as (s' & E & [= <-]). cbn [snd].
  apply (poll_future_woken _ _ _ _ E). intros j g. cbn [set_tasks tasks wake_queue].
  destruct (placed_lookup (tasks s) f) as [_ Hj]. destruct (decide (j = free_slot (tasks s))) as [->|Hne].
  - intros _. right. by left.
  - rewrite Hj by done. intros Hg. destruct (Hs j g Hg) as [?|?%elem_of_nil]; [by left|done].
Qed.

Lemma drain_queue_woken s s' :
  drain_queue poll_fut BorrowConflict s = Val s' -> woken_but [] s -> woken_but [] s'.
Proof.
  unfold drain_queue. intros E Hs. destruct (queue_borrowed s); [done|].
  apply bind_inv in E as (s1 & E & [= <-]).
  refine (for_each_preserves _ (woken_but []) _ _ _ _ E Hs).
  intros f s2 s3 E2 H2. apply bind_inv in E2 as (r & E2 & [= <-]). by apply (push_task_woken f s2).
Qed.

Lemma await_handle_woken s f s' :
  await_handle s = Val (f, s') -> f = Awaiting /\ woken_but [] s'.
Proof.
  unfold await_handle. intros E. apply bind_inv in E as ([r x] & E & [= <- <-]).
  apply handle_poll_inv in E as (s1 & s2 & s4 & E1 & E2 & E4 & Hr).
  pose proof (drain_queue_woken _ _ E2 (poll_all_woken _ _ E1)) as H2.
  assert (H4 : woken_but [] s4).
  { apply (poll_futures_woken _ _ _ E4). intros i g Hg. right.
    by destruct (H2 i g Hg) as [?|?%elem_of_nil]. }
  destruct Hr as [(Hn & -> & ->)|(_ & E5 & ->)]; [|split; [done|by apply (drain_queue_woken s4)]].
  split; [|done]. unfold poll. cbn. destruct (check_if_done _) eqn:Hd; [done|].
  apply check_if_done_false in Hd as (i & g & Hg). cbn in Hg.
  destruct (H2 i g Hg) as [Hi|Hi]; rewrite ?Hn in Hi; by apply elem_of_nil in Hi.
Qed.

Lemma step_woken s e s' :
  step s e = Val s' -> future s <> LoopForever /\ woken_but [] (executor s) ->
  future s' <> LoopForever /\ woken_but [] (executor s').
Proof.
  intros E [Hl Hs]. destruct e as [|i|f]; cbn [step] in E.
  - destruct (pc s); [by injection E as <-| |by injection E as <-]. unfold poll_root in E.
    apply bind_inv in E as ([f x] & E & [= <-]). cbn.
    enough (exists y, await_handle y = Val (f, x)) as [y H] by (by apply await_handle_woken in H as [-> H]).
    destruct (future s) as [task| |]; [|by eexists|done]. apply bind_inv in E as (y & _ & E). by exists y.
  - injection E as <-. split; [done|]. intros j g Hg. cbn in *. rewrite elem_of_app.
    destruct (Hs j g Hg) as [?|?%elem_of_nil]; [by left; left|done].
  - apply bind_inv in E as (x & E & [= <-]). split; [done|]. unfold spawn in E.
    destruct (queue_borrowed (executor s)); [done|]. by injection E as <-.
Qed.

Lemma run_woken s es s' :
  run s es = Val s' -> future s <> LoopForever /\ woken_but [] (executor s) ->
  future s' <> LoopForever /\ woken_but [] (executor s').
Proof.
  intros E Hs.
  refine (for_each_preserves _ (fun s => future s <> LoopForever /\ woken_but [] (executor s)) _ _ _ _ E Hs).
  intros e s1 s2 E1 H1. by apply (step_woken s1 e).
Qed.
End Busy.
End Loop.

(** ** Properties *)

(** C9: no wake-up reaches a hart in vain.  With tasks that spawn nothing while
    they are polled, nothing stops the loop; and whenever the hart awaits its
    executor, however it got there, a wake-up of any task makes the loop poll the
    executor within three of its operations, whatever else happens meanwhile. *)
Theorem hart_polls_after_wake {Fut} poll_fut (task : Fut) es :
  (forall f i, spawns_of (poll_fut f i).1 = []) ->
  exists s, run poll_fut (start task) es = Val s /\
    (future s = Awaiting -> forall i es', exists s', run poll_fut s (WakeTask i :: es') = Val s' /\
       (3 <= loop_steps es' -> 1 <= polls poll_fut s (WakeTask i :: es'))).
Proof.
  intros Hq. destruct (run_total poll_fut Hq es (start task) (start_inv task)) as [s E].
  exists s. split; [exact E|]. intros Ha i es'. pose proof (run_inv poll_fut _ _ _ (start_inv task) E) as Hs.
  destruct (run_total poll_fut Hq (WakeTask i :: es') s Hs) as [s' E']. exists s'. split; [exact E'|].
  intros Hn. cbn [polls step polling Z.b2z Z.add]. apply bind_inv in E' as (s1 & [= <-] & E').
  apply (due_polls poll_fut es' _ s'); [by cbn; rewrite Ha| |exact E'|cbn; destruct (pc s); cbn; lia].
  destruct Hs as [_ _ Hf]. rewrite Ha in Hf. unfold due in *. cbn. destruct Hf as [[Hf|Hf]|[Hf _]].
  - by left.
  - right. by rewrite Hf.
  - right. rewrite bool_decide_eq_true_2; [apply orb_true_r|]. apply elem_of_app. by right.
Qed.

(** A task that is suspended as often as the list is long, and wakes itself
    where the list says so. *)
Definition sample_task (f : list bool) (index : nat) : list (Effect (list bool)) * option (list bool) :=
  match f with
  | [] => ([], None)
  | b :: f => (if b then [Wake index] else [], Some f)
  end.

Lemma sample_task_quiet f i : spawns_of (sample_task f i).1 = [].
Proof. by destruct f as [|[] f]. Qed.

Lemma hart_polls_after_wake_witness :
  exists s, run sample_task (start [true; false]) [LoopStep; LoopStep] = Val s /\ future s = Awaiting /\
    1 <= polls sample_task s [WakeTask 0; LoopStep; LoopStep; LoopStep].
Proof.
  destruct (hart_polls_after_wake sample_task [true; false] [LoopStep; LoopStep] sample_task_quiet)
    as (s & E & H). exists s. split; [exact E|]. vm_compute in E. injection E as <-. split; [done|].
  destruct (H eq_refl 0%nat [LoopStep; LoopStep; LoopStep]) as (s' & _ & H'). apply H'. cbn. lia.
Defined.

(** C10: a hart whose tasks have woken themselves whenever they suspend never
    hangs: its future is never in the endless loop behind [handle.await], and as
    long as a task is unfinished the loop polls the executor again within three of
    its operations. *)
Theorem hart_runs_on {Fut} poll_fut (task : Fut) es s :
  (forall f i, (poll_fut f i).2 <> None -> i ∈ wakes_of (poll_fut f i).1) ->
  run poll_fut (start task) es = Val s ->
  future s <> LoopForever /\
  (unfinished (executor s) -> forall es' s', run poll_fut s es' = Val s' -> 3 <= loop_steps es' ->
     1 <= polls poll_fut s es').
Proof.
  intros Hb E.
  destruct (run_woken poll_fut Hb _ _ _ E) as [Hl Hw]; [by split|].
  split; [exact Hl|]. intros (i & f & Hi) es' s' E' Hn.
  apply (due_polls poll_fut es' s s' Hl); [|exact E'|destruct (pc s); cbn; lia].
  destruct (run_inv poll_fut _ _ _ (start_inv task) E) as [_ _ Hf].
  destruct (Hw i f Hi) as [Hq|Hq]; [|by apply elem_of_nil in Hq].
  destruct (future s); [done| |done]. destruct Hf as [Hf|[_ Hf]]; [done|].
  rewrite Hf in Hq. by apply elem_of_nil in Hq.
Qed.

(** A task that gives way [n] times. *)
Definition yielding (n : nat) (index : nat) : list (Effect nat) * option nat :=
  match n with O => ([], None) | S n => ([Wake index], Some n) end.

Lemma hart_runs_on_witness :
  exists s, run yielding (start 9%nat) [LoopStep; LoopStep] = Val s /\ future s <> LoopForever /\
    1 <= polls yielding s [LoopStep; LoopStep; LoopStep].
Proof.
  eexists. split; [vm_compute; reflexivity|].
  match goal with |- future ?s <> _ /\ _ =>
    destruct (hart_runs_on yielding 9%nat [LoopStep; LoopStep] s) as [H1 H2] end.
  - intros [|n] i; [done|]. intros _. cbn. by left.
  - vm_compute. reflexivity.
  - split; [exact H1|]. eapply H2; [by exists 0%nat, 7%nat|vm_compute; reflexivity|by vm_compute].
Defined.

(** C11: a hart that awaits a task hangs.  The executor answers [Ready] when a
    task is unfinished and none has been woken, so the await ends and the hart is
    in [loop {}]: once it is there, with a task unfinished, no wake-up, no new
    task and no number of operations makes it poll again.  A task that suspends
    on its first poll without having been woken gets there with that poll. *)
Theorem hart_hangs {Fut} poll_fut (task : Fut) :
  (forall es s, run poll_fut (start task) es = Val s -> future s = LoopForever ->
     unfinished (executor s) /\
     forall es', exists s', run poll_fut s es' = Val s' /\ future s' = LoopForever /\
       tasks (executor s') = tasks (executor s) /\ polls poll_fut s es' = 0) /\
  (forall f, poll_fut task 0%nat = ([], Some f) ->
     exists s, run poll_fut (start task) [LoopStep; LoopStep] = Val s /\ future s = LoopForever /\
       tasks (executor s) = [Some f]).
Proof.
  split.
  - intros es s E Hl. pose proof (run_inv poll_fut _ _ _ (start_inv task) E) as Hs.
    split; [|intros es'; by apply forever_run]. destruct Hs as [_ _ Hf]. rewrite Hl in Hf. by destruct Hf.
  - intros f Hf. eexists. cbn [run for_each step start pc RootLoop.start fst snd ready_flag].
    cbn [RootLoop.run_neverending_future fst snd mbind outcome_bind pc future executor].
    unfold poll_root, common_hart_code, await_handle, LocalExecutor.handle_poll, handle_poll, spawn. cbn.
    unfold drain_queue, push_task, poll_future. cbn. rewrite Hf. cbn. by split.
Qed.

(** A loop that idles with its flag clear. *)
Lemma idle_run {Fut} (poll_fut : Fut -> nat -> list (Effect Fut) * option Fut) n s :
  ready_flag s = false -> pc s <> RootLoop.PollFuture ->
  exists s', run poll_fut s (replicate n LoopStep) = Val s' /\
    polls poll_fut s (replicate n LoopStep) = 0 /\ executor s' = executor s.
Proof.
  revert s. induction n as [|n IH]; intros [p b f e] Hr Hp; [by eexists|]. cbn in Hr, Hp. subst b.
  destruct p; [|done|]; cbn [replicate run for_each polls polling step pc ready_flag
    RootLoop.run_neverending_future fst snd mbind outcome_bind future executor Z.b2z Z.add];
    by apply IH.
Qed.

(** Spawning does not wake the executor.  On a hart that idles in its await, a
    task spawned through the handle in [HartLocals] stays in the queue, unpolled,
    for as many operations of the loop as one likes, until something wakes an
    older task. *)
Theorem spawned_task_waits {Fut} poll_fut (task : Fut) es s f n :
  run poll_fut (start task) es = Val s -> future s = Awaiting -> ready_flag s = false ->
  pc s <> RootLoop.PollFuture ->
  exists s', run poll_fut s (SpawnTask f :: replicate n LoopStep) = Val s' /\
    polls poll_fut s (SpawnTask f :: replicate n LoopStep) = 0 /\
    task_queue (executor s') = task_queue (executor s) ++ [f] /\
    tasks (executor s') = tasks (executor s).
Proof.
  intros E Ha Hr Hp. destruct (run_inv poll_fut _ _ _ (start_inv task) E) as [Hb _ _].
  cbn [run for_each polls polling step]. unfold spawn. rewrite Hb. cbn [mbind outcome_bind Z.b2z Z.add].
  match goal with |- context [polls poll_fut ?s _] =>
    destruct (idle_run poll_fut n s Hr Hp) as (s' & E' & Hn & He) end.
  exists s'. split; [exact E'|]. split; [exact Hn|]. by rewrite He.
Qed.

Lemma spawned_task_waits_witness :
  exists s s', run sample_task (start [true; false]) [LoopStep; LoopStep; LoopStep] = Val s /\
    run sample_task s (SpawnTask [] :: replicate 50 LoopStep) = Val s' /\ task_queue (executor s') = [[]].
Proof.
  eexists. destruct (spawned_task_waits sample_task [true; false] [LoopStep; LoopStep; LoopStep]
    (mkHartLoop RootLoop.Idle false Awaiting (mkExecutor [Some []] [0%nat] [] [] false [])) [] 50)
    as (s' & E & _ & Ht & _); [vm_compute; reflexivity|reflexivity|reflexivity|discriminate|].
  exists s'. split; [vm_compute; reflexivity|]. split; [exact E|exact Ht].
Defined.
