(* ===== verification/SendConcurrent.v ===== *)
(** * kernel_executor: waking the shared executor from other harts

    [SendExecutor] of [kernel_executor/src/send_executor.rs] is polled by one hart
    while others wake its tasks.  [Executor] runs the poll of its handle in one
    piece; here it is cut where the code takes a lock, and so is the wake-up of a
    [SendWaker], and the pieces of all harts interleave in any order.

    The tasks are kept out: a poll of a slot is one step, and a task wakes others
    by a wake-up that anyone may begin at any time.  [unseen] are the slots whose
    wake-up has begun and that have not been polled since; it is what the theorem
    is about and nothing reads it.  The context of the poll is a flag, as that of
    [run_neverending_future] is. *)

From S2P Require Import Prelude.
From stdpp Require Import gmap.

(** Where the poll of the handle is: not polled, the slot [poll_all] is at, the
    drain of the spawned tasks, [wakers.lock().push], the drain of the wake queue,
    the woken slots that are left. *)
Inductive PollPc :=
  | Waiting
  | PollAll (slot : nat)
  | DrainSpawned
  | Register
  | DrainWoken
  | PollWoken (q : list nat).

(** [SendWaker::wake]: before the push of the slot, before the drain of the
    wakers, returned. *)
Inductive WakerPc := PushSlot (i : nat) | WakeContext | Done.

Record State := mkState {
  slots : nat;
  wake_queue : list nat;
  registered : bool;         (* the context is in [wakers] *)
  flag : bool;               (* the context has been woken *)
  poller : PollPc;
  wakers : list WakerPc;
  unseen : gset nat
}.

Definition start (slots : nat) : State := mkState slots [] false true Waiting [] ∅.

Definition set_poller (p : PollPc) (s : State) : State :=
  mkState (slots s) (wake_queue s) (registered s) (flag s) p (wakers s) (unseen s).
Definition see (i : nat) (s : State) : State :=
  mkState (slots s) (wake_queue s) (registered s) (flag s) (poller s) (wakers s) (unseen s ∖ {[i]}).

(** One step of the polling hart; [spawned] tasks are in the queue when it is
    drained, each of which may take a slot more.  The second drain is skipped when
    no slot was woken, which is to drain nothing. *)
Definition poll_step (spawned : nat) (s : State) : State :=
  match poller s with
  | Waiting =>
      if flag s
      then mkState (slots s) (wake_queue s) (registered s) false (PollAll 0) (wakers s) (unseen s)
      else s
  | PollAll k =>
      if (k <? slots s)%nat then set_poller (PollAll (S k)) (see k s) else set_poller DrainSpawned s
  | DrainSpawned =>
      mkState (slots s + spawned) (wake_queue s) (registered s) (flag s) Register (wakers s) (unseen s)
  | Register =>
      mkState (slots s) (wake_queue s) true (flag s) DrainWoken (wakers s) (unseen s)
  | DrainWoken =>
      mkState (slots s) [] (registered s) (flag s) (PollWoken (wake_queue s)) (wakers s) (unseen s)
  | PollWoken (i :: q) => set_poller (PollWoken q) (see i s)
  | PollWoken [] =>
      mkState (slots s + spawned) (wake_queue s) (registered s) (flag s) Waiting (wakers s) (unseen s)
  end.

Definition set_wakers (ws : list WakerPc) (s : State) : State :=
  mkState (slots s) (wake_queue s) (registered s) (flag s) (poller s) ws (unseen s).

(** One step of the [k]-th wake-up. *)
Definition wake_step (k : nat) (s : State) : State :=
  match wakers s !! k with
  | Some (PushSlot i) =>
      mkState (slots s) (wake_queue s ++ [i]) (registered s) (flag s) (poller s)
        (<[k := WakeContext]> (wakers s)) (unseen s)
  | Some WakeContext =>
      mkState (slots s) (wake_queue s) false (flag s || registered s) (poller s)
        (<[k := Done]> (wakers s)) (unseen s)
  | _ => s
  end.

Inductive Event := Poll (spawned : nat) | Begin (i : nat) | WakeStep (k : nat).

Definition step (s : State) (e : Event) : State :=
  match e with
  | Poll spawned => poll_step spawned s
  | Begin i => mkState (slots s) (wake_queue s) (registered s) (flag s) (poller s)
                 (wakers s ++ [PushSlot i]) (unseen s ∪ {[i]})
  | WakeStep k => wake_step k s
  end.

Definition run (s : State) (es : list Event) : State := foldl step s es.

(** ** The invariant *)

(** The hart will drain the wake queue before it waits. *)
Definition before_drain (p : PollPc) : bool :=
  match p with PollAll _ | DrainSpawned | Register | DrainWoken => true | _ => false end.

(** The context has been registered in this poll. *)
Definition after_register (p : PollPc) : bool :=
  match p with DrainWoken | PollWoken _ | Waiting => true | _ => false end.

Definition pending_woken (p : PollPc) : list nat := match p with PollWoken q => q | _ => [] end.

(** Someone will see the slot: its wake-up has not pushed it yet, or it is among
    those taken from the queue, or it is in the queue and the queue will be
    drained. *)
Definition heeded (s : State) (i : nat) : Prop :=
  PushSlot i ∈ wakers s \/ i ∈ pending_woken (poller s) \/
  i ∈ wake_queue s /\ (WakeContext ∈ wakers s \/ flag s = true \/ before_drain (poller s) = true).

Record inv (s : State) : Prop := {
  inv_registered : after_register (poller s) = true -> registered s = true \/ flag s = true;
  inv_unseen : forall i, i ∈ unseen s -> heeded s i
}.

Lemma shared_start_inv n : inv (start n).
Proof. split; cbn; [by right|set_solver]. Qed.

(** What keeps a slot heeded. *)
Lemma heeded_mono s s' i :
  heeded s i ->
  (PushSlot i ∈ wakers s -> PushSlot i ∈ wakers s') ->
  (i ∈ pending_woken (poller s) -> i ∈ pending_woken (poller s')) ->
  (i ∈ wake_queue s -> WakeContext ∈ wakers s \/ flag s = true \/ before_drain (poller s) = true ->
     i ∈ pending_woken (poller s') \/
     i ∈ wake_queue s' /\ (WakeContext ∈ wakers s' \/ flag s' = true \/ before_drain (poller s') = true)) ->
  heeded s' i.
Proof. unfold heeded. intros [H|[H|[H1 H2]]] Hp Hq Hw; [by left; auto|by right; left; auto|]. right. by apply Hw. Qed.

Lemma shared_poll_inv n s : inv s -> inv (poll_step n s).
Proof.
  intros [Hr Hu]. unfold poll_step. destruct (poller s) as [|k| | | |[|i q]] eqn:Hp.
  - destruct (flag s) eqn:Hf; [|by split; rewrite ?Hp, ?Hf]. split; [done|]. intros i Hi.
    apply (heeded_mono s); [by apply Hu|done|by rewrite Hp|]. cbn. auto.
  - destruct (k <? slots s)%nat; (split; [done|]); cbn; intros i Hi;
      (apply (heeded_mono s); [apply Hu; set_solver|done|by rewrite Hp|cbn; auto]).
  - split; [done|]. intros i Hi. apply (heeded_mono s); [by apply Hu|done|by rewrite Hp|cbn; auto].
  - split; [by left|]. intros i Hi. apply (heeded_mono s); [by apply Hu|done|by rewrite Hp|cbn; auto].
  - split; [intros _; by apply Hr|]. intros i Hi.
    apply (heeded_mono s); [by apply Hu|done|rewrite Hp; by intros ?%elem_of_nil|cbn; auto].
  - split; [intros _; by apply Hr|]. intros i Hi.
    apply (heeded_mono s); [by apply Hu|done|by rewrite Hp|]. cbn. rewrite Hp. cbn. intuition discriminate.
  - split; [intros _; by apply Hr|]. cbn. intros j Hj.
    apply (heeded_mono s); [apply Hu; set_solver|done| |].
    + rewrite Hp. cbn. intros [->|H]%elem_of_cons; [set_solver|done].
    + cbn. rewrite Hp. cbn. intuition discriminate.
Qed.

(** A wake-up that ends, and the other wake-ups. *)
Lemma replaced_waker (ws : list WakerPc) k p q w :
  ws !! k = Some p -> w ∈ ws -> w <> p -> w ∈ <[k := q]> ws.
Proof.
  intros Hk [j Hj]%list_elem_of_lookup Hne. apply list_elem_of_lookup. exists j.
  rewrite list_lookup_insert_ne; [done|]. intros ->. congruence.
Qed.

Lemma shared_wake_inv k s : inv s -> inv (wake_step k s).
Proof.
  intros [Hr Hu]. unfold wake_step. destruct (wakers s !! k) as [[i| |]|] eqn:Hk; try done.
  - assert (Hw : WakeContext ∈ <[k := WakeContext]> (wakers s)).
    { apply list_elem_of_lookup. exists k. apply list_lookup_insert_eq. by apply lookup_lt_Some in Hk. }
    split; [done|]. cbn. intros j Hj. destruct (Hu j Hj) as [H|[H|[H _]]].
    + destruct (decide (j = i)) as [->|Hne].
      * right. right. cbn. split; [set_solver|by left].
      * left. cbn. by apply (replaced_waker _ _ (PushSlot i)); [..|congruence].
    + right. by left.
    + right. right. cbn. split; [set_solver|by left].
  - assert (Hf : after_register (poller s) = true -> flag s || registered s = true).
    { intros H. destruct (Hr H) as [->| ->]; [apply orb_true_r|done]. }
    split; [intros H; right; by apply Hf|]. cbn. intros j Hj. destruct (Hu j Hj) as [H|[H|[H _]]].
    + left. cbn. by apply (replaced_waker _ _ WakeContext).
    + right. by left.
    + right. right. cbn. split; [done|]. right. destruct (before_drain (poller s)) eqn:Hb; [by right|left].
      apply Hf. by destruct (poller s).
Qed.

Lemma shared_step_inv s e : inv s -> inv (step s e).
Proof.
  intros Hs. destruct e as [n|i|k]; cbn [step]; [by apply shared_poll_inv| |by apply shared_wake_inv].
  destruct Hs as [Hr Hu]. split; [done|]. cbn. intros j [Hj|Hj]%elem_of_union.
  - apply (heeded_mono s); [by apply Hu|cbn; set_solver|done|]. cbn. intros H1 H2. right. split; [done|].
    destruct H2 as [H2|H2]; [left; set_solver|by right].
  - left. cbn. set_solver.
Qed.

Lemma shared_run_inv es s : inv s -> inv (run s es).
Proof. revert s. induction es as [|e es IH]; intros s Hs; [done|]. by apply IH, shared_step_inv. Qed.

(** ** The next poll *)

(** Alone, the poll of all slots sees every slot below their number. *)
Lemma poll_all_run m : forall k s,
  poller s = PollAll k -> (k + m = slots s)%nat ->
  let s' := run s (replicate m (Poll 0)) in
  poller s' = PollAll (slots s) /\ slots s' = slots s /\
  forall i, i ∈ unseen s' -> i ∈ unseen s /\ ~ (k <= i < slots s)%nat.
Proof.
  induction m as [|m IH]; intros k s Hp Hm; cbn [replicate].
  - split; [cbn; by rewrite Hp, <- Hm, Nat.add_0_r|]. split; [done|]. intros i Hi. split; [done|]. cbn in Hi. lia.
  - assert (E : step s (Poll 0) = set_poller (PollAll (S k)) (see k s)).
    { cbn [step]. unfold poll_step. rewrite Hp. by rewrite (proj2 (Nat.ltb_lt _ _)) by lia. }
    change (run s (Poll 0 :: replicate m (Poll 0))) with (run (step s (Poll 0)) (replicate m (Poll 0))).
    rewrite E. destruct (IH (S k) (set_poller (PollAll (S k)) (see k s))) as (H1 & H2 & H3); [done|cbn; lia|].
    cbn [slots set_poller see] in *. do 2 (split; [done|]). intros i Hi. destruct (H3 i Hi) as [Hu Hn].
    cbn [unseen set_poller see] in Hu. split; [set_solver|].
    destruct (decide (i = k)) as [->|]; [set_solver|lia].
Qed.


(** Two harts wake slot 1 and slot 0 around the registration of the context. *)
Example two_wake_ups :
  let s := run (start 2) [Poll 0; Poll 0; Poll 0; Begin 1; Poll 0; WakeStep 0; Poll 0; Begin 0; WakeStep 0; Poll 0;
                         Poll 0; Poll 0; WakeStep 1; Poll 0; WakeStep 1] in
  poller s = Waiting /\ flag s = true /\ unseen s = {[0%nat]} /\ wake_queue s = [0%nat].
Proof. vm_compute. by split_and!. Qed.
