(* ===== verification/Notify.v ===== *)
(** * kernel_main: notifications and the wait for a function call

    [kernel_main/src/local_notify.rs] (Module [Notify]) and [wait_future.rs]
    (Module [WaitFuture]).  Wakers are numbers; [woken] lists those woken so far,
    in order. *)

From S2P Require Import Prelude Executor.

(** ** [local_notify.rs] *)

Module Notify.

(** The two [RefCell]s: a flag and the waker registered last. *)
Record Notify := mkNotify {
  transmit_waker : bool * option nat;
  receive_waker : bool * option nat;
  woken : list nat
}.

Definition default : Notify := mkNotify (false, None) (false, None) [].

(** [try_wake_*]: [None] when no waker is registered; the flag is set anyway. *)
Definition try_wake_tx (n : Notify) : option unit * Notify :=
  let n := mkNotify (true, (transmit_waker n).2) (receive_waker n) (woken n) in
  match (transmit_waker n).2 with
  | None => (None, n)
  | Some w => (Some tt, mkNotify (transmit_waker n) (receive_waker n) (woken n ++ [w]))
  end.

Definition try_wake_rx (n : Notify) : option unit * Notify :=
  let n := mkNotify (transmit_waker n) (true, (receive_waker n).2) (woken n) in
  match (receive_waker n).2 with
  | None => (None, n)
  | Some w => (Some tt, mkNotify (transmit_waker n) (receive_waker n) (woken n ++ [w]))
  end.

Definition wake_tx (n : Notify) : outcome Notify :=
  match try_wake_tx n with (Some _, n) => Val n | (None, _) => Stop UnwrapFailed end.
Definition wake_rx (n : Notify) : outcome Notify :=
  match try_wake_rx n with (Some _, n) => Val n | (None, _) => Stop UnwrapFailed end.

Definition register_tx (w : nat) (n : Notify) : Notify :=
  mkNotify ((transmit_waker n).1, Some w) (receive_waker n) (woken n).

Definition register_rx (w : nat) (n : Notify) : Notify :=
  (try_wake_tx (mkNotify (transmit_waker n) ((receive_waker n).1, Some w) (woken n))).2.

(** [Future for WaitForTxFuture] and [WaitForRxFuture]. *)
Definition poll_tx_ready (cx : nat) (n : Notify) : Poll * Notify :=
  if (receive_waker n).1
  then (Ready, mkNotify (transmit_waker n) (false, (receive_waker n).2) (woken n))
  else (Pending, register_rx cx n).

Definition poll_rx_ready (cx : nat) (n : Notify) : Poll * Notify :=
  if (transmit_waker n).1 then (Ready, n) else (Pending, register_tx cx n).

(** The public operations. *)
Inductive Op := TryWakeTx | TryWakeRx | WakeTx | WakeRx | PollTxReady (cx : nat) | PollRxReady (cx : nat).

Definition step (n : Notify) (o : Op) : outcome Notify :=
  match o with
  | TryWakeTx => Val (try_wake_tx n).2
  | TryWakeRx => Val (try_wake_rx n).2
  | WakeTx => wake_tx n
  | WakeRx => wake_rx n
  | PollTxReady cx => Val (poll_tx_ready cx n).2
  | PollRxReady cx => Val (poll_rx_ready cx n).2
  end.

Definition run (ops : list Op) (n : Notify) : outcome Notify := for_each step ops n.

Definition is_wake_rx (o : Op) : bool := match o with TryWakeRx | WakeRx => true | _ => false end.
Definition is_poll_tx (o : Op) : bool := match o with PollTxReady _ => true | _ => false end.

(** The polls of [tx_ready] that answer [Ready] in a run. *)
Fixpoint readies (ops : list Op) (n : Notify) : Z :=
  match ops with
  | [] => 0
  | o :: ops =>
      (match o with PollTxReady cx => Z.b2z (bool_decide ((poll_tx_ready cx n).1 = Ready)) | _ => 0 end) +
      match step n o with Val n => readies ops n | Stop _ => 0 end
  end.

Lemma step_receive n o n' :
  step n o = Val n' ->
  (receive_waker n').1 = (if is_wake_rx o then true else if is_poll_tx o then false else (receive_waker n).1)
  /\ (is_poll_tx o = false -> (receive_waker n').2 = (receive_waker n).2)
  /\ (exists l, woken n' = woken n ++ l) /\ ((transmit_waker n).1 = true -> (transmit_waker n').1 = true).
Proof.
  assert (Hnil : exists l, woken n = woken n ++ l) by (exists []; by rewrite app_nil_r).
  destruct n as [[t tw] [r rw] ws]. destruct o; cbn;
    unfold wake_tx, wake_rx, try_wake_tx, try_wake_rx, poll_tx_ready, poll_rx_ready, register_rx,
      register_tx, try_wake_tx;
    destruct t, r, tw, rw; cbn; intros [= <-]; cbn in *; (split; [done|]); (split; [done|]); eauto.
Qed.

Lemma wake_rx_wakes n o n' w :
  step n o = Val n' -> is_wake_rx o = true -> (receive_waker n).2 = Some w -> w ∈ woken n'.
Proof.
  destruct n as [tx [r rw] ws]. destruct o; try done; cbn; intros E _ Hw; cbn in Hw; subst rw;
    unfold wake_rx, try_wake_rx in *; cbn in E; injection E as <-; cbn; apply elem_of_app; right; by left.
Qed.

Lemma run_keeps ops n n' :
  run ops n = Val n' ->
  (forall w, w ∈ woken n -> w ∈ woken n') /\
  ((transmit_waker n).1 = true -> (transmit_waker n').1 = true) /\
  (existsb is_poll_tx ops = false -> (receive_waker n').1 = (receive_waker n).1 || existsb is_wake_rx ops).
Proof.
  unfold run. revert n. induction ops as [|o ops IH]; intros n E.
  - injection E as <-. by rewrite orb_false_r.
  - cbn [for_each] in E. apply bind_inv in E as (n1 & E1 & E).
    destruct (IH n1 E) as (Hw & Ht & Hr). apply step_receive in E1 as (Hr1 & _ & [l Hl] & Ht1).
    split; [intros w Hin; apply Hw; rewrite Hl; apply elem_of_app; by left|].
    split; [by intros H; apply Ht, Ht1|]. cbn [existsb]. intros H.
    apply orb_false_iff in H as [Ho H]. rewrite (Hr H), Hr1, Ho. by destruct (is_wake_rx o), (receive_waker n).1.
Qed.

Lemma run_wakes ops n n' w :
  run ops n = Val n' -> existsb is_poll_tx ops = false -> existsb is_wake_rx ops = true ->
  (receive_waker n).2 = Some w -> w ∈ woken n'.
Proof.
  revert n. unfold run. induction ops as [|o ops IH]; intros n E Hp Hx Hw; [done|].
  cbn [for_each existsb] in *. apply bind_inv in E as (n1 & E1 & E).
  apply orb_false_iff in Hp as [Ho Hp]. destruct (is_wake_rx o) eqn:Hwo.
  - apply run_keeps in E as [Hk _]. apply Hk. by eapply wake_rx_wakes.
  - apply (IH n1); [done..|]. apply step_receive in E1 as (_ & Hs & _). by rewrite Hs.
Qed.

Lemma readies_bound ops n :
  readies ops n <= Z.b2z (receive_waker n).1 + countb is_wake_rx ops.
Proof.
  revert n. induction ops as [|o ops IH]; intros n; cbn [readies]; [by destruct (receive_waker n).1|].
  rewrite countb_cons. destruct (step n o) as [n1|p] eqn:E.
  - specialize (IH n1). apply step_receive in E as (Hr & _). rewrite Hr in IH.
    destruct n as [tx [[] rw] ws], o; cbn in *; try lia; case_bool_decide; try done; cbn; lia.
  - pose proof (countb_bounds is_wake_rx ops). destruct o; try done; cbn;
      destruct (receive_waker n).1; cbn [Z.b2z]; lia.
Qed.

(** C32: [tx_ready] misses no [wake_rx]: whatever else happens, a [wake_rx] after a
    pending poll of the future has woken the waker of that poll, and the next poll
    is ready; and it is ready at most once for each [wake_rx]. *)
Theorem tx_ready_no_lost_wake ops1 cx ops2 n1 n2 cx' :
  run ops1 default = Val n1 -> (poll_tx_ready cx n1).1 = Pending ->
  run ops2 (poll_tx_ready cx n1).2 = Val n2 ->
  existsb is_poll_tx ops2 = false -> existsb is_wake_rx ops2 = true ->
  cx ∈ woken n2 /\ (poll_tx_ready cx' n2).1 = Ready /\
  readies (ops1 ++ PollTxReady cx :: ops2) default <= countb is_wake_rx (ops1 ++ PollTxReady cx :: ops2).
Proof.
  intros _ Hpend E2 Hp Hw.
  assert (Hreg : (receive_waker (poll_tx_ready cx n1).2).2 = Some cx /\
                 (receive_waker (poll_tx_ready cx n1).2).1 = false).
  { unfold poll_tx_ready in *. destruct (receive_waker n1) as [r rw] eqn:Er. cbn in Hpend. destruct r; [done|].
    unfold register_rx, try_wake_tx. cbn. rewrite Er. by destruct (transmit_waker n1) as [? []]. }
  destruct Hreg as [Hcx Hf]. split; [by eapply run_wakes|]. split.
  - apply run_keeps in E2 as (_ & _ & Hr). specialize (Hr Hp). rewrite Hf, Hw in Hr.
    unfold poll_tx_ready. by rewrite Hr.
  - apply (readies_bound _ default).
Qed.

Lemma tx_ready_no_lost_wake_witness :
  exists n2, run [WakeTx; TryWakeRx] (poll_tx_ready 5 (mkNotify (true, Some 4%nat) (false, None) [4%nat])).2
    = Val n2 /\ 5%nat ∈ woken n2 /\ (poll_tx_ready 6 n2).1 = Ready.
Proof.
  eexists. split; [vm_compute; reflexivity|].
  destruct (tx_ready_no_lost_wake [PollRxReady 4; TryWakeTx] 5 [WakeTx; TryWakeRx]
    (mkNotify (true, Some 4%nat) (false, None) [4%nat])
    (mkNotify (true, Some 4%nat) (true, Some 5%nat) [4%nat; 4%nat; 4%nat; 5%nat]) 6)
    as (H & H' & _); try (vm_compute; reflexivity).
  split; [exact H|exact H'].
Defined.

(** [rx_ready] is not an event but a latch: nothing clears the transmitter's
    flag, so once it is set (by [wake_tx] or by the first pending [tx_ready])
    every later poll is ready; and [wake_tx] and [wake_rx] panic as long as nobody
    has registered. *)
Theorem rx_ready_latched n ops n' cx :
  (transmit_waker n).1 = true \/ (poll_tx_ready cx n).1 = Pending ->
  run (PollTxReady cx :: ops) n = Val n' ->
  (poll_rx_ready cx n').1 = Ready /\ wake_tx default = Stop UnwrapFailed /\ wake_rx default = Stop UnwrapFailed.
Proof.
  intros H E. split; [|done]. unfold run in E. cbn [for_each step mbind outcome_bind] in E.
  apply run_keeps in E as (_ & Ht & _). unfold poll_rx_ready. rewrite Ht; [done|].
  unfold poll_tx_ready, register_rx, try_wake_tx in *. destruct n as [[t tw] [r rw] ws]. cbn in *.
  destruct r; cbn in *; [by destruct H|by destruct tw].
Qed.

Lemma rx_ready_latched_witness :
  exists n', run [PollTxReady 1; PollRxReady 2; TryWakeRx; PollTxReady 1; PollRxReady 2] default = Val n' /\
  (poll_rx_ready 1 n').1 = Ready.
Proof.
  eexists. split; [vm_compute; reflexivity|].
  refine (proj1 (rx_ready_latched default [PollRxReady 2; TryWakeRx; PollTxReady 1; PollRxReady 2] _ 1 _ _));
    [right; reflexivity|vm_compute; reflexivity].
Defined.
End Notify.

(** ** [wait_future.rs] *)

Module WaitFuture.

(** [WaitForFunctionCallFuture]; [waiting_waker] is set nowhere.  [enables] counts
    the calls of the [enable] function; [sent] and [received] are the data given to
    [wake] and returned by polls. *)
Record Wait (T : Type) := mkWait {
  someone_waiting : bool;
  ready : option T;
  ready_waker : option nat;
  waiting_waker : option nat;
  enables : Z;
  woken : list nat;
  sent : list T;
  received : list T
}.
Arguments mkWait {T}.
Arguments someone_waiting {T}.
Arguments ready {T}.
Arguments ready_waker {T}.
Arguments waiting_waker {T}.
Arguments enables {T}.
Arguments woken {T}.
Arguments sent {T}.
Arguments received {T}.

(** Where a poll is: before each access to a field of its own. *)
Inductive Pc := Idle | Take (cx : nat) | Register (cx : nat) | Enable (cx : nat).

Section Steps.
Context {T : Type}.

Definition new : Wait T := mkWait false None None None 0 [] [] [].

Definition wake (data : T) (s : Wait T) : Wait T :=
  mkWait (someone_waiting s) (Some data) (ready_waker s) (waiting_waker s) (enables s)
         (woken s ++ option_list (ready_waker s)) (sent s ++ [data]) (received s).

(** [self.ready.lock().take()]; with no data, [someone_waiting] is stored. *)
Definition take (cx : nat) (s : Wait T) : Pc * Wait T :=
  match ready s with
  | Some data => (Idle, mkWait (someone_waiting s) None (ready_waker s) (waiting_waker s) (enables s)
                               (woken s) (sent s) (received s ++ [data]))
  | None => (Register cx, mkWait true None (ready_waker s) (waiting_waker s) (enables s)
                                 (woken s) (sent s) (received s))
  end.

Definition register (cx : nat) (s : Wait T) : Pc * Wait T :=
  (Enable cx, mkWait (someone_waiting s) (ready s) (Some cx) (waiting_waker s) (enables s)
                     (woken s ++ option_list (waiting_waker s)) (sent s) (received s)).

Definition enable (s : Wait T) : Pc * Wait T :=
  (Idle, mkWait (someone_waiting s) (ready s) (ready_waker s) (waiting_waker s) (enables s + 1)
                (woken s) (sent s) (received s)).

(** One step of the poll in progress. *)
Definition poll_step (p : Pc) (s : Wait T) : Pc * Wait T :=
  match p with
  | Idle => (Idle, s)
  | Take cx => take cx s
  | Register cx => register cx s
  | Enable cx => enable s
  end.

(** The task of waker [cx] is polled, its earlier wake-ups are used up. *)
Definition resume (cx : nat) (s : Wait T) : Wait T :=
  mkWait (someone_waiting s) (ready s) (ready_waker s) (waiting_waker s) (enables s)
         (filter (fun w => w <> cx) (woken s)) (sent s) (received s).

(** One task waits.  The interrupt handler calls [wake] between any two steps of
    its polls; a [disciplined] source only after the first call of [enable]. *)
Inductive global_step (disciplined : bool) (cx : nat) : Pc * Wait T -> Pc * Wait T -> Prop :=
  | begin_poll s : global_step disciplined cx (Idle, s) (Take cx, resume cx s)
  | continue_poll p s : global_step disciplined cx (p, s) (poll_step p s)
  | call_wake p s data :
      (disciplined = true -> 0 < enables s) -> global_step disciplined cx (p, s) (p, wake data s).

Inductive reachable (disciplined : bool) (cx : nat) : Pc * Wait T -> Prop :=
  | reach_new : reachable disciplined cx (Idle, new)
  | reach_step c c' :
      reachable disciplined cx c -> global_step disciplined cx c c' -> reachable disciplined cx c'.

(** What was received, then what waits, among what was sent. *)
Definition in_order (s : Wait T) : Prop :=
  match ready s with
  | None => received s `sublist_of` sent s
  | Some data => exists l, sent s = l ++ [data] /\ received s `sublist_of` l
  end.

Definition invariant (cx : nat) (c : Pc * Wait T) : Prop :=
  let '(p, s) := c in
  in_order s /\ waiting_waker s = None /\ 0 <= enables s /\
  (0 < enables s -> ready_waker s = Some cx) /\
  match p with
  | Take w => w = cx
  | Register w => w = cx /\ (ready s <> None -> cx ∈ woken s)
  | Enable w => w = cx /\ ready_waker s = Some cx /\ (ready s <> None -> cx ∈ woken s)
  | Idle => ready s <> None -> cx ∈ woken s
  end.

Lemma in_order_sent s : in_order s -> received s `sublist_of` sent s.
Proof.
  unfold in_order. destruct (ready s); [|done]. intros (l & -> & H). by apply sublist_inserts_r.
Qed.

Lemma wake_in_order data s : in_order s -> in_order (wake data s).
Proof. intros H. exists (sent s). split; [done|]. by apply (in_order_sent s). Qed.

Lemma invariant_wake cx p s data :
  0 < enables s -> invariant cx (p, s) -> invariant cx (p, wake data s).
Proof.
  intros He (Ho & Hw & H0 & Hr & Hp). split; [by apply wake_in_order|].
  assert (Hin : cx ∈ woken (wake data s))
    by (cbn; rewrite (Hr He); apply elem_of_app; right; by left).
  split; [done|]. split; [done|]. split; [done|]. destruct p; intuition.
Qed.

Lemma wait_invariant_step cx c c' : global_step true cx c c' -> invariant cx c -> invariant cx c'.
Proof.
  intros [s|p s|p s data He]; [..|by apply invariant_wake, He].
  - intros (Ho & Hw & H0 & Hr & _). by repeat split.
  - intros (Ho & Hw & H0 & Hr & Hp). destruct p as [|w|w|w]; cbn [poll_step].
    + by repeat split.
    + subst w. unfold take. destruct (ready s) as [data|] eqn:E; unfold in_order in Ho; rewrite E in Ho; repeat split; try done.
      destruct Ho as (l & Hl & Ho). unfold in_order. cbn. rewrite Hl. by apply sublist_app.
    + destruct Hp as [-> Hp]. repeat split; try done. cbn. rewrite Hw, app_nil_r. exact Hp.
    + destruct Hp as (-> & Hrw & Hp). repeat split; try done; cbn; lia.
Qed.

Lemma reachable_invariant cx c : reachable true cx c -> invariant cx c.
Proof.
  induction 1 as [|c c' _ IH Hstep]; [|by eapply wait_invariant_step].
  repeat split; try done. constructor.
Qed.

(** Reachability, one step at a time. *)
Lemma reach_begin d cx s : reachable d cx (Idle, s) -> reachable d cx (Take cx, resume cx s).
Proof. intros H. eapply reach_step; [exact H|apply begin_poll]. Qed.

Lemma reach_poll d cx p s c : reachable d cx (p, s) -> poll_step p s = c -> reachable d cx c.
Proof. intros H <-. eapply reach_step; [exact H|apply continue_poll]. Qed.

Lemma reach_wake d cx p s data :
  reachable d cx (p, s) -> (d = true -> 0 < enables s) -> reachable d cx (p, wake data s).
Proof. intros H He. eapply reach_step; [exact H|by apply call_wake]. Qed.
End Steps.


End WaitFuture.
