(* ===== verification/Plic.v ===== *)
(** * kernel_chip_drivers: the platform-level interrupt controller

    [kernel_chip_drivers/src/plic.rs].  The device's registers are a map from
    addresses to 32-bit words, a register never written reads 0.  What the device
    answers in the claim register is its own; a claim is the read of that word. *)

From S2P Require Import Prelude.

Abbreviation Registers := (gmap Z Z).

Definition read_volatile (m : Registers) (a : Z) : Z := default 0 (m !! a).
Definition write_volatile (m : Registers) (a v : Z) : Registers := <[a := v]> m.

(** We always run in supervisor mode, the second context of a hart. *)
Definition get_context_number (hartid : Z) : outcome Z :=
  n ← checked_mul 64 hartid 2; checked_add 64 1 n.

Record Plic0 := mkPlic0 { base_addr : Z; context_number : Z }.

Definition new_with_addr (hartid base_addr : Z) : outcome Plic0 :=
  c ← get_context_number hartid; Val (mkPlic0 base_addr c).

(** [*mut u32 + n]; pointers do not check for overflow. *)
Definition add_u32 (a n : Z) : Z := wrapping_add a (4 * n).

Definition set_priority (p : Plic0) (interrupt priority : Z) (m : Registers) : Registers :=
  write_volatile m (add_u32 (base_addr p) interrupt) priority.

(** The base of a group of registers of this context. *)
Definition target_base (p : Plic0) (offset stride : Z) : outcome Z :=
  base ← checked_add 64 (base_addr p) offset;
  n ← checked_mul 64 (context_number p) stride;
  checked_add 64 base n.

Definition set_enabled (p : Plic0) (interrupt : Z) (enable : bool) (m : Registers) : outcome Registers :=
  t ← target_base p 0x2000 0x80;
  let this_register := add_u32 t (interrupt / 32) in
  bit ← checked_shl 32 (Z.b2z enable) (interrupt mod 32);
  if enable
  then Val (write_volatile m this_register (Z.lor (read_volatile m this_register) bit))
  else let flag := Z.lxor bit (2 ^ 32 - 1) in
       Val (write_volatile m this_register (Z.land (read_volatile m this_register) flag)).

Definition set_threshold (p : Plic0) (threshold : Z) (m : Registers) : outcome Registers :=
  t ← target_base p 0x200000 0x1000; Val (write_volatile m t threshold).

Definition claim_highest_priority (p : Plic0) (m : Registers) : outcome Z :=
  t ← target_base p 0x200004 0x1000; Val (read_volatile m t).

Definition complete (p : Plic0) (interrupt : Z) (m : Registers) : outcome Registers :=
  t ← target_base p 0x200004 0x1000; Val (write_volatile m t interrupt).

(** ** The registers of the specification *)

(** The contexts and interrupts of the memory map, and a base that leaves room. *)
Definition context_ok (c : Z) : Prop := 0 <= c < 15872.
Definition interrupt_ok (i : Z) : Prop := 0 <= i < 1024.
Definition plic_ok (p : Plic0) : Prop :=
  0 <= base_addr p < 2 ^ 63 /\ context_ok (context_number p).

Inductive Register :=
  | Priority (interrupt : Z)
  | Enables (context word : Z)
  | Threshold (context : Z)
  | ClaimComplete (context : Z).

#[export] Instance Register_eq_dec : EqDecision Register.
Proof. solve_decision. Defined.

Definition register_ok (r : Register) : Prop :=
  match r with
  | Priority i => interrupt_ok i
  | Enables c w => context_ok c /\ 0 <= w < 32
  | Threshold c => context_ok c
  | ClaimComplete c => context_ok c
  end.

Definition register_address (base : Z) (r : Register) : Z :=
  base + match r with
         | Priority i => 4 * i
         | Enables c w => 0x2000 + 0x80 * c + 4 * w
         | Threshold c => 0x200000 + 0x1000 * c
         | ClaimComplete c => 0x200004 + 0x1000 * c
         end.

(** Whether an interrupt is enabled for a context. *)
Definition enabled (m : Registers) (base c i : Z) : bool :=
  Z.testbit (read_volatile m (register_address base (Enables c (i / 32)))) (i mod 32).

Definition words_ok (m : Registers) : Prop := forall a, 0 <= read_volatile m a < 2 ^ 32.

Lemma register_address_inj base r r' :
  register_ok r -> register_ok r' -> register_address base r = register_address base r' -> r = r'.
Proof.
  unfold register_address. destruct r, r'; cbn [register_ok]; unfold context_ok, interrupt_ok;
    intros ? ? ?; try lia; f_equal; lia.
Qed.

Lemma read_write_same m a v : read_volatile (write_volatile m a v) a = v.
Proof. unfold read_volatile, write_volatile. by rewrite lookup_insert_eq. Qed.

Lemma read_write_other m a b v : a <> b -> read_volatile (write_volatile m a v) b = read_volatile m b.
Proof. intros H. unfold read_volatile, write_volatile. by rewrite lookup_insert_ne. Qed.

Lemma target_base_Val p offset stride :
  plic_ok p -> 0 <= offset <= 0x200004 -> 0 <= stride <= 0x1000 ->
  target_base p offset stride = Val (base_addr p + offset + stride * context_number p).
Proof.
  intros [Hb Hc] Ho Hs. unfold context_ok in Hc. unfold target_base.
  assert (context_number p * stride <= 15872 * 0x1000) by nia.
  rewrite checked_add_Val by lia. cbn [mbind outcome_bind]. rewrite checked_mul_Val by lia.
  cbn [mbind outcome_bind]. rewrite checked_add_Val by lia. f_equal. lia.
Qed.

Lemma interrupt_word i : interrupt_ok i -> 0 <= i / 32 < 32.
Proof.
  unfold interrupt_ok. intros H. split; [apply Z.div_pos; lia|apply Z.div_lt_upper_bound; lia].
Qed.

(** The word of the enables that [set_enabled] touches. *)
Lemma enables_word p i :
  plic_ok p -> interrupt_ok i ->
  add_u32 (base_addr p + 0x2000 + 0x80 * context_number p) (i / 32) =
    register_address (base_addr p) (Enables (context_number p) (i / 32)).
Proof.
  intros [Hb Hc] Hi. pose proof (interrupt_word i Hi). unfold add_u32, wrapping_add, register_address, context_ok, interrupt_ok in *.
  rewrite Z.mod_small; lia.
Qed.

Lemma set_enabled_eq p i (enable : bool) m :
  plic_ok p -> interrupt_ok i ->
  let r := register_address (base_addr p) (Enables (context_number p) (i / 32)) in
  set_enabled p i enable m =
    Val (write_volatile m r
      (if enable then Z.lor (read_volatile m r) (2 ^ (i mod 32))
       else Z.land (read_volatile m r) (2 ^ 32 - 1))).
Proof.
  intros Hp Hi. cbv zeta. unfold set_enabled. rewrite target_base_Val by (done || lia).
  cbn [mbind outcome_bind]. rewrite enables_word by done.
  pose proof (Z.mod_pos_bound i 32 ltac:(lia)) as Hm. unfold checked_shl.
  destruct (Z.ltb_spec (i mod 32) 32); [|lia]. cbn [mbind outcome_bind].
  destruct enable; cbn [Z.b2z].
  - rewrite Z.shiftl_1_l, Z.mod_small; [done|]. split; [lia|]. apply Z.pow_lt_mono_r; lia.
  - by rewrite Z.shiftl_0_l, Z.mod_0_l by lia.
Qed.

Lemma enabled_same_word m base c i v :
  enabled (write_volatile m (register_address base (Enables c (i / 32))) v) base c i = Z.testbit v (i mod 32).
Proof. unfold enabled. by rewrite read_write_same. Qed.

(** The operations touch the register the specification assigns them and no
    other: enabling an interrupt sets exactly its bit in this hart's supervisor
    context; disabling writes the word back unchanged, so an interrupt that was
    enabled stays enabled. *)
Theorem set_enabled_spec p i m :
  plic_ok p -> interrupt_ok i -> words_ok m ->
  (exists m', set_enabled p i true m = Val m' /\
    (forall c' i', context_ok c' -> interrupt_ok i' ->
      enabled m' (base_addr p) c' i' =
        (bool_decide (c' = context_number p) && (i' =? i)) || enabled m (base_addr p) c' i') /\
    (forall r, register_ok r -> (forall w, r <> Enables (context_number p) w) ->
      read_volatile m' (register_address (base_addr p) r) = read_volatile m (register_address (base_addr p) r))) /\
  (exists m', set_enabled p i false m = Val m' /\ forall a, read_volatile m' a = read_volatile m a).
Proof.
  intros Hp Hi Hm. pose proof Hp as [_ Hc]. rewrite !set_enabled_eq by done.
  set (r := Enables (context_number p) (i / 32)).
  assert (Hr : register_ok r) by (split; [done|by apply interrupt_word]).
  split.
  - eexists. split; [reflexivity|]. split.
    + intros c' i' Hc' Hi'.
      destruct (decide (Enables c' (i' / 32) = r)) as [[= -> Hw]|Hne].
      * unfold enabled. rewrite Hw. fold r. rewrite read_write_same, Z.lor_spec, Z.pow2_bits_eqb by (apply Z.mod_pos_bound; lia).
        rewrite bool_decide_eq_true_2 by done. rewrite andb_true_l, orb_comm. f_equal.
        destruct (Z.eqb_spec (i mod 32) (i' mod 32)), (Z.eqb_spec i' i); try done; [|congruence].
        pose proof (Z.div_mod i' 32 ltac:(lia)). pose proof (Z.div_mod i 32 ltac:(lia)). lia.
      * unfold enabled. rewrite read_write_other.
        { case_bool_decide as Hcc; [|done]. destruct (Z.eqb_spec i' i); [|done]. by subst. }
        intros E. apply Hne. symmetry. apply (register_address_inj (base_addr p)); [done| |done].
        split; [done|by apply interrupt_word].
    + intros r' Hr' Hne. apply read_write_other. intros E. apply (Hne (i / 32)).
      symmetry. by apply (register_address_inj (base_addr p)).
  - eexists. split; [reflexivity|]. intros a. rewrite land_ones_mod by lia.
    rewrite Z.mod_small by apply Hm.
    destruct (decide (register_address (base_addr p) r = a)) as [<-|Hne].
    + by rewrite read_write_same.
    + by rewrite read_write_other.
Qed.

Lemma set_enabled_spec_witness :
  exists m', set_enabled (mkPlic0 0xc000000 3) 10 true ∅ = Val m' /\
    enabled m' 0xc000000 3 10 = true /\ enabled m' 0xc000000 3 11 = false /\ enabled m' 0xc000000 1 10 = false.
Proof.
  destruct (set_enabled_spec (mkPlic0 0xc000000 3) 10 ∅) as [(m' & E & H & _) _];
    [split; [done|unfold context_ok; cbn; lia]|unfold interrupt_ok; lia|intros a; unfold read_volatile; by rewrite lookup_empty|].
  exists m'. split; [exact E|].
  rewrite !H by (unfold context_ok, interrupt_ok; lia). by repeat split.
Defined.

(** Every hart's driver addresses its own supervisor context: for distinct
    harts below 7936 the threshold, claim and complete registers are distinct
    words, none of them shared with the enables or priorities, and they are the
    registers of context [2 * hartid + 1]. *)
Theorem plic_context_registers hartid base threshold i m :
  0 <= hartid < 7936 -> 0 <= base < 2 ^ 63 ->
  exists p m1 m2, new_with_addr hartid base = Val p /\
    set_threshold p threshold m = Val m1 /\
    complete p i m1 = Val m2 /\
    claim_highest_priority p m = Val (read_volatile m (register_address base (ClaimComplete (2 * hartid + 1)))) /\
    (forall r, register_ok r -> read_volatile m2 (register_address base r) =
      if decide (r = Threshold (2 * hartid + 1)) then threshold
      else if decide (r = ClaimComplete (2 * hartid + 1)) then i
      else read_volatile m (register_address base r)).
Proof.
  intros Hh Hb. set (c := 2 * hartid + 1). assert (Hc : context_ok c) by (unfold context_ok; lia).
  exists (mkPlic0 base c). assert (Hp : plic_ok (mkPlic0 base c)) by by split.
  unfold new_with_addr, get_context_number. rewrite checked_mul_Val by lia. cbn [mbind outcome_bind].
  rewrite checked_add_Val by lia. cbn [mbind outcome_bind].
  replace (1 + hartid * 2) with c by lia.
  unfold set_threshold, complete, claim_highest_priority.
  rewrite !target_base_Val by (done || lia). cbn [mbind outcome_bind base_addr context_number].
  do 2 eexists. split; [done|]. split; [done|]. split; [done|].
  replace (base + 0x200004 + 0x1000 * c) with (register_address base (ClaimComplete c))
    by (unfold register_address; lia).
  replace (base + 0x200000 + 0x1000 * c) with (register_address base (Threshold c))
    by (unfold register_address; lia).
  split; [done|]. intros r Hr.
  destruct (decide (r = ClaimComplete c)) as [->|Hne].
  { rewrite read_write_same. by destruct (decide (ClaimComplete c = Threshold c)). }
  rewrite read_write_other by (intros E; apply Hne; symmetry; by apply (register_address_inj base)).
  destruct (decide (r = Threshold c)) as [->|Hne']; [by rewrite read_write_same|].
  apply read_write_other. intros E; apply Hne'; symmetry; by apply (register_address_inj base).
Qed.

Lemma plic_context_registers_witness :
  exists p m1 m2, new_with_addr 1 0xc000000 = Val p /\ set_threshold p 5 ∅ = Val m1 /\
    complete p 9 m1 = Val m2 /\ read_volatile m2 0xc203000 = 5 /\ read_volatile m2 0xc203004 = 9.
Proof.
  destruct (plic_context_registers 1 0xc000000 5 9 ∅) as (p & m1 & m2 & E & E1 & E2 & _ & H);
    [lia|lia|]. exists p, m1, m2. split; [exact E|]. split; [exact E1|]. split; [exact E2|].
  assert (Hc : context_ok 3) by (unfold context_ok; lia).
  split; [exact (H (Threshold 3) Hc)|exact (H (ClaimComplete 3) Hc)].
Defined.
