(* ===== verification/Utf8.v ===== *)
(** * Bytes as text

    [core::str::from_utf8] of the standard library, which the device tree and the
    readers use: the well-formed byte sequences of Unicode, and the number parser
    [usize::from_str_radix(_, 16)].  Bytes are integers below 256. *)

From S2P Require Import Prelude.

Definition is_byte (b : Z) : Prop := 0 <= b < 256.

Definition between (lo hi b : Z) : bool := (lo <=? b) && (b <=? hi).
Definition continuation (b : Z) : bool := between 0x80 0xBF b.

(** The range of the second byte after a leading byte of three or four. *)
Definition second_of_three (b : Z) : Z * Z :=
  if b =? 0xE0 then (0xA0, 0xBF) else if b =? 0xED then (0x80, 0x9F) else (0x80, 0xBF).
Definition second_of_four (b : Z) : Z * Z :=
  if b =? 0xF0 then (0x90, 0xBF) else if b =? 0xF4 then (0x80, 0x8F) else (0x80, 0xBF).

Fixpoint utf8_valid (l : list Z) : bool :=
  match l with
  | [] => true
  | b :: l1 =>
      if between 0 0x7F b then utf8_valid l1
      else if between 0xC2 0xDF b then
        match l1 with c :: l2 => continuation c && utf8_valid l2 | [] => false end
      else if between 0xE0 0xEF b then
        match l1 with
        | c :: d :: l3 => between (second_of_three b).1 (second_of_three b).2 c && continuation d && utf8_valid l3
        | _ => false
        end
      else if between 0xF0 0xF4 b then
        match l1 with
        | c :: d :: e :: l4 => between (second_of_four b).1 (second_of_four b).2 c && continuation d &&
                               continuation e && utf8_valid l4
        | _ => false
        end
      else false
  end.

(** A string is its bytes. *)
Definition from_utf8 (l : list Z) : Result (list Z) unit :=
  if utf8_valid l then Ok l else Err tt.

Lemma from_utf8_Ok l s : from_utf8 l = Ok s -> s = l /\ utf8_valid l = true.
Proof. unfold from_utf8. destruct (utf8_valid l) eqn:E; [|done]. by intros [= <-]. Qed.

Lemma utf8_ascii l : Forall (fun b => 0 <= b < 0x80) l -> utf8_valid l = true.
Proof.
  induction 1 as [|b l Hb _ IH]; [done|]. cbn [utf8_valid]. unfold between.
  destruct (Z.leb_spec 0 b), (Z.leb_spec b 0x7F); [exact IH|lia..].
Qed.

(** [usize::from_str_radix(s, 16)]: an optional [+], then at least one digit. *)
Definition hex_digit (b : Z) : option Z :=
  if between 0x30 0x39 b then Some (b - 0x30)
  else if between 0x41 0x46 b then Some (b - 0x41 + 10)
  else if between 0x61 0x66 b then Some (b - 0x61 + 10)
  else None.

Fixpoint hex_digits (acc : Z) (l : list Z) : option Z :=
  match l with
  | [] => Some acc
  | b :: l => d ← hex_digit b;
              if acc * 16 + d <? 2 ^ 64 then hex_digits (acc * 16 + d) l else None
  end.

Definition from_str_radix_16 (s : list Z) : option Z :=
  match s with
  | [] => None
  | [0x2B] | [0x2D] => None
  | 0x2B :: l => hex_digits 0 l
  | _ => hex_digits 0 s
  end.

(** The digits [{:x}] prints. *)
Definition hex_char (d : Z) : Z := if d <? 10 then 0x30 + d else 0x61 + (d - 10).

Fixpoint hex_string_fuel (fuel : nat) (n : Z) : list Z :=
  match fuel with
  | O => []
  | S fuel => (if n <? 16 then [] else hex_string_fuel fuel (n / 16)) ++ [hex_char (n mod 16)]
  end.

(** Sixteen digits are enough for a [usize]. *)
Definition hex_string (n : Z) : list Z := hex_string_fuel 16 n.

Lemma hex_char_digit d : 0 <= d < 16 -> hex_digit (hex_char d) = Some d.
Proof.
  intros Hd. unfold hex_char, hex_digit, between. destruct (Z.ltb_spec d 10).
  - destruct (Z.leb_spec 0x30 (0x30 + d)), (Z.leb_spec (0x30 + d) 0x39); cbn [andb]; [f_equal; lia|lia..].
  - destruct (Z.leb_spec 0x30 (0x61 + (d - 10))), (Z.leb_spec (0x61 + (d - 10)) 0x39); cbn [andb]; try lia.
    destruct (Z.leb_spec 0x41 (0x61 + (d - 10))), (Z.leb_spec (0x61 + (d - 10)) 0x46); cbn [andb]; try lia.
    destruct (Z.leb_spec 0x61 (0x61 + (d - 10))), (Z.leb_spec (0x61 + (d - 10)) 0x66); cbn [andb]; try lia.
    f_equal; lia.
Qed.

Lemma hex_digits_app acc l1 l2 :
  hex_digits acc (l1 ++ l2) = (a ← hex_digits acc l1; hex_digits a l2).
Proof.
  revert acc. induction l1 as [|b l1 IH]; intros acc; [done|]. cbn [app hex_digits].
  destruct (hex_digit b) as [d|]; [|done]. cbn [mbind option_bind].
  destruct (acc * 16 + d <? 2 ^ 64); [apply IH|done].
Qed.

Lemma hex_string_fuel_parse fuel n :
  0 <= n < 16 ^ Z.of_nat fuel -> n < 2 ^ 64 -> hex_digits 0 (hex_string_fuel fuel n) = Some n.
Proof.
  revert n. induction fuel as [|fuel IH]; intros n Hn Hb; [cbn in *; f_equal; lia|].
  pose proof (Z.mod_pos_bound n 16 ltac:(lia)) as Hm. pose proof (Z.div_mod n 16 ltac:(lia)) as Hd.
  cbn [hex_string_fuel]. rewrite hex_digits_app. cbn [hex_digits].
  rewrite hex_char_digit by done. cbn [mbind option_bind].
  rewrite Nat2Z.inj_succ, Z.pow_succ_r in Hn by lia.
  destruct (Z.ltb_spec n 16).
  - cbn [hex_digits mbind option_bind]. rewrite (Z.mod_small n) by lia.
    destruct (Z.ltb_spec (0 * 16 + n) (2 ^ 64)); [f_equal; lia|lia].
  - rewrite IH; [|split; [lia|]|lia]; [|nia]. cbn [mbind option_bind].
    destruct (Z.ltb_spec (n / 16 * 16 + n mod 16) (2 ^ 64)); [f_equal; lia|lia].
Qed.

Lemma hex_string_fuel_shape fuel n :
  (0 < fuel)%nat -> 0 <= n ->
  hex_string_fuel fuel n <> [] /\
  Forall (fun b => between 0x30 0x39 b || between 0x61 0x66 b = true) (hex_string_fuel fuel n).
Proof.
  revert n. induction fuel as [|fuel IH]; intros n Hf Hn; [lia|]. cbn [hex_string_fuel].
  split; [by destruct (if n <? 16 then [] else _)|].
  apply Forall_app; split.
  - destruct (n <? 16); [constructor|]. destruct fuel; [constructor|]. apply IH; [lia|]. by apply Z.div_pos.
  - constructor; [|constructor]. pose proof (Z.mod_pos_bound n 16 ltac:(lia)). unfold hex_char, between.
    destruct (Z.ltb_spec (n mod 16) 10); cmp_cases; try lia; done.
Qed.

Lemma hex_string_parse n : is_usize n -> from_str_radix_16 (hex_string n) = Some n.
Proof.
  intros Hn. unfold is_usize in Hn.
  destruct (hex_string_fuel_shape 16 n) as [Hne Hs]; [lia|lia|].
  pose proof (hex_string_fuel_parse 16 n ltac:(cbn; lia) ltac:(lia)) as Hp.
  fold (hex_string n) in *. unfold from_str_radix_16.
  destruct (hex_string n) as [|b l]; [done|]. apply Forall_inv in Hs.
  assert (Hb : b <> 0x2B /\ b <> 0x2D).
  { split; intros ->; done. }
  destruct Hb. clear Hne. revert Hp.
  repeat (match goal with
          | |- context [match ?x with _ => _ end] => is_var x; destruct x; try congruence
          end); try done.
Qed.
