(* ===== verification/KernelIo.v ===== *)
(** * kernel_io: the default methods of the readers

    [kernel_io/src/lib.rs].  The trait's one required method is the class [Read];
    its default methods are translated over it.  An [await] is a call: the state
    of the reader is passed on, the buffer comes back with the result.  The error
    type of the crate [kernel_syscall_abi], which is not in the repository, is a
    parameter, with the two errors the code makes.

    The loops take fuel, one unit for each call of [read]; the theorems give the
    amount that is enough. *)

From S2P Require Import Prelude Utf8.

Class Read (S E : Type) := {
  read : S -> list Z -> outcome (Result Z E * list Z * S)
}.

(** [Vec::resize(n, 0)] *)
Definition resize (n : Z) (v : list Z) : list Z :=
  take (Z.to_nat n) v ++ replicate (Z.to_nat n - length v) 0.

Section Methods.
Context {S E : Type} `{Read S E} {IoError : Type} (unexpected_eof utf8_error : IoError).

(** [read += self.read(i).await?] for each buffer. *)
Fixpoint read_vectored_loop (n : Z) (bufs : list (list Z)) (s : S) :
    outcome (Result Z E * list (list Z) * S) :=
  match bufs with
  | [] => Val (Ok n, [], s)
  | buf :: bufs =>
      '(r, buf', s') ← read s buf;
      match r with
      | Err e => Val (Err e, buf' :: bufs, s')
      | Ok k =>
          n' ← checked_add 64 n k;
          '(r, bufs', s') ← read_vectored_loop n' bufs s';
          Val (r, buf' :: bufs', s')
      end
  end.

Definition read_vectored (bufs : list (list Z)) (s : S) := read_vectored_loop 0 bufs s.

(** The loop of [read_to_end]; [None] when the fuel is used up. *)
Fixpoint read_to_end_loop (fuel : nat) (n : Z) (buf : list Z) (s : S) :
    option (outcome (Result Z E * list Z * S)) :=
  match fuel with
  | O => None
  | Datatypes.S fuel =>
      match m ← checked_add 64 n 512; Val (resize m buf) with
      | Stop p => Some (Stop p)
      | Val buf =>
          match read s (drop (Z.to_nat n) buf) with
          | Stop p => Some (Stop p)
          | Val (Err e, here, s') => Some (Val (Err e, take (Z.to_nat n) buf ++ here, s'))
          | Val (Ok k, here, s') =>
              let buf := take (Z.to_nat n) buf ++ here in
              match checked_add 64 n k with
              | Stop p => Some (Stop p)
              | Val n => if k =? 0 then Some (Val (Ok n, resize n buf, s'))
                         else read_to_end_loop fuel n buf s'
              end
          end
      end
  end.

Definition read_to_end (fuel : nat) (buf : list Z) (s : S) := read_to_end_loop fuel 0 buf s.

Definition read_to_end_new (fuel : nat) (s : S) : option (outcome (Result (Z * list Z) E * S)) :=
  r ← read_to_end fuel [] s;
  Some ('(r, v, s) ← r; Val (match r with Ok n => Ok (n, v) | Err e => Err e end, s)).

(** [buf.insert_str(buf.len(), from_utf8(&vec)?)] *)
Definition read_to_string (fuel : nat) (buf : list Z) (s : S) :
    option (outcome (Result (Result Z E) IoError * list Z * S)) :=
  r ← read_to_end fuel [] s;
  Some ('(r, v, s) ← r;
        match r with
        | Err e => Val (Ok (Err e), buf, s)
        | Ok n => match from_utf8 v with
                  | Ok str => Val (Ok (Ok n), buf ++ str, s)
                  | Err _ => Val (Err utf8_error, buf, s)
                  end
        end).

Definition read_to_string_new (fuel : nat) (s : S) :
    option (outcome (Result (Result (Z * list Z) E) IoError * S)) :=
  r ← read_to_string fuel [] s;
  Some ('(r, v, s) ← r;
        Val (match r with
             | Err e => Err e
             | Ok (Err e) => Ok (Err e)
             | Ok (Ok n) => Ok (Ok (n, v))
             end, s)).

(** [filled] is what the slice [buf] has left behind. *)
Fixpoint read_exact_loop (fuel : nat) (filled buf : list Z) (s : S) :
    option (outcome (Result (Result unit E) IoError * list Z * S)) :=
  match fuel with
  | O => None
  | Datatypes.S fuel =>
      match buf with
      | [] => Some (Val (Ok (Ok tt), filled, s))
      | _ =>
          match read s buf with
          | Stop p => Some (Stop p)
          | Val (Err e, buf, s') => Some (Val (Ok (Err e), filled ++ buf, s'))
          | Val (Ok 0, buf, s') =>
              Some (Val (match buf with [] => Ok (Ok tt) | _ => Err unexpected_eof end, filled ++ buf, s'))
          | Val (Ok n, buf, s') =>
              if n <=? Z.of_nat (length buf)
              then read_exact_loop fuel (filled ++ take (Z.to_nat n) buf) (drop (Z.to_nat n) buf) s'
              else Some (Stop IndexOutOfBounds)
          end
      end
  end.

Definition read_exact (fuel : nat) (buf : list Z) (s : S) := read_exact_loop fuel [] buf s.

Definition read_to_end_exact (fuel : nat) (len : Z) (s : S) :
    option (outcome (Result (Result (list Z) E) IoError * S)) :=
  r ← read_exact fuel (resize len []) s;
  Some ('(r, v, s) ← r;
        Val (match r with
             | Err e => Err e
             | Ok (Err e) => Ok (Err e)
             | Ok (Ok _) => Ok (Ok v)
             end, s)).
End Methods.

(** ** Streams

    A reader that delivers a sequence of bytes, in pieces of any size: the contract
    of [read] as the callers above rely on it. *)

Class Stream (S E : Type) `{Read S E} := {
  content : S -> list Z;
  read_stream : forall s buf, exists k s',
    read s buf = Val (Ok (Z.of_nat k), take k (content s) ++ drop k buf, s') /\
    content s' = drop k (content s) /\ (k <= length buf)%nat /\ (k <= length (content s))%nat /\
    (k = O -> buf = [] \/ content s = [])
}.

(** A block of memory read in pieces of at most the given sizes (then in one). *)
Record Memory := mkMemory { bytes : list Z; pieces : list nat }.

Definition piece (m : Memory) (n : nat) : nat :=
  n `min` length (bytes m) `min` match pieces m with [] => n | p :: _ => Datatypes.S p end.

#[export] Instance memory_read : Read Memory unit := {
  read m buf :=
    let k := piece m (length buf) in
    Val (Ok (Z.of_nat k), take k (bytes m) ++ drop k buf, mkMemory (drop k (bytes m)) (tail (pieces m)))
}.

#[export] Instance memory_stream : Stream Memory unit.
Proof.
  refine {| content := bytes |}. intros m buf. set (k := piece m (length buf)).
  exists k, (mkMemory (drop k (bytes m)) (tail (pieces m))).
  unfold k, piece. split; [done|]. split; [done|]. split; [lia|]. split; [lia|].
  intros H0. destruct buf as [|b buf]; [by left|]. right. cbn [length] in H0.
  destruct (bytes m); [done|]. cbn [length] in H0. destruct (pieces m); lia.
Defined.

Lemma resize_length n v : length (resize n v) = Z.to_nat n.
Proof. unfold resize. rewrite length_app, length_take, length_replicate. lia. Qed.

Lemma take_resize n m v : (n <= Z.to_nat m)%nat -> (n <= length v)%nat -> take n (resize m v) = take n v.
Proof.
  intros Hn Hv. unfold resize. rewrite take_app_le by (rewrite length_take; lia).
  rewrite take_take. f_equal. lia.
Qed.

Section Streams.
Context {S E : Type} {HR : Read S E} {HS : Stream S E} {IoError : Type} (unexpected_eof utf8_error : IoError).

Lemma read_to_end_loop_spec fuel n buf s don :
  (length (content s) < fuel)%nat -> Z.of_nat (length don + length (content s)) < 2 ^ 63 ->
  n = Z.of_nat (length don) -> take (length don) buf = don ->
  exists s', read_to_end_loop fuel n buf s =
      Some (Val (Ok (n + Z.of_nat (length (content s))), don ++ content s, s')) /\ content s' = [].
Proof.
  revert n buf s don. induction fuel as [|fuel IH]; intros n buf s don Hf Hb -> Hd; [lia|].
  cbn [read_to_end_loop]. rewrite checked_add_Val by lia. cbn [mbind outcome_bind].
  set (buf1 := resize (Z.of_nat (length don) + 512) buf). rewrite !Nat2Z.id.
  assert (Hd1 : take (length don) buf1 = don).
  { unfold buf1. rewrite take_resize; [done|lia|]. apply (f_equal length) in Hd. rewrite length_take in Hd. lia. }
  destruct (read_stream s (drop (length don) buf1)) as (k & s' & -> & Hc & Hk & Hk' & H0).
  rewrite Hd1. rewrite checked_add_Val by lia.
  destruct (Z.eqb_spec (Z.of_nat k) 0) as [E0|E0].
  - assert (k = O) as -> by lia. destruct (H0 eq_refl) as [Hn|Hn].
    { apply (f_equal length) in Hn. unfold buf1 in Hn. rewrite length_drop, resize_length in Hn. cbn in Hn. lia. }
    exists s'. rewrite Hc, Hn. cbn [length drop]. rewrite !Z.add_0_r, app_nil_r. split; [|done].
    unfold resize. rewrite take_0, Nat2Z.id. cbn [app].
    rewrite take_app_le, take_ge, length_app by lia.
    replace (length don - _)%nat with O by lia. by rewrite app_nil_r.
  - destruct (IH (Z.of_nat (length don) + Z.of_nat k)
                 (don ++ take k (content s) ++ drop k (drop (length don) buf1)) s'
                 (don ++ take k (content s))) as (s2 & E2 & Hc2).
    + rewrite Hc, length_drop. lia.
    + rewrite Hc, length_app, length_drop, length_take. lia.
    + rewrite length_app, length_take. lia.
    + rewrite app_assoc. by rewrite take_app_length.
    + exists s2. rewrite E2, Hc. split; [|done]. do 4 f_equal.
      * rewrite length_drop. f_equal. lia.
      * rewrite <-app_assoc, take_drop. done.
Qed.

Lemma read_exact_loop_spec fuel filled buf s :
  (length buf < fuel)%nat ->
  exists s', read_exact_loop unexpected_eof fuel filled buf s =
    Some (Val (if (length buf <=? length (content s))%nat then Ok (Ok tt) else Err unexpected_eof,
               filled ++ take (length buf) (content s) ++ drop (length (content s)) buf, s')) /\
    content s' = drop (length buf) (content s).
Proof.
  revert filled buf s. induction fuel as [|fuel IH]; intros filled buf s Hf; [lia|].
  cbn [read_exact_loop]. destruct buf as [|b buf].
  { exists s. cbn [length take drop Nat.leb]. by rewrite drop_nil, !app_nil_r. }
  set (buf1 := b :: buf) in *.
  destruct (read_stream s buf1) as (k & s' & -> & Hc & Hk & Hk' & H0).
  destruct k as [|k].
  - destruct (H0 eq_refl) as [Hn|Hn]; [done|]. exists s'. rewrite Hc, Hn. split; [|by rewrite drop_nil].
    cbn [take drop length app]. by rewrite take_nil.
  - set (buf2 := take (Datatypes.S k) (content s) ++ drop (Datatypes.S k) buf1).
    assert (Hl2 : length buf2 = length buf1).
    { unfold buf2. rewrite length_app, length_take, length_drop. lia. }
    assert (Ht2 : take (Datatypes.S k) buf2 = take (Datatypes.S k) (content s)).
    { unfold buf2. rewrite take_app_le by (rewrite length_take; lia). rewrite take_take. f_equal; lia. }
    assert (Hd2 : drop (Datatypes.S k) buf2 = drop (Datatypes.S k) buf1).
    { unfold buf2. rewrite drop_app_ge by (rewrite length_take; lia).
      rewrite length_take. replace (_ - _)%nat with O by lia. done. }
    replace (Z.of_nat (Datatypes.S k)) with (Z.pos (Pos.of_succ_nat k)) by lia.
    destruct (Z.leb_spec (Z.pos (Pos.of_succ_nat k)) (Z.of_nat (length buf2))) as [_|Hlt]; [|lia].
    replace (Z.to_nat (Z.pos (Pos.of_succ_nat k))) with (Datatypes.S k) by lia.
    rewrite Ht2, Hd2.
    destruct (IH (filled ++ take (Datatypes.S k) (content s)) (drop (Datatypes.S k) buf1) s') as (s2 & E2 & Hc2).
    { rewrite length_drop. lia. }
    exists s2. rewrite E2, Hc2, Hc, !length_drop, !drop_drop. split; [|f_equal; lia].
    do 4 f_equal.
    + destruct (Nat.leb_spec (length buf1 - Datatypes.S k) (length (content s) - Datatypes.S k)),
        (Nat.leb_spec (length buf1) (length (content s))); try lia; done.
    + rewrite <-app_assoc. f_equal. rewrite app_assoc. f_equal; [|f_equal; lia].
      rewrite <-(take_drop (Datatypes.S k) (take (length buf1) (content s))) at 1.
      rewrite take_take, skipn_firstn_comm. f_equal. f_equal. lia.
Qed.
End Streams.

(** ** The properties *)

(** C27: [read_to_end] terminates and leaves in the buffer exactly what the stream
    had to deliver, whatever the pieces it came in; what the buffer held before is
    overwritten, not appended to. *)
Theorem read_to_end_reads_all {S E} `{Stream S E} fuel (buf : list Z) (s : S) :
  (length (content s) < fuel)%nat -> Z.of_nat (length (content s)) < 2 ^ 63 ->
  exists s', read_to_end fuel buf s = Some (Val (Ok (Z.of_nat (length (content s))), content s, s')) /\
    content s' = [].
Proof.
  intros Hf Hb. destruct (read_to_end_loop_spec fuel 0 buf s []) as (s' & E1 & Hc); [done..|].
  exists s'. split; [exact E1|done].
Qed.

Lemma read_to_end_reads_all_witness : exists s',
  read_to_end 6 [7; 7; 7; 7; 7; 7; 7] (mkMemory [1; 2; 3; 4; 5] [1%nat; 0%nat]) =
    Some (Val (Ok 5, [1; 2; 3; 4; 5], s')) /\ bytes s' = [].
Proof.
  destruct (read_to_end_reads_all 6 [7; 7; 7; 7; 7; 7; 7] (mkMemory [1; 2; 3; 4; 5] [1%nat; 0%nat]))
    as (s' & E & Hc); [cbn; lia|reflexivity|]. exists s'. split; [exact E|exact Hc].
Defined.

(** C26: [read_exact] fills the whole buffer and takes no more than its length from
    the stream; a stream that ends before gives [UnexpectedEof], with all it had in
    the buffer.  [read_to_end_exact] returns the same bytes in a vector of its own. *)
Theorem read_exact_spec {S E} `{Stream S E} {IoError} (unexpected_eof : IoError) fuel (buf : list Z) (s : S) :
  (length buf < fuel)%nat ->
  (exists s', read_exact unexpected_eof fuel buf s =
      Some (Val (if (length buf <=? length (content s))%nat then Ok (Ok tt) else Err unexpected_eof,
                 take (length buf) (content s) ++ drop (length (content s)) buf, s')) /\
    content s' = drop (length buf) (content s)) /\
  (exists s', read_to_end_exact unexpected_eof fuel (Z.of_nat (length buf)) s =
      Some (Val (if (length buf <=? length (content s))%nat then Ok (Ok (take (length buf) (content s)))
                 else Err unexpected_eof, s')) /\
    content s' = drop (length buf) (content s)).
Proof.
  intros Hf. split.
  - exact (read_exact_loop_spec unexpected_eof fuel [] buf s Hf).
  - set (v := resize (Z.of_nat (length buf)) []).
    assert (Hv : length v = length buf) by (unfold v; rewrite resize_length; lia).
    destruct (read_exact_loop_spec unexpected_eof fuel [] v s) as (s' & E1 & Hc); [lia|].
    rewrite Hv in E1, Hc. exists s'. split; [|done].
    unfold read_to_end_exact, read_exact. fold v. rewrite E1. cbn [mbind option_bind outcome_bind].
    do 3 f_equal. destruct (Nat.leb_spec (length buf) (length (content s))); [|done].
    rewrite (drop_ge v) by lia. by rewrite app_nil_r.
Qed.

Lemma read_exact_spec_witness :
  (exists s', read_exact tt 4 [0; 0; 0] (mkMemory [1; 2; 3; 4; 5] [1%nat]) =
    Some (Val (Ok (Ok tt), [1; 2; 3], s')) /\ bytes s' = [4; 5]) /\
  (exists s', read_exact tt 4 [9; 9; 9] (mkMemory [1] []) = Some (Val (Err tt, [1; 9; 9], s')) /\ bytes s' = []).
Proof.
  split.
  - destruct (read_exact_spec tt 4 [0; 0; 0] (mkMemory [1; 2; 3; 4; 5] [1%nat])) as [(s' & E & Hc) _];
      [cbn; lia|]. exists s'. split; [exact E|exact Hc].
  - destruct (read_exact_spec tt 4 [9; 9; 9] (mkMemory [1] [])) as [(s' & E & Hc) _];
      [cbn; lia|]. exists s'. split; [exact E|exact Hc].
Defined.

(** [read_to_string] appends the stream's bytes when they are UTF-8; when they
    are not it reports the error and leaves the string as it was, though the
    stream is consumed.  [read_to_string_new] returns the bytes as a string. *)
Theorem read_to_string_spec {S E} `{Stream S E} {IoError} (utf8_error : IoError) fuel (str : list Z) (s : S) :
  (length (content s) < fuel)%nat -> Z.of_nat (length (content s)) < 2 ^ 63 ->
  exists s', content s' = [] /\
    read_to_string utf8_error fuel str s =
      Some (Val (if utf8_valid (content s)
                 then (Ok (Ok (Z.of_nat (length (content s)))), str ++ content s, s')
                 else (Err utf8_error, str, s'))) /\
    read_to_string_new utf8_error fuel s =
      Some (Val (if utf8_valid (content s)
                 then Ok (Ok (Z.of_nat (length (content s)), content s)) else Err utf8_error, s')).
Proof.
  intros Hf Hb. destruct (read_to_end_loop_spec fuel 0 [] s []) as (s' & E1 & Hc); [done..|].
  exists s'. split; [done|]. unfold read_to_string_new, read_to_string, read_to_end.
  rewrite E1. cbn [mbind option_bind outcome_bind app]. unfold from_utf8.
  by destruct (utf8_valid (content s)).
Qed.

Lemma read_to_string_spec_witness : exists s', 
  read_to_string tt 4 [0x68; 0x69] (mkMemory [0xC3; 0xA9; 0x21] [0%nat]) =
    Some (Val (Ok (Ok 3), [0x68; 0x69; 0xC3; 0xA9; 0x21], s')).
Proof.
  destruct (read_to_string_spec tt 4 [0x68; 0x69] (mkMemory [0xC3; 0xA9; 0x21] [0%nat]))
    as (s' & _ & E & _); [cbn; lia|reflexivity|]. exists s'. exact E.
Defined.

(** [read_vectored] reads into each buffer once and adds up what was read: a
    short read of one buffer does not stop it, so the bytes of a stream can lie
    with gaps between the buffers, but none is lost or reordered. *)
Theorem read_vectored_spec {S E} `{Stream S E} (bufs : list (list Z)) (s : S) :
  Z.of_nat (length (content s)) < 2 ^ 63 ->
  exists ks bufs' s', read_vectored bufs s = Val (Ok (Z.of_nat (sum_list ks)), bufs', s') /\
    length ks = length bufs /\
    concat (zip_with take ks bufs') ++ content s' = content s /\
    concat (zip_with drop ks bufs') = concat (zip_with drop ks bufs) /\
    Forall2 (fun b b' => length b = length b') bufs bufs'.
Proof.
  intros Hb.
  enough (Hg : forall n, n + Z.of_nat (length (content s)) < 2 ^ 64 ->
    exists ks bufs' s', read_vectored_loop n bufs s = Val (Ok (n + Z.of_nat (sum_list ks)), bufs', s') /\
      length ks = length bufs /\ concat (zip_with take ks bufs') ++ content s' = content s /\
      concat (zip_with drop ks bufs') = concat (zip_with drop ks bufs) /\
      Forall2 (fun b b' => length b = length b') bufs bufs') by (apply (Hg 0); lia).
  clear Hb. revert s. induction bufs as [|buf bufs IH]; intros s n Hb.
  { exists [], [], s. cbn. split; [by rewrite Z.add_0_r|]. by repeat split. }
  cbn [read_vectored_loop].
  destruct (read_stream s buf) as (k & s1 & -> & Hc & Hk & Hk' & _). cbn [mbind outcome_bind].
  rewrite checked_add_Val by lia. cbn [mbind outcome_bind].
  destruct (IH s1 (n + Z.of_nat k)) as (ks & bufs' & s' & E1 & Hl & Hcat & Hdrop & Hf).
  { rewrite Hc, length_drop. lia. }
  assert (Ht : take k (take k (content s) ++ drop k buf) = take k (content s)).
  { rewrite take_app_le by (rewrite length_take; lia). rewrite take_take. f_equal. lia. }
  assert (Hd : drop k (take k (content s) ++ drop k buf) = drop k buf).
  { rewrite drop_app_ge by (rewrite length_take; lia). rewrite length_take.
    by replace (k - _)%nat with O by lia. }
  exists (k :: ks), ((take k (content s) ++ drop k buf) :: bufs'), s'. rewrite E1. cbn [mbind outcome_bind].
  cbn [zip_with concat length]. rewrite Ht, Hd, Hdrop, Hl, <-app_assoc, Hcat, Hc, take_drop.
  split; [do 4 f_equal; change (sum_list (k :: ks)) with (k + sum_list ks)%nat; lia|]. repeat split. constructor; [|done].
  rewrite length_app, length_take, length_drop. lia.
Qed.

Lemma read_vectored_spec_witness : exists ks bufs' s',
  read_vectored [[0; 0]; [0; 0; 0]] (mkMemory [1; 2; 3; 4; 5] [0%nat]) = Val (Ok (Z.of_nat (sum_list ks)), bufs', s') /\
  concat (zip_with take ks bufs') ++ bytes s' = [1; 2; 3; 4; 5].
Proof.
  destruct (read_vectored_spec [[0; 0]; [0; 0; 0]] (mkMemory [1; 2; 3; 4; 5] [0%nat]))
    as (ks & bufs' & s' & E & _ & H & _); [reflexivity|].
  exists ks, bufs', s'. split; [exact E|exact H].
Defined.
