(* ===== verification/BTreeMap.v ===== *)
(** * Ordered maps

    [BTreeMap] of the standard library, as far as the device tree uses it: the
    entries in the order of the keys, [insert], [get], [get_mut] and [values].
    Keys are compared by a class [Ord] with its laws. *)

From S2P Require Import Prelude.

Class Ord (K : Type) := {
  cmp : K -> K -> comparison;
  cmp_eq : forall a b, cmp a b = Eq <-> a = b;
  cmp_antisym : forall a b, cmp b a = CompOpp (cmp a b);
  cmp_trans : forall a b c, cmp a b = Lt -> cmp b c = Lt -> cmp a c = Lt
}.

Lemma cmp_refl {K} `{Ord K} a : cmp a a = Eq.
Proof. by apply cmp_eq. Qed.

(** [u8], [u32], [usize] *)
#[export] Instance ord_Z : Ord Z.
Proof.
  refine {| cmp := Z.compare |}.
  - apply Z.compare_eq_iff.
  - intros a b. apply Z.compare_antisym.
  - intros a b c. rewrite !Z.compare_lt_iff. lia.
Defined.

(** [Option]: [None] first. *)
Definition option_cmp {K} `{Ord K} (a b : option K) : comparison :=
  match a, b with
  | None, None => Eq
  | None, Some _ => Lt
  | Some _, None => Gt
  | Some a, Some b => cmp a b
  end.

#[export] Instance ord_option {K} `{Ord K} : Ord (option K).
Proof.
  refine {| cmp := option_cmp |}.
  - intros [a|] [b|]; cbn; [rewrite cmp_eq|..]; split; congruence.
  - intros [a|] [b|]; cbn; try done. apply cmp_antisym.
  - intros [a|] [b|] [c|]; cbn; try done. apply cmp_trans.
Defined.

(** [str] and slices: lexicographic. *)
Fixpoint list_cmp {K} `{Ord K} (a b : list K) : comparison :=
  match a, b with
  | [], [] => Eq
  | [], _ :: _ => Lt
  | _ :: _, [] => Gt
  | x :: a, y :: b => match cmp x y with Eq => list_cmp a b | c => c end
  end.

Lemma list_cmp_eq {K} `{Ord K} (a b : list K) : list_cmp a b = Eq <-> a = b.
Proof.
  revert b. induction a as [|x a IH]; intros [|y b]; cbn; try done. destruct (cmp x y) eqn:E.
  - apply cmp_eq in E. rewrite IH. split; [congruence|by intros [= _ ->]].
  - split; [done|]. intros [= <- _]. rewrite cmp_refl in E. discriminate E.
  - split; [done|]. intros [= <- _]. rewrite cmp_refl in E. discriminate E.
Qed.

Lemma list_cmp_antisym {K} `{Ord K} (a b : list K) : list_cmp b a = CompOpp (list_cmp a b).
Proof.
  revert b. induction a as [|x a IH]; intros [|y b]; cbn; try done.
  rewrite (cmp_antisym x y). destruct (cmp x y); cbn [CompOpp]; [apply IH|reflexivity..].
Qed.

Lemma list_cmp_trans {K} `{Ord K} (a b c : list K) :
  list_cmp a b = Lt -> list_cmp b c = Lt -> list_cmp a c = Lt.
Proof.
  revert b c. induction a as [|x a IH]; intros [|y b] [|z c]; cbn; try done.
  destruct (cmp x y) eqn:E1; [apply cmp_eq in E1 as ->| |done].
  - destruct (cmp y z); [apply IH|done|done].
  - intros _. destruct (cmp y z) eqn:E2; [apply cmp_eq in E2 as <-| |done].
    + by rewrite E1.
    + by rewrite (cmp_trans x y z).
Qed.

#[export] Instance ord_list {K} `{Ord K} : Ord (list K) :=
  {| cmp := list_cmp; cmp_eq := list_cmp_eq; cmp_antisym := list_cmp_antisym; cmp_trans := list_cmp_trans |}.

Section Map.
Context {K V : Type} `{Ord K}.

Fixpoint get (k : K) (m : list (K * V)) : option V :=
  match m with
  | [] => None
  | (k', v) :: m => match cmp k k' with Eq => Some v | _ => get k m end
  end.

Fixpoint insert (k : K) (v : V) (m : list (K * V)) : list (K * V) :=
  match m with
  | [] => [(k, v)]
  | (k', v') :: m' =>
      match cmp k k' with
      | Eq => (k', v) :: m'
      | Lt => (k, v) :: m
      | Gt => (k', v') :: insert k v m'
      end
  end.

Definition values (m : list (K * V)) : list V := m.*2.

(** The keys in strictly increasing order. *)
Fixpoint sorted (m : list (K * V)) : Prop :=
  match m with
  | [] => True
  | (k, _) :: m => Forall (fun e => cmp k e.1 = Lt) m /\ sorted m
  end.

Lemma get_insert k v m : get k (insert k v m) = Some v.
Proof.
  induction m as [|[k' v'] m IH]; cbn; [by rewrite cmp_refl|].
  destruct (cmp k k') eqn:E; cbn; rewrite ?E, ?cmp_refl; done.
Qed.

Lemma get_insert_ne j k v m : j <> k -> get j (insert k v m) = get j m.
Proof.
  intros Hj. assert (Hc : cmp j k <> Eq) by by rewrite cmp_eq.
  induction m as [|[k' v'] m IH]; cbn; [by destruct (cmp j k)|].
  destruct (cmp k k') eqn:E; cbn.
  - apply cmp_eq in E as <-. by destruct (cmp j k).
  - destruct (cmp j k); [done| |]; done.
  - by rewrite IH.
Qed.

Lemma insert_sorted k v m : sorted m -> sorted (insert k v m).
Proof.
  induction m as [|[k' v'] m IH]; cbn; [by split|]. intros [Hall Hs].
  destruct (cmp k k') eqn:E; cbn.
  - by split.
  - split; [constructor; [done|]|by split].
    revert Hall. apply Forall_impl. intros [k2 v2] Hk. cbn in *. by eapply cmp_trans.
  - split; [|by apply IH]. clear IH Hs.
    assert (Hk : cmp k' k = Lt) by (rewrite (cmp_antisym k k'), E; reflexivity).
    induction m as [|[k2 v2] m IH2]; cbn; [by constructor|]. pose proof (Forall_inv Hall) as H1. apply Forall_inv_tail in Hall.
    destruct (cmp k k2); repeat (constructor; try done); by apply IH2.
Qed.

Lemma get_Some_In k v m : get k m = Some v -> In (k, v) m.
Proof.
  induction m as [|[k' v'] m IH]; cbn; [done|]. destruct (cmp k k') eqn:E; auto.
  apply cmp_eq in E as <-. intros [= ->]. by left.
Qed.

(** In a sorted map every entry is found. *)
Lemma In_get k v m : sorted m -> In (k, v) m -> get k m = Some v.
Proof.
  induction m as [|[k' v'] m IH]; cbn; [done|]. intros [Hall Hs] [[= -> ->]|Hin]; [by rewrite cmp_refl|].
  destruct (cmp k k') eqn:E; try by apply IH. apply cmp_eq in E as ->.
  rewrite Forall_forall in Hall. specialize (Hall _ Hin). cbn in Hall.
  by rewrite cmp_refl in Hall.
Qed.

Lemma insert_Forall (P : K * V -> Prop) k v m : P (k, v) -> Forall P m -> Forall P (insert k v m).
Proof.
  intros Hk. induction 1 as [|[k' v'] m H1 H2 IH]; cbn; [by repeat constructor|].
  destruct (cmp k k') eqn:E; [|by repeat constructor|by constructor].
  apply cmp_eq in E as <-. by constructor.
Qed.

Lemma get_Forall (P : K * V -> Prop) k v m : Forall P m -> get k m = Some v -> P (k, v).
Proof. intros H1 Hg. apply get_Some_In in Hg. by apply (proj1 (List.Forall_forall _ _) H1). Qed.
End Map.

(** Maps over the values. *)
Lemma get_map {K V W} `{Ord K} (f : V -> W) k (m : list (K * V)) :
  get k (map (fun e => (e.1, f e.2)) m) = f <$> get k m.
Proof. induction m as [|[k' v] m IH]; cbn; [done|]. by destruct (cmp k k'). Qed.

Lemma sorted_map {K V W} `{Ord K} (f : K * V -> W) (m : list (K * V)) :
  sorted m -> sorted (map (fun e => (e.1, f e)) m).
Proof.
  induction m as [|[k v] m IH]; cbn; [done|]. intros [Hall Hs]. split; [|by apply IH].
  clear IH Hs. induction m as [|e m IH]; cbn; constructor.
  - apply (Forall_inv Hall).
  - apply IH, (Forall_inv_tail Hall).
Qed.
