(* ===== verification/Fdt.v ===== *)
(** * kernel_chip_drivers: the flattened device tree

    [kernel_chip_drivers/src/fdt.rs].  The blob is a list of bytes at an address;
    an access outside it, or of a [u32] at an address that is not a multiple of 4,
    is undefined.  A string is the list of its bytes.  A node is found by its path,
    the keys of the maps that lead to it, and a reference to a node ([PHandle]) is
    such a path.  [kernel_struct], which holds objects of the drivers and is [None]
    in every node built here, is left out; the printing of a tree is in Printing.

    A 64-bit cell is only aligned to 4 in the blob, and the code loads it with one
    [u64] load: [misaligned_u64] says whether the machine completes such a load. *)

From S2P Require Import Prelude Utf8 BTreeMap.

Abbreviation str := (list Z).

Definition AT : Z := 0x40.     (* ['@'] *)
Definition SLASH : Z := 0x2F.  (* ['/'] *)

(** The string literals of the code. *)
Definition PHANDLE : str := [0x70; 0x68; 0x61; 0x6E; 0x64; 0x6C; 0x65].
Definition INTERRUPT_PARENT : str :=
  [0x69; 0x6E; 0x74; 0x65; 0x72; 0x72; 0x75; 0x70; 0x74; 0x2D; 0x70; 0x61; 0x72; 0x65; 0x6E; 0x74].

(** ** Nodes *)

Abbreviation Path := (list (str * option Z)).

Inductive PropertyValue :=
  | Empty
  | PHandleRaw (handle : Z)
  | PHandle (target : Path)
  | u32 (value : Z)
  | u64 (value : Z)
  | PropSpecific (data : list Z)
  | String (value : str)
  | StringList (value : list str).

#[export] Instance PropertyValue_eq_dec : EqDecision PropertyValue.
Proof. solve_decision. Defined.

Inductive Node := mkNode {
  name : str;
  unit_address : option Z;
  children : list (str * list (option Z * Node));
  properties : list (str * PropertyValue)
}.

(** [split_once(sep)]; [splitn(2, sep)] yields the whole string without one. *)
Fixpoint split_once (sep : Z) (l : str) : option (str * str) :=
  match l with
  | [] => None
  | b :: l => if b =? sep then Some ([], l)
              else r ← split_once sep l; Some (b :: r.1, r.2)
  end.

Definition splitn2 (sep : Z) (l : str) : str * option str :=
  match split_once sep l with Some (a, r) => (a, Some r) | None => (l, None) end.

Definition parse_address (s : str) : Z := default 0 (from_str_radix_16 s).

Module Node.

Definition new (token_name : str) : Node :=
  let '(name, rest) := splitn2 AT token_name in
  mkNode name (parse_address <$> rest) [] [].

Definition set_children (c : list (str * list (option Z * Node))) (n : Node) : Node :=
  mkNode (name n) (unit_address n) c (properties n).
Definition set_properties (p : list (str * PropertyValue)) (n : Node) : Node :=
  mkNode (name n) (unit_address n) (children n) p.

(** The child a component of a path names. *)
Definition get_component (this : Node) (first_component : str) : option Node :=
  match split_once AT first_component with
  | Some (name, address) =>
      m ← get name (children this);
      match address with
      | [] => head (values m)
      | _ => get (Some (parse_address address)) m
      end
  | None => m ← get first_component (children this); get None m
  end.

(** One unit of fuel for each component. *)
Fixpoint get_fuel (fuel : nat) (this : Node) (path : str) : option Node :=
  match fuel with
  | O => None
  | S fuel =>
      let '(first_component, rest) := splitn2 SLASH path in
      child ← get_component this first_component;
      match rest with
      | Some rest => get_fuel fuel child rest
      | None => Some child
      end
  end.

Definition get (this : Node) (path : str) : option Node := get_fuel (S (length path)) this path.

Definition children_list (this : Node) : list Node :=
  concat (map (fun e => map snd (snd e)) (children this)).

Definition children_names (this : Node) : list str := map name (children_list this).

Definition children_names_address (this : Node) : list str :=
  map (fun s => match unit_address s with
                | Some addr => name s ++ [AT] ++ hex_string addr
                | None => name s
                end) (children_list this).

Definition insert_child (other : Node) (this : Node) : Node :=
  let d := match BTreeMap.get (name other) (children this) with
           | Some d => insert (unit_address other) other d
           | None => insert (unit_address other) other []
           end in
  set_children (insert (name other) d (children this)) this.

(** The nodes in the order the closure of [walk] sees them, each with its path. *)
Fixpoint walk (p : Path) (this : Node) : list (Path * Node) :=
  (p, this) ::
  concat (map (fun e => concat (map (fun c => walk (p ++ [(e.1, c.1)]) c.2) e.2)) (children this)).

(** [walk_mut] with a closure that changes the properties only. *)
Fixpoint walk_mut (f : list (str * PropertyValue) -> list (str * PropertyValue)) (this : Node) : Node :=
  mkNode (name this) (unit_address this)
    (map (fun e => (e.1, map (fun c => (c.1, walk_mut f c.2)) e.2)) (children this))
    (f (properties this)).

(** The node at a path of keys. *)
Fixpoint follow (this : Node) (p : Path) : option Node :=
  match p with
  | [] => Some this
  | (k, a) :: p => m ← BTreeMap.get k (children this); c ← BTreeMap.get a m; follow c p
  end.
End Node.

(** ** The blob *)

Record Blob := mkBlob { base : Z; bytes : list Z }.

Fixpoint le_combine (l : list Z) : Z :=
  match l with [] => 0 | b :: l => b + 256 * le_combine l end.

Fixpoint le_split (n : nat) (v : Z) : list Z :=
  match n with O => [] | S n => v mod 256 :: le_split n (v / 256) end.

(** [swap_bytes] on an integer of [n] bytes. *)
Definition swap_bytes (n : nat) (v : Z) : Z := le_combine (rev (le_split n v)).

Definition at_address (b : Blob) (a : Z) : outcome (list Z) :=
  if (base b <=? a) && (a <=? base b + Z.of_nat (length (bytes b)))
  then Val (drop (Z.to_nat (a - base b)) (bytes b)) else Stop Undefined.

(** [slice::from_raw_parts(a, n)] *)
Definition from_raw_parts (b : Blob) (a n : Z) : outcome (list Z) :=
  l ← at_address b a;
  if n <=? Z.of_nat (length l) then Val (take (Z.to_nat n) l) else Stop Undefined.

(** [( *p).swap_bytes()] for [p : *const u32]. *)
Definition read_be32 (b : Blob) (a : Z) : outcome Z :=
  if a mod 4 =? 0
  then l ← from_raw_parts b a 4; Val (swap_bytes 4 (le_combine l))
  else Stop Undefined.

(** [CStr::from_ptr]: the bytes before the null. *)
Fixpoint c_str (l : list Z) : outcome (list Z) :=
  match l with
  | [] => Stop Undefined
  | b :: l => if b =? 0 then Val [] else s ← c_str l; Val (b :: s)
  end.

Definition to_str_unwrap (l : list Z) : outcome str :=
  match from_utf8 l with Ok s => Val s | Err _ => Stop UnwrapFailed end.

Definition offset_dt_struct (b : Blob) : outcome Z := read_be32 b (base b + 8).
Definition offset_dt_strings (b : Blob) : outcome Z := read_be32 b (base b + 12).

Definition get_string (b : Blob) (offset : Z) : outcome str :=
  strings ← offset_dt_strings b;
  l ← at_address b (base b + strings + offset);
  s ← c_str l;
  to_str_unwrap s.

(** ** [PropertyValue::guess] *)

(** The loop over all but the last byte: [is_string] and [is_string_list]. *)
Fixpoint scan (l : list Z) (is_string_list prev_is_zero : bool) : bool * bool :=
  match l with
  | [] => (true, is_string_list)
  | i :: l =>
      if (i =? 0) && negb prev_is_zero then scan l true true
      else if i <? 0x20 then (false, false)
      else scan l is_string_list false
  end.

(** The strings that end at a null; [here] is the part of the current one. *)
Fixpoint split_nulls (here l : list Z) : outcome (list str) :=
  match l with
  | [] => Val []
  | i :: l => if i =? 0
              then s ← to_str_unwrap here; rest ← split_nulls [] l; Val (s :: rest)
              else split_nulls (here ++ [i]) l
  end.

Section Parse.
Context (misaligned_u64 : bool).

(** [value] is the slice at [address]. *)
Definition guess (address : Z) (value : list Z) (name : option str) : outcome PropertyValue :=
  match value with
  | [] => Val Empty
  | _ =>
      let '(is_string, is_string_list) := scan (removelast value) false true in
      if is_string_list then l ← split_nulls [] value; Val (StringList l)
      else if is_string then s ← to_str_unwrap (removelast value); Val (String s)
      else if (length value =? 8)%nat then
        if (address mod 8 =? 0) || misaligned_u64
        then Val (u64 (swap_bytes 8 (le_combine value))) else Stop Undefined
      else if (length value =? 4)%nat then
        if address mod 4 =? 0 then
          let v := swap_bytes 4 (le_combine value) in
          if decide (default [] name = INTERRUPT_PARENT) then Val (PHandleRaw v) else Val (u32 v)
        else Stop Undefined
      else Val (PropSpecific value)
  end.

(** ** [build] *)

Inductive StructureToken := BeginNode | EndNode | Prop_ | Nop | End_ | Unknown.

Definition structure_token (v : Z) : StructureToken :=
  if v =? 1 then BeginNode else if v =? 2 then EndNode else if v =? 3 then Prop_
  else if v =? 4 then Nop else if v =? 9 then End_ else Unknown.

Record Build := mkBuild { token : Z; node_stack : list Node; current_node : option Node }.

(** The alignment the code writes out after names and values. *)
Definition align4 (token : Z) : Z :=
  let remain := token mod 4 in
  let div := token / 4 in
  (if remain =? 0 then div else div + 1) * 4.

Definition begin_node (b : Blob) (s : Build) : outcome Build :=
  let stack := match current_node s with Some t => node_stack s ++ [t] | None => node_stack s end in
  l ← at_address b (token s + 4);
  name ← c_str l;
  let token' := align4 (token s + (Z.of_nat (length name) + 1) + 1) in
  name ← to_str_unwrap name;
  Val (mkBuild token' stack (Some (Node.new name))).

(** [VecDeque::pop_back] *)
Definition pop_back {A} (l : list A) : option (list A * A) :=
  match rev l with [] => None | x :: l => Some (rev l, x) end.

Definition end_node (s : Build) : Build :=
  match current_node s with
  | None => mkBuild (token s + 4) (node_stack s) None
  | Some t =>
      match pop_back (node_stack s) with
      | Some (stack, parent) => mkBuild (token s + 4) stack (Some (Node.insert_child t parent))
      | None => mkBuild (token s + 4) (node_stack s) (Some t)
      end
  end.

Definition prop (b : Blob) (s : Build) : outcome Build :=
  name_offset ← read_be32 b (token s + 8);
  name ← get_string b name_offset;
  len ← read_be32 b (token s + 4);
  let token' := token s + 12 in
  current ← match current_node s with
            | None => Val None
            | Some t =>
                value ← from_raw_parts b token' len;
                v ← guess token' value (Some name);
                Val (Some (Node.set_properties (insert name v (properties t)) t))
            end;
  Val (mkBuild (align4 (token' + len)) (node_stack s) current).

(** One turn of the loop: the next state, or the node it breaks with. *)
Definition build_step (b : Blob) (s : Build) : outcome (Build + option Node) :=
  t ← read_be32 b (token s);
  match structure_token t with
  | BeginNode => s ← begin_node b s; Val (inl s)
  | EndNode => Val (inl (end_node s))
  | Prop_ => s ← prop b s; Val (inl s)
  | Nop => Val (inl (mkBuild (token s + 4) (node_stack s) (current_node s)))
  | End_ => Val (inr (current_node s))
  | Unknown => Val (inl (mkBuild (token s + 4) (node_stack s) (current_node s)))
  end.

Fixpoint build_loop (fuel : nat) (b : Blob) (s : Build) : option (outcome (option Node)) :=
  match fuel with
  | O => None
  | S fuel =>
      match build_step b s with
      | Stop p => Some (Stop p)
      | Val (inr r) => Some (Val r)
      | Val (inl s) => build_loop fuel b s
      end
  end.

(** A turn for every word of the blob and one more. *)
Definition build_fuel (b : Blob) : nat := S (length (bytes b)).

Definition build (b : Blob) (token : Z) : option (outcome Node) :=
  r ← build_loop (build_fuel b) b (mkBuild token [] None);
  Some (n ← r; match n with Some n => Val n | None => Stop UnwrapFailed end).

(** ** [link_phandles], [init] *)

Definition phandle_map (root : Node) : list (Z * Path) :=
  foldl (fun phandles pn =>
           match get PHANDLE (properties pn.2) with
           | Some (u32 phandle) => insert phandle pn.1 phandles
           | _ => phandles
           end) [] (Node.walk [] root).

Definition link_value (phandles : list (Z * Path)) (v : PropertyValue) : PropertyValue :=
  match v with
  | PHandleRaw handle => match get handle phandles with Some target => PHandle target | None => v end
  | _ => v
  end.

Definition link_phandles (root : Node) : Node :=
  let phandles := phandle_map root in
  Node.walk_mut (map (fun e => (e.1, link_value phandles e.2))) root.

Definition init (b : Blob) : option (outcome Node) :=
  match offset_dt_struct b with
  | Stop p => Some (Stop p)
  | Val o => r ← build b (base b + o); Some (n ← r; Val (link_phandles n))
  end.
End Parse.

(** ** Termination *)

Lemma align4_spec x : x <= align4 x < x + 4 /\ align4 x mod 4 = 0.
Proof.
  unfold align4. pose proof (Z.div_mod x 4 ltac:(lia)). pose proof (Z.mod_pos_bound x 4 ltac:(lia)).
  destruct (Z.eqb_spec (x mod 4) 0); (split; [lia|apply Z.mod_mul; lia]).
Qed.

Lemma align4_exact x n : x mod 4 = 0 -> x < n <= x + 4 -> align4 n = x + 4.
Proof.
  intros Hx Hn. pose proof (align4_spec n) as [H1 H2].
  pose proof (Z.div_mod x 4 ltac:(lia)). pose proof (Z.div_mod (align4 n) 4 ltac:(lia)). lia.
Qed.

Lemma le_combine_nonneg l : Forall (fun b => 0 <= b) l -> 0 <= le_combine l.
Proof. induction 1; cbn [le_combine]; lia. Qed.

Lemma le_split_bytes n v : Forall is_byte (le_split n v).
Proof.
  revert v. induction n as [|n IH]; intros v; cbn [le_split]; constructor; [|apply IH].
  apply Z.mod_pos_bound. lia.
Qed.

Lemma swap_bytes_nonneg n v : 0 <= swap_bytes n v.
Proof.
  apply le_combine_nonneg, List.Forall_rev. eapply List.Forall_impl; [|apply (le_split_bytes n v)].
  unfold is_byte. cbn. lia.
Qed.

Lemma at_address_bounds b a l :
  at_address b a = Val l -> base b <= a <= base b + Z.of_nat (length (bytes b)) /\
    Z.of_nat (length l) = base b + Z.of_nat (length (bytes b)) - a.
Proof.
  unfold at_address. destruct (Z.leb_spec (base b) a), (Z.leb_spec a (base b + Z.of_nat (length (bytes b))));
    try discriminate. intros [= <-]. rewrite length_drop. lia.
Qed.

Lemma read_be32_bounds b a v :
  read_be32 b a = Val v -> base b <= a /\ a + 4 <= base b + Z.of_nat (length (bytes b)) /\ a mod 4 = 0 /\ 0 <= v.
Proof.
  unfold read_be32, from_raw_parts. destruct (Z.eqb_spec (a mod 4) 0); [|done]. intros E.
  apply bind_inv in E as (l & E & [= <-]). apply bind_inv in E as (l' & E & E').
  apply at_address_bounds in E. destruct (Z.leb_spec 4 (Z.of_nat (length l'))); [|done].
  pose proof (swap_bytes_nonneg 4 (le_combine l)). lia.
Qed.

(** Every turn of the loop moves on by at least one word inside the blob. *)
Lemma build_step_progress m b s s' :
  build_step m b s = Val (inl s') ->
  base b <= token s /\ token s + 4 <= base b + Z.of_nat (length (bytes b)) /\ token s + 4 <= token s'.
Proof.
  unfold build_step. intros E. apply bind_inv in E as (t & E0 & E). apply read_be32_bounds in E0 as (H1 & H2 & H3 & _).
  split; [done|]. split; [done|]. destruct (structure_token t).
  - apply bind_inv in E as (s1 & E1 & [= <-]). unfold begin_node in E1.
    apply bind_inv in E1 as (l & _ & E1). apply bind_inv in E1 as (name & _ & E1).
    apply bind_inv in E1 as (str & _ & [= <-]). cbn [token].
    destruct (align4_spec (token s + (Z.of_nat (length name) + 1) + 1)) as [H4 H5].
    pose proof (Z.div_mod (token s) 4 ltac:(lia)).
    pose proof (Z.div_mod (align4 (token s + (Z.of_nat (length name) + 1) + 1)) 4 ltac:(lia)). lia.
  - injection E as <-. unfold end_node. destruct (current_node s), (pop_back (node_stack s)) as [[]|]; cbn; lia.
  - apply bind_inv in E as (s1 & E1 & [= <-]). unfold prop in E1.
    apply bind_inv in E1 as (o & _ & E1). apply bind_inv in E1 as (name & _ & E1).
    apply bind_inv in E1 as (len & E2 & E1). apply bind_inv in E1 as (current & _ & [= <-]). cbn [token].
    apply read_be32_bounds in E2. pose proof (align4_spec (token s + 12 + len)). lia.
  - injection E as <-. cbn. lia.
  - discriminate E.
  - injection E as <-. cbn. lia.
Qed.

Lemma build_loop_terminates m b fuel s :
  Z.max 0 (base b + Z.of_nat (length (bytes b)) - Z.max (token s) (base b)) < Z.of_nat fuel ->
  build_loop m fuel b s <> None.
Proof.
  revert s. induction fuel as [|fuel IH]; intros s Hf; [lia|]. cbn [build_loop].
  destruct (build_step m b s) as [[s'|r]|p] eqn:E; [|done|done].
  apply build_step_progress in E. apply IH. lia.
Qed.

(** C19: building the tree terminates on every blob, well-formed or not, and at
    every start: as many turns as the blob has bytes, and one, are enough. *)
Theorem build_terminates m b start : exists r, build m b start = Some r.
Proof.
  unfold build. destruct (build_loop m (build_fuel b) b (mkBuild start [] None)) eqn:E; [by eexists|].
  exfalso. apply (build_loop_terminates m b (build_fuel b) (mkBuild start [] None)); [|done].
  unfold build_fuel. lia.
Qed.

(** ** The maps of a tree are sorted and keyed by what they hold *)

Section NodeInduction.
Context (P : Node -> Prop).
Hypothesis step : forall n u ch pr,
  Forall (fun e => Forall (fun c => P (snd c)) (snd e)) ch -> P (mkNode n u ch pr).

Fixpoint Node_nested_ind (n : Node) : P n :=
  match n with
  | mkNode n u ch pr =>
      step n u ch pr
        ((fix outer (ch : list (str * list (option Z * Node))) : Forall (fun e => Forall (fun c => P (snd c)) (snd e)) ch :=
            match ch with
            | [] => Forall_nil _
            | e :: ch =>
                Forall_cons _ e ch
                  ((fix inner (m : list (option Z * Node)) : Forall (fun c => P (snd c)) m :=
                      match m with
                      | [] => Forall_nil _
                      | c :: m => Forall_cons _ c m (Node_nested_ind (snd c)) (inner m)
                      end) (snd e))
                  (outer ch)
            end) ch)
  end.
End NodeInduction.

Inductive node_ok : Node -> Prop :=
  | node_ok_intro n :
      sorted (children n) -> sorted (properties n) ->
      Forall (fun e => sorted (snd e) /\
        Forall (fun c => name (snd c) = fst e /\ unit_address (snd c) = fst c /\ node_ok (snd c)) (snd e)) (children n) ->
      node_ok n.

Lemma new_ok token_name : node_ok (Node.new token_name).
Proof. unfold Node.new. destruct (splitn2 AT token_name). by constructor. Qed.

Lemma set_property_ok k v n : node_ok n -> node_ok (Node.set_properties (insert k v (properties n)) n).
Proof. intros [n' H1 H2 H3]. constructor; cbn; [done|by apply insert_sorted|done]. Qed.

Lemma insert_child_ok other this : node_ok other -> node_ok this -> node_ok (Node.insert_child other this).
Proof.
  intros Ho [n H1 H2 H3]. constructor; cbn; [by apply insert_sorted|done|].
  apply insert_Forall; [|done]. cbn.
  destruct (BTreeMap.get (name other) (children n)) as [d|] eqn:E.
  - destruct (get_Forall _ _ _ _ H3 E) as [Hs Hf]. cbn in Hs, Hf.
    split; [by apply insert_sorted|]. by apply insert_Forall.
  - split; [split; [constructor|exact I]|]. constructor; [|constructor]. split; [done|]. by split.
Qed.

Definition build_ok (s : Build) : Prop :=
  Forall node_ok (node_stack s) /\ (forall n, current_node s = Some n -> node_ok n).

Lemma pop_back_Some {A} (l : list A) stack x : pop_back l = Some (stack, x) -> l = stack ++ [x].
Proof.
  unfold pop_back. destruct (rev l) as [|y l'] eqn:E; [done|]. intros [= <- <-].
  rewrite <-(rev_involutive l), E. done.
Qed.

Lemma build_step_ok m b s r :
  build_step m b s = Val r -> build_ok s ->
  match r with inl s' => build_ok s' | inr n => forall n', n = Some n' -> node_ok n' end.
Proof.
  unfold build_step. intros E [Hst Hcu]. apply bind_inv in E as (t & _ & E). destruct (structure_token t).
  - apply bind_inv in E as (s1 & E1 & [= <-]). unfold begin_node in E1.
    apply bind_inv in E1 as (l & _ & E1). apply bind_inv in E1 as (nm & _ & E1).
    apply bind_inv in E1 as (st & _ & [= <-]). split; cbn.
    + destruct (current_node s) as [c|] eqn:Ec; [|done]. apply List.Forall_app. split; [done|].
      constructor; [by apply Hcu|constructor].
    + intros n [= <-]. apply new_ok.
  - injection E as <-. unfold end_node. destruct (current_node s) as [c|] eqn:Ec; [|by split].
    destruct (pop_back (node_stack s)) as [[stack parent]|] eqn:Ep.
    + apply pop_back_Some in Ep. rewrite Ep in Hst. apply List.Forall_app in Hst as [Hst Hp].
      split; cbn; [done|]. intros n [= <-]. apply insert_child_ok; [by apply Hcu|apply (Forall_inv Hp)].
    + split; cbn; [done|]. intros n [= <-]. by apply Hcu.
  - apply bind_inv in E as (s1 & E1 & [= <-]). unfold prop in E1.
    apply bind_inv in E1 as (o & _ & E1). apply bind_inv in E1 as (nm & _ & E1).
    apply bind_inv in E1 as (len & _ & E1). apply bind_inv in E1 as (cu & E2 & [= <-]).
    split; cbn; [done|]. intros n ->. destruct (current_node s) as [c|]; [|done].
    apply bind_inv in E2 as (v & _ & E2). apply bind_inv in E2 as (pv & _ & [= <-]).
    apply set_property_ok. by apply Hcu.
  - injection E as <-. by split.
  - injection E as <-. exact Hcu.
  - injection E as <-. by split.
Qed.

Lemma build_node_ok m b start n : build m b start = Some (Val n) -> node_ok n.
Proof.
  unfold build. destruct (build_loop m (build_fuel b) b (mkBuild start [] None)) as [r|] eqn:E; [|done].
  cbn [mbind option_bind]. intros [= Hr]. apply bind_inv in Hr as ([n'|] & -> & Hn); [|done]. injection Hn as <-.
  assert (Hok : build_ok (mkBuild start [] None)) by by split.
  revert E Hok. generalize (mkBuild start [] None). induction (build_fuel b) as [|fuel IH]; intros s E Hok; [done|].
  cbn [build_loop] in E. destruct (build_step m b s) as [[s'|r]|p] eqn:Es; [| |done].
  - apply build_step_ok in Es; [|done]. by apply (IH s').
  - apply build_step_ok in Es; [|done]. injection E as ->. by apply Es.
Qed.

(** ** Paths *)

Lemma in_walk this p pn :
  In pn (Node.walk p this) <->
  pn = (p, this) \/ exists e c, In e (children this) /\ In c (snd e) /\ In pn (Node.walk (p ++ [(fst e, fst c)]) (snd c)).
Proof.
  destruct this as [nm u ch pr]. cbn [Node.walk In children]. rewrite in_concat. split.
  - intros [<-|(l & Hl & Hin)]; [by left|right]. apply in_map_iff in Hl as (e & <- & He).
    apply in_concat in Hin as (l & Hl & Hin). apply in_map_iff in Hl as (c & <- & Hc). by exists e, c.
  - intros [->|(e & c & He & Hc & Hin)]; [by left|right].
    eexists. split; [apply in_map_iff; by exists e|]. apply in_concat. eexists. split; [apply in_map_iff; by exists c|done].
Qed.

Lemma walk_follow this : node_ok this -> forall p q n,
  In (q, n) (Node.walk p this) -> exists r, q = p ++ r /\ Node.follow this r = Some n.
Proof.
  induction this as [nm u ch pr IH] using Node_nested_ind. intros Hok p q n Hin.
  apply in_walk in Hin as [[= -> ->]|(e & c & He & Hc & Hin)]; [exists []; by rewrite app_nil_r|].
  inversion Hok as [n' Hs _ Hf]; subst n'. cbn [children] in *.
  pose proof (proj1 (List.Forall_forall _ _) Hf e He) as [Hse Hfe].
  pose proof (proj1 (List.Forall_forall _ _) Hfe c Hc) as (_ & _ & Hokc).
  pose proof (proj1 (List.Forall_forall _ _) (proj1 (List.Forall_forall _ _) IH e He) c Hc Hokc) as IHc.
  destruct (IHc _ _ _ Hin) as (r & -> & Hr). exists ((fst e, fst c) :: r).
  split; [by rewrite <-app_assoc|]. cbn [Node.follow children].
  rewrite (In_get (fst e) (snd e) ch Hs) by (by destruct e). cbn [mbind option_bind].
  rewrite (In_get (fst c) (snd c) (snd e) Hse) by (by destruct c). exact Hr.
Qed.

Lemma follow_walk q : forall this p n, Node.follow this q = Some n -> In (p ++ q, n) (Node.walk p this).
Proof.
  induction q as [|[k a] q IH]; intros this p n Hf; apply in_walk.
  - injection Hf as <-. left. by rewrite app_nil_r.
  - right. cbn [Node.follow] in Hf. destruct (BTreeMap.get k (children this)) as [m|] eqn:Ek; [|done].
    cbn [mbind option_bind] in Hf. destruct (BTreeMap.get a m) as [c|] eqn:Ea; [|done]. cbn [mbind option_bind] in Hf.
    exists (k, m), (a, c). split; [by apply get_Some_In|]. split; [by apply get_Some_In|].
    cbn [fst snd]. replace (p ++ (k, a) :: q) with ((p ++ [(k, a)]) ++ q) by (by rewrite <-app_assoc). by apply IH.
Qed.

Lemma follow_ok q : forall this n, node_ok this -> Node.follow this q = Some n -> node_ok n.
Proof.
  induction q as [|[k a] q IH]; intros this n Hok Hf; cbn [Node.follow] in Hf; [by injection Hf as <-|].
  destruct Hok as [this _ _ Hall]. destruct (BTreeMap.get k (children this)) as [m|] eqn:Ek; [|done].
  cbn [mbind option_bind] in Hf. destruct (BTreeMap.get a m) as [c|] eqn:Ea; [|done]. cbn [mbind option_bind] in Hf.
  destruct (get_Forall _ _ _ _ Hall Ek) as [_ Hm]. destruct (get_Forall _ _ _ _ Hm Ea) as (_ & _ & Hc).
  by apply (IH c).
Qed.

Lemma follow_walk_mut f q : forall this,
  Node.follow (Node.walk_mut f this) q = Node.walk_mut f <$> Node.follow this q.
Proof.
  induction q as [|[k a] q IH]; intros [nm u ch pr]; [done|]. cbn [Node.follow Node.walk_mut children].
  rewrite (get_map (fun m => map (fun c => (c.1, Node.walk_mut f c.2)) m)).
  destruct (BTreeMap.get k ch) as [m|]; [|done]. cbn [fmap option_fmap option_map mbind option_bind].
  rewrite (get_map (Node.walk_mut f)). destruct (BTreeMap.get a m) as [c|]; [|done]. apply IH.
Qed.

(** ** The phandles *)

Lemma phandle_map_spec root h :
  match get h (phandle_map root) with
  | Some t => exists m, In (t, m) (Node.walk [] root) /\ get PHANDLE (properties m) = Some (u32 h)
  | None => forall t m, In (t, m) (Node.walk [] root) -> get PHANDLE (properties m) <> Some (u32 h)
  end.
Proof.
  unfold phandle_map. generalize (Node.walk [] root) as l. intros l.
  induction l as [|[t m] l IH] using rev_ind; [cbn; tauto|]. rewrite foldl_app. cbn [foldl fst snd].
  set (acc := foldl _ _ l) in *.
  assert (Hother : get PHANDLE (properties m) <> Some (u32 h) -> forall acc', get h acc' = get h acc ->
    match get h acc' with
    | Some t0 => exists m0, In (t0, m0) (l ++ [(t, m)]) /\ get PHANDLE (properties m0) = Some (u32 h)
    | None => forall t0 m0, In (t0, m0) (l ++ [(t, m)]) -> get PHANDLE (properties m0) <> Some (u32 h)
    end).
  { intros Hne acc' ->. destruct (get h acc) as [t0|].
    - destruct IH as (m0 & Hin & Hm). exists m0. split; [apply in_app_iff; by left|done].
    - intros t0 m0 [Hin|[[= -> ->]|[]]]%in_app_iff; [by apply (IH t0)|done]. }
  destruct (get PHANDLE (properties m)) as [[]|] eqn:Em; try (by apply Hother).
  destruct (Z.eq_dec value h) as [->|Hne].
  - rewrite get_insert. exists m. split; [apply in_app_iff; right; by left|done].
  - apply Hother; [congruence|]. by apply get_insert_ne.
Qed.

(** C18: whatever the blob holds, if [init] returns then the tree is well-formed
    (the maps sorted, every child under its own name and address), and linking
    changes nothing but the raw phandles: each becomes a path to a node of the
    result that has this phandle, or stays when no node has it.  [raw] is the tree
    of [build], [root] the result. *)
Theorem init_links_phandles m b root :
  init m b = Some (Val root) ->
  exists start raw, build m b start = Some (Val raw) /\ node_ok raw /\
    forall p n, Node.follow raw p = Some n -> exists n', Node.follow root p = Some n' /\
      name n' = name n /\ unit_address n' = unit_address n /\
      forall k v, get k (properties n) = Some v ->
        match v with
        | PHandleRaw h =>
            (exists t target, get k (properties n') = Some (PHandle t) /\
               Node.follow root t = Some target /\ get PHANDLE (properties target) = Some (u32 h)) \/
            (get k (properties n') = Some v /\
             forall q other, Node.follow raw q = Some other -> get PHANDLE (properties other) <> Some (u32 h))
        | _ => get k (properties n') = Some v
        end.
Proof.
  unfold init. destruct (offset_dt_struct b) as [o|]; [|done]. intros E.
  destruct (build m b (base b + o)) as [r|] eqn:Eb; [|done]. cbn [mbind option_bind] in E. injection E as E.
  apply bind_inv in E as (raw & -> & [= <-]). exists (base b + o), raw. split; [done|].
  pose proof (build_node_ok _ _ _ _ Eb) as Hok. split; [done|]. intros p n Hp.
  unfold link_phandles. set (f := map _). exists (Node.walk_mut f n). rewrite follow_walk_mut, Hp.
  split; [done|]. destruct n as [nm u ch pr]. split; [done|]. split; [done|]. cbn [Node.walk_mut properties].
  intros k v Hv. pose proof (get_map (link_value (phandle_map raw)) k pr) as Hg. rewrite Hv in Hg.
  fold f in Hg. rewrite Hg. cbn [fmap option_fmap option_map]. destruct v as [|h|t|z|z|d|s|l]; try done.
  cbn [link_value]. pose proof (phandle_map_spec raw h) as Hh. destruct (get h (phandle_map raw)) as [t|].
  - left. destruct Hh as (target & Hin & Ht). apply walk_follow in Hin as (q & -> & Hq); [|done].
    exists q, (Node.walk_mut f target). cbn [app]. split; [done|]. rewrite follow_walk_mut, Hq. split; [done|].
    destruct target as [nm' u' ch' pr']. cbn [Node.walk_mut properties] in *.
    pose proof (get_map (link_value (phandle_map raw)) PHANDLE pr') as Hg'. fold f in Hg'. by rewrite Hg', Ht.
  - right. split; [done|]. intros q other Hq. apply (Hh q). by apply (follow_walk q raw []).
Qed.
