(* ===== verification/FdtStatics.v ===== *)
(** * kernel_chip_drivers: the layout of the blob and the statics of the tree

    The structures [FdtHeader] and [PropToken] of [kernel_chip_drivers/src/fdt.rs],
    read field by field as the casts of [init], [get_string] and [build] lay them
    over the blob; and the two statics, [DEVICE_TREE_BASE] and [DEVICE_TREE_ROOT],
    that [init] writes and [root] reads. *)

From S2P Require Import Prelude Utf8 BTreeMap Fdt.

(** ** The structures *)

Record FdtHeader := mkFdtHeader {
  magic : Z;
  total_size : Z;
  header_dt_struct : Z;
  header_dt_strings : Z;
  offset_memory_reservemap : Z;
  version : Z;
  last_compatible_version : Z;
  boot_cpuid : Z;
  size_dt_strings : Z;
  size_dt_struct : Z
}.

Record PropToken := mkPropToken { prop_token : Z; prop_len : Z; prop_name_offset : Z }.

(** A field of a [repr(C)] structure of [u32]s, swapped. *)
Definition field (b : Blob) (a : Z) (n : Z) : outcome Z := read_be32 b (a + 4 * n).

Definition load_header (b : Blob) : outcome FdtHeader :=
  m ← field b (base b) 0;
  total ← field b (base b) 1;
  structs ← field b (base b) 2;
  strings ← field b (base b) 3;
  reserve ← field b (base b) 4;
  v ← field b (base b) 5;
  last ← field b (base b) 6;
  cpu ← field b (base b) 7;
  size_strings ← field b (base b) 8;
  size_struct ← field b (base b) 9;
  Val (mkFdtHeader m total structs strings reserve v last cpu size_strings size_struct).

Definition load_prop_token (b : Blob) (a : Z) : outcome PropToken :=
  t ← field b a 0; len ← field b a 1; name ← field b a 2; Val (mkPropToken t len name).

Ltac fields E := repeat (apply bind_inv in E as (? & ? & E)); injection E as <-.

(** The offsets [Fdt] reads are those of the structures' fields. *)
Lemma header_layout b h :
  load_header b = Val h ->
  offset_dt_struct b = Val (header_dt_struct h) /\ offset_dt_strings b = Val (header_dt_strings h).
Proof. intros E. fields E. by split. Qed.

Lemma prop_token_layout b a p :
  load_prop_token b a = Val p ->
  read_be32 b a = Val (prop_token p) /\ read_be32 b (a + 4) = Val (prop_len p) /\
  read_be32 b (a + 8) = Val (prop_name_offset p).
Proof. intros E. fields E. split; [|by split]. by rewrite <- (Z.add_0_r a). Qed.

(** ** The statics *)

Record Statics := mkStatics { DEVICE_TREE_BASE : option Blob; DEVICE_TREE_ROOT : option Node }.

(** Both are unset in the image of the kernel. *)
Definition unset : Statics := mkStatics None None.

(** [assume_init_ref] of what is not initialised has no meaning. *)
Definition root (s : Statics) : outcome Node :=
  match DEVICE_TREE_ROOT s with Some n => Val n | None => Stop Undefined end.

(** [Node::children_mut]: the same nodes as [children], by their keys. *)
Definition children_mut (this : Node) : list (str * option Z) :=
  concat (List.map (fun e => List.map (fun c => (e.1, c.1)) e.2) (children this)).

(** [init] with what it writes, in order: the base before the tree is built. *)
Definition init_statics (misaligned_u64 : bool) (header : Blob) (s : Statics) : option (outcome (Node * Statics)) :=
  let s := mkStatics (Some header) (DEVICE_TREE_ROOT s) in
  match init misaligned_u64 header with
  | None => None
  | Some (Stop p) => Some (Stop p)
  | Some (Val tree) =>
      let s := mkStatics (DEVICE_TREE_BASE s) (Some tree) in
      Some (r ← root s; Val (r, s))
  end.

(** [root] is for after [init]: it answers the tree [init] built last, the one
    [init] answers; before, it reads a tree that is not there. *)
Lemma root_after_init m header s r :
  root unset = Stop Undefined /\
  (init_statics m header s = Some (Val r) -> init m header = Some (Val r.1) /\ root r.2 = Val r.1).
Proof.
  split; [done|]. unfold init_statics. destruct (init m header) as [[t|]|]; [|done..]. by intros [= <-].
Qed.

(** [children_mut] reaches every child: its keys lead to the nodes of [children]. *)
Lemma children_mut_children this k a :
  node_ok this -> In (k, a) (children_mut this) ->
  exists n, Node.follow this [(k, a)] = Some n /\ In n (Node.children_list this) /\
    name n = k /\ unit_address n = a.
Proof.
  intros [n Hs _ Hall] Hin. unfold children_mut in Hin.
  apply in_concat in Hin as (l & Hl & Hin). apply in_map_iff in Hl as (e & <- & He).
  apply in_map_iff in Hin as (c & [= <- <-] & Hc).
  pose proof (proj1 (List.Forall_forall _ _) Hall e He) as [Hse Hfe].
  destruct (proj1 (List.Forall_forall _ _) Hfe c Hc) as (Hn & Hu & _).
  exists c.2. split; [|split; [|by split]].
  - cbn [Node.follow]. rewrite (In_get e.1 e.2 (children n) Hs) by (by destruct e). cbn [mbind option_bind].
    by rewrite (In_get c.1 c.2 e.2 Hse) by (by destruct c).
  - unfold Node.children_list. apply in_concat. eexists. split; [apply in_map_iff; by exists e|].
    apply in_map_iff. by exists c.
Qed.
