(* ===== verification/FdtSpec.v ===== *)
(** * The flattened device tree: specification and round trip

    The format of the Devicetree Specification v0.3, chapter 5, as an encoder of
    abstract trees, and the theorems that [Fdt.init] decodes it.  The strings
    block is any block that holds the names at the offsets used, shared or not. *)

From S2P Require Import Prelude Utf8 BTreeMap Fdt.

(** ** Encoding *)

(** Big-endian integers of [n] bytes. *)
Definition be (n : nat) (v : Z) : list Z := rev (le_split n v).

(** Null bytes up to a multiple of 4. *)
Definition pad4 (l : list Z) : list Z := l ++ replicate (Z.to_nat ((- Z.of_nat (length l)) mod 4)) 0.

Inductive Value :=
  | VEmpty
  | VString (s : str)
  | VStrings (l : list str)
  | VU32 (v : Z)
  | VU64 (v : Z)
  | VBytes (l : list Z).

Definition c_string (s : str) : list Z := s ++ [0].

Definition encode_value (v : Value) : list Z :=
  match v with
  | VEmpty => []
  | VString s => c_string s
  | VStrings l => concat (map c_string l)
  | VU32 v => be 4 v
  | VU64 v => be 8 v
  | VBytes l => l
  end.

Inductive Tree := mkTree (unit_name : str) (props : list (str * Value)) (subs : list Tree).

Definition unit_name (t : Tree) : str := let '(mkTree n _ _) := t in n.
Definition subs (t : Tree) : list Tree := let '(mkTree _ _ s) := t in s.

Section Flatten.
Context (name_offset : str -> Z).

Definition flatten_prop (p : str * Value) : list Z :=
  be 4 3 ++ be 4 (Z.of_nat (length (encode_value p.2))) ++ be 4 (name_offset p.1) ++ pad4 (encode_value p.2).

Fixpoint flatten (t : Tree) : list Z :=
  let '(mkTree n props subs) := t in
  be 4 1 ++ pad4 (c_string n) ++ concat (map flatten_prop props) ++ concat (map flatten subs) ++ be 4 2.
End Flatten.

(** The header: only the offsets of the two blocks are read. *)
Definition fdt_header (struct_len strings_len : Z) : list Z :=
  be 4 0xd00dfeed ++ be 4 (40 + struct_len + strings_len) ++ be 4 40 ++ be 4 (40 + struct_len) ++
  be 4 0 ++ be 4 17 ++ be 4 16 ++ be 4 0 ++ be 4 strings_len ++ be 4 struct_len.

Definition fdt_blob (name_offset : str -> Z) (strings : list Z) (t : Tree) : list Z :=
  let struct := flatten name_offset t ++ be 4 9 in
  fdt_header (Z.of_nat (length struct)) (Z.of_nat (length strings)) ++ struct ++ strings.

(** ** What the kernel makes of a tree *)

Definition value_of (name : str) (v : Value) : PropertyValue :=
  match v with
  | VEmpty => Empty
  | VString s => String s
  | VStrings l => StringList l
  | VU32 v => if decide (name = INTERRUPT_PARENT) then PHandleRaw v else u32 v
  | VU64 v => u64 v
  | VBytes l => PropSpecific l
  end.

Definition add_property (n : Node) (p : str * Value) : Node :=
  Node.set_properties (insert p.1 (value_of p.1 p.2) (properties n)) n.

Fixpoint node_of (t : Tree) : Node :=
  let '(mkTree n props subs) := t in
  foldl (fun n s => Node.insert_child s n) (foldl add_property (Node.new n) props) (map node_of subs).

(** ** The trees the encoding distinguishes

    The type of a property is guessed from its bytes: text has no byte below a
    space, so a number is recognised when its first byte is below one. *)

Definition text (s : str) : Prop := Forall (fun b => 0x20 <= b < 256) s /\ utf8_valid s = true.
Definition plain (s : str) : Prop := Forall (fun b => 0 < b < 256) s /\ utf8_valid s = true.

Definition value_ok (v : Value) : Prop :=
  Z.of_nat (length (encode_value v)) < 2 ^ 32 /\
  match v with
  | VEmpty => True
  | VString s => text s
  | VStrings l => (2 <= length l)%nat /\ Forall (fun s => s <> [] /\ text s) l
  | VU32 v => 0 <= v < 2 ^ 29
  | VU64 v => 0 <= v < 2 ^ 61
  | VBytes l => Forall is_byte l /\ (2 <= length l)%nat /\ length l <> 4%nat /\ length l <> 8%nat /\
                match l with b :: _ => b < 0x20 | [] => True end
  end.

Section TreeOk.
Context (name_offset : str -> Z) (strings : list Z).

Definition name_ok (s : str) : Prop :=
  plain s /\ 0 <= name_offset s < 2 ^ 32 /\
  exists rest, drop (Z.to_nat (name_offset s)) strings = c_string s ++ rest.

Inductive tree_ok : Tree -> Prop :=
  | tree_ok_intro n props subs :
      plain n -> Forall (fun p => name_ok p.1 /\ value_ok p.2) props -> Forall tree_ok subs ->
      tree_ok (mkTree n props subs).
End TreeOk.

(** ** Bytes and integers *)

Lemma le_combine_split n v : 0 <= v < 256 ^ Z.of_nat n -> le_combine (le_split n v) = v.
Proof.
  revert v. induction n as [|n IH]; intros v Hv; [cbn in *; lia|].
  rewrite Nat2Z.inj_succ, Z.pow_succ_r in Hv by lia. cbn [le_split le_combine].
  rewrite IH; [pose proof (Z.div_mod v 256 ltac:(lia)); lia|].
  split; [apply Z.div_pos; lia|apply Z.div_lt_upper_bound; lia].
Qed.

Lemma le_split_combine l : Forall is_byte l -> le_split (length l) (le_combine l) = l.
Proof.
  induction 1 as [|b l Hb Hl IH]; [done|]. cbn [length le_combine le_split]. unfold is_byte in Hb.
  rewrite (Z.mul_comm 256), Z_mod_plus, Z.mod_small, Z_div_plus, Z.div_small, Z.add_0_l, IH by lia. done.
Qed.

Lemma length_le_split n v : length (le_split n v) = n.
Proof. revert v. induction n as [|n IH]; intros v; cbn; [done|]. by rewrite IH. Qed.

Lemma length_be n v : length (be n v) = n.
Proof. unfold be. by rewrite length_rev, length_le_split. Qed.

Lemma be_bytes n v : Forall is_byte (be n v).
Proof. apply List.Forall_rev, le_split_bytes. Qed.

Lemma swap_bytes_be n v : 0 <= v < 256 ^ Z.of_nat n -> swap_bytes n (le_combine (be n v)) = v.
Proof.
  intros Hv. unfold swap_bytes.
  replace (le_split n (le_combine (be n v))) with (be n v); [unfold be; by rewrite rev_involutive, le_combine_split|].
  pose proof (le_split_combine _ (be_bytes n v)) as E. by rewrite length_be in E.
Qed.

Lemma le_split_snoc n v : le_split (S n) v = le_split n v ++ [v / 256 ^ Z.of_nat n mod 256].
Proof.
  revert v. induction n as [|n IH]; intros v; [cbn; by rewrite Z.div_1_r|].
  change (le_split (S (S n)) v) with (v mod 256 :: le_split (S n) (v / 256)). rewrite IH. cbn [le_split app].
  do 3 f_equal. rewrite Nat2Z.inj_succ, Z.pow_succ_r, Z.div_div by lia. done.
Qed.

Lemma be_cons n v : be (S n) v = v / 256 ^ Z.of_nat n mod 256 :: be n v.
Proof. unfold be. by rewrite le_split_snoc, rev_app_distr. Qed.

(** ** [guess] *)

Lemma removelast_cons {A} (x y : A) l : removelast (x :: y :: l) = x :: removelast (y :: l).
Proof. done. Qed.

Lemma scan_text s l flag prev :
  Forall (fun b => 0x20 <= b < 256) s ->
  scan (s ++ l) flag prev = scan l flag (match s with [] => prev | _ => false end).
Proof.
  intros Hs. revert prev. induction Hs as [|b s Hb Hs IH]; intros prev; [done|]. cbn [app scan].
  destruct (Z.eqb_spec b 0), (Z.ltb_spec b 0x20); try lia. cbn [andb]. rewrite IH. by destruct s.
Qed.

Lemma removelast_c_string s : removelast (c_string s) = s.
Proof. unfold c_string. by rewrite removelast_last. Qed.

Lemma scan_text_all s flag prev :
  Forall (fun b => 0x20 <= b < 256) s -> scan s flag prev = (true, flag).
Proof. intros Hs. rewrite <-(app_nil_r s). by rewrite scan_text. Qed.

Lemma scan_strings l flag prev :
  l <> [] -> Forall (fun s => s <> [] /\ text s) l ->
  scan (removelast (concat (map c_string l))) flag prev = (true, flag || (2 <=? length l)%nat).
Proof.
  intros Hl Hf. revert flag prev Hl. induction Hf as [|s l [Hs [Ht _]] Hf IH]; intros flag prev Hl; [done|].
  destruct l as [|s2 l].
  - cbn [map concat length]. rewrite app_nil_r, removelast_c_string.
    rewrite scan_text_all by done. cbn [Nat.leb]. by rewrite orb_false_r.
  - set (rest := s2 :: l) in *. assert (Hr : concat (map c_string rest) <> [])
      by (unfold rest, c_string; by destruct s2).
    change (concat (map c_string (s :: rest))) with (c_string s ++ concat (map c_string rest)).
    unfold c_string at 1. rewrite <-app_assoc. cbn [app]. rewrite removelast_app by done.
    rewrite scan_text by done. destruct (concat (map c_string rest)) as [|x R] eqn:ER; [done|].
    rewrite removelast_cons. destruct s as [|b s]; [done|]. cbn [scan Z.eqb andb negb].
    rewrite IH by done. cbn [length Nat.leb]. by rewrite orb_true_r.
Qed.

Lemma split_nulls_c_string s rest : forall here,
  Forall (fun b => 0x20 <= b < 256) s -> 
  split_nulls here (c_string s ++ rest) =
    (x ← to_str_unwrap (here ++ s); r ← split_nulls [] rest; Val (x :: r)).
Proof.
  intros here Hs. revert here. induction Hs as [|b s Hb Hs IH]; intros here.
  - cbn [c_string app split_nulls Z.eqb]. by rewrite app_nil_r.
  - unfold c_string in *. cbn [app split_nulls]. destruct (Z.eqb_spec b 0); [lia|]. rewrite IH.
    by rewrite <-app_assoc.
Qed.

Lemma to_str_valid s : utf8_valid s = true -> to_str_unwrap s = Val s.
Proof. intros H. unfold to_str_unwrap, from_utf8. by rewrite H. Qed.

Lemma split_nulls_strings l :
  Forall (fun s => s <> [] /\ text s) l -> split_nulls [] (concat (map c_string l)) = Val l.
Proof.
  induction 1 as [|s l [_ [Hs Hu]] _ IH]; [done|]. cbn [map concat].
  rewrite split_nulls_c_string by done. cbn [app]. rewrite to_str_valid by done. cbn [mbind outcome_bind].
  by rewrite IH.
Qed.

(** A value whose first byte is below a space is no text. *)
Lemma scan_low b l flag : b < 0x20 -> scan (b :: l) flag true = (false, false).
Proof. intros Hb. cbn [scan]. rewrite andb_false_r. by destruct (Z.ltb_spec b 0x20); [|lia]. Qed.

Lemma div_small_pow v k n : 0 <= v < 2 ^ n -> 0 <= k <= n -> 0 <= v / 2 ^ k < 2 ^ (n - k).
Proof.
  intros Hv Hk. split; [apply Z.div_pos; lia|]. apply Z.div_lt_upper_bound; [lia|].
  rewrite <-Z.pow_add_r by lia. replace (k + (n - k)) with n by lia. lia.
Qed.

Lemma guess_value address v name :
  value_ok v -> address mod 4 = 0 ->
  guess true address (encode_value v) (Some name) = Val (value_of name v).
Proof.
  intros [Hlen Hv] Ha. destruct v as [|s|l|v|v|l]; cbn [encode_value value_of] in *.
  - done.
  - destruct Hv as [Hs Hu]. unfold guess. rewrite removelast_c_string.
    rewrite scan_text_all by done.
    rewrite to_str_valid by done. by destruct s.
  - destruct Hv as [Hl Hf]. unfold guess. rewrite scan_strings by first [done | destruct l; [cbn in Hl; lia | done]].
    replace (2 <=? length l)%nat with true by (symmetry; by apply Nat.leb_le). cbn [orb].
    rewrite split_nulls_strings by done. destruct l as [|[|b s] l]; [cbn in Hl; lia| |done].
    by destruct (proj1 (Forall_inv Hf) eq_refl).
  - unfold guess. rewrite swap_bytes_be by (cbn; lia). rewrite length_be, Ha. cbn [Nat.eqb Z.eqb].
    rewrite be_cons, be_cons. rewrite removelast_cons, scan_low; [cbn [default from_option]; unfold id; by destruct (decide (name = INTERRUPT_PARENT))|].
    change (256 ^ Z.of_nat 3) with (2 ^ 24). pose proof (div_small_pow v 24 29 Hv ltac:(lia)).
    rewrite Z.mod_small by lia. cbn in *. lia.
  - unfold guess. rewrite swap_bytes_be by (cbn; lia). rewrite length_be. cbn [Nat.eqb].
    rewrite be_cons, be_cons. rewrite removelast_cons, scan_low; [by rewrite orb_true_r|].
    change (256 ^ Z.of_nat 7) with (2 ^ 56). pose proof (div_small_pow v 56 61 Hv ltac:(lia)).
    rewrite Z.mod_small by lia. cbn in *. lia.
  - destruct Hv as (_ & H2 & H4 & H8 & Hb). destruct l as [|b [|c l]]; [cbn in H2; lia..|].
    unfold guess. rewrite removelast_cons, scan_low by done.
    rewrite (proj2 (Nat.eqb_neq _ _) H4), (proj2 (Nat.eqb_neq _ _) H8). done.
Qed.

(** ** Reading the blob *)

(** The bytes [l] lie at address [a]. *)
Definition lies_at (b : Blob) (a : Z) (l : list Z) : Prop :=
  exists pre post, bytes b = pre ++ l ++ post /\ a = base b + Z.of_nat (length pre).

Lemma lies_at_app b a l1 l2 :
  lies_at b a (l1 ++ l2) -> lies_at b a l1 /\ lies_at b (a + Z.of_nat (length l1)) l2.
Proof.
  intros (pre & post & E & ->). split.
  - exists pre, (l2 ++ post). by rewrite E, <-app_assoc.
  - exists (pre ++ l1), post. rewrite E, <-!app_assoc, length_app. split; [done|lia].
Qed.

Lemma lies_at_address b a l : lies_at b a l -> exists post, at_address b a = Val (l ++ post).
Proof.
  intros (pre & post & E & ->). exists post. unfold at_address. rewrite E, !length_app.
  destruct (Z.leb_spec (base b) (base b + Z.of_nat (length pre))); [|lia].
  destruct (Z.leb_spec (base b + Z.of_nat (length pre)) (base b + Z.of_nat (length pre + (length l + length post))));
    [|lia]. cbn [andb]. f_equal. replace (Z.to_nat _) with (length pre) by lia. by rewrite drop_app_length.
Qed.

Lemma lies_at_slice b a l n :
  lies_at b a l -> n = Z.of_nat (length l) -> from_raw_parts b a n = Val l.
Proof.
  intros H ->. destruct (lies_at_address _ _ _ H) as [post E]. unfold from_raw_parts. rewrite E.
  cbn [mbind outcome_bind]. rewrite length_app. destruct (Z.leb_spec (Z.of_nat (length l)) (Z.of_nat (length l + length post)));
    [|lia]. by rewrite Nat2Z.id, take_app_length.
Qed.

Lemma lies_at_be32 b a v :
  lies_at b a (be 4 v) -> a mod 4 = 0 -> 0 <= v < 2 ^ 32 -> read_be32 b a = Val v.
Proof.
  intros H Ha Hv. unfold read_be32. rewrite Ha. cbn [Z.eqb].
  rewrite (lies_at_slice b a (be 4 v)) by (done || by rewrite length_be). cbn [mbind outcome_bind].
  by rewrite swap_bytes_be by (cbn; lia).
Qed.

Lemma c_str_c_string s l : Forall (fun b => 0 < b < 256) s -> c_str (c_string s ++ l) = Val s.
Proof.
  induction 1 as [|b s Hb Hs IH]; [done|]. unfold c_string in *. cbn [app c_str].
  destruct (Z.eqb_spec b 0); [lia|]. by rewrite IH.
Qed.

(** Lengths of padded fields. *)
Lemma length_pad4 l : Z.of_nat (length (pad4 l)) = align4 (Z.of_nat (length l)) /\ Z.of_nat (length (pad4 l)) mod 4 = 0.
Proof.
  unfold pad4, align4. rewrite length_app, length_replicate. set (n := Z.of_nat (length l)).
  pose proof (Z.mod_pos_bound (- n) 4 ltac:(lia)) as Hp. pose proof (Z.div_mod n 4 ltac:(lia)) as Hd.
  pose proof (Z.mod_pos_bound n 4 ltac:(lia)). pose proof (Z.div_mod (- n) 4 ltac:(lia)).
  rewrite Nat2Z.inj_add, Z2Nat.id by lia. fold n.
  assert (E : n + (- n) mod 4 = (- ((- n) / 4)) * 4) by lia.
  split; [|rewrite E; apply Z.mod_mul; lia]. destruct (Z.eqb_spec (n mod 4) 0); lia.
Qed.

Lemma align4_add x n : x mod 4 = 0 -> align4 (x + n) = x + align4 n.
Proof.
  intros Hx. pose proof (align4_spec (x + n)) as [H1 H2]. pose proof (align4_spec n) as [H3 H4].
  pose proof (Z.div_mod x 4 ltac:(lia)). pose proof (Z.div_mod (align4 n) 4 ltac:(lia)).
  pose proof (Z.div_mod (align4 (x + n)) 4 ltac:(lia)). lia.
Qed.

Lemma mod4_add x y : x mod 4 = 0 -> y mod 4 = 0 -> (x + y) mod 4 = 0.
Proof.
  intros Hx Hy. pose proof (Z.div_mod x 4 ltac:(lia)). pose proof (Z.div_mod y 4 ltac:(lia)).
  replace (x + y) with ((x / 4 + y / 4) * 4) by lia. apply Z.mod_mul. lia.
Qed.

Lemma concat_mod4 {A} (f : A -> list Z) l :
  Forall (fun x => Z.of_nat (length (f x)) mod 4 = 0) l -> Z.of_nat (length (concat (map f l))) mod 4 = 0.
Proof.
  induction 1 as [|x l Hx _ IH]; [done|]. cbn [map concat]. rewrite length_app, Nat2Z.inj_add. by apply mod4_add.
Qed.

(** ** The loop, turn by turn *)

Inductive turns (b : Blob) : Build -> Build -> Prop :=
  | turns_refl s : turns b s s
  | turns_step s s1 s2 : build_step true b s = Val (inl s1) -> turns b s1 s2 -> turns b s s2.

Lemma turns_trans b s1 s2 s3 : turns b s1 s2 -> turns b s2 s3 -> turns b s1 s3.
Proof. induction 1; [done|]. intros H3. eapply turns_step; eauto. Qed.

Lemma turns_one b s s' : build_step true b s = Val (inl s') -> turns b s s'.
Proof. intros H. eapply turns_step; [exact H|apply turns_refl]. Qed.

(** With the fuel of [build] the loop reaches what its turns reach. *)
Lemma turns_build b start s r :
  turns b (mkBuild start [] None) s -> build_step true b s = Val (inr (Some r)) ->
  build true b start = Some (Val r).
Proof.
  intros Ht Hs. destruct (build_terminates true b start) as [x E]. rewrite E. unfold build in E.
  destruct (build_loop true (build_fuel b) b (mkBuild start [] None)) as [y|] eqn:El; [|done].
  enough (y = Val (Some r)) as -> by (cbn in E; by injection E as <-).
  clear E. revert El. generalize (build_fuel b) as fuel. induction Ht as [s|s s1 s2 H1 _ IH]; intros fuel El.
  - destruct fuel; [done|]. cbn [build_loop] in El. rewrite Hs in El. by injection El as <-.
  - destruct fuel as [|fuel]; [done|]. cbn [build_loop] in El. rewrite H1 in El. by apply (IH Hs fuel).
Qed.

(** *** Names: the loop resumes on the last word of the name, which it skips *)

Lemma unknown_word x y : is_byte x -> is_byte y ->
  structure_token (swap_bytes 4 (le_combine [x; y; 0; 0])) = Unknown.
Proof.
  unfold is_byte. intros Hx Hy.
  assert (E : swap_bytes 4 (le_combine [x; y; 0; 0]) = (x * 256 + y) * 65536).
  { pose proof (le_split_combine [x; y; 0; 0] ltac:(repeat constructor; unfold is_byte; lia)) as E.
    cbn [length] in E. unfold swap_bytes. rewrite E. cbn. lia. }
  rewrite E. unfold structure_token. repeat (match goal with |- context [?a =? ?b] => destruct (Z.eqb_spec a b); [lia|] end).
  done.
Qed.

(** A padded name ends with a word that is its null and at most two of its bytes,
    or else exactly where the code resumes. *)
Lemma padded_name n :
  Forall (fun b => 0 < b < 256) n ->
  let l := pad4 (c_string n) in
  Z.of_nat (length l) = align4 (Z.of_nat (length n) + 2) /\
    (exists q x y, l = q ++ [x; y; 0; 0] /\ is_byte x /\ is_byte y) \/
  4 + Z.of_nat (length l) = align4 (Z.of_nat (length n) + 2).
Proof.
  intros Hn. cbv zeta. pose proof (proj1 (length_pad4 (c_string n))) as Hl. unfold c_string at 2 in Hl.
  rewrite length_app in Hl. cbn [length] in Hl.
  pose proof (Z.div_mod (Z.of_nat (length n)) 4 ltac:(lia)) as Hd.
  set (k := Z.to_nat (Z.of_nat (length n) / 4)) in *. set (r := Z.to_nat (Z.of_nat (length n) mod 4)) in *.
  pose proof (Z.mod_pos_bound (Z.of_nat (length n)) 4 ltac:(lia)). pose proof (Z.div_pos (Z.of_nat (length n)) 4 ltac:(lia) ltac:(lia)).
  assert (Hnk : length n = (4 * k + r)%nat) by lia.
  assert (Ha : forall j, align4 (Z.of_nat (length n) + j) = 4 * Z.of_nat k + align4 (Z.of_nat r + j)).
  { intros j. replace (Z.of_nat (length n) + j) with (4 * Z.of_nat k + (Z.of_nat r + j)) by lia.
    apply align4_add. rewrite Z.mul_comm. apply Z.mod_mul. lia. }
  replace (Z.of_nat (length n + 1)) with (Z.of_nat (length n) + 1) in Hl by lia. rewrite Ha in Hl |- *.
  set (q := take (4 * k) n). set (t := drop (4 * k) n).
  assert (Hq : n = q ++ t) by (unfold q, t; by rewrite take_drop).
  assert (Ht : length t = r) by (unfold t; rewrite length_drop; lia).
  assert (Htb : Forall (fun b => 0 < b < 256) t) by (unfold t; by apply Forall_drop).
  assert (Hpad : pad4 (c_string n) = q ++ t ++ 0 :: replicate (Z.to_nat ((- (Z.of_nat r + 1)) mod 4)) 0).
  { unfold pad4, c_string. rewrite Hq at 1. rewrite <-!app_assoc. do 2 f_equal. cbn [app]. f_equal. f_equal.
    f_equal. rewrite length_app, Hnk. cbn [length].
    replace (- Z.of_nat (4 * k + r + 1)) with (- (Z.of_nat r + 1) + (- Z.of_nat k) * 4) by lia. by rewrite Z_mod_plus by lia. }
  assert (Hr : (r < 4)%nat) by lia. clearbody q t r k.
  destruct t as [|x [|y [|z [|w t]]]]; cbn [length] in Ht; subst r; [..|lia]; rewrite Hl, Hpad;
    [left; split; [reflexivity|]..|
     right; change (align4 (Z.of_nat 3 + 1)) with 4; change (align4 (Z.of_nat 3 + 2)) with 8; lia].
  - exists q, 0, 0. by repeat split.
  - exists q, x, 0. split; [done|]. pose proof (Forall_inv Htb). unfold is_byte. cbn in *. lia.
  - exists q, x, y. split; [done|]. pose proof (Forall_inv Htb). pose proof (Forall_inv (Forall_inv_tail Htb)).
    unfold is_byte. cbn in *. lia.
Qed.

Lemma begin_turns b a n stack current :
  lies_at b a (be 4 1 ++ pad4 (c_string n)) -> a mod 4 = 0 -> plain n ->
  turns b (mkBuild a stack current)
    (mkBuild (a + Z.of_nat (length (be 4 1 ++ pad4 (c_string n))))
       (match current with Some t => stack ++ [t] | None => stack end) (Some (Node.new n))).
Proof.
  intros Hl Ha [Hb Hu]. apply lies_at_app in Hl as [Ht Hn]. rewrite length_app, length_be in *.
  set (l := pad4 (c_string n)) in *. change (Z.of_nat 4) with 4 in Hn.
  set (stack' := match current with Some t => stack ++ [t] | None => stack end).
  eapply turns_step.
  { unfold build_step. cbn [token]. rewrite (lies_at_be32 b a 1 Ht Ha) by lia. cbn [mbind outcome_bind].
    change (structure_token 1) with BeginNode. cbn iota. unfold begin_node. cbn [token node_stack current_node].
    destruct (lies_at_address _ _ _ Hn) as [post ->]. cbn [mbind outcome_bind].
    unfold l, pad4. rewrite <-app_assoc, c_str_c_string by done. cbn [mbind outcome_bind].
    rewrite to_str_valid by done. cbn [mbind outcome_bind]. reflexivity. }
  fold stack'. replace (a + (Z.of_nat (length n) + 1) + 1) with (a + (Z.of_nat (length n) + 2)) by lia.
  rewrite align4_add by done. destruct (padded_name n Hb) as [[El (q & x & y & Eq & Hx & Hy)]|El]; fold l in El.
  - rewrite <-El. apply turns_one. unfold build_step. cbn [token node_stack current_node].
    fold l in Eq. rewrite Eq in Hn. apply lies_at_app in Hn as [_ Hw].
    assert (Eq' : Z.of_nat (length l) = Z.of_nat (length q) + 4) by (rewrite Eq, length_app; cbn [length]; lia).
    unfold read_be32. replace ((a + Z.of_nat (length l)) mod 4) with 0
      by (symmetry; apply mod4_add; [done|apply (length_pad4 (c_string n))]).
    cbn [Z.eqb]. rewrite (lies_at_slice b _ [x; y; 0; 0]) by
      first [done | replace (a + Z.of_nat (length l)) with (a + 4 + Z.of_nat (length q)) by lia; exact Hw].
    cbn [mbind outcome_bind]. rewrite unknown_word by done. do 3 f_equal. lia.
  - replace (a + Z.of_nat (4 + length l)) with (a + align4 (Z.of_nat (length n) + 2)) by lia. apply turns_refl.
Qed.

Lemma end_turn b a stack current :
  lies_at b a (be 4 2) -> a mod 4 = 0 ->
  turns b (mkBuild a stack current) (end_node (mkBuild a stack current)).
Proof.
  intros Hl Ha. apply turns_one. unfold build_step. cbn [token]. by rewrite (lies_at_be32 b a 2 Hl Ha) by lia.
Qed.

Lemma lies_at_drop b a l n l' :
  lies_at b a l -> 0 <= n -> drop (Z.to_nat n) l = l' -> l' <> [] -> lies_at b (a + n) l'.
Proof.
  intros Hl Hn <- Hne. assert (Z.to_nat n < length l)%nat.
  { destruct (Nat.lt_ge_cases (Z.to_nat n) (length l)); [done|]. by rewrite drop_ge in Hne. }
  rewrite <-(take_drop (Z.to_nat n) l) in Hl. apply lies_at_app in Hl as [_ Hl].
  rewrite length_take in Hl. by replace (a + n) with (a + Z.of_nat (Z.to_nat n `min` length l)) by lia.
Qed.

(** ** The round trip of the struct block *)

Section TreeInduction.
Context (P : Tree -> Prop).
Hypothesis step : forall n props subs, Forall P subs -> P (mkTree n props subs).

Fixpoint Tree_nested_ind (t : Tree) : P t :=
  match t with
  | mkTree n props subs =>
      step n props subs
        ((fix go (l : list Tree) : Forall P l :=
            match l with
            | [] => Forall_nil _
            | t :: l => Forall_cons _ t l (Tree_nested_ind t) (go l)
            end) subs)
  end.
End TreeInduction.

Section RoundTrip.
Context (b : Blob) (name_offset : str -> Z) (strings : list Z) (strings_start : Z).
Hypothesis strings_offset : offset_dt_strings b = Val strings_start.
Hypothesis strings_lie : lies_at b (base b + strings_start) strings.

Lemma get_string_name s :
  name_ok name_offset strings s -> get_string b (name_offset s) = Val s.
Proof.
  intros ([Hb Hu] & Ho & rest & Hr). unfold get_string. rewrite strings_offset. cbn [mbind outcome_bind].
  pose proof (lies_at_drop _ _ _ _ _ strings_lie (proj1 Ho) Hr ltac:(unfold c_string; by destruct s)) as Hl.
  destruct (lies_at_address _ _ _ Hl) as [post ->]. cbn [mbind outcome_bind].
  rewrite <-app_assoc, c_str_c_string by done. cbn [mbind outcome_bind]. by apply to_str_valid.
Qed.

Lemma length_flatten_prop p :
  Z.of_nat (length (flatten_prop name_offset p)) = 12 + align4 (Z.of_nat (length (encode_value p.2))).
Proof.
  unfold flatten_prop. rewrite !length_app, !length_be, <-(proj1 (length_pad4 (encode_value p.2))). lia.
Qed.

Lemma flatten_prop_mod4 p : Z.of_nat (length (flatten_prop name_offset p)) mod 4 = 0.
Proof. rewrite length_flatten_prop. apply mod4_add; [done|apply align4_spec]. Qed.

Lemma prop_turn a p stack n :
  lies_at b a (flatten_prop name_offset p) -> a mod 4 = 0 ->
  name_ok name_offset strings p.1 -> value_ok p.2 ->
  turns b (mkBuild a stack (Some n))
    (mkBuild (a + Z.of_nat (length (flatten_prop name_offset p))) stack (Some (add_property n p))).
Proof.
  intros Hl Ha Hn Hv. pose proof (length_flatten_prop p) as Hlen. unfold flatten_prop in Hl.
  apply lies_at_app in Hl as [H1 Hl]. apply lies_at_app in Hl as [H2 Hl]. apply lies_at_app in Hl as [H3 H4].
  rewrite !length_be in *. change (Z.of_nat 4) with 4 in *.
  unfold pad4 in H4. apply lies_at_app in H4 as [H4 _].
  assert (Hm : forall k, (a + 4 * k) mod 4 = 0) by (intros k; apply mod4_add; [done|rewrite Z.mul_comm; apply Z.mod_mul; lia]).
  apply turns_one. unfold build_step. cbn [token]. rewrite (lies_at_be32 b a 3 H1 Ha) by lia. cbn [mbind outcome_bind].
  change (structure_token 3) with Prop_. cbn iota. unfold prop. cbn [token current_node node_stack].
  replace (a + 4 + 4) with (a + 8) in * by lia. replace (a + 8 + 4) with (a + 12) in * by lia.
  rewrite (lies_at_be32 b (a + 8) _ H3 (Hm 2)) by apply Hn. cbn [mbind outcome_bind].
  rewrite get_string_name by done. cbn [mbind outcome_bind].
  rewrite (lies_at_be32 b (a + 4) _ H2 (Hm 1)) by (destruct Hv; lia). cbn [mbind outcome_bind].
  rewrite (lies_at_slice b _ _ _ H4) by done. cbn [mbind outcome_bind].
  rewrite guess_value by (done || exact (Hm 3)). cbn [mbind outcome_bind].
  do 3 f_equal. rewrite Hlen, align4_add by exact (Hm 3). lia.
Qed.

Lemma props_turns props : forall a stack n,
  lies_at b a (concat (map (flatten_prop name_offset) props)) -> a mod 4 = 0 ->
  Forall (fun p => name_ok name_offset strings p.1 /\ value_ok p.2) props ->
  turns b (mkBuild a stack (Some n))
    (mkBuild (a + Z.of_nat (length (concat (map (flatten_prop name_offset) props)))) stack
       (Some (foldl add_property n props))).
Proof.
  induction props as [|p props IH]; intros a stack n Hl Ha Hok.
  - cbn [map concat length foldl]. rewrite Z.add_0_r. apply turns_refl.
  - cbn [map concat foldl] in *. apply lies_at_app in Hl as [H1 H2]. rewrite length_app, Nat2Z.inj_add, Z.add_assoc.
    destruct (Forall_inv Hok) as [Hn Hv]. eapply turns_trans; [by apply prop_turn|].
    apply IH; [done|apply mod4_add; [done|apply flatten_prop_mod4]|exact (Forall_inv_tail Hok)].
Qed.

(** What a finished node becomes: the result, or a child of the one it is in. *)
Definition finished (stack : list Node) (current : option Node) (n : Node) : Prop * Node :=
  match current with
  | None => (stack = [], n)
  | Some parent => (True, Node.insert_child n parent)
  end.

Lemma flatten_mod4 t : Z.of_nat (length (flatten name_offset t)) mod 4 = 0.
Proof.
  induction t as [n props subs IH] using Tree_nested_ind. cbn [flatten]. rewrite !length_app, !length_be, !Nat2Z.inj_add.
  repeat apply mod4_add; try done.
  - apply (length_pad4 (c_string n)).
  - apply concat_mod4, List.Forall_forall. intros p _. apply flatten_prop_mod4.
  - by apply concat_mod4.
Qed.

Definition tree_turns (t : Tree) : Prop := forall a stack current,
  lies_at b a (flatten name_offset t) -> a mod 4 = 0 -> tree_ok name_offset strings t ->
  (finished stack current (node_of t)).1 ->
  turns b (mkBuild a stack current)
    (mkBuild (a + Z.of_nat (length (flatten name_offset t))) stack
       (Some (finished stack current (node_of t)).2)).

Lemma subs_turns subs : Forall tree_turns subs -> forall a stack n,
  lies_at b a (concat (map (flatten name_offset) subs)) -> a mod 4 = 0 ->
  Forall (tree_ok name_offset strings) subs ->
  turns b (mkBuild a stack (Some n))
    (mkBuild (a + Z.of_nat (length (concat (map (flatten name_offset) subs)))) stack
       (Some (foldl (fun n s => Node.insert_child s n) n (map node_of subs)))).
Proof.
  induction 1 as [|t subs Ht _ IH]; intros a stack n Hl Ha Hok.
  - cbn [map concat length foldl]. rewrite Z.add_0_r. apply turns_refl.
  - cbn [map concat foldl] in *. apply lies_at_app in Hl as [H1 H2]. rewrite length_app, Nat2Z.inj_add, Z.add_assoc.
    eapply turns_trans; [apply (Ht a stack (Some n)); [done|done|exact (Forall_inv Hok)|exact I]|].
    apply IH; [done|apply mod4_add; [done|apply flatten_mod4]|exact (Forall_inv_tail Hok)].
Qed.

Lemma flatten_turns t : tree_turns t.
Proof.
  induction t as [n props subs IH] using Tree_nested_ind. intros a stack current Hl Ha Hok Hfin.
  inversion Hok as [n' props' subs' Hn Hp Hs]; subst. cbn [flatten] in *. rewrite (app_assoc (be 4 1)) in *.
  apply lies_at_app in Hl as [H1 Hl]. apply lies_at_app in Hl as [H2 Hl]. apply lies_at_app in Hl as [H3 H4].
  set (head := be 4 1 ++ pad4 (c_string n)) in *. rewrite !length_app, !Nat2Z.inj_add.
  assert (Hh : Z.of_nat (length head) mod 4 = 0).
  { unfold head. rewrite length_app, length_be, Nat2Z.inj_add. apply mod4_add; [done|apply (length_pad4 (c_string n))]. }
  assert (Hpm : Z.of_nat (length (concat (map (flatten_prop name_offset) props))) mod 4 = 0)
    by (apply concat_mod4, List.Forall_forall; intros p _; apply flatten_prop_mod4).
  assert (Hsm : Z.of_nat (length (concat (map (flatten name_offset) subs))) mod 4 = 0)
    by (apply concat_mod4, List.Forall_forall; intros s _; apply flatten_mod4).
  eapply turns_trans; [apply begin_turns; [exact H1|done|done]|]. fold head.
  eapply turns_trans; [apply props_turns; [exact H2|by apply mod4_add|exact Hp]|].
  eapply turns_trans; [apply subs_turns; [exact IH|exact H3|by repeat apply mod4_add|exact Hs]|].
  fold (node_of (mkTree n props subs)).
  match goal with |- turns b (mkBuild ?a' ?stack' ?cur) _ =>
    pose proof (end_turn b a' stack' cur) as He end.
  specialize (He H4 ltac:(by repeat apply mod4_add)).
  change (foldl (fun n0 s => Node.insert_child s n0) (foldl add_property (Node.new n) props) (map node_of subs))
    with (node_of (mkTree n props subs)) in *. rewrite length_be. rewrite !Z.add_assoc. 
  unfold end_node, pop_back in He. cbn [current_node node_stack token] in He.
  destruct current as [parent|]; cbn [finished fst snd] in *.
  - rewrite rev_app_distr in He. cbn [rev app] in He. rewrite rev_involutive in He. exact He.
  - subst stack. exact He.
Qed.
End RoundTrip.

(** ** Lookup by path *)

(** A component names a child: no slash, and an address after an ['@']. *)
Definition component_ok (c : str) : Prop :=
  Forall (fun b => b <> SLASH) c /\ match split_once AT c with Some (_, []) => False | _ => True end.

(** The keys of a node in the maps of its parent. *)
Definition key (c : str) : str * option Z :=
  ((splitn2 AT c).1, parse_address <$> (splitn2 AT c).2).

(** The subtree a path of components leads to. *)
Fixpoint descend (t : Tree) (path : list str) : option Tree :=
  match path with
  | [] => Some t
  | c :: path => s ← list_find (fun s => unit_name s = c) (subs t); descend s.2 path
  end.

(** Siblings have distinct keys, at every level. *)
Inductive distinct : Tree -> Prop :=
  | distinct_intro n props subs :
      NoDup (map (fun s => key (unit_name s)) subs) -> Forall distinct subs -> distinct (mkTree n props subs).

Fixpoint join_slash (path : list str) : str :=
  match path with
  | [] => []
  | [c] => c
  | c :: path => c ++ [SLASH] ++ join_slash path
  end.

(** The child under a pair of keys. *)
Definition child (n : Node) (k : str * option Z) : option Node :=
  m ← get k.1 (children n); get k.2 m.

Lemma child_insert c n k :
  child (Node.insert_child c n) k = if decide (k = (name c, unit_address c)) then Some c else child n k.
Proof.
  destruct k as [k a]. unfold child, Node.insert_child. cbn [children Node.set_children fst snd].
  destruct (decide (k = name c)) as [->|Hk].
  - rewrite get_insert. cbn [mbind option_bind].
    set (d := match get (name c) (children n) with Some d => d | None => [] end).
    assert (Hg : forall a, get a d = (m ← get (name c) (children n); get a m))
      by (intros a'; unfold d; by destruct (get (name c) (children n))).
    replace (match get (name c) (children n) with
             | Some d => insert (unit_address c) c d
             | None => insert (unit_address c) c [] end) with (insert (unit_address c) c d)
      by (unfold d; by destruct (get (name c) (children n))).
    destruct (decide (a = unit_address c)) as [->|Ha].
    + rewrite get_insert. by rewrite decide_True.
    + rewrite get_insert_ne, Hg by done. rewrite decide_False by congruence. done.
  - rewrite get_insert_ne by done. by rewrite decide_False by congruence.
Qed.

Lemma node_of_key t : name (node_of t) = (key (unit_name t)).1 /\ unit_address (node_of t) = (key (unit_name t)).2.
Proof.
  destruct t as [n props subs]. cbn [node_of unit_name].
  assert (H0 : name (foldl add_property (Node.new n) props) = (key n).1 /\
               unit_address (foldl add_property (Node.new n) props) = (key n).2).
  { assert (Hnew : name (Node.new n) = (key n).1 /\ unit_address (Node.new n) = (key n).2)
      by (unfold Node.new, key; by destruct (splitn2 AT n)).
    revert Hnew. generalize (Node.new n). induction props as [|p props IH]; intros m Hm; [done|]. by apply IH. }
  revert H0. generalize (foldl add_property (Node.new n) props). induction subs as [|s subs IH]; intros m Hm; [done|].
  by apply IH.
Qed.

Lemma children_properties n props : children (foldl add_property (Node.new n) props) = [].
Proof.
  assert (Hnew : children (Node.new n) = []) by (unfold Node.new; by destruct (splitn2 AT n)).
  revert Hnew. generalize (Node.new n). induction props as [|p props IH]; intros m Hm; [done|]. by apply IH.
Qed.

Lemma child_fold subs : forall n k,
  NoDup (map (fun s => key (unit_name s)) subs) ->
  child (foldl (fun n s => Node.insert_child s n) n (map node_of subs)) k =
    match list_find (fun s => key (unit_name s) = k) subs with
    | Some (_, s) => Some (node_of s)
    | None => child n k
    end.
Proof.
  induction subs as [|s subs IH]; intros n k Hnd; [done|]. cbn [map foldl list_find].
  apply list.NoDup_cons in Hnd as [Hnin Hnd]. rewrite IH, child_insert by done.
  destruct (node_of_key s) as [-> ->]. rewrite <-surjective_pairing.
  destruct (decide (key (unit_name s) = k)) as [Hk|Hk].
  - destruct (list_find _ subs) as [[i s']|] eqn:Ef; [|by rewrite decide_True].
    apply list_find_Some in Ef as (Hi & Hk' & _). exfalso. apply Hnin. apply list_elem_of_In.
    rewrite Hk, <-Hk'. apply (in_map (fun s => key (unit_name s))), list_elem_of_In. by eapply list_elem_of_lookup_2.
  - destruct (list_find _ subs) as [[i s']|]; [done|]. by rewrite decide_False.
Qed.

Lemma get_component_child n c :
  component_ok c -> Node.get_component n c = child n (key c).
Proof.
  intros [_ Hc]. unfold Node.get_component, child, key, splitn2. destruct (split_once AT c) as [[nm [|b a]]|]; done.
Qed.

Lemma split_once_slash c rest :
  Forall (fun b => b <> SLASH) c -> split_once SLASH (c ++ SLASH :: rest) = Some (c, rest) /\ split_once SLASH c = None.
Proof.
  induction 1 as [|b c Hb _ [IH1 IH2]]; [by rewrite Z.eqb_refl || done|]. cbn [app split_once].
  destruct (Z.eqb_spec b SLASH); [done|]. by rewrite IH1, IH2.
Qed.

Lemma descend_child t c s :
  distinct t -> list_find (fun s => unit_name s = c) (subs t) = Some s ->
  child (node_of t) (key c) = Some (node_of s.2) /\ distinct s.2 /\ unit_name s.2 = c.
Proof.
  intros [n props l Hnd Hsub] Hf. destruct s as [i s]. cbn [snd subs] in *.
  apply list_find_Some in Hf as (Hi & <- & _). cbn [node_of]. rewrite child_fold by done.
  assert (Hin : In s l) by (apply list_elem_of_In; by eapply list_elem_of_lookup_2).
  split; [|split; [by apply (proj1 (List.Forall_forall _ _) Hsub)|done]].
  destruct (list_find (fun s' => key (unit_name s') = key (unit_name s)) l) as [[j s']|] eqn:Ef.
  - apply list_find_Some in Ef as (Hj & Hk & _).
    assert (j = i) as ->; [|congruence]. eapply NoDup_lookup; [exact Hnd|..];
      rewrite list_lookup_fmap; [rewrite Hj|rewrite Hi]; cbn; by rewrite ?Hk.
  - apply list_find_None in Ef. exfalso. by apply (proj1 (List.Forall_forall _ _) Ef s Hin).
Qed.

Lemma get_path path : forall t s fuel,
  distinct t -> Forall component_ok path -> path <> [] -> (length path <= fuel)%nat ->
  descend t path = Some s -> Node.get_fuel fuel (node_of t) (join_slash path) = Some (node_of s).
Proof.
  induction path as [|c path IH]; intros t s fuel Hd Hok Hne Hf Hs; [done|].
  cbn [descend] in Hs. destruct (list_find _ (subs t)) as [s1|] eqn:El; [|done].
  destruct (descend_child t c s1 Hd El) as (Hc & Hd1 & _). cbn [mbind option_bind] in Hs.
  destruct fuel as [|fuel]; [cbn in Hf; lia|]. pose proof (Forall_inv Hok) as Hcok.
  cbn [Node.get_fuel]. destruct path as [|c2 path].
  - cbn [join_slash]. unfold splitn2. rewrite (proj2 (split_once_slash c [] (proj1 Hcok))).
    rewrite get_component_child, Hc by done. cbn [mbind option_bind]. cbn in Hs. congruence.
  - change (join_slash (c :: c2 :: path)) with (c ++ SLASH :: join_slash (c2 :: path)).
    unfold splitn2. rewrite (proj1 (split_once_slash c _ (proj1 Hcok))).
    rewrite get_component_child, Hc by done. cbn [mbind option_bind].
    apply IH; [done|exact (Forall_inv_tail Hok)|done|cbn in *; lia|done].
Qed.

Lemma length_join_slash path : path <> [] -> (length path <= S (length (join_slash path)))%nat.
Proof.
  induction path as [|c [|c2 path] IH]; intros Hne; [done|cbn; lia|].
  change (join_slash (c :: c2 :: path)) with (c ++ SLASH :: join_slash (c2 :: path)).
  rewrite length_app. specialize (IH ltac:(done)). cbn [length] in *. lia.
Qed.

(** ** The properties *)

(** A blob in memory: 4-aligned, the encoding of a tree, offsets that fit. *)
Definition holds_tree (b : Blob) (name_offset : str -> Z) (strings : list Z) (t : Tree) : Prop :=
  base b mod 4 = 0 /\ lies_at b (base b) (fdt_blob name_offset strings t) /\
  Z.of_nat (length (fdt_blob name_offset strings t)) < 2 ^ 32 /\ tree_ok name_offset strings t.

(** The fields of the header. *)
Lemma fdt_header_offsets b n m :
  base b mod 4 = 0 -> lies_at b (base b) (fdt_header n m) -> 0 <= 40 + n < 2 ^ 32 ->
  offset_dt_struct b = Val 40 /\ offset_dt_strings b = Val (40 + n).
Proof.
  intros Hb Hl Hn. unfold fdt_header in Hl. apply lies_at_app in Hl as [_ Hl]. apply lies_at_app in Hl as [_ Hl].
  apply lies_at_app in Hl as [H1 Hl]. apply lies_at_app in Hl as [H2 _]. rewrite !length_be in *.
  change (Z.of_nat 4) with 4 in *. replace (base b + 4 + 4) with (base b + 8) in * by lia.
  replace (base b + 8 + 4) with (base b + 12) in * by lia. split; apply lies_at_be32; try done; try lia; by apply mod4_add.
Qed.

Lemma holds_tree_init b name_offset strings t :
  holds_tree b name_offset strings t ->
  build true b (base b + 40) = Some (Val (node_of t)) /\ offset_dt_struct b = Val 40.
Proof.
  intros (Hb & Hl & Hlen & Hok). unfold fdt_blob in *. set (st := flatten name_offset t ++ be 4 9) in *.
  assert (Hhl : length (fdt_header (Z.of_nat (length st)) (Z.of_nat (length strings))) = 40%nat)
    by (unfold fdt_header; by rewrite !length_app, !length_be).
  rewrite !length_app, Hhl in Hlen. apply lies_at_app in Hl as [Hh Hl]. rewrite Hhl in Hl. apply lies_at_app in Hl as [Hst Hs].
  destruct (fdt_header_offsets _ _ _ Hb Hh) as [E1 E2]; [lia|]. split; [|done].
  change (Z.of_nat 40) with 40 in *. unfold st in Hst. apply lies_at_app in Hst as [Ht He].
  replace (base b + 40 + Z.of_nat (length st)) with (base b + (40 + Z.of_nat (length st))) in Hs by lia.
  assert (Ha : (base b + 40) mod 4 = 0) by by apply mod4_add.
  eapply turns_build.
  - eapply flatten_turns; [exact E2|exact Hs|exact Ht|exact Ha|exact Hok|reflexivity].
  - unfold build_step. cbn [token finished snd].
    rewrite (lies_at_be32 b _ 9 He) by first [lia | apply mod4_add; [done|apply flatten_mod4]].
    reflexivity.
Qed.

(** A tree for the witnesses: a root with an interrupt controller and a device. *)
Definition example_names : list (str * Z) := [(PHANDLE, 0); (INTERRUPT_PARENT, 8); ([0x72; 0x65; 0x67], 25)].
Definition example_offset (s : str) : Z := default 0 (get s example_names).
Definition example_strings : list Z := concat (map (fun e => c_string e.1) example_names).
Definition example_tree : Tree :=
  mkTree [] [([0x72; 0x65; 0x67], VEmpty)]
    [mkTree [0x70; AT; 0x63] [(PHANDLE, VU32 3)] [];
     mkTree [0x73; 0x6F; 0x63] [(INTERRUPT_PARENT, VU32 3); ([0x72; 0x65; 0x67], VU64 0x10000000)]
       [mkTree [0x75; AT; 0x31] [([0x72; 0x65; 0x67], VStrings [[0x61]; [0x62; 0x63]])] []]].
Definition example_blob : Blob := mkBlob 0x82200000 (fdt_blob example_offset example_strings example_tree).

Lemma example_name_ok s : In s (map fst example_names) -> name_ok example_offset example_strings s.
Proof.
  intros [<-|[<-|[<-|[]]]]; (split; [split; [repeat constructor|done]|]); (split; [vm_compute; split; [discriminate|reflexivity]|]);
    eexists; vm_compute; reflexivity.
Qed.

Lemma example_holds : holds_tree example_blob example_offset example_strings example_tree.
Proof.
  split; [done|]. split; [by exists [], []; rewrite app_nil_r|]. split; [vm_compute; reflexivity|].
  repeat first
    [ apply tree_ok_intro | apply Forall_nil | apply Forall_cons | split
    | apply example_name_ok; cbn; tauto | done | lia | (vm_compute; reflexivity) | discriminate ].
Qed.



(** C17: every node is found by its path: in a tree whose siblings have distinct
    names and addresses, [get] on the path of components of a subtree, joined by
    slashes, returns that subtree's node as [build] made it from the blob. *)
Theorem get_finds_node b name_offset strings t path s :
  holds_tree b name_offset strings t -> distinct t ->
  Forall component_ok path -> path <> [] -> descend t path = Some s ->
  exists root, build true b (base b + 40) = Some (Val root) /\ Node.get root (join_slash path) = Some (node_of s).
Proof.
  intros Hb Hd Hok Hne Hs. destruct (holds_tree_init _ _ _ _ Hb) as [E _]. exists (node_of t). split; [done|].
  unfold Node.get. apply (get_path path); try done. by apply length_join_slash.
Qed.

Lemma get_finds_node_witness :
  exists root n, build true example_blob (base example_blob + 40) = Some (Val root) /\
    Node.get root [0x73; 0x6F; 0x63; SLASH; 0x75; AT; 0x31] = Some n /\ unit_address n = Some 1 /\
    get [0x72; 0x65; 0x67] (properties n) = Some (StringList [[0x61]; [0x62; 0x63]]).
Proof.
  destruct (get_finds_node example_blob example_offset example_strings example_tree
    [[0x73; 0x6F; 0x63]; [0x75; AT; 0x31]]
    (mkTree [0x75; AT; 0x31] [([0x72; 0x65; 0x67], VStrings [[0x61]; [0x62; 0x63]])] []) example_holds)
    as (root & E & Hg).
  - repeat first [ apply distinct_intro | apply Forall_nil | apply Forall_cons | (refine (bool_decide_unpack _ _); vm_compute; exact I) ].
  - repeat constructor; done.
  - discriminate.
  - vm_compute. reflexivity.
  - eexists root, _. split; [exact E|]. split; [exact Hg|]. split; vm_compute; reflexivity.
Defined.

(** The guess goes wrong on numbers that look like text: a cell whose first
    three bytes are not below a space is taken for a string without its last
    byte, whatever that byte is, and when the three are not UTF-8 (as in
    [0xffffffff]) the kernel panics. *)
Theorem guess_number_as_text m address b0 b1 b2 b3 name :
  0x20 <= b0 < 256 -> 0x20 <= b1 < 256 -> 0x20 <= b2 < 256 ->
  guess m address [b0; b1; b2; b3] name =
    (if utf8_valid [b0; b1; b2] then Val (String [b0; b1; b2]) else Stop UnwrapFailed).
Proof.
  intros H0 H1 H2. unfold guess. cbn [removelast].
  rewrite scan_text_all by (do 3 (constructor; [done|]); constructor). unfold to_str_unwrap, from_utf8.
  by destruct (utf8_valid [b0; b1; b2]).
Qed.

Lemma guess_number_as_text_witness :
  guess true 0x1000 (be 4 0xffffffff) None = Stop UnwrapFailed /\
  guess true 0x1000 (be 4 0x61626300) None = Val (String [0x61; 0x62; 0x63]).
Proof.
  split.
  - exact (guess_number_as_text true 0x1000 0xff 0xff 0xff 0xff None ltac:(lia) ltac:(lia) ltac:(lia)).
  - exact (guess_number_as_text true 0x1000 0x61 0x62 0x63 0 None ltac:(lia) ltac:(lia) ltac:(lia)).
Defined.

(** The witness of [Fdt.init_links_phandles], on the example. *)
Lemma init_links_phandles_witness :
  exists start raw, build true example_blob start = Some (Val raw) /\ node_ok raw /\
    exists n', Node.follow (link_phandles (node_of example_tree)) [([0x73; 0x6F; 0x63], None)] = Some n' /\
      name n' = [0x73; 0x6F; 0x63].
Proof.
  destruct (init_links_phandles true example_blob (link_phandles (node_of example_tree)))
    as (start & raw & E & Hok & _); [vm_compute; reflexivity|].
  exists start, raw. split; [exact E|]. split; [exact Hok|].
  eexists. split; vm_compute; reflexivity.
Defined.
