(* ===== verification/Harts.v ===== *)
(** * kernel_main: starting the harts

    The loop of [async_main] in [kernel_main/src/main.rs] that starts every
    other hart, [HartLocals::current], [enable_interrupts] and
    [disable_interrupts]; and the way a started hart takes, through
    [hart_entry_point] of [kernel_bootloader/boot.S], [hart_entry] of the
    bootloader and [main] of the kernel, to [setup_hart].

    Outside the repository, and parameters here: the [hart_start] of the [sbi]
    crate, a function of the calls made before, whose answer is one of the four
    the code tells apart; and the global allocator, behind [StackHeap]. *)

From S2P Require Import Prelude Cpu Sbi Process SharedLock PagingBits Paging Boot.

(** ** The state of a hart *)

Definition enable_interrupts (h : Hart) : Hart :=
  write_sie h (Z.lor (Z.lor csr.STIE csr.SEIE) csr.SSIE).
Definition disable_interrupts (h : Hart) : Hart := write_sie h 0.

(** [HartLocals::current]; [locals] holds the leaked boxes. *)
Definition current {L} (h : Hart) (m : frames) (locals : gmap Z L) : outcome L :=
  f ← load_frame m (read_sscratch h);
  if hart_locals f =? 0 then Stop UnwrapFailed
  else match locals !! hart_locals f with Some l => Val l | None => Stop Undefined end.

(** ** What the loop asks of its surroundings *)

(** The cases of the result of [hart_start] that the code matches. *)
Inductive StartAnswer := Started | AlreadyAvailable | InvalidParameter | OtherError.

(** A call: the hart, the entry point, the opaque argument. *)
Record StartCall := mkStartCall { hart_id : Z; start_addr : Z; opaque : Z }.

Class StackHeap (A : Type) := {
  alloc_layout : A -> Z -> Z -> A * Z;     (* bytes, alignment *)
  dealloc : A -> Z -> Z -> Z -> A;         (* address, bytes, alignment *)
  blocks : A -> list Z;                    (* the live stacks, oldest first *)
  capacity : nat
}.

(** What a global allocator promises while it has room: an aligned block of
    the upper half that is not in use.  Dropping the box frees it with the
    alignment of its bytes, not the one it was given out with; this heap does not
    look at the alignment. *)
Class StackHeapSpec (A : Type) `{StackHeap A} (lowest : Z) := {
  alloc_stack a : (length (blocks a) < capacity)%nat ->
    exists a' p, alloc_layout a 4096 4096 = (a', p) /\ lowest <= p /\ p + 4096 < 2 ^ 64 /\
      (4096 | p) /\ ~ In p (blocks a) /\ blocks a' = blocks a ++ [p];
  dealloc_last a ls p : blocks a = ls ++ [p] -> blocks (dealloc a p 4096 1) = ls
}.

(** ** The loop *)

Section Spawn.
Context {A : Type} `{StackHeap A}.
Context (hart_start : list StartCall -> Z -> Z -> Z -> StartAnswer).
Context (g : KernelGlobals) (h : Hart) (hart_entry_point : Z).

(** [words] is the memory the kernel writes, by virtual address; [leaked] the
    stacks given to [Box::leak]. *)
Record Machine := mkMachine {
  heap : A;
  words : gmap Z Z;
  calls : list StartCall;
  leaked : list Z
}.

(** One turn: [false] when the loop breaks, which drops the stack. *)
Definition start_turn (hart_id : Z) (s : Machine) : outcome (Machine * bool) :=
  '(stack, size) ← boxed_slice_with_alignment_uninit
                     (fun bytes align => (alloc_layout (heap s) bytes align).2) 1 4096 4096;
  let heap' := (alloc_layout (heap s) 4096 4096).1 in
  stack_end ← checked_add 64 stack size;
  stack_addr ← checked_sub stack_end 8;
  let words' := <[stack_addr := read_satp h]> (words s) in
  opaque ← checked_sub stack_addr (GAP g);
  let answer := hart_start (calls s) hart_id hart_entry_point opaque in
  let calls' := calls s ++ [mkStartCall hart_id hart_entry_point opaque] in
  match answer with
  | Started | AlreadyAvailable => Val (mkMachine heap' words' calls' (leaked s ++ [stack]), true)
  | InvalidParameter => Val (mkMachine (dealloc heap' stack 4096 1) words' calls' (leaked s), false)
  | OtherError => Stop ExplicitPanic
  end.

(** [for hart_id in 0..]: the iterator computes the successor first. *)
Fixpoint spawn_harts (fuel : nat) (hart_id : Z) (s : Machine) : option (outcome Machine) :=
  match fuel with
  | O => None
  | S fuel =>
      match (next ← checked_add 64 hart_id 1; r ← start_turn hart_id s; Val (next, r)) with
      | Stop p => Some (Stop p)
      | Val (next, (s, true)) => spawn_harts fuel next s
      | Val (_, (s, false)) => Some (Val s)
      end
  end.

End Spawn.
Arguments Machine A : clear implicits.
Arguments mkMachine {A} heap words calls leaked.

(** ** The way of a started hart *)

Definition set_sp (h : Hart) (v : Z) : Hart :=
  mkHart (sie h) (sip h) (stvec h) (satp_csr h) (sstatus h) (sscratch h) (stval h) (scause h)
    (time h) (cycle h) (instret h) v.

(** [boot.S]: the opaque argument is the stack pointer, and the word it points
    to in physical memory the [satp] of the hart that started this one. *)
Definition hart_entry_point_asm (physical : Z -> option Z) (h : Hart) (a1 : Z) : outcome Hart :=
  match physical a1 with
  | Some v => Val (write_satp (set_sp h a1) v)
  | None => Stop Undefined
  end.

(** From the firmware to [setup_hart]: the hart, the stack pointer [main] is
    given and where [main] goes.  [prologue] is what the compiled [hart_entry]
    pushes before it reads its stack pointer. *)
Definition boot_hart (MIN_HEAP_SIZE : Z) (g : KernelGlobals) (m : mem) (physical : Z -> option Z)
  (prologue : Z) (h : Hart) (call : StartCall) : outcome (Hart * Z * MainExit) :=
  h ← hart_entry_point_asm physical h (opaque call);
  sp ← checked_sub (read_sp h) prologue;
  exit ← hart_entry (start_addr call) sp (hart_id call);
  match exit with
  | HaltLoop => Stop Undefined
  | KernelEntry hartid opaque sv_bits len stack_start entry =>
      r ← main MIN_HEAP_SIZE g (read_satp h) m hartid opaque sv_bits len stack_start entry;
      Val (h, stack_start, r.2)
  end.

(** The physical memory behind the upper half. *)
Definition physical_view (gap : Z) (words : gmap Z Z) (p : Z) : option Z := words !! (p + gap).

(** ** Properties *)

Section Correct.
Context {A : Type} `{Heap : StackHeap A}.
Context (hart_start : list StartCall -> Z -> Z -> Z -> StartAnswer).
Context (g : KernelGlobals) (h : Hart) (hart_entry_point : Z).
Context (HGAP : GAP g = 2 ^ 64 - 2 ^ 38) {HSpec : StackHeapSpec A (GAP g)}.

Notation turn := (start_turn hart_start g h hart_entry_point).
Notation spawn := (spawn_harts hart_start g h hart_entry_point).

(** The call a stack is handed over by. *)
Definition call_of (i : nat) (stack : Z) : StartCall :=
  mkStartCall (Z.of_nat i) hart_entry_point (stack + 4088 - GAP g).

(** After the turns of the harts below [i], started with the blocks [ls]. *)
Record spawned (ls : list Z) (i : nat) (s : Machine A) : Prop := {
  sp_blocks : blocks (heap s) = ls ++ leaked s;
  sp_count : length (leaked s) = i;
  sp_distinct : NoDup (leaked s);
  sp_calls : calls s = imap call_of (leaked s);
  sp_stacks b : b ∈ leaked s ->
    GAP g <= b /\ b + 4096 < 2 ^ 64 /\ (4096 | b) /\ words s !! (b + 4088) = Some (read_satp h)
}.

(** A turn: its stack, its call, and by the answer whether the loop goes on. *)
Lemma start_turn_spec i s :
  (length (blocks (heap s)) < capacity)%nat ->
  exists a p, GAP g <= p /\ p + 4096 < 2 ^ 64 /\ (4096 | p) /\ ~ In p (blocks (heap s)) /\
    blocks a = blocks (heap s) ++ [p] /\
    let c := mkStartCall i hart_entry_point (p + 4088 - GAP g) in
    let w := <[p + 4088 := read_satp h]> (words s) in
    turn i s = match hart_start (calls s) i hart_entry_point (opaque c) with
               | Started | AlreadyAvailable => Val (mkMachine a w (calls s ++ [c]) (leaked s ++ [p]), true)
               | InvalidParameter => Val (mkMachine (dealloc a p 4096 1) w (calls s ++ [c]) (leaked s), false)
               | OtherError => Stop ExplicitPanic
               end.
Proof.
  intros Hc. destruct (alloc_stack (heap s) Hc) as (a & p & Ea & Hlo & Hhi & Hal & Hin & Hb).
  exists a, p. do 5 (split; [done|]). cbv zeta. unfold start_turn, boxed_slice_with_alignment_uninit.
  rewrite checked_mul_Val by lia. cbn [mbind outcome_bind].
  change (layout_ok (4096 * 1) 4096) with true. cbn [mbind outcome_bind]. change (4096 * 1) with 4096.
  rewrite Ea. cbn [fst snd]. rewrite HGAP in *. do 2 checked.
  replace (p + 4096 - 8) with (p + 4088) by lia. by checked.
Qed.

Lemma spawned_step ls i s :
  spawned ls i s -> (length ls + i < capacity)%nat ->
  (forall o, hart_start (calls s) (Z.of_nat i) hart_entry_point o = Started \/
     hart_start (calls s) (Z.of_nat i) hart_entry_point o = AlreadyAvailable) ->
  exists s', turn (Z.of_nat i) s = Val (s', true) /\ spawned ls (S i) s'.
Proof.
  intros [Hb Hn Hd Hc Hs] Hcap Hans.
  destruct (start_turn_spec (Z.of_nat i) s) as (a & p & Hlo & Hhi & Hal & Hin & Ha & Et).
  { rewrite Hb, length_app. lia. }
  cbv zeta in Et. exists (mkMachine a (<[p + 4088 := read_satp h]> (words s))
    (calls s ++ [call_of i p]) (leaked s ++ [p])).
  split; [rewrite Et; destruct (Hans (p + 4088 - GAP g)) as [E|E]; cbn [opaque]; by rewrite E|].
  split; cbn [heap words calls leaked].
  - by rewrite Ha, Hb, app_assoc.
  - rewrite length_app; cbn; lia.
  - apply list.NoDup_app. split; [done|]. split; [|apply NoDup_singleton].
    intros b Hbs ->%list_elem_of_singleton. apply Hin. rewrite Hb.
    apply in_or_app. right. by apply list_elem_of_In.
  - rewrite imap_app, Hc. cbn. by rewrite Nat.add_0_r, Hn.
  - intros b [Hin'|Hin']%elem_of_app.
    + destruct (Hs b Hin') as (H1 & H2 & H3 & H4). do 3 (split; [done|]).
      rewrite lookup_insert_ne; [done|]. intros E. apply Hin. rewrite Hb.
      apply in_or_app. right. apply list_elem_of_In. by replace p with b by lia.
    + apply list_elem_of_singleton in Hin' as ->. by rewrite lookup_insert_eq.
Qed.

(** The firmware knows the harts below [n]: an invalid hart is the documented
    reason for [InvalidParameter]. *)
Definition firmware_harts (n : nat) : Prop :=
  forall log o, hart_start log (Z.of_nat n) hart_entry_point o = InvalidParameter /\
    forall i, (i < n)%nat ->
      hart_start log (Z.of_nat i) hart_entry_point o = Started \/
      hart_start log (Z.of_nat i) hart_entry_point o = AlreadyAvailable.

(** After the loop: [spawned], but for the call that found no hart. *)
Record finished (ls : list Z) (n : nat) (s : Machine A) : Prop := {
  fin_blocks : blocks (heap s) = ls ++ leaked s;
  fin_count : length (leaked s) = n;
  fin_distinct : NoDup (leaked s);
  fin_calls : exists p, calls s = imap call_of (leaked s) ++ [call_of n p];
  fin_stacks b : b ∈ leaked s ->
    GAP g <= b /\ b + 4096 < 2 ^ 64 /\ (4096 | b) /\ words s !! (b + 4088) = Some (read_satp h)
}.

Lemma spawned_last ls n s :
  spawned ls n s -> (length ls + n < capacity)%nat -> firmware_harts n ->
  exists s', turn (Z.of_nat n) s = Val (s', false) /\ finished ls n s'.
Proof.
  intros [Hb Hn Hd Hc Hs] Hcap Hfw.
  destruct (start_turn_spec (Z.of_nat n) s) as (a & p & _ & _ & _ & Hin & Ha & Et).
  { rewrite Hb, length_app. lia. }
  cbv zeta in Et. rewrite (proj1 (Hfw _ _)) in Et. eexists. split; [exact Et|].
  split; cbn [heap words calls leaked].
  - rewrite <- Hb. exact (dealloc_last a _ p Ha).
  - done.
  - done.
  - exists p. by rewrite Hc.
  - intros b Hbs. destruct (Hs b Hbs) as (H1 & H2 & H3 & H4). do 3 (split; [done|]).
    rewrite lookup_insert_ne; [done|]. intros E. apply Hin. rewrite Hb.
    apply in_or_app. right. apply list_elem_of_In. by replace p with b by lia.
Qed.

Lemma spawn_loop ls n k : forall i s fuel,
  (i + k = n)%nat -> (k < fuel)%nat -> spawned ls i s -> (length ls + n < capacity)%nat ->
  Z.of_nat n < 2 ^ 64 - 1 -> firmware_harts n ->
  exists s', spawn fuel (Z.of_nat i) s = Some (Val s') /\ finished ls n s'.
Proof.
  induction k as [|k IH]; intros i s [|fuel] Hi Hf Hsp Hcap Hn Hfw; try lia; cbn [spawn_harts];
    rewrite checked_add_Val by lia; cbn [mbind outcome_bind].
  - replace i with n in * by lia. destruct (spawned_last ls n s Hsp Hcap Hfw) as (s' & -> & Hs').
    by exists s'.
  - destruct (spawned_step ls i s Hsp) as (s' & -> & Hs'); [lia|intros o; apply Hfw; lia|].
    cbn [mbind outcome_bind]. replace (Z.of_nat i + 1) with (Z.of_nat (S i)) by lia.
    apply IH; done || lia.
Qed.

(** A started hart, on its stack. *)
Lemma boot_hart_main MIN_HEAP_SIZE m prologue h' (w : gmap Z Z) i b :
  SV_BITS g <> 0 -> 0 <= prologue <= 4088 -> GAP g <= b -> b + 4096 < 2 ^ 64 ->
  w !! (b + 4088) = Some (read_satp h) ->
  boot_hart MIN_HEAP_SIZE g m (physical_view (GAP g) w) prologue h' (call_of i b) =
    Val (write_satp (set_sp h' (b + 4088 - GAP g)) (read_satp h), b + 4088 - prologue,
         SetupHart (Z.of_nat i)).
Proof.
  intros Hsv Hp Hlo Hhi Hw. unfold boot_hart, hart_entry_point_asm, physical_view, call_of.
  cbn [opaque start_addr hart_id]. replace (b + 4088 - GAP g + GAP g) with (b + 4088) by lia.
  rewrite Hw. cbn [mbind outcome_bind]. unfold read_sp. cbn [sp write_satp set_sp].
  rewrite HGAP in *. checked. unfold hart_entry. checked. unfold main.
  rewrite (proj2 (Z.eqb_neq _ _) Hsv). cbn [negb mbind outcome_bind snd].
  f_equal. f_equal. f_equal. lia.
Qed.
End Correct.


(** A heap of sixteen pages that gives them out in order. *)
#[export] Instance page_heap : StackHeap nat := {
  alloc_layout k _ _ := (S k, 0xffffffc082000000 + 4096 * Z.of_nat k);
  dealloc k _ _ _ := Nat.pred k;
  blocks k := List.map (fun i => 0xffffffc082000000 + 4096 * Z.of_nat i) (seq 0 k);
  capacity := 16
}.

#[export] Instance page_heap_spec : StackHeapSpec nat (2 ^ 64 - 2 ^ 38).
Proof.
  split; cbn [blocks page_heap capacity alloc_layout dealloc].
  - intros k Hk. rewrite length_map, length_seq in Hk.
    exists (S k), (0xffffffc082000000 + 4096 * Z.of_nat k). split; [done|].
    do 2 (split; [lia|]). split; [exists (0xffffffc082000 + Z.of_nat k); lia|]. split.
    + intros (i & Hi & Hin)%in_map_iff. apply in_seq in Hin. lia.
    + by rewrite seq_S, map_app.
  - intros [|k] ls p E; [by destruct ls|]. rewrite seq_S, map_app in E.
    by apply app_inj_tail in E as [E _].
Qed.

(** Three harts, of which the one that runs the loop is the first. *)
Definition three_harts (_ : list StartCall) (i _ _ : Z) : StartAnswer :=
  if i =? 0 then AlreadyAvailable else if i <? 3 then Started else InvalidParameter.


(** ** After [setup_hart] *)

(** The state [setup_hart_state_and_metadata] leaves.  The frame in
    [sscratch] names the hart, its locals and a fresh interrupt stack, so
    [HartLocals::current] finds them; it is marked as an interrupt context, so
    the interrupt-disabling locks leave [sie] and the lock counts alone until
    the hart switches to a process. *)
Theorem setup_hart_spec {L} alloc s_trap_vector frame locals h m hart (boxes : gmap Z L) l counts :
  frame <> 0 -> locals <> 0 -> boxes !! locals = Some l -> alloc 4096 4096 + 4096 < 2 ^ 64 ->
  exists h' m', setup_hart_state_and_metadata alloc s_trap_vector frame locals h m hart = Val (h', m') /\
    current h' m' boxes = Val l /\ load_hartid h' m' = Val hart /\
    in_interrupt_context h' m' = Val true /\ stvec h' = s_trap_vector /\
    Z.testbit (sstatus h') 1 = true /\ sie h' = sie h /\
    (exists f, m' !! sscratch h' = Some f /\ interrupt_stack f = alloc 4096 4096 + 4096 /\
       satp f = satp_csr h /\ kernel_satp f = satp_csr h /\ pid f = 1) /\
    lock_and_disable_interrupts m' (mkIrq h' counts) = Val (mkIrq h' counts) /\
    unlock_and_enable_interrupts_if_necessary m' (mkIrq h' counts) = Val (mkIrq h' counts).
Proof.
  intros Hf Hl Hb Ha. unfold setup_hart_state_and_metadata, boxed_slice_with_alignment_uninit.
  rewrite checked_mul_Val by lia. cbn [mbind outcome_bind]. change (4096 * 1) with 4096.
  change (layout_ok 4096 4096) with true. cbn [mbind outcome_bind]. checked.
  eexists _, _. split; [reflexivity|].
  unfold lock_and_disable_interrupts, unlock_and_enable_interrupts_if_necessary, current,
    load_hartid, in_interrupt_context, frame_ref, load_frame, read_sscratch.
  cbn [sscratch write_sscratch write_sstatus write_stvec stvec sstatus sie irq_hart].
  rewrite (proj2 (Z.eqb_neq _ _) Hf), lookup_insert_eq. cbn [mbind outcome_bind].
  cbn [hart_locals hartid]. rewrite (proj2 (Z.eqb_neq _ _) Hl), Hb.
  do 4 (split; [done|]). split; [|split; [done|split; [by eexists|done]]].
  unfold csr.SIE. rewrite Z.lor_spec, Z.pow2_bits_true by lia. apply orb_true_r.
Qed.

Lemma setup_hart_spec_witness :
  exists h' m', setup_hart_state_and_metadata (fun _ _ => 0xffffffc082003000) 0x1000 0x2000 0x3000
      (mkHart 0 0 0 0 0 0 0 0 0 0 0 0) ∅ 2 = Val (h', m') /\
    current h' m' {[ 0x3000 := true ]} = Val true /\ in_interrupt_context h' m' = Val true.
Proof.
  destruct (setup_hart_spec (fun _ _ => 0xffffffc082003000) 0x1000 0x2000 0x3000
    (mkHart 0 0 0 0 0 0 0 0 0 0 0 0) ∅ 2 {[ 0x3000 := true ]} true [])
    as (h' & m' & E & Hc & _ & Hi & _); [lia|lia|reflexivity|lia|].
  exists h', m'. split; [exact E|]. by split.
Defined.

(** ** Where the loop stops the kernel *)

(** Any other answer of the firmware, and an exhausted heap: the null pointer
    of a failed allocation is not tested, but its word has no physical address. *)
Lemma start_turn_stops {A} `{StackHeap A} hart_start g h entry i (s : Machine A) :
  (alloc_layout (heap s) 4096 4096).2 = 0 -> 4088 < GAP g ->
  start_turn hart_start g h entry i s = Stop Overflow.
Proof.
  intros Ha Hg. unfold start_turn, boxed_slice_with_alignment_uninit.
  rewrite checked_mul_Val by lia. cbn [mbind outcome_bind].
  change (layout_ok (4096 * 1) 4096) with true. cbn [mbind outcome_bind]. change (4096 * 1) with 4096.
  rewrite Ha. do 2 checked. unfold checked_sub. by rewrite (proj2 (Z.ltb_lt _ _)) by lia.
Qed.

Lemma start_turn_unhandled {A} `{StackHeap A} hart_start g h entry i (s s' : Machine A) b :
  (forall o, hart_start (calls s) i entry o = OtherError) ->
  start_turn hart_start g h entry i s <> Val (s', b).
Proof.
  intros Ho E. unfold start_turn in E. apply bind_inv in E as ([p n] & _ & E).
  apply bind_inv in E as (e & _ & E). apply bind_inv in E as (t & _ & E).
  apply bind_inv in E as (o & _ & E). by rewrite Ho in E.
Qed.

(** ** What a hart does then *)

(** The loop of the task [common_hart_code] spawns, one turn: arm the timer,
    run the process until the next trap.  The process's mutex is free and, in
    the interrupt context of the hart, leaves the interrupts alone. *)
Definition process_turn {F} (ecall : F -> Z -> Z -> list Z -> F * (Z * Z)) (h : Hart) (m : frames)
  (execute : Process -> TrapFrame -> outcome Process) (frame : Z) (fw : F) (process : Process)
  : outcome (F * Process) :=
  let fw := set_relative_timer ecall h fw 0x1000000 in
  process ← switch_to_and_come_back h m execute frame process;
  Val (fw, process).

(** Every turn arms the timer a fixed time from now and leaves the process
    paused, so the next turn runs it again, also when it has exited. *)
Lemma process_turn_spec {F} (ecall : F -> Z -> Z -> list Z -> F * (Z * Z)) h m execute frame fw p fw' p' :
  process_turn ecall h m execute frame fw p = Val (fw', p') ->
  fw' = (ecall fw 0x54494D45 0 [saturating_add (time h) 0x1000000]).1 /\ state p' = Paused.
Proof.
  unfold process_turn, switch_to_and_come_back. intros E.
  apply bind_inv in E as (q & E & [= <- <-]). apply bind_inv in E as (mine & _ & E).
  apply bind_inv in E as (r & _ & [= <-]). split; [|done].
  unfold Sbi.set_relative_timer, Sbi.set_absolute_timer, Sbi.erase, Sbi.call_sbi_1, Sbi.call_sbi.
  by destruct (ecall _ _ _ _) as [fw1 [e v]].
Qed.

(** ** The serial port *)

Definition get_uart (g : KernelGlobals) : outcome Z := checked_add 64 (GAP g) 0x10000000.

(** [Uart::write_str]: the byte stores, in order. *)
Definition write_str (uart : Z) (s : list Z) : list (Z * Z) := List.map (fun i => (uart, i)) s.

(** The tables of a hart map the port to the device's physical address. *)
Lemma uart_mapped g kernel_physical :
  GAP g = 2 ^ 64 - 2 ^ 38 ->
  exists uart, get_uart g = Val uart /\
    hart_translation kernel_physical (uart mod 2 ^ 39) = Ok 0x10000000 /\
    forall s a b, In (a, b) (write_str uart s) -> a = uart.
Proof.
  intros HG. unfold get_uart. rewrite HG. checked. eexists. split; [reflexivity|]. split; [reflexivity|].
  intros s a b (i & [= <- _] & _)%in_map_iff. done.
Qed.
