(* ===== verification/SyscallAsm.v ===== *)
(** * The assembly: declared system calls and the routines nothing calls

    The declarations of [kernel_main/src/asm.rs], which give one routine of
    [syscall.S] a Rust signature per number of arguments; and the routines of
    [trap.S] that [TrapAsm] does not need: [switch_to_user_frame],
    [store_to_trap_frame] and [do_syscall_internal].  The entry points of the kernel:
    [boot] of [main.rs], whose text is a macro of [kernel_util], those of
    [kernel_bootloader/boot.S], and the one of [asm/boot.S], which is not assembled. *)

From S2P Require Import Prelude Cpu Sbi Process Harts Riscv TrapAsm.

(** ** The declarations of asm.rs *)

(** The registers of a call: the arguments from [a0] on, the caller's else. *)
Definition passed (l : list Z) (m : CpuState) : CpuState :=
  foldr (fun '(i, v) m => set (a0 + i)%nat v m) m (imap pair l).

Section Calls.
Context (symbol : string -> Z) (return_address : Target -> Z).

(** A call of the routine under the C calling convention: the arguments from
    [a0] on. *)
Definition extern_call (arguments : list Z) (m : CpuState) : outcome (CpuState * Exit) :=
  exec symbol return_address no_calls do_supervisor_syscall None
    (passed arguments m).

Definition do_supervisor_syscall_0 (number : Z) := extern_call [number].
Definition do_supervisor_syscall_1 (number a0 : Z) := extern_call [number; a0].
Definition do_supervisor_syscall_2 (number a0 a1 : Z) := extern_call [number; a0; a1].
(** Declared with two arguments each. *)
Definition do_supervisor_syscall_3 (number a0 a1 : Z) := extern_call [number; a0; a1].
Definition do_supervisor_syscall_4 (number a0 a1 : Z) := extern_call [number; a0; a1].
Definition do_supervisor_syscall_5 (number a0 a1 : Z) := extern_call [number; a0; a1].
Definition do_supervisor_syscall_6 (number a0 a1 : Z) := extern_call [number; a0; a1].
Definition do_supervisor_syscall_7 (number a0 a1 : Z) := extern_call [number; a0; a1].
End Calls.

(** ** The other routines of trap.S *)

Definition switch_to_user_frame : Code :=
  [Csrw Sscratch a0;
   Ld t0 (XLEN * 32) a0; Csrw Sepc t0;
   Ld t0 (XLEN * 37) a0; Csrw Satp t0; SfenceVma;
   Li t0 0x222; Csrw Sie t0;
   Csrr t0 Sstatus; Li t1 (Z.lnot (Z.shiftl 1 8)); And t0 t1 t0; Csrw Sstatus t0] ++
  restore_volatile_registers ++ [Label "switch_to_user_frame_end"; Sret].

(** [jal t6, 4] jumps to the next instruction and leaves its address in [t6],
    here that of a symbol. *)
Definition store_to_trap_frame : Code :=
  [Csrrw a1 Sscratch a1] ++
  List.map (fun i => store_general i a0) (seq 0 31) ++
  [La t6 ".after_jal"; Addi t6 t6 (-4); Sd t6 (XLEN * 32) a0; Csrrw a1 Sscratch a1; Ret].

(** [csrr a2, 9]: the number is that of a register of the vector extension,
    which the kernel's target does not have. *)
Definition do_syscall_internal : Code :=
  store_volatile_registers ++
  [La sp "_stack_start"; Mv a0 ra; Sd a0 (XLEN * 32) t5; Li a1 0; CsrrNumber a2 9;
   Ld a0 (XLEN * 32) t5; Ld a3 (XLEN * 33) t5; Csrr a4 Sstatus; Csrr a5 Sscratch;
   Call "trap_handler"; Mv ra a0] ++
  restore_volatile_registers ++ [Ret].

(** ** The entry points *)

(** The fragment [boot] of the macro, and the naked [boot] it is the text of. *)
Definition useful_asm_fragment_boot (main : string) : Code := [Mv sp a4; La t0 main; Jalr t0].
Definition boot : Code := useful_asm_fragment_boot "main".

(** [kernel_bootloader/boot.S]: where the firmware starts the boot hart, and
    where it starts the others. *)
Definition bootloader_boot : Code := [La sp "_stack_start"; Call "pre_main"].
Definition hart_entry_point : Code := [Mv sp a1; Ld t0 0 sp; Csrw Satp t0; Call "hart_entry"].

(** [asm/boot.S], with the [ret_] behind it. *)
Definition boot_S : Code := [Li sp 0x84000000; La t0 "main"; Jalr t0; Label "ret_"; Ret].

(** ** Properties *)

Section Routines.
Context (symbol : string -> Z) (return_address : Target -> Z).
Context (external : Target -> CpuState -> outcome (CpuState * Exit)).
Notation run_code := (exec symbol return_address external).

(** Like the switch to a supervisor frame, but [sret] leaves for user mode: the
    bit it takes the mode from is clear. *)
Theorem switch_to_user_frame_spec m q f :
  frame_at (words m) q f -> get a0 m = q ->
  exists m1 m', run_code switch_to_user_frame None m =
      Val (write_status (sret_status (read_csr Sstatus m1)) m1, Resumed (pc f)) /\
    m' = write_status (sret_status (read_csr Sstatus m1)) m1 /\
    Z.testbit (read_csr Sstatus m1) 8 = false /\
    (forall k, k <> 8 -> 0 <= k < 64 -> Z.testbit (read_csr Sstatus m1) k = Z.testbit (read_csr Sstatus m) k) /\
    (forall j, (1 <= j < 32)%nat -> get j m' = default 0 (general_registers f !! j)) /\
    read_csr Sscratch m' = q /\ read_csr Satp m' = satp f /\ read_csr Sie m' = 0x222 /\ words m' = words m.
Proof.
  intros Hf Hq. destruct (frame_words_fields f (fa_registers _ _ _ Hf)) as (F32 & _ & F37 & _).
  unfold switch_to_user_frame. cbn [app]. asm. rewrite Hq.
  set (m1 := write_csr Sscratch _ _).
  rewrite (load_field q f 32 _ _ m1 (pc f)) by done. cbn [mbind outcome_bind]. asm.
  rewrite (load_field q f 37 _ _ _ (satp f)) by done. cbn [mbind outcome_bind]. asm.
  match goal with |- context [Riscv.exec _ _ _ _ None ?m0] =>
    destruct (exec_restore symbol return_address external m0 q f [Label "switch_to_user_frame_end"; Sret])
      as (m2 & E & Ec & Es & Ew & Hg); [done|exact Hf|] end.
  rewrite E. asm. exists m2. eexists. split; [f_equal; f_equal; f_equal; exact Es|]. split; [reflexivity|].
  assert (Est : read_csr Sstatus m2 = Z.land (Z.lnot (Z.shiftl 1 8) mod 2 ^ 64) (read_csr Sstatus m)).
  { unfold read_csr. by rewrite Ec. }
  rewrite Est. split; [by rewrite Z.land_spec|]. split.
  { intros k Hk Hb. rewrite Z.land_spec, Z.mod_pow2_bits_low, Z.lnot_spec, Z.shiftl_spec by lia.
    destruct (Z.ltb_spec (k - 8) 0); [by rewrite Z.testbit_neg_r by lia|].
    by rewrite (Z.bits_above_log2 1) by (cbn; lia). }
  split; [intros j Hj; by rewrite <- (Hg j Hj)|].
  unfold write_status. cbn [read_csr write_csr set_csrs csrs words]. by rewrite Ec, Ew.
Qed.

(** [do_syscall_internal] never gets to the handler: having saved the registers
    it reads a control register that the hart does not have. *)
Lemma do_syscall_internal_stops m p f :
  read_csr Sscratch m = p -> frame_at (words m) p f -> run_code do_syscall_internal None m = Stop Undefined.
Proof.
  intros Hp Hf. unfold do_syscall_internal.
  destruct (exec_store_volatile symbol return_address external m p f
    ([La sp "_stack_start"; Mv a0 ra; Sd a0 (XLEN * 32) t5; Li a1 0; CsrrNumber a2 9;
      Ld a0 (XLEN * 32) t5; Ld a3 (XLEN * 33) t5; Csrr a4 Sstatus; Csrr a5 Sscratch;
      Call "trap_handler"; Mv ra a0] ++ restore_volatile_registers ++ [Ret]))
    as (m0 & E & H5 & _ & _ & Hf0 & _); [done|done|].
  rewrite E. cbn [app]. asm. unfold store.
  rewrite (address_frame p 32) by (done || lia || apply Hf0). cbn [mbind outcome_bind]. by asm.
Qed.

(** [store_to_trap_frame] writes the registers into the frame in [a0] and
    returns, but three of them wrongly: the place of [a1] gets the old [sscratch],
    that of [t6] is not written, and [t6] itself is not preserved. *)
Theorem store_to_trap_frame_spec m q f :
  get a0 m = q -> frame_at (words m) q f ->
  let saved j := if (j =? a1)%nat then read_csr Sscratch m
                 else if (j =? t6)%nat then default 0 (general_registers f !! t6) else get j m in
  exists m', run_code store_to_trap_frame None m = Val (m', Returned (get ra m)) /\
    csrs m' = csrs m /\ (forall j, j <> t6 -> get j m' = get j m) /\
    (forall j, (j < 32)%nat -> words m' !! (q + 8 * Z.of_nat j) = Some (saved j)) /\
    words m' !! (q + 8 * 32) = Some ((symbol ".after_jal" + -4) mod 2 ^ 64) /\
    forall a, ~ in_frame q a -> words m' !! a = words m !! a.
Proof.
  intros Hq Hf saved. pose proof Hf as [Ha Hl Hh Hr Hw]. unfold store_to_trap_frame. cbn [app]. asm.
  set (m1 := set a1 _ _).
  rewrite (exec_stores symbol return_address external a0 31 0 m1 q) by (done || lia). cbn [app]. asm.
  unfold store. rewrite (address_frame q 32) by (done || lia). cbn [mbind outcome_bind]. asm.
  eexists. split; [reflexivity|]. split.
  { destruct m as [r h se w]. destruct h. done. }
  split.
  { intros j Hj. destruct (decide (j = a1)) as [->|Hne]; [done|].
    rewrite get_other by done. change (get j (set t6 ((symbol ".after_jal" + -4) mod 2 ^ 64) (set t6 (symbol ".after_jal") m1)) = get j m).
    rewrite !get_other by done. unfold m1. by rewrite get_other. }
  cbn [words set_words set_csrs write_csr set]. split; [|split].
  - intros j Hj. rewrite lookup_insert_ne by lia. unfold saved.
    destruct (decide (j = t6)) as [->|Hne].
    + rewrite stored_out by (intros k Hk; unfold t6; lia). apply Hw. unfold frame_words.
      rewrite lookup_app_l by (rewrite Hr; unfold t6; lia). cbn [Nat.eqb t6 a1].
      destruct (lookup_lt_is_Some_2 (general_registers f) t6) as [v Hv]; [rewrite Hr; unfold t6; lia|].
      change 31%nat with t6. by rewrite Hv.
    + rewrite stored_in by (unfold t6 in Hne; lia). rewrite (proj2 (Nat.eqb_neq j t6) Hne). f_equal.
      unfold m1. rewrite get_set. destruct (Nat.eqb_spec j a1) as [->|Hn1]; [done|].
      destruct (Nat.eqb_spec j 0) as [->|]; done.
  - apply lookup_insert_eq.
  - intros a Hin. rewrite lookup_insert_ne by (unfold in_frame in Hin; lia).
    by rewrite stored_out by (intros k Hk; unfold in_frame in Hin; lia).
Qed.

(** [main] gets its six arguments as the bootloader passed them, and the fifth
    of them as its stack pointer; it never returns into [boot]. *)
Lemma boot_calls_main m r e :
  external (Address (symbol "main")) (set ra (return_address (Address (symbol "main")))
    (set t0 (symbol "main") (set sp (get a4 m) m))) = Val (r, e) ->
  (forall to, e <> Returned to) -> run_code boot None m = Val (r, e).
Proof.
  intros E He. unfold boot, useful_asm_fragment_boot. asm. unfold call. rewrite get_set. cbn [Nat.eqb t0]. rewrite E.
  cbn [mbind outcome_bind fst snd]. by destruct e as [|to| |]; [|destruct (He to)|..].
Qed.

(** A started hart: the text does what [Harts.hart_entry_point_asm] says, and
    calls [hart_entry] so. *)
Lemma hart_entry_point_refines m h' r e :
  get a1 m mod 8 = 0 -> 0 <= get a1 m < 2 ^ 64 ->
  hart_entry_point_asm (fun a => words m !! a) (csrs m) (get a1 m) = Val h' ->
  (forall m', csrs m' = write_satp (csrs m) (read_satp h') -> get sp m' = read_sp h' ->
     (forall j, ~ In j [ra; sp; t0] -> get j m' = get j m) -> words m' = words m ->
     external (Symbol "hart_entry") m' = Val (r, e)) ->
  (forall to, e <> Returned to) -> run_code hart_entry_point None m = Val (r, e).
Proof.
  intros Ha Hb Eh Hx He. unfold hart_entry_point_asm in Eh.
  destruct (words m !! get a1 m) as [v|] eqn:Hv; [|done]. injection Eh as <-.
  unfold hart_entry_point. asm. unfold load.
  rewrite address_Val; rewrite get_set; cbn [Nat.eqb sp]; rewrite ?Z.add_0_r; [|lia|done].
  cbn [mbind outcome_bind words set]. rewrite Hv. cbn [mbind outcome_bind]. asm. unfold call.
  rewrite Hx; [cbn [mbind outcome_bind fst snd]; by destruct e as [|to| |]; [|destruct (He to)|..]|done|done| |done].
  intros j Hj. cbn [In] in Hj. rewrite get_other by (intros ->; tauto).
  change (get j (write_csr Satp (get t0 (set t0 v (set sp (get a1 m) m))) (set t0 v (set sp (get a1 m) m))))
    with (get j (set t0 v (set sp (get a1 m) m))).
  by rewrite !get_other by (intros ->; tauto).
Qed.
End Routines.

Lemma passed_spec l m :
  (length l <= 3)%nat ->
  csrs (passed l m) = csrs m /\ words (passed l m) = words m /\
  (forall j, ~ In j [a0; a1; a2] -> get j (passed l m) = get j m) /\
  get a0 (passed l m) = default (get a0 m) (l !! 0%nat) /\
  get a1 (passed l m) = default (get a1 m) (l !! 1%nat) /\
  get a2 (passed l m) = default (get a2 m) (l !! 2%nat).
Proof.
  intros Hl. assert (H : forall j, ~ In j [a0; a1; a2] -> j <> a0 /\ j <> a1 /\ j <> a2)
    by (intros j Hj; cbn [In] in Hj; split_and!; intros ->; apply Hj; tauto).
  assert (E : passed l m = match l with
                           | [] => m
                           | [x] => set a0 x m
                           | [x; y] => set a0 x (set a1 y m)
                           | x :: y :: z :: _ => set a0 x (set a1 y (set a2 z m))
                           end).
  { by destruct l as [|x [|y [|z [|? l]]]]; cbn [length] in Hl; try lia. }
  rewrite E. destruct l as [|x [|y [|z [|? l]]]]; cbn [length] in Hl; try lia;
    (do 2 (split; [done|]); split; [|by repeat split]);
    intros j Hj; apply H in Hj as (H0 & H1 & H2); by rewrite ?get_other by done.
Qed.

(** C38: the system calls declared in asm.rs.  Called with an aligned stack,
    each of them returns to its caller when some interrupt is enabled, having
    raised the software interrupt with the number in [a7] and its arguments in
    [a0] and [a1] - where the declaration has fewer, the handler sees the
    registers the caller happened to have; the declarations for three to seven
    arguments pass two.  With every interrupt disabled all of them end in
    [syscall_on_interrupt_disabled].  The handler finds the caller's [a7] in [a6]
    and its [a5] in [a4] and [a5]. *)
Theorem declared_syscalls symbol return_address (number x0 x1 : Z) m :
  let slot := get sp m - 16 in slot mod 8 = 0 -> 16 <= get sp m < 2 ^ 64 ->
  forall f y0 y1,
  In (f, y0, y1)
    [(do_supervisor_syscall_0 symbol return_address number, get a1 m, get a2 m);
     (do_supervisor_syscall_1 symbol return_address number x0, x0, get a2 m);
     (do_supervisor_syscall_2 symbol return_address number x0 x1, x0, x1);
     (do_supervisor_syscall_3 symbol return_address number x0 x1, x0, x1);
     (do_supervisor_syscall_4 symbol return_address number x0 x1, x0, x1);
     (do_supervisor_syscall_5 symbol return_address number x0 x1, x0, x1);
     (do_supervisor_syscall_6 symbol return_address number x0 x1, x0, x1);
     (do_supervisor_syscall_7 symbol return_address number x0 x1, x0, x1)] ->
  exists m' e, f m = Val (m', e) /\ words m' = <[slot := get ra m]> (words m) /\
    if read_csr Sie m =? 0 then e = JumpedTo "syscall_on_interrupt_disabled" /\ csrs m' = csrs m
    else e = Returned (get ra m) /\ read_csr Sip m' = Z.lor (read_csr Sip m) csr.SSIP /\
      get a7 m' = number /\ get a0 m' = y0 /\ get a1 m' = y1 /\
      get a2 m' = get a3 m /\ get a3 m' = get a4 m /\ get a4 m' = get a5 m /\
      get a5 m' = get a5 m /\ get a6 m' = get a7 m.
Proof.
  intros slot Ha Hb.
  assert (H : forall l, (length l <= 3)%nat -> l !! 0%nat = Some number ->
    exists m' e, extern_call symbol return_address l m = Val (m', e) /\ words m' = <[slot := get ra m]> (words m) /\
    if read_csr Sie m =? 0 then e = JumpedTo "syscall_on_interrupt_disabled" /\ csrs m' = csrs m
    else e = Returned (get ra m) /\ read_csr Sip m' = Z.lor (read_csr Sip m) csr.SSIP /\
      get a7 m' = number /\ get a0 m' = default (get a1 m) (l !! 1%nat) /\
      get a1 m' = default (get a2 m) (l !! 2%nat) /\
      get a2 m' = get a3 m /\ get a3 m' = get a4 m /\ get a4 m' = get a5 m /\
      get a5 m' = get a5 m /\ get a6 m' = get a7 m).
  { intros l Hl Hn. destruct (passed_spec l m Hl) as (Hc & Hw & Hg & H0 & H1 & H2). rewrite Hn in H0.
    assert (Hsp : get sp (passed l m) = get sp m) by (apply Hg; vm_compute; intuition discriminate).
    destruct (do_supervisor_syscall_spec symbol return_address (passed l m)) as (m' & e & E & Ew & He);
      rewrite ?Hsp; [done|done|]. rewrite Hsp in Ew. exists m', e. split; [exact E|].
    assert (Hra : get ra (passed l m) = get ra m) by (apply Hg; vm_compute; intuition discriminate).
    rewrite Hw, Hra in Ew. split; [exact Ew|]. unfold read_csr in *. rewrite Hc in He.
    destruct (read_sie (csrs m) =? 0); [by destruct He as (-> & He & _)|].
    destruct He as (-> & Hsip & Hreg). rewrite Hra. split_and!; [done|exact Hsip|..];
      (rewrite Hreg; [|vm_compute; lia|vm_compute; discriminate]);
      first [exact H0|exact H1|exact H2|apply Hg; vm_compute; intuition discriminate]. }
  intros f y0 y1 Hin. cbn [In] in Hin.
  destruct Hin as [[= <- <- <-]|[[= <- <- <-]|[[= <- <- <-]|[[= <- <- <-]|[[= <- <- <-]|[[= <- <- <-]|[[= <- <- <-]|[[= <- <- <-]|[]]]]]]]]];
    (by apply (H [number]); cbn; first [lia|done]) ||
    (by apply (H [number; x0]); cbn; first [lia|done]) || (by apply (H [number; x0; x1]); cbn; first [lia|done]).
Qed.

Lemma declared_syscalls_witness :
  exists m', do_supervisor_syscall_1 (fun _ => 0) (fun _ => 0) 1 99 switching_machine = Val (m', Returned 1) /\
    get a7 m' = 1 /\ get a0 m' = 99 /\ get a6 m' = 17.
Proof.
  destruct (declared_syscalls (fun _ => 0) (fun _ => 0) 1 99 0 switching_machine) with
    (f := do_supervisor_syscall_1 (fun _ => 0) (fun _ => 0) 1 99) (y0 := 99) (y1 := 0x3000)
    as (m' & e & E & _ & H); [reflexivity|by vm_compute|right; left; reflexivity|].
  change (read_csr Sie switching_machine =? 0) with false in H.
  destruct H as (-> & _ & H7 & H0 & _ & _ & _ & _ & _ & H6).
  exists m'. by split_and!.
Defined.
