(* ===== verification/HartTraps.v ===== *)
(** * The life of a hart: set-up, page tables, traps

    [setup_hart_state_and_metadata] and [common_hart_code] of
    [kernel_main/src/main.rs] with the assembly of traps: the frame the set-up
    puts into [sscratch] is the one every later trap of the hart uses. *)

From S2P Require Import Prelude Cpu Sbi Process PagingBits Paging PagingRefine Boot Harts Riscv TrapAsm.

(** [setup_hart], up to the write of [satp] in [common_hart_code]: the hart, its
    frames, the page tables. *)
Definition setup_hart (heap_alloc : Z -> Z -> Z) (s_trap_vector_address frame locals : Z)
  (alloc : mem -> option (Z * list Entry)) (st : KernelGlobals) (h : Hart) (fs : frames) (m : mem) (hart : Z)
  : outcome (Hart * frames * mem * Z) :=
  '(h, fs) ← setup_hart_state_and_metadata heap_alloc s_trap_vector_address frame locals h fs hart;
  '(m, table, satp) ← common_hart_tables alloc st m;
  Val (write_satp h satp, fs, m, table).

(** The register selects the hart's table, the frame the one from before. *)
Lemma setup_hart_satp heap_alloc vector frame locals alloc st h fs m hart t :
  (forall root, AllocSpec (kernel_paging st root) alloc) -> alloc m = Some (t, zeroed 8) ->
  0 <= KERNEL_START_PHYSICAL st -> KERNEL_START_PHYSICAL st mod 4096 = 0 ->
  KERNEL_START_PHYSICAL st + 0x101000 <= 2 ^ 38 -> t mod 4096 = 0 -> heap_alloc 4096 4096 + 4096 < 2 ^ 64 ->
  match setup_hart heap_alloc vector frame locals alloc st h fs m hart with
  | Stop p => p = OutOfMemory
  | Val (h', fs', m', table) =>
      table = t /\ satp_csr h' = 8 * 2 ^ 60 + (t - GAP st) / 4096 /\
      exists f, fs' !! sscratch h' = Some f /\ satp f = satp_csr h /\ kernel_satp f = satp_csr h
  end.
Proof.
  intros Ha Hm Hk Hk4 Hk38 Ht Hh. unfold setup_hart, setup_hart_state_and_metadata, boxed_slice_with_alignment_uninit.
  rewrite checked_mul_Val by lia. cbn [mbind outcome_bind]. change (4096 * 1) with 4096.
  change (layout_ok 4096 4096) with true. cbn [mbind outcome_bind]. checked.
  pose proof (hart_tables_built st alloc Ha m t Hm Hk Hk4 Hk38 Ht) as Hb.
  destruct (common_hart_tables alloc st m) as [[[m' table] sat]|]; cbn [mbind outcome_bind]; [|done].
  destruct Hb as (-> & -> & _). split; [done|]. split; [done|]. eexists. split; [apply lookup_insert_eq|done].
Qed.

Section Life.
Context (symbol : string -> Z) (return_address : Target -> Z).
Context {F : Type} (ecall : F -> Z -> Z -> list Z -> F * (Z * Z)) (fw : F).
Context (compiled : CpuState -> CpuState) (run_address : Z) (frame_of : Z -> Z).

Notation kernel := (kernel_calls symbol return_address ecall fw compiled run_address frame_of).
Notation run_code := (exec symbol return_address kernel).

(** From one machine state of the hart to a later one: any code that leaves the
    frame in [sscratch] alone, or a trap and its return. *)
Inductive alive (frame : Z) : CpuState -> CpuState -> Prop :=
  | code_runs m m' :
      read_csr Sscratch m' = frame -> (forall a, in_frame frame a -> words m' !! a = words m !! a) ->
      alive frame m m'
  | trap_taken m m' at_ :
      handled (scause (csrs m)) -> run_code s_trap_vector None (trap at_ m) = Val (m', Resumed at_) ->
      alive frame m m'.

(** The frame as the set-up made it, up to the context the last trap left in it. *)
Definition holds_frame (frame : Z) (f : TrapFrame) (m : CpuState) : Prop :=
  read_csr Sscratch m = frame /\ exists r q, frame_at (words m) frame (set_pc (set_registers f r) q).

Lemma trapped_again f r q m at_ : trapped (set_pc (set_registers f r) q) m at_ = set_pc (set_registers f (registers m)) at_.
Proof. done. Qed.

Lemma alive_holds_frame frame f m m' :
  (forall m, preserves (in_frame frame) m (compiled m)) -> restore_context f = 0 ->
  alive frame m m' -> holds_frame frame f m -> holds_frame frame f m'.
Proof.
  intros Hc Hr Ha (Hs & r & q & Hf). destruct Ha as [m m' Hs' Hw|m m' at_ Hh E].
  - split; [done|]. exists r, q. by apply (frame_at_ext (words m)).
  - destruct (trap_transparent symbol return_address ecall fw compiled run_address frame_of m frame _ at_ Hc Hs Hf Hr Hh)
      as (m1 & E1 & _ & Hs1 & _ & _ & Hf1).
    rewrite E1 in E. injection E as <-. split; [done|]. rewrite trapped_again in Hf1. by exists (registers m), at_.
Qed.

End Life.

Definition sample_setup : Hart := mkHart 0 0 0 0x8000000000080200 0 0 0 0 0 0 0 0.

(** The machine after the set-up of hart 2 and the change of page tables, when
    the timer goes off. *)
Definition running_machine : CpuState :=
  mkCpu (fun i => Z.of_nat i) (write_satp (sample_hart (interrupt_cause 5)) 0x8000000000082000) 0
    (write_frame 0x1000
       (mkTrapFrame (replicate 32 0) 0 2 1 0xffffffc082004000 1 0x8000000000080200 0x8000000000080200 0x3000 0 0) ∅).

