(* ===== verification/ProcessLoop.v ===== *)
(** * The task of a hart: a process, turn by turn

    The future [common_hart_code] of [kernel_main/src/main.rs] spawns: it makes
    one supervisor process and runs it for ever, a turn at a time.  The turn is
    the whole of [process.lock().switch_to_and_come_back()] on the machine of
    [Riscv]: [switch_to_and_come_back] of [kernel_process/src/lib.rs] with its
    allocation, the assembly of [TrapAsm] in between, and the guard of the
    process's mutex ([kernel_lock/src/shared]).

    Parameters: what the process does in its turn, the allocator, the firmware. *)

From S2P Require Import Prelude Cpu Sbi Process SpinLock SharedLock Harts Riscv TrapAsm.

(** ** The process *)

(** The loop of [test]: [for i in 0u64.. { i * i; }]; the range computes the
    successor before the body runs. *)
Fixpoint squares (fuel : nat) (i : Z) : option (outcome Z) :=
  match fuel with
  | O => None
  | S fuel =>
      match (next ← checked_add 64 i 1; _ ← checked_mul 64 i i; Val next) with
      | Stop p => Some (Stop p)
      | Val next => squares fuel next
      end
  end.

(** [test]: interrupts on, then the loop; what is behind it raises the software
    interrupt. *)
Definition test (fuel : nat) (h : Hart) : option (outcome Hart) :=
  let h := write_sstatus h (Z.lor (read_sstatus h) csr.SIE) in
  let h := enable_interrupts h in
  match squares fuel 0 with
  | None => None
  | Some (Stop p) => Some (Stop p)
  | Some (Val _) => Some (Val (write_sip h (Z.lor (read_sip h) csr.SSIP)))
  end.

(** [Process::new_supervisor] with the name; [function] is the address of [test]. *)
Definition hello_world (alloc : Z -> Z -> Z) (h : Hart) (m : frames) (function : Z) : outcome Process :=
  new_supervisor alloc h m
    (fun p => mkProcess (is_supervisor p) (trap_frame p) (Some "hello world"%string) (state p)
                (kernel_allocated_stack p)) function.

Lemma squares_running n : forall i fuel,
  0 <= i -> i + Z.of_nat n <= 2 ^ 32 -> squares (n + fuel) i = squares fuel (i + Z.of_nat n).
Proof.
  induction n as [|n IH]; intros i fuel Hi Hn; cbn [Nat.add squares]; [by rewrite Z.add_0_r|].
  rewrite checked_add_Val, checked_mul_Val by nia. cbn [mbind outcome_bind].
  rewrite IH by lia. f_equal. lia.
Qed.

(** The process never gets past its loop: the square of [2^32] does not fit 64
    bits, and the multiplication, whose result nothing uses, panics. *)
Theorem test_overflows h fuel :
  test fuel h = if Z.of_nat fuel <=? 2 ^ 32 then None else Some (Stop Overflow).
Proof.
  unfold test. destruct (Z.leb_spec (Z.of_nat fuel) (2 ^ 32)) as [Hf|Hf].
  - pose proof (squares_running fuel 0 0) as H. rewrite Nat.add_0_r in H. by rewrite H by lia.
  - set (n := Z.to_nat (2 ^ 32)) in *.
    assert (En : Z.of_nat n = 2 ^ 32) by (unfold n; by rewrite Z2Nat.id by lia).
    clearbody n. replace fuel with (n + S (fuel - S n))%nat by lia.
    rewrite squares_running by lia. rewrite Z.add_0_l, En. cbn [squares].
    rewrite checked_add_Val by lia. cbn [mbind outcome_bind].
    unfold checked_mul. cbn. done.
Qed.

(** ** Frames and the memory of words *)

(** The frame the kernel's Rust code sees through [sscratch]. *)
Definition current_frames (m : CpuState) : frames :=
  match read_frame (words m) (read_csr Sscratch m) with
  | Some f => {[ read_csr Sscratch m := f ]}
  | None => ∅
  end.

(** The words of a block of the allocator, once it is freed. *)
Fixpoint free_words (n : nat) (p : Z) (w : gmap Z Z) : gmap Z Z :=
  match n with
  | O => w
  | S n => free_words n (p + 8) (delete p w)
  end.

Lemma free_words_None n p w : w !! p = None -> forall k, free_words n (p + 8 * Z.of_nat k) w !! p = None.
Proof.
  revert w. induction n as [|n IH]; intros w H k; [done|]. cbn [free_words].
  replace (p + 8 * Z.of_nat k + 8) with (p + 8 * Z.of_nat (S k)) by lia. apply IH.
  by apply lookup_delete_None; right.
Qed.

(** A freed frame can no longer be read. *)
Lemma free_words_gone n p w : (0 < n)%nat -> free_words n p w !! p = None.
Proof.
  destruct n as [|n]; [lia|]. intros _. cbn [free_words].
  apply (free_words_None n p (delete p w) (lookup_delete_eq w p) 1).
Qed.

Lemma read_frame_gone w p : w !! p = None -> read_frame w p = None.
Proof. intros H. unfold read_frame. cbn [seq mapM mret]. by rewrite Z.add_0_r, H. Qed.

Lemma current_frames_at m p f : read_csr Sscratch m = p -> frame_at (words m) p f -> current_frames m = {[p := f]}.
Proof. intros <- Hf. unfold current_frames. by rewrite (read_frame_at _ _ _ Hf). Qed.

(** ** A turn *)

Section Turn.
Context (symbol : string -> Z) (return_address : Target -> Z).
Context {F : Type} (ecall : F -> Z -> Z -> list Z -> F * (Z * Z)) (fw : F).
Context (compiled : CpuState -> CpuState).
Context (run_address : Z) (frame_of : Z -> Z).
Notation kernel := (kernel_calls symbol return_address ecall fw compiled run_address frame_of).
Notation run_code := (exec symbol return_address kernel).

(** A machine with the lock counts of [HART_LOCK_COUNT], the mutex of the
    process and the process's state. *)
Record Turn := mkTurn {
  machine : CpuState;
  lock_counts : list Z;
  locked : bool;
  process_state : ProcessState
}.

(** [process.lock()]; nobody else ever holds the mutex. *)
Definition lock_process (s : Turn) : outcome Turn :=
  '(irq, _) ← SharedMutex.lock (current_frames (machine s)) (mkIrq (csrs (machine s)) (lock_counts s));
  let '(l, acquired) := Mutex.try_lock (locked s) in
  if acquired : bool
  then Val (mkTurn (set_csrs (irq_hart irq) (machine s)) (counts irq) l (process_state s))
  else Stop Deadlock.

(** [switch_to_and_come_back], up to the [sret] into the process: [q] is where
    the allocator put the box of [my_trap_frame], [self] the process. *)
Definition enter_process (q self : Z) (s : Turn) : outcome (Turn * Exit) :=
  let m := machine s in
  mine ← return_frame (csrs m) (current_frames m);
  let m := set_words (write_frame q mine (words m)) m in
  '(m, e) ← run_code store_to_trap_frame_and_run_function None
              (set a0 q (set a1 run_address (set a2 self m)));
  Val (mkTurn m (lock_counts s) (locked s) Running, e).

(** A trap of the process, from its program counter to the instruction behind
    [store_to_trap_frame_and_run_function]. *)
Definition come_back (at_ : Z) (m : CpuState) : outcome (CpuState * Exit) :=
  '(m, e) ← run_code s_trap_vector None (trap at_ m);
  match e with
  | Resumed pc => if pc =? symbol ".before_return" then run_code before_return None m else Val (m, e)
  | _ => Val (m, e)
  end.

(** The rest of [switch_to_and_come_back], which drops [my_trap_frame], and the
    end of the statement, which drops the guard. *)
Definition leave_process (q : Z) (s : Turn) : outcome Turn :=
  let m := set_words (free_words 42 q (words (machine s))) (machine s) in
  '(irq, l) ← SharedMutex.unlock (current_frames m) (mkIrq (csrs m) (lock_counts s)) (locked s);
  Val (mkTurn (set_csrs (irq_hart irq) m) (counts irq) l Paused).

(** *** Lemmas *)

(** In the interrupt context locks leave the machine alone. *)
Lemma lock_process_interrupt s p f :
  read_csr Sscratch (machine s) = p -> frame_at (words (machine s)) p f ->
  TrapFrame.is_interrupt_context f = true -> locked s = false ->
  lock_process s = Val (mkTurn (machine s) (lock_counts s) true (process_state s)).
Proof.
  intros Hp Hf Hi Hl. unfold lock_process, SharedMutex.lock, lock_and_disable_interrupts.
  rewrite (current_frames_at _ p f Hp Hf), Hl. unfold in_interrupt_context, frame_ref, load_frame. cbn [irq_hart].
  change (read_sscratch (csrs (machine s))) with (read_csr Sscratch (machine s)). rewrite Hp.
  rewrite (proj2 (Z.eqb_neq p 0)) by (destruct Hf; lia). rewrite lookup_singleton_eq. cbn [mbind outcome_bind].
  rewrite Hi. cbn. by destruct (machine s).
Qed.

(** The end of a turn, with the box of the turn in [sscratch]. *)
Lemma leave_process_dangling q s :
  read_csr Sscratch (machine s) = q -> q <> 0 -> leave_process q s = Stop Undefined.
Proof.
  intros Hq H0. unfold leave_process, SharedMutex.unlock, unlock_and_enable_interrupts_if_necessary.
  assert (Hf : current_frames (set_words (free_words 42 q (words (machine s))) (machine s)) = ∅).
  { unfold current_frames. cbn [words set_words].
    change (read_csr Sscratch (set_words _ _)) with (read_csr Sscratch (machine s)).
    by rewrite Hq, read_frame_gone by (apply free_words_gone; lia). }
  rewrite Hf. unfold in_interrupt_context, frame_ref, load_frame. cbn [irq_hart csrs set_words].
  change (read_sscratch (csrs (machine s))) with (read_csr Sscratch (machine s)).
  by rewrite Hq, (proj2 (Z.eqb_neq q 0) H0), lookup_empty.
Qed.

(** The frame the turn is to come back to. *)
Lemma return_frame_at m p f :
  read_csr Sscratch m = p -> frame_at (words m) p f ->
  exists mine, return_frame (csrs m) (current_frames m) = Val mine /\
    satp mine = read_csr Satp m /\ length (general_registers mine) = 32%nat.
Proof.
  intros Hp Hf. rewrite (current_frames_at _ p f Hp Hf). unfold return_frame, frame_ref, load_frame.
  change (read_sscratch (csrs m)) with (read_csr Sscratch m). rewrite Hp.
  rewrite (proj2 (Z.eqb_neq p 0)) by (destruct Hf; lia). rewrite lookup_singleton_eq. cbn [mbind outcome_bind].
  eexists. split; [reflexivity|]. by split.
Qed.

(** C13: a turn of the process loop.  The hart is in the interrupt context its
    set-up put it in, nobody holds the process's mutex, and the allocator gives
    the turn a block [q] for its frame.  The turn takes the mutex without touching
    the interrupts and leaves for the process, with the process's registers and
    address space; the next trap of the process, whatever it did meanwhile but
    for the two frames and the slot on the stack, brings the hart back behind the
    call with the registers and the address space it left with.  Then the turn
    frees its frame, which [sscratch] still names, and the guard of the mutex,
    which asks the frame in [sscratch] for its context, reads freed memory: no
    turn of the loop has a defined end. *)
Theorem process_turn_dangles s p s0 q self other fp :
  let m := machine s in
  let slot := get sp m - 16 in
  (forall m, preserves (kept p q slot) m (compiled m)) -> frame_of self = p ->
  read_csr Sscratch m = s0 -> frame_at (words m) s0 other ->
  TrapFrame.is_interrupt_context other = true -> locked s = false ->
  frame_at (words m) p fp -> (forall a, in_frame p a -> ~ in_frame q a) ->
  q mod 8 = 0 -> 0 < q -> q + 8 * 42 <= 2 ^ 64 -> ~ in_frame p slot -> ~ in_frame q slot ->
  slot mod 8 = 0 -> 16 <= get sp m < 2 ^ 64 ->
  exists s1 s2, lock_process s = Val s1 /\ locked s1 = true /\ machine s1 = m /\
    enter_process q self s1 = Val (s2, Resumed (pc fp)) /\ process_state s2 = Running /\
    (forall j, (1 <= j < 32)%nat -> get j (machine s2) = default 0 (general_registers fp !! j)) /\
    read_csr Satp (machine s2) = satp fp /\ read_csr Sscratch (machine s2) = p /\
    forall m2 at_,
      read_csr Sscratch m2 = p -> (forall a, kept p q slot a -> words m2 !! a = words (machine s2) !! a) ->
      handled (scause (csrs m2)) ->
      exists m4, come_back at_ m2 = Val (m4, Returned (get ra m)) /\
        (forall j, (j < 32)%nat -> ~ In j [a0; a1; a2] -> get j m4 = get j m) /\
        read_csr Satp m4 = read_csr Satp m /\ read_csr Sscratch m4 = q /\
        leave_process q (mkTurn m4 (lock_counts s2) (locked s2) (process_state s2)) = Stop Undefined.
Proof.
  intros m slot Hcomp Hself Hs0 Hother Hint Hl Hp Hdis Hq8 Hq0 Hq64 Hps Hqs Hal Hb.
  rewrite (lock_process_interrupt s s0 other) by done. fold m.
  exists (mkTurn m (lock_counts s) true (process_state s)). unfold enter_process. cbn [machine].
  destruct (return_frame_at m s0 other Hs0 Hother) as (mine & -> & Hsatp & Hlen). cbn [mbind outcome_bind].
  match goal with |- context [exec _ _ _ store_to_trap_frame_and_run_function None ?x] => set (mc := x) end.
  assert (Hg : forall j, ~ In j [a0; a1; a2] -> get j mc = get j m).
  { intros j Hj. unfold mc. cbn [In] in Hj. rewrite !get_other by (intros ->; tauto). done. }
  assert (Hgsp : get sp mc = get sp m) by (apply Hg; vm_compute; intuition discriminate).
  destruct (switch_and_come_back symbol return_address ecall fw compiled run_address frame_of mc p q fp mine)
    as (m1 & E & Hr1 & Hs1 & Hsa1 & Hback); rewrite ?Hgsp; try done.
  { by apply write_frame_at. }
  { apply (frame_at_ext (words m)); [|done]. intros a Ha. apply write_frame_out; [done|by apply Hdis]. }
  rewrite E. cbn [mbind outcome_bind]. eexists. do 3 (split; [done|]). split; [reflexivity|].
  cbn [machine process_state lock_counts locked]. do 4 (split; [done|]). intros m2 at_ Hs2 Hk Hc.
  destruct (Hback m2 at_) as (m3 & m4 & E3 & E4 & Hg4 & Hsa4 & Hs4 & _); [done|by rewrite Hgsp|lia|done|].
  exists m4. split.
  { unfold come_back. rewrite E3. cbn [mbind outcome_bind]. rewrite Z.eqb_refl, E4. by rewrite Hg by (vm_compute; intuition discriminate). }
  split; [intros j Hj Hn; by rewrite Hg4, Hg|]. split; [by rewrite Hsa4, Hsatp|]. split; [done|].
  apply leave_process_dangling; [done|lia].
Qed.
End Turn.

(** A hart in interrupt context with its frame at 0x1000; the process's frame is
    at 0x3000, the box of the turn at 0x2000. *)
Definition process_machine : CpuState :=
  mkCpu (fun i => if (i =? 2)%nat then 0x8000 else Z.of_nat i) (write_sscratch (sample_hart (interrupt_cause 5)) 0x1000) 0
    (write_frame 0x1000 (TrapFrame.set_interrupt_context (frame_of_process 0 0))
       (write_frame 0x3000 (frame_of_process 0x9000 0) ∅)).

Lemma process_turn_dangles_witness :
  exists s2 m4, enter_process (fun _ => 0) (fun _ => 0) one_hart_firmware [] id 0x80300000 (fun _ => 0x3000)
      0x2000 7 (mkTurn process_machine [] true Paused) = Val (s2, Resumed 0x80400000) /\
    get t3 m4 = 28 /\ leave_process 0x2000 (mkTurn m4 (lock_counts s2) (locked s2) (process_state s2)) = Stop Undefined.
Proof.
  destruct (process_turn_dangles (fun _ => 0) (fun _ => 0) one_hart_firmware [] id 0x80300000 (fun _ => 0x3000)
    (mkTurn process_machine [] false Paused) 0x3000 0x1000 0x2000 7
    (TrapFrame.set_interrupt_context (frame_of_process 0 0)) (frame_of_process 0x9000 0))
    as (s1 & s2 & El & _ & _ & E & _ & _ & _ & _ & H); try reflexivity.
  - done.
  - by apply write_frame_at.
  - apply (frame_at_ext (write_frame 0x3000 (frame_of_process 0x9000 0) ∅)); [|by apply write_frame_at].
    intros a Ha. apply write_frame_out; [done|]. unfold in_frame in *. lia.
  - unfold in_frame. lia.
  - lia.
  - change (~ in_frame 0x3000 0x7ff0). unfold in_frame. lia.
  - change (~ in_frame 0x2000 0x7ff0). unfold in_frame. lia.
  - change (16 <= 0x8000 < 2 ^ 64). lia.
  - destruct (H (mkCpu (fun _ => 0) (write_sscratch (sample_hart (interrupt_cause 5)) 0x3000) 0 (words (machine s2))) 0x80400010)
      as (m4 & _ & Hg & _ & _ & Hd); [done|done|right; vm_compute; done|].
    exists s2, m4. rewrite (lock_process_interrupt _ 0x1000 (TrapFrame.set_interrupt_context (frame_of_process 0 0))) in El
      by (done || by apply write_frame_at).
    injection El as <-. split; [exact E|]. split; [|exact Hd].
    rewrite Hg; [reflexivity|unfold t3; lia|vm_compute; intuition discriminate].
Defined.
