(* ===== verification/Startup.v ===== *)
(** * Start-up: [async_main] and the executors of the harts

    [async_main] of [kernel_main/src/main.rs] makes the executor all harts share,
    puts a handle into [GLOBAL_EXECUTOR], sets its own hart up and starts the
    others; each hart's [setup_hart_state_and_metadata] clones that handle and makes
    an executor of its own, both into the [HartLocals] it leaks.  The hart and its
    frame are those of [Process] and [Harts], the executors' blocks those of
    [ExecutorLife]. *)

From S2P Require Import Prelude Cpu Process SharedLock Paging Boot Harts Executor ExecutorLife Notify.

Section Startup.
(** The futures of the local and of the shared executor. *)
Context {Fut SendFut : Type}.

(** A handle of the shared executor is a reference to the one block. *)
Record HartLocals := mkLocals {
  local_executor : option (ExecutorLife.Block Fut);
  shared_executor : option unit;
  trap_notify : Notify.Notify;
  timer_happened_notify : Notify.Notify;
  timer_scheduled_notify : Notify.Notify;
  timer_queue : list (Z * Notify.Notify)
}.

(** The derived [Default]. *)
Definition default_locals : HartLocals :=
  mkLocals None None Notify.default Notify.default Notify.default [].

(** What the harts share: the global handle with the shared executor's block, and
    the leaked boxes: the locals by address, the frames. *)
Record System := mkSystem {
  GLOBAL_EXECUTOR : option (ExecutorLife.Block SendFut);
  boxes : gmap Z HartLocals;
  hart_frames : frames
}.

(** The executors in [setup_hart_state_and_metadata]: the local one loses the
    reference of [new] when the function ends. *)
Definition setup_executors (s : System) : outcome (HartLocals * System) :=
  let local := ExecutorLife.new_block in
  unwrap! GLOBAL_EXECUTOR s as shared;;
  let shared := ExecutorLife.clone_handle shared in
  local ← ExecutorLife.handle local;
  let l := mkLocals (Some (ExecutorLife.drop_executor local)) (Some tt) (trap_notify default_locals)
             (timer_happened_notify default_locals) (timer_scheduled_notify default_locals)
             (timer_queue default_locals) in
  Val (l, mkSystem (Some shared) (boxes s) (hart_frames s)).

(** The whole of it; [frame] and [locals] are the addresses the two leaked boxes
    get. *)
Definition setup (alloc : Z -> Z -> Z) (s_trap_vector frame locals hartid : Z) (h : Hart) (s : System)
  : outcome (Hart * System) :=
  '(l, s) ← setup_executors s;
  '(h, m) ← Process.setup_hart_state_and_metadata alloc s_trap_vector frame locals h (hart_frames s) hartid;
  Val (h, mkSystem (GLOBAL_EXECUTOR s) (<[locals := l]> (boxes s)) m).

(** [async_main] up to [common_hart_code]. *)
Definition async_main {A} `{StackHeap A} (hart_start : list StartCall -> Z -> Z -> Z -> StartAnswer)
  (g : KernelGlobals) (alloc : Z -> Z -> Z) (s_trap_vector frame locals fuel hartid hart_entry_point : Z)
  (h : Hart) (s : System) (mach : Machine A) : option (outcome (Hart * System * Machine A)) :=
  let executor := ExecutorLife.SendLife.new_block in
  match (executor ← ExecutorLife.SendLife.handle executor;
         setup alloc s_trap_vector frame locals hartid h (mkSystem (Some executor) (boxes s) (hart_frames s))) with
  | Stop p => Some (Stop p)
  | Val (h, s) =>
      match spawn_harts hart_start g h hart_entry_point (Z.to_nat fuel) 0 mach with
      | None => None
      | Some (Stop p) => Some (Stop p)
      | Some (Val mach) => Some (Val (h, s, mach))
      end
  end.

(** Another hart's way through [setup_hart]: its number and the boxes it gets. *)
Record Arrival := mkArrival { hart : Z; hart_csrs : Hart; hart_frame : Z; hart_locals_box : Z }.

Definition arrive (alloc : Z -> Z -> Z) (s_trap_vector : Z) (s : System) (a : Arrival) : outcome System :=
  '(_, s) ← setup alloc s_trap_vector (hart_frame a) (hart_locals_box a) (hart a) (hart_csrs a) s; Val s.

(** ** Properties *)

(** The locals every hart gets. *)
Definition fresh_locals : HartLocals :=
  mkLocals (Some (ExecutorLife.mkBlock (Some new) 1 2)) (Some tt) Notify.default Notify.default Notify.default [].

(** The frame of a hart: which boxes it names. *)
Lemma setup_spec alloc vector frame locals hartid h s b :
  GLOBAL_EXECUTOR s = Some b -> alloc 4096 4096 + 4096 < 2 ^ 64 ->
  exists h' f, setup alloc vector frame locals hartid h s =
      Val (h', mkSystem (Some (ExecutorLife.clone_handle b)) (<[locals := fresh_locals]> (boxes s))
                 (<[frame := f]> (hart_frames s))) /\
    sscratch h' = frame /\ hart_locals f = locals /\ Cpu.hartid f = hartid.
Proof.
  intros Hb Ha. unfold setup, setup_executors. rewrite Hb. cbn [mbind outcome_bind].
  unfold Process.setup_hart_state_and_metadata, boxed_slice_with_alignment_uninit. cbn [hart_frames].
  rewrite checked_mul_Val by lia. cbn [mbind outcome_bind]. change (4096 * 1) with 4096.
  change (layout_ok 4096 4096) with true. cbn [mbind outcome_bind]. checked.
  do 2 eexists. split; [reflexivity|]. by repeat split.
Qed.

(** What has arrived: the global handle, the references to its block, and for
    each pair of a frame and a box of locals what is in them. *)
Record arrived (l : list (Z * Z)) (s : System) : Prop := {
  ar_global : exists b, GLOBAL_EXECUTOR s = Some b /\ ExecutorLife.executor b = Some new /\
                ExecutorLife.strong b = (2 + length l)%nat;
  ar_boxes : forall f p, (f, p) ∈ l ->
    boxes s !! p = Some fresh_locals /\ exists t, hart_frames s !! f = Some t /\ hart_locals t = p
}.

Lemma setup_arrived alloc vector frame locals hartid h s l :
  alloc 4096 4096 + 4096 < 2 ^ 64 -> arrived l s ->
  (forall f p, (f, p) ∈ l -> f <> frame /\ p <> locals) ->
  exists h' s', setup alloc vector frame locals hartid h s = Val (h', s') /\ sscratch h' = frame /\
    arrived (l ++ [(frame, locals)]) s'.
Proof.
  intros Ha [(b & Hb & He & Hs) Hl] Hnew.
  destruct (setup_spec alloc vector frame locals hartid h s b Hb Ha) as (h' & t & E & Hsc & Ht & _).
  do 2 eexists. split; [exact E|]. split; [exact Hsc|]. split.
  - eexists. split; [reflexivity|]. split; [exact He|]. rewrite length_app. cbn. lia.
  - intros f p [Hin|Hin]%elem_of_app; cbn [boxes hart_frames].
    + destruct (Hnew f p Hin) as [Hf Hp]. rewrite !lookup_insert_ne by done. by apply Hl.
    + apply list_elem_of_singleton in Hin as [= -> ->]. rewrite !lookup_insert_eq. by eauto.
Qed.

Definition places (a : Arrival) : Z * Z := (hart_frame a, hart_locals_box a).

Lemma arrivals_arrived alloc vector arrivals : forall l s,
  alloc 4096 4096 + 4096 < 2 ^ 64 -> arrived l s ->
  NoDup (List.map fst (l ++ List.map places arrivals)) -> NoDup (List.map snd (l ++ List.map places arrivals)) ->
  exists s', for_each (arrive alloc vector) arrivals s = Val s' /\ arrived (l ++ List.map places arrivals) s'.
Proof.
  induction arrivals as [|a arrivals IH]; intros l s Ha Hl Hf Hp; cbn [List.map] in *.
  { exists s. by rewrite app_nil_r. }
  assert (Hnew : forall f p, (f, p) ∈ l -> f <> hart_frame a /\ p <> hart_locals_box a).
  { intros f p Hin. rewrite !map_app in Hf, Hp. cbn in Hf, Hp.
    apply list.NoDup_app in Hf as (_ & Hf & _). apply list.NoDup_app in Hp as (_ & Hp & _).
    split; intros ->; [apply (Hf (hart_frame a))|apply (Hp (hart_locals_box a))]; try by left.
    - apply list_elem_of_fmap. by exists (hart_frame a, p).
    - apply list_elem_of_fmap. by exists (f, hart_locals_box a). }
  destruct (setup_arrived alloc vector (hart_frame a) (hart_locals_box a) (hart a) (hart_csrs a) s l Ha Hl Hnew)
    as (h' & s1 & E & _ & H1).
  destruct (IH (l ++ [places a]) s1 Ha H1) as (s' & E' & H').
  { by rewrite <- app_assoc. } { by rewrite <- app_assoc. }
  assert (Ea : arrive alloc vector s a = Val s1) by (unfold arrive; by rewrite E).
  exists s'. cbn [for_each]. rewrite Ea. cbn [mbind outcome_bind]. rewrite E'.
  split; [done|]. by rewrite <- app_assoc in H'.
Qed.
End Startup.
Arguments HartLocals Fut : clear implicits.
Arguments System Fut SendFut : clear implicits.
Arguments mkSystem {Fut SendFut}.
Arguments fresh_locals {Fut}.


