(* ===== verification/Printing.v ===== *)
(** * Printing: the serial port, the printing macros and what they print

    The five copies of the [Uart] writer with their [print!] and [println!]
    macros ([kernel_bootloader/src/main.rs], [kernel_main/src/main.rs] and
    [std_macros.rs], [kernel_util/src/debug.rs], [kernel_paging/src/debug.rs]),
    the macros of [kernel_printer] that reach one of them, the [Debug] of [Entry]
    and the pretty-printer of device trees.

    A text is a list of bytes.  [core::fmt] hands a formatted text to [write_str]
    in pieces, so a macro takes the list of its pieces; what it does is the list
    of its byte stores.  [{:?}] of a string quotes and escapes by the tables of
    Unicode: [debug_str] is a parameter. *)

From S2P Require Import Prelude PagingBits Paging Boot Harts Utf8 BTreeMap Fdt.

Abbreviation text := (list Z).

(** The bytes of a literal of the source. *)
Definition ascii (s : string) : text := List.map (fun c => Z.of_N (Ascii.N_of_ascii c)) (String.list_ascii_of_string s).

Definition CRLF : text := [0x0D; 0x0A].
Definition QUOTE : text := [0x22].

(** ** The macros *)

Section Macros.
(** The address [get_uart] answers. *)
Context (uart : Z).

Definition print_to (args : list text) : list (Z * Z) := concat (List.map (write_str uart) args).
Definition println_to (args : list text) : list (Z * Z) := print_to (args ++ [CRLF]).

Lemma println_stores args : println_to args = write_str uart (concat args ++ CRLF).
Proof.
  unfold println_to, print_to. rewrite List.map_app, concat_app. cbn [List.map concat]. rewrite app_nil_r.
  unfold write_str. rewrite List.map_app. f_equal. induction args as [|a args IH]; [done|].
  cbn [List.map concat]. by rewrite IH, List.map_app.
Qed.
End Macros.

(** [kernel_bootloader]: physical memory at its own address. *)
Module Bootloader.
Definition get_uart : Z := 0x10000000.
Definition write_str (s : text) : list (Z * Z) := Harts.write_str get_uart s.
Definition print (args : list text) : list (Z * Z) := print_to get_uart args.
Definition println (args : list text) : list (Z * Z) := println_to get_uart args.
(** The panic handler, up to its endless loop; [info] is the text of the [PanicInfo]. *)
Definition panic (info : text) : list (Z * Z) :=
  println [QUOTE ++ ascii "Bootloader Panic" ++ QUOTE] ++ println [info].
End Bootloader.

Module KernelUtil.
Definition get_uart : Z := 0x10000000.
Definition write_str (s : text) : list (Z * Z) := Harts.write_str get_uart s.
Definition print (args : list text) : list (Z * Z) := print_to get_uart args.
Definition println (args : list text) : list (Z * Z) := println_to get_uart args.
End KernelUtil.

Module KernelPaging.
Definition get_uart : Z := 0x10000000.
Definition write_str (s : text) : list (Z * Z) := Harts.write_str get_uart s.
Definition print (args : list text) : list (Z * Z) := print_to get_uart args.
Definition println (args : list text) : list (Z * Z) := println_to get_uart args.
End KernelPaging.

(** [kernel_main/src/std_macros.rs]: the two functions [kernel_printer] links to. *)
Module StdMacros.
Definition get_uart : Z := 0xffffffc010000000.
Definition write_str (s : text) : list (Z * Z) := Harts.write_str get_uart s.
Definition get_printer : Z := get_uart.
Definition get_printer_lockfree : Z := get_uart.
End StdMacros.

Module KernelPrinter.
Definition print (args : list text) : list (Z * Z) := print_to StdMacros.get_printer args.
Definition println (args : list text) : list (Z * Z) := println_to StdMacros.get_printer args.
Definition print_u (args : list text) : list (Z * Z) := print_to StdMacros.get_printer_lockfree args.
Definition println_u (args : list text) : list (Z * Z) := println_to StdMacros.get_printer_lockfree args.
End KernelPrinter.

(** [kernel_main/src/main.rs]: the address depends on the [GAP]. *)
Module KernelMain.
Definition print (g : KernelGlobals) (args : list text) : outcome (list (Z * Z)) :=
  uart ← get_uart g; Val (print_to uart args).
Definition println (g : KernelGlobals) (args : list text) : outcome (list (Z * Z)) :=
  uart ← get_uart g; Val (println_to uart args).
(** The panic handler, up to its endless loop; the [Option]s of [PanicInfo]. *)
Definition panic (g : KernelGlobals) (message location : option text) : outcome (list (Z * Z)) :=
  s1 ← println g [QUOTE ++ ascii "Panic!" ++ QUOTE];
  let message := default (ascii "<no message>") message in
  unwrap! location as location;;
  s2 ← println g [QUOTE; message; QUOTE ++ ascii " at " ++ [0x1B] ++ ascii "[94m"; location;
                  [0x1B] ++ ascii "[0m"];
  Val (s1 ++ s2).
End KernelMain.

(** The addresses reach the port in the address spaces they are used in.  The
    macros of [kernel_util] and [kernel_paging] name the physical address, which
    is not mapped in the tables of a hart. *)
Theorem printers_reach_the_port payload len kernel_physical g :
  GAP g = 2 ^ 64 - 2 ^ 38 ->
  boot_translation payload len Bootloader.get_uart = 0x10000000 /\
  hart_translation kernel_physical (StdMacros.get_uart mod 2 ^ 39) = Ok 0x10000000 /\
  get_uart g = Val StdMacros.get_uart /\
  hart_translation kernel_physical KernelUtil.get_uart = Err Invalid /\
  hart_translation kernel_physical KernelPaging.get_uart = Err Invalid.
Proof.
  intros HG. unfold get_uart. rewrite HG. repeat split; reflexivity.
Qed.

Lemma printers_reach_the_port_witness :
  hart_translation 0x80600000 KernelUtil.get_uart = Err Invalid.
Proof. apply (printers_reach_the_port 0x80600000 0x2a000 0x80600000 sample_globals). reflexivity. Defined.

(** ** [Debug] of [Entry] *)

(** [f.write_char(c)?] under a condition. *)
Definition letter (value bit : Z) (c : string) : text := if Z.land value bit =? 0 then [] else ascii c.

Definition Entry_fmt (self : Entry) : text :=
  ascii "<Entry: " ++
  (if Z.land (value self) EntryBits.VALID =? 0 then
     ascii "Invalid entry: " ++ hex_string (value self)
   else if Z.land (value self) EntryBits.RWX =? 0 then
     ascii "Table to: " ++ hex_string (ushl (Z.land (value self) EntryBits.ADDRESS_MASK) 2)
   else
     letter (value self) EntryBits.READ "R" ++ letter (value self) EntryBits.WRITE "W" ++
     letter (value self) EntryBits.EXECUTE "X" ++ letter (value self) EntryBits.USER "U" ++
     ascii " " ++ hex_string (ushl (Z.land (value self) EntryBits.ADDRESS_MASK) 2)) ++
  ascii ">".

Example Entry_fmt_leaf : Entry_fmt (mkEntry 0x2000000f) = ascii "<Entry: RWX 80000000>".
Proof. reflexivity. Qed.

(** What the text is about. *)
Inductive EntryView :=
  | ViewInvalid (value : Z)
  | ViewTable (address : Z)
  | ViewLeaf (r w x u : bool) (address : Z).

Definition entry_view (e : Entry) : EntryView :=
  if Z.land (value e) EntryBits.VALID =? 0 then ViewInvalid (value e)
  else if Z.land (value e) EntryBits.RWX =? 0 then ViewTable (Entry.address e)
  else ViewLeaf (negb (Z.land (value e) EntryBits.READ =? 0)) (negb (Z.land (value e) EntryBits.WRITE =? 0))
         (negb (Z.land (value e) EntryBits.EXECUTE =? 0)) (negb (Z.land (value e) EntryBits.USER =? 0))
         (Entry.address e).

(** A reader of the text. *)
Definition strip (prefix l : text) : option text :=
  if bool_decide (take (length prefix) l = prefix) then Some (drop (length prefix) l) else None.
Definition strip_letter (c : string) (l : text) : bool * text :=
  match strip (ascii c) l with Some l => (true, l) | None => (false, l) end.
Definition number (l : text) : option Z := from_str_radix_16 (removelast l).

Definition read_entry (l : text) : option EntryView :=
  l ← strip (ascii "<Entry: ") l;
  match strip (ascii "Invalid entry: ") l, strip (ascii "Table to: ") l with
  | Some l, _ => v ← number l; Some (ViewInvalid v)
  | None, Some l => a ← number l; Some (ViewTable a)
  | None, None =>
      let '(r, l) := strip_letter "R" l in
      let '(w, l) := strip_letter "W" l in
      let '(x, l) := strip_letter "X" l in
      let '(u, l) := strip_letter "U" l in
      l ← strip (ascii " ") l;
      a ← number l; Some (ViewLeaf r w x u a)
  end.

Lemma strip_app p l : strip p (p ++ l) = Some l.
Proof. unfold strip. rewrite take_app_length, drop_app_length. by rewrite bool_decide_true. Qed.

Lemma strip_cons c p d l : strip (c :: p) (d :: l) = if c =? d then strip p l else None.
Proof.
  unfold strip. cbn [length take drop]. destruct (Z.eqb_spec c d) as [->|Hne].
  - repeat case_bool_decide; congruence.
  - rewrite bool_decide_false; congruence.
Qed.

Lemma strip_nil l : strip [] l = Some l.
Proof. unfold strip. by rewrite bool_decide_true. Qed.

Lemma number_hex v : is_usize v -> number (hex_string v ++ ascii ">") = Some v.
Proof. intros Hv. unfold number. change (ascii ">") with [0x3E]. rewrite removelast_last. by apply hex_string_parse. Qed.

Lemma address_usize e : is_usize (Entry.address e).
Proof. unfold Entry.address, ushl, is_usize. apply Z.mod_pos_bound. lia. Qed.

(** The text of an entry can be read back: whether it is valid, a table or a
    leaf, the permissions and [U] of a leaf, the address, and the whole value of
    an invalid entry. *)
Theorem entry_debug_read_back e : is_usize (value e) -> read_entry (Entry_fmt e) = Some (entry_view e).
Proof.
  intros He. pose proof (address_usize e) as Ha. unfold Entry_fmt, read_entry, entry_view.
  rewrite strip_app. cbn [mbind option_bind].
  destruct (Z.land (value e) EntryBits.VALID =? 0).
  { rewrite <- app_assoc, strip_app, number_hex by done. done. }
  fold (Entry.address e). destruct (Z.land (value e) EntryBits.RWX =? 0).
  { rewrite <- app_assoc, strip_app. change (ascii "Table to: ") with (0x54 :: ascii "able to: ").
    change (ascii "Invalid entry: ") with (0x49 :: ascii "nvalid entry: "). cbn [app]. rewrite strip_cons.
    cbn [Z.eqb Pos.eqb]. by rewrite number_hex. }
  unfold letter, strip_letter. change (ascii "R") with [0x52]. change (ascii "W") with [0x57].
  change (ascii "X") with [0x58]. change (ascii "U") with [0x55]. change (ascii " ") with [0x20].
  change (ascii "Invalid entry: ") with (0x49 :: ascii "nvalid entry: ").
  change (ascii "Table to: ") with (0x54 :: ascii "able to: ").
  destruct (Z.land (value e) EntryBits.READ =? 0), (Z.land (value e) EntryBits.WRITE =? 0),
    (Z.land (value e) EntryBits.EXECUTE =? 0), (Z.land (value e) EntryBits.USER =? 0);
    cbn [app negb]; repeat (rewrite ?strip_cons, ?strip_nil; cbn [Z.eqb Pos.eqb mbind option_bind]);
    by rewrite number_hex.
Qed.

(** ** Harts that print at the same time

    The lock the comment in every [print!] speaks of is commented out: a hart
    stores its bytes one by one, whatever the others do. *)

(** A hart and the bytes it has still to store; the port's log tells whose a
    byte is. *)
Definition print_step (p : nat * text) (log : list (nat * Z)) : outcome (nat * text * list (nat * Z)) :=
  match p.2 with
  | [] => Val (p, log)
  | b :: rest => Val ((p.1, rest), log ++ [(p.1, b)])
  end.

Definition bytes_of (hart : nat) (log : list (nat * Z)) : text :=
  omap (fun e => if (e.1 =? hart)%nat then Some e.2 else None) log.

Definition harts_printing (texts : list text) : list (nat * text) := imap (fun i t => (i, t)) texts.

Lemma bytes_of_snoc i log h b : bytes_of i (log ++ [(h, b)]) = bytes_of i log ++ (if (h =? i)%nat then [b] else []).
Proof. unfold bytes_of. rewrite omap_app. cbn. by destruct (h =? i)%nat. Qed.

Lemma print_steps (texts : list text) sched ps log :
  (forall i p, ps !! i = Some p -> p.1 = i /\ texts !! i = Some (bytes_of i log ++ p.2)) ->
  exists ps' log', run_schedule print_step sched (ps, log) = Val (ps', log') /\ length ps' = length ps /\
    forall i p, ps' !! i = Some p -> p.1 = i /\ texts !! i = Some (bytes_of i log' ++ p.2).
Proof.
  revert ps log. induction sched as [|h sched IH]; intros ps log Hi; [by exists ps, log|].
  change (run_schedule print_step (h :: sched) (ps, log))
    with (c ← turn print_step (ps, log) h; run_schedule print_step sched c).
  unfold turn. cbn [fst snd].
  destruct (ps !! h) as [[i [|b rest]]|] eqn:Eh; cbn [print_step fst snd mbind outcome_bind].
  - rewrite list_insert_id by done. by apply IH.
  - destruct (Hi h _ Eh) as [Hfst Ht]. cbn [fst snd] in Hfst, Ht. subst i.
    destruct (IH (<[h := (h, rest)]> ps) (log ++ [(h, b)])) as (ps' & log' & E & Hl & H).
    + intros j p Hj. rewrite bytes_of_snoc. apply list_lookup_insert_Some in Hj as [(<- & <- & _)|[Hne Hj]].
      * rewrite Nat.eqb_refl, <- app_assoc. by split.
      * rewrite (proj2 (Nat.eqb_neq h j)), app_nil_r by done. by apply Hi.
    + exists ps', log'. split; [exact E|]. by rewrite Hl, length_insert.
  - by apply IH.
Qed.

(** Printing without a lock.  Under every schedule no byte is lost, doubled or
    moved before an earlier one of the same hart: what the port got from a hart
    is the beginning of its text.  But lines mix: two harts that print a line each
    can leave the lines interleaved byte by byte. *)
Theorem unlocked_lines_mix :
  (forall (texts : list text) sched, exists ps log,
     run_schedule print_step sched (harts_printing texts, []) = Val (ps, log) /\ length ps = length texts /\
     forall i rest, ps !! i = Some (i, rest) -> texts !! i = Some (bytes_of i log ++ rest)) /\
  exists sched ps log,
    run_schedule print_step sched (harts_printing [ascii "ab" ++ CRLF; ascii "cd" ++ CRLF], []) = Val (ps, log) /\
    List.map snd log = ascii "acbd" ++ [0x0D; 0x0D; 0x0A; 0x0A].
Proof.
  split.
  - intros texts sched. destruct (print_steps texts sched (harts_printing texts) []) as (ps & log & E & Hl & H).
    + intros i p Hp. unfold harts_printing in Hp. rewrite list_lookup_imap in Hp.
      by destruct (texts !! i) as [t|]; [injection Hp as <-|].
    + exists ps, log. split; [exact E|]. split; [unfold harts_printing in Hl; by rewrite Hl, length_imap|].
      intros i rest Hi. apply (H i _ Hi).
  - exists [0; 1; 0; 1; 0; 1; 0; 1]%nat. eexists _, _. split; [reflexivity|]. reflexivity.
Qed.

(** ** The pretty-printer of device trees *)

(** [{:?}] of a slice of bytes and the elements of a [VecDeque]. *)
Fixpoint decimal_fuel (fuel : nat) (n : Z) : text :=
  match fuel with
  | O => []
  | S fuel => (if n <? 10 then [] else decimal_fuel fuel (n / 10)) ++ [0x30 + n mod 10]
  end.
Definition decimal (n : Z) : text := decimal_fuel 20 n.

Definition debug_list (l : list text) : text :=
  ascii "[" ++ (match l with [] => [] | x :: l => x ++ concat (List.map (fun y => ascii ", " ++ y) l) end) ++ ascii "]".

Section Pretty.
Context (debug_str : text -> text).
(** The tree the paths of [PHandle]s lead through. *)
Context (tree : Node).

Definition as_str (self : PropertyValue) : text :=
  match self with
  | Empty => ascii "true"
  | PropSpecific val => debug_list (List.map decimal val)
  | StringList val => debug_list (List.map debug_str val)
  | String val => val
  | u32 val | PHandleRaw val => hex_string val
  | PHandle val => ascii "<" ++ match Node.follow tree val with Some n => name n | None => [] end ++ ascii ">"
  | u64 val => hex_string val
  end.

Definition indentation (n : nat) : text := concat (replicate n (ascii "    ")).

(** The texts [pretty] hands to [println!], one for each line. *)
Definition title (n : Node) : text :=
  match unit_address n with
  | Some e => name n ++ [AT] ++ hex_string e
  | None => name n
  end.

Fixpoint pretty (indent : nat) (this : Node) : list text :=
  [indentation indent ++ title this ++ ascii " {"] ++
  List.map (fun kv => indentation (S indent) ++ kv.1 ++ ascii " = " ++ as_str kv.2) (properties this) ++
  concat (List.map (fun e => concat (List.map (fun c => pretty (S indent) c.2) e.2)) (children this)) ++
  [indentation indent ++ ascii "}"].

(** ** Reading it back *)

Inductive Outline := mkOutline {
  heading : text;
  entries : list (text * text);
  parts : list Outline
}.

Fixpoint outline (this : Node) : Outline :=
  mkOutline (title this) (List.map (fun kv => (kv.1, as_str kv.2)) (properties this))
    (concat (List.map (fun e => List.map (fun c => outline c.2) e.2) (children this))).

Inductive Line := OpenLine (t : text) | PropertyLine (k v : text) | CloseLine | BadLine.

Definition SPACE : Z := 0x20.

(** A line where [depth] nodes are open. *)
Definition read_line (depth : nat) (l : text) : Line :=
  if bool_decide (l = indentation (pred depth) ++ ascii "}") then CloseLine
  else match strip (indentation depth) l with
       | None => BadLine
       | Some l =>
           match split_once SPACE l with
           | None => BadLine
           | Some (t, rest) =>
               if bool_decide (rest = ascii "{") then OpenLine t
               else match strip (ascii "= ") rest with Some v => PropertyLine t v | None => BadLine end
           end
       end.

Definition add_part (o p : Outline) : Outline := mkOutline (heading o) (entries o) (parts o ++ [p]).
Definition add_entry (o : Outline) (kv : text * text) : Outline := mkOutline (heading o) (entries o ++ [kv]) (parts o).

(** The open nodes, the innermost first. *)
Fixpoint read_lines (stack : list Outline) (ls : list text) : option Outline :=
  match ls with
  | [] => None
  | l :: ls =>
      match read_line (length stack) l, stack with
      | OpenLine t, _ => read_lines (mkOutline t [] [] :: stack) ls
      | PropertyLine k v, o :: stack => read_lines (add_entry o (k, v) :: stack) ls
      | CloseLine, [o] => match ls with [] => Some o | _ => None end
      | CloseLine, o :: p :: stack => read_lines (add_part p o :: stack) ls
      | _, _ => None
      end
  end.

(** Names as the Devicetree Specification allows them have no space, and neither
    does an address in hexadecimal. *)
Definition no_space (t : text) : Prop := Forall (fun b => b <> SPACE) t.

Fixpoint names_ok (this : Node) : Prop :=
  no_space (title this) /\ List.Forall (fun kv => no_space kv.1) (properties this) /\
  List.fold_right (fun e P => List.fold_right (fun c Q => names_ok c.2 /\ Q) True e.2 /\ P) True (children this).

(** Induction over a tree by its children. *)
Lemma node_children_ind (P : Node -> Prop) :
  (forall n, List.Forall P (Node.children_list n) -> P n) -> forall n, P n.
Proof.
  intros H. fix IH 1. intros [nm u cs ps]. apply H. unfold Node.children_list. cbn [children].
  induction cs as [|[k m] cs IHc]; [constructor|]. cbn [List.map concat snd]. apply List.Forall_app.
  split; [|exact IHc]. clear IHc. induction m as [|[a c] m IHm]; [constructor|].
  constructor; [apply IH|exact IHm].
Qed.

Lemma concat_children {A} (f : Node -> list A) cs :
  concat (List.map (fun e : text * list (option Z * Node) => concat (List.map (fun c => f c.2) e.2)) cs)
  = concat (List.map f (concat (List.map (fun e => List.map snd (snd e)) cs))).
Proof.
  induction cs as [|[k m] cs IH]; [done|]. cbn [List.map concat snd].
  rewrite List.map_app, List.concat_app, IH. f_equal. by rewrite List.map_map.
Qed.

Lemma pretty_eq indent n :
  pretty indent n =
  (indentation indent ++ title n ++ ascii " {") ::
  List.map (fun kv => indentation (S indent) ++ kv.1 ++ ascii " = " ++ as_str kv.2) (properties n) ++
  concat (List.map (pretty (S indent)) (Node.children_list n)) ++ [indentation indent ++ ascii "}"].
Proof. destruct n. cbn [pretty app]. unfold Node.children_list. by rewrite <- concat_children. Qed.

Lemma outline_eq n :
  outline n = mkOutline (title n) (List.map (fun kv => (kv.1, as_str kv.2)) (properties n))
                (List.map outline (Node.children_list n)).
Proof.
  destruct n as [nm u cs ps]. cbn [outline]. f_equal. unfold Node.children_list. cbn [children].
  induction cs as [|[k m] cs IH]; [done|]. cbn [List.map concat snd].
  rewrite List.map_app, IH, List.map_map. done.
Qed.

Lemma names_ok_eq n :
  names_ok n <-> no_space (title n) /\ List.Forall (fun kv => no_space kv.1) (properties n) /\
                 List.Forall names_ok (Node.children_list n).
Proof.
  destruct n as [nm u cs ps]. cbn [names_ok]. unfold Node.children_list. cbn [children properties].
  do 2 apply and_iff_compat_l. induction cs as [|[k m] cs IH]; [done|]. cbn [List.fold_right List.map concat snd].
  rewrite List.Forall_app, IH. apply and_iff_compat_r. clear IH.
  induction m as [|[a c] m IH]; [by split|]. cbn [List.fold_right List.map snd].
  by rewrite List.Forall_cons_iff, IH.
Qed.

Lemma split_once_space t rest : no_space t -> split_once SPACE (t ++ SPACE :: rest) = Some (t, rest).
Proof.
  induction 1 as [|b t Hb _ IH]; [done|]. cbn [app split_once].
  rewrite (proj2 (Z.eqb_neq b SPACE)), IH by done. done.
Qed.

Lemma indentation_snoc d : indentation (S d) = indentation d ++ ascii "    ".
Proof.
  induction d as [|d IH]; [done|]. change (indentation (S (S d))) with (ascii "    " ++ indentation (S d)).
  rewrite IH at 1. by rewrite app_assoc.
Qed.

(** A line at least as deep as the open nodes does not close one. *)
Lemma not_closing d t : indentation (S d) ++ t <> indentation d ++ ascii "}".
Proof. rewrite indentation_snoc, <- app_assoc. by intros E%app_inv_head. Qed.

Lemma read_open d t : no_space t -> read_line d (indentation d ++ t ++ ascii " {") = OpenLine t.
Proof.
  intros Ht. unfold read_line. rewrite bool_decide_false.
  - rewrite strip_app. change (ascii " {") with (SPACE :: ascii "{"). by rewrite split_once_space, bool_decide_true.
  - destruct d as [|d]; [|apply not_closing]. intros E%(f_equal length). cbn in E.
    rewrite length_app in E. cbn in E. lia.
Qed.

Lemma read_property d k v :
  no_space k -> read_line (S d) (indentation (S d) ++ k ++ ascii " = " ++ v) = PropertyLine k v.
Proof.
  intros Hk. unfold read_line. cbn [pred]. rewrite bool_decide_false by apply not_closing.
  rewrite strip_app. change (ascii " = " ++ v) with (SPACE :: ascii "= " ++ v).
  rewrite split_once_space by done. rewrite bool_decide_false, strip_app; [done|].
  change (0x3D :: 0x20 :: v <> [0x7B]). done.
Qed.

Lemma read_close d : read_line (S d) (indentation d ++ ascii "}") = CloseLine.
Proof. unfold read_line. by rewrite bool_decide_true. Qed.

(** Lines of properties, then of children. *)
Lemma read_properties o stack ps rest :
  List.Forall (fun kv => no_space kv.1) ps ->
  read_lines (o :: stack)
    (List.map (fun kv => indentation (S (length stack)) ++ kv.1 ++ ascii " = " ++ as_str kv.2) ps ++ rest)
  = read_lines (mkOutline (heading o) (entries o ++ List.map (fun kv => (kv.1, as_str kv.2)) ps) (parts o) :: stack) rest.
Proof.
  intros Hp. revert o. induction Hp as [|[k v] ps Hk _ IH]; intros o.
  - cbn [List.map app]. rewrite app_nil_r. by destruct o.
  - cbn [List.map app read_lines length fst snd] in *. rewrite read_property by done. rewrite IH.
    unfold add_entry. cbn [heading entries parts]. by rewrite <- app_assoc.
Qed.

(** What reading a whole node does: it becomes a part of the innermost open one. *)
Definition node_read (stack : list Outline) (o : Outline) (rest : list text) : option Outline :=
  match stack with
  | [] => match rest with [] => Some o | _ => None end
  | p :: stack => read_lines (add_part p o :: stack) rest
  end.

Definition reads_back (n : Node) : Prop := names_ok n -> forall stack rest,
  read_lines stack (pretty (length stack) n ++ rest) = node_read stack (outline n) rest.

Lemma read_children o stack ns rest :
  List.Forall reads_back ns -> List.Forall names_ok ns ->
  read_lines (o :: stack) (concat (List.map (pretty (S (length stack))) ns) ++ rest)
  = read_lines (mkOutline (heading o) (entries o) (parts o ++ List.map outline ns) :: stack) rest.
Proof.
  intros Hr. revert o. induction Hr as [|n ns Hn _ IH]; intros o Hok.
  - cbn [List.map concat app]. rewrite app_nil_r. by destruct o.
  - apply List.Forall_cons_iff in Hok as [Hok1 Hok2]. cbn [List.map concat]. rewrite <- app_assoc.
    rewrite (Hn Hok1 (o :: stack)). cbn [node_read]. rewrite IH by done.
    unfold add_part. cbn [heading entries parts]. by rewrite <- app_assoc.
Qed.

(** The text of a device tree.  When no name has a space, the lines [pretty]
    prints can be read back: the headings with their addresses, the properties
    with their texts, and which node lies in which. *)
Theorem pretty_read_back n : names_ok n -> read_lines [] (pretty 0 n) = Some (outline n).
Proof.
  intros Hok. enough (H : reads_back n) by (by rewrite <- (app_nil_r (pretty 0 n)); exact (H Hok [] [])).
  clear Hok. induction n as [n IH] using node_children_ind. intros Hok stack rest.
  apply names_ok_eq in Hok as (Ht & Hp & Hc). rewrite pretty_eq. cbn [app read_lines].
  rewrite read_open by done. rewrite <- !app_assoc.
  rewrite (read_properties (mkOutline (title n) [] []) stack) by done. cbn [heading entries parts app].
  rewrite read_children by done. cbn [heading entries parts app read_lines length].
  rewrite read_close, <- outline_eq. by destruct stack.
Qed.
End Pretty.

(** A machine with a memory node that has a property that looks like a line. *)
Definition sample_tree : Node :=
  mkNode [] None
    [(ascii "memory", [(Some 0x80000000,
        mkNode (ascii "memory") (Some 0x80000000) [] [(ascii "device_type", String (ascii "}"))])])]
    [(ascii "#size-cells", u32 2)].

Lemma pretty_read_back_witness :
  read_lines [] (pretty (fun t => t) sample_tree 0 sample_tree) = Some (outline (fun t => t) sample_tree sample_tree).
Proof.
  apply (pretty_read_back (fun t => t) sample_tree sample_tree).
  repeat constructor; discriminate.
Defined.
