(* ===== verification/RepoTests.v ===== *)
(** * The repository's tests, run on the model

    The three [#[test]] functions under [src/kernel], translated with the
    definitions of this development: [test] of [kernel_paging/src/paging.rs], of
    [arcinject/src/lib.rs] and of [kernel_send_generic/src/single_threaded.rs].  What
    they print is not looked at, what they assert holds by computation; locals are
    dropped in the reverse order of their declarations.

    The test of the page tables leaves out the two conversions of addresses that
    [Sv32] has as fields by now; here they are the identity. *)

From S2P Require Import Prelude PagingBits Paging ArcInject Refcount.

(** ** paging.rs *)

(** The table at address 0x1000; the heap is not used. *)
Definition paging_test (alloc : mem -> option (Z * list Entry)) : outcome (Z * Z) :=
  let table2 := Build_GenericPaging 0x1000 Val Val in
  m ← Paging.map 2 4 alloc table2 0 0 (2 ^ 31) 7 {[ 0x1000 := zeroed 4 ]};
  _ ← for_each (fun _ a =>
        r ← query 2 4 table2 m a;
        match r with
        | Err _ => Stop UnwrapFailed
        | Ok p => assert! p =? a;; Val tt
        end) [0x6000; 0x62000; 0x23000; 0x7fc00000; 0x1fc00000; 0x10200000] tt;
  highest ← maximum_noncanon_virtual_address 2 4;
  assert! highest =? 0xffffffff;;
  Val (highest, get_vpn_offset 2 4).

(** ** arcinject *)

(** [Test { b: 1 }] at the address [p]; [tb] points to its field. *)
Definition arcinject_test (p : Z) : outcome (Z * Z * gmap Z (@ArcInner Z)) :=
  let h := Arc_new ∅ p 1 in
  h ← ArcInject_new h p;
  b ← ArcInject.deref h p;
  t ← ArcInject.deref h p;
  h ← ArcInject_drop h p;
  Val (b, t, h).

(** ** single_threaded.rs *)

(** [q]: the clones are dropped at the ends of their statements. *)
Definition refcount_test (R W : Type) `{Refcount R W} (p : Z) : outcome (heap Z) :=
  let '(h, b) := rc_new ∅ p 1 in
  let clone h := '(h, c) ← rc_clone h b; rc_drop h c in
  h ← clone h;
  h ← clone h;
  h ← clone h;
  rc_drop h b.

(** ** What they show *)

(** Every assertion of the tests holds, nothing stops, and nothing of the
    counted block is left; the [Arc] of the second test has no [Drop], so its block
    stays, with the count of one it was made with. *)
Example repository_tests_pass :
  paging_test (fun _ => None) = Val (0xffffffff, 32) /\
  arcinject_test 0x1000 = Val (1, 1, {[ 0x1000 := mkInner 1 0 (Some 1) ]}) /\
  refcount_test ThreadRefcount ThreadRefcountWeak 0x1000 = Val ∅.
Proof. split_and!; vm_compute; reflexivity. Qed.
